(* ===== verification/_CoqProject ===== *)
-Q . S2P
Prelude.v
Tasks.v
Float.v
Keys.v
BTree.v
Lookup.v
LookupRun.v
Ip.v
Geo.v
Address.v
Models.v
PeerRecord.v
SelfAddress.v
DualStack.v
DualStackSamples.v
DirectProof.v
TransportSamples.v
RateLimit.v
Validation.v
DialFailure.v
DialPolicy.v
Trust.v
Snapshots.v
Bootstrap.v
BootstrapSamples.v
DialCoordinator.v
ClientRouting.v
SignedAddress.v
Identity.v
RecordSamples.v
NodeInfo.v
KBucket.v
RoutingTable.v
Refresh.v
Diversity.v
Canary.v
CanaryWitness.v
ReachSamples.v
ValidationSamples.v
SignedSamples.v
Wire.v
Channels.v
Receiving.v
Sending.v
Pubsub.v
MessagingSamples.v
Engine.v
Admission.v
EngineQueries.v
DhtHandler.v
Maintenance.v
Config.v
Publications.v
Messages.v
Rpc.v
Publishing.v
Events.v
NetworkLookup.v
CloserPeers.v
Discovery.v
EngineSamples.v
ConfigSamples.v
MaintenanceSamples.v
MessageSamples.v
NetworkSamples.v
CloserSamples.v
DiscoverySamples.v
RpcSamples.v
RelayDriver.v
