(* ===== verification/Prelude.v ===== *)
(** * Saorsa core: a verified model of the DHT node

    Saorsa core is a peer-to-peer node in Rust: a Kademlia DHT whose members
    are identified by the hash of an ML-DSA key, reached through QUIC over two
    sockets, directly or through relays, and admitted to the routing table
    under IP-diversity and trust rules.  This library translates the core of
    the crate into executable definitions and proves the properties on which
    its parts rely.  Paths below are relative to [src/]; a definition has the
    name of the function it translates unless a comment says otherwise.

    ** The program and its model

    - Identities and addresses.  [Keys] (identity/peer_id.rs and the distance
      functions: keys, their order, the XOR metric), [Ip] (address.rs and
      security.rs: scopes, canonical forms, subnet limits), [Address]
      (address.rs: multi-addresses, their text), [PeerRecord]
      (peer_record.rs), [SignedAddress] (signed_address.rs,
      transport_address.rs: signed publications and their bundles),
      [SelfAddress] (self_address.rs, transport/external_addresses.rs: what
      a node publishes of itself), [Identity] (identity/node_identity.rs: keys
      and their file), [Geo] (bgp_geo_provider.rs: networks and owners).
    - The routing table.  [NodeInfo], [KBucket], [RoutingTable], [Diversity],
      [Engine] translate dht/core_engine.rs: nodes with typed addresses,
      buckets, publications, IP diversity, the two-phase admission with swaps
      and revalidation.  [Admission] and [EngineQueries] hold its theorems.
      [Trust] is adaptive/trust.rs over IEEE doubles ([Float]).
    - Lookups.  [Lookup] and [LookupRun] are dht_lookup.rs: the iterative
      state machine and its driver loop; [BTree] is the ordered map it uses.
      [ClientRouting] is client_routing.rs.
    - The DHT network manager, dht_network_manager.rs.  [Messages] (request
      handlers, correlation of responses, the response wire form),
      [NetworkLookup] (the FIND_NODE adapter, gossip, witnessed groups),
      [CloserPeers] (the answer an application passes on, lookup steps),
      [Rpc] (a request from its registration to the trust it costs, over
      [Messages], [DialCoordinator] and [Sending]), [Publications] and
      [Publishing] (own and received publications, and how one is sent),
      [Events] (the event loops of manager and transport), [DialFailure],
      [DialPolicy], [DialCoordinator] (failure caches, the dial plan, shared
      dials), [Maintenance] (connections, evictions, revalidation and the
      events subscribers see), [Refresh] (bucket refresh and re-bootstrap),
      [Discovery] (what connected peers name, and its dials).  [DhtHandler]
      (transport/dht_handler.rs) answers streams from the engine.
    - Reachability.  [Canary], [CanaryWitness] (reachability/canary.rs and the
      handler of canary requests, with [RateLimit], rate_limit.rs),
      [RelayDriver] (reachability/acquisition.rs, session.rs, driver.rs).
    - The transport.  [DualStack] and [DirectProof]
      (transport/saorsa_transport_adapter.rs: sockets and address families,
      the passive classifier of direct reachability), [Wire], [Channels],
      [Receiving], [Sending], [Pubsub] (transport_handle.rs and the messaging
      part of network.rs).
    - The node.  [Config] (network.rs: configuration, its builder, and the
      construction of a node through the transport to the engine), [Snapshots]
      (bootstrap/cache.rs, bootstrap/routing_snapshot.rs and their use in
      network.rs), [Bootstrap] (network.rs: joining), [Validation]
      (validation.rs: sizes, paths, requests, the connection limiter and the
      sanitiser).

    The files named [..Samples] and [Models] instantiate the library
    interfaces with executable functions and apply the theorems to concrete
    nodes; they also hold the concrete runs that show where the code departs
    from its documentation.

    ** How code becomes definitions

    A pure function is a function.  A method of a [&mut self] receiver returns
    the new state next to its result; errors are values of [result] or
    [option], and a panic ([Vec::insert] out of range, say) is [None] where
    the code could reach it.  An operation that holds the engine's lock
    throughout is one step.  Code whose interleavings matter is a [task] of
    [Tasks]: a sequence of atomic steps on a shared state, run in pools that
    interleave any number of tasks in any order; cancellation by shutdown is
    a parameter of the task.  [Tasks] has three ways to reason about pools:
    [safe], an invariant with a rely relation, [accounts], which tracks what
    each task holds between its steps (permits, slots, events still to be
    announced), and [drives], for two tasks their caller joins.  [DialCoordinator] and [RelayDriver] are step relations.

    Instants are nanoseconds of the monotonic clock as [Z]; wall-clock times
    are as the code reads them.  An operation reads the clock once, at the
    place where its decision is taken.  Integers keep their width where the
    code saturates or wraps; sequences and counters are [N].  Bytes are lists
    of [Z] with their range where it matters; doubles are [spec_float].  The
    iteration order of a hash map or set is the parameter [HashOrder] and
    theorems hold for every order.

    What lies outside the crate is an interface: [TransportLib] (addresses of
    the transport crate), [HexLib], [PostcardLib], [CanaryCodec],
    [MessageCodec], [CloserPeersCodec], [WireCodec], [JsonLib], [KeyLib]
    (codecs, with the round trip they document), [CryptoLib] (signatures), [LruLib], [FloatMath] ([exp] and
    [powf]), [SocketText].  What the network, the runtime and the clock answer
    is an argument of the operations that ask: oracles for dials, replies,
    completions and faults, quantified in every theorem.

    ** Fuel and bounds

    Loops whose recursion is not structural run on fuel that theorems show to
    be enough: a lookup by the number of its rounds
    ([run_iterative_lookup_terminates]), a stream of concurrent dials by the
    number of its items ([buffer_drained]), chunks by the length of the list.
    Everything else is structural.

    ** What the theorems show

    - Admission leaves the table as it was or does exactly what it reports;
      evictions follow the trust and distance rules; the diversity limits and
      the invariants of table and engine hold after any sequence of
      operations; only newer publications of the owner replace addresses;
      revalidation is asked for at most once.
    - A request leaves no correlation state, is accepted at most once and
      costs the peer at most one trust failure, whoever noticed it; a
      publication is tried once per message however its two sends interleave;
      an authenticated message is handled and answered at most once, within
      the permits of the handlers.
    - Requests act only for their authenticated sender, answers carry only the
      authority their records prove, responses go to the request they answer;
      network lookups terminate with sound results; witnessed groups are
      supported by their witnesses.
    - Whatever the interleaving: reports of the engine lead exactly to its
      members; revalidations stay within their permits and return them; one
      dial per peer serves all callers; registries of peers and channels stay
      consistent and every connected peer has an agent; a message is accepted
      at most once; the direct-reachability classifier credits only strangers
      and is exactly its specification; the snapshot file is never replaced by
      a fragment.
    - Wire messages authenticate their sender and round-trip; addresses
      reported by the sockets reach the connection they name; a dial fails
      only after every target was tried; a bootstrap goes on only with proved
      identities; a full node dials every candidate once, a client stops at
      six; a file on disk cannot make a node dial without bound; a node starts
      exactly when its configuration is sound and its sockets can be bound,
      and is then as configured.
    - Trust scores stay doubles in the unit interval; the dial-failure cache
      answers as a log would; the dial plan is the reference plan; canary
      witnesses stay within their budgets; relays are published only after
      verification and withdrawn when lost; no bucket is starved by the
      refresh.

    ** What is not modelled

    The QUIC endpoints, ML-DSA and ML-KEM are other crates.  The shutdown of
    the node, timers, log and error texts and metrics are left out.  A frame that has arrived is handled in one step in
    [Receiving], and the pings of a close-group revalidation are one step in
    [Maintenance]. *)

From stdpp Require Import prelude sorting gmap.

(** Closes a decidable goal by evaluating its decision procedure. *)
Ltac by_decide := eapply bool_decide_eq_true_1; vm_compute; reflexivity.

(** ** Results

    Rust's [Result<A, E>].  A fallible method of a [&mut self] receiver is
    modelled as a function returning the new state next to a [result]. *)

Inductive result (A E : Type) : Type :=
  | Ok (a : A)
  | Err (e : E).
Global Arguments Ok {A E} a.
Global Arguments Err {A E} e.

#[export] Instance result_eq_dec {A E} `{EqDecision A} `{EqDecision E} : EqDecision (result A E).
Proof. solve_decision. Defined.

Definition is_ok {A E} (r : result A E) : bool :=
  match r with Ok _ => true | Err _ => false end.

(** Rust's [?]: the error of [m] is the error of the whole. *)
Definition try {A B E} (m : result A E) (k : A → result B E) : result B E :=
  match m with Ok a => k a | Err e => Err e end.

Declare Scope result_scope.
Delimit Scope result_scope with result.
Notation "'let?' x := m 'in' k" := (try m (λ x, k))
  (at level 10, x binder, m at level 200, k at level 200, right associativity) : result_scope.

Lemma try_Ok {A B E} (m : result A E) (k : A → result B E) b :
  try m k = Ok b ↔ ∃ a, m = Ok a ∧ k a = Ok b.
Proof. destruct m; simpl; naive_solver. Qed.

(** ** Total orders

    The contract of Rust's [Ord]: a three-way comparison whose [Eq] is
    equality.  Sorting, ordered maps and minimum searches are proved against
    this interface and used at bytes, byte arrays and pairs of keys. *)

Class TotalOrd (A : Type) := {
  cmp : A → A → comparison;
  cmp_eq_iff : ∀ a b, cmp a b = Eq ↔ a = b;
  cmp_antisym : ∀ a b, cmp b a = CompOpp (cmp a b);
  cmp_lt_trans : ∀ a b c, cmp a b = Lt → cmp b c = Lt → cmp a c = Lt;
}.

Section total_ord.
Context {A : Type} `{TotalOrd A}.
Implicit Types a b c : A.

Definition tlt (a b : A) : Prop := cmp a b = Lt.
Definition tle (a b : A) : Prop := cmp a b ≠ Gt.
Definition leb (a b : A) : bool := match cmp a b with Gt => false | _ => true end.
Definition ltb (a b : A) : bool := match cmp a b with Lt => true | _ => false end.

Lemma leb_tle a b : leb a b = true ↔ tle a b.
Proof. unfold leb, tle. destruct (cmp a b); naive_solver. Qed.
Lemma ltb_tlt a b : ltb a b = true ↔ tlt a b.
Proof. unfold ltb, tlt. destruct (cmp a b); naive_solver. Qed.
Lemma leb_false a b : leb a b = false ↔ tlt b a.
Proof.
  unfold leb, tlt. rewrite (cmp_antisym a b).
  destruct (cmp a b); simpl; naive_solver.
Qed.
Lemma ltb_false a b : ltb a b = false ↔ tle b a.
Proof.
  unfold ltb, tle. rewrite (cmp_antisym a b).
  destruct (cmp a b); simpl; naive_solver.
Qed.

#[global] Instance tle_dec : RelDecision tle.
Proof. intros a b. unfold tle. apply _. Defined.
#[global] Instance tlt_dec : RelDecision tlt.
Proof. intros a b. unfold tlt. apply _. Defined.

Lemma cmp_refl a : cmp a a = Eq.
Proof. by apply cmp_eq_iff. Qed.
Lemma tlt_irrefl a : ¬ tlt a a.
Proof. unfold tlt. by rewrite cmp_refl. Qed.
Lemma tle_cases a b : tle a b ↔ tlt a b ∨ a = b.
Proof.
  unfold tle, tlt. rewrite <- cmp_eq_iff. destruct (cmp a b); intuition congruence.
Qed.
Lemma tlt_tle a b : tlt a b → tle a b.
Proof. rewrite tle_cases. auto. Qed.
Lemma tlt_not_tle a b : tlt a b ↔ ¬ tle b a.
Proof. rewrite <- leb_false, <- leb_tle. by destruct (leb b a). Qed.
Lemma tle_not_tlt a b : tle a b ↔ ¬ tlt b a.
Proof. rewrite <- ltb_false, <- ltb_tlt. by destruct (ltb b a). Qed.

#[global] Instance tlt_trans : Transitive tlt.
Proof. intros a b c. apply cmp_lt_trans. Qed.
#[global] Instance tle_refl : Reflexive tle.
Proof. intros a. apply tle_cases. auto. Qed.
#[global] Instance tle_trans : Transitive tle.
Proof.
  intros a b c Hab Hbc. apply tle_cases in Hab as [Hab| ->]; [|done].
  apply tle_cases in Hbc as [Hbc| <-]; apply tlt_tle; [by etrans|done].
Qed.
#[global] Instance tle_antisymm : AntiSymm (=) tle.
Proof.
  intros a b Hab Hba. apply tle_cases in Hab as [Hab|]; [|done].
  by apply tlt_not_tle in Hab.
Qed.
#[global] Instance tle_total : Total tle.
Proof.
  intros a b. destruct (decide (tle a b)) as [|Hn]; [by left|right].
  apply tlt_tle, tlt_not_tle, Hn.
Qed.
Lemma tlt_le_trans a b c : tlt a b → tle b c → tlt a c.
Proof. intros Hab [Hbc| <-]%tle_cases; [by etrans|done]. Qed.
Lemma tle_lt_trans a b c : tle a b → tlt b c → tlt a c.
Proof. intros [Hab| ->]%tle_cases Hbc; [by etrans|done]. Qed.
Lemma tlt_ne a b : tlt a b → a ≠ b.
Proof. intros Hab ->. by apply (tlt_irrefl b). Qed.
End total_ord.

#[export] Instance Z_total_ord : TotalOrd Z.
Proof.
  refine {| cmp := Z.compare |}.
  - intros a b. apply Z.compare_eq_iff.
  - intros a b. apply Z.compare_antisym.
  - intros a b c. rewrite !Z.compare_lt_iff. lia.
Defined.

#[export] Instance N_total_ord : TotalOrd N.
Proof.
  refine {| cmp := N.compare |}.
  - intros a b. apply N.compare_eq_iff.
  - intros a b. apply N.compare_antisym.
  - intros a b c. rewrite !N.compare_lt_iff. lia.
Defined.

#[export] Instance nat_total_ord : TotalOrd nat.
Proof.
  refine {| cmp := Nat.compare |}.
  - intros a b. apply Nat.compare_eq_iff.
  - intros a b. apply Nat.compare_antisym.
  - intros a b c. rewrite !Nat.compare_lt_iff. lia.
Defined.

Lemma Z_tle (a b : Z) : tle a b ↔ (a ≤ b)%Z.
Proof. unfold tle; simpl. apply Z.compare_le_iff. Qed.
Lemma Z_tlt (a b : Z) : tlt a b ↔ (a < b)%Z.
Proof. unfold tlt; simpl. apply Z.compare_lt_iff. Qed.
Lemma N_tle (a b : N) : tle a b ↔ (a ≤ b)%N.
Proof. done. Qed.
Lemma N_tlt (a b : N) : tlt a b ↔ (a < b)%N.
Proof. done. Qed.

(** [false < true], as for Rust's [bool]. *)
Definition bool_cmp (a b : bool) : comparison :=
  match a, b with
  | false, true => Lt
  | true, false => Gt
  | _, _ => Eq
  end.

#[export] Instance bool_total_ord : TotalOrd bool.
Proof.
  refine {| cmp := bool_cmp |}.
  - by intros [] [].
  - by intros [] [].
  - by intros [] [] [].
Defined.

(** Lexicographic order on pairs: Rust's tuple [Ord] and [Ordering::then]. *)
Definition pair_cmp {A B} `{TotalOrd A} `{TotalOrd B} (x y : A * B) : comparison :=
  match cmp x.1 y.1 with Eq => cmp x.2 y.2 | c => c end.

#[export] Instance pair_total_ord {A B} `{TotalOrd A} `{TotalOrd B} : TotalOrd (A * B).
Proof.
  refine {| cmp := pair_cmp |}; unfold pair_cmp.
  - intros [a b] [a' b']; simpl. destruct (cmp a a') eqn:E.
    + apply cmp_eq_iff in E as ->. rewrite cmp_eq_iff. naive_solver.
    + split; [done|]. intros [= -> ->]. by rewrite cmp_refl in E.
    + split; [done|]. intros [= -> ->]. by rewrite cmp_refl in E.
  - intros [a b] [a' b']; simpl. rewrite (cmp_antisym a a').
    destruct (cmp a a'); simpl; auto using cmp_antisym.
  - intros [a b] [a' b'] [a'' b'']; simpl.
    destruct (cmp a a') eqn:E1; [apply cmp_eq_iff in E1 as ->| |done].
    + destruct (cmp a' a''); [apply cmp_lt_trans|done..].
    + destruct (cmp a' a'') eqn:E2; [apply cmp_eq_iff in E2 as <-| |done].
      * by rewrite E1.
      * by rewrite (cmp_lt_trans _ _ _ E1 E2).
Defined.

Lemma pair_tlt_iff {A B} `{TotalOrd A} `{TotalOrd B} (x y : A * B) :
  tlt x y ↔ tlt x.1 y.1 ∨ (x.1 = y.1 ∧ tlt x.2 y.2).
Proof.
  unfold tlt; simpl; unfold pair_cmp. rewrite <- (cmp_eq_iff x.1 y.1).
  destruct (cmp x.1 y.1); intuition congruence.
Qed.

Lemma pair_tle_fst {A B} `{TotalOrd A} `{TotalOrd B} (x y : A * B) : tle x y → tle x.1 y.1.
Proof. unfold tle; simpl; unfold pair_cmp. destruct (cmp x.1 y.1); congruence. Qed.

Lemma pair_tle_cases {A B} `{TotalOrd A} `{TotalOrd B} (x y : A * B) :
  tle x y ↔ tlt x.1 y.1 ∨ (x.1 = y.1 ∧ tle x.2 y.2).
Proof.
  unfold tle, tlt; simpl; unfold pair_cmp. rewrite <- (cmp_eq_iff x.1 y.1).
  destruct (cmp x.1 y.1); intuition congruence.
Qed.

(** Lexicographic order on lists: Rust's slice and byte-array [Ord]. *)
Fixpoint list_cmp {A} `{TotalOrd A} (l k : list A) : comparison :=
  match l, k with
  | [], [] => Eq
  | [], _ :: _ => Lt
  | _ :: _, [] => Gt
  | x :: l', y :: k' => match cmp x y with Eq => list_cmp l' k' | c => c end
  end.

#[export] Instance list_total_ord {A} `{TotalOrd A} : TotalOrd (list A).
Proof.
  refine {| cmp := list_cmp |}.
  - intros l; induction l as [|x l IH]; intros [|y k]; simpl; try done.
    destruct (cmp x y) eqn:E.
    + apply cmp_eq_iff in E as ->. rewrite IH. intuition congruence.
    + split; [done|]. intros [= -> ->]. by rewrite cmp_refl in E.
    + split; [done|]. intros [= -> ->]. by rewrite cmp_refl in E.
  - intros l; induction l as [|x l IH]; intros [|y k]; simpl; try done.
    rewrite (cmp_antisym x y). destruct (cmp x y); simpl; auto.
  - intros l; induction l as [|x l IH]; intros [|y k] [|z m]; simpl; try done.
    destruct (cmp x y) eqn:E1; [apply cmp_eq_iff in E1 as ->| |done].
    + destruct (cmp y z); [apply IH|done..].
    + destruct (cmp y z) eqn:E2; [apply cmp_eq_iff in E2 as <-| |done].
      * by rewrite E1.
      * by rewrite (cmp_lt_trans _ _ _ E1 E2).
Defined.

(** An order pulled back along an injection. *)
Definition inj_total_ord {A B} `{TotalOrd B} (f : A → B) (Hf : ∀ x y, f x = f y → x = y) :
  TotalOrd A.
Proof.
  refine {| cmp x y := cmp (f x) (f y) |}.
  - intros a b. rewrite cmp_eq_iff. split; [apply Hf|by intros ->].
  - intros a b. apply cmp_antisym.
  - intros a b c. apply cmp_lt_trans.
Defined.

(** Reversed comparisons: [b.cmp(&a)], [std::cmp::Reverse]. *)
Record Reverse (A : Type) := mk_reverse { unreverse : A }.
Global Arguments mk_reverse {A} _.
Global Arguments unreverse {A} _.

#[export] Instance reverse_total_ord {A} `{TotalOrd A} : TotalOrd (Reverse A).
Proof.
  refine {| cmp x y := cmp (unreverse y) (unreverse x) |}.
  - intros [a] [b]; simpl. rewrite cmp_eq_iff. split; [by intros ->|by intros [= ->]].
  - intros [a] [b]; simpl. apply cmp_antisym.
  - intros [a] [b] [c]; simpl. intros Hab Hbc. by eapply cmp_lt_trans.
Defined.

Lemma reverse_tle {A} `{TotalOrd A} (x y : A) : tle (mk_reverse x) (mk_reverse y) ↔ tle y x.
Proof. done. Qed.
Lemma reverse_tlt {A} `{TotalOrd A} (x y : A) : tlt (mk_reverse x) (mk_reverse y) ↔ tlt y x.
Proof. done. Qed.

(** ** Stable sorting

    [slice::sort_by_key] is stable: elements with equal keys keep their
    order.  Insertion before the first element whose key is not smaller,
    folded from the right, is the reference implementation. *)

Lemma StronglySorted_weaken {A} (R S : relation A) (l : list A) :
  (∀ x y, x ∈ l → y ∈ l → R x y → S x y) → StronglySorted R l → StronglySorted S l.
Proof.
  intros Himpl. induction 1 as [|x l Hl IH Hx]; constructor.
  - apply IH. intros y z Hy Hz. apply Himpl; by right.
  - rewrite Forall_forall in Hx |- *. intros y Hy. apply Himpl; [by left|by right|auto].
Qed.

Section sort_by_key.
Context {A K : Type} `{TotalOrd K} (key : A → K).
Implicit Types (x y : A) (l : list A).

Definition key_le (x y : A) : Prop := tle (key x) (key y).
Definition key_lt (x y : A) : Prop := tlt (key x) (key y).

#[global] Instance key_le_trans : Transitive key_le.
Proof. intros x y z. apply tle_trans. Qed.

Fixpoint insert_sorted (x : A) (l : list A) : list A :=
  match l with
  | [] => [x]
  | y :: l' => if leb (key x) (key y) then x :: l else y :: insert_sorted x l'
  end.

Fixpoint sort_by_key (l : list A) : list A :=
  match l with
  | [] => []
  | x :: l' => insert_sorted x (sort_by_key l')
  end.

Lemma insert_sorted_perm x l : insert_sorted x l ≡ₚ x :: l.
Proof.
  induction l as [|y l IH]; simpl; [done|]. destruct (leb _ _); [done|].
  rewrite IH. apply Permutation_swap.
Qed.
Lemma sort_perm l : sort_by_key l ≡ₚ l.
Proof. induction l as [|x l IH]; simpl; [done|]. by rewrite insert_sorted_perm, IH. Qed.

Lemma insert_sorted_sorted x l :
  StronglySorted key_le l → StronglySorted key_le (insert_sorted x l).
Proof.
  induction 1 as [|y l Hl IH Hy]; simpl; [by repeat constructor|].
  destruct (leb (key x) (key y)) eqn:E.
  - apply leb_tle in E. constructor; [by constructor|]. constructor; [done|].
    eapply Forall_impl; [exact Hy|]. intros z ?. by trans y.
  - apply leb_false, tlt_tle in E. constructor; [done|].
    rewrite insert_sorted_perm. by constructor.
Qed.
Lemma sort_sorted l : StronglySorted key_le (sort_by_key l).
Proof. induction l; simpl; [constructor|by apply insert_sorted_sorted]. Qed.

Lemma sort_length l : length (sort_by_key l) = length l.
Proof. by rewrite sort_perm. Qed.
Lemma elem_of_sort x l : x ∈ sort_by_key l ↔ x ∈ l.
Proof. by rewrite sort_perm. Qed.

(** Stability: the elements of one key class appear in their input order. *)
Lemma insert_sorted_stable (P : A → bool) x l :
  (∀ y z, P y = true → P z = true → key y = key z) →
  StronglySorted key_le l →
  List.filter P (insert_sorted x l) = List.filter P (x :: l).
Proof.
  intros Hcls Hl. induction Hl as [|y l Hl IH Hy]; [done|].
  simpl insert_sorted. destruct (leb (key x) (key y)) eqn:E; [done|].
  simpl in *. rewrite IH. destruct (P x) eqn:Px, (P y) eqn:Py; try done.
  exfalso. apply leb_false in E. rewrite (Hcls x y) in E by done.
  by apply tlt_irrefl in E.
Qed.
Lemma sort_stable (P : A → bool) l :
  (∀ y z, P y = true → P z = true → key y = key z) →
  List.filter P (sort_by_key l) = List.filter P l.
Proof.
  intros Hcls. induction l as [|x l IH]; simpl; [done|].
  rewrite insert_sorted_stable by auto using sort_sorted. simpl. by rewrite IH.
Qed.

(** With pairwise distinct keys the result does not depend on the input
    order: iterating a hash map before sorting is deterministic. *)
Lemma sort_unique l l' :
  NoDup (key <$> l) → l ≡ₚ l' → sort_by_key l = sort_by_key l'.
Proof.
  intros Hnd Hp. apply (StronglySorted_unique_strong key_le).
  - intros x1 x2 Hx1 Hx2 H1 H2. rewrite elem_of_sort in Hx1, Hx2.
    assert (key x1 = key x2) as Hk by (by apply (anti_symm tle)).
    rewrite <- Hp in Hx2.
    apply list_elem_of_lookup in Hx1 as [i Hi], Hx2 as [j Hj].
    assert (i = j) as Hij; [|congruence].
    eapply (NoDup_lookup (key <$> l)); [done| |]; rewrite list_lookup_fmap;
      [by rewrite Hi|by rewrite Hj; simpl; f_equal].
  - apply sort_sorted.
  - apply sort_sorted.
  - by rewrite !sort_perm.
Qed.

Lemma sort_strict l :
  NoDup (key <$> l) → StronglySorted key_lt (sort_by_key l).
Proof.
  intros Hnd. assert (NoDup (key <$> sort_by_key l)) as Hnd' by (by rewrite sort_perm).
  pose proof (sort_sorted l) as Hs. clear Hnd.
  induction Hs as [|x s Hs IH Hx]; [constructor|].
  rewrite fmap_cons in Hnd'. apply NoDup_cons in Hnd' as [Hni Hnd'].
  constructor; [by apply IH|]. rewrite Forall_forall in Hx |- *.
  intros y Hy. pose proof (Hx y Hy) as [|Heq]%tle_cases; [done|].
  destruct Hni. rewrite Heq. by apply list_elem_of_fmap_2.
Qed.

Lemma sort_id l : StronglySorted key_le l → sort_by_key l = l.
Proof.
  induction 1 as [|x l Hl IH Hx]; simpl; [done|]. rewrite IH.
  destruct l as [|y l]; simpl; [done|].
  apply Forall_cons in Hx as [Hxy _]. by apply leb_tle in Hxy as ->.
Qed.

(** The first [n] elements of a sorted list are not larger than the rest. *)
Lemma sorted_take_drop n l x y :
  StronglySorted key_le l → x ∈ take n l → y ∈ drop n l → key_le x y.
Proof.
  intros Hs Hx Hy. rewrite <- (take_drop n l) in Hs.
  by eapply StronglySorted_app_1_elem_of.
Qed.
End sort_by_key.

Lemma sort_by_key_fmap {A B K} `{TotalOrd K} (key : B → K) (f : A → B) (l : list A) :
  sort_by_key key (f <$> l) = f <$> sort_by_key (λ x, key (f x)) l.
Proof.
  induction l as [|x l IH]; [done|]. rewrite fmap_cons. cbn [sort_by_key]. rewrite IH. clear IH.
  induction (sort_by_key _ l) as [|y s IH]; [done|]. cbn [insert_sorted fmap list_fmap].
  destruct (leb _ _); [done|]. rewrite fmap_cons. f_equal. exact IH.
Qed.

(** ** Minimum and maximum searches

    [Iterator::max_by] keeps the last of several maximal elements and
    [Iterator::min_by_key] the first of several minimal ones. *)

Section extremum.
Context {A K : Type} `{TotalOrd K} (key : A → K).
Implicit Types (x y : A) (l : list A).

Definition max_step (acc : option A) (x : A) : option A :=
  match acc with
  | None => Some x
  | Some y => if leb (key y) (key x) then Some x else Some y
  end.
Definition max_by_key (l : list A) : option A := foldl max_step None l.

Definition min_step (acc : option A) (x : A) : option A :=
  match acc with
  | None => Some x
  | Some y => if ltb (key x) (key y) then Some x else Some y
  end.
Definition min_by_key (l : list A) : option A := foldl min_step None l.

Lemma max_fold_spec l acc :
  match foldl max_step acc l with
  | Some x => (x ∈ l ∨ acc = Some x) ∧ (∀ y, y ∈ l ∨ acc = Some y → tle (key y) (key x))
  | None => l = [] ∧ acc = None
  end.
Proof.
  revert acc. induction l as [|z l IH]; intros acc; simpl.
  { destruct acc as [x|]; [|done]. split; [by right|].
    intros y [Hy|[= ->]]; [by apply elem_of_nil in Hy|done]. }
  specialize (IH (max_step acc z)). destruct (foldl _ _ l) as [x|].
  - destruct IH as [Hin Hmax]. unfold max_step in Hin, Hmax.
    destruct acc as [y|]; [destruct (leb (key y) (key z)) eqn:E|].
    + split; [set_solver|]. apply leb_tle in E.
      intros w [[->|Hw]%elem_of_cons|[= <-]]; [auto..|].
      trans (key z); auto.
    + split; [set_solver|]. apply leb_false, tlt_tle in E.
      intros w [[->|Hw]%elem_of_cons|[= <-]]; [|auto..].
      trans (key y); auto.
    + split; [set_solver|]. intros w [[->|Hw]%elem_of_cons|?]; naive_solver.
  - destruct IH as [_ IH]. destruct acc; simpl in IH; [by destruct (leb _ _)|done].
Qed.

Lemma max_by_key_Some l x :
  max_by_key l = Some x → x ∈ l ∧ ∀ y, y ∈ l → tle (key y) (key x).
Proof.
  unfold max_by_key. intros E. pose proof (max_fold_spec l None) as Hs.
  rewrite E in Hs. naive_solver.
Qed.
Lemma max_by_key_None l : max_by_key l = None ↔ l = [].
Proof.
  unfold max_by_key. pose proof (max_fold_spec l None) as Hs.
  split; [|by intros ->]. intros E. rewrite E in Hs. naive_solver.
Qed.

Lemma min_fold_spec l acc :
  match foldl min_step acc l with
  | Some x => (x ∈ l ∨ acc = Some x) ∧ (∀ y, y ∈ l ∨ acc = Some y → tle (key x) (key y))
  | None => l = [] ∧ acc = None
  end.
Proof.
  revert acc. induction l as [|z l IH]; intros acc; simpl.
  { destruct acc as [x|]; [|done]. split; [by right|].
    intros y [Hy|[= ->]]; [by apply elem_of_nil in Hy|done]. }
  specialize (IH (min_step acc z)). destruct (foldl _ _ l) as [x|].
  - destruct IH as [Hin Hmin]. unfold min_step in Hin, Hmin.
    destruct acc as [y|]; [destruct (ltb (key z) (key y)) eqn:E|].
    + split; [set_solver|]. apply ltb_tlt, tlt_tle in E.
      intros w [[->|Hw]%elem_of_cons|[= <-]]; [auto..|].
      trans (key z); auto.
    + split; [set_solver|]. apply ltb_false in E.
      intros w [[->|Hw]%elem_of_cons|[= <-]]; [|auto..].
      trans (key y); auto.
    + split; [set_solver|]. intros w [[->|Hw]%elem_of_cons|?]; naive_solver.
  - destruct IH as [_ IH]. destruct acc; simpl in IH; [by destruct (ltb _ _)|done].
Qed.

Lemma min_by_key_Some l x :
  min_by_key l = Some x → x ∈ l ∧ ∀ y, y ∈ l → tle (key x) (key y).
Proof.
  unfold min_by_key. intros E. pose proof (min_fold_spec l None) as Hs.
  rewrite E in Hs. naive_solver.
Qed.
Lemma min_by_key_None l : min_by_key l = None ↔ l = [].
Proof.
  unfold min_by_key. pose proof (min_fold_spec l None) as Hs.
  split; [|by intros ->]. intros E. rewrite E in Hs. naive_solver.
Qed.
End extremum.

(** ** Vectors updated by index *)

(** [iter().position(p)]. *)
Fixpoint position {A} (p : A → bool) (l : list A) : option nat :=
  match l with
  | [] => None
  | x :: l' => if p x then Some 0 else S <$> position p l'
  end.

Lemma position_Some {A} (p : A → bool) l i :
  position p l = Some i →
  ∃ x, l !! i = Some x ∧ p x = true ∧ ∀ j y, j < i → l !! j = Some y → p y = false.
Proof.
  revert i. induction l as [|x l IH]; simpl; [done|]. intros i.
  destruct (p x) eqn:E.
  - intros [= <-]. exists x. repeat split; [done|]. intros; lia.
  - destruct (position p l) as [i'|]; [|done]. intros [= <-].
    destruct (IH i' eq_refl) as (y & ? & ? & Hbefore). exists y.
    repeat split; [done..|]. intros [|j] z Hj Hz; [naive_solver|].
    simpl in Hz. eapply Hbefore; [|done]. lia.
Qed.
Lemma position_lt {A} (p : A → bool) l i : position p l = Some i → i < length l.
Proof. intros (x & Hx & _)%position_Some. by eapply lookup_lt_Some. Qed.
Lemma position_None {A} (p : A → bool) l :
  position p l = None ↔ ∀ x, x ∈ l → p x = false.
Proof.
  induction l as [|x l IH]; simpl; [set_solver|].
  destruct (p x) eqn:E; [split; [done|]|].
  - intros Hall. rewrite (Hall x) in E; [done|]. left.
  - rewrite fmap_None, IH. set_solver.
Qed.

(** [Vec::insert] panics when the index is past the end: [None]. *)
Definition vec_insert {A} (i : nat) (x : A) (l : list A) : option (list A) :=
  if decide (i ≤ length l) then Some (take i l ++ x :: drop i l) else None.

(** Keep the entries of [l] whose flag is set. *)
Fixpoint keep_flagged {A} (flags : list bool) (l : list A) : list A :=
  match flags, l with
  | b :: flags', x :: l' => if b then x :: keep_flagged flags' l' else keep_flagged flags' l'
  | _, _ => []
  end.

Lemma keep_flagged_zip {A B} flags (l : list A) (k : list B) :
  length l = length k →
  zip (keep_flagged flags l) (keep_flagged flags k) = keep_flagged flags (zip l k).
Proof.
  revert l k. induction flags as [|b flags IH]; intros [|x l] [|y k]; simpl; try done.
  intros [= Hlen]. destruct b; simpl; [f_equal|]; auto.
Qed.
Lemma keep_flagged_sublist {A} flags (l : list A) : keep_flagged flags l `sublist_of` l.
Proof.
  revert l. induction flags as [|[] flags IH]; intros [|x l]; simpl;
    try apply sublist_nil_l; [by apply sublist_skip|by apply sublist_cons].
Qed.

(** ** Searching *)

Lemma find_Some_iff {A} (p : A → bool) (l : list A) x :
  List.find p l = Some x → x ∈ l ∧ p x = true.
Proof. intros [Hin Hp]%find_some. split; [by apply list_elem_of_In|done]. Qed.

Lemma find_None_iff {A} (p : A → bool) (l : list A) :
  List.find p l = None ↔ ∀ x, x ∈ l → p x = false.
Proof.
  split.
  - intros Hf x Hx. apply (find_none _ _ Hf). by apply list_elem_of_In.
  - intros Hall. destruct (List.find p l) as [x|] eqn:Hf; [|done].
    apply find_Some_iff in Hf as [Hin Hx]. by rewrite Hall in Hx.
Qed.

(** A search with at most one hit does not depend on the order. *)
Lemma find_perm {A} (p : A → bool) (l l' : list A) :
  l ≡ₚ l' →
  (∀ x y, x ∈ l → y ∈ l → p x = true → p y = true → x = y) →
  List.find p l = List.find p l'.
Proof.
  intros Hperm Huniq. destruct (List.find p l) as [x|] eqn:Hl; symmetry.
  - apply find_Some_iff in Hl as [Hx Hpx]. destruct (List.find p l') as [y|] eqn:Hl'.
    + apply find_Some_iff in Hl' as [Hy Hpy]. f_equal. apply Huniq; rewrite ?Hperm; auto.
      by rewrite <- Hperm.
    + rewrite find_None_iff in Hl'. rewrite Hperm in Hx. rewrite Hl' in Hpx; done.
  - rewrite find_None_iff in Hl |- *. intros x Hx. apply Hl. by rewrite Hperm.
Qed.

Lemma elem_of_List_filter {A} (p : A → bool) (l : list A) x :
  x ∈ List.filter p l ↔ x ∈ l ∧ p x = true.
Proof. rewrite !list_elem_of_In. apply filter_In. Qed.

Lemma filter_all_id {A} (p : A → bool) (l : list A) :
  (∀ x, x ∈ l → p x = true) → List.filter p l = l.
Proof.
  intros Hall. induction l as [|x l IH]; [done|]. simpl. rewrite Hall by (by left).
  f_equal. apply IH. intros y Hy. apply Hall. by right.
Qed.

Lemma List_filter_sublist {A} (p : A → bool) (l : list A) : List.filter p l `sublist_of` l.
Proof.
  induction l as [|x l IH]; simpl; [constructor|]. destruct (p x); by constructor.
Qed.

Lemma fmap_sublist {A B} (f : A → B) (l k : list A) :
  l `sublist_of` k → f <$> l `sublist_of` (f <$> k).
Proof. induction 1; simpl; by constructor. Qed.

Lemma List_filter_disjoint_length {A} (p q : A → bool) (l : list A) :
  (∀ x, x ∈ l → p x = true → q x = false) →
  length (List.filter p l) + length (List.filter q l) ≤ length l.
Proof.
  intros Hdisj. induction l as [|x l IH]; [done|]. simpl.
  assert (Hx : p x = true → q x = false) by (apply Hdisj; by left).
  pose proof (IH (λ y Hy, Hdisj y (list_elem_of_further _ _ _ Hy))).
  destruct (p x), (q x); simpl; intuition (try congruence; try lia).
Qed.

Lemma keep_flagged_length {A B} flags (l : list A) (k : list B) :
  length l = length k → length (keep_flagged flags l) = length (keep_flagged flags k).
Proof.
  revert l k. induction flags as [|b flags IH]; intros [|x l] [|y k]; simpl; try done.
  intros [= Hlen]. destruct b; simpl; auto.
Qed.

(** Entry [i] of the kept list comes from a flagged index, and entries at the
    same index of two parallel lists come from the same one. *)
Lemma keep_flagged_lookup {A} flags (l : list A) i x :
  keep_flagged flags l !! i = Some x →
  ∃ j, flags !! j = Some true ∧ l !! j = Some x ∧ length (List.filter (λ b, b) (take j flags)) = i.
Proof.
  revert l i. induction flags as [|b flags IH]; intros [|y l] i; simpl; try done.
  destruct b.
  - destruct i as [|i]; simpl.
    + intros [= ->]. by exists 0.
    + intros Hi. destruct (IH l i Hi) as (j & ? & ? & ?). exists (S j). simpl. auto.
  - intros Hi. destruct (IH l i Hi) as (j & ? & ? & ?). exists (S j). simpl. auto.
Qed.

Lemma flags_rank_inj flags j j' :
  flags !! j = Some true → flags !! j' = Some true →
  length (List.filter (λ b, b) (take j flags)) = length (List.filter (λ b, b) (take j' flags)) →
  j = j'.
Proof.
  revert j j'. induction flags as [|b flags IH]; intros [|j] [|j']; simpl; try done.
  - intros [= ->] _. done.
  - intros _ [= ->]. done.
  - intros Hj Hj'. destruct b; simpl; intros Heq; f_equal; auto.
Qed.

Lemma keep_flagged_lookup_zip {A B} flags (l : list A) (k : list B) i x y :
  keep_flagged flags l !! i = Some x → keep_flagged flags k !! i = Some y →
  ∃ j, flags !! j = Some true ∧ l !! j = Some x ∧ k !! j = Some y ∧
    length (List.filter (λ b, b) (take j flags)) = i.
Proof.
  intros (j & Hj & Hx & Hr)%keep_flagged_lookup (j' & Hj' & Hy & Hr')%keep_flagged_lookup.
  assert (j = j') as <- by (eapply flags_rank_inj; [done..|congruence]). eauto.
Qed.

Lemma keep_flagged_elem {A} flags (l : list A) j x :
  flags !! j = Some true → l !! j = Some x → x ∈ keep_flagged flags l.
Proof.
  revert l j. induction flags as [|b flags IH]; intros [|y l] [|j]; simpl; try done.
  - intros [= ->] [= ->]. by left.
  - intros Hf Hl. destruct b; [right|]; by eapply IH.
Qed.

(** A search in an ascending list finds the least hit, from the end the
    greatest. *)
Lemma find_least (p : nat → bool) l i j :
  StronglySorted lt l → List.find p l = Some i → j ∈ l → p j = true → i ≤ j.
Proof.
  intros Hs. induction Hs as [|x l Hl IH Hx]; [done|]. cbn [List.find].
  destruct (p x) eqn:Hp.
  - intros [= ->] [->|Hin]%elem_of_cons _; [done|].
    rewrite Forall_forall in Hx. apply Hx in Hin. lia.
  - intros Hf [->|Hin]%elem_of_cons Hj; [congruence|auto].
Qed.

Lemma find_greatest (p : nat → bool) l i j :
  StronglySorted lt l → List.find p (reverse l) = Some i → j ∈ l → p j = true → j ≤ i.
Proof.
  intros Hs Hf Hj Hp. induction l as [|x l IH] using rev_ind; [by apply not_elem_of_nil in Hj|].
  rewrite reverse_snoc in Hf. cbn [List.find] in Hf. destruct (p x) eqn:Hx.
  - injection Hf as ->. apply elem_of_app in Hj as [Hj|Hj].
    + assert (j < i); [|lia]. eapply (StronglySorted_app_1_elem_of lt); [done|done|by left].
    + apply list_elem_of_singleton in Hj. lia.
  - apply elem_of_app in Hj as [Hj|Hj].
    + apply StronglySorted_app_1_l in Hs. auto.
    + apply list_elem_of_singleton in Hj. congruence.
Qed.

Lemma seq_StronglySorted a n : StronglySorted lt (seq a n).
Proof.
  revert a. induction n as [|n IH]; intros a; simpl; constructor; [apply IH|].
  apply Forall_forall. intros x Hx%elem_of_seq. lia.
Qed.

Lemma List_filter_StronglySorted {A} (R : relation A) (p : A → bool) l :
  StronglySorted R l → StronglySorted R (List.filter p l).
Proof.
  induction 1 as [|x l Hl IH Hx]; simpl; [constructor|]. destruct (p x); [|done].
  constructor; [done|]. rewrite Forall_forall in Hx |- *.
  intros y [Hy _]%elem_of_List_filter. auto.
Qed.

(** ** [Vec::insert] *)

Lemma vec_insert_Some {A} i (x : A) l : i ≤ length l → vec_insert i x l = Some (take i l ++ x :: drop i l).
Proof. intros Hi. unfold vec_insert. by rewrite decide_True. Qed.

Lemma insert_at_lookup {A} i (x : A) l :
  i ≤ length l → (take i l ++ x :: drop i l) !! i = Some x.
Proof. intros Hi. apply list_lookup_middle. rewrite length_take. lia. Qed.

Lemma insert_at_lookup_lt {A} i (x : A) l j :
  j < i → i ≤ length l → (take i l ++ x :: drop i l) !! j = l !! j.
Proof.
  intros Hj Hi. rewrite lookup_app_l by (rewrite length_take; lia). by apply lookup_take_lt.
Qed.

Lemma insert_at_length {A} i (x : A) l : length (take i l ++ x :: drop i l) = S (length l).
Proof. rewrite length_app. cbn [length]. rewrite length_take, length_drop. lia. Qed.

Lemma elem_of_insert_at {A} i (x y : A) l : y ∈ take i l ++ x :: drop i l ↔ y = x ∨ y ∈ l.
Proof.
  rewrite <- (take_drop i l) at 3. rewrite !elem_of_app, elem_of_cons. tauto.
Qed.

(** First hit in an initial segment of the naturals. *)
Lemma find_seq (p : nat → bool) n i :
  i < n → p i = true → (∀ j, j < i → p j = false) → List.find p (seq 0 n) = Some i.
Proof.
  intros Hi Hp Hbefore. destruct (List.find p (seq 0 n)) as [k|] eqn:Hf.
  - pose proof (find_least p _ _ i (seq_StronglySorted 0 n) Hf) as Hle.
    apply find_Some_iff in Hf as [Hk Hpk]. f_equal.
    assert (k ≤ i) by (apply Hle; [apply elem_of_seq; lia|done]).
    destruct (decide (k < i)) as [Hlt|]; [|lia]. rewrite (Hbefore k Hlt) in Hpk. done.
  - rewrite find_None_iff in Hf. rewrite Hf in Hp; [done|]. apply elem_of_seq. lia.
Qed.

(** A list of lists whose elements name their position has no duplicates. *)
Lemma NoDup_concat_indexed {A} (g : A → option nat) (ls : list (list A)) (off : nat) :
  (∀ i l, ls !! i = Some l → NoDup l ∧ ∀ x, x ∈ l → g x = Some (i + off)) → NoDup (concat ls).
Proof.
  revert off. induction ls as [|l ls IH]; intros off Hall; [constructor|]. simpl.
  destruct (Hall 0 l eq_refl) as [Hl Hg]. apply NoDup_app. split_and!; [done| |].
  - intros x Hx Hc. apply list_elem_of_In, in_concat in Hc as (l' & Hl' & Hx').
    apply list_elem_of_In, list_elem_of_lookup in Hl' as [i Hi]. apply list_elem_of_In in Hx'.
    destruct (Hall (S i) l' Hi) as [_ Hg']. specialize (Hg x Hx). specialize (Hg' x Hx').
    rewrite Hg in Hg'. injection Hg'. lia.
  - apply (IH (S off)). intros i l' Hi. destruct (Hall (S i) l' Hi) as [? Hg'].
    split; [done|]. intros x Hx. rewrite (Hg' x Hx). f_equal. lia.
Qed.

(** ** Hash containers

    The iteration order of a hash map or set is unspecified: it is a
    parameter, and the theorems hold for every order. *)

Class HashOrder := {
  hash_iter {K V : Type} : list (K * V) → list (K * V);
  hash_iter_perm {K V} (l : list (K * V)) : hash_iter l ≡ₚ l;
}.

Definition map_iter `{HashOrder} `{Countable K} {V} (m : gmap K V) : list (K * V) :=
  hash_iter (map_to_list m).

Definition map_values `{HashOrder} `{Countable K} {V} (m : gmap K V) : list V :=
  snd <$> map_iter m.

(** A [HashSet<T>] is a [HashMap<T, ()>]. *)
Definition set_iter `{HashOrder} `{Countable A} (s : gset A) : list A :=
  fst <$> hash_iter ((λ x, (x, tt)) <$> elements s).

Lemma map_iter_perm `{HashOrder} `{Countable K} {V} (m : gmap K V) :
  map_iter m ≡ₚ map_to_list m.
Proof. apply hash_iter_perm. Qed.

Lemma set_iter_perm `{HashOrder} `{Countable A} (s : gset A) : set_iter s ≡ₚ elements s.
Proof.
  unfold set_iter. rewrite hash_iter_perm, <- list_fmap_compose.
  by rewrite (list_fmap_id (elements s)).
Qed.

Lemma elem_of_set_iter `{HashOrder} `{Countable A} (s : gset A) x : x ∈ set_iter s ↔ x ∈ s.
Proof. by rewrite set_iter_perm, elem_of_elements. Qed.

(** ** Automation *)

Create HintDb dht.
Create Rewrite HintDb dht.

(** Sublists, permutations and the order on keys: the side goals of the list
    arguments. *)
#[export] Hint Resolve tlt_tle List_filter_sublist keep_flagged_sublist fmap_sublist
  sort_perm sort_sorted set_iter_perm : dht.
#[export] Hint Extern 1 (tle ?x ?x) => apply (tle_refl x) : dht.
#[export] Hint Rewrite @elem_of_List_filter @elem_of_sort @elem_of_app @list_elem_of_fmap
  @bool_decide_eq_true @bool_decide_eq_false @andb_true_iff @orb_true_iff @orb_false_iff @negb_true_iff : dht.

(** Turns boolean guards into propositions, everywhere. *)
Ltac reflect_guards :=
  repeat match goal with
  | H : context [bool_decide] |- _ => progress autorewrite with dht in H
  | H : _ && _ = true |- _ => progress autorewrite with dht in H
  | H : _ || _ = false |- _ => progress autorewrite with dht in H
  end; destruct_and?.
