(* ===== verification/Tasks.v ===== *)
(** * Tasks that share state

    The transport's registries are sharded maps that several asynchronous
    tasks update at once: each map operation is atomic, a sequence of them is
    not.  A [task] is the sequence of atomic steps of one activity; a pool of
    tasks interleaves them in any order.  [safe] is the obligation of one
    task: whatever the others do within the relation [R], each of its own
    steps keeps the invariant [I] and stays within [R]. *)

From stdpp Require Import prelude.
From S2P Require Import Prelude.

Section tasks.
Context {State : Type}.

(** [Act update next]: one atomic step; both functions read the state the
    step starts from. *)
Inductive task :=
  | Finished
  | Act (update : State → State) (next : State → task).

(** The task alone, uninterrupted. *)
Fixpoint run (t : task) (s : State) : State :=
  match t with
  | Finished => s
  | Act update next => run (next s) (update s)
  end.

Fixpoint and_then (t u : task) : task :=
  match t with
  | Finished => u
  | Act update next => Act update (λ s, and_then (next s) u)
  end.

Lemma run_and_then t u s : run (and_then t u) s = run u (run t s).
Proof. revert s. induction t as [|f k IH]; intros s; [done|]. apply IH. Qed.

Definition pool : Type := list task * State.

Section interleaving.
(** The tasks that may be started. *)
Context (program : task → Prop).

Inductive pool_step : pool → pool → Prop :=
  | pool_act ts us f k s : pool_step (ts ++ Act f k :: us, s) (ts ++ k s :: us, f s)
  | pool_spawn ts t s : program t → pool_step (ts, s) (t :: ts, s).

Definition reachable (s0 s : State) : Prop := ∃ ts, rtc pool_step ([], s0) (ts, s).

Lemma reachable_refl s : reachable s s.
Proof. by exists []. Qed.

Lemma pool_run t : ∀ ts us s, ∃ ts', rtc pool_step (ts ++ t :: us, s) (ts', run t s).
Proof.
  induction t as [|f k IH]; intros ts us s; [by eexists|].
  destruct (IH s ts us (f s)) as [ts' H]. exists ts'. eapply rtc_l, H. constructor.
Qed.

(** A task may run without interruption. *)
Lemma reachable_run s0 s t : program t → reachable s0 s → reachable s0 (run t s).
Proof.
  intros Ht [ts Hts]. destruct (pool_run t [] ts s) as [ts' H]. exists ts'.
  etrans; [exact Hts|]. eapply rtc_l; [by apply pool_spawn|exact H].
Qed.

Lemma pool_frame ts s ts' s' zs : rtc pool_step (ts, s) (ts', s') → rtc pool_step (ts ++ zs, s) (ts' ++ zs, s').
Proof.
  remember (ts, s) as p eqn:Hp. remember (ts', s') as q eqn:Hq. intros Hr. revert ts s Hp.
  induction Hr as [|x y z Hxy _ IH]; intros ts s ->; [by injection Hq as -> ->|].
  inversion Hxy as [t1 t2 f k s1|t1 t s1 Ht]; subst; (eapply rtc_l; [|by apply IH]); cbn.
  - rewrite <-!app_assoc. constructor.
  - by constructor.
Qed.

Lemma reachable_trans s0 s1 s2 : reachable s0 s1 → reachable s1 s2 → reachable s0 s2.
Proof. intros [ts Hts] [us Hus]. exists (us ++ ts). etrans; [exact Hts|]. by apply (pool_frame [] s1 us s2 ts). Qed.

(** A particular interleaving, by the positions of the tasks that step. *)
Definition act_at (i : nat) (p : pool) : pool :=
  match p.1 !! i with
  | Some (Act f k) => (<[i := k p.2]> p.1, f p.2)
  | _ => p
  end.

Lemma act_at_rtc i p : rtc pool_step p (act_at i p).
Proof.
  unfold act_at. destruct p as [ts s]. cbn [fst snd]. destruct (ts !! i) as [[|f k]|] eqn:Hi; [done| |done].
  apply rtc_once. rewrite insert_take_drop by (by eapply lookup_lt_Some).
  rewrite <-(take_drop_middle ts i (Act f k)) at 1 by done. constructor.
Qed.

Definition schedule (ts : list task) (order : list nat) (s0 : State) : pool := foldl (λ p i, act_at i p) (ts, s0) order.

Lemma schedule_rtc (ts : list task) (order : list nat) s0 :
  Forall program ts → rtc pool_step ([], s0) (schedule ts order s0).
Proof.
  intros Hts. assert (Hspawn : rtc pool_step ([], s0) (ts, s0)).
  { induction Hts as [|t ts Ht _ IH]; [done|]. eapply rtc_r; [exact IH|by apply pool_spawn]. }
  unfold schedule. etrans; [exact Hspawn|]. generalize (ts, s0). induction order as [|i order IH]; [done|].
  intros p. cbn. etrans; [apply act_at_rtc|apply IH].
Qed.

Lemma schedule_reachable (ts : list task) (order : list nat) s0 :
  Forall program ts → reachable s0 (schedule ts order s0).2.
Proof. intros Hts. exists (schedule ts order s0).1. rewrite <-surjective_pairing. by apply schedule_rtc. Qed.
End interleaving.

(** Every step of the task, from any state, relates its states by [P]. *)
Fixpoint all_steps (P : State → State → Prop) (t : task) : Prop :=
  match t with
  | Finished => True
  | Act update next => ∀ s, P s (update s) ∧ all_steps P (next s)
  end.

Lemma all_steps_impl (P Q : State → State → Prop) t : (∀ s s', P s s' → Q s s') → all_steps P t → all_steps Q t.
Proof.
  intros HPQ. induction t as [|f k IH]; [done|]. intros Hall s. destruct (Hall s). split; [by apply HPQ|by apply IH].
Qed.

Lemma all_steps_run P `{!PreOrder P} t s : all_steps P t → P s (run t s).
Proof.
  revert s. induction t as [|f k IH]; intros s Hall; [done|]. destruct (Hall s) as [Hs Hk]. etrans; [exact Hs|by apply IH].
Qed.

Section safety.
Context (I : State → Prop) (R : State → State → Prop) `{!PreOrder R}.

Fixpoint safe (t : task) (s : State) : Prop :=
  match t with
  | Finished => True
  | Act update next => ∀ s', R s s' → I s' → I (update s') ∧ R s' (update s') ∧ safe (next s') (update s')
  end.

Lemma safe_mono t s s' : R s s' → safe t s → safe t s'.
Proof.
  destruct t as [|f k]; [done|]. intros Hr Hsafe s'' Hr' Hi. apply Hsafe; [by transitivity s'|done].
Qed.

Lemma all_steps_safe P t s :
  (∀ s s', P s s' → I s → I s' ∧ R s s') → all_steps P t → safe t s.
Proof.
  intros HP. revert s. induction t as [|f k IH]; intros s; [done|]. intros Hall s' _ Hi.
  destruct (Hall s') as [Hs Hk]. destruct (HP _ _ Hs Hi). split_and!; [done..|by apply IH].
Qed.

Lemma safe_and_then t u s :
  safe t s → (∀ s', R s s' → I s' → safe u s') → I s → safe (and_then t u) s.
Proof.
  revert s. induction t as [|f k IH]; intros s Ht Hu Hi; [by apply Hu|].
  intros s' Hr Hi'. destruct (Ht s' Hr Hi') as (Hi'' & Hr' & Hk). split_and!; [done..|].
  apply IH; [done| |done]. intros s'' Hr'' Hi'''. apply Hu; [by do 2 (etrans; [done|])|done].
Qed.

Lemma run_safe t s : safe t s → I s → I (run t s) ∧ R s (run t s).
Proof.
  revert s. induction t as [|f k IH]; intros s Hsafe Hi; [done|].
  destruct (Hsafe s) as (Hi' & Hr & Hk); [done..|]. destruct (IH s (f s) Hk Hi'). split; [done|by etrans].
Qed.

Definition pool_ok (s0 : State) (p : pool) : Prop :=
  I p.2 ∧ R s0 p.2 ∧ Forall (λ t, safe t p.2) p.1.

Context (program : task → Prop) (Hprogram : ∀ t s, program t → I s → safe t s).

Lemma pool_step_ok s0 p q : pool_step program p q → pool_ok s0 p → pool_ok s0 q.
Proof using All.
  destruct 1 as [ts us f k s|ts t s Ht]; intros (Hi & Hr & Hall); cbn in *.
  - apply Forall_app in Hall as [Hts [Hact Hus]%Forall_cons].
    destruct (Hact s) as (Hi' & Hr' & Hk); [done..|]. split_and!; cbn; [done|by etrans|].
    apply Forall_app. split; [|constructor; [done|]]; (eapply Forall_impl; [done|]; intros t; by apply safe_mono).
  - split_and!; [done..|]. constructor; [by apply Hprogram|done].
Qed.

(** Whatever the tasks and their interleaving, the invariant holds and the
    state evolves within [R]. *)
Lemma reachable_safe s0 s : I s0 → reachable program s0 s → I s ∧ R s0 s.
Proof using All.
  intros Hi [ts Hts].
  enough (Hok : pool_ok s0 (ts, s)) by (by destruct Hok as (? & ? & _)).
  refine (rtc_ind_r (pool_ok s0) _ _ _ _ Hts); [by split_and!|].
  intros p q _ Hstep. by apply pool_step_ok.
Qed.
End safety.

(** Two tasks joined by their caller, among others: [drives] is what the one
    does to the part [V] of the state that nobody else touches. *)
Section joined.
Context (program : task → Prop).

Inductive join_step : (task * task) * pool → (task * task) * pool → Prop :=
  | join_left f k u ts s : join_step ((Act f k, u), (ts, s)) ((k s, u), (ts, f s))
  | join_right t f k ts s : join_step ((t, Act f k), (ts, s)) ((t, k s), (ts, f s))
  | join_other tu p q : pool_step program p q → join_step (tu, p) (tu, q).

(** Nothing keeps the two from ending. *)
Lemma join_completes t u ts s : ∃ s', rtc join_step ((t, u), (ts, s)) ((Finished, Finished), (ts, s')).
Proof.
  revert s. induction t as [|f k IH]; intros s.
  - revert s. induction u as [|f k IH]; intros s; [by eexists|].
    destruct (IH s (f s)) as [s' H]. exists s'. eapply rtc_l, H. constructor.
  - destruct (IH s (f s)) as [s' H]. exists s'. eapply rtc_l, H. constructor.
Qed.

Context {X : Type} (V : State → X).

Definition spares (t : task) : Prop := all_steps (λ s s', V s' = V s) t.

Fixpoint drives (Q : X → Prop) (t : task) (x : X) : Prop :=
  match t with
  | Finished => Q x
  | Act update next => ∀ s, V s = x → drives Q (next s) (V (update s))
  end.

Context (Hprogram : ∀ t, program t → spares t).

Lemma pool_spares p q : pool_step program p q → Forall spares p.1 → V q.2 = V p.2 ∧ Forall spares q.1.
Proof using Hprogram.
  destruct 1 as [ts us f k s|ts t s Ht]; cbn; intros Hall.
  - apply Forall_app in Hall as [Hts [Hact Hus]%Forall_cons]. destruct (Hact s). split; [done|].
    apply Forall_app. by split; [|constructor].
  - split; [done|]. constructor; [by apply Hprogram|done].
Qed.

Definition side (left : bool) (tu : task * task) : task := if left then tu.1 else tu.2.

Lemma join_drives left Q c c' :
  rtc join_step c c' → spares (side (negb left) c.1) → Forall spares c.2.1 → drives Q (side left c.1) (V c.2.2) →
  drives Q (side left c'.1) (V c'.2.2).
Proof using Hprogram.
  induction 1 as [|x y z Hxy _ IH]; [done|]. intros Hu Hts Ht.
  enough (spares (side (negb left) y.1) ∧ Forall spares y.2.1 ∧ drives Q (side left y.1) (V y.2.2)) as (?&?&?) by auto.
  destruct Hxy as [f k u ts s|t f k ts s|tu p q Hpq]; cbn in *.
  - destruct left; cbn in *; [split_and!; [done..|by apply Ht]|]. destruct (Hu s) as [Hv Hk]. by rewrite Hv.
  - destruct left; cbn in *; [|split_and!; [done..|by apply Ht]]. destruct (Hu s) as [Hv Hk]. by rewrite Hv.
  - destruct (pool_spares p q Hpq Hts) as [Hv Hq]. by rewrite Hv.
Qed.
End joined.

(** A relation every step respects holds between the ends of a join. *)
Lemma join_all_steps (program : task → Prop) (P : State → State → Prop) `{!PreOrder P} c c' :
  (∀ t, program t → all_steps P t) → rtc (join_step program) c c' →
  all_steps P c.1.1 → all_steps P c.1.2 → Forall (all_steps P) c.2.1 → P c.2.2 c'.2.2.
Proof.
  intros Hprog. induction 1 as [|x y z Hxy _ IH]; [done|]. intros H1 H2 H3.
  enough (P x.2.2 y.2.2 ∧ all_steps P y.1.1 ∧ all_steps P y.1.2 ∧ Forall (all_steps P) y.2.1) as (?&?&?&?) by (etrans; [done|auto]).
  destruct Hxy as [f k u ts s|t f k ts s|tu p q Hpq]; cbn in *.
  - by destruct (H1 s).
  - by destruct (H2 s).
  - destruct Hpq as [ts us f k s|ts t s Ht]; cbn in *; [|by split_and!; [|..|constructor; [apply Hprog|]]].
    apply Forall_app in H3 as [Hts [Hact Hus]%Forall_cons]. destruct (Hact s). split_and!; [done..|].
    apply Forall_app. by split; [|constructor].
Qed.

(** What the tasks hold between their steps: permits, slots, messages still
    to be sent.  [holds l s] says that [l], the holdings of all tasks
    together, agree with the state. *)
Section accounting.
Context {X : Type} (holds : list X → State → Prop)
  (holds_perm : ∀ l l' s, l ≡ₚ l' → holds l s → holds l' s).

(** The task keeps the books from holdings [own], and ends with none. *)
Fixpoint accounts (t : task) (own : list X) : Prop :=
  match t with
  | Finished => own = []
  | Act update next => ∀ s others, holds (own ++ others) s →
      ∃ own', holds (own' ++ others) (update s) ∧ accounts (next s) own'
  end.

Context (program : task → Prop) (Hprogram : ∀ t, program t → accounts t []).

Lemma pool_accounts s0 ts s :
  holds [] s0 → rtc (pool_step program) ([], s0) (ts, s) → ∃ owns, Forall2 accounts ts owns ∧ holds (concat owns) s.
Proof using All.
  intros H0 Hr. change (∃ owns, Forall2 accounts (ts, s).1 owns ∧ holds (concat owns) (ts, s).2).
  refine (rtc_ind_r (λ p, ∃ owns, Forall2 accounts p.1 owns ∧ holds (concat owns) p.2) _ _ _ _ Hr); [by exists []|].
  intros p q _ Hstep. destruct Hstep as [us vs f k s1|us t s1 Ht]; cbn; intros (owns & Hall & Hh).
  - apply Forall2_app_inv_l in Hall as (o1 & o2 & H1 & H2 & ->). apply Forall2_cons_inv_l in H2 as (o & o3 & Ho & H3 & ->).
    destruct (Ho s1 (concat o1 ++ concat o3)) as (o' & Hh' & Hk).
    { eapply holds_perm, Hh. rewrite concat_app. cbn. by rewrite !(assoc_L (++)), (comm (++) (concat o1) o). }
    exists (o1 ++ o' :: o3). split; [by apply Forall2_app; [|constructor]|].
    eapply holds_perm, Hh'. rewrite concat_app. cbn. by rewrite !(assoc_L (++)), (comm (++) (concat o1) o').
  - exists ([] :: owns). split; [|done]. constructor; [by apply Hprogram|done].
Qed.

Lemma finished_accounts ts owns : Forall2 accounts ts owns → Forall (λ t, t = Finished) ts → concat owns = [].
Proof.
  induction 1 as [|t o ts os Hto _ IH]; [done|]. intros [-> Hts]%Forall_cons. cbn in *. subst o. by apply IH.
Qed.
End accounting.
End tasks.

Arguments task : clear implicits.
Arguments pool : clear implicits.
