(* ===== verification/Float.v ===== *)
(** * Double-precision arithmetic

    Rust's [f64] as the IEEE 754 reference [spec_float] of the Standard
    Library at precision 53 and exponent 1024, the operations the program
    uses, the order of [partial_cmp], and bounds on rounding: an operation on
    finite operands of known magnitude is finite, with a known magnitude.
    These are what keeps a trust score from becoming NaN. *)

From Stdlib Require Import SpecFloat.
From stdpp Require Import prelude.
From S2P Require Import Prelude.

Local Open Scope Z_scope.

(** ** Operations *)

#[export] Instance spec_float_eq_dec : EqDecision spec_float.
Proof. solve_decision. Defined.

Definition f64_add : spec_float → spec_float → spec_float := SFadd 53 1024.
Definition f64_sub : spec_float → spec_float → spec_float := SFsub 53 1024.
Definition f64_mul : spec_float → spec_float → spec_float := SFmul 53 1024.
Definition f64_div : spec_float → spec_float → spec_float := SFdiv 53 1024.

(** An integer converted with [as f64]: round to nearest, ties to even. *)
Definition f64_of_Z (z : Z) : spec_float := binary_normalize 53 1024 z 0 false.

(** The double nearest to a quotient of two integers a double holds exactly:
    a decimal literal. *)
Definition f64_lit (n d : Z) : spec_float := f64_div (f64_of_Z n) (f64_of_Z d).

Definition f64_is_nan (x : spec_float) : bool := match x with S754_nan => true | _ => false end.

Definition f64_is_finite (x : spec_float) : bool :=
  match x with S754_zero _ | S754_finite _ _ _ => true | _ => false end.

(** [f64::min]: a NaN operand is ignored. *)
Definition f64_min (x y : spec_float) : spec_float :=
  if f64_is_nan x then y else if SFltb y x then y else x.

Definition f64_clamp (x lo hi : spec_float) : spec_float :=
  let x := if SFltb x lo then lo else x in
  if SFltb hi x then hi else x.

(** [Duration::as_secs_f64] of a duration in nanoseconds. *)
Definition as_secs_f64 (nanos : Z) : spec_float :=
  f64_add (f64_of_Z (nanos / 10 ^ 9)) (f64_div (f64_of_Z (nanos mod 10 ^ 9)) (f64_of_Z (10 ^ 9))).

Definition f64_zero : spec_float := S754_zero false.
Definition f64_one : spec_float := S754_finite false (2 ^ 52) (-52).

Example f64_lit_half : f64_lit 1 2 = S754_finite false (2 ^ 52) (-53).
Proof. vm_compute. reflexivity. Qed.
Example as_secs_f64_one : as_secs_f64 (10 ^ 9) = f64_one.
Proof. vm_compute. reflexivity. Qed.

(** ** The order of [partial_cmp] *)

(** NaN apart, doubles compare as their lexicographic rank. *)
Definition sf_rank (x : spec_float) : Z * (Z * Z) :=
  match x with
  | S754_zero _ | S754_nan => (0, (0, 0))
  | S754_infinity s => ((if s then -2 else 2), (0, 0))
  | S754_finite s m ex => if s then (-1, (- ex, Z.neg m)) else (1, (ex, Z.pos m))
  end.

Lemma SFcompare_rank x y :
  x ≠ S754_nan → y ≠ S754_nan → SFcompare x y = Some (cmp (sf_rank x) (sf_rank y)).
Proof.
  intros Hx Hy. destruct x as [[]|[]| |[] m ex], y as [[]|[]| |[] m' ex']; try done.
  cbn. unfold pair_cmp. cbn. rewrite Z.compare_opp, (Z.compare_antisym ex' ex).
  destruct (ex' ?= ex); cbn; try done.
Qed.

Lemma SFltb_rank x y : SFltb x y = true ↔ x ≠ S754_nan ∧ y ≠ S754_nan ∧ tlt (sf_rank x) (sf_rank y).
Proof.
  unfold SFltb. destruct (decide (x = S754_nan)) as [->|Hx]; [split; [by destruct y|by intros [? _]]|].
  destruct (decide (y = S754_nan)) as [->|Hy]; [split; [by destruct x|by intros (_ & ? & _)]|].
  rewrite SFcompare_rank by done. unfold tlt. destruct (cmp _ _); naive_solver.
Qed.

Lemma SFleb_rank x y : SFleb x y = true ↔ x ≠ S754_nan ∧ y ≠ S754_nan ∧ tle (sf_rank x) (sf_rank y).
Proof.
  unfold SFleb. destruct (decide (x = S754_nan)) as [->|Hx]; [split; [by destruct y|by intros [? _]]|].
  destruct (decide (y = S754_nan)) as [->|Hy]; [split; [by destruct x|by intros (_ & ? & _)]|].
  rewrite SFcompare_rank by done. unfold tle. destruct (cmp _ _); naive_solver.
Qed.

Lemma f64_min_le x y : y ≠ S754_nan → SFleb (f64_min x y) y = true.
Proof.
  intros Hy. apply SFleb_rank. unfold f64_min. destruct (decide (x = S754_nan)) as [->|Hx].
  { simpl. split_and!; [done..|]. apply (tle_refl _). }
  replace (f64_is_nan x) with false by by destruct x.
  destruct (SFltb y x) eqn:Hlt; [split_and!; [done..|apply (tle_refl _)]|].
  split_and!; [done..|]. apply tle_not_tlt. intros Hc. apply not_true_iff_false in Hlt.
  by apply Hlt, SFltb_rank.
Qed.

(** ** Rounding stays in range *)

Lemma digits2_log2 p : Z.pos (digits2_pos p) = Z.log2 (Z.pos p) + 1.
Proof.
  induction p as [p IH|p IH|]; [| |done]; cbn [digits2_pos]; rewrite Pos2Z.inj_succ, IH.
  - rewrite Pos2Z.inj_xI, Z.log2_succ_double by lia. lia.
  - rewrite Pos2Z.inj_xO, Z.log2_double by lia. lia.
Qed.

(** Zero, or a finite number of at most 53 significant bits below [2 ^ k]. *)
Definition below (k : Z) (x : spec_float) : Prop :=
  match x with
  | S754_zero _ => True
  | S754_finite _ m e => Z.log2 (Z.pos m) < 53 ∧ Z.log2 (Z.pos m) + 1 + e ≤ k
  | _ => False
  end.

Lemma below_weaken k l x : k ≤ l → below k x → below l x.
Proof. intros Hkl. destruct x; simpl; [done..|]. lia. Qed.

Lemma below_finite k x : below k x → f64_is_finite x = true.
Proof. by destruct x. Qed.

Lemma below_not_nan k x : below k x → x ≠ S754_nan.
Proof. by intros H ->. Qed.

(** [shr] divides the significand by a power of two. *)
Lemma iter_shr p : ∀ r, 0 ≤ shr_m r →
  shr_m (SpecFloat.iter_pos shr_1 p r) = shr_m r / 2 ^ Z.pos p.
Proof.
  assert (H1 : ∀ r, 0 ≤ shr_m r → shr_m (shr_1 r) = shr_m r / 2).
  { intros [m ? ?]. simpl. intros Hm. destruct m as [|[p'|p'|]|p']; try done; try lia; simpl.
    - rewrite Pos2Z.inj_xI. rewrite (Z.mul_comm 2), Z.div_add_l by lia. done.
    - rewrite Pos2Z.inj_xO. by rewrite (Z.mul_comm 2), Z.div_mul by lia. }
  assert (H2 : ∀ a (n : positive), 0 ≤ a → 0 ≤ a / 2 ^ Z.pos n) by (intros; apply Z.div_pos; lia).
  induction p as [p IH|p IH|]; intros r Hr; cbn [SpecFloat.iter_pos].
  - assert (Hn : 0 ≤ shr_m (shr_1 r)) by (rewrite H1 by done; apply Z.div_pos; lia).
    assert (Hn' : 0 ≤ shr_m (SpecFloat.iter_pos shr_1 p (shr_1 r))) by (rewrite IH; auto).
    rewrite IH, IH, H1 by done.
    rewrite Z.div_div, Z.div_div by lia. f_equal.
    replace (Z.pos p~1) with (1 + (Z.pos p + Z.pos p)) by lia. rewrite !Z.pow_add_r by lia. lia.
  - assert (Hn : 0 ≤ shr_m (SpecFloat.iter_pos shr_1 p r)) by (rewrite IH; auto).
    rewrite IH, IH by done. rewrite Z.div_div, <-Z.pow_add_r by lia. do 2 f_equal. lia.
  - by rewrite H1.
Qed.

Lemma shr_fexp_spec m e l :
  0 ≤ m →
  let n := Z.max 0 (fexp 53 1024 (Zdigits2 m + e) - e) in
  shr_m (shr_fexp 53 1024 m e l).1 = m / 2 ^ n ∧ (shr_fexp 53 1024 m e l).2 = e + n.
Proof.
  intros Hm. unfold shr_fexp. set (d := fexp 53 1024 (Zdigits2 m + e) - e).
  assert (Hl : shr_m (shr_record_of_loc m l) = m) by by destruct l as [|[]].
  destruct d as [|p|p] eqn:Hd; cbn [shr fst snd].
  - rewrite Hl, Z.max_id, Z.pow_0_r, Z.div_1_r. lia.
  - rewrite iter_shr, Hl by (rewrite Hl; lia). split; do 2 f_equal; lia.
  - rewrite Hl. replace (Z.max 0 (Z.neg p)) with 0 by lia. rewrite Z.pow_0_r, Z.div_1_r. lia.
Qed.

Lemma round_nearest_even_bound m l :
  m ≤ round_nearest_even m l ≤ m + 1.
Proof. unfold round_nearest_even. repeat case_match; lia. Qed.

Lemma log2_div_pow2 a n : 0 < a → 0 ≤ n → Z.log2 (a / 2 ^ n) = Z.max 0 (Z.log2 a - n).
Proof. intros. rewrite <-Z.shiftr_div_pow2 by lia. by apply Z.log2_shiftr. Qed.

Lemma Zdigits2_pos m : 0 < m → Zdigits2 m = Z.log2 m + 1.
Proof. intros. destruct m as [|p|p]; try lia. apply digits2_log2. Qed.

(** The significand after the first rounding: at most [2 ^ 53], and below
    [2 ^ (log2 m + 1)] scaled by the shift. *)
Lemma rounded_bound m n l :
  0 < m → 0 ≤ n →
  0 ≤ round_nearest_even (m / 2 ^ n) l ≤ 2 ^ Z.max 0 (Z.log2 m + 1 - n).
Proof.
  intros Hm Hn. pose proof (round_nearest_even_bound (m / 2 ^ n) l) as Hr.
  assert (0 ≤ m / 2 ^ n) by (apply Z.div_pos; lia).
  split; [lia|]. enough (m / 2 ^ n < 2 ^ Z.max 0 (Z.log2 m + 1 - n)) by lia.
  apply Z.div_lt_upper_bound; [lia|]. rewrite <-Z.pow_add_r by lia.
  pose proof (Z.log2_spec m Hm) as [_ Hlog]. eapply Z.lt_le_trans; [exact Hlog|].
  apply Z.pow_le_mono_r; lia.
Qed.

(** The exponent arithmetic of the two shifts. *)
Lemma round_arith L L2 lp e k n n2 :
  0 ≤ L → 0 ≤ L2 →
  n = Z.max 0 (Z.max (L + 1 + e - 53) (-1074) - e) →
  n2 = Z.max 0 (Z.max (L2 + 1 + (e + n) - 53) (-1074) - (e + n)) →
  L2 ≤ Z.max 0 (L + 1 - n) → n2 ≤ L2 → lp = Z.max 0 (L2 - n2) →
  L + 2 + e ≤ k → -1073 ≤ k ≤ 970 →
  lp < 53 ∧ lp + 1 + (e + n + n2) ≤ k ∧ e + n + n2 ≤ 971.
Proof. lia. Qed.

Lemma binary_round_aux_below sx m e l k :
  0 < m → Z.log2 m + 2 + e ≤ k → -1073 ≤ k ≤ 970 →
  below k (binary_round_aux 53 1024 sx m e l).
Proof.
  intros Hm Hk Hr. unfold binary_round_aux.
  pose proof (shr_fexp_spec m e l ltac:(lia)) as [Hm1 He1]. rewrite Zdigits2_pos in Hm1, He1 by done.
  set (n := Z.max 0 (fexp 53 1024 (Z.log2 m + 1 + e) - e)) in *.
  destruct (shr_fexp 53 1024 m e l) as [r1 e1]. cbn [fst snd] in *. subst e1. rewrite Hm1.
  pose proof (rounded_bound m n (loc_of_shr_record r1) Hm ltac:(lia)) as Hm2.
  set (m2 := round_nearest_even (m / 2 ^ n) (loc_of_shr_record r1)) in *.
  pose proof (shr_fexp_spec m2 (e + n) loc_Exact ltac:(lia)) as [Hm3 He3].
  set (n2 := Z.max 0 (fexp 53 1024 (Zdigits2 m2 + (e + n)) - (e + n))) in *.
  destruct (shr_fexp 53 1024 m2 (e + n) loc_Exact) as [r2 e2]. cbn [fst snd] in *. subst e2.
  pose proof (Z.div_pos m2 (2 ^ n2) ltac:(lia) ltac:(lia)) as Hm3pos.
  destruct (shr_m r2) as [|p|p]; [done| |lia].
  assert (0 < m2) by (destruct (decide (m2 = 0)) as [H0|]; [rewrite H0, Z.div_0_l in Hm3; lia|lia]).
  assert (Hlog2 : Z.log2 m2 ≤ Z.max 0 (Z.log2 m + 1 - n)).
  { rewrite <-(Z.log2_pow2 (Z.max 0 (Z.log2 m + 1 - n))) by lia. apply Z.log2_le_mono. lia. }
  assert (Hlog3 : Z.log2 (Z.pos p) = Z.max 0 (Z.log2 m2 - n2)) by (rewrite Hm3; apply log2_div_pow2; lia).
  assert (n2 ≤ Z.log2 m2).
  { destruct (decide (n2 ≤ Z.log2 m2)) as [|Hc]; [done|]. exfalso.
    rewrite Z.div_small in Hm3; [lia|]. split; [lia|]. apply Z.log2_lt_pow2; lia. }
  destruct (round_arith (Z.log2 m) (Z.log2 m2) (Z.log2 (Z.pos p)) e k n n2) as (Hp & Hpk & He);
    try done; try apply Z.log2_nonneg.
  - unfold n2. by rewrite Zdigits2_pos.
  - change (1024 - 53) with 971. destruct (Z.leb_spec (e + n + n2) 971); [done|]. lia.
Qed.

Lemma iter_xO m d : Z.pos (Pos.iter xO m d) = Z.pos m * 2 ^ Z.pos d.
Proof.
  induction d as [|d IH] using Pos.peano_ind; [simpl; lia|].
  rewrite Pos.iter_succ, Pos2Z.inj_xO, IH, Pos2Z.inj_succ, Z.pow_succ_r by lia. lia.
Qed.

(** Aligning to a smaller exponent is exact. *)
Lemma shl_align_spec m e e' :
  (shl_align m e e').2 = Z.min e e' ∧
  Z.pos (shl_align m e e').1 = Z.pos m * 2 ^ (e - Z.min e e').
Proof.
  unfold shl_align. destruct (e' - e) as [|d|d] eqn:Hd; cbn [fst snd].
  - replace (Z.min e e') with e by lia. rewrite Z.sub_diag, Z.pow_0_r. lia.
  - replace (Z.min e e') with e by lia. rewrite Z.sub_diag, Z.pow_0_r. lia.
  - replace (Z.min e e') with e' by lia. rewrite iter_xO. replace (e - e') with (Z.pos d) by lia. done.
Qed.

Lemma binary_round_below sx m e k :
  Z.log2 (Z.pos m) + 2 + e ≤ k → -1073 ≤ k ≤ 970 → below k (binary_round 53 1024 sx m e).
Proof.
  intros Hk Hr. unfold binary_round.
  destruct (shl_align_spec m e (fexp 53 1024 (Z.pos (digits2_pos m) + e))) as [He Hm].
  destruct (shl_align _ _ _) as [m' e']. cbn [fst snd] in *.
  apply binary_round_aux_below; [done| |done].
  rewrite Hm, Z.log2_mul_pow2 by lia. lia.
Qed.

Lemma binary_normalize_below z e k b :
  (z ≠ 0 → Z.log2 (Z.abs z) + 2 + e ≤ k) → -1073 ≤ k ≤ 970 → below k (binary_normalize 53 1024 z e b).
Proof.
  intros Hk Hr. destruct z as [|p|p]; cbn [binary_normalize]; [done|..];
    apply binary_round_below; [apply Hk; lia|done|apply Hk; lia|done].
Qed.

Lemma of_Z_below z k : Z.abs z < 2 ^ k → 0 ≤ k ≤ 900 → below (k + 1) (f64_of_Z z).
Proof.
  intros Hz Hk. apply binary_normalize_below; [|lia]. intros Hne.
  enough (Z.log2 (Z.abs z) < k) by lia. apply Z.log2_lt_pow2; lia.
Qed.

Lemma aligned_bound m e ez k :
  Z.log2 (Z.pos m) + 1 + e ≤ k → ez ≤ e → Z.pos (shl_align m e ez).1 < 2 ^ (k - ez).
Proof.
  intros Hk Hez. destruct (shl_align_spec m e ez) as [_ ->]. rewrite Z.min_r by done.
  pose proof (Z.log2_spec (Z.pos m) ltac:(lia)) as [_ Hlog].
  pose proof (Z.log2_nonneg (Z.pos m)).
  eapply (Z.lt_le_trans _ (2 ^ (Z.log2 (Z.pos m) + 1) * 2 ^ (e - ez))).
  - apply Z.mul_lt_mono_pos_r; [lia|exact Hlog].
  - rewrite <-Z.pow_add_r by lia. apply Z.pow_le_mono_r; lia.
Qed.

(** Two aligned significands combined. *)
Lemma sum_below k mx ex my ey (f : Z → Z → Z) :
  (∀ a b, Z.abs (f a b) ≤ Z.abs a + Z.abs b) → -1073 ≤ k + 2 ≤ 970 →
  Z.log2 (Z.pos mx) + 1 + ex ≤ k → Z.log2 (Z.pos my) + 1 + ey ≤ k → ∀ sx sy b,
  below (k + 2) (binary_normalize 53 1024
    (f (cond_Zopp sx (Z.pos (shl_align mx ex (Z.min ex ey)).1))
       (cond_Zopp sy (Z.pos (shl_align my ey (Z.min ex ey)).1))) (Z.min ex ey) b).
Proof.
  intros Hf Hr Hx Hy sx sy b. apply binary_normalize_below; [|done]. intros Hne.
  set (ez := Z.min ex ey) in *.
  pose proof (aligned_bound mx ex ez k Hx ltac:(lia)) as Bx.
  pose proof (aligned_bound my ey ez k Hy ltac:(lia)) as By.
  set (zx := cond_Zopp sx _) in *. set (zy := cond_Zopp sy _) in *.
  assert (Hzx : Z.abs zx = Z.pos (shl_align mx ex ez).1) by by destruct sx.
  assert (Hzy : Z.abs zy = Z.pos (shl_align my ey ez).1) by by destruct sy.
  pose proof (Z.log2_nonneg (Z.pos mx)).
  enough (Z.log2 (Z.abs (f zx zy)) < k + 1 - ez) by lia.
  apply Z.log2_lt_pow2; [lia|]. specialize (Hf zx zy).
  replace (k + 1 - ez) with (1 + (k - ez)) by lia. rewrite Z.pow_add_r by lia. lia.
Qed.

Lemma add_below k x y : -1073 ≤ k + 2 ≤ 970 → below k x → below k y → below (k + 2) (f64_add x y).
Proof.
  intros Hr Hx Hy. destruct x as [sx| | |sx mx ex], y as [sy| | |sy my ey]; try done; cbn [f64_add SFadd].
  - by destruct sx, sy.
  - eapply below_weaken; [|done]. lia.
  - eapply below_weaken; [|done]. lia.
  - apply (sum_below k mx ex my ey Z.add); [lia|done|apply Hx|apply Hy].
Qed.

Lemma sub_below k x y : -1073 ≤ k + 2 ≤ 970 → below k x → below k y → below (k + 2) (f64_sub x y).
Proof.
  intros Hr Hx Hy. destruct x as [sx| | |sx mx ex], y as [sy| | |sy my ey]; try done; cbn [f64_sub SFsub].
  - by destruct sx, sy.
  - eapply (below_weaken k); [lia|done].
  - eapply (below_weaken k); [lia|done].
  - apply (sum_below k mx ex my ey Z.sub); [lia|done|apply Hx|apply Hy].
Qed.

Lemma mul_below k l x y :
  -1073 ≤ k + l + 1 ≤ 970 → below k x → below l y → below (k + l + 1) (f64_mul x y).
Proof.
  intros Hr Hx Hy. destruct x as [sx| | |sx mx ex], y as [sy| | |sy my ey]; try done.
  cbn [f64_mul SFmul]. destruct Hx as [_ Hx], Hy as [_ Hy].
  apply binary_round_aux_below; [done| |done].
  pose proof (Z.log2_mul_above (Z.pos mx) (Z.pos my) ltac:(lia) ltac:(lia)) as Hl. rewrite <-Pos2Z.inj_mul in Hl. lia.
Qed.

(** The sign of a product. *)
Lemma round_aux_neg m e l : 0 < m → SFleb (binary_round_aux 53 1024 true m e l) f64_zero = true.
Proof.
  intros Hm. unfold binary_round_aux.
  pose proof (shr_fexp_spec m e l ltac:(lia)) as [Hm1 _].
  destruct (shr_fexp 53 1024 m e l) as [r1 e1]. cbn [fst] in *.
  pose proof (round_nearest_even_bound (shr_m r1) (loc_of_shr_record r1)) as Hb.
  set (n := Z.max 0 _) in Hm1. assert (0 ≤ shr_m r1) by (rewrite Hm1; apply Z.div_pos; lia).
  set (m2 := round_nearest_even _ _) in *.
  pose proof (shr_fexp_spec m2 e1 loc_Exact ltac:(lia)) as [Hm3 _].
  destruct (shr_fexp 53 1024 m2 e1 loc_Exact) as [r2 e2]. cbn [fst] in *.
  set (n2 := Z.max 0 _) in Hm3. assert (0 ≤ shr_m r2) by (rewrite Hm3; apply Z.div_pos; lia).
  destruct (shr_m r2); [done| |lia]. by case_match.
Qed.

Lemma mul_neg_pos m e y : SFltb f64_zero y = true →
  SFleb (f64_mul (S754_finite true m e) y) f64_zero = true.
Proof.
  destruct y as [[]|[]| |[] my ey]; try done. intros _. cbn [f64_mul SFmul xorb].
  by apply round_aux_neg.
Qed.

(** ** The unit interval *)

(** A score: a double in [0, 1]. *)
Definition unit_score (x : spec_float) : Prop :=
  below 1 x ∧ SFleb f64_zero x = true ∧ SFleb x f64_one = true.

Lemma unit_zero : unit_score f64_zero.
Proof. done. Qed.
Lemma unit_one : unit_score f64_one.
Proof. split; [|done]. split; vm_compute; congruence. Qed.

Lemma clamp_unit k x : below k x → unit_score (f64_clamp x f64_zero f64_one).
Proof.
  intros Hx. unfold f64_clamp. destruct x as [s| | |[] m e]; [by destruct s|done..|].
  cbn [SFltb SFcompare f64_zero]. destruct Hx as [Hm Hk].
  destruct (SFltb f64_one (S754_finite false m e)) eqn:Hlt; [apply unit_one|].
  assert (Hle : tle (sf_rank (S754_finite false m e)) (sf_rank f64_one)).
  { apply tle_not_tlt. intros Hc. apply not_true_iff_false in Hlt. by apply Hlt, SFltb_rank. }
  split; [|split; [done|by apply SFleb_rank]]. split; [done|].
  cbn [sf_rank f64_one] in Hle. apply pair_tle_cases in Hle as [Hle|[_ Hle]]; [done|].
  cbn [snd] in Hle. apply pair_tle_cases in Hle as [He|[He Hp]]; cbn [fst snd] in *; [|subst e].
  - rewrite Z_tlt in He. lia.
  - assert (Z.log2 (Z.pos m) ≤ 52); [|lia]. rewrite <-(Z.log2_pow2 52) by lia. apply Z.log2_le_mono.
    rewrite Z_tle in Hp. lia.
Qed.

(** A score is not moved by clamping. *)
Lemma clamp_id x : unit_score x → f64_clamp x f64_zero f64_one = x.
Proof.
  intros (Hb & H0 & H1). unfold f64_clamp. apply SFleb_rank in H0 as (_ & Hx & H0), H1 as (_ & _ & H1).
  destruct (SFltb x f64_zero) eqn:E0.
  { apply SFltb_rank in E0 as (_ & _ & E0). by apply tle_not_tlt in H0. }
  destruct (SFltb f64_one x) eqn:E1; [|done].
  apply SFltb_rank in E1 as (_ & _ & E1). by apply tle_not_tlt in H1.
Qed.
