(* ===== verification/Keys.v ===== *)
(** * Keys: 256-bit identifiers and the XOR metric

    [PeerId] ([src/identity/peer_id.rs]), [LookupKey] ([src/dht_lookup.rs])
    and [DhtKey] ([src/dht/core_engine.rs]) are all [[u8; 32]].  They are one
    type here: a list of 32 bytes with a proof-irrelevant certificate.
    The file proves that the byte-wise XOR and the lexicographic comparison
    the code uses are the XOR metric and the order of 256-bit integers. *)

From stdpp Require Import prelude sorting gmap strings.
From Stdlib Require Import Zbitwise.
From S2P Require Import Prelude.

Local Open Scope Z_scope.

(** ** Byte arrays *)

Definition KEY_LEN : nat := 32.

Definition byte_ok (b : Z) : bool := (0 <=? b) && (b <? 256).

Definition wf_bytes (n : nat) (l : list Z) : bool :=
  Nat.eqb (length l) n && forallb byte_ok l.

Record Key := mk_key {
  key_bytes : list Z;
  key_wf : Is_true (wf_bytes KEY_LEN key_bytes);
}.

Abbreviation PeerId := Key.
Abbreviation LookupKey := Key.
Abbreviation DhtKey := Key.

Lemma byte_ok_spec b : byte_ok b = true ↔ 0 ≤ b < 256.
Proof. unfold byte_ok. rewrite andb_true_iff, Z.leb_le, Z.ltb_lt. lia. Qed.

Lemma wf_bytes_spec n l :
  Is_true (wf_bytes n l) ↔ length l = n ∧ Forall (λ b, 0 ≤ b < 256) l.
Proof.
  unfold wf_bytes. rewrite Is_true_true, andb_true_iff, Nat.eqb_eq, forallb_forall.
  rewrite Forall_forall. setoid_rewrite byte_ok_spec.
  setoid_rewrite list_elem_of_In. done.
Qed.

Lemma key_length k : length (key_bytes k) = KEY_LEN.
Proof. destruct k as [l Hl]; simpl. by apply wf_bytes_spec in Hl as []. Qed.
Lemma key_bytes_ok k : Forall (λ b, 0 ≤ b < 256) (key_bytes k).
Proof. destruct k as [l Hl]; simpl. by apply wf_bytes_spec in Hl as []. Qed.

Lemma key_eq k1 k2 : key_bytes k1 = key_bytes k2 → k1 = k2.
Proof.
  destruct k1 as [l1 H1], k2 as [l2 H2]; simpl. intros ->. f_equal. apply proof_irrel.
Qed.

#[export] Instance key_bytes_inj : Inj (=) (=) key_bytes.
Proof. intros k1 k2. apply key_eq. Qed.

#[export] Instance key_eq_dec : EqDecision Key.
Proof.
  intros k1 k2. destruct (decide (key_bytes k1 = key_bytes k2)) as [E|E].
  - left. by apply key_eq.
  - right. by intros ->.
Defined.

Definition key_of_list (l : list Z) : option Key :=
  match decide (Is_true (wf_bytes KEY_LEN l)) with
  | left H => Some (mk_key l H)
  | right _ => None
  end.

Lemma key_of_list_bytes k : key_of_list (key_bytes k) = Some k.
Proof.
  unfold key_of_list. destruct (decide _) as [H|H].
  - f_equal. by apply key_eq.
  - by destruct H, k.
Qed.

#[export] Instance key_countable : Countable Key :=
  inj_countable key_bytes key_of_list key_of_list_bytes.

(** Lexicographic [Ord] of [[u8; 32]]. *)
Definition key_cmp (a b : Key) : comparison := cmp (key_bytes a) (key_bytes b).

#[export] Instance key_total_ord : TotalOrd Key.
Proof.
  refine {| cmp := key_cmp |}; unfold key_cmp.
  - intros a b. rewrite cmp_eq_iff. split; [apply key_eq|by intros ->].
  - intros a b. apply cmp_antisym.
  - intros a b c. apply cmp_lt_trans.
Defined.

(** Conversion of a byte list to a key: bytes are taken modulo 256, the list
    is cut or zero-padded to 32 entries.  On the byte lists the code handles
    it is the identity ([key_of_bytes_id]). *)
Definition key_of_bytes_list (l : list Z) : list Z :=
  resize KEY_LEN 0 ((λ b, b `mod` 256) <$> l).

Lemma key_of_bytes_wf l : Is_true (wf_bytes KEY_LEN (key_of_bytes_list l)).
Proof.
  apply wf_bytes_spec. unfold key_of_bytes_list. split; [apply length_resize|].
  apply Forall_resize; [lia|]. apply Forall_fmap, Forall_forall.
  intros b _. apply Z.mod_pos_bound. lia.
Qed.

Definition key_of_bytes (l : list Z) : Key := mk_key _ (key_of_bytes_wf l).

Lemma key_of_bytes_id k : key_of_bytes (key_bytes k) = k.
Proof.
  apply key_eq; simpl. unfold key_of_bytes_list.
  rewrite resize_all_alt by (by rewrite length_fmap, key_length).
  pose proof (key_bytes_ok k) as Hok. induction Hok as [|b l Hb Hl IH]; [done|].
  rewrite fmap_cons, IH, Z.mod_small by lia. done.
Qed.

(** ** XOR distance *)

Definition xor_bytes (a b : list Z) : list Z := zip_with Z.lxor a b.

Lemma lxor_byte a b : 0 ≤ a < 256 → 0 ≤ b < 256 → 0 ≤ Z.lxor a b < 256.
Proof.
  intros Ha Hb. split; [apply Z.lxor_nonneg; lia|].
  destruct (decide (Z.lxor a b = 0)) as [->|Hn]; [lia|].
  assert (0 ≤ Z.lxor a b) by (apply Z.lxor_nonneg; lia).
  change 256 with (2 ^ 8). apply Z.log2_lt_pow2; [lia|].
  eapply Z.le_lt_trans; [apply Z.log2_lxor; lia|].
  assert (∀ x, 0 ≤ x < 256 → Z.log2 x < 8) as Hlog.
  { intros x Hx. destruct (decide (x = 0)) as [->|]; [done|].
    apply Z.log2_lt_pow2; lia. }
  pose proof (Hlog a Ha). pose proof (Hlog b Hb). lia.
Qed.

Lemma xor_bytes_wf n a b :
  Is_true (wf_bytes n a) → Is_true (wf_bytes n b) → Is_true (wf_bytes n (xor_bytes a b)).
Proof.
  rewrite !wf_bytes_spec. intros [La Ha] [Lb Hb]. split.
  - unfold xor_bytes. rewrite length_zip_with. lia.
  - unfold xor_bytes. clear La Lb. revert b Hb.
    induction Ha as [|x a Hx Ha IH]; intros b Hb; [constructor|].
    destruct Hb as [|y b Hy Hb]; simpl; constructor; auto using lxor_byte.
Qed.

(** [dht_lookup::xor_distance], [PeerId::xor_distance] and
    [core_engine::xor_distance_bytes]. *)
Definition xor_distance (a b : Key) : Key :=
  mk_key (xor_bytes (key_bytes a) (key_bytes b)) (xor_bytes_wf _ _ _ (key_wf a) (key_wf b)).

(** ** The numeric view *)

(** Big-endian value of a byte list. *)
Fixpoint be_combine (l : list Z) : Z :=
  match l with
  | [] => 0
  | b :: l' => b * 2 ^ (8 * Z.of_nat (length l')) + be_combine l'
  end.

Definition key_to_Z (k : Key) : Z := be_combine (key_bytes k).

Lemma be_combine_bound l :
  Forall (λ b, 0 ≤ b < 256) l → 0 ≤ be_combine l < 2 ^ (8 * Z.of_nat (length l)).
Proof.
  induction 1 as [|b l Hb Hl IH]; simpl length; simpl be_combine; [lia|].
  replace (8 * Z.of_nat (S (length l))) with (8 + 8 * Z.of_nat (length l)) by lia.
  rewrite Z.pow_add_r by lia. nia.
Qed.

Lemma be_combine_cmp a b :
  length a = length b →
  Forall (λ b, 0 ≤ b < 256) a → Forall (λ b, 0 ≤ b < 256) b →
  list_cmp a b = (be_combine a ?= be_combine b).
Proof.
  revert b. induction a as [|x a IH]; intros [|y b]; try done.
  intros [= Hlen] Ha Hb. apply Forall_cons in Ha as [Hx Ha], Hb as [Hy Hb].
  cbn [list_cmp be_combine]. rewrite (IH b) by done. rewrite Hlen.
  pose proof (be_combine_bound a Ha) as Ba. pose proof (be_combine_bound b Hb) as Bb.
  rewrite Hlen in Ba. set (p := 2 ^ (8 * Z.of_nat (length b))) in *.
  simpl. destruct (Z.compare_spec x y) as [->|Hxy|Hxy].
  - destruct (Z.compare_spec (be_combine a) (be_combine b)) as [->|?|?]; symmetry.
    + by apply Z.compare_eq_iff.
    + apply Z.compare_lt_iff. lia.
    + apply Z.compare_gt_iff. lia.
  - symmetry. apply Z.compare_lt_iff. nia.
  - symmetry. apply Z.compare_gt_iff. nia.
Qed.

Lemma lxor_shift a b x y n :
  0 ≤ n → 0 ≤ x < 2 ^ n → 0 ≤ y < 2 ^ n →
  Z.lxor (a * 2 ^ n + x) (b * 2 ^ n + y) = Z.lxor a b * 2 ^ n + Z.lxor x y.
Proof.
  intros Hn Hx Hy.
  assert (∀ u v, 0 ≤ v < 2 ^ n → u * 2 ^ n + v = Z.lxor (Z.shiftl u n) v) as Hsplit.
  { intros u v Hv. rewrite <- Z.shiftl_mul_pow2 by done.
    apply Z.add_nocarry_lxor. apply Z.bits_inj'. intros i Hi.
    rewrite Z.land_spec, Z.bits_0, Z.shiftl_spec by done.
    destruct (decide (i < n)) as [Hlt|Hge].
    - by rewrite Z.testbit_neg_r by lia.
    - rewrite <- (Z.mod_small v (2 ^ n)) by done.
      by rewrite Z.mod_pow2_bits_high, andb_false_r by lia. }
  rewrite (Hsplit a x), (Hsplit b y) by done. rewrite Hsplit.
  - rewrite Z.shiftl_lxor. rewrite !Z.lxor_assoc. f_equal.
    rewrite <- !Z.lxor_assoc. f_equal. apply Z.lxor_comm.
  - split; [apply Z.lxor_nonneg; lia|].
    destruct (decide (Z.lxor x y = 0)) as [->|Hne]; [lia|].
    assert (0 ≤ Z.lxor x y) by (apply Z.lxor_nonneg; lia).
    destruct (decide (n = 0)) as [->|]; [simpl in *; replace x with 0 in * by lia;
      replace y with 0 in * by lia; done|].
    apply Z.log2_lt_pow2; [lia|]. eapply Z.le_lt_trans; [apply Z.log2_lxor; lia|].
    assert (∀ v, 0 ≤ v < 2 ^ n → Z.log2 v < n) as Hlog.
    { intros v Hv. destruct (decide (v = 0)) as [->|]; [simpl; lia|].
      apply Z.log2_lt_pow2; lia. }
    pose proof (Hlog x Hx). pose proof (Hlog y Hy). lia.
Qed.

Lemma be_combine_xor a b :
  length a = length b →
  Forall (λ b, 0 ≤ b < 256) a → Forall (λ b, 0 ≤ b < 256) b →
  be_combine (xor_bytes a b) = Z.lxor (be_combine a) (be_combine b).
Proof.
  revert b. induction a as [|x a IH]; intros [|y b]; try done.
  intros [= Hlen] Ha Hb. apply Forall_cons in Ha as [Hx Ha], Hb as [Hy Hb].
  change (xor_bytes (x :: a) (y :: b)) with (Z.lxor x y :: xor_bytes a b).
  cbn [be_combine]. rewrite (IH b) by done.
  assert (length (xor_bytes a b) = length b) as -> by
    (unfold xor_bytes; rewrite length_zip_with; lia).
  pose proof (be_combine_bound a Ha) as Ba. pose proof (be_combine_bound b Hb) as Bb.
  rewrite Hlen in Ba |- *. rewrite lxor_shift by lia. done.
Qed.

Lemma key_to_Z_bound k : 0 ≤ key_to_Z k < 2 ^ 256.
Proof.
  unfold key_to_Z. pose proof (be_combine_bound _ (key_bytes_ok k)) as Hb.
  by rewrite key_length in Hb.
Qed.

Lemma key_cmp_numeric a b : cmp a b = (key_to_Z a ?= key_to_Z b).
Proof.
  apply be_combine_cmp; [by rewrite !key_length|apply key_bytes_ok..].
Qed.
Lemma key_tlt_numeric a b : tlt a b ↔ key_to_Z a < key_to_Z b.
Proof. unfold tlt. by rewrite key_cmp_numeric, Z.compare_lt_iff. Qed.
Lemma key_tle_numeric a b : tle a b ↔ key_to_Z a ≤ key_to_Z b.
Proof. unfold tle. by rewrite key_cmp_numeric, Z.compare_le_iff. Qed.

#[export] Instance key_to_Z_inj : Inj (=) (=) key_to_Z.
Proof.
  intros a b E. apply cmp_eq_iff. by rewrite key_cmp_numeric, Z.compare_eq_iff.
Qed.

Lemma key_to_Z_xor a b :
  key_to_Z (xor_distance a b) = Z.lxor (key_to_Z a) (key_to_Z b).
Proof.
  apply be_combine_xor; [by rewrite !key_length|apply key_bytes_ok..].
Qed.

(** ** Laws of the distance *)

Lemma xor_distance_comm a b : xor_distance a b = xor_distance b a.
Proof. apply (inj key_to_Z). rewrite !key_to_Z_xor. apply Z.lxor_comm. Qed.

Lemma xor_distance_inj_l t : Inj (=) (=) (λ p, xor_distance p t).
Proof.
  intros a b E. apply (f_equal key_to_Z) in E. rewrite !key_to_Z_xor in E.
  apply (inj key_to_Z). apply (f_equal (λ z, Z.lxor z (key_to_Z t))) in E.
  by rewrite !Z.lxor_assoc, !Z.lxor_nilpotent, !Z.lxor_0_r in E.
Qed.
#[export] Existing Instance xor_distance_inj_l.

Lemma xor_distance_involutive a t : xor_distance (xor_distance a t) t = a.
Proof.
  apply (inj key_to_Z). rewrite !key_to_Z_xor.
  by rewrite Z.lxor_assoc, Z.lxor_nilpotent, Z.lxor_0_r.
Qed.

Lemma xor_distance_zero a b : key_to_Z (xor_distance a b) = 0 ↔ a = b.
Proof.
  rewrite key_to_Z_xor, Z.lxor_eq_0_iff. split; [apply (inj key_to_Z)|by intros ->].
Qed.

(** Comparing byte-wise XOR distances lexicographically, as the code does
    everywhere, is comparing the XOR of 256-bit integers: the peer the code
    considers closer to [t] is the closer one of Kademlia's metric. *)
Theorem closer_is_xor_metric a b t :
  tlt (xor_distance a t) (xor_distance b t) ↔
  Z.lxor (key_to_Z a) (key_to_Z t) < Z.lxor (key_to_Z b) (key_to_Z t).
Proof. by rewrite key_tlt_numeric, !key_to_Z_xor. Qed.

(** the distance is a metric and is unidirectional: it is zero exactly on
    equal keys, symmetric, satisfies the triangle inequality, and for every
    target and distance there is exactly one key at that distance. *)
Theorem xor_distance_metric a b c d :
  (key_to_Z (xor_distance a b) = 0 ↔ a = b) ∧
  xor_distance a b = xor_distance b a ∧
  key_to_Z (xor_distance a c) ≤ key_to_Z (xor_distance a b) + key_to_Z (xor_distance b c) ∧
  (∃ p, xor_distance p a = d ∧ ∀ q, xor_distance q a = d → q = p).
Proof.
  split; [apply xor_distance_zero|]. split; [apply xor_distance_comm|]. split.
  - rewrite !key_to_Z_xor.
    replace (Z.lxor (key_to_Z a) (key_to_Z c)) with
      (Z.lxor (Z.lxor (key_to_Z a) (key_to_Z b)) (Z.lxor (key_to_Z b) (key_to_Z c))).
    + rewrite <- Z.add_lxor_2land.
      assert (0 ≤ Z.land (Z.lxor (key_to_Z a) (key_to_Z b))
                         (Z.lxor (key_to_Z b) (key_to_Z c))); [|lia].
      rewrite <- !key_to_Z_xor. apply Z.land_nonneg. left. apply key_to_Z_bound.
    + rewrite Z.lxor_assoc. f_equal. rewrite <- Z.lxor_assoc, Z.lxor_nilpotent.
      apply Z.lxor_0_l.
  - exists (xor_distance d a). split; [apply xor_distance_involutive|].
    intros q <-. by rewrite xor_distance_involutive.
Qed.
