(* ===== verification/BTree.v ===== *)
(** * Ordered maps

    The part of [std::collections::BTreeMap] the lookup engine uses: an
    association list kept strictly increasing in its keys. *)

From stdpp Require Import prelude sorting.
From S2P Require Import Prelude.

Section btree.
Context {K V : Type} `{TotalOrd K}.
Implicit Types (m : list (K * V)) (k : K) (v : V).

Definition bt_wf (m : list (K * V)) : Prop := StronglySorted (key_lt fst) m.

Fixpoint bt_lookup (k : K) (m : list (K * V)) : option V :=
  match m with
  | [] => None
  | (k', v') :: m' =>
      match cmp k k' with Eq => Some v' | Lt => None | Gt => bt_lookup k m' end
  end.

Fixpoint bt_insert (k : K) (v : V) (m : list (K * V)) : list (K * V) :=
  match m with
  | [] => [(k, v)]
  | (k', v') :: m' =>
      match cmp k k' with
      | Lt => (k, v) :: m
      | Eq => (k, v) :: m'
      | Gt => (k', v') :: bt_insert k v m'
      end
  end.

Fixpoint bt_remove (k : K) (m : list (K * V)) : list (K * V) :=
  match m with
  | [] => []
  | (k', v') :: m' =>
      match cmp k k' with Eq => m' | Lt => m | Gt => (k', v') :: bt_remove k m' end
  end.

Definition bt_retain (p : K → bool) (m : list (K * V)) : list (K * V) :=
  List.filter (λ kv, p kv.1) m.

Definition bt_first_key (m : list (K * V)) : option K := head m.*1.
Definition bt_last_key (m : list (K * V)) : option K := last m.*1.

Definition bt_pop_first (m : list (K * V)) : option (K * V) * list (K * V) :=
  match m with [] => (None, []) | kv :: m' => (Some kv, m') end.

Lemma bt_wf_cons k v m :
  bt_wf ((k, v) :: m) ↔ Forall (λ kv, tlt k kv.1) m ∧ bt_wf m.
Proof. unfold bt_wf. by rewrite StronglySorted_cons. Qed.

Lemma bt_lookup_Some k v m : bt_wf m → bt_lookup k m = Some v ↔ (k, v) ∈ m.
Proof.
  induction m as [|[k' v'] m IH]; simpl; [set_solver|].
  intros [Hk' Hm]%bt_wf_cons. rewrite elem_of_cons.
  rewrite Forall_forall in Hk'. destruct (cmp k k') eqn:E.
  - apply cmp_eq_iff in E as ->. split; [intros [= ->]; by left|].
    intros [[= ->]|Hin]; [done|]. apply Hk' in Hin. by apply tlt_irrefl in Hin.
  - split; [done|]. intros [[= -> ->]|Hin]; [by rewrite cmp_refl in E|].
    apply Hk' in Hin. simpl in Hin. exfalso. eapply tlt_irrefl. by etrans.
  - rewrite IH by done. split; [by right|]. intros [[= -> ->]|]; [|done].
    by rewrite cmp_refl in E.
Qed.
Lemma bt_lookup_None k m : bt_wf m → bt_lookup k m = None ↔ k ∉ m.*1.
Proof.
  intros Hm. rewrite eq_None_not_Some. apply not_iff_compat.
  unfold is_Some. setoid_rewrite bt_lookup_Some; [|done].
  rewrite list_elem_of_fmap. split.
  - intros [v Hv]. by exists (k, v).
  - intros [[k' v] [-> ?]]. by exists v.
Qed.

Lemma elem_of_bt_insert k v m kv :
  bt_wf m → kv ∈ bt_insert k v m ↔ kv = (k, v) ∨ (kv.1 ≠ k ∧ kv ∈ m).
Proof.
  induction m as [|[k' v'] m IH]; simpl; [set_solver|].
  intros [Hk' Hm]%bt_wf_cons. rewrite Forall_forall in Hk'.
  destruct (cmp k k') eqn:E; rewrite ?elem_of_cons.
  - apply cmp_eq_iff in E as ->. split.
    + intros [->|Hin]; [by left|right]. split; [|by right].
      intros Heq. apply Hk' in Hin. rewrite Heq in Hin. by apply tlt_irrefl in Hin.
    + intros [->|[Hne [->|Hin]]]; [by left|done|by right].
  - split; [|naive_solver]. intros [->|Hin]; [by left|right]. split; [|done].
    intros Heq. destruct Hin as [->|Hin]; simpl in *.
    + subst. by rewrite cmp_refl in E.
    + apply Hk' in Hin. rewrite Heq in Hin. eapply tlt_irrefl. by etrans.
  - rewrite IH by done. split; [|naive_solver].
    intros [->|?]; [right|naive_solver]. split; [|by left].
    simpl. intros ->. by rewrite cmp_refl in E.
Qed.

Lemma bt_insert_wf k v m : bt_wf m → bt_wf (bt_insert k v m).
Proof.
  induction m as [|[k' v'] m IH]; intros Hm; simpl; [by repeat constructor|].
  pose proof Hm as [Hk' Hm']%bt_wf_cons. destruct (cmp k k') eqn:E.
  - apply cmp_eq_iff in E as ->. by apply bt_wf_cons.
  - apply bt_wf_cons. split; [|done]. constructor; [done|].
    eapply Forall_impl; [exact Hk'|]. intros [k'' v''] ?; simpl in *. by etrans.
  - apply bt_wf_cons. split; [|by apply IH]. rewrite Forall_forall in Hk' |- *.
    intros kv [->|[_ Hin]]%elem_of_bt_insert; [|by apply Hk'|done].
    simpl. unfold tlt. by rewrite (cmp_antisym k k'), E.
Qed.

Lemma bt_insert_fresh k v m :
  k ∉ m.*1 → bt_insert k v m = insert_sorted fst (k, v) m.
Proof.
  induction m as [|[k' v'] m IH]; simpl; [done|]. intros Hni.
  apply not_elem_of_cons in Hni as [Hne Hni]. unfold leb; simpl.
  destruct (cmp k k') eqn:E; [by apply cmp_eq_iff in E|done|].
  f_equal. by apply IH.
Qed.

Lemma length_bt_insert_fresh k v m :
  k ∉ m.*1 → length (bt_insert k v m) = S (length m).
Proof. intros. rewrite bt_insert_fresh by done. by rewrite insert_sorted_perm. Qed.
Lemma length_bt_insert_le k v m : length (bt_insert k v m) ≤ S (length m).
Proof.
  induction m as [|[k' v'] m IH]; simpl; [done|]. destruct (cmp _ _); simpl; lia.
Qed.
Lemma bt_insert_keys_replace k v m :
  bt_wf m → k ∈ m.*1 → (bt_insert k v m).*1 = m.*1.
Proof.
  induction m as [|[k' v'] m IH]; simpl; [set_solver|].
  intros [Hk' Hm]%bt_wf_cons Hin. rewrite Forall_forall in Hk'.
  destruct (cmp k k') eqn:E.
  - by apply cmp_eq_iff in E as ->.
  - apply elem_of_cons in Hin as [->|Hin]; [by rewrite cmp_refl in E|].
    apply list_elem_of_fmap in Hin as [[k'' v''] [-> Hin]].
    apply Hk' in Hin. simpl in *. exfalso. eapply tlt_irrefl. by etrans.
  - simpl. f_equal. apply IH; [done|]. apply elem_of_cons in Hin as [->|]; [|done].
    by rewrite cmp_refl in E.
Qed.

Lemma bt_remove_sublist k m : bt_remove k m `sublist_of` m.
Proof.
  induction m as [|[k' v'] m IH]; simpl; [done|].
  destruct (cmp _ _); [by apply sublist_cons|done|by apply sublist_skip].
Qed.
Lemma bt_sublist_wf m m' : m' `sublist_of` m → bt_wf m → bt_wf m'.
Proof.
  unfold bt_wf. induction 1 as [|kv m' m Hs IH|kv m' m Hs IH]; [done|..];
    rewrite ?StronglySorted_cons; intros [Hkv Hm]; [split|]; [|by apply IH..].
  rewrite Forall_forall in Hkv |- *. intros y Hy. apply Hkv.
  by eapply elem_of_sublist.
Qed.
Lemma bt_remove_wf k m : bt_wf m → bt_wf (bt_remove k m).
Proof. apply bt_sublist_wf, bt_remove_sublist. Qed.

Lemma bt_remove_last k v m : bt_wf (m ++ [(k, v)]) → bt_remove k (m ++ [(k, v)]) = m.
Proof.
  induction m as [|[k' v'] m IH]; simpl; [by rewrite cmp_refl|].
  intros [Hk' Hm]%bt_wf_cons. apply Forall_app in Hk' as [_ Hk'].
  apply Forall_cons in Hk' as [Hk' _]. simpl in Hk'. unfold tlt in Hk'.
  rewrite (cmp_antisym k' k), Hk'. simpl. f_equal. by apply IH.
Qed.

Lemma bt_retain_sublist p m : bt_retain p m `sublist_of` m.
Proof.
  unfold bt_retain. induction m as [|kv m IH]; simpl; [done|].
  destruct (p kv.1); [by apply sublist_skip|by apply sublist_cons].
Qed.
Lemma bt_retain_wf p m : bt_wf m → bt_wf (bt_retain p m).
Proof. apply bt_sublist_wf, bt_retain_sublist. Qed.
Lemma elem_of_bt_retain p m kv : kv ∈ bt_retain p m ↔ p kv.1 = true ∧ kv ∈ m.
Proof.
  unfold bt_retain. rewrite !list_elem_of_In, filter_In. tauto.
Qed.
Lemma bt_retain_id p m : (∀ kv, kv ∈ m → p kv.1 = true) → bt_retain p m = m.
Proof.
  unfold bt_retain. induction m as [|kv m IH]; intros Hp; simpl; [done|].
  rewrite Hp by left. f_equal. apply IH. intros kv' Hin. apply Hp. by right.
Qed.
Lemma bt_NoDup_keys m : bt_wf m → NoDup m.*1.
Proof.
  induction m as [|[k v] m IH]; [constructor|]. intros [Hk Hm]%bt_wf_cons.
  rewrite fmap_cons. constructor; [|by apply IH]. simpl.
  intros [[k' v'] [-> Hin]]%list_elem_of_fmap. rewrite Forall_forall in Hk.
  apply Hk in Hin. by apply tlt_irrefl in Hin.
Qed.

(** ** Bounded insertion

    Inserting into a full map by evicting the largest key keeps exactly the
    smallest keys of the union. *)
Lemma insert_sorted_snoc kv m x :
  tle x.1 kv.1 → kv.1 ∉ m.*1 →
  insert_sorted fst x (m ++ [kv]) = insert_sorted fst x m ++ [kv].
Proof.
  intros Hle. induction m as [|y m IH]; simpl.
  - intros _. by apply leb_tle in Hle as ->.
  - intros [_ Hni]%not_elem_of_cons. destruct (leb x.1 y.1); simpl; [done|].
    by rewrite IH.
Qed.

Lemma insert_sorted_end m x kv :
  bt_wf (m ++ [kv]) → tle kv.1 x.1 → x.1 ∉ (m ++ [kv]).*1 →
  insert_sorted fst x (m ++ [kv]) = (m ++ [kv]) ++ [x].
Proof.
  intros Hwf Hle Hni. set (m' := m ++ [kv]) in *.
  assert (∀ y, y ∈ m' → tlt y.1 x.1) as Hall.
  { intros y Hy. assert (tle y.1 kv.1) as Hyk.
    { subst m'. apply elem_of_app in Hy as [Hy|Hy]; [|by apply list_elem_of_singleton in Hy as ->].
      apply tlt_tle. eapply StronglySorted_app_1_elem_of in Hwf; [exact Hwf|done|].
      by apply list_elem_of_singleton. }
    assert (tle y.1 x.1) as [|Heq]%tle_cases by (by etrans); [done|].
    destruct Hni. rewrite <- Heq. by apply list_elem_of_fmap_2. }
  clearbody m'. clear Hwf Hle Hni. induction m' as [|y m' IH]; simpl; [done|].
  assert (leb x.1 y.1 = false) as -> by (apply leb_false, Hall; left).
  f_equal. apply IH. intros z Hz. apply Hall. by right.
Qed.
End btree.
