(* ===== verification/Lookup.v ===== *)
(** * The iterative lookup state machine

    [IterativeLookup] of [src/dht_lookup.rs]: configuration, bounded
    closest-first candidate queue, per-peer states, rounds and convergence.
    Module [Lookup] holds the data and one definition per method; the rest of
    the file is the invariant every method preserves and the behaviour of the
    methods. The transport-driven loop is in [LookupRun]. *)

From stdpp Require Import prelude sorting gmap strings.
From S2P Require Import Prelude Keys BTree.

Module Lookup.

Definition DEFAULT_K_VALUE : nat := 20.
Definition DEFAULT_ALPHA_VALUE : nat := 3.

(** The trait [LookupNode]: a candidate with a stable peer identity. *)
Class LookupNode (N : Type) := lookup_peer_id : N → LookupKey.

Record LookupConfig := mk_config {
  count : nat;
  alpha : nat;
  max_iterations : nat;
  max_candidates : nat;
}.

Inductive LookupTermination := Converged | Exhausted | IterationLimit | TimedOut.

Inductive LookupProgress :=
  | Continue
  | Finished (reason : LookupTermination).

Inductive CandidateInsertion :=
  | Inserted (evicted : option LookupKey)
  | Replaced
  | AlreadyContacted
  | TooFar.

Inductive LookupPeerState := Waiting | Succeeded | Failed | Unresponsive.

Inductive LookupError :=
  | InvalidConfig (message : string)
  | InvalidState (message : string)
  | PeerNotWaiting (peer : LookupKey).

#[export] Instance LookupTermination_eq_dec : EqDecision LookupTermination.
Proof. solve_decision. Defined.
#[export] Instance LookupPeerState_eq_dec : EqDecision LookupPeerState.
Proof. solve_decision. Defined.

Definition saorsa (n : nat) : LookupConfig :=
  {| count := n; alpha := DEFAULT_ALPHA_VALUE; max_iterations := 20; max_candidates := 200 |}.

Definition validate (c : LookupConfig) : result LookupConfig LookupError :=
  if Nat.eqb (alpha c) 0 then
    Err (InvalidConfig "lookup alpha must be greater than zero")
  else if Nat.eqb (max_iterations c) 0 then
    Err (InvalidConfig "lookup iteration limit must be greater than zero")
  else if Nat.eqb (max_candidates c) 0 then
    Err (InvalidConfig "lookup candidate limit must be greater than zero")
  else Ok c.

Record IterativeLookup (N : Type) := mk_lookup {
  target : LookupKey;
  config : LookupConfig;
  candidates : list ((LookupKey * LookupKey) * N);
  peer_states : gmap LookupKey LookupPeerState;
  query_order : list LookupKey;
  in_flight : gmap LookupKey N;
  successful : gmap LookupKey N;
  previous_top_k : list LookupKey;
  iterations : nat;
  round_active : bool;
  round_queries : nat;
  termination : option LookupTermination;
}.
Global Arguments mk_lookup {N}.
Global Arguments target {N}.
Global Arguments config {N}.
Global Arguments candidates {N}.
Global Arguments peer_states {N}.
Global Arguments query_order {N}.
Global Arguments in_flight {N}.
Global Arguments successful {N}.
Global Arguments previous_top_k {N}.
Global Arguments iterations {N}.
Global Arguments round_active {N}.
Global Arguments round_queries {N}.
Global Arguments termination {N}.

(** ** Field updates *)
Section setters.
Context {N : Type}.
Implicit Types l : IterativeLookup N.

Definition set_candidates c l :=
  {| target := target l; config := config l; candidates := c;
     peer_states := peer_states l; query_order := query_order l;
     in_flight := in_flight l; successful := successful l;
     previous_top_k := previous_top_k l; iterations := iterations l;
     round_active := round_active l; round_queries := round_queries l;
     termination := termination l |}.
Definition set_peers ps qo fl su l :=
  {| target := target l; config := config l; candidates := candidates l;
     peer_states := ps; query_order := qo;
     in_flight := fl; successful := su;
     previous_top_k := previous_top_k l; iterations := iterations l;
     round_active := round_active l; round_queries := round_queries l;
     termination := termination l |}.
Definition set_round it active queries l :=
  {| target := target l; config := config l; candidates := candidates l;
     peer_states := peer_states l; query_order := query_order l;
     in_flight := in_flight l; successful := successful l;
     previous_top_k := previous_top_k l; iterations := it;
     round_active := active; round_queries := queries;
     termination := termination l |}.
Definition set_top_k tk l :=
  {| target := target l; config := config l; candidates := candidates l;
     peer_states := peer_states l; query_order := query_order l;
     in_flight := in_flight l; successful := successful l;
     previous_top_k := tk; iterations := iterations l;
     round_active := round_active l; round_queries := round_queries l;
     termination := termination l |}.
Definition set_termination t l :=
  {| target := target l; config := config l; candidates := candidates l;
     peer_states := peer_states l; query_order := query_order l;
     in_flight := in_flight l; successful := successful l;
     previous_top_k := previous_top_k l; iterations := iterations l;
     round_active := round_active l; round_queries := round_queries l;
     termination := t |}.
End setters.

(** ** Methods *)
Section methods.
Context {N : Type} `{LookupNode N}.
Implicit Types (l : IterativeLookup N) (node : N) (peer : LookupKey).

Definition new (t : LookupKey) (c : LookupConfig) : result (IterativeLookup N) LookupError :=
  match validate c with
  | Err e => Err e
  | Ok c' =>
      Ok {| target := t; config := c'; candidates := []; peer_states := ∅;
            query_order := []; in_flight := ∅; successful := ∅; previous_top_k := [];
            iterations := 0; round_active := false; round_queries := 0;
            termination := if Nat.eqb (count c) 0 then Some Converged else None |}
  end.

Definition peer_state l peer : option LookupPeerState := peer_states l !! peer.

Definition is_contactable l peer : bool :=
  match peer_states l !! peer with Some _ => false | None => true end.

Definition add_known_result node l : IterativeLookup N :=
  let peer := lookup_peer_id node in
  let l1 := set_candidates (bt_retain (λ k, negb (bool_decide (k.2 = peer))) (candidates l)) l in
  set_peers (<[peer := Succeeded]> (peer_states l1)) (query_order l1) (in_flight l1)
    (match successful l1 !! peer with
     | Some _ => successful l1
     | None => <[peer := node]> (successful l1)
     end) l1.

Definition add_candidate node l : CandidateInsertion * IterativeLookup N :=
  let peer := lookup_peer_id node in
  if negb (is_contactable l peer) then (AlreadyContacted, l)
  else
    let candidate_key := (xor_distance peer (target l), peer) in
    match bt_lookup candidate_key (candidates l) with
    | Some _ => (Replaced, set_candidates (bt_insert candidate_key node (candidates l)) l)
    | None =>
        if Nat.leb (max_candidates (config l)) (length (candidates l)) then
          match bt_last_key (candidates l) with
          | None => (TooFar, l)
          | Some farthest_key =>
              if leb farthest_key candidate_key then (TooFar, l)
              else
                (Inserted (Some farthest_key.2),
                 set_candidates
                   (bt_insert candidate_key node (bt_remove farthest_key (candidates l))) l)
          end
        else
          (Inserted None, set_candidates (bt_insert candidate_key node (candidates l)) l)
    end.

Definition discard_contacted_candidates l : IterativeLookup N :=
  set_candidates (bt_retain (λ k, is_contactable l k.2) (candidates l)) l.

Definition finish (reason : LookupTermination) l : LookupProgress * IterativeLookup N :=
  (Finished reason,
   set_termination (Some reason) (set_round (iterations l) false (round_queries l) l)).

Definition begin_round l : result LookupProgress LookupError * IterativeLookup N :=
  if round_active l then
    (Err (InvalidState "cannot begin a lookup round while another round is active"), l)
  else
    match termination l with
    | Some reason => (Ok (Finished reason), l)
    | None =>
        if Nat.leb (max_iterations (config l)) (iterations l) then
          let '(p, l1) := finish IterationLimit l in (Ok p, l1)
        else
          let l1 := discard_contacted_candidates l in
          match candidates l1 with
          | [] => let '(p, l2) := finish Exhausted l1 in (Ok p, l2)
          | _ :: _ => (Ok Continue, set_round (S (iterations l1)) true 0 l1)
          end
    end.

Definition take_next_candidate l : result (option N) LookupError * IterativeLookup N :=
  if negb (round_active l) then
    (Err (InvalidState "cannot select a candidate outside an active lookup round"), l)
  else if Nat.leb (alpha (config l)) (round_queries l) then (Ok None, l)
  else
    let l1 := discard_contacted_candidates l in
    let '(first, rest) := bt_pop_first (candidates l1) in
    (Ok (snd <$> first), set_candidates rest l1).

Definition mark_waiting node l : result unit LookupError * IterativeLookup N :=
  if negb (round_active l) then
    (Err (InvalidState "cannot start a query outside an active lookup round"), l)
  else if Nat.leb (alpha (config l)) (round_queries l) then
    (Err (InvalidState "lookup round already reached its alpha limit"), l)
  else
    let peer := lookup_peer_id node in
    if negb (is_contactable l peer) then
      (Err (InvalidState "cannot query a peer that already has lookup state"), l)
    else
      let l1 := set_peers (<[peer := Waiting]> (peer_states l)) (query_order l ++ [peer])
                  (<[peer := node]> (in_flight l)) (successful l) l in
      (Ok tt, set_round (iterations l1) (round_active l1) (S (round_queries l1)) l1).

Definition take_waiting peer l : result N LookupError * IterativeLookup N :=
  if decide (peer_states l !! peer = Some Waiting) then
    match in_flight l !! peer with
    | Some node =>
        (Ok node, set_peers (peer_states l) (query_order l) (delete peer (in_flight l))
                    (successful l) l)
    | None => (Err (PeerNotWaiting peer), l)
    end
  else (Err (PeerNotWaiting peer), l).

Definition set_state peer s l : IterativeLookup N :=
  set_peers (<[peer := s]> (peer_states l)) (query_order l) (in_flight l) (successful l) l.

Definition record_success peer l : result unit LookupError * IterativeLookup N :=
  let '(r, l1) := take_waiting peer l in
  match r with
  | Err e => (Err e, l1)
  | Ok node =>
      let l2 := set_state peer Succeeded l1 in
      (Ok tt, set_peers (peer_states l2) (query_order l2) (in_flight l2)
                (match successful l2 !! peer with
                 | Some _ => successful l2
                 | None => <[peer := node]> (successful l2)
                 end) l2)
  end.

Definition record_failure peer l : result unit LookupError * IterativeLookup N :=
  let '(r, l1) := take_waiting peer l in
  match r with
  | Err e => (Err e, l1)
  | Ok _ => (Ok tt, set_state peer Failed l1)
  end.

Definition record_unresponsive peer l : result unit LookupError * IterativeLookup N :=
  let '(r, l1) := take_waiting peer l in
  match r with
  | Err e => (Err e, l1)
  | Ok _ => (Ok tt, set_state peer Unresponsive l1)
  end.

Definition distance_key (t peer : LookupKey) : LookupKey * LookupKey :=
  (xor_distance peer t, peer).

Definition waiting_peers l : list LookupKey :=
  sort_by_key (distance_key (target l)) (map_to_list (in_flight l)).*1.

Definition results l : list N :=
  take (count (config l))
    (sort_by_key (λ node, distance_key (target l) (lookup_peer_id node))
       (map_to_list (successful l)).*2).

Definition result_peer_ids l : list LookupKey := lookup_peer_id <$> results l.

Definition has_promising_candidate l : bool :=
  match last (result_peer_ids l) with
  | None => negb (bool_decide (candidates l = []))
  | Some worst_result =>
      let worst_distance := xor_distance worst_result (target l) in
      match bt_first_key (candidates l) with
      | None => false
      | Some k => ltb k.1 worst_distance
      end
  end.

Definition complete_round l : result LookupProgress LookupError * IterativeLookup N :=
  if negb (round_active l) then
    (Err (InvalidState "cannot complete a lookup round when none is active"), l)
  else if negb (bool_decide (in_flight l = ∅)) then
    (Err (InvalidState "cannot complete a lookup round with queries still waiting"), l)
  else
    let l1 := set_round (iterations l) false (round_queries l) l in
    let current_top_k := result_peer_ids l1 in
    let rest l2 :=
      let l3 := set_top_k current_top_k l2 in
      if Nat.leb (max_iterations (config l3)) (iterations l3) then
        let '(p, l4) := finish IterationLimit l3 in (Ok p, l4)
      else
        let l4 := discard_contacted_candidates l3 in
        match candidates l4 with
        | [] => let '(p, l5) := finish Exhausted l4 in (Ok p, l5)
        | _ :: _ => (Ok Continue, l4)
        end in
    if decide (current_top_k = previous_top_k l1) then
      if Nat.ltb (length current_top_k) (count (config l1)) &&
         negb (bool_decide (candidates l1 = []))
      then (Ok Continue, set_top_k current_top_k l1)
      else if negb (has_promising_candidate l1) then
        let '(p, l2) := finish Converged l1 in (Ok p, l2)
      else rest l1
    else rest l1.

(** The deadline branch of [run_iterative_lookup]: the peers still in flight
    become unresponsive and the lookup is finished as timed out. *)
Definition expire l : IterativeLookup N :=
  let l1 := set_peers ((const Unresponsive <$> in_flight l) ∪ peer_states l) (query_order l)
              ∅ (successful l) l in
  (finish TimedOut l1).2.
End methods.
End Lookup.

Import Lookup.

(** ** The invariant *)

Section invariant.
Context {N : Type} `{LookupNode N}.
Implicit Types (l : IterativeLookup N) (node : N) (peer p : LookupKey).

Record lookup_inv l : Prop := {
  inv_config : 0 < alpha (config l) ∧ 0 < max_iterations (config l) ∧
               0 < max_candidates (config l);
  inv_sorted : bt_wf (candidates l);
  inv_keys : ∀ k n, (k, n) ∈ candidates l → k = distance_key (target l) (lookup_peer_id n);
  inv_bound : length (candidates l) ≤ max_candidates (config l);
  inv_waiting : ∀ p, peer_states l !! p = Some Waiting ↔ is_Some (in_flight l !! p);
  inv_flight : ∀ p n, in_flight l !! p = Some n → lookup_peer_id n = p;
  inv_succ : ∀ p n, successful l !! p = Some n →
               lookup_peer_id n = p ∧ peer_states l !! p = Some Succeeded;
  inv_order : NoDup (query_order l) ∧ ∀ p, p ∈ query_order l → is_Some (peer_states l !! p);
  inv_idle : round_active l = false → in_flight l = ∅;
  inv_queries : size (in_flight l) ≤ round_queries l ≤ alpha (config l);
  inv_total : length (query_order l) + (if round_active l then alpha (config l) else 0)
              ≤ alpha (config l) * iterations l +
                (if round_active l then round_queries l else 0);
  inv_iter : iterations l ≤ max_iterations (config l);
  inv_term : is_Some (termination l) → round_active l = false;
}.

(** Every public operation of the state machine, with the deadline branch of
    the runner.  [add_known_result] seeds results before or between rounds:
    it is not applied to a peer whose query is in flight. *)
Inductive lookup_step : IterativeLookup N → IterativeLookup N → Prop :=
  | step_known node l :
      in_flight l !! lookup_peer_id node = None → lookup_step l (add_known_result node l)
  | step_candidate node l : lookup_step l (add_candidate node l).2
  | step_begin l : lookup_step l (begin_round l).2
  | step_take l : lookup_step l (take_next_candidate l).2
  | step_mark node l : lookup_step l (mark_waiting node l).2
  | step_success p l : lookup_step l (record_success p l).2
  | step_failure p l : lookup_step l (record_failure p l).2
  | step_unresponsive p l : lookup_step l (record_unresponsive p l).2
  | step_complete l : lookup_step l (complete_round l).2
  | step_expire l : lookup_step l (expire l).

Definition reachable (t : LookupKey) (c : LookupConfig) l : Prop :=
  ∃ l0, new t c = Ok l0 ∧ rtc lookup_step l0 l.

Lemma new_inv t c l : new t c = Ok l → lookup_inv l.
Proof.
  unfold new, validate. destruct (Nat.eqb_spec (alpha c) 0); [done|].
  destruct (Nat.eqb_spec (max_iterations c) 0); [done|].
  destruct (Nat.eqb_spec (max_candidates c) 0); [done|]. intros [= <-].
  split; simpl; try set_solver; try lia.
  - by repeat constructor.
  - intros p. rewrite !lookup_empty. split; [done|by intros []].
  - split; [constructor|set_solver].
  - rewrite map_size_empty. lia.
Qed.

(** Operations that only replace the candidate queue by a part of it. *)
Lemma inv_set_candidates l c :
  lookup_inv l → bt_wf c → length c ≤ max_candidates (config l) →
  (∀ k n, (k, n) ∈ c → k = distance_key (target l) (lookup_peer_id n)) →
  lookup_inv (set_candidates c l).
Proof. intros [] ???. by split. Qed.

Lemma inv_sub_candidates l c :
  lookup_inv l → c `sublist_of` candidates l → lookup_inv (set_candidates c l).
Proof.
  intros Hl Hc. apply inv_set_candidates; [done|..].
  - eapply bt_sublist_wf, Hl. done.
  - apply sublist_length in Hc. pose proof (inv_bound l Hl). lia.
  - intros k n Hin. eapply inv_keys; [done|]. by eapply elem_of_sublist.
Qed.

Lemma discard_inv l : lookup_inv l → lookup_inv (discard_contacted_candidates l).
Proof. intros. apply inv_sub_candidates; [done|]. apply bt_retain_sublist. Qed.

Lemma add_known_result_inv node l :
  in_flight l !! lookup_peer_id node = None →
  lookup_inv l → lookup_inv (add_known_result node l).
Proof.
  intros Hfl Hl. unfold add_known_result. set (p := lookup_peer_id node) in *.
  pose proof (inv_sub_candidates l _ Hl (bt_retain_sublist
    (λ k, negb (bool_decide (k.2 = p))) (candidates l))) as [].
  split; simpl in *; try done.
  - intros q. rewrite lookup_insert. case_decide as E; [subst q|by apply inv_waiting0].
    rewrite Hfl. split; [done|by intros []].
  - intros q n. destruct (successful l !! p) eqn:E.
    + intros [? ?]%inv_succ0. split; [done|]. rewrite lookup_insert. by case_decide.
    + rewrite !lookup_insert. case_decide; [|by apply inv_succ0].
      by intros [= <-].
  - destruct inv_order0 as [? Hord]. split; [done|]. intros q Hq.
    rewrite lookup_insert. case_decide; [done|]. by apply Hord.
Qed.

(** The queue is a bounded priority queue: whatever branch is taken, the new
    queue is the closest [max_candidates] entries of the old queue with the
    node inserted (or replaced). *)
Lemma add_candidate_queue node l :
  lookup_inv l → is_contactable l (lookup_peer_id node) = true →
  candidates (add_candidate node l).2 =
    take (max_candidates (config l))
      (bt_insert (distance_key (target l) (lookup_peer_id node)) node (candidates l)).
Proof.
  intros Hl Hc. unfold add_candidate. rewrite Hc. simpl negb. cbv iota.
  set (ck := distance_key (target l) (lookup_peer_id node)).
  change (xor_distance (lookup_peer_id node) (target l), lookup_peer_id node) with ck.
  pose proof (inv_sorted l Hl) as Hwf. pose proof (inv_bound l Hl) as Hbd.
  destruct (bt_lookup ck (candidates l)) as [old|] eqn:El.
  { simpl. rewrite take_ge; [done|]. apply bt_lookup_Some in El; [|done].
    assert (length (bt_insert ck node (candidates l)) = length (candidates l)) as ->; [|lia].
    rewrite <- (length_fmap fst (bt_insert _ _ _)), <- (length_fmap fst (candidates l)).
    rewrite bt_insert_keys_replace; [done..|]. by apply (list_elem_of_fmap_2 fst) in El. }
  apply bt_lookup_None in El; [|done].
  destruct (Nat.leb_spec (max_candidates (config l)) (length (candidates l))).
  2: { simpl. rewrite take_ge; [done|]. rewrite length_bt_insert_fresh by done. lia. }
  unfold bt_last_key. destruct (last _) as [fk|] eqn:Elast.
  2: { apply last_None, fmap_nil_inv in Elast. rewrite Elast in *. simpl in *.
       pose proof (inv_config l Hl). lia. }
  rewrite fmap_last in Elast. destruct (last (candidates l)) as [[fk' fn]|] eqn:E; [|done].
  simpl in Elast. injection Elast as ->. apply last_Some in E as [c Ec].
  rewrite Ec in *. rewrite bt_remove_last by done.
  rewrite length_app in *. simpl in *.
  assert (fk ∉ c.*1) as Hfk.
  { apply bt_NoDup_keys in Hwf. rewrite fmap_app in Hwf. simpl in Hwf.
    apply NoDup_app in Hwf. set_solver. }
  rewrite (bt_insert_fresh ck node (c ++ _)) by done.
  assert (ck ∉ c.*1) as Hck by (rewrite fmap_app in El; set_solver).
  destruct (leb fk ck) eqn:Ele; simpl.
  - apply leb_tle in Ele. rewrite (insert_sorted_end c (ck, node) (fk, fn)) by done.
    rewrite take_app_le by (rewrite length_app; simpl; lia).
    rewrite take_ge; [done|]. rewrite length_app. simpl. lia.
  - apply leb_false, tlt_tle in Ele. rewrite insert_sorted_snoc by done.
    rewrite <- bt_insert_fresh by done.
    rewrite take_app_le by (rewrite length_bt_insert_fresh by done; lia).
    rewrite take_ge; [done|]. rewrite length_bt_insert_fresh by done. lia.
Qed.

Lemma add_candidate_inv node l : lookup_inv l → lookup_inv (add_candidate node l).2.
Proof.
  intros Hl. destruct (is_contactable l (lookup_peer_id node)) eqn:Hc.
  2: { unfold add_candidate. by rewrite Hc. }
  assert ((add_candidate node l).2 = set_candidates (candidates (add_candidate node l).2) l)
    as ->.
  { unfold add_candidate. rewrite Hc; simpl. destruct (bt_lookup _ _); [done|].
    destruct (Nat.leb _ _); [|done]. destruct (bt_last_key _); [|by destruct l].
    destruct (leb _ _); [by destruct l|done]. }
  rewrite add_candidate_queue by done.
  set (ck := distance_key (target l) (lookup_peer_id node)).
  apply inv_set_candidates; [done|..].
  - eapply bt_sublist_wf; [apply sublist_take|]. by apply bt_insert_wf, Hl.
  - rewrite length_take. lia.
  - intros k n Hin. eapply elem_of_sublist in Hin; [|apply sublist_take].
    apply elem_of_bt_insert in Hin as [[= -> ->]|[_ Hin]]; [done| |apply Hl].
    by eapply inv_keys.
Qed.

(** Leaving the active round with nothing in flight. *)
Lemma inv_deactivate l q :
  lookup_inv l → in_flight l = ∅ → q = round_queries l →
  lookup_inv (set_round (iterations l) false q l).
Proof.
  intros [] Hfl ->. split; simpl in *; try done.
  destruct (round_active l); lia.
Qed.
Lemma finish_inv reason l :
  lookup_inv l → in_flight l = ∅ → lookup_inv (finish reason l).2.
Proof.
  intros Hl Hfl. pose proof (inv_deactivate l _ Hl Hfl eq_refl) as []. by split.
Qed.
Lemma set_top_k_inv tk l : lookup_inv l → lookup_inv (set_top_k tk l).
Proof. intros []. by split. Qed.

Lemma begin_round_inv l : lookup_inv l → lookup_inv (begin_round l).2.
Proof.
  intros Hl. unfold begin_round. destruct (round_active l) eqn:Ha; [done|].
  pose proof (inv_idle l Hl Ha) as Hfl.
  destruct (termination l) eqn:Ht; [done|].
  destruct (Nat.leb_spec (max_iterations (config l)) (iterations l)).
  { by apply finish_inv. }
  pose proof (discard_inv l Hl) as Hd. destruct (candidates _) as [|kv c] eqn:Ec.
  { by apply finish_inv. }
  destruct Hd. split; simpl in *; try done; try lia.
  - rewrite Hfl, map_size_empty. lia.
  - rewrite Ha in inv_total0. lia.
  - rewrite Ht. by intros [].
Qed.

Lemma take_next_candidate_inv l : lookup_inv l → lookup_inv (take_next_candidate l).2.
Proof.
  intros Hl. unfold take_next_candidate. destruct (negb _); [done|].
  destruct (Nat.leb _ _); [done|]. pose proof (discard_inv l Hl) as Hd.
  destruct (candidates (discard_contacted_candidates l)) as [|kv c] eqn:Ec; simpl.
  - apply inv_sub_candidates; [done|]. apply sublist_nil_l.
  - apply inv_sub_candidates; [done|]. rewrite Ec. by apply sublist_cons.
Qed.

Lemma is_contactable_true l p : is_contactable l p = true ↔ peer_states l !! p = None.
Proof. unfold is_contactable. by destruct (peer_states l !! p). Qed.

Lemma mark_waiting_inv node l : lookup_inv l → lookup_inv (mark_waiting node l).2.
Proof.
  intros Hl. unfold mark_waiting. destruct (round_active l) eqn:Ha; [|done]. simpl negb.
  destruct (Nat.leb_spec (alpha (config l)) (round_queries l)) as [|Hq]; [done|].
  set (p := lookup_peer_id node). destruct (is_contactable l p) eqn:Hc; [|done].
  apply is_contactable_true in Hc. simpl.
  assert (in_flight l !! p = None) as Hfl.
  { destruct (in_flight l !! p) eqn:E; [|done].
    assert (peer_states l !! p = Some Waiting) by (apply inv_waiting; [done|by rewrite E]).
    congruence. }
  assert (successful l !! p = None) as Hsu.
  { destruct (successful l !! p) eqn:E; [|done]. apply (inv_succ l Hl) in E as []. congruence. }
  destruct Hl. split; simpl in *; try done.
  - intros q. rewrite !lookup_insert. case_decide; [|done]. split; [eauto|done].
  - intros q n. rewrite lookup_insert. case_decide; [|by apply inv_flight0].
    by intros [= <-].
  - intros q n Hn. rewrite lookup_insert_ne by congruence. by apply inv_succ0.
  - destruct inv_order0 as [Hnd Hord]. split.
    + apply NoDup_app. split; [done|]. split; [|apply NoDup_singleton].
      intros q Hq2 ->%list_elem_of_singleton. apply Hord in Hq2. rewrite Hc in Hq2.
      by destruct Hq2.
    + intros q [Hin| ->%list_elem_of_singleton]%elem_of_app.
      * rewrite lookup_insert. case_decide; [done|]. by apply Hord.
      * by rewrite lookup_insert_eq.
  - by rewrite Ha.
  - rewrite map_size_insert_None by done. lia.
  - rewrite Ha in *. rewrite length_app. simpl. lia.
Qed.

(** The three outcome handlers share one preservation argument. *)
Lemma record_inv p l node s su :
  lookup_inv l → peer_states l !! p = Some Waiting → in_flight l !! p = Some node →
  s ≠ Waiting →
  (su = successful l ∨ (s = Succeeded ∧ su = <[p := node]> (successful l))) →
  lookup_inv (set_peers (<[p := s]> (peer_states l)) (query_order l)
                (delete p (in_flight l)) su l).
Proof.
  intros Hl Hw Hf Hs Hsu.
  assert (successful l !! p = None) as Hn.
  { destruct (successful l !! p) eqn:E; [|done]. apply (inv_succ l Hl) in E as []. congruence. }
  destruct Hl. split; simpl in *; try done.
  - intros q. rewrite lookup_insert, lookup_delete. case_decide; [|done].
    split; [congruence|by intros []].
  - intros q n. rewrite lookup_delete_Some. naive_solver.
  - intros q n Hq. assert (q = p ∧ s = Succeeded ∧ n = node ∨ successful l !! q = Some n)
      as [(-> & -> & ->)|Hq'].
    { destruct Hsu as [->|[-> ->]]; [by right|]. apply lookup_insert_Some in Hq as [[-> ->]|[]];
        naive_solver. }
    + rewrite lookup_insert_eq. split; [by apply inv_flight0|done].
    + rewrite lookup_insert_ne by congruence. by apply inv_succ0.
  - destruct inv_order0 as [Hnd Hord]. split; [done|]. intros q Hq.
    rewrite lookup_insert. case_decide; [done|]. by apply Hord.
  - intros Ha. rewrite (inv_idle0 Ha) in Hf. by rewrite lookup_empty in Hf.
  - rewrite map_size_delete_Some by eauto. lia.
Qed.

Lemma take_waiting_cases p l :
  (∃ node, take_waiting p l =
     (Ok node, set_peers (peer_states l) (query_order l) (delete p (in_flight l))
                 (successful l) l) ∧
     peer_states l !! p = Some Waiting ∧ in_flight l !! p = Some node) ∨
  take_waiting p l = (Err (PeerNotWaiting p), l).
Proof.
  unfold take_waiting. case_decide; [|by right].
  destruct (in_flight l !! p) eqn:E; [left; eauto|by right].
Qed.

Lemma record_success_inv p l : lookup_inv l → lookup_inv (record_success p l).2.
Proof.
  intros Hl. unfold record_success.
  destruct (take_waiting_cases p l) as [(node & -> & Hw & Hf)| ->]; [|done]. simpl.
  destruct (successful l !! p) eqn:E.
  - apply (record_inv p l node); auto.
  - apply (record_inv p l node); auto.
Qed.
Lemma record_failure_inv p l : lookup_inv l → lookup_inv (record_failure p l).2.
Proof.
  intros Hl. unfold record_failure.
  destruct (take_waiting_cases p l) as [(node & -> & Hw & Hf)| ->]; [|done]. simpl.
  apply (record_inv p l node); auto.
Qed.
Lemma record_unresponsive_inv p l : lookup_inv l → lookup_inv (record_unresponsive p l).2.
Proof.
  intros Hl. unfold record_unresponsive.
  destruct (take_waiting_cases p l) as [(node & -> & Hw & Hf)| ->]; [|done]. simpl.
  apply (record_inv p l node); auto.
Qed.

Lemma complete_round_inv l : lookup_inv l → lookup_inv (complete_round l).2.
Proof.
  intros Hl. unfold complete_round. destruct (round_active l) eqn:Ha; [|done]. simpl negb.
  case_bool_decide as Hfl; [|done]. cbv iota zeta beta. simpl negb. cbv iota.
  set (l1 := set_round (iterations l) false (round_queries l) l).
  assert (lookup_inv l1) as Hl1 by (by apply inv_deactivate).
  assert (∀ l', lookup_inv l' → in_flight l' = ∅ → lookup_inv
    (let l4 := discard_contacted_candidates l' in
     match candidates l4 with
     | [] => let '(p, l5) := finish Exhausted l4 in (Ok p, l5)
     | _ :: _ => (Ok Continue, l4)
     end : result LookupProgress LookupError * _).2) as Hdisc.
  { intros l' Hl' Hf'. cbv zeta. destruct (candidates _) eqn:E;
      [apply finish_inv|]; [by apply discard_inv|done|by apply discard_inv]. }
  assert (lookup_inv (set_top_k (result_peer_ids l1) l1)) as Hl3 by (by apply set_top_k_inv).
  case_decide; [destruct (_ && _); [done|destruct (negb _); [by apply finish_inv|]]|];
    (destruct (Nat.leb _ _); [by apply finish_inv|by apply Hdisc]).
Qed.

Lemma expire_inv l : lookup_inv l → lookup_inv (expire l).
Proof.
  intros Hl. unfold expire. apply finish_inv; [|done]. destruct Hl.
  assert (∀ q, ((const Unresponsive <$> in_flight l) ∪ peer_states l) !! q =
               match in_flight l !! q with
               | Some _ => Some Unresponsive
               | None => peer_states l !! q
               end) as Hlk.
  { intros q. rewrite lookup_union, lookup_fmap. destruct (in_flight l !! q); simpl;
      [by destruct (peer_states l !! q)|]. by destruct (peer_states l !! q). }
  split; simpl in *; try done.
  - intros q. rewrite Hlk, lookup_empty. destruct (in_flight l !! q) eqn:E.
    + split; [done|by intros []].
    + rewrite inv_waiting0, E. done.
  - intros q n Hq. destruct (inv_succ0 q n Hq) as [? Hps]. split; [done|].
    rewrite Hlk. destruct (in_flight l !! q) eqn:E; [|done].
    assert (peer_states l !! q = Some Waiting) by (apply inv_waiting0; eauto). congruence.
  - destruct inv_order0 as [Hnd Hord]. split; [done|]. intros q Hq. rewrite Hlk.
    destruct (in_flight l !! q); [eauto|]. by apply Hord.
  - rewrite map_size_empty. lia.
Qed.

Lemma step_inv l l' : lookup_step l l' → lookup_inv l → lookup_inv l'.
Proof.
  destruct 1; eauto using add_known_result_inv, add_candidate_inv, begin_round_inv,
    take_next_candidate_inv, mark_waiting_inv, record_success_inv, record_failure_inv,
    record_unresponsive_inv, complete_round_inv, expire_inv.
Qed.

Lemma reachable_inv t c l : reachable t c l → lookup_inv l.
Proof.
  intros (l0 & Hnew & Hsteps). apply new_inv in Hnew.
  induction Hsteps; eauto using step_inv.
Qed.
End invariant.

(** ** Behaviour of the methods *)

Section behaviour.
Context {N : Type} `{LookupNode N}.
Implicit Types (l : IterativeLookup N) (node n : N) (p : LookupKey).

Abbreviation node_distance t := (λ n, distance_key t (lookup_peer_id n)).

Lemma bt_insert_sort {K V} `{TotalOrd K} `{!EqDecision K} (k : K) (v : V) (m : list (K * V)) :
  bt_wf m →
  bt_insert k v m =
    sort_by_key fst ((k, v) :: List.filter (λ kv, negb (bool_decide (kv.1 = k))) m).
Proof.
  intros Hm. set (f := List.filter _ m).
  assert (bt_wf f ∧ k ∉ f.*1) as [Hf Hk].
  { split.
    { assert (bt_wf (bt_retain (λ k', negb (bool_decide (k' = k))) m)); [|done].
      by apply bt_retain_wf. }
    intros [kv [-> Hin]]%list_elem_of_fmap. subst f.
    rewrite list_elem_of_In, filter_In in Hin. destruct Hin as [_ Hin].
    by rewrite bool_decide_eq_true_2 in Hin. }
  simpl. rewrite (sort_id fst f).
  2: { revert Hf. unfold bt_wf. clear. induction 1; constructor; [done|].
       eapply Forall_impl; [done|]. intros ??. by apply tlt_tle. }
  rewrite <- bt_insert_fresh by done.
  apply (StronglySorted_unique_strong (key_lt fst)).
  - intros x1 x2 _ _ H1 H2. exfalso. eapply tlt_irrefl. unfold key_lt in *. by etrans.
  - by apply bt_insert_wf.
  - by apply bt_insert_wf.
  - apply NoDup_Permutation.
    + eapply NoDup_fmap_1, bt_NoDup_keys. by apply bt_insert_wf.
    + eapply NoDup_fmap_1, bt_NoDup_keys. by apply bt_insert_wf.
    + intros kv. rewrite !elem_of_bt_insert by done. subst f.
      rewrite (list_elem_of_In (List.filter _ _)), filter_In, <- list_elem_of_In.
      destruct (decide (kv.1 = k)).
      * rewrite bool_decide_eq_true_2 by done. naive_solver.
      * rewrite bool_decide_eq_false_2 by done. naive_solver.
Qed.

(** C34: in every state reachable through the public operations the lookup
    invariant holds: the candidate queue is strictly ordered by distance,
    indexed by the right keys and never longer than [max_candidates]; the
    peers in flight are exactly the waiting ones; results are answered
    peers; no peer is queried twice and a round issues at most [alpha]
    queries; no round is active after termination. *)
Theorem lookup_invariant t c l : reachable t c l → lookup_inv l.
Proof. apply reachable_inv. Qed.

(** [add_candidate] implements a bounded closest-first queue: for a peer
    without lookup state, the queue afterwards is the [max_candidates]
    closest entries among the old queue (without the peer's old entry) and
    the new node, whichever of the four branches ran. *)
Theorem add_candidate_keeps_closest node l :
  lookup_inv l → is_contactable l (lookup_peer_id node) = true →
  candidates (add_candidate node l).2 =
    take (max_candidates (config l))
      (sort_by_key fst
         ((distance_key (target l) (lookup_peer_id node), node) ::
          List.filter (λ kv, negb (bool_decide
              (kv.1 = distance_key (target l) (lookup_peer_id node)))) (candidates l))).
Proof.
  intros Hl Hc. rewrite add_candidate_queue by done. f_equal. apply bt_insert_sort, Hl.
Qed.

Lemma distance_key_inj t : Inj (=) (=) (distance_key t).
Proof. by intros p q [= _ ->]. Qed.
#[local] Existing Instance distance_key_inj.

Lemma successful_ids l :
  lookup_inv l →
  (node_distance (target l) <$> (map_to_list (successful l)).*2) =
  (distance_key (target l) <$> (map_to_list (successful l)).*1).
Proof.
  intros Hl. rewrite <- !list_fmap_compose. apply list_fmap_ext. intros i [p n] Hin.
  simpl. f_equal. apply list_elem_of_lookup_2, elem_of_map_to_list in Hin.
  by apply (inv_succ l Hl) in Hin as [].
Qed.
Lemma successful_NoDup l :
  lookup_inv l → NoDup (node_distance (target l) <$> (map_to_list (successful l)).*2).
Proof.
  intros Hl. rewrite successful_ids by done. apply NoDup_fmap; [apply _|].
  apply NoDup_fst_map_to_list.
Qed.

Lemma elem_of_successful l n :
  n ∈ (map_to_list (successful l)).*2 ↔ ∃ p, successful l !! p = Some n.
Proof.
  rewrite list_elem_of_fmap. split.
  - intros [[p n'] [-> Hin%elem_of_map_to_list]]. eauto.
  - intros [p Hin%elem_of_map_to_list]. by exists (p, n).
Qed.

(** [results] returns the closest answered peers: strictly increasing
    distance to the target, as many as are known up to [count], all of them
    in state [Succeeded]; an answered peer that is left out is farther than
    every returned one and the result is full. *)
Theorem results_closest l :
  lookup_inv l →
  StronglySorted (key_lt (node_distance (target l))) (results l) ∧
  length (results l) = Nat.min (count (config l)) (size (successful l)) ∧
  (∀ n, n ∈ results l → peer_states l !! lookup_peer_id n = Some Succeeded) ∧
  (∀ p n, successful l !! p = Some n → n ∉ results l →
     length (results l) = count (config l) ∧
     ∀ r, r ∈ results l → key_lt (node_distance (target l)) r n).
Proof.
  intros Hl. unfold results. set (d := node_distance (target l)).
  set (ns := (map_to_list (successful l)).*2).
  pose proof (sort_strict d ns (successful_NoDup l Hl)) as Hs.
  assert (length ns = size (successful l)) as Hlen
    by (subst ns; by rewrite length_fmap, length_map_to_list).
  split; [|split; [|split]].
  - rewrite <- (take_drop (count (config l)) (sort_by_key _ _)) in Hs.
    by apply StronglySorted_app_1_l in Hs.
  - by rewrite length_take, sort_length, Hlen.
  - intros n Hn. eapply elem_of_sublist in Hn; [|apply sublist_take].
    rewrite elem_of_sort in Hn. apply elem_of_successful in Hn as [p Hp].
    by apply (inv_succ l Hl) in Hp as [-> ?].
  - intros p n Hp Hni. assert (n ∈ sort_by_key d ns) as Hin.
    { apply elem_of_sort, elem_of_successful. eauto. }
    rewrite <- (take_drop (count (config l)) (sort_by_key d ns)) in Hs, Hin.
    apply elem_of_app in Hin as [|Hin]; [done|]. split.
    + rewrite length_take. apply list_elem_of_lookup in Hin as [i Hi].
      apply lookup_lt_Some in Hi. rewrite length_drop in Hi. lia.
    + intros r Hr. by eapply StronglySorted_app_1_elem_of.
Qed.

(** the iteration order of the result hash map is irrelevant: sorting any
    enumeration of it gives the same [results]. *)
Theorem results_hash_order_irrelevant l order :
  lookup_inv l → order ≡ₚ map_to_list (successful l) →
  take (count (config l)) (sort_by_key (node_distance (target l)) order.*2) = results l.
Proof.
  intros Hl Hp. unfold results. f_equal. symmetry. apply sort_unique.
  - by apply successful_NoDup.
  - by rewrite Hp.
Qed.

(** [take_next_candidate] hands out the closest peer that was never
    contacted, and removes only it and already contacted entries from the
    queue. *)
Theorem take_next_is_closest l l' n :
  lookup_inv l → take_next_candidate l = (Ok (Some n), l') →
  peer_states l !! lookup_peer_id n = None ∧
  (∃ k, (k, n) ∈ candidates l) ∧
  (∀ k m, (k, m) ∈ candidates l → peer_states l !! lookup_peer_id m = None →
     (k, m) ∈ candidates l' ∨ lookup_peer_id m = lookup_peer_id n) ∧
  (∀ k m, (k, m) ∈ candidates l' → key_lt (node_distance (target l)) n m) ∧
  round_queries l < alpha (config l).
Proof.
  intros Hl. unfold take_next_candidate. destruct (negb _); [done|].
  destruct (Nat.leb_spec (alpha (config l)) (round_queries l)); [done|].
  pose proof (discard_inv l Hl) as Hd.
  assert (∀ kv, kv ∈ candidates (discard_contacted_candidates l) ↔
                is_contactable l kv.1.2 = true ∧ kv ∈ candidates l) as Helem.
  { intros kv. apply (elem_of_bt_retain (λ k, is_contactable l k.2)). }
  destruct (candidates (discard_contacted_candidates l)) as [|[k n'] c] eqn:Ec; [done|].
  simpl. intros [= -> <-]. simpl.
  destruct (proj1 (Helem (k, n)) ltac:(left)) as [Hc Hin].
  pose proof (inv_keys l Hl _ _ Hin) as Hk. apply is_contactable_true in Hc.
  rewrite Hk in Hc. simpl in Hc. split; [done|]. split; [eauto|]. split; [|split; [|done]].
  - intros k' m Hm Hcm. pose proof (inv_keys l Hl _ _ Hm) as Hk'.
    assert ((k', m) ∈ (k, n) :: c) as [[= -> ->]|]%elem_of_cons; [|by right|by left].
    apply Helem. split; [|done]. subst k'. by apply is_contactable_true.
  - intros k' m Hm. pose proof (inv_sorted _ Hd) as Hs. rewrite Ec in Hs.
    apply bt_wf_cons in Hs as [Hs _]. rewrite Forall_forall in Hs.
    specialize (Hs _ Hm). simpl in Hs. unfold key_lt. rewrite <- Hk.
    destruct (proj1 (Helem (k', m)) ltac:(by right)) as [_ Hm'].
    by rewrite <- (inv_keys l Hl _ _ Hm').
Qed.

(** A full or exhausted result list with no closer candidate in the queue. *)
Definition converged l : Prop :=
  (length (results l) = count (config l) ∨ candidates l = []) ∧
  ∀ k m r, (k, m) ∈ candidates l → r ∈ results l →
    tle (xor_distance (lookup_peer_id r) (target l)) (xor_distance (lookup_peer_id m) (target l)).

Lemma last_of_results l w r :
  lookup_inv l → last (result_peer_ids l) = Some w → r ∈ results l →
  tle (xor_distance (lookup_peer_id r) (target l)) (xor_distance w (target l)).
Proof.
  intros Hl. unfold result_peer_ids. rewrite fmap_last.
  destruct (last (results l)) as [n|] eqn:El; [|done]. intros [= <-] Hr.
  pose proof (proj1 (results_closest l Hl)) as Hs.
  apply last_Some in El as [rs Ers]. rewrite Ers in *.
  apply elem_of_app in Hr as [Hr|Hr]; [|by apply list_elem_of_singleton in Hr as ->].
  eapply StronglySorted_app_1_elem_of in Hs; [|done|by apply list_elem_of_singleton].
  apply pair_tlt_iff in Hs as [Hs|[Hs _]]; simpl in Hs; [by apply tlt_tle|by rewrite Hs].
Qed.

Lemma no_promising_candidate l :
  lookup_inv l → has_promising_candidate l = false →
  ¬ (length (results l) < count (config l) ∧ candidates l ≠ []) → converged l.
Proof.
  intros Hl Hp Hfull. assert (length (results l) ≤ count (config l)) as Hle.
  { unfold results. rewrite length_take. lia. }
  split.
  { destruct (candidates l) eqn:E; [by right|left].
    destruct (decide (length (results l) < count (config l))); [|lia].
    by destruct Hfull. }
  intros k m r Hm Hr. unfold has_promising_candidate in Hp.
  destruct (last (result_peer_ids l)) as [w|] eqn:Ew.
  2: { apply last_None in Ew. unfold result_peer_ids in Ew. apply fmap_nil_inv in Ew.
       rewrite Ew in Hr. by apply elem_of_nil in Hr. }
  etrans; [by eapply last_of_results|].
  pose proof (inv_keys l Hl _ _ Hm) as Hk. pose proof (inv_sorted l Hl) as Hs.
  destruct (candidates l) as [|[k0 n0] c] eqn:Ec; [by apply elem_of_nil in Hm|].
  simpl in Hp. apply ltb_false in Hp. etrans; [exact Hp|].
  apply bt_wf_cons in Hs as [Hs _]. rewrite Forall_forall in Hs.
  apply elem_of_cons in Hm as [[= -> ->]|Hm]; [by rewrite Hk|].
  specialize (Hs _ Hm). simpl in Hs. rewrite Hk in Hs.
  apply pair_tlt_iff in Hs as [Hs|[Hs _]]; simpl in Hs; [by apply tlt_tle|by rewrite Hs].
Qed.

(** when a round ends as [Converged], the closest-result set did not
    change in the round, it is full or nothing is queued, and no queued
    candidate is closer to the target than any returned result. *)
Theorem converged_is_final l l' :
  lookup_inv l → complete_round l = (Ok (Finished Converged), l') →
  result_peer_ids l = previous_top_k l ∧ converged l ∧ results l' = results l ∧
  termination l' = Some Converged.
Proof.
  intros Hl. unfold complete_round. destruct (negb (round_active l)) eqn:Ha; [done|].
  case_bool_decide as Hfl; [|done]. simpl negb. cbv iota zeta beta.
  set (l1 := set_round (iterations l) false (round_queries l) l).
  assert (result_peer_ids l1 = result_peer_ids l ∧ results l1 = results l ∧
          has_promising_candidate l1 = has_promising_candidate l) as (-> & Hr1 & ->) by done.
  assert (∀ l2 (r : result LookupProgress LookupError * IterativeLookup N),
    r = (if Nat.leb (max_iterations (config l2)) (iterations l2)
         then let '(p, l4) := finish IterationLimit l2 in (Ok p, l4)
         else let l4 := discard_contacted_candidates l2 in
              match candidates l4 with
              | [] => let '(p, l5) := finish Exhausted l4 in (Ok p, l5)
              | _ :: _ => (Ok Continue, l4)
              end) → r ≠ (Ok (Finished Converged), l')) as Hrest.
  { intros l2 r ->. destruct (Nat.leb _ _); simpl; [congruence|].
    destruct (bt_retain _ _); simpl; congruence. }
  case_decide as Heq.
  2: { intros E. by destruct (Hrest (set_top_k (result_peer_ids l) l1) _ eq_refl). }
  destruct (_ && _) eqn:Eb; [done|].
  destruct (has_promising_candidate l) eqn:Ep; simpl.
  { intros E. by destruct (Hrest (set_top_k (result_peer_ids l) l1) _ eq_refl). }
  intros [= <-]. split; [done|]. split; [|done].
  apply no_promising_candidate; [done..|]. intros [Hlt Hne].
  apply andb_false_iff in Eb as [Eb|Eb].
  - apply Nat.ltb_ge in Eb. unfold result_peer_ids in Eb. rewrite length_fmap in Eb.
    simpl in Eb. lia.
  - rewrite bool_decide_eq_false_2 in Eb; done.
Qed.

(** A lookup contacts every peer at most once, has at most [alpha]
    queries in flight and issues at most [alpha * max_iterations] queries
    in its whole life. *)
Theorem query_bounds t c l :
  reachable t c l →
  NoDup (query_order l) ∧ size (in_flight l) ≤ alpha (config l) ∧
  length (query_order l) ≤ alpha (config l) * max_iterations (config l).
Proof.
  intros Hl%reachable_inv. split; [apply Hl|].
  pose proof (inv_queries l Hl). split; [lia|].
  pose proof (inv_total l Hl). pose proof (inv_iter l Hl).
  destruct (round_active l); nia.
Qed.

(** a final peer state is never lost: no operation turns an answered,
    failed or unresponsive peer back into an uncontacted or waiting one, and
    only a known result overrides a failure. *)
Theorem final_states_are_stable l l' p s :
  lookup_inv l → lookup_step l l' → peer_states l !! p = Some s → s ≠ Waiting →
  peer_states l' !! p = Some s ∨ (∃ node, lookup_peer_id node = p ∧
    l' = add_known_result node l ∧ peer_states l' !! p = Some Succeeded).
Proof.
  intros Hl Hstep Hp Hs.
  assert (∀ q l1 r, take_waiting q l = (r, l1) → peer_states l1 = peer_states l ∧
            (is_ok r = true → q ≠ p)) as Htw.
  { intros q l1 r. destruct (take_waiting_cases q l) as [(n & -> & Hw & _)| ->];
      intros [= <- <-]; simpl; [|done]. split; [done|]. congruence. }
  destruct Hstep.
  - simpl. rewrite lookup_insert. case_decide as E; [|by left].
    right. exists node. subst p. by split_and!.
  - left. unfold add_candidate. destruct (negb _); [done|].
    destruct (bt_lookup _ _); [done|]. destruct (Nat.leb _ _); [|done].
    destruct (bt_last_key _); [|done]. by destruct (leb _ _).
  - left. unfold begin_round. destruct (round_active l); [done|].
    destruct (termination l); [done|]. destruct (Nat.leb _ _); [done|].
    by destruct (candidates _).
  - left. unfold take_next_candidate. destruct (negb _); [done|].
    destruct (Nat.leb _ _); [done|]. by destruct (bt_pop_first _).
  - left. unfold mark_waiting. destruct (negb _); [done|]. destruct (Nat.leb _ _); [done|].
    destruct (is_contactable l _) eqn:E; [|done]. simpl.
    apply is_contactable_true in E. rewrite lookup_insert_ne; [done|congruence].
  - left. unfold record_success. destruct (take_waiting p0 l) as [[n|] l1] eqn:E;
      apply Htw in E as [E Hne]; simpl; rewrite E; [|done].
    rewrite lookup_insert_ne; [done|]. by apply Hne.
  - left. unfold record_failure. destruct (take_waiting p0 l) as [[n|] l1] eqn:E;
      apply Htw in E as [E Hne]; simpl; rewrite E; [|done].
    rewrite lookup_insert_ne; [done|]. by apply Hne.
  - left. unfold record_unresponsive. destruct (take_waiting p0 l) as [[n|] l1] eqn:E;
      apply Htw in E as [E Hne]; simpl; rewrite E; [|done].
    rewrite lookup_insert_ne; [done|]. by apply Hne.
  - left. unfold complete_round. destruct (negb _); [done|]. destruct (negb _); [done|].
    cbv zeta. destruct (decide _); [destruct (_ && _); [done|destruct (negb _); [done|]]|];
      (destruct (Nat.leb _ _); [done|]; by destruct (candidates _)).
  - left. simpl. rewrite lookup_union, lookup_fmap.
    destruct (in_flight l !! p) eqn:E; [|simpl; by rewrite Hp].
    assert (peer_states l !! p = Some Waiting) by (apply (inv_waiting l Hl); eauto).
    congruence.
Qed.
End behaviour.
