(* ===== verification/LookupRun.v ===== *)
(** * Driving a lookup through a transport adapter

    [run_iterative_lookup] and [run_lookup_rounds] of [src/dht_lookup.rs].
    The adapter (the trait [LookupQuery]) is a record of state-passing
    functions over an arbitrary adapter state.  The overall deadline is a
    budget of adapter awaits: when it is used up, the pending await is the one
    the deadline interrupts and the walk is dropped there; no budget means the
    deadline never fires.  Quantifying over the budget therefore covers
    every point at which [select] may drop the walk. *)

From stdpp Require Import prelude sorting gmap strings.
From S2P Require Import Prelude Keys BTree Lookup.
Import Lookup.

Module LookupRun.

Inductive LookupQueryOutcome (N : Type) :=
  | OSucceeded (responder : LookupKey) (candidates : list N)
  | OFailed (responder : LookupKey)
  | OUnresponsive (responder : LookupKey).
Global Arguments OSucceeded {N}.
Global Arguments OFailed {N}.
Global Arguments OUnresponsive {N}.

Definition responder {N} (o : LookupQueryOutcome N) : LookupKey :=
  match o with OSucceeded r _ | OFailed r | OUnresponsive r => r end.

(** The trait [LookupQuery<N>] with adapter state [Q] and error [E]. *)
Record LookupQuery (N E Q : Type) := {
  is_candidate_eligible : N → Q → Q * result bool E;
  query_batch : LookupKey → nat → nat → list N → Q → Q * result (list (LookupQueryOutcome N)) E;
  candidate_evicted : LookupKey → Q → Q * result unit E;
}.
Global Arguments is_candidate_eligible {N E Q}.
Global Arguments query_batch {N E Q}.
Global Arguments candidate_evicted {N E Q}.

Inductive LookupRunError (E : Type) :=
  | RunLookup (e : LookupError)
  | RunQuery (e : E)
  | RunTimedOut
  | UnexpectedResponder (peer : LookupKey).
Global Arguments RunLookup {E}.
Global Arguments RunQuery {E}.
Global Arguments RunTimedOut {E}.
Global Arguments UnexpectedResponder {E}.

Section run.
Context {N E Q : Type} `{LookupNode N} (query : LookupQuery N E Q).

(** State of the walk: the lookup, the adapter and the awaits left before
    the deadline. *)
Record St := mk_st { wl : IterativeLookup N; wq : Q; wb : option nat }.

(** Outcomes of (a part of) the walk: a value, an early error return, the
    deadline firing at an await, or exhaustion of the recursion fuel (shown
    unreachable below). *)
Inductive outcome (A : Type) :=
  | Done (a : A) (st : St)
  | Fail (e : LookupRunError E) (l : IterativeLookup N)
  | Cancelled (l : IterativeLookup N)
  | OutOfFuel.
#[global] Arguments Done {A}.
#[global] Arguments Fail {A}.
#[global] Arguments Cancelled {A}.
#[global] Arguments OutOfFuel {A}.

Definition Walk (A : Type) : Type := St → outcome A.

Definition ret {A} (a : A) : Walk A := λ st, Done a st.
Definition bind {A B} (m : Walk A) (k : A → Walk B) : Walk B := λ st,
  match m st with
  | Done a st' => k a st'
  | Fail e l => Fail e l
  | Cancelled l => Cancelled l
  | OutOfFuel => OutOfFuel
  end.
Definition fail {A} (e : LookupRunError E) : Walk A := λ st, Fail e (wl st).

(** A call of a lookup method followed by [?]. *)
Definition lift {A} (f : IterativeLookup N → result A LookupError * IterativeLookup N) : Walk A :=
  λ st, match f (wl st) with
        | (Ok a, l) => Done a (mk_st l (wq st) (wb st))
        | (Err e, l) => Fail (RunLookup e) l
        end.

(** An adapter await followed by [.map_err(LookupRunError::Query)?]. *)
Definition await {A} (f : Q → Q * result A E) : Walk A := λ st,
  match wb st with
  | Some 0 => Cancelled (wl st)
  | b =>
      match f (wq st) with
      | (q, Ok a) => Done a (mk_st (wl st) q (pred <$> b))
      | (_, Err e) => Fail (RunQuery e) (wl st)
      end
  end.

Notation "'let*' x := m 'in' k" := (bind m (λ x, k))
  (at level 10, x name, m at level 100, k at level 200).
Notation "'do*' m 'in' k" := (bind m (λ _, k))
  (at level 10, m at level 100, k at level 200).

(** The [while let Some(candidate) = lookup.take_next_candidate()?] loop. *)
Fixpoint collect_batch (fuel : nat) (batch : list N) : Walk (list N) :=
  match fuel with
  | 0 => λ _, OutOfFuel
  | S fuel' =>
      let* c := lift take_next_candidate in
      match c with
      | None => ret batch
      | Some candidate =>
          let* ok := await (is_candidate_eligible query candidate) in
          if ok : bool then
            do* lift (mark_waiting candidate) in collect_batch fuel' (batch ++ [candidate])
          else collect_batch fuel' batch
      end
  end.

(** Admission of the candidates of one successful response. *)
Fixpoint admit_candidates (cs : list N) : Walk unit :=
  match cs with
  | [] => ret tt
  | candidate :: cs' =>
      let* ok := await (is_candidate_eligible query candidate) in
      if negb ok then admit_candidates cs'
      else
        let* ins := (λ st, let '(i, l) := add_candidate candidate (wl st) in
                           Done i (mk_st l (wq st) (wb st))) in
        match ins with
        | Inserted (Some evicted) =>
            do* await (candidate_evicted query evicted) in admit_candidates cs'
        | _ => admit_candidates cs'
        end
  end.

(** The [for outcome in outcomes] loop; returns the peers still awaited. *)
Fixpoint process_outcomes (outs : list (LookupQueryOutcome N)) (awaiting : gset LookupKey)
    : Walk (gset LookupKey) :=
  match outs with
  | [] => ret awaiting
  | o :: outs' =>
      let r := responder o in
      if decide (r ∈ awaiting) then
        let awaiting' := awaiting ∖ {[r]} in
        do* match o with
            | OSucceeded r cs => do* lift (record_success r) in admit_candidates cs
            | OFailed r => lift (record_failure r)
            | OUnresponsive r => lift (record_unresponsive r)
            end in
        process_outcomes outs' awaiting'
      else fail (UnexpectedResponder r)
  end.

Fixpoint mark_unresponsive (peers : list LookupKey) : Walk unit :=
  match peers with
  | [] => ret tt
  | p :: ps => do* lift (record_unresponsive p) in mark_unresponsive ps
  end.

Fixpoint run_lookup_rounds (fuel : nat) : Walk LookupTermination :=
  match fuel with
  | 0 => λ _, OutOfFuel
  | S fuel' =>
      let* p := lift begin_round in
      match p with
      | Finished reason => ret reason
      | Continue =>
          let* batch := (λ st, collect_batch (S (length (candidates (wl st)))) [] st) in
          match batch with
          | [] =>
              let* p' := lift complete_round in
              match p' with
              | Continue => run_lookup_rounds fuel'
              | Finished reason => ret reason
              end
          | _ :: _ =>
              let awaiting : gset LookupKey := list_to_set (lookup_peer_id <$> batch) in
              let* outs := (λ st, await (query_batch query (target (wl st)) (count (config (wl st)))
                                           (iterations (wl st)) batch) st) in
              let* left := process_outcomes outs awaiting in
              do* mark_unresponsive (elements left) in
              let* p' := lift complete_round in
              match p' with
              | Continue => run_lookup_rounds fuel'
              | Finished reason => ret reason
              end
          end
      end
  end.

(** One round per fuel unit: [max_iterations] rounds and the final
    [begin_round] that reports the limit. *)
Definition round_fuel (l : IterativeLookup N) : nat := S (max_iterations (config l)).

Definition run_iterative_lookup (l : IterativeLookup N) (q : Q) (deadline : option nat)
    : option (result LookupTermination (LookupRunError E) * IterativeLookup N) :=
  if decide (termination l = Some TimedOut) then Some (Err RunTimedOut, l)
  else
    match run_lookup_rounds (round_fuel l) (mk_st l q deadline) with
    | Done reason st => Some (Ok reason, wl st)
    | Fail e l' => Some (Err e, l')
    | Cancelled l' => Some (Err RunTimedOut, expire l')
    | OutOfFuel => None
    end.
End run.
End LookupRun.

Import LookupRun.

(** ** Reasoning about the walk

    [walk_post l0 o Q]: the outcome [o] of a walk started with lookup [l0] has
    reached a state through public operations of the state machine, did not
    run out of fuel, did not fail with a state-machine error, and satisfies
    [Q] when it completed. *)
Section walk.
Context {N E Q : Type} `{LookupNode N} (query : LookupQuery N E Q).
Implicit Types (l : IterativeLookup N) (st : St (N := N) (Q := Q)).

(** The operations of a walk: those of the state machine, less the seeding of
    known results. *)
Inductive walk_step : IterativeLookup N → IterativeLookup N → Prop :=
  | walk_candidate node l : walk_step l (add_candidate node l).2
  | walk_begin l : walk_step l (begin_round l).2
  | walk_take l : walk_step l (take_next_candidate l).2
  | walk_mark node l : walk_step l (mark_waiting node l).2
  | walk_success p l : walk_step l (record_success p l).2
  | walk_failure p l : walk_step l (record_failure p l).2
  | walk_unresponsive p l : walk_step l (record_unresponsive p l).2
  | walk_complete l : walk_step l (complete_round l).2
  | walk_expire l : walk_step l (expire l).

Lemma walk_lookup_step l l' : walk_step l l' → lookup_step l l'.
Proof. destruct 1; constructor. Qed.

Definition walk_post {A} l0 (o : outcome (N := N) (E := E) (Q := Q) A)
    (P : A → IterativeLookup N → Prop) : Prop :=
  match o with
  | Done a st => rtc walk_step l0 (wl st) ∧ P a (wl st)
  | Fail e l => rtc walk_step l0 l ∧
                match e with RunQuery _ | UnexpectedResponder _ => True | _ => False end
  | Cancelled l => rtc walk_step l0 l
  | OutOfFuel => False
  end.

(** What a round leaves alone. *)
Definition frame l l' : Prop :=
  config l' = config l ∧ target l' = target l ∧ iterations l' = iterations l ∧
  round_active l' = round_active l.

#[local] Instance frame_refl : Reflexive frame.
Proof. by intros l. Qed.
#[local] Instance frame_trans : Transitive frame.
Proof. intros l1 l2 l3 (?&?&?&?) (?&?&?&?). unfold frame. by split_and!; etrans. Qed.

Lemma bind_post {A B} (m : Walk (E := E) A) (k : A → Walk B) st P1 P2 :
  walk_post (wl st) (m st) P1 →
  (∀ a st', rtc walk_step (wl st) (wl st') → P1 a (wl st') →
            walk_post (wl st') (k a st') P2) →
  walk_post (wl st) (bind m k st) P2.
Proof.
  unfold bind. intros Hm Hk. destruct (m st) as [a st'|e l|l|]; simpl in *; try done.
  destruct Hm as [Hs HP]. specialize (Hk a st' Hs HP).
  destruct (k a st'); simpl in *; [destruct Hk; split; [by etrans|done]..|by etrans|done].
Qed.

Lemma lift_post {A} (f : IterativeLookup N → result A LookupError * IterativeLookup N)
    st a l' P :
  f (wl st) = (Ok a, l') → walk_step (wl st) l' → P a l' →
  walk_post (wl st) (lift (E := E) f st) P.
Proof. intros Hf Hs HP. unfold lift. rewrite Hf. simpl. split; [by apply rtc_once|done]. Qed.

Lemma await_post {A} (f : Q → Q * result A E) st P :
  (∀ a, P a (wl st)) → walk_post (wl st) (await f st) P.
Proof.
  intros HP. unfold await. destruct (wb st) as [[|b]|]; simpl; [done|..];
    destruct (f (wq st)) as [q [a|e]]; simpl; by split.
Qed.

Lemma ret_post {A} (a : A) st P : P a (wl st) → walk_post (wl st) (ret (E := E) a st) P.
Proof. done. Qed.

Lemma step_via {A} l l' (r : A) x : x = (r, l') → walk_step l x.2 → walk_step l l'.
Proof. by intros ->. Qed.

(** *** The lookup methods on the driver's path *)

Lemma begin_round_ok l :
  lookup_inv l → round_active l = false →
  ∃ p l', begin_round l = (Ok p, l') ∧ config l' = config l ∧ in_flight l' = ∅ ∧
    match p with
    | Continue => round_active l' = true ∧ iterations l' = S (iterations l) ∧
                  iterations l < max_iterations (config l)
    | Finished r => termination l' = Some r
    end.
Proof.
  intros Hl Ha. pose proof (inv_idle l Hl Ha) as Hf. unfold begin_round. rewrite Ha.
  destruct (termination l) as [r|] eqn:Et; [by eexists _, _|].
  destruct (Nat.leb_spec (max_iterations (config l)) (iterations l)); [by eexists _, _|].
  destruct (candidates (discard_contacted_candidates l)); by eexists _, _.
Qed.

Lemma complete_round_ok l :
  round_active l = true → in_flight l = ∅ →
  ∃ p l', complete_round l = (Ok p, l') ∧ config l' = config l ∧
    iterations l' = iterations l ∧ in_flight l' = ∅ ∧ round_active l' = false ∧
    match p with Continue => True | Finished r => termination l' = Some r end.
Proof.
  intros Ha Hf. unfold complete_round. rewrite Ha. simpl negb. cbv iota.
  rewrite bool_decide_eq_true_2 by done. simpl negb. cbv iota zeta beta.
  destruct (decide _).
  - destruct (_ && _); [by eexists _, _|]. destruct (negb _); [by eexists _, _|].
    destruct (Nat.leb _ _); [by eexists _, _|]. destruct (candidates _); by eexists _, _.
  - destruct (Nat.leb _ _); [by eexists _, _|]. destruct (candidates _); by eexists _, _.
Qed.

Lemma take_next_ok l :
  lookup_inv l → round_active l = true →
  ∃ c l', take_next_candidate l = (Ok c, l') ∧ frame l l' ∧
    in_flight l' = in_flight l ∧ peer_states l' = peer_states l ∧
    round_queries l' = round_queries l ∧
    match c with
    | None => True
    | Some n => length (candidates l') < length (candidates l) ∧
                round_queries l < alpha (config l) ∧
                peer_states l !! lookup_peer_id n = None
    end.
Proof.
  intros Hl Ha. destruct (take_next_candidate l) as [r l'] eqn:Etk. pose proof Etk as Etk'.
  unfold take_next_candidate in Etk. rewrite Ha in Etk. simpl in Etk.
  destruct (Nat.leb_spec (alpha (config l)) (round_queries l)).
  { injection Etk as <- <-. by eexists _, _. }
  pose proof (bt_retain_sublist (λ k, is_contactable l k.2) (candidates l)) as Hsub.
  apply sublist_length in Hsub.
  destruct (bt_retain _ _) as [|[k n] c] eqn:Ec; injection Etk as <- <-;
    [by eexists _, _|].
  eexists _, _. split; [done|]. simpl in *. split_and!; try done.
  apply (take_next_is_closest l _ n Hl) in Etk' as (Hn & _). done.
Qed.

Lemma mark_waiting_ok l node :
  round_active l = true → round_queries l < alpha (config l) →
  peer_states l !! lookup_peer_id node = None →
  ∃ l', mark_waiting node l = (Ok tt, l') ∧ frame l l' ∧
    candidates l' = candidates l ∧
    dom (in_flight l') = dom (in_flight l) ∪ {[lookup_peer_id node]}.
Proof.
  intros Ha Hq Hp. unfold mark_waiting. rewrite Ha. simpl.
  destruct (Nat.leb_spec (alpha (config l)) (round_queries l)); [lia|].
  assert (is_contactable l (lookup_peer_id node) = true) as -> by
    (by apply is_contactable_true).
  eexists. split_and!; try done. simpl. rewrite dom_insert_L. set_solver.
Qed.

Lemma take_waiting_ok l p :
  lookup_inv l → p ∈ dom (in_flight l) →
  ∃ n, take_waiting p l = (Ok n, set_peers (peer_states l) (query_order l)
         (delete p (in_flight l)) (successful l) l).
Proof.
  intros Hl [n Hn]%elem_of_dom. unfold take_waiting.
  rewrite decide_True by (apply (inv_waiting l Hl); eauto). rewrite Hn. eauto.
Qed.

Lemma record_ok l p
    (f : LookupKey → IterativeLookup N → result unit LookupError * IterativeLookup N) :
  f = record_success ∨ f = record_failure ∨ f = record_unresponsive →
  lookup_inv l → p ∈ dom (in_flight l) →
  ∃ l', f p l = (Ok tt, l') ∧ frame l l' ∧ walk_step l l' ∧
    dom (in_flight l') = dom (in_flight l) ∖ {[p]}.
Proof.
  intros Hf Hl Hp. destruct (take_waiting_ok l p Hl Hp) as [n Htw].
  assert (∃ l', f p l = (Ok tt, l') ∧ frame l l' ∧
    dom (in_flight l') = dom (in_flight l) ∖ {[p]}) as (l' & E1 & Hfr & Hd).
  { destruct Hf as [->|[->| ->]];
      unfold record_success, record_failure, record_unresponsive; rewrite Htw;
      (eexists; split_and!; [done..|]); simpl; by rewrite dom_delete_L. }
  exists l'. split_and!; [done..| |done].
  destruct Hf as [->|[->| ->]]; (eapply step_via; [exact E1|constructor]).
Qed.

Lemma steps_inv l l' : rtc walk_step l l' → lookup_inv l → lookup_inv l'.
Proof. induction 1; eauto using step_inv, walk_lookup_step. Qed.

(** *** The loops *)

Definition ids (batch : list N) : gset LookupKey := list_to_set (lookup_peer_id <$> batch).

Lemma collect_batch_post fuel batch st :
  lookup_inv (wl st) → round_active (wl st) = true →
  length (candidates (wl st)) < fuel → dom (in_flight (wl st)) = ids batch → NoDup (lookup_peer_id <$> batch) →
  walk_post (wl st) (collect_batch query fuel batch st)
    (λ b l', frame (wl st) l' ∧ dom (in_flight l') = ids b ∧ NoDup (lookup_peer_id <$> b)).
Proof.
  revert batch st. induction fuel as [|fuel IH]; [intros; lia|].
  intros batch st Hl Ha Hfuel Hd Hnd. simpl.
  destruct (take_next_ok (wl st) Hl Ha) as (c & l1 & Etk & Hfr & Hfl & Hps & Hrq & Hc).
  eapply bind_post with (P1 := λ c' l', c' = c ∧ l' = l1).
  { eapply lift_post; [done| |done]. eapply step_via; [exact Etk|constructor]. }
  intros c' st1 Hs1 [-> Hst1]. destruct c as [n|].
  2: { apply ret_post. rewrite Hst1, Hfl. done. }
  destruct Hc as (Hlen & Hq & Hn).
  eapply bind_post with (P1 := λ _ l', l' = l1); [by apply await_post|].
  intros ok st2 Hs2 Hst2.
  assert (lookup_inv l1) as Hl1 by (rewrite <- Hst1; by eapply steps_inv).
  assert (round_active l1 = true) as Ha1 by (destruct Hfr as (_ & _ & _ & ->); done).
  destruct ok.
  - destruct (mark_waiting_ok l1 n) as (l2 & Em & Hfr2 & Hc2 & Hd2); [done| |by rewrite Hps|].
    { destruct Hfr as (-> & _). lia. }
    eapply bind_post with (P1 := λ _ l', l' = l2).
    { eapply lift_post; [by rewrite Hst2| |done]. rewrite Hst2.
      eapply step_via; [exact Em|constructor]. }
    intros _ st3 Hs3 Hst3. destruct Hfr2 as (Hcf & Htg & Hit & Hac).
    assert (walk_post (wl st3) (collect_batch query fuel (batch ++ [n]) st3)
      (λ b l', frame (wl st3) l' ∧ dom (in_flight l') = ids b ∧ NoDup (lookup_peer_id <$> b))) as Hrec.
    { apply IH; try rewrite Hst3.
      - rewrite <- Hst3. eapply steps_inv; [done|]. rewrite Hst2. done.
      - congruence.
      - rewrite Hc2. lia.
      - rewrite Hd2, Hfl, Hd. unfold ids. rewrite fmap_app, list_to_set_app_L. simpl.
        set_solver.
      - rewrite fmap_app. apply NoDup_app. split_and!; [done| |by apply NoDup_singleton].
        intros p Hp ->%list_elem_of_singleton.
        assert (Hin : lookup_peer_id n ∈ dom (in_flight l1)) by (rewrite Hfl, Hd; by apply elem_of_list_to_set).
        apply elem_of_dom, (inv_waiting l1 Hl1) in Hin. congruence. }
    destruct (collect_batch _ _ _ _); simpl in *; try done.
    destruct Hrec as [? [Hfr3 ?]]. split; [done|]. split; [|done].
    etrans; [exact Hfr|]. rewrite Hst3 in Hfr3. etrans; [|exact Hfr3]. by split_and!.
  - assert (walk_post (wl st2) (collect_batch query fuel batch st2)
      (λ b l', frame (wl st2) l' ∧ dom (in_flight l') = ids b ∧ NoDup (lookup_peer_id <$> b))) as Hrec.
    { apply IH; try rewrite Hst2; [done..|lia| |done]. by rewrite Hfl. }
    destruct (collect_batch _ _ _ _); simpl in *; try done.
    destruct Hrec as [? [Hfr3 ?]]. split; [done|]. split; [|done].
    rewrite Hst2 in Hfr3. by etrans.
Qed.

Lemma add_candidate_frame node l :
  frame l (add_candidate node l).2 ∧ in_flight (add_candidate node l).2 = in_flight l.
Proof.
  unfold add_candidate. destruct (negb _); [done|]. destruct (bt_lookup _ _); [done|].
  destruct (Nat.leb _ _); [|done]. destruct (bt_last_key _); [|done]. by destruct (leb _ _).
Qed.

Lemma admit_candidates_post cs st :
  walk_post (wl st) (admit_candidates query cs st)
    (λ _ l', frame (wl st) l' ∧ in_flight l' = in_flight (wl st)).
Proof.
  revert st. induction cs as [|c cs IH]; intros st; simpl; [done|].
  eapply bind_post with (P1 := λ _ l', l' = wl st); [by apply await_post|].
  intros ok st1 _ Hst1. destruct ok; simpl; [|rewrite <- Hst1; apply IH].
  eapply bind_post with
    (P1 := λ _ l', frame (wl st1) l' ∧ in_flight l' = in_flight (wl st1)).
  { pose proof (add_candidate_frame c (wl st1)) as [Hfr Hfl].
    pose proof (walk_candidate c (wl st1)) as Hstep.
    destruct (add_candidate c (wl st1)) as [i l']. simpl in *.
    split; [by apply rtc_once|done]. }
  intros ins st2 _ [Hfr2 Hfl2]. rewrite Hst1 in Hfr2, Hfl2.
  assert (∀ st', wl st' = wl st2 → walk_post (wl st') (admit_candidates query cs st')
    (λ _ l', frame (wl st) l' ∧ in_flight l' = in_flight (wl st))) as Hrec.
  { intros st' Hst'. specialize (IH st').
    destruct (admit_candidates _ _ _); simpl in *; try done.
    rewrite Hst' in *. destruct IH as [? [Hfr Hfl]]. split_and!; [done|by etrans|congruence]. }
  destruct ins as [[e|]| | |]; try by apply Hrec.
  eapply bind_post with (P1 := λ _ l', l' = wl st2); [by apply await_post|].
  intros _ st3 _ Hst3. by apply Hrec.
Qed.

Lemma process_outcomes_post outs awaiting st :
  lookup_inv (wl st) → dom (in_flight (wl st)) = awaiting →
  walk_post (wl st) (process_outcomes query outs awaiting st)
    (λ left l', frame (wl st) l' ∧ dom (in_flight l') = left).
Proof.
  revert awaiting st. induction outs as [|o outs IH]; intros awaiting st Hl Hd; simpl.
  { by split. }
  destruct (decide _) as [Hin|]; [|simpl; by split].
  eapply bind_post with
    (P1 := λ _ l', frame (wl st) l' ∧ dom (in_flight l') = awaiting ∖ {[responder o]}).
  { assert (∀ f, f = record_success ∨ f = record_failure ∨ f = record_unresponsive →
      walk_post (wl st) (lift (E := E) (f (responder o)) st)
        (λ _ l', frame (wl st) l' ∧ dom (in_flight l') = awaiting ∖ {[responder o]})) as Hrec.
    { intros f Hf. destruct (record_ok (wl st) (responder o) f Hf Hl)
        as (l' & Er & Hfr & Hstep & Hdom); [by rewrite Hd|].
      eapply lift_post; [done..|]. split; [done|]. by rewrite Hdom, Hd. }
    destruct o as [r cs|r|r]; simpl in *; [|by apply (Hrec record_failure); auto|
      by apply (Hrec record_unresponsive); auto].
    eapply bind_post; [apply (Hrec record_success); by left|].
    intros _ st1 _ [Hfr1 Hd1]. pose proof (admit_candidates_post cs st1) as Had.
    destruct (admit_candidates _ _ _); simpl in *; try done.
    destruct Had as [? [Hfr Hfl]]. split_and!; [done|by etrans|by rewrite Hfl]. }
  intros _ st1 Hs1 [Hfr1 Hd1].
  pose proof (IH (awaiting ∖ {[responder o]}) st1 (steps_inv _ _ Hs1 Hl) Hd1) as Hrec.
  destruct (process_outcomes _ _ _ _); simpl in *; try done.
  destruct Hrec as [? [Hfr ?]]. split_and!; [done|by etrans|done].
Qed.

Lemma mark_unresponsive_post peers st :
  lookup_inv (wl st) → NoDup peers → dom (in_flight (wl st)) = list_to_set peers →
  walk_post (wl st) (mark_unresponsive peers st)
    (λ _ l', frame (wl st) l' ∧ in_flight l' = ∅).
Proof.
  revert st. induction peers as [|p peers IH]; intros st Hl Hnd Hd; simpl.
  { split; [done|]. split; [done|]. by apply dom_empty_inv_L. }
  apply NoDup_cons in Hnd as [Hni Hnd].
  destruct (record_ok (wl st) p record_unresponsive) as (l' & Er & Hfr & Hstep & Hdom);
    [auto|done|rewrite Hd; set_solver|].
  eapply bind_post with (P1 := λ _ l1, l1 = l'); [by eapply lift_post|].
  intros _ st1 Hs1 Hst1. assert (walk_post (wl st1) (mark_unresponsive peers st1)
    (λ _ l', frame (wl st1) l' ∧ in_flight l' = ∅)) as Hrec.
  { apply IH; [by eapply steps_inv|done|]. rewrite Hst1, Hdom, Hd. simpl. set_solver. }
  destruct (mark_unresponsive _ _); simpl in *; try done.
  rewrite Hst1 in Hrec. destruct Hrec as [? [Hfr2 ?]]. rewrite Hst1.
  split_and!; [done|by etrans|done].
Qed.

(** Completing the round and going on or returning. *)
Lemma finish_round_post (k : Walk (E := E) LookupTermination) st it :
  round_active (wl st) = true → in_flight (wl st) = ∅ → iterations (wl st) = it →
  lookup_inv (wl st) →
  (∀ st', lookup_inv (wl st') → round_active (wl st') = false →
     config (wl st') = config (wl st) → iterations (wl st') = it →
     walk_post (wl st') (k st')
       (λ r l', termination l' = Some r ∧ in_flight l' = ∅)) →
  walk_post (wl st)
    (bind (lift complete_round)
       (λ p', match p' with Continue => k | Finished reason => ret reason end) st)
    (λ r l', termination l' = Some r ∧ in_flight l' = ∅).
Proof.
  intros Ha Hfl Hit Hl Hk.
  destruct (complete_round_ok (wl st) Ha Hfl) as (p & l' & Ecr & Hcf & Hi & Hf & Hact & Hp).
  eapply bind_post with (P1 := λ p' l1, p' = p ∧ l1 = l').
  { eapply lift_post; [done| |done]. eapply step_via; [exact Ecr|constructor]. }
  intros p' st' Hs [-> Hst']. destruct p as [|r].
  - apply Hk; [by eapply steps_inv|by rewrite Hst'..|]. by rewrite Hst', Hi.
  - apply ret_post. by rewrite Hst'.
Qed.

Lemma run_lookup_rounds_post fuel st :
  lookup_inv (wl st) → round_active (wl st) = false →
  max_iterations (config (wl st)) - iterations (wl st) < fuel →
  walk_post (wl st) (run_lookup_rounds query fuel st)
    (λ r l', termination l' = Some r ∧ in_flight l' = ∅).
Proof.
  revert st. induction fuel as [|fuel IH]; intros st Hl Ha Hfuel; [lia|].
  cbn [run_lookup_rounds].
  destruct (begin_round_ok (wl st) Hl Ha) as (p & l1 & Ebr & Hcf & Hf1 & Hp).
  eapply bind_post with (P1 := λ p' l', p' = p ∧ l' = l1).
  { eapply lift_post; [done| |done]. eapply step_via; [exact Ebr|constructor]. }
  intros p' st1 Hs1 [-> Hst1]. destruct p as [|r]; [|apply ret_post; by rewrite Hst1].
  destruct Hp as (Ha1 & Hit1 & Hlt).
  assert (lookup_inv (wl st1)) as Hl1 by (by eapply steps_inv).
  eapply bind_post.
  { apply (collect_batch_post _ [] st1); [done|by rewrite Hst1|lia| |constructor].
    rewrite Hst1, Hf1. unfold ids. simpl. by rewrite dom_empty_L. }
  intros batch st2 Hs2 ((Hcf2 & _ & Hit2 & Ha2) & Hd2 & _).
  rewrite Hst1 in Hcf2, Hit2, Ha2.
  assert (lookup_inv (wl st2)) as Hl2 by (by eapply steps_inv).
  assert (∀ st', lookup_inv (wl st') → round_active (wl st') = false →
    config (wl st') = config l1 → iterations (wl st') = S (iterations (wl st)) →
    walk_post (wl st') (run_lookup_rounds query fuel st')
      (λ r l', termination l' = Some r ∧ in_flight l' = ∅)) as Hnext.
  { intros st' Hl' Ha' Hcf' Hit'. apply IH; [done..|]. rewrite Hcf', Hcf, Hit'. lia. }
  destruct batch as [|b batch].
  { apply (finish_round_post _ st2 (S (iterations (wl st)))); [congruence|..|congruence|done|].
    - apply dom_empty_inv_L. by rewrite Hd2.
    - intros st' ????. apply Hnext; congruence. }
  eapply bind_post with (P1 := λ _ l', l' = wl st2).
  { by apply await_post. }
  intros outs st3 _ Hst3. eapply bind_post.
  { apply process_outcomes_post; [by rewrite Hst3|]. by rewrite Hst3, Hd2. }
  intros left st4 Hs4 [(Hcf4 & _ & Hit4 & Ha4) Hd4]. rewrite Hst3 in *.
  assert (lookup_inv (wl st4)) as Hl4 by (by eapply steps_inv).
  eapply bind_post.
  { apply mark_unresponsive_post; [done|apply NoDup_elements|].
    rewrite Hd4. by rewrite list_to_set_elements_L. }
  intros _ st5 Hs5 [(Hcf5 & _ & Hit5 & Ha5) Hf5].
  apply (finish_round_post _ st5 (S (iterations (wl st)))); [congruence|done|congruence|..].
  - by eapply steps_inv.
  - intros st' ????. apply Hnext; congruence.
Qed.

Lemma run_total l q deadline :
  lookup_inv l → round_active l = false →
  ∃ r l', run_iterative_lookup query l q deadline = Some (r, l') ∧
    rtc walk_step l l' ∧
    (∀ e, r ≠ Err (RunLookup e)) ∧
    (∀ reason, r = Ok reason → termination l' = Some reason ∧ in_flight l' = ∅).
Proof.
  intros Hl Ha. unfold run_iterative_lookup.
  destruct (decide _) as [Ht|Ht].
  { eexists _, _. split; [done|]. by split_and!. }
  pose proof (run_lookup_rounds_post (round_fuel l) (mk_st l q deadline) Hl Ha) as Hpost.
  destruct (run_lookup_rounds _ _ _) as [reason st|e l'|l'|]; simpl in Hpost.
  - destruct Hpost as [? [??]]; [unfold round_fuel; lia|]. eexists _, _. split; [done|].
    split_and!; [done|done|]. intros ? [= <-]. done.
  - destruct Hpost as [? Hne]; [unfold round_fuel; lia|]. eexists _, _. split; [done|].
    split_and!; [done| |done]. intros e' [= ->]. done.
  - eexists _, _. split; [done|]. split_and!; [|done..].
    eapply rtc_r; [apply Hpost; unfold round_fuel; lia|constructor].
  - destruct Hpost. unfold round_fuel. lia.
Qed.

(** C33: driving a lookup with any adapter and any deadline returns: the walk
    never exceeds its iteration bound, never trips a state-machine error,
    and only performs public operations of the state machine; a normal
    return carries the recorded termination reason with nothing in flight. *)
Theorem run_iterative_lookup_terminates l q deadline :
  lookup_inv l → round_active l = false →
  ∃ r l', run_iterative_lookup query l q deadline = Some (r, l') ∧
    rtc walk_step l l' ∧
    (∀ e, r ≠ Err (RunLookup e)) ∧
    (∀ reason, r = Ok reason → termination l' = Some reason ∧ in_flight l' = ∅).
Proof. apply run_total. Qed.

(** A lookup that hits its deadline is left in a clean terminal state: no
    peer is waiting or in flight, the results gathered so far are still
    returned, and running the lookup again reports the timeout without
    touching it. *)
Theorem deadline_leaves_clean_state l q deadline l' :
  lookup_inv l → round_active l = false →
  run_iterative_lookup query l q deadline = Some (Err RunTimedOut, l') →
  termination l' = Some TimedOut ∧ in_flight l' = ∅ ∧
  (∀ p, peer_states l' !! p ≠ Some Waiting) ∧
  (∀ q' d', run_iterative_lookup query l' q' d' = Some (Err RunTimedOut, l')) ∧
  (∃ l1, rtc walk_step l l1 ∧ results l' = results l1).
Proof.
  intros Hl Ha Hrun.
  destruct (run_total l q deadline Hl Ha) as (r & l2 & E2 & Hs & _).
  rewrite Hrun in E2. injection E2 as <- <-.
  assert (lookup_inv l') as Hl' by (by eapply steps_inv).
  assert (termination l' = Some TimedOut ∧ in_flight l' = ∅ ∧
          ∃ l1, rtc walk_step l l1 ∧ results l' = results l1) as (Ht & Hfl & Hres).
  { unfold run_iterative_lookup in Hrun. destruct (decide _) as [Ht|Ht].
    - injection Hrun as <-. split; [done|]. split; [by apply inv_idle|]. by exists l.
    - pose proof (run_lookup_rounds_post (round_fuel l) (mk_st l q deadline) Hl Ha) as Hpost.
      destruct (run_lookup_rounds _ _ _) as [reason st|e l1|l1|]; simpl in *; try done.
      + injection Hrun as -> ->. destruct Hpost as [_ []]. unfold round_fuel. lia.
      + injection Hrun as <-. split_and!; [done..|]. exists l1. split; [|done].
        apply Hpost. unfold round_fuel. lia. }
  split_and!; [done..| | |done].
  - intros p Hw. apply (inv_waiting l' Hl') in Hw. rewrite Hfl, lookup_empty in Hw.
    by destruct Hw.
  - intros q' d'. unfold run_iterative_lookup. by rewrite decide_True.
Qed.
End walk.

(** ** Adapters that answer for what they are asked

    An adapter that never errs, and answers a batch of distinct peers at most
    once for each of them, cannot make the walk fail: it ends, or its deadline
    comes. *)
Section faithful.
Context {N E Q : Type} `{LookupNode N} (query : LookupQuery N E Q).
Implicit Types (l : IterativeLookup N) (st : St (N := N) (Q := Q)).

(** [I] is an invariant of the adapter's state. *)
Record faithful_adapter (I : Q → Prop) : Prop := {
  faithful_eligible node q : I q → ∃ q' b, is_candidate_eligible query node q = (q', Ok b) ∧ I q';
  faithful_evicted p q : I q → ∃ q', candidate_evicted query p q = (q', Ok tt) ∧ I q';
  faithful_batch t c i batch q : I q → NoDup (lookup_peer_id <$> batch) →
    ∃ q' outs, query_batch query t c i batch q = (q', Ok outs) ∧ I q' ∧
      NoDup (responder <$> outs) ∧ ∀ o, o ∈ outs → responder o ∈ lookup_peer_id <$> batch;
}.

Context (I : Q → Prop) (Hq : faithful_adapter I).

(** The outcome is a value, the deadline, or an error of the state machine
    (excluded by [run_total]). *)
Definition clean_post {A} (o : outcome (N := N) (E := E) (Q := Q) A) (P : A → Prop) : Prop :=
  match o with
  | Done a st => P a ∧ I (wq st)
  | Fail e _ => ∃ e', e = RunLookup e'
  | Cancelled _ | OutOfFuel => True
  end.

Lemma clean_bind {A B} (m : Walk (E := E) A) (k : A → Walk B) st P1 P2 :
  clean_post (m st) P1 → (∀ a st', m st = Done a st' → P1 a → I (wq st') → clean_post (k a st') P2) →
  clean_post (bind m k st) P2.
Proof. unfold bind. intros Hm Hk. destruct (m st); simpl in *; [|done..]. by apply Hk; [|apply Hm..]. Qed.

Lemma clean_lift {A} (f : IterativeLookup N → result A LookupError * IterativeLookup N) st :
  I (wq st) → clean_post (lift (E := E) f st) (λ _, True).
Proof. intros Hi. unfold lift. destruct (f (wl st)) as [[a|e] l]; simpl; [done|by eexists]. Qed.

Lemma clean_await {A} (f : Q → Q * result A E) st q a (P : A → Prop) :
  f (wq st) = (q, Ok a) → I q → P a → clean_post (await f st) P.
Proof. intros Hf Hi HP. unfold await. rewrite Hf. by destruct (wb st) as [[|b]|]. Qed.

Lemma clean_eligible node st :
  I (wq st) → clean_post (await (is_candidate_eligible query node) st) (λ _, True).
Proof. intros Hi. destruct (faithful_eligible I Hq node _ Hi) as (q & b & Hf & Hi'). by eapply clean_await. Qed.

Lemma take_next_states l : peer_states (take_next_candidate l).2 = peer_states l.
Proof.
  unfold take_next_candidate. destruct (negb _); [done|]. destruct (Nat.leb _ _); [done|]. by destruct (bt_pop_first _).
Qed.

Lemma mark_waiting_states node l :
  (mark_waiting node l).1 = Ok tt →
  peer_states l !! lookup_peer_id node = None ∧
  peer_states (mark_waiting node l).2 = <[lookup_peer_id node := Waiting]> (peer_states l).
Proof.
  unfold mark_waiting. destruct (negb _); [done|]. destruct (Nat.leb _ _); [done|].
  destruct (is_contactable l (lookup_peer_id node)) eqn:Hc; cbn; [|done]. by apply is_contactable_true in Hc.
Qed.

Lemma lift_Done {A} (f : IterativeLookup N → result A LookupError * IterativeLookup N) st a st' :
  lift (E := E) f st = Done a st' → (f (wl st)).1 = Ok a ∧ wl st' = (f (wl st)).2.
Proof. unfold lift. destruct (f (wl st)) as [[x|e] l]; [|done]. by intros [= <- <-]. Qed.

Lemma await_Done {A} (f : Q → Q * result A E) st a st' : await f st = Done a st' → wl st' = wl st.
Proof.
  unfold await. destruct (wb st) as [[|b]|]; [done|..]; destruct (f (wq st)) as [q [x|e]]; [|done| |done]; by intros [= _ <-].
Qed.

(** The peers of a batch are distinct: each had no state before it was
    marked. *)
Lemma clean_collect fuel batch st :
  I (wq st) → NoDup (lookup_peer_id <$> batch) →
  (∀ p, p ∈ lookup_peer_id <$> batch → is_Some (peer_states (wl st) !! p)) →
  clean_post (collect_batch query fuel batch st) (λ b, NoDup (lookup_peer_id <$> b)).
Proof.
  revert batch st. induction fuel as [|fuel IH]; intros batch st Hi Hnd Hst; [done|]. cbn [collect_batch].
  eapply clean_bind; [by apply clean_lift|]. intros [n|] st1 [_ Hst1]%lift_Done _ Hi1; [|done].
  eapply clean_bind; [by apply clean_eligible|]. intros ok st2 Hst2%await_Done _ Hi2.
  assert (Hps : peer_states (wl st2) = peer_states (wl st)) by (by rewrite Hst2, Hst1, take_next_states).
  destruct ok; [|apply IH; by rewrite ?Hps].
  eapply clean_bind; [by apply clean_lift|]. intros [] st3 [Hok Hst3]%lift_Done _ Hi3.
  apply mark_waiting_states in Hok as [Hnew Hps3]. rewrite Hps in *. apply IH; [done|..].
  - rewrite fmap_app. apply NoDup_app. split_and!; [done| |by apply NoDup_singleton].
    intros p Hp%Hst ->%list_elem_of_singleton. rewrite Hnew in Hp. by destruct Hp.
  - intros p. rewrite Hst3, Hps3, fmap_app. intros [Hp|Hp]%elem_of_app.
    + apply lookup_insert_is_Some. destruct (decide (lookup_peer_id n = p)); [by left|]. right. auto.
    + apply list_elem_of_singleton in Hp as ->. by rewrite lookup_insert_eq.
Qed.

Lemma clean_admissions cs st : I (wq st) → clean_post (admit_candidates query cs st) (λ _, True).
Proof.
  revert st. induction cs as [|c cs IH]; intros st Hi; [done|]. cbn [admit_candidates].
  eapply clean_bind; [by apply clean_eligible|]. intros [] st1 _ _ Hi1; cbn [negb]; [|by apply IH].
  eapply clean_bind with (P1 := λ _, True).
  { by destruct (add_candidate c (wl st1)). }
  intros [[e|]| | |] st2 _ _ Hi2; try by apply IH.
  destruct (faithful_evicted I Hq e _ Hi2) as (q & Hf & Hi').
  eapply clean_bind; [by eapply (clean_await _ _ _ _ (λ _, True))|]. intros _ st3 _ _ Hi3. by apply IH.
Qed.

Lemma clean_outcomes outs awaiting st :
  I (wq st) → NoDup (responder <$> outs) → (∀ o, o ∈ outs → responder o ∈ awaiting) →
  clean_post (process_outcomes query outs awaiting st) (λ _, True).
Proof.
  revert awaiting st. induction outs as [|o outs IH]; intros awaiting st Hi Hnd Hin; [done|]. cbn [process_outcomes].
  rewrite fmap_cons, NoDup_cons in Hnd. destruct Hnd as [Hni Hnd].
  rewrite decide_True by (apply Hin; by left). eapply clean_bind with (P1 := λ _, True).
  { destruct o; [eapply clean_bind; [by apply clean_lift|]; intros; by apply clean_admissions|by apply clean_lift..]. }
  intros _ st1 _ _ Hi1. apply IH; [done..|]. intros o' Ho'. apply elem_of_difference. split; [apply Hin; by right|].
  rewrite elem_of_singleton. intros Heq. apply Hni. rewrite <-Heq. by apply list_elem_of_fmap_2.
Qed.

Lemma clean_unresponsive peers st : I (wq st) → clean_post (mark_unresponsive peers st : outcome (E := E) unit) (λ _, True).
Proof.
  revert st. induction peers as [|p peers IH]; intros st Hi; [done|]. cbn [mark_unresponsive].
  eapply clean_bind; [by apply clean_lift|]. intros _ st1 _ _ Hi1. by apply IH.
Qed.

Lemma clean_completion (k : Walk (E := E) LookupTermination) st :
  I (wq st) → (∀ st', I (wq st') → clean_post (k st') (λ _, True)) →
  clean_post (bind (lift complete_round)
    (λ p', match p' with Continue => k | Finished reason => ret reason end) st) (λ _, True).
Proof. intros Hi Hk. eapply clean_bind; [by apply clean_lift|]. intros [|r] st' _ _ Hi'; [by apply Hk|done]. Qed.

Lemma clean_rounds fuel st : I (wq st) → clean_post (run_lookup_rounds query fuel st) (λ _, True).
Proof.
  revert st. induction fuel as [|fuel IH]; intros st Hi; [done|]. cbn [run_lookup_rounds].
  eapply clean_bind; [by apply clean_lift|]. intros [|r] st1 _ _ Hi1; [|done].
  eapply clean_bind.
  { apply clean_collect; [done|constructor|]. by intros p ?%elem_of_nil. }
  intros [|n batch] st2 _ Hnd Hi2; [by apply clean_completion|].
  destruct (faithful_batch I Hq (target (wl st2)) (count (config (wl st2))) (iterations (wl st2)) (n :: batch) _ Hi2 Hnd)
    as (q & outs & Hf & Hi' & Hresp & Hin).
  eapply clean_bind with (P1 := λ o, o = outs); [by eapply clean_await|]. intros outs' st3 _ -> Hi3.
  eapply clean_bind.
  { apply clean_outcomes; [done..|]. intros o Ho. apply elem_of_list_to_set. auto. }
  intros left st4 _ _ Hi4. eapply clean_bind; [by apply clean_unresponsive|]. intros _ st5 _ _ Hi5.
  by apply clean_completion.
Qed.

(** The walk ends with its reason or at its deadline. *)
Lemma faithful_run l q deadline :
  lookup_inv l → round_active l = false → I q →
  ∃ r l', run_iterative_lookup query l q deadline = Some (r, l') ∧ rtc walk_step l l' ∧
    (r = Err RunTimedOut ∨ ∃ reason, r = Ok reason) ∧
    (∀ st reason, run_lookup_rounds query (round_fuel l) (mk_st l q deadline) = Done reason st → I (wq st)).
Proof.
  intros Hl Ha Hi. destruct (run_total query l q deadline Hl Ha) as (r & l' & Hrun & Hsteps & Hne & _).
  pose proof (clean_rounds (round_fuel l) (mk_st l q deadline) Hi) as Hclean.
  exists r, l'. split_and!; [done|done| |].
  - revert Hrun. unfold run_iterative_lookup. destruct (decide _); [intros [= <- <-]; by left|].
    destruct (run_lookup_rounds _ _ _) as [reason st|e l1|l1|]; simpl in Hclean.
    + intros [= <- _]. right. by eexists.
    + destruct Hclean as [e' ->]. intros [= <- _]. by destruct (Hne e').
    + intros [= <- _]. by left.
    + done.
  - intros st reason Hdone. rewrite Hdone in Hclean. apply Hclean.
Qed.
End faithful.

(** ** What a walk asks

    A peer seeded as a known result keeps its place and is never asked; every
    other peer with a state was asked. *)
Section seeded.
Context {N : Type} `{LookupNode N} (self : LookupKey) (n0 : N).
Implicit Types l : IterativeLookup N.

Record seeded l : Prop := {
  seed_state : peer_states l !! self = Some Succeeded;
  seed_result : successful l !! self = Some n0;
  seed_unasked : self ∉ query_order l;
  seed_asked p : is_Some (peer_states l !! p) → p = self ∨ p ∈ query_order l;
}.

Lemma seeded_same l l' :
  peer_states l' = peer_states l → successful l' = successful l → query_order l' = query_order l →
  seeded l → seeded l'.
Proof. intros Hp Hs Ho [??? Ha]. split; [by rewrite Hp|by rewrite Hs|by rewrite Ho|]. intros p. rewrite Hp, Ho. apply Ha. Qed.

Lemma seeded_record l p node s su :
  seeded l → peer_states l !! p = Some Waiting → (su = successful l ∨ su = <[p := node]> (successful l)) →
  seeded (set_peers (<[p := s]> (peer_states l)) (query_order l) (delete p (in_flight l)) su l).
Proof.
  intros [Hst Hres Hun Hask] Hw Hsu. assert (Hne : p ≠ self) by (intros ->; congruence). split; cbn.
  - by rewrite lookup_insert_ne.
  - destruct Hsu as [->| ->]; [done|]. by rewrite lookup_insert_ne.
  - done.
  - intros q [<-|[_ Hq]]%lookup_insert_is_Some; [apply Hask; by rewrite Hw|by apply Hask].
Qed.

Lemma seeded_step l l' : lookup_inv l → walk_step l l' → seeded l → seeded l'.
Proof.
  intros Hl Hstep Hs. destruct Hstep.
  - apply (seeded_same l); [..|done]; unfold add_candidate; by repeat case_match.
  - apply (seeded_same l); [..|done]; unfold begin_round, finish; by repeat case_match.
  - apply (seeded_same l); [..|done]; unfold take_next_candidate; by repeat case_match.
  - unfold mark_waiting. destruct (negb _); [done|]. destruct (Nat.leb _ _); [done|].
    destruct (is_contactable l (lookup_peer_id node)) eqn:Hc; cbn; [|done]. apply is_contactable_true in Hc.
    destruct Hs as [Hst Hres Hun Hask]. assert (Hne : lookup_peer_id node ≠ self) by (intros Heq; congruence).
    split; cbn; [by rewrite lookup_insert_ne|done|set_solver|].
    intros q [<-|[_ Hq]]%lookup_insert_is_Some; [right; set_solver|]. destruct (Hask q Hq); [by left|right; set_solver].
  - unfold record_success. destruct (take_waiting_cases p l) as [(n & -> & Hw & _)| ->]; [|done]. cbn.
    eapply (seeded_record l p n Succeeded); [done..|]. destruct (successful l !! p); auto.
  - unfold record_failure. destruct (take_waiting_cases p l) as [(n & -> & Hw & _)| ->]; [|done].
    by apply (seeded_record l p n Failed _ Hs Hw); left.
  - unfold record_unresponsive. destruct (take_waiting_cases p l) as [(n & -> & Hw & _)| ->]; [|done].
    by apply (seeded_record l p n Unresponsive _ Hs Hw); left.
  - apply (seeded_same l); [..|done]; unfold complete_round, finish; by repeat case_match.
  - destruct Hs as [Hst Hres Hun Hask]. split; cbn; [|done|done|].
    + assert (Hf : in_flight l !! self = None).
      { destruct (in_flight l !! self) eqn:Hf; [|done].
        assert (Hw : peer_states l !! self = Some Waiting) by (apply (inv_waiting l Hl); eauto). congruence. }
      by rewrite lookup_union_r; [|rewrite lookup_fmap, Hf].
    + intros q [Hq|Hq]%lookup_union_is_Some; [|by apply Hask]. rewrite lookup_fmap, fmap_is_Some in Hq.
      apply (inv_waiting l Hl) in Hq. apply Hask. by rewrite Hq.
Qed.

Lemma seeded_steps l l' : lookup_inv l → rtc walk_step l l' → seeded l → seeded l'.
Proof.
  intros Hl Hsteps. induction Hsteps; intros Hs; [done|]. apply IHHsteps; [|by eapply seeded_step].
  by eapply step_inv, Hl; apply walk_lookup_step.
Qed.
End seeded.

(** ** Concrete runs

    A two-peer network, keys as nodes: the first peer answers, the second one
    fails. *)
Module Samples.

Definition kk (n : Z) : Key := key_of_bytes [n].

#[global] Instance key_node : LookupNode Key := λ k, k.

Definition c1 : LookupConfig :=
  {| count := 1; alpha := 1; max_iterations := 3; max_candidates := 2 |}.

Definition fresh : IterativeLookup Key :=
  {| target := kk 0; config := c1; candidates := []; peer_states := ∅;
     query_order := []; in_flight := ∅; successful := ∅; previous_top_k := [];
     iterations := 0; round_active := false; round_queries := 0; termination := None |}.

Definition queued : IterativeLookup Key := (add_candidate (kk 6) (add_candidate (kk 5) fresh).2).2.
Definition active : IterativeLookup Key := (begin_round queued).2.
Definition asked : IterativeLookup Key := (mark_waiting (kk 5) (take_next_candidate active).2).2.
Definition answered : IterativeLookup Key := (record_success (kk 5) asked).2.
Definition round2 : IterativeLookup Key := (begin_round (complete_round answered).2).2.
Definition failed2 : IterativeLookup Key :=
  (record_failure (kk 6) (mark_waiting (kk 6) (take_next_candidate round2).2).2).2.

Lemma failed2_steps : rtc lookup_step fresh failed2.
Proof.
  unfold failed2, round2, answered, asked, active, queued.
  eapply rtc_l; [apply (step_candidate (kk 5))|].
  eapply rtc_l; [apply (step_candidate (kk 6))|].
  eapply rtc_l; [apply step_begin|]. eapply rtc_l; [apply step_take|].
  eapply rtc_l; [apply (step_mark (kk 5))|]. eapply rtc_l; [apply (step_success (kk 5))|].
  eapply rtc_l; [apply step_complete|]. eapply rtc_l; [apply step_begin|].
  eapply rtc_l; [apply step_take|]. eapply rtc_l; [apply (step_mark (kk 6))|].
  apply rtc_once, (step_failure (kk 6)).
Qed.

Lemma fresh_inv : lookup_inv fresh.
Proof. by apply (new_inv (kk 0) c1). Qed.
Lemma failed2_inv : lookup_inv failed2.
Proof. apply (reachable_inv (kk 0) c1). exists fresh. split; [done|apply failed2_steps]. Qed.
Lemma queued_inv : lookup_inv queued.
Proof. apply add_candidate_inv, add_candidate_inv, fresh_inv. Qed.
Lemma active_inv : lookup_inv active.
Proof. apply begin_round_inv, queued_inv. Qed.
Lemma answered_inv : lookup_inv answered.
Proof. apply record_success_inv, mark_waiting_inv, take_next_candidate_inv, active_inv. Qed.

Lemma lookup_invariant_witness : reachable (kk 0) c1 failed2 ∧ lookup_inv failed2.
Proof.
  assert (reachable (kk 0) c1 failed2) as Hr by (exists fresh; split; [done|apply failed2_steps]).
  split; [done|]. apply (lookup_invariant (kk 0) c1). done.
Defined.

Lemma add_candidate_witness :
  (add_candidate (kk 4) queued).1 = Inserted (Some (kk 6)) ∧
  (candidates (add_candidate (kk 4) queued).2).*2 = [kk 4; kk 5].
Proof.
  split; [by vm_compute|].
  rewrite (add_candidate_keeps_closest (kk 4) queued queued_inv ltac:(by vm_compute)).
  by vm_compute.
Defined.

Lemma results_closest_witness :
  results answered = [kk 5] ∧
  length (results answered) = Nat.min (count (config answered)) (size (successful answered)).
Proof.
  split; [by vm_compute|]. apply (results_closest answered answered_inv).
Defined.

Lemma results_hash_order_witness :
  take 1 (sort_by_key (λ n, distance_key (kk 0) (lookup_peer_id n)) [kk 5]) = results answered.
Proof.
  apply (results_hash_order_irrelevant answered [(kk 5, kk 5)] answered_inv).
  replace (map_to_list (successful answered)) with [(kk 5, kk 5)]; [done|].
  eapply bool_decide_eq_true_1. by vm_compute.
Defined.

Lemma take_next_witness :
  ∃ k, (k, kk 5) ∈ candidates active.
Proof.
  apply (take_next_is_closest active (take_next_candidate active).2 (kk 5) active_inv).
  apply injective_projections; [by vm_compute|done].
Defined.

Lemma converged_witness :
  result_peer_ids failed2 = [kk 5] ∧ converged failed2.
Proof.
  split; [by vm_compute|].
  apply (converged_is_final failed2 (complete_round failed2).2 failed2_inv).
  apply injective_projections; [by vm_compute|done].
Defined.

Lemma query_bounds_witness : length (query_order failed2) ≤ 1 * 3.
Proof.
  apply (query_bounds (kk 0) c1 failed2).
  exists fresh. split; [done|apply failed2_steps].
Defined.

Lemma final_states_witness :
  peer_states answered !! kk 5 = Some Succeeded ∧
  (peer_states (complete_round answered).2 !! kk 5 = Some Succeeded ∨
   ∃ node, lookup_peer_id node = kk 5 ∧ (complete_round answered).2 = add_known_result node answered ∧
     peer_states (complete_round answered).2 !! kk 5 = Some Succeeded).
Proof.
  split; [by vm_compute|].
  apply (final_states_are_stable answered); [apply answered_inv|apply step_complete|by vm_compute|done].
Defined.

(** An adapter whose peers answer with one more candidate each. *)
Definition echo : LookupQuery Key unit unit := {|
  is_candidate_eligible := λ _ q, (q, Ok true);
  query_batch := λ _ _ _ batch q, (q, Ok ((λ n, OSucceeded n [kk 2]) <$> batch));
  candidate_evicted := λ _ q, (q, Ok tt);
|}.

Lemma run_witness :
  ((λ r, (r.1, results r.2)) <$> run_iterative_lookup echo queued tt None) =
    Some (Ok Converged, [kk 2]) ∧
  ∃ r l', run_iterative_lookup echo queued tt None = Some (r, l') ∧
    rtc walk_step queued l' ∧ (∀ e, r ≠ Err (RunLookup e)) ∧
    (∀ reason, r = Ok reason → termination l' = Some reason ∧ in_flight l' = ∅).
Proof.
  split; [by vm_compute|]. apply (run_iterative_lookup_terminates echo); [apply queued_inv|done].
Defined.

Definition interrupted : IterativeLookup Key :=
  match run_iterative_lookup echo queued tt (Some 3) with Some (_, l) => l | None => queued end.

Lemma deadline_witness :
  results interrupted = [kk 5] ∧ termination interrupted = Some TimedOut.
Proof.
  split; [by vm_compute|].
  apply (deadline_leaves_clean_state echo queued tt (Some 3) interrupted);
    [apply queued_inv|done|by vm_compute].
Defined.
End Samples.
