(* ===== verification/Ip.v ===== *)
(** * IP and socket addresses

    The parts of [std::net] the program uses, the address-scope test of
    [src/address.rs] ([is_lan_ip]) and the IP helpers and limits of
    [src/security.rs].  An address is its octets, as the code inspects it. *)

From stdpp Require Import prelude gmap strings.
From S2P Require Import Prelude Keys.

Local Open Scope Z_scope.

(** ** Fixed-length octet arrays *)

Record Octets (n : nat) := mk_octets {
  octets : list Z;
  octets_wf : Is_true (wf_bytes n octets);
}.
Global Arguments mk_octets {n} _ _.
Global Arguments octets {n} _.
Global Arguments octets_wf {n} _.

Abbreviation Ipv4Addr := (Octets 4).
Abbreviation Ipv6Addr := (Octets 16).

Section octets.
Context {n : nat}.
Implicit Types a : Octets n.

Lemma octets_eq a a' : octets a = octets a' → a = a'.
Proof. destruct a, a'; simpl. intros ->. f_equal. apply proof_irrel. Qed.

Lemma octets_length a : length (octets a) = n.
Proof. destruct a as [l Hl]; simpl. by apply wf_bytes_spec in Hl as []. Qed.
Lemma octets_ok a : Forall (λ b, 0 ≤ b < 256) (octets a).
Proof. destruct a as [l Hl]; simpl. by apply wf_bytes_spec in Hl as []. Qed.

#[global] Instance octets_eq_dec : EqDecision (Octets n).
Proof.
  intros a a'. destruct (decide (octets a = octets a')) as [Eq|Ne].
  - left. by apply octets_eq.
  - right. by intros ->.
Defined.

(** The octet array of a list of the right length. *)
Definition octets_of_list (l : list Z) : option (Octets n) :=
  match decide (Is_true (wf_bytes n l)) with
  | left H => Some (mk_octets l H)
  | right _ => None
  end.

Lemma octets_of_list_octets a : octets_of_list (octets a) = Some a.
Proof.
  unfold octets_of_list. destruct (decide _) as [H|H].
  - f_equal. by apply octets_eq.
  - by destruct H, a.
Qed.

Lemma octets_of_list_Some l a : octets_of_list l = Some a → octets a = l.
Proof. unfold octets_of_list. case_decide; [by intros [= <-]|done]. Qed.

Lemma octets_of_list_is_Some l :
  length l = n → Forall (λ b, 0 ≤ b < 256) l → is_Some (octets_of_list l).
Proof.
  intros Hlen Hok. unfold octets_of_list. case_decide as H; [by eexists|].
  destruct H. by apply wf_bytes_spec.
Qed.

#[global] Instance octets_countable : Countable (Octets n) :=
  inj_countable octets octets_of_list octets_of_list_octets.

(** [octet a i] is [a.octets()[i]]. *)
Definition octet a (i : nat) : Z := nth i (octets a) 0.

Lemma octet_range a i : 0 ≤ octet a i < 256.
Proof.
  unfold octet. destruct (nth_in_or_default i (octets a) 0) as [H| ->]; [|lia].
  pose proof (octets_ok a) as Hok. rewrite Forall_forall in Hok.
  apply Hok. by apply list_elem_of_In.
Qed.
End octets.

(** ** [std::net] *)

Inductive IpAddr :=
  | V4 (ip : Ipv4Addr)
  | V6 (ip : Ipv6Addr).

(** A V6 socket carries its flow label and scope id, which take part in
    equality. *)
Inductive SocketAddr :=
  | SocketV4 (ip : Ipv4Addr) (port : N)
  | SocketV6 (ip : Ipv6Addr) (port flowinfo scope_id : N).

#[export] Instance IpAddr_eq_dec : EqDecision IpAddr.
Proof. solve_decision. Defined.
#[export] Instance SocketAddr_eq_dec : EqDecision SocketAddr.
Proof. solve_decision. Defined.

#[export] Instance IpAddr_countable : Countable IpAddr.
Proof.
  refine (inj_countable'
    (λ ip, match ip with V4 a => inl a | V6 a => inr a end)
    (λ s, match s with inl a => V4 a | inr a => V6 a end) _).
  by intros [].
Defined.

#[export] Instance SocketAddr_countable : Countable SocketAddr.
Proof.
  refine (inj_countable'
    (λ sa, match sa with
           | SocketV4 a p => inl (a, p)
           | SocketV6 a p f s => inr (a, p, f, s) end)
    (λ x, match x with
          | inl (a, p) => SocketV4 a p
          | inr (a, p, f, s) => SocketV6 a p f s end) _).
  by intros [].
Defined.

Definition socket_new (ip : IpAddr) (port : N) : SocketAddr :=
  match ip with V4 a => SocketV4 a port | V6 a => SocketV6 a port 0 0 end.

Definition socket_ip (sa : SocketAddr) : IpAddr :=
  match sa with SocketV4 a _ => V4 a | SocketV6 a _ _ _ => V6 a end.

Definition socket_port (sa : SocketAddr) : N :=
  match sa with SocketV4 _ p => p | SocketV6 _ p _ _ => p end.

Definition socket_is_ipv4 (sa : SocketAddr) : bool :=
  match sa with SocketV4 _ _ => true | _ => false end.
Definition socket_is_ipv6 (sa : SocketAddr) : bool := negb (socket_is_ipv4 sa).

Definition ip_is_ipv4 (ip : IpAddr) : bool :=
  match ip with V4 _ => true | V6 _ => false end.

Lemma socket_ip_new ip p : socket_ip (socket_new ip p) = ip.
Proof. by destruct ip. Qed.

Definition v4_is_loopback (a : Ipv4Addr) : bool := octet a 0 =? 127.
Definition v4_is_private (a : Ipv4Addr) : bool :=
  (octet a 0 =? 10)
  || ((octet a 0 =? 172) && (16 <=? octet a 1) && (octet a 1 <=? 31))
  || ((octet a 0 =? 192) && (octet a 1 =? 168)).
Definition v4_is_link_local (a : Ipv4Addr) : bool :=
  (octet a 0 =? 169) && (octet a 1 =? 254).
Definition v4_is_unspecified (a : Ipv4Addr) : bool := bool_decide (octets a = [0; 0; 0; 0]).
Definition v4_is_multicast (a : Ipv4Addr) : bool := (224 <=? octet a 0) && (octet a 0 <=? 239).
Definition v4_is_broadcast (a : Ipv4Addr) : bool :=
  bool_decide (octets a = [255; 255; 255; 255]).

Definition v6_is_loopback (a : Ipv6Addr) : bool :=
  bool_decide (octets a = replicate 15 0 ++ [1]).
Definition v6_is_unspecified (a : Ipv6Addr) : bool :=
  bool_decide (octets a = replicate 16 0).
Definition v6_is_multicast (a : Ipv6Addr) : bool := octet a 0 =? 255.

Definition ip_is_loopback (ip : IpAddr) : bool :=
  match ip with V4 a => v4_is_loopback a | V6 a => v6_is_loopback a end.
Definition ip_is_unspecified (ip : IpAddr) : bool :=
  match ip with V4 a => v4_is_unspecified a | V6 a => v6_is_unspecified a end.
Definition ip_is_multicast (ip : IpAddr) : bool :=
  match ip with V4 a => v4_is_multicast a | V6 a => v6_is_multicast a end.

(** [::ffff:a.b.c.d] is the IPv4 address [a.b.c.d]. *)
Definition mapped_prefix : list Z := replicate 10 0 ++ [255; 255].

Definition to_ipv4_mapped (a : Ipv6Addr) : option Ipv4Addr :=
  if bool_decide (take 12 (octets a) = mapped_prefix)
  then octets_of_list (drop 12 (octets a)) else None.

(** ** Address scope ([src/address.rs]) *)

Definition is_lan_ipv4 (ip : Ipv4Addr) : bool :=
  v4_is_loopback ip || v4_is_private ip || v4_is_link_local ip
  || ((octet ip 0 =? 100) && (Z.land (octet ip 1) 192 =? 64)).

Definition is_lan_ipv6 (ip : Ipv6Addr) : bool :=
  v6_is_loopback ip
  || (Z.land (octet ip 0) 254 =? 252)
  || ((octet ip 0 =? 254) && (Z.land (octet ip 1) 192 =? 128)).

Definition is_lan_ip (ip : IpAddr) : bool :=
  match ip with
  | V4 ip => is_lan_ipv4 ip
  | V6 ip => match to_ipv4_mapped ip with
             | Some ip => is_lan_ipv4 ip
             | None => is_lan_ipv6 ip
             end
  end.

(** ** IP diversity helpers ([src/security.rs]) *)

Definition IP_EXACT_LIMIT : N := 2.
Definition USIZE_MAX : N := 2 ^ 64 - 1.

Definition canonicalize_ip (ip : IpAddr) : IpAddr :=
  match ip with
  | V6 v6 => from_option V4 (V6 v6) (to_ipv4_mapped v6)
  | other => other
  end.

Definition ip_subnet_limit (k : N) : N :=
  if (0 <? k / 4)%N then (k / 4)%N else 1%N.

Record IPDiversityConfig := mk_diversity {
  max_per_ip : option N;
  max_per_subnet : option N;
}.

Definition diversity_default : IPDiversityConfig :=
  {| max_per_ip := None; max_per_subnet := None |}.
Definition permissive : IPDiversityConfig :=
  {| max_per_ip := Some USIZE_MAX; max_per_subnet := Some USIZE_MAX |}.
Definition testnet : IPDiversityConfig := permissive.

(** The errors of [IPDiversityConfig::validate], with the rejected limit. *)
Inductive DiversityError :=
  | MaxPerIpTooSmall (limit : N)
  | MaxPerSubnetTooSmall (limit : N).

Definition validate_diversity (c : IPDiversityConfig) : result unit DiversityError :=
  match max_per_ip c with
  | Some 0%N => Err (MaxPerIpTooSmall 0)
  | _ => match max_per_subnet c with
         | Some 0%N => Err (MaxPerSubnetTooSmall 0)
         | _ => Ok tt
         end
  end.

(** ** Properties *)

Lemma to_ipv4_mapped_octets a b :
  to_ipv4_mapped a = Some b ↔ octets a = mapped_prefix ++ octets b.
Proof.
  unfold to_ipv4_mapped. split.
  - case_bool_decide as Hp; [|done]. intros Hb%octets_of_list_Some.
    by rewrite Hb, <- Hp, take_drop.
  - intros Ha. rewrite Ha, bool_decide_eq_true_2 by done.
    rewrite drop_app_length' by done. apply octets_of_list_octets.
Qed.

Lemma canonicalize_ip_idemp ip : canonicalize_ip (canonicalize_ip ip) = canonicalize_ip ip.
Proof.
  destruct ip as [a|a]; simpl; [done|].
  destruct (to_ipv4_mapped a) eqn:Hm; simpl; [done|]. by rewrite Hm.
Qed.

Lemma is_lan_ip_canonicalize ip : is_lan_ip (canonicalize_ip ip) = is_lan_ip ip.
Proof.
  destruct ip as [a|a]; simpl; [done|].
  destruct (to_ipv4_mapped a) eqn:Hm; simpl; [done|]. by rewrite Hm.
Qed.

(** Two addresses are identified by canonicalisation only if they are equal
    or one is the IPv4-mapped form of the other. *)
Lemma canonicalize_ip_fibre ip ip' :
  canonicalize_ip ip = canonicalize_ip ip' →
  ip = ip' ∨ ∃ a b, octets b = mapped_prefix ++ octets a ∧
    (ip = V4 a ∧ ip' = V6 b ∨ ip = V6 b ∧ ip' = V4 a).
Proof.
  destruct ip as [a|a], ip' as [b|b]; simpl.
  - intros [= ->]. by left.
  - destruct (to_ipv4_mapped b) eqn:Hm; simpl; [|done]. intros [= ->]. right.
    apply to_ipv4_mapped_octets in Hm. naive_solver.
  - destruct (to_ipv4_mapped a) eqn:Hm; simpl; [|done]. intros [= ->]. right.
    apply to_ipv4_mapped_octets in Hm. naive_solver.
  - destruct (to_ipv4_mapped a) eqn:Ha, (to_ipv4_mapped b) eqn:Hb; simpl; try done.
    + intros [= ->]. left. f_equal. apply octets_eq.
      apply to_ipv4_mapped_octets in Ha, Hb. congruence.
    + by left.
Qed.

(** *** Scope tests against CIDR blocks *)

(** The block [base/len] of an address space of [w] bits. *)
Definition in_block (w : Z) (x base len : Z) : bool :=
  Z.shiftr x (w - len) =? Z.shiftr base (w - len).

Definition ip_value {n} (a : Octets n) : Z := be_combine (octets a).

Definition lan_blocks4 : list (Z * Z) :=
  [(127 * 2 ^ 24, 8); (10 * 2 ^ 24, 8); (172 * 2 ^ 24 + 16 * 2 ^ 16, 12);
   (192 * 2 ^ 24 + 168 * 2 ^ 16, 16); (169 * 2 ^ 24 + 254 * 2 ^ 16, 16);
   (100 * 2 ^ 24 + 64 * 2 ^ 16, 10)].

Definition lan_blocks6 : list (Z * Z) :=
  [(1, 128); (252 * 2 ^ 120, 7); (254 * 2 ^ 120 + 128 * 2 ^ 112, 10)].

Lemma shiftr_head2 a b l (j : Z) :
  Forall (λ b, 0 ≤ b < 256) l → 0 ≤ j →
  Z.shiftr (be_combine (a :: b :: l)) (8 * Z.of_nat (length l) + j) = (a * 256 + b) / 2 ^ j.
Proof.
  intros Hl Hj. pose proof (be_combine_bound _ Hl) as Hb. cbn [be_combine length].
  rewrite Z.shiftr_div_pow2 by lia. rewrite Z.pow_add_r, <- Z.div_div by lia.
  f_equal. symmetry. apply Z.div_unique with (be_combine l); [lia|].
  replace (8 * Z.of_nat (S (length l))) with (8 * Z.of_nat (length l) + 8) by lia.
  rewrite Z.pow_add_r by lia. lia.
Qed.

(** A property of bytes holds when it holds of the 256 values. *)
Lemma byte_forall (P : Z → bool) :
  forallb P (seqZ 0 256) = true → ∀ b, 0 ≤ b < 256 → P b = true.
Proof.
  rewrite forallb_forall. intros H b Hb. apply H, list_elem_of_In, elem_of_seqZ. lia.
Qed.

Lemma byte_land_192 b v :
  0 ≤ b < 256 → 0 ≤ v < 4 → (Z.land b 192 =? 64 * v) = (b / 64 =? v).
Proof.
  intros Hb Hv. apply eqb_true_iff.
  assert (H : forallb (λ v, eqb (Z.land b 192 =? 64 * v) (b / 64 =? v)) (seqZ 0 4) = true).
  { by apply (byte_forall (λ b, forallb (λ v, eqb (Z.land b 192 =? 64 * v) (b / 64 =? v)) (seqZ 0 4))). }
  rewrite forallb_forall in H. apply H, list_elem_of_In, elem_of_seqZ. lia.
Qed.

Lemma byte_land_254 b : 0 ≤ b < 256 → (Z.land b 254 =? 252) = (b / 2 =? 126).
Proof.
  intros Hb. apply eqb_true_iff.
  by apply (byte_forall (λ b, eqb (Z.land b 254 =? 252) (b / 2 =? 126))).
Qed.

Ltac bool_lia :=
  repeat match goal with
  | |- context [Z.shiftr ?x ?y] =>
      let v := eval vm_compute in (Z.shiftr x y) in change (Z.shiftr x y) with v
  | |- context [(2 ^ ?y)%Z] =>
      let v := eval vm_compute in (2 ^ y)%Z in change (2 ^ y)%Z with v
  end;
  rewrite ?orb_true_iff, ?andb_true_iff, ?Z.eqb_eq, ?Z.leb_le, ?Z.ltb_lt;
  split; intros; repeat match goal with H : _ ∨ _ |- _ => destruct H end;
  try discriminate; Z.to_euclidean_division_equations; lia.

Lemma is_lan_ipv4_blocks ip :
  is_lan_ipv4 ip = existsb (λ blk, in_block 32 (ip_value ip) blk.1 blk.2) lan_blocks4.
Proof.
  unfold is_lan_ipv4, v4_is_loopback, v4_is_private, v4_is_link_local, ip_value, octet.
  pose proof (octets_length ip) as Hlen. pose proof (octets_ok ip) as Hok.
  destruct (octets ip) as [|a [|b [|c [|d [|]]]]]; try done.
  rewrite !Forall_cons in Hok. destruct Hok as (Ha&Hb&Hc&Hd&_).
  assert (Hcd : Forall (λ b, 0 ≤ b < 256) [c; d]) by auto.
  pose proof (λ j, shiftr_head2 a b [c; d] j Hcd) as Hs. cbn [length] in Hs.
  change (8 * Z.of_nat 2) with 16 in Hs.
  unfold lan_blocks4, existsb, in_block; cbn [fst snd nth].
  rewrite (byte_land_192 b 1 ltac:(lia) ltac:(lia) : (Z.land b 192 =? 64) = _).
  change (32 - 8) with (16 + 8). change (32 - 12) with (16 + 4).
  change (32 - 16) with (16 + 0). change (32 - 10) with (16 + 6).
  rewrite !Hs by lia. apply eq_true_iff_eq. bool_lia.
Qed.

Lemma is_lan_ipv6_blocks ip :
  is_lan_ipv6 ip = existsb (λ blk, in_block 128 (ip_value ip) blk.1 blk.2) lan_blocks6.
Proof.
  assert (Hlo : v6_is_loopback ip = in_block 128 (ip_value ip) 1 128).
  { unfold v6_is_loopback, in_block, ip_value. change (128 - 128) with 0.
    rewrite !Z.shiftr_0_r. change 1 with (be_combine (replicate 15 0 ++ [1])).
    apply eq_true_iff_eq. rewrite bool_decide_eq_true, Z.eqb_eq. split; [by intros ->|].
    intros Hv. pose proof (be_combine_cmp (octets ip) (replicate 15 0 ++ [1])) as Hc.
    rewrite Hv, Z.compare_refl in Hc. apply cmp_eq_iff, Hc.
    - by rewrite octets_length.
    - apply octets_ok.
    - repeat constructor; lia. }
  unfold is_lan_ipv6, lan_blocks6. cbn [existsb fst snd]. rewrite Hlo.
  rewrite orb_false_r, <- orb_assoc. f_equal. unfold octet, ip_value, in_block.
  pose proof (octets_length ip) as Hlen. pose proof (octets_ok ip) as Hok.
  destruct (octets ip) as [|a [|b l]]; try done.
  cbn [nth length] in Hlen |- *.
  rewrite !Forall_cons in Hok. destruct Hok as (Ha&Hb&Hl).
  pose proof (λ j, shiftr_head2 a b l j Hl) as Hs.
  replace (8 * Z.of_nat (length l)) with 112 in Hs by lia.
  change (128 - 7) with (112 + 9). change (128 - 10) with (112 + 6).
  rewrite (byte_land_192 b 2 ltac:(lia) ltac:(lia) : (Z.land b 192 =? 128) = _), byte_land_254 by lia.
  rewrite !Hs by lia. apply eq_true_iff_eq. bool_lia.
Qed.

(** The local-scope test [is_lan_ip] accepts exactly the addresses whose
    canonical form lies in one of the blocks 127/8, 10/8, 172.16/12,
    192.168/16, 169.254/16, 100.64/10 (IPv4) or ::1/128, fc00::/7, fe80::/10
    (IPv6); an IPv4-mapped IPv6 address is judged as the IPv4 address it
    carries. *)
Theorem is_lan_ip_blocks ip :
  is_lan_ip ip =
  match canonicalize_ip ip with
  | V4 a => existsb (λ blk, in_block 32 (ip_value a) blk.1 blk.2) lan_blocks4
  | V6 a => existsb (λ blk, in_block 128 (ip_value a) blk.1 blk.2) lan_blocks6
  end.
Proof.
  rewrite <- is_lan_ip_canonicalize.
  assert (Hcan : ∀ a, canonicalize_ip ip = V6 a → to_ipv4_mapped a = None).
  { intros a Ha. destruct ip as [b|b]; simpl in Ha; [done|].
    destruct (to_ipv4_mapped b) eqn:Hm; simpl in Ha; congruence. }
  destruct (canonicalize_ip ip) as [a|a].
  - apply is_lan_ipv4_blocks.
  - unfold is_lan_ip. rewrite (Hcan a) by done. apply is_lan_ipv6_blocks.
Qed.
