(* ===== verification/Geo.v ===== *)
(** * Networks and their owners

    [src/bgp_geo_provider.rs]: prefixes with their origin AS, what is known of
    an AS, and the lookup of an address by its longest prefix.  Maps and sets
    are maps and sets; a lock is held for one operation, so an operation is
    one step. *)

From stdpp Require Import prelude sorting gmap strings.
From S2P Require Import Prelude Keys Ip.

Local Open Scope Z_scope.

(** ** Data *)

Record Ipv4Prefix := mk_prefix4 { network : Z; prefix_len : Z; mask : Z; asn : N }.
Record Ipv6Prefix := mk_prefix6 { network_high : Z; network_low : Z; prefix_len6 : Z; asn6 : N }.
Record AsnInfo := mk_asn_info { info_asn : N; org_name : string; country : string; rir : string }.

Record GeoInfo := mk_geo {
  geo_asn : option N;
  geo_country : option string;
  is_hosting_provider : bool;
  is_vpn_provider : bool;
}.
#[export] Instance GeoInfo_eq_dec : EqDecision GeoInfo.
Proof. solve_decision. Defined.

Record BgpGeoProvider := mk_provider {
  ipv4_prefixes : list Ipv4Prefix;
  ipv6_prefixes : list Ipv6Prefix;
  asn_info : gmap N AsnInfo;
  hosting_asns : gset N;
  vpn_asns : gset N;
}.

Record BgpGeoStats := mk_geo_stats {
  ipv4_prefix_count : nat;
  ipv6_prefix_count : nat;
  asn_info_count : nat;
  hosting_asn_count : nat;
  vpn_asn_count : nat;
}.

(** [!0 << (w - len)] on [w] bits.  A shift by [w] or more takes its amount
    modulo [w], and a [u8] difference below zero wraps around, which comes to
    the same; with overflow checks the latter panics, for [len > w]. *)
Definition mask_of (w len : Z) : Z := Z.shiftl (Z.ones w) ((w - len) mod w) mod 2 ^ w.

Definition prefix4_new (net : Ipv4Addr) (len : Z) (origin : N) : Ipv4Prefix :=
  let m := if len =? 0 then 0 else mask_of 32 len in
  mk_prefix4 (Z.land (ip_value net) m) len m origin.

Definition matches (p : Ipv6Prefix) (high low : Z) : bool :=
  if prefix_len6 p =? 0 then true
  else if prefix_len6 p <=? 64 then Z.land high (mask_of 64 (prefix_len6 p)) =? network_high p
  else if negb (high =? network_high p) then false
  else Z.land low (mask_of 64 (prefix_len6 p - 64)) =? network_low p.

(** [sort_by_key] of [Reverse(prefix_len)]. *)
Definition longest_first (l : list Ipv4Prefix) : list Ipv4Prefix := sort_by_key (λ p, mk_reverse (prefix_len p)) l.

(** ** The embedded data *)

Definition embedded_hosting : gset N := list_to_set [
  16509; 14618; 8075; 15169; 396982; 13335; 20940; 14061; 63949; 20473; 36351; 19871; 46606; 16276; 24940; 51167;
  12876; 9009; 60781; 202018; 62567; 39572; 174; 3356; 6939; 4766; 45102; 37963; 132203; 45090; 55967; 31898]%N.

Definition embedded_vpn : gset N := list_to_set [
  9009; 212238; 60068; 200651; 51852; 60729; 395954; 39351; 44066; 9312; 34549; 210277; 204957; 44592; 34927; 197540]%N.

Definition embedded_asns : list (N * string * string * string) := [
  (16509, "Amazon.com, Inc.", "US", "ARIN");
  (14618, "Amazon.com, Inc.", "US", "ARIN");
  (8075, "Microsoft Corporation", "US", "ARIN");
  (15169, "Google LLC", "US", "ARIN");
  (396982, "Google LLC", "US", "ARIN");
  (13335, "Cloudflare, Inc.", "US", "ARIN");
  (20940, "Akamai Technologies", "US", "ARIN");
  (14061, "DigitalOcean, LLC", "US", "ARIN");
  (63949, "Linode, LLC", "US", "ARIN");
  (20473, "The Constant Company, LLC", "US", "ARIN");
  (36351, "SoftLayer Technologies", "US", "ARIN");
  (16276, "OVH SAS", "FR", "RIPE");
  (24940, "Hetzner Online GmbH", "DE", "RIPE");
  (51167, "Contabo GmbH", "DE", "RIPE");
  (12876, "Scaleway S.A.S.", "FR", "RIPE");
  (9009, "M247 Ltd", "GB", "RIPE");
  (60781, "LeaseWeb Netherlands B.V.", "NL", "RIPE");
  (174, "Cogent Communications", "US", "ARIN");
  (3356, "Lumen Technologies", "US", "ARIN");
  (6939, "Hurricane Electric LLC", "US", "ARIN");
  (4766, "Korea Telecom", "KR", "APNIC");
  (45102, "Alibaba (US) Technology Co.", "CN", "APNIC");
  (37963, "Hangzhou Alibaba Advertising", "CN", "APNIC");
  (132203, "Tencent Building", "CN", "APNIC");
  (45090, "Shenzhen Tencent", "CN", "APNIC");
  (55967, "Oracle Corporation", "US", "ARIN");
  (31898, "Oracle Corporation", "US", "ARIN");
  (7922, "Comcast Cable Communications", "US", "ARIN");
  (701, "Verizon Business", "US", "ARIN");
  (209, "CenturyLink", "US", "ARIN");
  (3320, "Deutsche Telekom AG", "DE", "RIPE");
  (5089, "Virgin Media Limited", "GB", "RIPE");
  (12322, "Free SAS", "FR", "RIPE");
  (3215, "Orange S.A.", "FR", "RIPE");
  (6830, "Liberty Global Operations", "NL", "RIPE");
  (2856, "British Telecommunications", "GB", "RIPE");
  (6805, "Telefonica Germany", "DE", "RIPE");
  (3269, "Telecom Italia S.p.A.", "IT", "RIPE");
  (6739, "Vodafone Ono, S.A.", "ES", "RIPE");
  (12389, "PJSC Rostelecom", "RU", "RIPE");
  (9498, "Bharti Airtel Ltd.", "IN", "APNIC");
  (4134, "Chinanet", "CN", "APNIC");
  (4837, "China Unicom", "CN", "APNIC");
  (17676, "SoftBank Corp.", "JP", "APNIC");
  (2914, "NTT America, Inc.", "US", "ARIN");
  (7018, "AT&T Services, Inc.", "US", "ARIN");
  (1299, "Telia Company AB", "SE", "RIPE");
  (6453, "TATA Communications", "IN", "APNIC");
  (3257, "GTT Communications Inc.", "US", "ARIN")]%N.

Definition add_info (m : gmap N AsnInfo) (x : N * string * string * string) : gmap N AsnInfo :=
  let '(a, org, country, rir) := x in <[a := mk_asn_info a org country rir]> m.

Definition dotted (a b c d : Z) : Ipv4Addr := default (mk_octets (n := 4) [0; 0; 0; 0] I) (octets_of_list [a; b; c; d]).

(** Network, prefix length, origin. *)
Abbreviation Origin := (Ipv4Addr * Z * N)%type.
Definition prefix_of (o : Origin) : Ipv4Prefix := prefix4_new o.1.1 o.1.2 o.2.

Definition embedded_origins : list Origin := [
  (dotted 52 0 0 0, 10, 16509%N); (dotted 54 0 0 0, 8, 16509%N); (dotted 3 0 0 0, 8, 16509%N);
  (dotted 35 192 0 0, 12, 15169%N); (dotted 34 64 0 0, 10, 15169%N); (dotted 40 64 0 0, 10, 8075%N);
  (dotted 20 0 0 0, 8, 8075%N); (dotted 104 16 0 0, 12, 13335%N); (dotted 172 64 0 0, 13, 13335%N);
  (dotted 1 1 1 0, 24, 13335%N); (dotted 167 99 0 0, 16, 14061%N); (dotted 206 189 0 0, 16, 14061%N);
  (dotted 88 198 0 0, 16, 24940%N); (dotted 78 46 0 0, 15, 24940%N); (dotted 51 68 0 0, 16, 16276%N);
  (dotted 51 77 0 0, 16, 16276%N)].

(** [BgpGeoProvider::new]. *)
Definition geo_new : BgpGeoProvider :=
  mk_provider (longest_first (prefix_of <$> embedded_origins)) [] (foldl add_info ∅ embedded_asns) embedded_hosting embedded_vpn.

(** ** Operations *)

Implicit Types (g : BgpGeoProvider) (ip : Ipv4Addr).

Definition add_ipv4_prefix g (net : Ipv4Addr) (len : Z) (origin : N) : BgpGeoProvider :=
  mk_provider (longest_first (ipv4_prefixes g ++ [prefix4_new net len origin])) (ipv6_prefixes g) (asn_info g) (hosting_asns g) (vpn_asns g).
Definition add_hosting_asn g (a : N) : BgpGeoProvider :=
  mk_provider (ipv4_prefixes g) (ipv6_prefixes g) (asn_info g) ({[a]} ∪ hosting_asns g) (vpn_asns g).
Definition add_vpn_asn g (a : N) : BgpGeoProvider :=
  mk_provider (ipv4_prefixes g) (ipv6_prefixes g) (asn_info g) (hosting_asns g) ({[a]} ∪ vpn_asns g).
Definition add_asn_info g (a : N) (org country rir : string) : BgpGeoProvider :=
  mk_provider (ipv4_prefixes g) (ipv6_prefixes g) (add_info (asn_info g) (a, org, country, rir)) (hosting_asns g) (vpn_asns g).

Definition lookup_ipv4_asn g ip : option N :=
  asn <$> List.find (λ p, Z.land (ip_value ip) (mask p) =? network p) (ipv4_prefixes g).

(** The 16-bit segments of an IPv6 address, and its halves. *)
Definition segment (a : Ipv6Addr) (i : nat) : Z := octet a (2 * i) * 256 + octet a (2 * i + 1).
Definition half (a : Ipv6Addr) (i : nat) : Z :=
  Z.lor (Z.lor (Z.lor (Z.shiftl (segment a i) 48) (Z.shiftl (segment a (i + 1)) 32)) (Z.shiftl (segment a (i + 2)) 16)) (segment a (i + 3)).

Definition lookup_ipv6_asn g (a : Ipv6Addr) : option N :=
  match to_ipv4_mapped a with
  | Some ip => lookup_ipv4_asn g ip
  | None => asn6 <$> List.find (λ p, matches p (half a 0) (half a 4)) (ipv6_prefixes g)
  end.

Definition get_asn_country g (a : N) : option string := country <$> asn_info g !! a.
Definition is_hosting_asn g (a : N) : bool := bool_decide (a ∈ hosting_asns g).
Definition is_vpn_asn g (a : N) : bool := bool_decide (a ∈ vpn_asns g).

Definition geo_lookup g (a : Ipv6Addr) : GeoInfo :=
  let found := lookup_ipv6_asn g a in
  mk_geo found (found ≫= get_asn_country g) (from_option (is_hosting_asn g) false found) (from_option (is_vpn_asn g) false found).

Definition geo_stats g : BgpGeoStats :=
  mk_geo_stats (length (ipv4_prefixes g)) (length (ipv6_prefixes g)) (size (asn_info g)) (size (hosting_asns g)) (size (vpn_asns g)).

Inductive GeoOp :=
  | AddPrefix (net : Ipv4Addr) (len : Z) (origin : N)
  | AddHosting (a : N)
  | AddVpn (a : N)
  | AddInfo (a : N) (org country rir : string).

Definition geo_step g (o : GeoOp) : BgpGeoProvider :=
  match o with
  | AddPrefix net len origin => add_ipv4_prefix g net len origin
  | AddHosting a => add_hosting_asn g a
  | AddVpn a => add_vpn_asn g a
  | AddInfo a org country rir => add_asn_info g a org country rir
  end.
Definition geo_run (ops : list GeoOp) : BgpGeoProvider := foldl geo_step geo_new ops.

(** ** A masked address is its prefix *)

Lemma land_mask w x len : 0 ≤ x < 2 ^ w → 0 < len ≤ w →
  Z.land x (mask_of w len) = Z.shiftl (Z.shiftr x (w - len)) (w - len).
Proof.
  intros Hx Hlen. unfold mask_of. rewrite (Z.mod_small (w - len)) by lia. set (k := w - len). assert (0 ≤ k < w) by (unfold k; lia).
  apply Z.bits_inj'. intros n Hn. rewrite Z.land_spec. destruct (Z.lt_ge_cases n w) as [Hw|Hw].
  - rewrite Z.mod_pow2_bits_low by lia. rewrite !Z.shiftl_spec by lia. destruct (Z.lt_ge_cases n k) as [Hk|Hk].
    + rewrite !(Z.testbit_neg_r _ (n - k)) by lia. by rewrite andb_false_r.
    + rewrite Z.ones_spec_low, andb_true_r, Z.shiftr_spec by lia. f_equal. lia.
  - rewrite Z.mod_pow2_bits_high, andb_false_r by lia. rewrite Z.shiftl_spec, Z.shiftr_spec by lia.
    rewrite Z.sub_add, <-(Z.mod_small x (2 ^ w)), Z.mod_pow2_bits_high by lia. done.
Qed.

Lemma ip_value_range ip : 0 ≤ ip_value ip < 2 ^ 32.
Proof. pose proof (be_combine_bound (octets ip) (octets_ok ip)) as H. by rewrite octets_length in H. Qed.

Lemma prefix_covers (o : Origin) ip : 0 ≤ o.1.2 ≤ 32 →
  (Z.land (ip_value ip) (mask (prefix_of o)) =? network (prefix_of o)) = in_block 32 (ip_value ip) (ip_value o.1.1) o.1.2.
Proof.
  destruct o as [[net len] a]. cbn [fst snd]. intros Hlen. unfold prefix_of, prefix4_new, in_block. cbn.
  pose proof (ip_value_range ip) as H1. pose proof (ip_value_range net) as H2.
  destruct (Z.eqb_spec len 0) as [->|Hne].
  - rewrite !Z.land_0_r, !Z.shiftr_div_pow2, !Z.div_small by lia. done.
  - rewrite !land_mask by lia. rewrite !Z.shiftl_mul_pow2 by lia. apply eq_true_iff_eq. rewrite !Z.eqb_eq. split; [|by intros ->].
    apply Z.mul_reg_r. pose proof (Z.pow_pos_nonneg 2 (32 - len)). lia.
Qed.

(** ** The first match of the table is the longest *)

Section longest.
Context {A : Type} (len : A → Z) (f : A → bool).

(** The reference: walk in the order of insertion, keep a longer match. *)
Definition longer (best : option A) (x : A) : option A :=
  if f x then match best with
              | Some b => if len b <? len x then Some x else best
              | None => Some x
              end
  else best.
Definition longest (l : list A) : option A := foldl longer None l.

Definition of_len (n : Z) (l : list A) : list A := List.filter (λ x, len x =? n) l.
Definition best (l : list A) (r : option A) : Prop :=
  match r with
  | None => ∀ x, x ∈ l → f x = false
  | Some b => f b = true ∧ (∀ x, x ∈ l → f x = true → len x ≤ len b) ∧ head (List.filter f (of_len (len b) l)) = Some b
  end.

Lemma of_len_app n l l' : of_len n (l ++ l') = of_len n l ++ of_len n l'.
Proof. apply List.filter_app. Qed.

Lemma best_in l b : best l (Some b) → b ∈ l.
Proof.
  intros (_ & _ & H). apply head_Some_elem_of, elem_of_List_filter in H as [H _]. by apply elem_of_List_filter in H as [H _].
Qed.

Lemma filter_none (P : A → bool) l : (∀ x, x ∈ l → P x = false) → List.filter P l = [].
Proof. induction l as [|x l IH]; intros H; cbn; [done|]. rewrite (H x) by by left. apply IH. intros y Hy. apply H. by right. Qed.

(** A later element that does not match, or not longer, changes nothing. *)
Lemma best_snoc_same l b x : (f x = true → len x ≤ len b) → best l (Some b) → best (l ++ [x]) (Some b).
Proof.
  intros Hx (Hb & Hmax & Hh). split_and!; [done| |].
  - intros y [Hy| ->%list_elem_of_singleton]%elem_of_app; auto.
  - rewrite of_len_app, List.filter_app. by destruct (List.filter f (of_len (len b) l)).
Qed.

(** One longer than all that match becomes the best. *)
Lemma best_snoc_new l x : f x = true → (∀ y, y ∈ l → f y = true → len y < len x) → best (l ++ [x]) (Some x).
Proof.
  intros Hx Hl. split_and!; [done| |].
  - intros y [Hy| ->%list_elem_of_singleton]%elem_of_app Hfy; [|lia]. specialize (Hl y Hy Hfy). lia.
  - rewrite of_len_app, List.filter_app. rewrite (filter_none f).
    + cbn. rewrite Z.eqb_refl. cbn. by rewrite Hx.
    + intros y [Hy Hlen]%elem_of_List_filter. apply not_true_iff_false. intros Hfy. specialize (Hl y Hy Hfy). lia.
Qed.

Lemma longest_best l : best l (longest l).
Proof.
  unfold longest. induction l as [|x l IH] using rev_ind; [by intros y ?%not_elem_of_nil|].
  rewrite foldl_app. cbn. unfold longer at 1. destruct (foldl _ None l) as [b|].
  - destruct (f x) eqn:Hx; [destruct (Z.ltb_spec (len b) (len x))|].
    + apply best_snoc_new; [done|]. intros y Hy Hfy. apply (proj1 (proj2 IH)) in Hy; [lia|done].
    + by apply best_snoc_same.
    + apply best_snoc_same; [congruence|done].
  - destruct (f x) eqn:Hx.
    + apply best_snoc_new; [done|]. intros y Hy Hfy. apply IH in Hy. congruence.
    + intros y [Hy| ->%list_elem_of_singleton]%elem_of_app; auto.
Qed.

Lemma find_best l : StronglySorted (λ x y, len y ≤ len x) l → best l (List.find f l).
Proof.
  induction 1 as [|x l Hl IH Hx]; [by intros y ?%not_elem_of_nil|]. rewrite Forall_forall in Hx. cbn. destruct (f x) eqn:Hfx.
  - split_and!; [done| |]; [intros y [->|Hy]%elem_of_cons _; [lia|auto]|]. unfold of_len. cbn. rewrite Z.eqb_refl. cbn. by rewrite Hfx.
  - destruct (List.find f l) as [b|] eqn:Hb.
    + destruct IH as (Hfb & Hmax & Hh). split_and!; [done| |]; [intros y [->|Hy]%elem_of_cons Hfy; [congruence|auto]|].
      unfold of_len. cbn. destruct (len x =? len b); cbn; by rewrite ?Hfx.
    + intros y [->|Hy]%elem_of_cons; auto.
Qed.

(** Lists with the same elements of each length, in the same order, have the same best element. *)
Lemma best_unique l l' r r' : (∀ n, of_len n l = of_len n l') → best l r → best l' r' → r = r'.
Proof.
  intros Heq. assert (Hin : ∀ x, x ∈ l ↔ x ∈ l').
  { assert (H : ∀ k x, x ∈ k ↔ x ∈ of_len (len x) k) by (intros k x; unfold of_len; rewrite elem_of_List_filter, Z.eqb_refl; naive_solver).
    intros x. rewrite (H l), (H l'). by rewrite Heq. }
  intros Hr Hr'. destruct r as [b|], r' as [b'|]; [| | |done].
  - pose proof (best_in _ _ Hr) as Hb. pose proof (best_in _ _ Hr') as Hb'. destruct Hr as (H1 & H2 & H3), Hr' as (H1' & H2' & H3').
    apply Hin in Hb' as Hb'l. apply Hin in Hb as Hbl. pose proof (H2 _ Hb'l H1'). pose proof (H2' _ Hbl H1).
    assert (len b = len b') as Hlen by lia. rewrite Heq, Hlen, H3' in H3. congruence.
  - pose proof (best_in _ _ Hr) as Hb%Hin. apply Hr' in Hb. destruct Hr as (? & _). congruence.
  - pose proof (best_in _ _ Hr') as Hb%Hin. apply Hr in Hb. destruct Hr' as (? & _). congruence.
Qed.
End longest.

(** ** The table after any operations *)

Definition table_of (l table : list Ipv4Prefix) : Prop :=
  StronglySorted (λ x y, prefix_len y ≤ prefix_len x) table ∧ ∀ n, of_len prefix_len n table = of_len prefix_len n l.

Lemma longest_first_table l table x : (∀ n, of_len prefix_len n table = of_len prefix_len n l) →
  table_of (l ++ x) (longest_first (table ++ x)).
Proof.
  intros H. split.
  - eapply StronglySorted_weaken, sort_sorted. intros a b _ _. unfold key_le. by rewrite reverse_tle, Z_tle.
  - intros n. unfold longest_first, of_len. rewrite sort_stable; [by rewrite !List.filter_app; f_equal; apply H|].
    intros y z Hy%Z.eqb_eq Hz%Z.eqb_eq. by rewrite Hy, Hz.
Qed.

(** The origins a run adds, in order. *)
Definition added (ops : list GeoOp) : list Origin := omap (λ o, match o with AddPrefix net len a => Some (net, len, a) | _ => None end) ops.

Lemma run_table ops : table_of (prefix_of <$> embedded_origins ++ added ops) (ipv4_prefixes (geo_run ops)).
Proof.
  unfold geo_run. induction ops as [|o ops IH] using rev_ind.
  - cbn [foldl added omap list_omap]. rewrite app_nil_r. apply (longest_first_table [] []). done.
  - rewrite foldl_app. unfold added. rewrite omap_app. cbn [foldl]. destruct o; cbn [omap list_omap geo_step]; rewrite ?app_nil_r; try exact IH.
    rewrite app_assoc, fmap_app. apply longest_first_table, IH.
Qed.

Definition origin_covers ip (o : Origin) : bool := in_block 32 (ip_value ip) (ip_value o.1.1) o.1.2.

Lemma longest_fmap {A B} (g : A → B) len f len' f' l :
  (∀ x, x ∈ l → len (g x) = len' x ∧ f (g x) = f' x) → longest len f (g <$> l) = g <$> longest len' f' l.
Proof.
  intros H. unfold longest. assert (Hgen : ∀ best, (∀ b, best = Some b → len (g b) = len' b) →
    foldl (longer len f) (g <$> best) (g <$> l) = g <$> foldl (longer len' f') best l); [|by apply (Hgen None)].
  induction l as [|x l IH]; intros best Hb; cbn; [done|].
  destruct (H x) as [Hlen Hf]; [by left|]. rewrite <-IH; [|intros y Hy; apply H; by right|].
  - f_equal. unfold longer. rewrite Hf. destruct (f' x), best as [b|]; cbn; try done. rewrite Hlen, (Hb b) by done. by destruct (_ <? _).
  - unfold longer. intros b. destruct (f' x); [|apply Hb]. destruct best as [b0|]; [destruct (_ <? _)|]; intros Heq; simplify_eq; auto.
Qed.

(** ** What is known of an AS *)

Definition country_step (a : N) (known : option string) (x : N * string * string * string) : option string :=
  if decide (x.1.1.1 = a) then Some x.1.2 else known.
Definition infos (ops : list GeoOp) : list (N * string * string * string) :=
  omap (λ o, match o with AddInfo a org c r => Some (a, org, c, r) | _ => None end) ops.
Definition hostings (ops : list GeoOp) : list N := omap (λ o, match o with AddHosting a => Some a | _ => None end) ops.
Definition vpns (ops : list GeoOp) : list N := omap (λ o, match o with AddVpn a => Some a | _ => None end) ops.

(** The country in the last entry for an AS, embedded or added. *)
Definition last_country (ops : list GeoOp) (a : N) : option string := foldl (country_step a) None (embedded_asns ++ infos ops).

Lemma country_added m l a : country <$> foldl add_info m l !! a = foldl (country_step a) (country <$> m !! a) l.
Proof.
  revert m. induction l as [|[[[b org] c] r] l IH]; intros m; cbn [foldl]; [done|]. rewrite IH. f_equal.
  unfold add_info, country_step. cbn. destruct (decide (b = a)) as [->|Hne]; [by rewrite lookup_insert_eq|by rewrite lookup_insert_ne].
Qed.

Lemma step_known g o : let g' := geo_step g o in
  asn_info g' = foldl add_info (asn_info g) (infos [o]) ∧ hosting_asns g' = hosting_asns g ∪ list_to_set (hostings [o]) ∧
  vpn_asns g' = vpn_asns g ∪ list_to_set (vpns [o]) ∧ ipv6_prefixes g' = ipv6_prefixes g.
Proof. destruct g, o; cbn; split_and!; try done; set_solver. Qed.

Lemma run_known ops : let g := geo_run ops in
  asn_info g = foldl add_info (asn_info geo_new) (infos ops) ∧ hosting_asns g = embedded_hosting ∪ list_to_set (hostings ops) ∧
  vpn_asns g = embedded_vpn ∪ list_to_set (vpns ops) ∧ ipv6_prefixes g = [].
Proof.
  cbn zeta. unfold geo_run. induction ops as [|o ops (H1 & H2 & H3 & H4)] using rev_ind.
  - split_and!; [done| | |done]; cbn [foldl hostings vpns omap list_omap list_to_set]; symmetry; exact (right_id_L ∅ (∪) _).
  - rewrite foldl_app. destruct (step_known (foldl geo_step geo_new ops) o) as (K1 & K2 & K3 & K4).
    unfold infos, hostings, vpns in *. rewrite !omap_app, !list_to_set_app_L, !(assoc_L (∪)), foldl_app.
    split_and!; [by rewrite <-H1|by rewrite <-H2|by rewrite <-H3|by rewrite <-H4].
Qed.

(** The network of an address as the data say it: the longest block over its IPv4 address, embedded or added, the earliest of
    several of that length; none for an address that is not IPv4. *)
Definition spec_asn (ops : list GeoOp) (a : Ipv6Addr) : option N :=
  ip ← to_ipv4_mapped a; snd <$> longest (λ o : Origin, o.1.2) (origin_covers ip) (embedded_origins ++ added ops).

Lemma lookup_longest ops ip :
  Forall (λ o : Origin, 0 ≤ o.1.2 ≤ 32) (added ops) →
  lookup_ipv4_asn (geo_run ops) ip = snd <$> longest (λ o : Origin, o.1.2) (origin_covers ip) (embedded_origins ++ added ops).
Proof.
  intros Hops. destruct (run_table ops) as [Hs Heq]. unfold lookup_ipv4_asn.
  assert (Hok : ∀ o : Origin, o ∈ embedded_origins ++ added ops → 0 ≤ o.1.2 ≤ 32).
  { rewrite <-Forall_forall. apply Forall_app. split; [|done]. by_decide. }
  rewrite (best_unique prefix_len _ _ _ _ _ Heq (find_best prefix_len _ _ Hs) (longest_best prefix_len _ _)).
  rewrite (longest_fmap prefix_of _ _ (λ o : Origin, o.1.2) (origin_covers ip)).
  - rewrite <-option_fmap_compose. by destruct (longest _ _ _) as [[[? ?] ?]|].
  - intros o Ho. split; [by destruct o as [[? ?] ?]|]. by apply prefix_covers, Hok.
Qed.

(** After any operations whose prefixes have at most 32 bits, an address is attributed to
    the origin of the longest block over it, the earliest of that length, with the country of the last entry for that AS and
    the flags of the sets it is in; the masks, the re-sorted table and its first match compute this reference. *)
Theorem geo_lookup_spec ops (a : Ipv6Addr) :
  Forall (λ o : Origin, 0 ≤ o.1.2 ≤ 32) (added ops) →
  geo_lookup (geo_run ops) a =
    let found := spec_asn ops a in
    mk_geo found (found ≫= last_country ops)
      (from_option (λ n, bool_decide (n ∈ embedded_hosting ∨ n ∈ hostings ops)) false found)
      (from_option (λ n, bool_decide (n ∈ embedded_vpn ∨ n ∈ vpns ops)) false found).
Proof.
  intros Hops. destruct (run_known ops) as (Hinfo & Hhost & Hvpn & H6).
  assert (Hfound : lookup_ipv6_asn (geo_run ops) a = spec_asn ops a).
  { unfold lookup_ipv6_asn, spec_asn. destruct (to_ipv4_mapped a) as [ip|]; [by apply lookup_longest|by rewrite H6]. }
  unfold geo_lookup. rewrite Hfound. cbn zeta. destruct (spec_asn ops a) as [n|]; [|done]. cbn [mbind option_bind from_option]. f_equal.
  - unfold get_asn_country, last_country. rewrite Hinfo, country_added, foldl_app. cbn [geo_new asn_info]. by rewrite country_added.
  - apply bool_decide_ext. by rewrite Hhost, elem_of_union, elem_of_list_to_set.
  - apply bool_decide_ext. by rewrite Hvpn, elem_of_union, elem_of_list_to_set.
Qed.

(** ** At work *)

(** A block of one's own inside an Amazon range, longer than it. *)
Definition local_data : list GeoOp := [AddPrefix (dotted 52 1 2 0) 24 64512; AddHosting 64512; AddInfo 64512 "Example" "NL" "RIPE"].
Definition mapped_ip (ip : Ipv4Addr) : Ipv6Addr := default (mk_octets (n := 16) (replicate 16 0) I) (octets_of_list (mapped_prefix ++ octets ip)).

Lemma geo_witness :
  geo_lookup (geo_run local_data) (mapped_ip (dotted 52 1 2 3)) = mk_geo (Some 64512%N) (Some "NL") true false ∧
  geo_lookup (geo_run local_data) (mapped_ip (dotted 52 1 3 3)) = mk_geo (Some 16509%N) (Some "US") true false.
Proof.
  assert (H : Forall (λ o : Origin, 0 ≤ o.1.2 ≤ 32) (added local_data)) by by_decide.
  split; rewrite (geo_lookup_spec local_data _ H); by vm_compute.
Defined.

(** Nothing ever fills the IPv6 table: no IPv6 network has an owner. *)
Lemma native_ipv6_unknown ops (a : Ipv6Addr) : to_ipv4_mapped a = None → geo_lookup (geo_run ops) a = mk_geo None None false false.
Proof. intros Ha. destruct (run_known ops) as (_ & _ & _ & H6). unfold geo_lookup, lookup_ipv6_asn. by rewrite Ha, H6. Qed.

(** A prefix of 33 bits takes the mask of one of a single bit, and the first
    place: half of all addresses are its origin's. *)
Lemma oversized_prefix_takes_half :
  let g := geo_run [AddPrefix (dotted 1 1 1 0) 33 64512] in
  lookup_ipv4_asn g (dotted 52 1 2 3) = Some 64512%N ∧ lookup_ipv4_asn g (dotted 1 1 1 1) = Some 64512%N ∧
  lookup_ipv4_asn g (dotted 206 189 0 1) = Some 14061%N.
Proof. by vm_compute. Qed.
