(* ===== verification/Address.v ===== *)
(** * Multi-transport addresses

    [MultiAddr] of [src/address.rs] and the textual form of [PeerId]
    ([src/identity/peer_id.rs]).  The transport layer ([saorsa_transport]) and
    the hex codec are libraries: they are the classes [TransportLib] and
    [HexLib], whose fields are the operations the program calls and whose laws
    are what it relies on. *)

From Stdlib Require Import Ascii String.
From stdpp Require Import prelude gmap strings pretty.
From S2P Require Import Prelude Keys Ip.

Local Open Scope Z_scope.

(** ** Strings *)

(** Byte order of Rust's [str]. *)
Definition string_bytes (s : string) : list N :=
  Ascii.N_of_ascii <$> String.list_ascii_of_string s.

#[export] Instance N_of_ascii_inj : Inj (=) (=) Ascii.N_of_ascii.
Proof.
  intros a b Hab. rewrite <- (Ascii.ascii_N_embedding a), <- (Ascii.ascii_N_embedding b).
  by rewrite Hab.
Qed.

Lemma string_bytes_inj s t : string_bytes s = string_bytes t → s = t.
Proof.
  unfold string_bytes. intros H.
  rewrite <- (String.string_of_list_ascii_of_string s), <- (String.string_of_list_ascii_of_string t).
  f_equal. revert H. apply (inj (fmap _)).
Qed.

#[export] Instance string_total_ord : TotalOrd string :=
  inj_total_ord string_bytes string_bytes_inj.

(** [str::rfind] with a pattern string: start of the last occurrence. *)
Fixpoint rfind (pat s : string) : option nat :=
  match s with
  | EmptyString => if String.prefix pat EmptyString then Some O else None
  | String _ s' =>
      match rfind pat s' with
      | Some i => Some (S i)
      | None => if String.prefix pat s then Some O else None
      end
  end.

(** [str::contains] with a character. *)
Fixpoint contains (c : Ascii.ascii) (s : string) : bool :=
  match s with
  | EmptyString => false
  | String c' s' => Ascii.eqb c c' || contains c s'
  end.

(** [&s[..n]] and [&s[n..]]. *)
Fixpoint str_take (n : nat) (s : string) : string :=
  match n, s with
  | S n', String c s' => String c (str_take n' s')
  | _, _ => EmptyString
  end.
Fixpoint str_drop (n : nat) (s : string) : string :=
  match n, s with
  | S n', String _ s' => str_drop n' s'
  | _, _ => s
  end.

(** ** Libraries *)

(** The hex codec: [hex::encode] and [hex::decode]. *)
Class HexLib := {
  hex_encode : list Z → string;
  hex_decode : string → result (list Z) string;
  hex_decode_encode l :
    Forall (λ b, 0 ≤ b < 256) l → hex_decode (hex_encode l) = Ok l;
  hex_decode_bytes s l : hex_decode s = Ok l → Forall (λ b, 0 ≤ b < 256) l;
  hex_encode_no_slash l : contains "/"%char (hex_encode l) = false;
}.

(** The transport layer.  [as_quic] and [as_webrtc_direct] are the two
    patterns the program matches a [TransportAddr] against. *)
Class TransportLib := {
  TransportAddr : Type;
  WebRtcDirectAddr : Type;
  TransportAddr_eq_dec :: EqDecision TransportAddr;
  TransportAddr_countable :: Countable TransportAddr;
  Quic : SocketAddr → TransportAddr;
  Tcp : SocketAddr → TransportAddr;
  WebRtcDirect : WebRtcDirectAddr → TransportAddr;
  as_quic : TransportAddr → option SocketAddr;
  as_webrtc_direct : TransportAddr → option WebRtcDirectAddr;
  as_socket_addr : TransportAddr → option SocketAddr;
  webrtc_socket_addr : WebRtcDirectAddr → SocketAddr;
  webrtc_port : WebRtcDirectAddr → N;
  transport_to_string : TransportAddr → string;
  transport_parse : string → result TransportAddr string;
  as_quic_Some t sa : as_quic t = Some sa ↔ t = Quic sa;
  as_webrtc_Some t w : as_webrtc_direct t = Some w ↔ t = WebRtcDirect w;
  quic_not_webrtc sa : as_webrtc_direct (Quic sa) = None;
  quic_socket sa : as_socket_addr (Quic sa) = Some sa;
  tcp_not_webrtc sa : as_webrtc_direct (Tcp sa) = None;
  tcp_not_quic sa : as_quic (Tcp sa) = None;
  tcp_socket sa : as_socket_addr (Tcp sa) = Some sa;
  webrtc_port_socket w : webrtc_port w = socket_port (webrtc_socket_addr w);
  transport_parse_display t : transport_parse (transport_to_string t) = Ok t;
  transport_display_nonempty t : transport_to_string t ≠ EmptyString;
  transport_display_no_p2p t : rfind "/p2p/" (transport_to_string t) = None;
}.

(** ** Peer identifiers as text *)

Inductive PeerIdParseError :=
  | InvalidHexEncoding (reason : string)
  | InvalidLength (expected actual : nat).

Definition peer_id_error_to_string (e : PeerIdParseError) : string :=
  match e with
  | InvalidHexEncoding reason => "Invalid hex encoding for PeerId: " +:+ reason
  | InvalidLength expected actual =>
      "Invalid PeerId length: expected " +:+ pretty expected +:+ " bytes, got " +:+ pretty actual
  end.

Definition SHORT_HEX_BYTES : nat := 8.

Section peer_id.
Context `{HexLib}.

Definition to_hex (p : PeerId) : string := hex_encode (key_bytes p).

Definition short_hex (p : PeerId) : string := hex_encode (take SHORT_HEX_BYTES (key_bytes p)).

Definition from_hex (s : string) : result PeerId PeerIdParseError :=
  match hex_decode s with
  | Err e => Err (InvalidHexEncoding ("Invalid hex for PeerId: " +:+ e))
  | Ok bytes =>
      if negb (Nat.eqb (length bytes) KEY_LEN)
      then Err (InvalidLength KEY_LEN (length bytes))
      else Ok (key_of_bytes bytes)
  end.
End peer_id.

(** ** MultiAddr *)

Record MultiAddr `{TransportLib} := mk_multiaddr {
  transport : TransportAddr;
  peer_id : option PeerId;
}.

Section multiaddr.
Context `{TL : TransportLib}.

#[export] Instance MultiAddr_eq_dec : EqDecision MultiAddr.
Proof. solve_decision. Defined.

#[export] Instance MultiAddr_countable : Countable MultiAddr.
Proof.
  refine (inj_countable' (λ a, (transport a, peer_id a)) (λ p, mk_multiaddr _ p.1 p.2) _).
  by intros [].
Defined.

Definition multiaddr_new (t : TransportAddr) : MultiAddr :=
  {| transport := t; peer_id := None |}.
Definition quic (sa : SocketAddr) : MultiAddr := multiaddr_new (Quic sa).
Definition tcp (sa : SocketAddr) : MultiAddr := multiaddr_new (Tcp sa).
Definition webrtc_direct (w : WebRtcDirectAddr) : MultiAddr := multiaddr_new (WebRtcDirect w).
Definition with_peer_id (a : MultiAddr) (p : PeerId) : MultiAddr :=
  {| transport := transport a; peer_id := Some p |}.

Definition from_ip_port (ip : IpAddr) (port : N) : MultiAddr := quic (socket_new ip port).
Definition from_ipv4 (ip : Ipv4Addr) (port : N) : MultiAddr := from_ip_port (V4 ip) port.
Definition from_ipv6 (ip : Ipv6Addr) (port : N) : MultiAddr := from_ip_port (V6 ip) port.

Definition webrtc_direct_addr (a : MultiAddr) : option WebRtcDirectAddr :=
  as_webrtc_direct (transport a).
Definition is_webrtc_direct (a : MultiAddr) : bool := bool_decide (is_Some (webrtc_direct_addr a)).
Definition is_quic (a : MultiAddr) : bool := bool_decide (is_Some (as_quic (transport a))).
Definition dialable_socket_addr (a : MultiAddr) : option SocketAddr := as_quic (transport a).

Definition socket_addr (a : MultiAddr) : option SocketAddr :=
  match as_webrtc_direct (transport a) with
  | Some w => Some (webrtc_socket_addr w)
  | None => as_socket_addr (transport a)
  end.

Definition is_storable (a : MultiAddr) : bool :=
  match socket_addr a with
  | None => true
  | Some sa => negb (ip_is_unspecified (socket_ip sa)) && negb (socket_port sa =? 0)%N
  end.

Definition ip (a : MultiAddr) : option IpAddr := socket_ip <$> socket_addr a.

Definition port (a : MultiAddr) : option N :=
  match as_webrtc_direct (transport a) with
  | Some w => Some (webrtc_port w)
  | None => socket_port <$> socket_addr a
  end.

Definition is_ipv4 (a : MultiAddr) : bool := from_option socket_is_ipv4 false (socket_addr a).
Definition is_ipv6 (a : MultiAddr) : bool := from_option socket_is_ipv6 false (socket_addr a).
Definition is_loopback (a : MultiAddr) : bool := from_option ip_is_loopback false (ip a).
Definition is_private (a : MultiAddr) : bool := from_option is_lan_ip false (ip a).

Context `{HL : HexLib}.

Definition to_string (a : MultiAddr) : string :=
  transport_to_string (transport a) +:+
  match peer_id a with
  | Some pid => "/p2p/" +:+ to_hex pid
  | None => EmptyString
  end.

Definition from_str (s : string) : result MultiAddr string :=
  match s with
  | EmptyString => Err "Invalid address format: empty string"
  | _ =>
      match rfind "/p2p/" s with
      | Some p2p_idx =>
          let transport_part := str_take p2p_idx s in
          let peer_hex := str_drop (p2p_idx + 5) s in
          match transport_part with
          | EmptyString =>
              Err "Peer-only addresses (/p2p/<id>) are not yet supported as standalone MultiAddr"
          | _ =>
              if contains "/"%char peer_hex
              then Err ("Unexpected trailing components after peer ID in: " +:+ s)
              else match transport_parse transport_part with
                   | Err e => Err ("Invalid transport address: " +:+ e)
                   | Ok t =>
                       match from_hex peer_hex with
                       | Err e => Err ("Invalid peer ID in address: " +:+ peer_id_error_to_string e)
                       | Ok p => Ok {| transport := t; peer_id := Some p |}
                       end
                   end
          end
      | None =>
          match transport_parse s with
          | Err e => Err ("Invalid address: " +:+ e)
          | Ok t => Ok {| transport := t; peer_id := None |}
          end
      end
  end.
End multiaddr.

(** ** Lemmas on strings *)

Lemma append_cons c (s t : string) : String c s +:+ t = String c (s +:+ t).
Proof. reflexivity. Qed.

Lemma append_nil_r (s : string) : s +:+ EmptyString = s.
Proof. induction s as [|c s IH]; [done|]. rewrite append_cons. f_equal. apply IH. Qed.

Lemma str_take_app s t : str_take (String.length s) (s +:+ t) = s.
Proof. induction s as [|c s IH]; [by destruct t|].
  rewrite append_cons. cbn. f_equal. apply IH. Qed.

Lemma str_drop_app s t n : str_drop (String.length s + n) (s +:+ t) = str_drop n t.
Proof. induction s as [|c s IH]; [done|]. rewrite append_cons. apply IH. Qed.

Lemma str_take_drop n s : str_take n s +:+ str_drop n s = s.
Proof.
  revert s. induction n as [|n IH]; intros [|c s]; simpl; try done.
  change (String c (str_take n s +:+ str_drop n s) = String c s). f_equal. apply IH.
Qed.

Lemma prefix_app p s : String.prefix p s = true ↔ ∃ t, s = p +:+ t.
Proof.
  revert s. induction p as [|c p IH]; intros s.
  - split; [by exists s|]. by destruct s.
  - destruct s as [|c' s]; [split; [done|by intros [? ?]]|]. cbn [String.prefix].
    destruct (ascii_dec c c') as [->|Hne].
    + rewrite IH. split; intros [t Ht]; exists t.
      * by rewrite Ht.
      * by injection Ht.
    + split; [done|]. intros [t Ht]. injection Ht. congruence.
Qed.

Lemma contains_app c s t : contains c (s +:+ t) = contains c s || contains c t.
Proof.
  induction s as [|c' s IH]; [done|]. rewrite append_cons. cbn [contains].
  by rewrite IH, orb_assoc.
Qed.

(** A string without the first character of the pattern has no occurrence. *)
Lemma rfind_absent c p s : contains c s = false → rfind (String c p) s = None.
Proof.
  induction s as [|c' s IH]; [done|]. cbn [contains rfind].
  intros [Hne Hs]%orb_false_iff. rewrite IH by done.
  apply Ascii.eqb_neq in Hne. simpl. by destruct (Ascii.ascii_dec c c').
Qed.

Lemma rfind_app_Some p s t i : rfind p t = Some i → rfind p (s +:+ t) = Some (String.length s + i)%nat.
Proof.
  intros Ht. induction s as [|c s IH]; [done|].
  rewrite append_cons. cbn [rfind]. by rewrite IH.
Qed.

Lemma rfind_split p s i :
  rfind p s = Some i → ∃ t t', s = t +:+ p +:+ t' ∧ String.length t = i.
Proof.
  revert i. induction s as [|c s IH]; intros i; cbn [rfind].
  - destruct (String.prefix p EmptyString) eqn:Hp; [|done].
    intros [= <-]. apply prefix_app in Hp as [t Ht]. by exists EmptyString, t.
  - destruct (rfind p s) as [j|].
    + intros [= <-]. destruct (IH j eq_refl) as (t & t' & -> & <-). by exists (String c t), t'.
    + destruct (String.prefix p (String c s)) eqn:Hp; [|done].
      intros [= <-]. apply prefix_app in Hp as [t Ht]. by exists EmptyString, t.
Qed.

(** The separator the code searches, followed by text without a slash. *)
Lemma rfind_p2p s h :
  contains "/"%char h = false → rfind "/p2p/" (s +:+ "/p2p/" +:+ h) = Some (String.length s).
Proof.
  intros Hh. rewrite <- (Nat.add_0_r (String.length s)). apply rfind_app_Some.
  pose proof (rfind_absent "/"%char "p2p/" h Hh) as Hno.
  change ("/p2p/" +:+ h) with
    (String "/"%char (String "p"%char (String "2"%char (String "p"%char (String "/"%char h))))).
  assert (Hs : String.prefix "/p2p/" (String "/"%char h) = false).
  { destruct (String.prefix "/p2p/" (String "/"%char h)) eqn:Hpre; [|done].
    apply prefix_app in Hpre as [t [= Ht]]. rewrite Ht in Hh.
    by rewrite contains_app in Hh. }
  cbn [rfind]. rewrite Hno, Hs. by destruct h.
Qed.

(** ** Properties of peer identifiers and addresses *)

Section properties.
Context `{TL : TransportLib} `{HL : HexLib}.

Lemma from_hex_to_hex p : from_hex (to_hex p) = Ok p.
Proof.
  unfold from_hex, to_hex. rewrite hex_decode_encode by apply key_bytes_ok.
  rewrite key_length, Nat.eqb_refl. simpl. by rewrite key_of_bytes_id.
Qed.

(** [from_hex] keeps the decoded bytes as they are. *)
Lemma from_hex_Ok s p : from_hex s = Ok p ↔ hex_decode s = Ok (key_bytes p).
Proof.
  unfold from_hex. destruct (hex_decode s) as [bytes|e] eqn:Hs; [|done].
  destruct (Nat.eqb_spec (length bytes) KEY_LEN) as [Hlen|Hlen]; simpl.
  - pose proof (hex_decode_bytes _ _ Hs) as Hok.
    destruct (decide (Is_true (wf_bytes KEY_LEN bytes))) as [Hwf|Hwf].
    + pose proof (key_of_bytes_id (mk_key bytes Hwf)) as Hid. simpl in Hid.
      rewrite Hid. split; intros Heq; [by injection Heq as <-|].
      f_equal. apply key_eq. by injection Heq.
    + destruct Hwf. by apply wf_bytes_spec.
  - split; intros Heq; [done|]. destruct Hlen. injection Heq as ->. apply key_length.
Qed.

(** Parsing the canonical text of an address gives the address back, with
    and without a peer-id suffix, whatever the transport. *)
Theorem multiaddr_roundtrip a : from_str (to_string a) = Ok a.
Proof.
  destruct a as [t [pid|]]; unfold from_str, to_string; simpl.
  - rewrite rfind_p2p by apply hex_encode_no_slash.
    assert (Hd : str_drop (String.length (transport_to_string t) + 5)
      (transport_to_string t +:+ "/p2p/" +:+ to_hex pid) = to_hex pid)
      by (rewrite str_drop_app; by destruct (to_hex pid)).
    rewrite Hd, str_take_app, (hex_encode_no_slash (key_bytes pid) : contains _ (to_hex pid) = _).
    rewrite transport_parse_display, from_hex_to_hex.
    pose proof (transport_display_nonempty t). by destruct (transport_to_string t).
  - rewrite append_nil_r, transport_display_no_p2p, transport_parse_display.
    pose proof (transport_display_nonempty t). by destruct (transport_to_string t).
Qed.

(** What the address parser accepts: the whole input is a transport
    address, or a nonempty transport address, [/p2p/] and a slash-free peer
    identifier, and both parts are the ones of the result. *)
Theorem from_str_sound s a :
  from_str s = Ok a →
  (rfind "/p2p/" s = None ∧ peer_id a = None ∧ transport_parse s = Ok (transport a)) ∨
  (∃ t h p, s = t +:+ "/p2p/" +:+ h ∧ t ≠ EmptyString ∧ contains "/"%char h = false ∧
     transport_parse t = Ok (transport a) ∧ peer_id a = Some p ∧ from_hex h = Ok p).
Proof.
  unfold from_str. destruct s as [|c s0] eqn:Hs; [done|]. rewrite <- Hs. clear c s0 Hs.
  destruct (rfind "/p2p/" s) as [i|] eqn:Hr; [right|left].
  - destruct (rfind_split _ _ _ Hr) as (t & h & -> & <-).
    revert H. rewrite str_take_app, str_drop_app.
    assert (Hz : str_drop 5 ("/p2p/" +:+ h) = h) by (by destruct h). rewrite Hz.
    assert (Ht : t ≠ EmptyString ∨ t = EmptyString) by (destruct t; auto).
    destruct Ht as [Ht| ->]; [|done]. destruct t as [|c t0]; [done|].
    set (t := String c t0) in *. destruct (contains "/"%char h) eqn:Hc; [done|].
    destruct (transport_parse t) as [ta|] eqn:Hp; [|done].
    destruct (from_hex h) as [p|] eqn:Hx; [|done]. intros Heq. simplify_eq.
    exists t, h, p. split_and!; done.
  - destruct (transport_parse s) as [ta|] eqn:Hp; [|done]. by simplify_eq.
Qed.

(** Every address the record filters keep has a usable destination. *)
Lemma is_storable_spec a sa :
  is_storable a = true → socket_addr a = Some sa →
  ip_is_unspecified (socket_ip sa) = false ∧ socket_port sa ≠ 0%N.
Proof.
  unfold is_storable. intros Hs Hsa. rewrite Hsa in Hs. apply andb_true_iff in Hs as [H1 H2].
  apply negb_true_iff in H1, H2. by apply N.eqb_neq in H2.
Qed.

Lemma is_quic_spec a : is_quic a = true ↔ ∃ sa, transport a = Quic sa.
Proof.
  unfold is_quic. rewrite bool_decide_eq_true. split.
  - intros [sa Hsa%as_quic_Some]. eauto.
  - intros [sa ->]. exists sa. by apply as_quic_Some.
Qed.

Lemma is_webrtc_spec a : is_webrtc_direct a = true ↔ ∃ w, transport a = WebRtcDirect w.
Proof.
  unfold is_webrtc_direct, webrtc_direct_addr. rewrite bool_decide_eq_true. split.
  - intros [w Hw%as_webrtc_Some]. eauto.
  - intros [w ->]. exists w. by apply as_webrtc_Some.
Qed.

Lemma quic_webrtc_disjoint a : is_quic a = true → is_webrtc_direct a = false.
Proof.
  intros [sa Hsa]%is_quic_spec. unfold is_webrtc_direct, webrtc_direct_addr.
  rewrite Hsa, quic_not_webrtc. done.
Qed.

(** The port accessor and the socket accessor agree on every transport. *)
Lemma port_socket a : port a = socket_port <$> socket_addr a.
Proof.
  unfold port, socket_addr. destruct (as_webrtc_direct _); [|done].
  simpl. by rewrite webrtc_port_socket.
Qed.

Lemma dialable_is_socket a sa : dialable_socket_addr a = Some sa → socket_addr a = Some sa.
Proof.
  unfold dialable_socket_addr, socket_addr. intros Hq%as_quic_Some. rewrite Hq.
  by rewrite quic_not_webrtc, quic_socket.
Qed.
End properties.
