(* ===== verification/Models.v ===== *)
(** * Concrete models of the libraries

    Executable instances of the library classes: a hex codec (the digits of
    [encode_hex] in [src/dht_lookup.rs]) and a small transport layer with QUIC,
    TCP and WebRTC Direct addresses.  They show that the laws of [HexLib] and
    [TransportLib] hold together, and the witnesses evaluate on them. *)

From Stdlib Require Import Ascii String.
From stdpp Require Import prelude gmap strings.
From S2P Require Import Prelude Keys Ip Address.

Local Open Scope Z_scope.

(** ** Hexadecimal *)

Definition HEX : list ascii := list_ascii_of_string "0123456789abcdef".

Definition hex_digit (v : Z) : ascii := nth (Z.to_nat v) HEX "0"%char.

(** [encode_hex]: two digits per byte, high nibble first. *)
Fixpoint encode_hex (bytes : list Z) : string :=
  match bytes with
  | [] => EmptyString
  | b :: rest =>
      String (hex_digit (Z.shiftr b 4)) (String (hex_digit (Z.land b 15)) (encode_hex rest))
  end.

Definition hex_value (c : ascii) : option Z :=
  Z.of_nat <$> (fst <$> list_find (λ c', c' = c) HEX).

Fixpoint decode_hex (s : string) : result (list Z) string :=
  match s with
  | EmptyString => Ok []
  | String h (String l rest) =>
      match hex_value h, hex_value l, decode_hex rest with
      | Some h, Some l, Ok bytes => Ok (16 * h + l :: bytes)
      | _, _, Err e => Err e
      | _, _, _ => Err "invalid character"
      end
  | String _ EmptyString => Err "odd number of digits"
  end.

Lemma hex_digits_byte b : 0 ≤ b < 256 →
  hex_value (hex_digit (Z.shiftr b 4)) = Some (Z.shiftr b 4) ∧
  hex_value (hex_digit (Z.land b 15)) = Some (Z.land b 15) ∧
  16 * Z.shiftr b 4 + Z.land b 15 = b ∧
  Ascii.eqb "/" (hex_digit (Z.shiftr b 4)) = false ∧
  Ascii.eqb "/" (hex_digit (Z.land b 15)) = false.
Proof.
  intros Hb. eapply bool_decide_eq_true_1. revert b Hb. apply byte_forall. by vm_compute.
Qed.

Lemma hex_digit_no_slash v : Ascii.eqb "/" (hex_digit v) = false.
Proof.
  unfold hex_digit. destruct (nth_in_or_default (Z.to_nat v) HEX "0"%char) as [Hin| ->]; [|done].
  assert (Hall : forallb (λ c, negb (Ascii.eqb "/" c)) HEX = true) by done.
  rewrite forallb_forall in Hall. apply negb_true_iff, Hall, Hin.
Qed.

Lemma decode_encode_hex l : Forall (λ b, 0 ≤ b < 256) l → decode_hex (encode_hex l) = Ok l.
Proof.
  induction 1 as [|b l Hb Hl IH]; [done|]. cbn [encode_hex decode_hex].
  destruct (hex_digits_byte b Hb) as (-> & -> & Hsum & _). by rewrite IH, Hsum.
Qed.

Lemma hex_value_range c v : hex_value c = Some v → 0 ≤ v < 16.
Proof.
  unfold hex_value. destruct (list_find _ HEX) as [[i c']|] eqn:Hf; simpl; [|done].
  intros [= <-]. apply list_find_Some in Hf as [Hi%lookup_lt_Some _].
  change (length HEX) with 16%nat in Hi. lia.
Qed.

Lemma decode_hex_bytes s l : decode_hex s = Ok l → Forall (λ b, 0 ≤ b < 256) l.
Proof.
  revert l. induction s as [s IH] using (induction_ltof1 _ String.length).
  intros l. destruct s as [|h [|d s]]; cbn [decode_hex]; [by intros [= <-]|done|].
  destruct (hex_value h) as [vh|] eqn:Hh; [|by destruct (decode_hex s)].
  destruct (hex_value d) as [vd|] eqn:Hd; [|by destruct (decode_hex s)].
  destruct (decode_hex s) as [l'|] eqn:Hs; [|done]. intros [= <-].
  apply hex_value_range in Hh, Hd. constructor; [lia|].
  apply (IH s); [unfold ltof; simpl; lia|done].
Qed.

Lemma encode_hex_no_slash l : contains "/" (encode_hex l) = false.
Proof.
  induction l as [|b l IH]; [done|]. cbn [encode_hex contains].
  by rewrite !hex_digit_no_slash, IH.
Qed.

Definition plain_hex : HexLib := {|
  hex_encode := encode_hex;
  hex_decode := decode_hex;
  hex_decode_encode := decode_encode_hex;
  hex_decode_bytes := decode_hex_bytes;
  hex_encode_no_slash := encode_hex_no_slash;
|}.

(** ** A transport layer *)

Inductive PlainTransport :=
  | PQuic (sa : SocketAddr)
  | PTcp (sa : SocketAddr)
  | PWebRtc (sa : SocketAddr) (certhash : N)
  | PBluetooth (channel : N).

#[export] Instance PlainTransport_eq_dec : EqDecision PlainTransport.
Proof. solve_decision. Defined.

#[export] Instance PlainTransport_countable : Countable PlainTransport.
Proof.
  refine (inj_countable'
    (λ t, match t with
          | PQuic sa => inl (inl sa) | PTcp sa => inl (inr sa)
          | PWebRtc sa h => inr (inl (sa, h)) | PBluetooth c => inr (inr c) end)
    (λ x, match x with
          | inl (inl sa) => PQuic sa | inl (inr sa) => PTcp sa
          | inr (inl (sa, h)) => PWebRtc sa h | inr (inr c) => PBluetooth c end) _).
  by intros [].
Defined.

(** The textual form: a scheme and the bits of the address's code. *)
Fixpoint bits (p : positive) : string :=
  match p with
  | xH => EmptyString
  | xO p => String "0"%char (bits p)
  | xI p => String "1"%char (bits p)
  end.

Fixpoint parse_bits (s : string) : option positive :=
  match s with
  | EmptyString => Some xH
  | String "0"%char s => xO <$> parse_bits s
  | String "1"%char s => xI <$> parse_bits s
  | _ => None
  end.

Lemma parse_bits_bits p : parse_bits (bits p) = Some p.
Proof. induction p as [p IH|p IH|]; simpl; rewrite ?IH; done. Qed.

Lemma bits_no_slash p : contains "/" (bits p) = false.
Proof. induction p; done. Qed.

Definition plain_to_string (t : PlainTransport) : string := "/" +:+ bits (encode t).

Definition plain_parse (s : string) : result PlainTransport string :=
  match s with
  | String "/"%char s =>
      match parse_bits s ≫= decode with
      | Some t => Ok t
      | None => Err "malformed address"
      end
  | _ => Err "unknown scheme"
  end.

Lemma plain_parse_to_string t : plain_parse (plain_to_string t) = Ok t.
Proof.
  change (plain_to_string t) with (String "/"%char (bits (encode t))). cbn [plain_parse].
  rewrite parse_bits_bits. cbn [mbind option_bind]. by rewrite decode_encode.
Qed.

Definition plain_transport : TransportLib.
Proof.
  refine {|
    TransportAddr := PlainTransport;
    WebRtcDirectAddr := SocketAddr * N;
    Quic := PQuic;
    Tcp := PTcp;
    WebRtcDirect w := PWebRtc w.1 w.2;
    as_quic t := match t with PQuic sa => Some sa | _ => None end;
    as_webrtc_direct t := match t with PWebRtc sa h => Some (sa, h) | _ => None end;
    as_socket_addr t :=
      match t with PQuic sa | PTcp sa | PWebRtc sa _ => Some sa | PBluetooth _ => None end;
    webrtc_socket_addr w := w.1;
    webrtc_port w := socket_port w.1;
    transport_to_string := plain_to_string;
    transport_parse := plain_parse;
  |}; try done.
  - intros [] sa0; split; intros; by simplify_eq.
  - intros [] [sa0 h0]; split; intros; by simplify_eq/=.
  - apply plain_parse_to_string.
  - intros t. change (plain_to_string t) with (String "/"%char (bits (encode t))). cbn [rfind].
    rewrite rfind_absent by apply bits_no_slash.
    destruct (String.prefix "/p2p/" (String "/"%char (bits (encode t)))) eqn:Hp; [|done].
    exfalso. apply prefix_app in Hp as [s Hs].
    assert (Hb : bits (encode t) = "p2p/" +:+ s) by (by injection Hs).
    pose proof (bits_no_slash (encode t)) as Hno. rewrite Hb in Hno. done.
Defined.

(** ** Addresses for examples *)

Definition ipv4 (a b c d : Z) : Ipv4Addr :=
  default (mk_octets (n := 4) [0; 0; 0; 0] I) (octets_of_list [a; b; c; d]).
Definition ipv6 (l : list Z) : Ipv6Addr :=
  default (mk_octets (n := 16) (replicate 16 0) I) (octets_of_list l).
