(* ===== verification/PeerRecord.v ===== *)
(** * Peer records

    The DHT record of a peer, [DHTNode] of [src/peer_record.rs], with the
    address types and the owner provenance it carries: the wire records of
    [src/transport_address.rs] and the signed publications of
    [src/signed_address.rs] (data here, operations in [SignedAddress]). *)

From Stdlib Require Import SpecFloat.
From stdpp Require Import prelude sorting gmap strings.
From S2P Require Import Prelude Float Keys Lookup Ip Address.

(** ** Address types *)

Inductive AddressType := Relay | Direct | Unverified | Lan.

#[export] Instance AddressType_eq_dec : EqDecision AddressType.
Proof. solve_decision. Defined.

(** A [u8], smaller is preferred. *)
Definition priority (t : AddressType) : N :=
  match t with Relay => 0 | Direct => 1 | Unverified => 2 | Lan => 3 end.

#[export] Instance priority_inj : Inj (=) (=) priority.
Proof. by intros [] []. Qed.

(** ** Wire records and owner provenance *)

Record TransportAddressRecord := mk_record {
  record_transport : N;
  record_reachability : N;
  record_address : list Z;
}.

#[export] Instance TransportAddressRecord_eq_dec : EqDecision TransportAddressRecord.
Proof. solve_decision. Defined.

Inductive KnownTransport := KQuic | KWebRtcDirect.

Definition QUIC_ID : N := 1.
Definition WEBRTC_DIRECT_ID : N := 2.

Definition transport_id (t : KnownTransport) : N :=
  match t with KQuic => QUIC_ID | KWebRtcDirect => WEBRTC_DIRECT_ID end.

Record SignedAddressRecord := mk_signed {
  owner : PeerId;
  signed_sequence : N;
  signed_records : list TransportAddressRecord;
  public_key : list Z;
  signature : list Z;
}.

#[export] Instance SignedAddressRecord_eq_dec : EqDecision SignedAddressRecord.
Proof. solve_decision. Defined.

Record VerifiedAddressRecord := mk_verified { signed : SignedAddressRecord }.

Definition verified_owner (v : VerifiedAddressRecord) : PeerId := owner (signed v).
Definition verified_sequence (v : VerifiedAddressRecord) : N := signed_sequence (signed v).
Definition verified_records (v : VerifiedAddressRecord) : list TransportAddressRecord :=
  signed_records (signed v).

Inductive AddressAuthority :=
  | AuthenticatedOwner (seq : N)
  | Signed (record : VerifiedAddressRecord).

Definition authority_sequence (a : AddressAuthority) : N :=
  match a with
  | AuthenticatedOwner seq => seq
  | Signed record => verified_sequence record
  end.

Definition quic_sequence (a : AddressAuthority) : N :=
  match a with
  | AuthenticatedOwner seq => seq
  | Signed record =>
      if existsb (λ r, N.eqb (record_transport r) (transport_id KQuic)) (verified_records record)
      then verified_sequence record else 0
  end.

Definition publication (a : AddressAuthority) : option VerifiedAddressRecord :=
  match a with
  | AuthenticatedOwner _ => None
  | Signed record => Some record
  end.

(** ** DHT nodes *)

Record DHTNode `{TransportLib} := mk_dht_node {
  node_peer_id : PeerId;
  addresses : list MultiAddr;
  address_types : list AddressType;
  distance : option (list Z);
  reliability : spec_float;
  address_authority : option AddressAuthority;
}.

#[export] Instance VerifiedAddressRecord_eq_dec : EqDecision VerifiedAddressRecord.
Proof. solve_decision. Defined.
#[export] Instance AddressAuthority_eq_dec : EqDecision AddressAuthority.
Proof. solve_decision. Defined.
#[export] Instance DHTNode_eq_dec `{TransportLib} : EqDecision DHTNode.
Proof. solve_decision. Defined.

Definition PUBLISH_SEQ_DISTANCE_MARKER : list Z := [80; 85; 66; 83; 69; 81; 48; 49]%Z.

(** [u64::to_be_bytes] and [u64::from_be_bytes]. *)
Definition u64_to_be_bytes (n : N) : list Z :=
  (λ i, (Z.of_N n / 2 ^ (8 * i)) mod 256)%Z <$> [7; 6; 5; 4; 3; 2; 1; 0]%Z.
Definition u64_from_be_bytes (l : list Z) : N := Z.to_N (be_combine l).

Definition encode_publish_seq_distance (seq : N) : option (list Z) :=
  if (seq =? 0)%N then None
  else Some (PUBLISH_SEQ_DISTANCE_MARKER ++ u64_to_be_bytes seq).

Section dht_node.
Context `{TL : TransportLib}.
Implicit Types n other : DHTNode.

#[export] Instance dht_lookup_node : Lookup.LookupNode DHTNode := node_peer_id.

Definition for_advertised_address (addr : MultiAddr) (advertised : AddressType) : AddressType :=
  if from_option is_lan_ip false (ip addr) then Lan else advertised.

Definition typed_addresses n : list (MultiAddr * AddressType) :=
  imap (λ i addr,
    let advertised := default Unverified (address_types n !! i) in
    (addr, for_advertised_address addr advertised)) (addresses n).

Definition typed_addresses_by_priority n : list (MultiAddr * AddressType) :=
  sort_by_key (λ p, priority p.2) (typed_addresses n).

Definition addresses_by_priority n : list MultiAddr := fst <$> typed_addresses_by_priority n.

Definition type_label (t : AddressType) : string :=
  match t with
  | Relay => "relay" | Direct => "direct" | Unverified => "unverified" | Lan => "lan"
  end.

Definition address_and_type_labels_by_priority n : list (MultiAddr * string) :=
  (λ p, (p.1, type_label p.2)) <$> typed_addresses_by_priority n.

Definition address_type_labels_by_priority n : list string :=
  snd <$> address_and_type_labels_by_priority n.

Definition dht_node_publish_seq n : N := from_option authority_sequence 0%N (address_authority n).

Definition publisher_address_set_unix_ns n : option N :=
  let seq := dht_node_publish_seq n in
  if (seq =? 0)%N then None else Some seq.

Definition advertised_publish_seq n : N :=
  match distance n with
  | None => 0
  | Some d =>
      if negb (Nat.eqb (length d) (length PUBLISH_SEQ_DISTANCE_MARKER + 8))
         || negb (bool_decide (take (length PUBLISH_SEQ_DISTANCE_MARKER) d = PUBLISH_SEQ_DISTANCE_MARKER))
      then 0
      else u64_from_be_bytes (drop (length PUBLISH_SEQ_DISTANCE_MARKER) d)
  end.

(** The sequence of the signed publication a node carries, 0 without one. *)
Definition publication_sequence n : N :=
  from_option verified_sequence 0%N (address_authority n ≫= publication).

Definition merge_owner_views n other : DHTNode :=
  let current_v2 := publication_sequence n in
  let other_v2 := publication_sequence other in
  let replace :=
    if negb (current_v2 =? 0)%N || negb (other_v2 =? 0)%N
    then (current_v2 <? other_v2)%N
    else (dht_node_publish_seq n <? dht_node_publish_seq other)%N in
  if replace then other else n.

(** The padding and the retagging loop at the head of [merge_from]. *)
Definition pad_types (addrs : list MultiAddr) (types : list AddressType) : list AddressType :=
  types ++ replicate (length addrs - length types) Unverified.

Fixpoint retag (addrs : list MultiAddr) (types : list AddressType) : list AddressType :=
  match addrs, types with
  | a :: addrs', t :: types' => for_advertised_address a t :: retag addrs' types'
  | _, _ => types
  end.

(** One iteration of the loop over the other record's addresses. *)
Definition merge_typed (acc : list MultiAddr * list AddressType) (p : MultiAddr * AddressType)
    : list MultiAddr * list AddressType :=
  let '(addrs, types) := acc in
  let '(addr, ty) := p in
  match position (λ a, bool_decide (a = addr)) addrs with
  | Some pos =>
      match types !! pos with
      | Some old => if (priority ty <? priority old)%N then (addrs, <[pos := ty]> types) else (addrs, types)
      | None => (addrs, types)
      end
  | None => (addrs ++ [addr], types ++ [ty])
  end.

Definition merge_from n other : DHTNode :=
  if negb (bool_decide (node_peer_id n = node_peer_id other)) then n
  else
    let current_seq := dht_node_publish_seq n in
    let other_seq := dht_node_publish_seq other in
    if negb (current_seq =? 0)%N || negb (other_seq =? 0)%N then merge_owner_views n other
    else
      let types := retag (addresses n) (pad_types (addresses n) (address_types n)) in
      let '(addrs, types) := foldl merge_typed (addresses n, types) (typed_addresses other) in
      let pairs := sort_by_key (λ p, priority p.2) (zip addrs types) in
      let publish_seq := N.max current_seq other_seq in
      {| node_peer_id := node_peer_id n;
         addresses := fst <$> pairs;
         address_types := snd <$> pairs;
         distance := if negb (publish_seq =? 0)%N then encode_publish_seq_distance publish_seq
                     else distance n;
         reliability := if SFltb (reliability n) (reliability other)
                        then reliability other else reliability n;
         address_authority := address_authority n |}.
End dht_node.

(** ** Lemmas *)

Lemma u64_to_be_bytes_ok n : Forall (λ b, 0 ≤ b < 256)%Z (u64_to_be_bytes n).
Proof.
  unfold u64_to_be_bytes. apply Forall_fmap, Forall_true. intros i. apply Z.mod_pos_bound. lia.
Qed.

Lemma be_combine_to_bytes z l :
  (0 ≤ z)%Z →
  be_combine ((λ i, (z / 2 ^ (8 * i)) mod 256)%Z <$> (Z.of_nat <$> reverse (seq 0 l))) =
  (z mod 2 ^ (8 * Z.of_nat l))%Z.
Proof.
  intros Hz. induction l as [|l IH]; [by rewrite Z.mod_1_r|].
  rewrite seq_S, reverse_app. cbn [reverse app]. rewrite Nat.add_0_l.
  change (reverse [l]) with [l]. cbn [app fmap list_fmap be_combine].
  rewrite IH, !length_fmap, length_reverse, length_seq.
  replace (8 * Z.of_nat (S l))%Z with (8 * Z.of_nat l + 8)%Z by lia.
  rewrite Z.pow_add_r, Z.rem_mul_r by lia. change (2 ^ 8)%Z with 256%Z. lia.
Qed.

Lemma u64_from_to n : (n < 2 ^ 64)%N → u64_from_be_bytes (u64_to_be_bytes n) = n.
Proof.
  intros Hn. unfold u64_from_be_bytes, u64_to_be_bytes.
  change [7; 6; 5; 4; 3; 2; 1; 0]%Z with (Z.of_nat <$> reverse (seq 0 8)).
  rewrite be_combine_to_bytes by lia. rewrite Z.mod_small; lia.
Qed.

Section properties.
Context `{TL : TransportLib}.
Implicit Types n other : DHTNode.

Lemma typed_addresses_fst n : fst <$> typed_addresses n = addresses n.
Proof.
  unfold typed_addresses. rewrite fmap_imap. rewrite <- (list_fmap_id (addresses n)) at 2.
  rewrite <- imap_const. apply imap_ext. done.
Qed.

Lemma typed_addresses_lookup n i a t :
  typed_addresses n !! i = Some (a, t) ↔
  addresses n !! i = Some a ∧
  t = for_advertised_address a (default Unverified (address_types n !! i)).
Proof.
  unfold typed_addresses. rewrite list_lookup_imap.
  destruct (addresses n !! i) as [a'|]; simpl; naive_solver.
Qed.

Lemma for_advertised_lan a t :
  from_option is_lan_ip false (ip a) = true → for_advertised_address a t = Lan.
Proof. unfold for_advertised_address. by intros ->. Qed.

Lemma for_advertised_idemp a t :
  for_advertised_address a (for_advertised_address a t) = for_advertised_address a t.
Proof. unfold for_advertised_address. by destruct (from_option _ _ _). Qed.

Lemma for_advertised_weaker a t : (priority t ≤ priority (for_advertised_address a t))%N.
Proof.
  unfold for_advertised_address. destruct (from_option _ _ _); [|lia]. destruct t; simpl; lia.
Qed.

(** The dial list of a record is a stable reordering of its addresses:
    it has exactly the record's addresses, relays come before direct,
    unverified and local ones, the publisher's order is kept inside a tier,
    and a local-scope address is in the local tier whatever was advertised. *)
Theorem addresses_by_priority_spec n :
  typed_addresses_by_priority n ≡ₚ typed_addresses n ∧
  addresses_by_priority n ≡ₚ addresses n ∧
  StronglySorted (λ p q, (priority p.2 ≤ priority q.2)%N) (typed_addresses_by_priority n) ∧
  (∀ t, List.filter (λ p, bool_decide (p.2 = t)) (typed_addresses_by_priority n) =
        List.filter (λ p, bool_decide (p.2 = t)) (typed_addresses n)) ∧
  (∀ a t, (a, t) ∈ typed_addresses_by_priority n →
     from_option is_lan_ip false (ip a) = true → t = Lan).
Proof.
  unfold addresses_by_priority, typed_addresses_by_priority. split_and!.
  - apply sort_perm.
  - rewrite sort_perm. by rewrite typed_addresses_fst.
  - eapply StronglySorted_weaken; [|apply sort_sorted]. intros p q _ _ Hpq. by apply N_tle.
  - intros t. apply sort_stable. intros y z Hy Hz.
    apply bool_decide_eq_true in Hy, Hz. congruence.
  - intros a t. rewrite elem_of_sort. intros [i Hi]%list_elem_of_lookup Hlan.
    apply typed_addresses_lookup in Hi as [_ ->]. by apply for_advertised_lan.
Qed.

(** The wire form of a publish sequence is faithful: what
    [encode_publish_seq_distance] writes is what [advertised_publish_seq]
    reads, for every [u64] (0 means no sequence), and a field that is not
    marked as a sequence reads as 0. *)
Theorem publish_seq_roundtrip n seq :
  (seq < 2 ^ 64)%N →
  (distance n = encode_publish_seq_distance seq → advertised_publish_seq n = seq) ∧
  (∀ d, distance n = Some d → take 8 d ≠ PUBLISH_SEQ_DISTANCE_MARKER → advertised_publish_seq n = 0%N).
Proof.
  intros Hseq. unfold advertised_publish_seq, encode_publish_seq_distance. split.
  - intros ->. destruct (N.eqb_spec seq 0) as [->|Hne]; [done|].
    rewrite length_app. unfold u64_to_be_bytes at 1. rewrite length_fmap. simpl length.
    rewrite take_app_length', drop_app_length', bool_decide_eq_true_2 by done.
    simpl. by apply u64_from_to.
  - intros d -> Hd. rewrite (bool_decide_eq_false_2 (take _ d = _)) by done.
    by rewrite orb_true_r.
Qed.

(** *** Merging *)

Lemma retag_length addrs types : length (retag addrs types) = length types.
Proof.
  revert types. induction addrs as [|a addrs IH]; intros [|t types]; simpl; auto.
Qed.

Lemma retag_lookup addrs types i a :
  addrs !! i = Some a → retag addrs types !! i = for_advertised_address a <$> types !! i.
Proof.
  revert types i. induction addrs as [|a' addrs IH]; intros [|t types] [|i]; simpl; try done.
  - intros [= ->]. done.
  - apply IH.
Qed.

Lemma pad_types_lookup addrs types i :
  i < length addrs → pad_types addrs types !! i = Some (default Unverified (types !! i)).
Proof.
  intros Hi. unfold pad_types. destruct (types !! i) as [t|] eqn:Ht; simpl.
  - by apply lookup_app_l_Some.
  - apply lookup_ge_None in Ht. rewrite lookup_app_r by done.
    apply lookup_replicate_2. lia.
Qed.

(** The tags a record starts the merge with are the ones [typed_addresses]
    shows, whenever it has no more tags than addresses. *)
Lemma retagged_typed n :
  length (address_types n) ≤ length (addresses n) →
  let types := retag (addresses n) (pad_types (addresses n) (address_types n)) in
  length types = length (addresses n) ∧
  ∀ i a t, addresses n !! i = Some a → types !! i = Some t → typed_addresses n !! i = Some (a, t).
Proof.
  intros Hlen types. split.
  - unfold types. rewrite retag_length. unfold pad_types. rewrite length_app, length_replicate. lia.
  - intros i a t Ha. unfold types. rewrite (retag_lookup _ _ _ _ Ha), pad_types_lookup
      by (by eapply lookup_lt_Some). simpl. intros [= <-]. by apply typed_addresses_lookup.
Qed.

(** What the accumulated addresses and tags mean after the pairs [seen]. *)
Record merge_inv (addrs : list MultiAddr) (types : list AddressType)
    (seen : list (MultiAddr * AddressType)) : Prop := {
  merge_len : length types = length addrs;
  merge_nodup : NoDup addrs;
  merge_dom a : a ∈ addrs ↔ a ∈ fst <$> seen;
  merge_best i a t : addrs !! i = Some a → types !! i = Some t →
    (a, t) ∈ seen ∧ ∀ t', (a, t') ∈ seen → (priority t ≤ priority t')%N;
}.

Lemma merge_typed_inv addrs types seen p :
  merge_inv addrs types seen →
  let r := merge_typed (addrs, types) p in merge_inv r.1 r.2 (seen ++ [p]).
Proof.
  intros [Hlen Hnd Hdom Hbest]. destruct p as [addr ty]. unfold merge_typed.
  destruct (position _ addrs) as [pos|] eqn:Hpos.
  - apply position_Some in Hpos as (a & Ha & Heq%bool_decide_eq_true & _). subst a.
    destruct (lookup_lt_is_Some_2 types pos) as [old Hold].
    { rewrite Hlen. by eapply lookup_lt_Some. }
    destruct (Hbest pos addr old Ha Hold) as [Hin Hmin]. rewrite Hold.
    assert (Hdom' : ∀ a, a ∈ addrs ↔ a ∈ fst <$> seen ++ [(addr, ty)]).
    { intros a. rewrite fmap_app, elem_of_app, <- Hdom. simpl.
      rewrite list_elem_of_singleton. split; [auto|]. intros [?| ->]; [done|].
      by eapply list_elem_of_lookup_2. }
    destruct (N.ltb_spec (priority ty) (priority old)) as [Hlt|Hge]; simpl.
    + constructor; [by rewrite length_insert|done|done|].
      intros i a t Hi. destruct (decide (i = pos)) as [->|Hne].
      * rewrite list_lookup_insert_eq by (by eapply lookup_lt_Some).
        intros [= <-]. assert (a = addr) as -> by congruence. split; [set_solver|].
        intros t' [Ht'| [= ->]%list_elem_of_singleton]%elem_of_app; [|lia].
        etrans; [apply N.lt_le_incl, Hlt|by apply Hmin].
      * rewrite list_lookup_insert_ne by done. intros Ht.
        destruct (Hbest i a t Hi Ht) as [? Hm]. split; [set_solver|].
        intros t' [?|[= -> _]%list_elem_of_singleton]%elem_of_app; [by apply Hm|].
        destruct Hne. by eapply NoDup_lookup.
    + constructor; [done..|]. intros i a t Hi Ht.
      destruct (Hbest i a t Hi Ht) as [? Hm]. split; [set_solver|].
      intros t' [?|[= -> ->]%list_elem_of_singleton]%elem_of_app; [by apply Hm|].
      assert (i = pos) as -> by (by eapply NoDup_lookup). congruence.
  - rewrite position_None in Hpos.
    assert (Hni : addr ∉ addrs).
    { intros Hin. apply Hpos in Hin. by apply bool_decide_eq_false in Hin. }
    simpl. constructor.
    + rewrite !length_app. simpl. lia.
    + apply NoDup_app. split_and!; [done| |apply NoDup_singleton]. set_solver.
    + intros a. rewrite fmap_app, !elem_of_app, <- Hdom. simpl. done.
    + intros i a t [Hi|[Hge Hi]]%lookup_app_Some [Ht|[Hge' Ht]]%lookup_app_Some.
      * destruct (Hbest i a t Hi Ht) as [? Hm]. split; [set_solver|].
        intros t' [?|[= -> _]%list_elem_of_singleton]%elem_of_app; [by apply Hm|].
        destruct Hni. by eapply list_elem_of_lookup_2.
      * apply lookup_lt_Some in Hi. lia.
      * apply lookup_lt_Some in Ht. lia.
      * apply list_lookup_singleton_Some in Hi as [_ <-], Ht as [_ <-].
        split; [set_solver|]. intros t' [Hs|[= ->]%list_elem_of_singleton]%elem_of_app; [|lia].
        destruct Hni. rewrite Hdom. by apply (list_elem_of_fmap_2 fst) in Hs.
Qed.

Lemma merge_all_inv l addrs types seen :
  merge_inv addrs types seen →
  let r := foldl merge_typed (addrs, types) l in merge_inv r.1 r.2 (seen ++ l).
Proof.
  revert addrs types seen. induction l as [|p l IH]; intros addrs types seen Hinv.
  - by rewrite app_nil_r.
  - pose proof (merge_typed_inv _ _ _ p Hinv) as Hp. cbn [foldl].
    destruct (merge_typed (addrs, types) p) as [addrs' types'].
    rewrite cons_middle, app_assoc. by apply IH.
Qed.

(** Merging two unsequenced views of a peer: the result has exactly the
    addresses of both, each once, and each carries the strongest tag any of
    the two views shows for it; the list is sorted by tier and aligned with
    its tags, and the peer and its authority are unchanged. *)
Theorem merge_from_unsequenced n other :
  node_peer_id n = node_peer_id other →
  dht_node_publish_seq n = 0%N → dht_node_publish_seq other = 0%N →
  length (address_types n) ≤ length (addresses n) → NoDup (addresses n) →
  let r := merge_from n other in
  let pairs := zip (addresses r) (address_types r) in
  node_peer_id r = node_peer_id n ∧ address_authority r = address_authority n ∧
  length (address_types r) = length (addresses r) ∧
  NoDup (addresses r) ∧
  (∀ a, a ∈ addresses r ↔ a ∈ addresses n ∨ a ∈ addresses other) ∧
  StronglySorted (λ p q, (priority p.2 ≤ priority q.2)%N) pairs ∧
  (∀ a t, (a, t) ∈ pairs →
     (a, t) ∈ typed_addresses n ++ typed_addresses other ∧
     ∀ t', (a, t') ∈ typed_addresses n ++ typed_addresses other → (priority t ≤ priority t')%N).
Proof.
  intros Hid Hn Ho Hal Hnd. unfold merge_from.
  rewrite bool_decide_eq_true_2, Hn, Ho by done. cbn -[merge_typed].
  destruct (retagged_typed n Hal) as [Hlen Hty]. set (types := retag _ _) in *.
  assert (Hinv : merge_inv (addresses n) types (typed_addresses n)).
  { constructor; [done|done| |].
    - intros a. by rewrite typed_addresses_fst.
    - intros i a t Ha Ht. pose proof (Hty i a t Ha Ht) as Hi. split; [by eapply list_elem_of_lookup_2|].
      intros t' [j Hj]%list_elem_of_lookup. pose proof Hj as Hj'.
      apply typed_addresses_lookup in Hj' as [Haj _].
      assert (i = j) as <- by (by eapply NoDup_lookup). rewrite Hi in Hj. by simplify_eq. }
  apply (merge_all_inv (typed_addresses other)) in Hinv. cbn in Hinv.
  destruct (foldl merge_typed _ _) as [addrs types'] eqn:Hf. cbn in *.
  destruct Hinv as [Hl Hnd' Hdom Hbest].
  set (pairs := sort_by_key (λ p, priority p.2) (zip addrs types')).
  assert (Hzip : zip (fst <$> pairs) (snd <$> pairs) = pairs) by apply zip_fst_snd.
  assert (Hfst : fst <$> pairs ≡ₚ addrs).
  { unfold pairs. rewrite sort_perm. by rewrite fst_zip by lia. }
  split_and!; [done..| | | | |].
  - by rewrite !length_fmap.
  - by rewrite Hfst.
  - intros a. rewrite Hfst, Hdom, fmap_app, elem_of_app. by rewrite !typed_addresses_fst.
  - rewrite Hzip. eapply StronglySorted_weaken; [|apply sort_sorted].
    intros p q _ _ Hpq. by apply N_tle.
  - rewrite Hzip. intros a t. unfold pairs. rewrite elem_of_sort.
    intros [i Hi]%list_elem_of_lookup. apply lookup_zip_with_Some in Hi as (a' & t' & [= <- <-] & Ha & Ht).
    by eapply Hbest.
Qed.
End properties.
