(* ===== verification/SelfAddress.v ===== *)
(** * The node's own addresses

    [ExternalAddresses] of [src/transport/external_addresses.rs], the pinned
    direct, unverified and relay addresses a node has learnt for itself, and
    [build_self_address_set] of [src/self_address.rs], the policy that picks
    the few of them worth publishing.  [normalize_socket_addr] belongs to the
    transport crate and is a parameter; nothing is assumed of it. *)

From stdpp Require Import prelude sorting.
From S2P Require Import Prelude Ip Address PeerRecord.

(** ** External addresses *)

Definition MAX_DIRECT_ADDRESSES : nat := 16.
Definition MAX_UNVERIFIED_ADDRESSES : nat := 16.

Record ExternalAddresses := mk_external {
  ext_direct : list SocketAddr;
  ext_unverified : list SocketAddr;
  ext_relay : option SocketAddr;
}.

#[export] Instance ExternalAddresses_eq_dec : EqDecision ExternalAddresses.
Proof. solve_decision. Defined.

Definition external_new : ExternalAddresses := mk_external [] [] None.

(** [Vec::retain] of the entries different from [a]. *)
Definition without (a : SocketAddr) (l : list SocketAddr) : list SocketAddr :=
  List.filter (λ x, bool_decide (x ≠ a)) l.

(** [if len >= max { remove(0) }; push(a)]. *)
Definition push_capped (max : nat) (a : SocketAddr) (l : list SocketAddr) : list SocketAddr :=
  (if max <=? length l then drop 1 l else l)%nat ++ [a].

Section external_addresses.
Context (normalize_socket_addr : SocketAddr → SocketAddr).
Implicit Types e : ExternalAddresses.

Definition pin_direct e (a0 : SocketAddr) : bool * ExternalAddresses :=
  let a := normalize_socket_addr a0 in
  if bool_decide (Some a = ext_relay e) || bool_decide (a ∈ ext_direct e) then (false, e)
  else (true, mk_external (push_capped MAX_DIRECT_ADDRESSES a (ext_direct e))
                          (without a (ext_unverified e)) (ext_relay e)).

Definition record_unverified e (a0 : SocketAddr) : bool * ExternalAddresses :=
  let a := normalize_socket_addr a0 in
  if bool_decide (Some a = ext_relay e) || bool_decide (a ∈ ext_direct e) then (false, e)
  else match position (λ x, bool_decide (x = a)) (ext_unverified e) with
       | Some pos =>
           (false, mk_external (ext_direct e)
                     (take pos (ext_unverified e) ++ drop (S pos) (ext_unverified e) ++
                      option_list (ext_unverified e !! pos)) (ext_relay e))
       | None =>
           (true, mk_external (ext_direct e)
                    (push_capped MAX_UNVERIFIED_ADDRESSES a (ext_unverified e)) (ext_relay e))
       end.

Definition set_relay e (a0 : SocketAddr) : ExternalAddresses :=
  let a := normalize_socket_addr a0 in
  mk_external (without a (ext_direct e)) (without a (ext_unverified e)) (Some a).

Definition clear_relay e : ExternalAddresses :=
  mk_external (ext_direct e) (ext_unverified e) None.

Definition all_addresses e : list SocketAddr :=
  option_list (ext_relay e) ++
  List.filter (λ a, bool_decide (Some a ≠ ext_relay e)) (ext_direct e) ++
  List.filter (λ a, bool_decide (Some a ≠ ext_relay e) && bool_decide (a ∉ ext_direct e)) (ext_unverified e).

Definition non_relay_addresses e : list SocketAddr :=
  ext_direct e ++ List.filter (λ a, bool_decide (a ∉ ext_direct e)) (ext_unverified e).

(** The operations that change the set, and the states they reach. *)
Inductive ExternalOp :=
  | PinDirect (a : SocketAddr)
  | RecordUnverified (a : SocketAddr)
  | SetRelay (a : SocketAddr)
  | ClearRelay.

Definition external_step e (op : ExternalOp) : ExternalAddresses :=
  match op with
  | PinDirect a => (pin_direct e a).2
  | RecordUnverified a => (record_unverified e a).2
  | SetRelay a => set_relay e a
  | ClearRelay => clear_relay e
  end.

Definition external_run (ops : list ExternalOp) : ExternalAddresses :=
  foldl external_step external_new ops.

Record external_wf e : Prop := {
  wf_direct_cap : length (ext_direct e) ≤ MAX_DIRECT_ADDRESSES;
  wf_unverified_cap : length (ext_unverified e) ≤ MAX_UNVERIFIED_ADDRESSES;
  wf_nodup : NoDup (option_list (ext_relay e) ++ ext_direct e ++ ext_unverified e);
}.

Lemma elem_of_without x a l : x ∈ without a l ↔ x ∈ l ∧ x ≠ a.
Proof. unfold without. rewrite elem_of_List_filter, bool_decide_eq_true. tauto. Qed.

Lemma without_sublist a l : without a l `sublist_of` l.
Proof. apply List_filter_sublist. Qed.

Lemma push_capped_length max a l : 0 < max → length l ≤ max → length (push_capped max a l) ≤ max.
Proof.
  intros. unfold push_capped. rewrite length_app. case_match eqn:Hc.
  - apply Nat.leb_le in Hc. rewrite length_drop. simpl. lia.
  - apply Nat.leb_gt in Hc. simpl. lia.
Qed.

(** What a capped push keeps: a part of the old list, then the new entry. *)
Lemma push_capped_sublist max a l : push_capped max a l `sublist_of` l ++ [a].
Proof.
  unfold push_capped. apply sublist_app; [|done]. case_match; [apply sublist_drop|done].
Qed.

Lemma push_capped_elem max a l : a ∈ push_capped max a l.
Proof. unfold push_capped. rewrite elem_of_app, list_elem_of_singleton. by right. Qed.

(** Moving an entry to the end permutes the list. *)
Lemma move_to_back (l : list SocketAddr) pos x :
  l !! pos = Some x → take pos l ++ drop (S pos) l ++ option_list (l !! pos) ≡ₚ l.
Proof.
  intros Hx. rewrite Hx. simpl. rewrite <-(take_drop_middle l pos x Hx) at 3.
  apply Permutation_app_head. rewrite Permutation_app_comm. done.
Qed.

Lemma position_socket (a : SocketAddr) (l : list SocketAddr) pos :
  position (λ x, bool_decide (x = a)) l = Some pos → l !! pos = Some a.
Proof.
  intros H. apply position_Some in H as (x & Hx & Hp & _).
  apply bool_decide_eq_true in Hp. by subst.
Qed.


Lemma NoDup_mid_sublist (l1 l1' l2 l2' l3 : list SocketAddr) :
  l1' `sublist_of` l1 → l2' `sublist_of` l2 → NoDup (l3 ++ l1 ++ l2) → NoDup (l3 ++ l1' ++ l2').
Proof. intros. eapply sublist_NoDup; [done|]. by repeat apply sublist_app. Qed.

Lemma snoc_middle (l1 l2 l3 : list SocketAddr) x : l1 ++ (l2 ++ [x]) ++ l3 ≡ₚ x :: l1 ++ l2 ++ l3.
Proof. rewrite <-(app_assoc l2). simpl. by rewrite app_assoc, <-Permutation_middle, <-app_assoc. Qed.

Lemma pin_direct_wf e a : external_wf e → external_wf (pin_direct e a).2.
Proof.
  intros [Hd Hu Hn]. unfold pin_direct. set (b := normalize_socket_addr a).
  case_match eqn:Hc; [by split|]. apply orb_false_iff in Hc as [Hr Hm].
  apply bool_decide_eq_false in Hr, Hm. split; simpl.
  - by apply push_capped_length; [vm_compute; lia|].
  - etrans; [apply sublist_length, without_sublist|done].
  - eapply sublist_NoDup; [|apply sublist_app; [done|apply sublist_app; [apply push_capped_sublist|done]]].
    rewrite snoc_middle. apply NoDup_cons. split; [|by eapply NoDup_mid_sublist; [..|apply Hn]; [|apply without_sublist]].
    rewrite !elem_of_app, elem_of_without. intros [H|[H|H]]; [|done|naive_solver].
    apply Hr. by destruct (ext_relay e); set_solver.
Qed.

Lemma record_unverified_wf e a : external_wf e → external_wf (record_unverified e a).2.
Proof.
  intros [Hd Hu Hn]. unfold record_unverified. set (b := normalize_socket_addr a).
  case_match eqn:Hc; [by split|]. apply orb_false_iff in Hc as [Hr Hm].
  apply bool_decide_eq_false in Hr, Hm. destruct (position _ _) as [pos|] eqn:Hp; split; simpl; try done.
  - apply position_socket in Hp. by rewrite (Permutation_length (move_to_back _ _ _ Hp)).
  - apply position_socket in Hp. by rewrite (move_to_back _ _ _ Hp).
  - by apply push_capped_length; [vm_compute; lia|].
  - rewrite position_None in Hp.
    eapply sublist_NoDup; [|apply sublist_app; [done|apply sublist_app; [done|apply push_capped_sublist]]].
    rewrite !app_assoc, Permutation_app_comm. simpl. apply NoDup_cons. rewrite <-app_assoc.
    split; [|done]. rewrite !elem_of_app. intros [H|[H|H]]; [|done|].
    + apply Hr. by destruct (ext_relay e); set_solver.
    + apply Hp, bool_decide_eq_false in H. done.
Qed.

Lemma set_relay_wf e a : external_wf e → external_wf (set_relay e a).
Proof.
  intros [Hd Hu Hn]. split; simpl.
  1,2: etrans; [apply sublist_length, without_sublist|done].
  apply NoDup_cons. split; [rewrite elem_of_app, !elem_of_without; naive_solver|].
  apply NoDup_app in Hn as (_ & _ & Hn).
  eapply (NoDup_mid_sublist _ _ _ _ []); [apply without_sublist..|done].
Qed.

Lemma external_step_wf e op : external_wf e → external_wf (external_step e op).
Proof.
  destruct op; [apply pin_direct_wf|apply record_unverified_wf|apply set_relay_wf|].
  intros [Hd Hu Hn]. split; [done..|]. by apply NoDup_app in Hn as (_ & _ & Hn).
Qed.

Lemma external_run_wf ops e : external_wf e → external_wf (foldl external_step e ops).
Proof. revert e. induction ops; simpl; auto using external_step_wf. Qed.

Lemma all_addresses_eq e :
  external_wf e → all_addresses e = option_list (ext_relay e) ++ ext_direct e ++ ext_unverified e.
Proof.
  intros [_ _ Hn]. unfold all_addresses. do 2 f_equal.
  - apply filter_all_id. intros x Hx. apply bool_decide_eq_true. intros Hr.
    rewrite <-Hr in Hn. simpl in Hn. apply NoDup_cons in Hn as [Hn _]. set_solver.
  - apply filter_all_id. intros x Hx. apply andb_true_iff. rewrite !bool_decide_eq_true.
    apply NoDup_app in Hn as (_ & Hro & Hn). apply NoDup_app in Hn as (_ & Hdu & _). split.
    + intros Hr. apply (Hro x); [rewrite <-Hr; set_solver|set_solver].
    + intros Hd. by apply (Hdu x).
Qed.

(** however the transport's reports arrive, the node never lists an
    address twice: the relay comes first, then at most 16 direct and at most
    16 unverified addresses, the three kinds disjoint, so the filters of
    [all_addresses] and [non_relay_addresses] remove nothing. *)
Theorem external_addresses_invariant ops :
  let e := external_run ops in
  external_wf e ∧
  NoDup (all_addresses e) ∧ length (all_addresses e) ≤ 33 ∧
  all_addresses e = option_list (ext_relay e) ++ non_relay_addresses e.
Proof.
  assert (Hwf : external_wf (external_run ops)).
  { apply external_run_wf. by split; [simpl; lia..|constructor]. }
  assert (Hnr : non_relay_addresses (external_run ops) =
                ext_direct (external_run ops) ++ ext_unverified (external_run ops)).
  { unfold non_relay_addresses. f_equal. apply filter_all_id. intros x Hx.
    apply bool_decide_eq_true. destruct Hwf as [_ _ Hn].
    apply NoDup_app in Hn as (_ & _ & Hn). apply NoDup_app in Hn as (_ & Hdu & _).
    intros Hd. by apply (Hdu x). }
  cbv zeta. rewrite Hnr, (all_addresses_eq _ Hwf). repeat split; try apply Hwf.
  rewrite !length_app. destruct Hwf as [Hd Hu _]. unfold MAX_DIRECT_ADDRESSES, MAX_UNVERIFIED_ADDRESSES in *.
  destruct (ext_relay (external_run ops)); simpl; lia.
Qed.

(** [record_unverified] reports [true] exactly when the set of addresses the
    node may publish changes. *)
Theorem record_unverified_reports_change e a :
  external_wf e →
  (record_unverified e a).1 = true ↔
  ¬ (∀ x, x ∈ all_addresses (record_unverified e a).2 ↔ x ∈ all_addresses e).
Proof.
  intros Hwf. pose proof (record_unverified_wf e a Hwf) as Hwf'.
  rewrite (all_addresses_eq _ Hwf), (all_addresses_eq _ Hwf').
  unfold record_unverified. set (b := normalize_socket_addr a).
  case_match eqn:Hc; simpl; [split; [done|intros H; exfalso; by apply H]|].
  apply orb_false_iff in Hc as [Hr Hm]. apply bool_decide_eq_false in Hr, Hm.
  destruct (position _ _) as [pos|] eqn:Hp; simpl.
  - split; [done|]. intros []. intros x. apply position_socket in Hp.
    by rewrite (move_to_back _ _ _ Hp).
  - split; [|done]. intros _ Hall. rewrite position_None in Hp. destruct (Hall b) as [H _].
    rewrite !elem_of_app in H. destruct H as [H|[H|H]].
    + right. right. apply push_capped_elem.
    + destruct (ext_relay e); set_solver.
    + done.
    + apply Hp, bool_decide_eq_false in H. done.
Qed.

Definition pins (ops : list ExternalOp) : nat :=
  length (List.filter (λ op, match op with PinDirect _ => true | _ => false end) ops).

Lemma without_split a b (pre post : list SocketAddr) :
  a ≠ b → without b (pre ++ a :: post) = without b pre ++ a :: without b post.
Proof.
  intros Hne. unfold without. rewrite List.filter_app. simpl. by rewrite bool_decide_eq_true_2.
Qed.

Lemma pinned_step e op a (pre post : list SocketAddr) :
  ext_direct e = pre ++ a :: post → length post + pins [op] < MAX_DIRECT_ADDRESSES →
  (∀ b, op = SetRelay b → normalize_socket_addr b ≠ a) →
  ∃ pre' post', ext_direct (external_step e op) = pre' ++ a :: post' ∧
                length post' ≤ length post + pins [op].
Proof.
  intros Hd Hlen Hrel. destruct op as [b|b|b|]; simpl.
  - change (pins [PinDirect b]) with 1 in *. unfold pin_direct. case_match; simpl; [exists pre, post; split; [done|lia]|].
    unfold push_capped. rewrite Hd. case_match eqn:Hc.
    + apply Nat.leb_le in Hc. rewrite length_app in Hc. simpl in Hc, Hlen.
      destruct pre as [|p pre]; simpl in *; [lia|]. exists pre, (post ++ [normalize_socket_addr b]).
      rewrite drop_0, <-app_assoc. split; [done|]. rewrite length_app. simpl. lia.
    + exists pre, (post ++ [normalize_socket_addr b]). rewrite <-app_assoc. split; [done|].
      rewrite length_app. simpl. lia.
  - unfold record_unverified. exists pre, post. split; [|lia]. by repeat case_match.
  - rewrite Hd, without_split; [|intros ->; by apply (Hrel b)].
    eexists _, _. split; [done|]. etrans; [apply sublist_length, without_sublist|lia].
  - exists pre, post. split; [done|lia].
Qed.

Lemma pins_cons op ops : pins (op :: ops) = pins [op] + pins ops.
Proof. unfold pins. destruct op; reflexivity. Qed.

Lemma pinned_run ops e a (pre post : list SocketAddr) :
  ext_direct e = pre ++ a :: post → length post + pins ops < MAX_DIRECT_ADDRESSES →
  (∀ b, SetRelay b ∈ ops → normalize_socket_addr b ≠ a) →
  a ∈ ext_direct (foldl external_step e ops).
Proof.
  revert e pre post. induction ops as [|op ops IH]; intros e pre post Hd Hlen Hrel.
  - simpl. rewrite Hd. set_solver.
  - rewrite pins_cons in Hlen.
    destruct (pinned_step e op a pre post) as (pre' & post' & Hd' & Hl'); [done|lia|set_solver|].
    apply (IH _ pre' post'); [done|lia|set_solver].
Qed.

(** A pinned direct address is not lost to later observations: once
    [pin_direct] has accepted it, it stays among the direct addresses through
    any further reports of unverified addresses, relay changes and up to 15
    further pins, unless the relay is set to that very address. *)
Theorem pinned_direct_survives before a after :
  (pin_direct (external_run before) a).1 = true →
  pins after < MAX_DIRECT_ADDRESSES →
  (∀ c, SetRelay c ∈ after → normalize_socket_addr c ≠ normalize_socket_addr a) →
  normalize_socket_addr a ∈ ext_direct (external_run (before ++ PinDirect a :: after)).
Proof.
  intros Hpin Hp Hrel. unfold external_run. rewrite foldl_app. simpl.
  fold (external_run before). revert Hpin. unfold pin_direct. case_match; [done|]. intros _. simpl.
  eapply (pinned_run _ _ _ _ []); [reflexivity|simpl; lia|done].
Qed.
End external_addresses.

(** ** The published set *)

Definition MAX_SELF_QUIC_ADDRESSES : nat := 5.

Record FamilyAddressChoice := mk_choice {
  first_seen_index : N;
  choice_addr : SocketAddr;
  choice_tag : AddressType;
}.

Record SelfAddressSet := mk_self_set {
  self_relay : option SocketAddr;
  wan_v4 : option FamilyAddressChoice;
  wan_v6 : option FamilyAddressChoice;
  lan_v4 : option FamilyAddressChoice;
  lan_v6 : option FamilyAddressChoice;
}.

Definition self_set_default : SelfAddressSet := mk_self_set None None None None None.

Inductive AddressSource := Observed | Listen.

Definition replace_same_tier (s : AddressSource) : bool :=
  match s with Observed => true | Listen => false end.

(** The slot of a choice: whether it is a LAN address, whether it is IPv4. *)
Definition slot_of (tag : AddressType) (sa : SocketAddr) : bool * bool :=
  (bool_decide (tag = Lan), ip_is_ipv4 (socket_ip sa)).

Definition get_slot (set : SelfAddressSet) (s : bool * bool) : option FamilyAddressChoice :=
  match s with
  | (true, true) => lan_v4 set
  | (true, false) => lan_v6 set
  | (false, true) => wan_v4 set
  | (false, false) => wan_v6 set
  end.

Definition put_slot (set : SelfAddressSet) (s : bool * bool) (c : option FamilyAddressChoice) : SelfAddressSet :=
  match s with
  | (true, true) => mk_self_set (self_relay set) (wan_v4 set) (wan_v6 set) c (lan_v6 set)
  | (true, false) => mk_self_set (self_relay set) (wan_v4 set) (wan_v6 set) (lan_v4 set) c
  | (false, true) => mk_self_set (self_relay set) c (wan_v6 set) (lan_v4 set) (lan_v6 set)
  | (false, false) => mk_self_set (self_relay set) (wan_v4 set) c (lan_v4 set) (lan_v6 set)
  end.

Definition chosen (c : option FamilyAddressChoice) (sa : SocketAddr) : bool :=
  from_option (λ c, bool_decide (choice_addr c = sa)) false c.

Definition contains_selected (set : SelfAddressSet) (sa : SocketAddr) : bool :=
  bool_decide (self_relay set = Some sa) || chosen (wan_v4 set) sa || chosen (wan_v6 set) sa ||
  chosen (lan_v4 set) sa || chosen (lan_v6 set) sa.

Definition record_non_relay_choice (set : SelfAddressSet) (sa : SocketAddr) (tag : AddressType)
    (replace : bool) (index : N) : SelfAddressSet :=
  let slot := slot_of tag sa in
  match get_slot set slot with
  | None => put_slot set slot (Some (mk_choice index sa tag))
  | Some existing =>
      if (priority tag <? priority (choice_tag existing))%N ||
         (replace && (priority tag =? priority (choice_tag existing))%N)
      then put_slot set slot (Some (mk_choice (first_seen_index existing) sa tag))
      else set
  end.

Definition choices (set : SelfAddressSet) : list FamilyAddressChoice :=
  sort_by_key (λ c, (priority (choice_tag c), first_seen_index c))
    (omap id [wan_v4 set; wan_v6 set; lan_v4 set; lan_v6 set]).

Section self_address_set.
Context `{TL : TransportLib}.
Context (normalize_socket_addr : SocketAddr → SocketAddr) (is_external_proven : SocketAddr → bool).

Definition into_typed_vec (set : SelfAddressSet) : list (MultiAddr * AddressType) :=
  ((λ r, (quic r, Relay)) <$> option_list (self_relay set)) ++
  ((λ c, (quic (choice_addr c), choice_tag c)) <$> choices set).

Definition self_tag (sa : SocketAddr) : AddressType :=
  if is_lan_ip (socket_ip sa) then Lan
  else if is_external_proven sa then Direct else Unverified.

Definition self_dialable (sa : SocketAddr) : bool :=
  negb (ip_is_unspecified (socket_ip sa) || (socket_port sa =? 0)%N).

Definition record_non_relay_self_address (source : AddressSource) (acc : SelfAddressSet * N)
    (sa : SocketAddr) : SelfAddressSet * N :=
  let '(set, index) := acc in
  if self_dialable sa then
    let normalized := normalize_socket_addr sa in
    if contains_selected set normalized then (set, index)
    else (record_non_relay_choice set normalized (self_tag normalized) (replace_same_tier source) index,
          N.min USIZE_MAX (index + 1))
  else (set, index).

Definition build_self_address_set (observed : list SocketAddr) (listen : list MultiAddr)
    (relay : option SocketAddr) : SelfAddressSet :=
  let set := mk_self_set (normalize_socket_addr <$> relay) None None None None in
  let acc := foldl (record_non_relay_self_address Observed) (set, 0%N) observed in
  (foldl (record_non_relay_self_address Listen) acc (omap dialable_socket_addr listen)).1.

(** *** Reference selection *)

(** What competes for a slot: the dialable addresses, normalized, without the
    relay. *)
Definition contenders (relay : option SocketAddr) (slot : bool * bool) (l : list SocketAddr) : list SocketAddr :=
  List.filter (λ n, bool_decide (slot_of (self_tag n) n = slot) &&
                    bool_decide (normalize_socket_addr <$> relay ≠ Some n))
    (normalize_socket_addr <$> List.filter self_dialable l).

Definition tier (sa : SocketAddr) : N := priority (self_tag sa).

(** The best-tier observed address, the latest among equals; a listen
    address, the first among equals, only when its tier is strictly better. *)
Definition preferred (relay : option SocketAddr) (slot : bool * bool)
    (observed listen : list SocketAddr) : option SocketAddr :=
  let o := max_by_key (λ a, mk_reverse (tier a)) (contenders relay slot observed) in
  let l := min_by_key tier (contenders relay slot listen) in
  match o, l with
  | Some o, Some l => Some (if (tier l <? tier o)%N then l else o)
  | Some o, None => Some o
  | None, l => l
  end.

(** *** The code's selection is the reference selection *)

Implicit Types (set : SelfAddressSet) (slot : bool * bool) (n sa : SocketAddr) (relay : option SocketAddr).

(** A candidate competing with the current holder of its slot. *)
Definition compete (replace : bool) (current : option SocketAddr) n : option SocketAddr :=
  match current with
  | None => Some n
  | Some e => if (tier n <? tier e)%N || (replace && (tier n =? tier e)%N) then Some n else Some e
  end.

Definition eligible relay slot sa : bool :=
  self_dialable sa && (bool_decide (slot_of (self_tag (normalize_socket_addr sa)) (normalize_socket_addr sa) = slot) &&
  bool_decide (normalize_socket_addr <$> relay ≠ Some (normalize_socket_addr sa))).

Lemma contenders_snoc relay slot l sa :
  contenders relay slot (l ++ [sa]) =
  contenders relay slot l ++ (if eligible relay slot sa then [normalize_socket_addr sa] else []).
Proof.
  unfold contenders, eligible. rewrite List.filter_app, fmap_app, List.filter_app. f_equal.
  simpl. destruct (self_dialable sa); simpl; [by destruct (_ && _)|done].
Qed.

Lemma tier_leb a b : leb (mk_reverse (tier a)) (mk_reverse (tier b)) = (tier b <=? tier a)%N.
Proof. apply eq_bool_prop_intro. rewrite !Is_true_true, leb_tle, reverse_tle, N_tle, N.leb_le. done. Qed.
Lemma tier_ltb a b : ltb (tier a) (tier b) = (tier a <? tier b)%N.
Proof. apply eq_bool_prop_intro. rewrite !Is_true_true, ltb_tlt, N_tlt, N.ltb_lt. done. Qed.

Lemma preferred_observed relay slot observed sa :
  preferred relay slot (observed ++ [sa]) [] =
  if eligible relay slot sa
  then compete true (preferred relay slot observed []) (normalize_socket_addr sa)
  else preferred relay slot observed [].
Proof.
  unfold preferred. rewrite contenders_snoc. destruct (eligible _ _ _); [|by rewrite app_nil_r].
  unfold max_by_key. rewrite foldl_app. simpl.
  destruct (foldl _ None (contenders relay slot observed)) as [e|]; simpl; [|done].
  rewrite tier_leb.
  destruct (N.leb_spec (tier (normalize_socket_addr sa)) (tier e)),
    (N.ltb_spec (tier (normalize_socket_addr sa)) (tier e)), (N.eqb_spec (tier (normalize_socket_addr sa)) (tier e));
    simpl; solve [done|lia].
Qed.

Lemma preferred_listen relay slot observed listen sa :
  preferred relay slot observed (listen ++ [sa]) =
  if eligible relay slot sa
  then compete false (preferred relay slot observed listen) (normalize_socket_addr sa)
  else preferred relay slot observed listen.
Proof.
  unfold preferred. rewrite contenders_snoc. destruct (eligible _ _ _); [|by rewrite app_nil_r].
  unfold min_by_key. rewrite foldl_app. simpl. set (n := normalize_socket_addr sa).
  destruct (max_by_key _ _) as [o|], (foldl _ None (contenders relay slot listen)) as [e|]; simpl;
    rewrite ?tier_ltb, ?orb_false_r; try done.
  - destruct (N.ltb_spec (tier n) (tier e)), (N.ltb_spec (tier e) (tier o)), (N.ltb_spec (tier n) (tier o));
      simpl; rewrite ?orb_false_r; repeat case_match; try done;
      repeat match goal with
      | H : (_ <? _)%N = true |- _ => apply N.ltb_lt in H
      | H : (_ <? _)%N = false |- _ => apply N.ltb_ge in H
      end; solve [done|lia].
  - by destruct (tier n <? tier o)%N.
Qed.

Lemma preferred_elem relay slot observed listen n :
  preferred relay slot observed listen = Some n →
  slot_of (self_tag n) n = slot ∧ normalize_socket_addr <$> relay ≠ Some n.
Proof.
  assert (Hc : ∀ l, n ∈ contenders relay slot l →
                slot_of (self_tag n) n = slot ∧ normalize_socket_addr <$> relay ≠ Some n).
  { intros l. unfold contenders. rewrite elem_of_List_filter, andb_true_iff, !bool_decide_eq_true. tauto. }
  unfold preferred. destruct (max_by_key _ _) as [o|] eqn:Ho, (min_by_key _ _) as [m|] eqn:Hm; try done.
  - apply max_by_key_Some in Ho as [Ho _]. apply min_by_key_Some in Hm as [Hm _].
    intros [= <-]. case_match; eauto.
  - apply max_by_key_Some in Ho as [Ho _]. intros [= <-]. eauto.
  - apply min_by_key_Some in Hm as [Hm _]. intros [= <-]. eauto.
Qed.

(** What a slot holds, without its index. *)
Definition held set slot : option (SocketAddr * AddressType) :=
  (λ c, (choice_addr c, choice_tag c)) <$> get_slot set slot.

Definition agrees relay set (f : bool * bool → option SocketAddr) : Prop :=
  self_relay set = normalize_socket_addr <$> relay ∧
  ∀ slot, held set slot = (λ n, (n, self_tag n)) <$> f slot.

Lemma get_put_slot set s s' c : get_slot (put_slot set s c) s' = if decide (s = s') then c else get_slot set s'.
Proof. by destruct s as [[] []], s' as [[] []]. Qed.
Lemma put_slot_relay set s c : self_relay (put_slot set s c) = self_relay set.
Proof. by destruct s as [[] []]. Qed.

Lemma contains_selected_spec set n :
  contains_selected set n = true ↔ self_relay set = Some n ∨ ∃ slot, fst <$> held set slot = Some n.
Proof.
  assert (Hs : ∀ slot, chosen (get_slot set slot) n = true ↔ fst <$> held set slot = Some n).
  { intros slot. unfold chosen, held. destruct (get_slot set slot); simpl; [|done].
    rewrite bool_decide_eq_true. naive_solver. }
  unfold contains_selected. rewrite !orb_true_iff, bool_decide_eq_true.
  pose proof (Hs (false, true)) as H1. pose proof (Hs (false, false)) as H2.
  pose proof (Hs (true, true)) as H3. pose proof (Hs (true, false)) as H4. simpl in *.
  rewrite H1, H2, H3, H4. split; [naive_solver|]. intros [?|[[[] []] ?]]; naive_solver.
Qed.

Lemma record_choice_held set n replace index slot relay f :
  agrees relay set f →
  held (record_non_relay_choice set n (self_tag n) replace index) slot =
  (λ n, (n, self_tag n)) <$>
    (if decide (slot_of (self_tag n) n = slot) then compete replace (f slot) n else f slot).
Proof.
  intros [_ Ha]. unfold record_non_relay_choice. pose proof (Ha (slot_of (self_tag n) n)) as Hn.
  unfold held in Hn. destruct (get_slot set (slot_of (self_tag n) n)) as [c|] eqn:Hg; simpl in Hn.
  - destruct (f (slot_of (self_tag n) n)) as [e|] eqn:Hf; [|done]. simpl in Hn.
    apply (inj Some), pair_eq in Hn as [<- Ht]. rewrite Ht.
    fold (tier n) (tier (choice_addr c)). destruct (_ || _) eqn:Hc.
    + unfold held. rewrite get_put_slot. destruct (decide _) as [<-|]; [|apply Ha].
      rewrite Hf. simpl. by rewrite Hc.
    + rewrite Ha. destruct (decide _) as [<-|]; [|done]. rewrite Hf. simpl. by rewrite Hc.
  - destruct (f (slot_of (self_tag n) n)) eqn:Hf; [done|].
    unfold held. rewrite get_put_slot. destruct (decide _) as [<-|]; [|apply Ha]. by rewrite Hf.
Qed.

Lemma record_choice_relay set n tag replace index :
  self_relay (record_non_relay_choice set n tag replace index) = self_relay set.
Proof. unfold record_non_relay_choice. repeat case_match; by rewrite ?put_slot_relay. Qed.

(** One candidate: the slots move exactly as the reference competition does. *)
Lemma record_self_address_agrees relay set index source sa f :
  agrees relay set f →
  (∀ slot n, f slot = Some n → slot_of (self_tag n) n = slot) →
  agrees relay (record_non_relay_self_address source (set, index) sa).1
    (λ slot, if eligible relay slot sa
             then compete (replace_same_tier source) (f slot) (normalize_socket_addr sa) else f slot).
Proof.
  intros Hag Hf. unfold eligible, record_non_relay_self_address.
  destruct (self_dialable sa); simpl; [|done]. set (n := normalize_socket_addr sa).
  destruct (contains_selected set n) eqn:Hs; simpl.
  - destruct Hag as [Hr Ha]. split; [done|]. intros slot. rewrite Ha. f_equal.
    case_match eqn:He; [|done]. rewrite andb_true_iff, !bool_decide_eq_true in He. destruct He as [<- He].
    apply contains_selected_spec in Hs as [Hs|[slot Hs]]; [congruence|].
    rewrite Ha in Hs. destruct (f slot) as [e|] eqn:Hfs; [|done]. simplify_eq/=.
    rewrite (Hf _ _ Hfs), Hfs. simpl. by repeat case_match.
  - assert (Hnr : normalize_socket_addr <$> relay ≠ Some n).
    { intros Hn. destruct Hag as [Hr _]. apply not_true_iff_false in Hs. apply Hs, contains_selected_spec.
      left. congruence. }
    split; [rewrite record_choice_relay; apply Hag|]. intros slot.
    rewrite (record_choice_held _ _ _ _ _ _ _ Hag), (bool_decide_eq_true_2 (_ ≠ Some n)), andb_true_r by done.
    f_equal. by destruct (decide _), (bool_decide_reflect (slot_of (self_tag n) n = slot)).
Qed.

Lemma agrees_ext relay set f g : (∀ s, f s = g s) → agrees relay set f → agrees relay set g.
Proof. intros Hfg [Hr Ha]. split; [done|]. intros s. by rewrite <-Hfg. Qed.

Lemma observed_agrees relay observed :
  let acc := foldl (record_non_relay_self_address Observed)
               (mk_self_set (normalize_socket_addr <$> relay) None None None None, 0%N) observed in
  agrees relay acc.1 (λ slot, preferred relay slot observed []).
Proof.
  induction observed as [|sa observed IH] using rev_ind; simpl.
  - split; [done|]. by intros [[] []].
  - rewrite foldl_app. simpl. destruct (foldl _ _ observed) as [set index]. simpl in IH.
    eapply agrees_ext; [intros slot; symmetry; apply preferred_observed|].
    apply (record_self_address_agrees relay set index Observed sa _ IH). intros slot n Hn.
    by apply preferred_elem in Hn as [? _].
Qed.

Lemma build_agrees observed listen relay :
  agrees relay (build_self_address_set observed listen relay)
    (λ slot, preferred relay slot observed (omap dialable_socket_addr listen)).
Proof.
  unfold build_self_address_set. pose proof (observed_agrees relay observed) as H0. revert H0. simpl.
  generalize (foldl (record_non_relay_self_address Observed)
    (mk_self_set (normalize_socket_addr <$> relay) None None None None, 0%N) observed).
  generalize (omap dialable_socket_addr listen). clear listen. intros l acc H0.
  induction l as [|sa l IH] using rev_ind; simpl; [done|].
  rewrite foldl_app. simpl. destruct (foldl _ _ l) as [set index]. simpl in IH.
  eapply agrees_ext; [intros slot; symmetry; apply preferred_listen|].
  apply (record_self_address_agrees relay set index Listen sa _ IH). intros slot n Hn.
  by apply preferred_elem in Hn as [? _].
Qed.

Definition slots : list (bool * bool) := [(false, true); (false, false); (true, true); (true, false)].

Lemma elem_of_slots slot : slot ∈ slots.
Proof. unfold slots. destruct slot as [[] []]; set_solver. Qed.

(** The emitted pairs before sorting are the held choices of the four slots. *)
Lemma choices_perm set :
  (λ c, (quic (choice_addr c), choice_tag c)) <$> choices set ≡ₚ
  (λ p, (quic p.1, p.2)) <$> omap (held set) slots.
Proof.
  unfold choices. rewrite sort_perm. unfold held, slots. simpl.
  destruct (wan_v4 set), (wan_v6 set), (lan_v4 set), (lan_v6 set); simpl; done.
Qed.

#[local] Instance quic_inj : Inj (=) (=) quic.
Proof.
  intros a b H. apply (f_equal dialable_socket_addr) in H. unfold dialable_socket_addr, quic, multiaddr_new in H.
  simpl in H. by rewrite !(proj2 (as_quic_Some _ _) eq_refl) in H; simplify_eq.
Qed.

Lemma omap_NoDup {A B} (g : A → option B) (l : list A) :
  NoDup l → (∀ x y z, g x = Some z → g y = Some z → x = y) → NoDup (omap g l).
Proof.
  intros Hl Hg. induction Hl as [|x l Hx Hl IH]; simpl; [constructor|].
  destruct (g x) as [z|] eqn:Hz; [|done]. apply NoDup_cons. split; [|done].
  rewrite list_elem_of_omap. intros (y & Hy & Hgy). apply Hx. by rewrite (Hg x y z).
Qed.

Lemma omap_length {A B} (g : A → option B) (l : list A) : length (omap g l) ≤ length l.
Proof. induction l as [|x l IH]; csimpl; [done|]. destruct (g x); csimpl; lia. Qed.

Lemma typed_perm set relay f :
  agrees relay set f →
  into_typed_vec set ≡ₚ
  ((λ r, (quic (normalize_socket_addr r), Relay)) <$> option_list relay) ++
  ((λ n, (quic n, self_tag n)) <$> omap f slots).
Proof.
  intros [Hr Ha]. unfold into_typed_vec. rewrite choices_perm, Hr. apply Permutation_app.
  - by destruct relay.
  - apply eq_subrelation; [typeclasses eauto|]. induction slots as [|s l IH]; [done|]. simpl. rewrite Ha.
    destruct (f s); simpl; [by f_equal|done].
Qed.

(** Sorting by (tier, first seen) orders the emitted tags by tier. *)
Lemma typed_sorted set : StronglySorted (λ x y, (priority x.2 ≤ priority y.2)%N) (into_typed_vec set).
Proof.
  unfold into_typed_vec.
  assert (Hs : StronglySorted (λ x y : MultiAddr * AddressType, (priority x.2 ≤ priority y.2)%N)
                 ((λ c, (quic (choice_addr c), choice_tag c)) <$> choices set)).
  { unfold choices. generalize (sort_sorted (λ c, (priority (choice_tag c), first_seen_index c))
      (omap id [wan_v4 set; wan_v6 set; lan_v4 set; lan_v6 set])).
    generalize (sort_by_key (λ c, (priority (choice_tag c), first_seen_index c))
      (omap id [wan_v4 set; wan_v6 set; lan_v4 set; lan_v6 set])).
    induction 1 as [|c l Hl IH Hc]; simpl; constructor; [done|]. apply Forall_fmap.
    eapply Forall_impl; [done|]. intros c' Hle. simpl. unfold key_le in Hle.
    apply pair_tle_fst in Hle. by apply N_tle. }
  destruct (self_relay set) as [r|]; simpl; [|done]. constructor; [done|].
  apply Forall_forall. intros x _. simpl. lia.
Qed.

(** the self-address policy.  The published list holds the relay, if
    there is one, and for each of the four slots (WAN or LAN, IPv4 or IPv6)
    the address the reference selection prefers, tagged by what is known of
    it: LAN by its address, Direct when proven external, Unverified otherwise.
    The list is ordered by address type with the relay first, holds no
    address twice and at most five of them. *)
Theorem build_self_address_set_spec observed listen relay :
  let typed := into_typed_vec (build_self_address_set observed listen relay) in
  (∀ a t, (a, t) ∈ typed ↔
     (∃ r, relay = Some r ∧ a = quic (normalize_socket_addr r) ∧ t = Relay) ∨
     ∃ slot n, preferred relay slot observed (omap dialable_socket_addr listen) = Some n ∧
               a = quic n ∧ t = self_tag n) ∧
  StronglySorted (λ x y, (priority x.2 ≤ priority y.2)%N) typed ∧
  NoDup typed.*1 ∧
  length typed ≤ MAX_SELF_QUIC_ADDRESSES.
Proof.
  cbv zeta. pose proof (build_agrees observed listen relay) as Hag.
  set (f := λ slot, preferred relay slot observed (omap dialable_socket_addr listen)) in *.
  pose proof (typed_perm _ _ _ Hag) as Hp. split; [|split; [|split]].
  - intros a t. rewrite Hp, elem_of_app, !list_elem_of_fmap. f_equiv.
    + destruct relay; simpl; set_solver.
    + split.
      * intros (n & [= -> ->] & (slot & _ & Hs)%list_elem_of_omap). eauto.
      * intros (slot & n & Hs & -> & ->). exists n. split; [done|].
        apply list_elem_of_omap. exists slot. split; [apply elem_of_slots|done].
  - apply typed_sorted.
  - rewrite Hp, fmap_app, <-!list_fmap_compose. apply NoDup_app. split; [|split].
    + destruct relay; simpl; [apply NoDup_singleton|constructor].
    + intros x. rewrite !list_elem_of_fmap. intros (r & -> & Hr) (n & Hq & (s & _ & Hs)%list_elem_of_omap).
      apply preferred_elem in Hs as [_ Hs]. destruct relay as [r'|]; [|set_solver].
      simpl in Hr. apply list_elem_of_singleton in Hr as ->. apply Hs. simpl in *. by simplify_eq.
    + apply NoDup_fmap_2; [apply quic_inj|]. apply omap_NoDup.
      * unfold slots. repeat constructor; set_solver.
      * intros s s' n Hs Hs'. apply preferred_elem in Hs as [<- _]. by apply preferred_elem in Hs' as [<- _].
  - rewrite Hp, length_app, !length_fmap.
    assert (length (omap f slots) ≤ 4).
    { change 4 with (length slots). apply omap_length. }
    unfold MAX_SELF_QUIC_ADDRESSES. assert (length (option_list relay) ≤ 1) by (destruct relay; simpl; lia). lia.
Qed.

End self_address_set.
