(* ===== verification/DualStack.v ===== *)
(** * Two sockets, two address families

    [DualStackNetworkNode] of [src/transport/saorsa_transport_adapter.rs]: how
    it binds its sockets, which one carries a target, in which form addresses
    cross the boundary, and the race of a dial.  The sockets belong to the
    transport library: what they have connected and what a dial answers are
    parameters.  [normalize_socket_addr] and [dual_stack_alternate] are the
    transport library's; their documented behaviour is the section's
    hypotheses. *)

From stdpp Require Import prelude gmap.
From S2P Require Import Prelude Keys Ip.

(** [Ipv4Addr::to_ipv6_mapped] and [SocketAddrV6::new(.., 0, 0)]. *)
Lemma mapped_wf (a : Ipv4Addr) : Is_true (wf_bytes 16 (mapped_prefix ++ octets a)).
Proof.
  apply wf_bytes_spec. split; [by rewrite length_app, octets_length|]. apply Forall_app. split; [|apply octets_ok].
  unfold mapped_prefix. repeat constructor; lia.
Qed.
Definition to_ipv6_mapped (a : Ipv4Addr) : Ipv6Addr := mk_octets (mapped_prefix ++ octets a) (mapped_wf a).
Definition mapped (ip : Ipv4Addr) (port : N) : SocketAddr := SocketV6 (to_ipv6_mapped ip) port 0 0.

Lemma to_ipv4_mapped_mapped a : to_ipv4_mapped (to_ipv6_mapped a) = Some a.
Proof. by apply to_ipv4_mapped_octets. Qed.

Definition is_ipv4 (a : SocketAddr) : bool := match a with SocketV4 _ _ => true | SocketV6 _ _ _ _ => false end.
Definition is_mapped (a : SocketAddr) : bool :=
  match a with SocketV4 _ _ => false | SocketV6 ip _ _ _ => bool_decide (is_Some (to_ipv4_mapped ip)) end.

(** ** The dispatch decision *)

Inductive StackRole := RoleV4 | RoleV6.
#[export] Instance StackRole_eq_dec : EqDecision StackRole.
Proof. solve_decision. Defined.
#[export] Instance StackRole_countable : Countable StackRole :=
  inj_countable' (λ r, match r with RoleV4 => false | RoleV6 => true end) (λ b : bool, if b then RoleV6 else RoleV4)
    (λ r, match r with RoleV4 | RoleV6 => eq_refl end).
Record StackChoice := mk_choice { role : StackRole; choice_mapped : bool }.
Record DispatchPlan := mk_dispatch { primary : option StackChoice; fallback : option StackChoice }.

Definition then_some {A} (b : bool) (a : A) : option A := if b then Some a else None.

Definition decide_dispatch (is_dual_stack has_v6 has_v4 addr_is_v4 : bool) : DispatchPlan :=
  if is_dual_stack then
    mk_dispatch (then_some has_v6 (mk_choice RoleV6 addr_is_v4)) (then_some has_v4 (mk_choice RoleV4 false))
  else
    mk_dispatch (if addr_is_v4 then then_some has_v4 (mk_choice RoleV4 false) else then_some has_v6 (mk_choice RoleV6 false)) None.

(** ** The node *)

Record DualStackNode := mk_dual { v6 : bool; v4 : bool; is_dual_stack : bool }.

(** [with_transports], and the end of [new_with_options]. *)
Definition with_transports (v6 v4 : bool) : DualStackNode := mk_dual v6 v4 (v6 && negb v4).

(** What binding a socket answers; [AddrInUse] is what the downcast or the
    text of the error tells. *)
Inductive Bind := Bound | AddrInUse | BindError.

Definition unspecified_v6 (a : SocketAddr) : bool :=
  match a with SocketV6 ip _ _ _ => forallb (λ b, (b =? 0)%Z) (octets ip) | SocketV4 _ _ => false end.

(** [DualStackNetworkNode::new_with_options]. *)
Definition new_with_options (v6_addr v4_addr : option SocketAddr) (bind_v6 bind_v4 : Bind) : option DualStackNode :=
  match v6_addr, bind_v6 with
  | Some _, AddrInUse | Some _, BindError => None
  | _, _ =>
      let has_v6 := bool_decide (is_Some v6_addr) in
      match v4_addr with
      | None => Some (with_transports has_v6 false)
      | Some a4 =>
          match bind_v4 with
          | Bound => Some (with_transports has_v6 true)
          | e =>
              let same_port := match v6_addr with Some a6 => (socket_port a6 =? socket_port a4)%N | None => false end in
              let v6_is_unspecified := from_option unspecified_v6 false v6_addr in
              let is_addr_in_use := match e with AddrInUse => true | _ => false end in
              if has_v6 && v6_is_unspecified && same_port && is_addr_in_use then Some (with_transports has_v6 false) else None
          end
      end
  end.

Section dual.
Context (normalize_socket_addr : SocketAddr → SocketAddr).
Implicit Types (n : DualStackNode) (a : SocketAddr).

Definition normalize n a : SocketAddr := if is_dual_stack n then normalize_socket_addr a else a.

Definition to_mapped_if_needed n a : SocketAddr :=
  match a with
  | SocketV4 ip port => if is_dual_stack n then mapped ip port else a
  | SocketV6 _ _ _ _ => a
  end.

Definition bound n (r : StackRole) : bool := match r with RoleV4 => v4 n | RoleV6 => v6 n end.

Definition resolve n a (c : StackChoice) : option (StackRole * SocketAddr) :=
  if bound n (role c) then
    Some (role c,
      if choice_mapped c then match a with SocketV4 ip port => mapped ip port | SocketV6 _ _ _ _ => a end else a)
  else None.

Definition pick_stacks_for n a : option (StackRole * SocketAddr) * option (StackRole * SocketAddr) :=
  let a := normalize_socket_addr a in
  let plan := decide_dispatch (is_dual_stack n) (v6 n) (v4 n) (is_ipv4 a) in
  (primary plan ≫= resolve n a, fallback plan ≫= resolve n a).

(** ** Sending and disconnecting *)

(** What a stack answers to a send on its wire address. *)
Context (send : StackRole → SocketAddr → bool).

Definition send_to_peer_raw n a : bool :=
  let '(p, f) := pick_stacks_for n a in
  from_option (λ x, send x.1 x.2) false p || from_option (λ x, send x.1 x.2) false f.

(** [send_to_peer_optimized] and [send_bytes_to_peer_optimized]: the stack
    and the wire address, or [None] for [unroutable]. *)
Definition optimized_route n a : option (StackRole * SocketAddr) :=
  if is_ipv4 a && v4 n then Some (RoleV4, a)
  else if v6 n then Some (RoleV6, to_mapped_if_needed n a)
  else None.
Definition send_to_peer_optimized n a : bool := from_option (λ x, send x.1 x.2) false (optimized_route n a).

(** The connections of the two stacks, by their wire addresses. *)
Abbreviation Connections := (gset (StackRole * SocketAddr)).

Definition disconnect_peer_by_addr n a (c : Connections) : Connections :=
  let '(p, f) := pick_stacks_for n a in
  c ∖ list_to_set (option_list p ++ option_list f).

(** [accept_any] and [get_connected_peers]. *)
Definition accepted n (w : StackRole * SocketAddr) : SocketAddr := normalize n w.2.

Definition get_connected_peers n (of_v6 of_v4 : list SocketAddr) : list SocketAddr :=
  let out := (if v6 n then of_v6 else []) ++ (if v4 n then of_v4 else []) in
  if is_dual_stack n then normalize_socket_addr <$> out else out.

Definition is_peer_connected_by_addr (dual_stack_alternate : SocketAddr → option SocketAddr) n a (connected : StackRole → SocketAddr → bool) : bool :=
  let probe r := bound n r && (connected r a || from_option (connected r) false (dual_stack_alternate a)) in
  probe RoleV6 || probe RoleV4.

(** Events of a stack, as they leave the boundary. *)
Inductive ConnectionEvent :=
  | Established (remote_address : SocketAddr) (public_key : option (list Z))
  | Lost (remote_address : SocketAddr) (reason : list Z)
  | Failed_ (remote_address : SocketAddr) (reason : list Z)
  | PeerAddressUpdated (peer_addr advertised_addr : SocketAddr).

Definition normalize_connection_event (ev : ConnectionEvent) : ConnectionEvent :=
  match ev with
  | Established a k => Established (normalize_socket_addr a) k
  | Lost a r => Lost (normalize_socket_addr a) r
  | Failed_ a r => Failed_ (normalize_socket_addr a) r
  | PeerAddressUpdated p a => PeerAddressUpdated (normalize_socket_addr p) (normalize_socket_addr a)
  end.
Definition forwarded n (r : StackRole) (ev : ConnectionEvent) : ConnectionEvent :=
  match r with RoleV6 => if is_dual_stack n then normalize_connection_event ev else ev | RoleV4 => ev end.
Definition event_address (ev : ConnectionEvent) : SocketAddr :=
  match ev with Established a _ | Lost a _ | Failed_ a _ | PeerAddressUpdated a _ => a end.

Definition get_observed_external_addresses n (observed : StackRole → option SocketAddr) : list SocketAddr :=
  foldl (λ out r,
    match (if bound n r then observed r else None) with
    | Some raw => let a := normalize n raw in if bool_decide (a ∈ out) then out else out ++ [a]
    | None => out
    end) [] [RoleV4; RoleV6].
Definition get_observed_external_address n (observed : StackRole → option SocketAddr) : option SocketAddr :=
  let seen_by r := if bound n r then observed r else None in
  normalize n <$> match seen_by RoleV4 with Some a => Some a | None => seen_by RoleV6 end.

(** ** Dialling *)

Definition bucket_targets (targets : list SocketAddr) : list SocketAddr * list SocketAddr :=
  let l := normalize_socket_addr <$> targets in
  (List.filter (λ a, negb (is_ipv4 a)) l, List.filter is_ipv4 l).

Definition to_dual_stack_dial_list (targets : list SocketAddr) : list SocketAddr :=
  (λ a, match a with SocketV4 ip port => mapped ip port | SocketV6 _ _ _ _ => a end) <$> targets.

Record DialedPeer := mk_dialed { remote_addr : SocketAddr; tls_key : list Z }.

(** [attempt r again a]: the answer of stack [r] to a dial of [a], the first
    time or after the other stack has given up. *)
Context (attempt : StackRole → bool → SocketAddr → option DialedPeer).

Fixpoint connect_each (r : StackRole) (again : bool) (targets : list SocketAddr) : option DialedPeer :=
  match targets with
  | [] => None
  | a :: rest => match attempt r again a with Some peer => Some peer | None => connect_each r again rest end
  end.

Inductive DialError := NoSuitableTransport | AllFailed.

(** [connect_happy_eyeballs_authenticated]: [v6_first] says which of the two
    racing futures completes first; the other one is dropped. *)
Definition connect_happy_eyeballs_authenticated n (targets : list SocketAddr) (v6_first : bool) : result DialedPeer DialError :=
  let settle r l :=
    match connect_each r false l with
    | Some peer => Ok (mk_dialed (normalize n (remote_addr peer)) (tls_key peer))
    | None => Err AllFailed
    end in
  if is_dual_stack n then
    match to_dual_stack_dial_list targets with
    | [] => Err NoSuitableTransport
    | l => if v6 n then settle RoleV6 l else Err AllFailed
    end
  else
    let '(v6_targets, v4_targets) := bucket_targets targets in
    let has6 := v6 n && negb (bool_decide (v6_targets = [])) in
    let has4 := v4 n && negb (bool_decide (v4_targets = [])) in
    if has6 && has4 then
      let race first l other l' :=
        match connect_each first false l with
        | Some peer => Ok peer
        | None => match connect_each other true l' with Some peer => Ok peer | None => Err AllFailed end
        end in
      if v6_first then race RoleV6 v6_targets RoleV4 v4_targets else race RoleV4 v4_targets RoleV6 v6_targets
    else if has6 then settle RoleV6 v6_targets
    else if has4 then settle RoleV4 v4_targets
    else Err NoSuitableTransport.

(** ** Proactive relays *)

Inductive RelayAction := Prepared (r : StackRole) (public : SocketAddr) | Published (r : StackRole) (public : SocketAddr) | Aborted (r : StackRole) (public : SocketAddr).

(** [self.v4.as_ref().or(self.v6.as_ref())], and the reverse for IPv6. *)
Definition stack_for n a : option StackRole :=
  let or r r' := if bound n r then Some r else if bound n r' then Some r' else None in
  if is_ipv4 a then or RoleV4 RoleV6 else or RoleV6 RoleV4.

(** What the endpoint answers: the public address of an allocation, and
    whether publishing it succeeds. *)
Context (allocate : StackRole → SocketAddr → option SocketAddr) (publishes : StackRole → SocketAddr → bool).

Definition prepare_proactive_relay n (relay_addr : SocketAddr) : option SocketAddr * list RelayAction :=
  match stack_for n relay_addr with
  | None => (None, [])
  | Some r =>
      match allocate r relay_addr with
      | None => (None, [])
      | Some public =>
          if negb (eqb (is_ipv4 public) (is_ipv4 relay_addr)) then (None, [Prepared r public; Aborted r public])
          else (Some public, [Prepared r public])
      end
  end.
Definition publish_proactive_relay n (public : SocketAddr) : bool * list RelayAction :=
  match stack_for n public with
  | None => (false, [])
  | Some r => if publishes r public then (true, [Published r public]) else (false, [])
  end.
Definition abort_proactive_relay n (public : SocketAddr) : list RelayAction :=
  match stack_for n public with None => [] | Some r => [Aborted r public] end.
Definition setup_proactive_relay n (relay_addr : SocketAddr) : option SocketAddr * list RelayAction :=
  let '(prepared, actions) := prepare_proactive_relay n relay_addr in
  match prepared with
  | None => (None, actions)
  | Some public =>
      let '(ok, more) := publish_proactive_relay n public in
      if ok then (Some public, actions ++ more) else (None, actions ++ more ++ abort_proactive_relay n public)
  end.

(** ** What the boundary guarantees *)

Context (normalize_v4 : ∀ ip port, normalize_socket_addr (SocketV4 ip port) = SocketV4 ip port)
  (normalize_v6 : ∀ ip port flow scope, normalize_socket_addr (SocketV6 ip port flow scope) =
     match to_ipv4_mapped ip with Some ip4 => SocketV4 ip4 port | None => SocketV6 ip port flow scope end).

Lemma normalize_mapped ip port : normalize_socket_addr (mapped ip port) = SocketV4 ip port.
Proof using normalize_v6. unfold mapped. by rewrite normalize_v6, to_ipv4_mapped_mapped. Qed.

Lemma normalize_plain a : is_mapped a = false → normalize_socket_addr a = a.
Proof using normalize_v4 normalize_v6.
  destruct a as [ip port|ip port flow scope]; [by rewrite normalize_v4|]. cbn. rewrite normalize_v6. by destruct (to_ipv4_mapped ip).
Qed.

Lemma normalized_plain a : is_mapped (normalize_socket_addr a) = false.
Proof using normalize_v4 normalize_v6.
  destruct a as [ip port|ip port flow scope]; [by rewrite normalize_v4|]. rewrite normalize_v6.
  destruct (to_ipv4_mapped ip) eqn:Hm; [done|]. cbn. by rewrite Hm.
Qed.

(** The form in which a socket knows a connection: the v4 socket plain IPv4,
    the v6 socket IPv6, and IPv4-mapped only if it serves both families. *)
Definition wire_ok n (w : StackRole * SocketAddr) : Prop :=
  bound n w.1 = true ∧
  match w.1 with
  | RoleV4 => is_ipv4 w.2 = true
  | RoleV6 => is_ipv4 w.2 = false ∧ (is_mapped w.2 = true → is_dual_stack n = true ∧ ∃ ip port, w.2 = mapped ip port)
  end.


(** Whatever address it is given, mapped or not: the stack picked is bound, takes the wire address it is given, and the wire
    address names the target; nothing is picked only when no socket serves the target's family; there is no second choice. *)
Lemma dispatch_sound (b6 b4 : bool) a : let n := with_transports b6 b4 in
  (pick_stacks_for n a).2 = None ∧
  match (pick_stacks_for n a).1 with
  | Some (r, w) => bound n r = true ∧ is_ipv4 w = bool_decide (r = RoleV4) ∧ normalize_socket_addr w = normalize_socket_addr a
  | None => b6 = false ∧ (b4 = true → is_ipv4 (normalize_socket_addr a) = false)
  end.
Proof using normalize_v4 normalize_v6.
  assert (Hidem : normalize_socket_addr (normalize_socket_addr a) = normalize_socket_addr a) by apply normalize_plain, normalized_plain.
  unfold pick_stacks_for, decide_dispatch, with_transports, resolve. cbn. destruct (normalize_socket_addr a) as [ip port|ip port f s] eqn:Hn.
  - destruct b6, b4; cbn; rewrite ?normalize_mapped; repeat split; done.
  - destruct b6, b4; cbn; repeat split; done.
Qed.

Lemma connect_each_Some r again l peer : connect_each r again l = Some peer → ∃ a, a ∈ l ∧ attempt r again a = Some peer.
Proof.
  induction l as [|a l IH]; cbn [connect_each]; [done|]. destruct (attempt r again a) as [p|] eqn:Ha.
  - intros [= <-]. exists a. split; [by left|done].
  - intros (b & Hb & ?)%IH. exists b. split; [by right|done].
Qed.

Lemma connect_each_None r again l : connect_each r again l = None → ∀ a, a ∈ l → attempt r again a = None.
Proof.
  induction l as [|a l IH]; cbn [connect_each]; intros H b Hb; [by apply elem_of_nil in Hb|].
  destruct (attempt r again a) eqn:Ha; [done|]. apply elem_of_cons in Hb as [->|Hb]; [done|by apply IH].
Qed.

Lemma elem_of_buckets a targets :
  (a ∈ (bucket_targets targets).1 ↔ is_ipv4 a = false ∧ ∃ t, t ∈ targets ∧ a = normalize_socket_addr t) ∧
  (a ∈ (bucket_targets targets).2 ↔ is_ipv4 a = true ∧ ∃ t, t ∈ targets ∧ a = normalize_socket_addr t).
Proof.
  unfold bucket_targets. cbn. rewrite !elem_of_List_filter, !list_elem_of_fmap, negb_true_iff. naive_solver.
Qed.

(** A target was dialled in vain: on the socket and in the form dispatch would pick. *)
Definition dialled_in_vain n t : Prop := ∃ r again w, bound n r = true ∧ normalize_socket_addr w = normalize_socket_addr t ∧ attempt r again w = None.
Definition unroutable n t : Prop := (pick_stacks_for n t).1 = None.

Lemma unroutable_split n t : is_dual_stack n = false → unroutable n t ↔
  (if is_ipv4 (normalize_socket_addr t) then v4 n else v6 n) = false.
Proof.
  intros Hd. unfold unroutable, pick_stacks_for, decide_dispatch. rewrite Hd. cbn. destruct (is_ipv4 (normalize_socket_addr t)).
  - destruct (v4 n) eqn:H; cbn; [unfold resolve; cbn; by rewrite H|done].
  - destruct (v6 n) eqn:H; cbn; [unfold resolve; cbn; by rewrite H|done].
Qed.

Definition bucket (r : StackRole) (targets : list SocketAddr) : list SocketAddr :=
  match r with RoleV6 => (bucket_targets targets).1 | RoleV4 => (bucket_targets targets).2 end.

Lemma elem_of_bucket r a targets : a ∈ bucket r targets ↔ is_ipv4 a = bool_decide (r = RoleV4) ∧ ∃ t, t ∈ targets ∧ a = normalize_socket_addr t.
Proof. destruct r; apply elem_of_buckets. Qed.

(** [peer] is what a bound socket answered to one of the targets. *)
Definition dialled_ok n (targets : list SocketAddr) (peer : DialedPeer) : Prop :=
  ∃ r again w t p, bound n r = true ∧ t ∈ targets ∧ normalize_socket_addr w = normalize_socket_addr t ∧
    attempt r again w = Some p ∧ tls_key peer = tls_key p ∧ remote_addr peer = normalize n (remote_addr p).

Lemma split_success n r again targets peer : is_dual_stack n = false → bound n r = true →
  connect_each r again (bucket r targets) = Some peer → dialled_ok n targets peer.
Proof using normalize_v4 normalize_v6.
  intros Hd Hb (w & (_ & t & Ht & ->)%elem_of_bucket & Ha)%connect_each_Some. exists r, again, (normalize_socket_addr t), t, peer.
  split_and!; [done|done|apply normalize_plain, normalized_plain|done|done|]. unfold normalize. by rewrite Hd.
Qed.

Lemma split_in_vain n r again targets t : connect_each r again (bucket r targets) = None →
  bound n r = true → t ∈ targets → is_ipv4 (normalize_socket_addr t) = bool_decide (r = RoleV4) → dialled_in_vain n t.
Proof using normalize_v4 normalize_v6.
  intros Hnone Hb Ht Hfam. exists r, again, (normalize_socket_addr t). split_and!; [done|apply normalize_plain, normalized_plain|].
  eapply connect_each_None; [exact Hnone|]. apply elem_of_bucket. eauto.
Qed.

(** A target whose socket is missing or whose bucket is empty has no socket. *)
Lemma split_unroutable n r targets t : is_dual_stack n = false → t ∈ targets → is_ipv4 (normalize_socket_addr t) = bool_decide (r = RoleV4) →
  bound n r && negb (bool_decide (bucket r targets = [])) = false → unroutable n t.
Proof.
  intros Hd Ht Hf Hno. rewrite bool_decide_false, andb_true_r in Hno.
  - apply unroutable_split; [done|]. rewrite Hf. by destruct r.
  - intros Hnil. assert (Hin : normalize_socket_addr t ∈ bucket r targets) by (apply elem_of_bucket; eauto).
    rewrite Hnil in Hin. by apply elem_of_nil in Hin.
Qed.

Definition dial_outcome_ok n (targets : list SocketAddr) (out : result DialedPeer DialError) : Prop :=
  match out with
  | Ok peer => dialled_ok n targets peer
  | Err NoSuitableTransport => ∀ t, t ∈ targets → unroutable n t
  | Err AllFailed => ∀ t, t ∈ targets → unroutable n t ∨ dialled_in_vain n t
  end.

(** One stack's bucket was dialled in vain, and the other's too or it has
    none. *)
Lemma both_in_vain n r r' again targets : is_dual_stack n = false → r ≠ r' → bound n r = true → connect_each r again (bucket r targets) = None →
  (bound n r' && negb (bool_decide (bucket r' targets = [])) = false ∨
   bound n r' = true ∧ ∃ again', connect_each r' again' (bucket r' targets) = None) →
  ∀ t, t ∈ targets → unroutable n t ∨ dialled_in_vain n t.
Proof using normalize_v4 normalize_v6.
  intros Hd Hne Hb Hc Hother t Ht. destruct (decide (is_ipv4 (normalize_socket_addr t) = bool_decide (r = RoleV4))) as [Hf|Hf].
  { right. by eapply split_in_vain. }
  assert (Hf' : is_ipv4 (normalize_socket_addr t) = bool_decide (r' = RoleV4)) by (destruct r, r', (is_ipv4 _); done).
  destruct Hother as [Hno|[Hb' [again' Hc']]]; [left; by eapply split_unroutable|right; by eapply split_in_vain].
Qed.

Lemma dual_dial_ok n targets v6_first : is_dual_stack n = true → v6 n = true →
  dial_outcome_ok n targets (connect_happy_eyeballs_authenticated n targets v6_first).
Proof using normalize_v4 normalize_v6.
  intros Hd Hb6. unfold connect_happy_eyeballs_authenticated. rewrite Hd, Hb6.
  set (wire := λ a, match a with SocketV4 ip port => mapped ip port | SocketV6 _ _ _ _ => a end).
  assert (Hmap : ∀ t, normalize_socket_addr (wire t) = normalize_socket_addr t).
  { intros [ip port|]; [by cbn; rewrite normalize_mapped, normalize_v4|done]. }
  change (to_dual_stack_dial_list targets) with (wire <$> targets). destruct (wire <$> targets) as [|a l] eqn:Hl.
  { apply fmap_nil_inv in Hl as ->. intros t Ht. by apply elem_of_nil in Ht. }
  destruct (connect_each RoleV6 false (a :: l)) as [peer|] eqn:Hc; rewrite <-Hl in Hc.
  - apply connect_each_Some in Hc as (w & (t & -> & Ht)%list_elem_of_fmap & Ha). exists RoleV6, false, (wire t), t, peer.
    split_and!; [done|done|apply Hmap|exact Ha|done|done].
  - intros t Ht. right. exists RoleV6, false, (wire t). split_and!; [done|apply Hmap|].
    eapply connect_each_None; [exact Hc|]. by apply list_elem_of_fmap_2.
Qed.

Lemma split_dial_ok n targets v6_first : is_dual_stack n = false →
  dial_outcome_ok n targets (connect_happy_eyeballs_authenticated n targets v6_first).
Proof using normalize_v4 normalize_v6.
  intros Hd. unfold connect_happy_eyeballs_authenticated. rewrite Hd.
  assert (Hid : ∀ p, mk_dialed (normalize n (remote_addr p)) (tls_key p) = p) by (intros []; unfold normalize; by rewrite Hd).
  destruct (bucket_targets targets) as [l6 l4] eqn:Hbt.
  assert (H6 : bucket RoleV6 targets = l6) by (unfold bucket; by rewrite Hbt). assert (H4 : bucket RoleV4 targets = l4) by (unfold bucket; by rewrite Hbt).
  change (v6 n) with (bound n RoleV6). change (v4 n) with (bound n RoleV4). rewrite <-H6, <-H4. clear H6 H4 Hbt.
  destruct (bound n RoleV6 && _) eqn:Hhas6, (bound n RoleV4 && _) eqn:Hhas4; cbn [andb].
  4: { intros t Ht. destruct (is_ipv4 (normalize_socket_addr t)) eqn:Hf; [by eapply (split_unroutable n RoleV4)|by eapply (split_unroutable n RoleV6)]. }
  all: try (pose proof (proj1 (proj1 (andb_true_iff _ _) Hhas6)) as Hb6); try (pose proof (proj1 (proj1 (andb_true_iff _ _) Hhas4)) as Hb4).
  1: destruct v6_first.
  all: repeat match goal with |- context [connect_each ?r ?b ?l] => destruct (connect_each r b l) eqn:? end; cbn [dial_outcome_ok].
  all: rewrite ?Hid; eauto using split_success.
  - by eapply (both_in_vain n RoleV6 RoleV4); eauto.
  - by eapply (both_in_vain n RoleV4 RoleV6); eauto.
  - by eapply (both_in_vain n RoleV6 RoleV4); eauto.
  - by eapply (both_in_vain n RoleV4 RoleV6); eauto.
Qed.

(** C25: a dial gives up only when it has tried everything.  However the two races end, a dial that fails has dialled every
    target some socket can carry, or none of them can be carried; a dial that succeeds returns what a bound socket answered to
    one of the targets, with an address of the form the rest of the node uses. *)
Theorem happy_eyeballs_complete (b6 b4 : bool) (targets : list SocketAddr) (v6_first : bool) :
  let n := with_transports b6 b4 in
  match connect_happy_eyeballs_authenticated n targets v6_first with
  | Ok peer => ∃ r again w t p, bound n r = true ∧ t ∈ targets ∧ normalize_socket_addr w = normalize_socket_addr t ∧
      attempt r again w = Some p ∧ tls_key peer = tls_key p ∧ remote_addr peer = normalize n (remote_addr p)
  | Err NoSuitableTransport => ∀ t, t ∈ targets → unroutable n t
  | Err AllFailed => ∀ t, t ∈ targets → unroutable n t ∨ dialled_in_vain n t
  end.
Proof using normalize_v4 normalize_v6.
  intros n. destruct (is_dual_stack n) eqn:Hd; [|by apply split_dial_ok]. apply dual_dial_ok; [done|]. cbn in *. by destruct b6.
Qed.

(** Every relay session that is set up is published or aborted, on the stack that has it. *)
Lemma relay_setup_clean n relay_addr :
  (setup_proactive_relay n relay_addr).2 = [] ∨
  ∃ r public, (setup_proactive_relay n relay_addr).2 = Prepared r public ::
    (if bool_decide ((setup_proactive_relay n relay_addr).1 = Some public) then [Published r public] else [Aborted r public]).
Proof.
  unfold setup_proactive_relay, prepare_proactive_relay. destruct (stack_for n relay_addr) as [r|] eqn:Hr; [|by left].
  destruct (allocate r relay_addr) as [public|]; [|by left].
  destruct (eqb (is_ipv4 public) (is_ipv4 relay_addr)) eqn:Hf; cbn [negb]; [|right; by exists r, public].
  apply eqb_prop in Hf. right. exists r, public. unfold publish_proactive_relay, abort_proactive_relay.
  assert (Hsame : stack_for n public = Some r) by (unfold stack_for in *; by rewrite Hf). rewrite Hsame.
  destruct (publishes r public); cbn; [by rewrite bool_decide_true|done].
Qed.
End dual.
