(* ===== verification/DualStackSamples.v ===== *)
(** * Sockets at work

    The normalisation of the transport library as an executable function, the
    theorems of [DualStack] applied, and two targets that take a wrong turn. *)

From stdpp Require Import prelude gmap.
From S2P Require Import Prelude Keys Ip Models DualStack.

Module DualStackSamples.

Definition unmap (a : SocketAddr) : SocketAddr :=
  match a with
  | SocketV4 _ _ => a
  | SocketV6 ip port _ _ => match to_ipv4_mapped ip with Some ip4 => SocketV4 ip4 port | None => a end
  end.
Lemma unmap_v4 ip port : unmap (SocketV4 ip port) = SocketV4 ip port.
Proof. done. Qed.
Lemma unmap_v6 ip port flow scope : unmap (SocketV6 ip port flow scope) =
  match to_ipv4_mapped ip with Some ip4 => SocketV4 ip4 port | None => SocketV6 ip port flow scope end.
Proof. done. Qed.

Definition host (n : Z) : Ipv4Addr := ipv4 203 0 113 n.
Definition plain (n : Z) : SocketAddr := SocketV4 (host n) 9000.
Definition mapped_host (n : Z) : SocketAddr := mapped (host n) 9000.
Definition six (n : Z) : option SocketAddr :=
  (λ o, SocketV6 o 9000 0 0) <$> octets_of_list [32; 1; 13; 184; 0; 0; 0; 0; 0; 0; 0; 0; 0; 0; 0; n]%Z.


(** Nobody answers: an IPv4-only node has tried the mapped target on its
    socket, and the IPv6 target has none. *)
Definition silent (_ : StackRole) (_ : bool) (_ : SocketAddr) : option DialedPeer := None.
Lemma happy_eyeballs_witness :
  connect_happy_eyeballs_authenticated unmap silent (with_transports false true) [mapped_host 7] true = Err AllFailed ∧
  (unroutable unmap (with_transports false true) (mapped_host 7) ∨ dialled_in_vain unmap silent (with_transports false true) (mapped_host 7)).
Proof.
  assert (Hf : connect_happy_eyeballs_authenticated unmap silent (with_transports false true) [mapped_host 7] true = Err AllFailed) by (vm_compute; reflexivity).
  split; [exact Hf|].
  pose proof (happy_eyeballs_complete unmap silent unmap_v4 unmap_v6 false true [mapped_host 7] true) as H. cbn zeta in H. rewrite Hf in H.
  apply H. by left.
Defined.

(** A mapped target is carried by the v4 socket, says the dispatcher that
    raw sends and disconnects follow; the optimised send hands it to the v6
    socket, or to none. *)
Lemma mapped_target_misrouted :
  pick_stacks_for unmap (with_transports true true) (mapped_host 7) = (Some (RoleV4, plain 7), None) ∧
  optimized_route (with_transports true true) (mapped_host 7) = Some (RoleV6, mapped_host 7) ∧
  pick_stacks_for unmap (with_transports false true) (mapped_host 7) = (Some (RoleV4, plain 7), None) ∧
  optimized_route (with_transports false true) (mapped_host 7) = None.
Proof. split_and!; by_decide. Qed.

(** A node bound to one IPv6 address, with no IPv4 address configured, takes
    itself for one whose socket serves both families. *)
Lemma v6_only_taken_for_dual :
  (a ← six 1; new_with_options (Some a) None Bound Bound) = Some (with_transports true false) ∧ is_dual_stack (with_transports true false) = true ∧
  (unspecified_v6 <$> six 1) = Some false.
Proof. split_and!; vm_compute; reflexivity. Qed.
End DualStackSamples.
