(* ===== verification/DirectProof.v ===== *)
(** * Passive proof of direct reachability

    The classifier of [src/transport/saorsa_transport_adapter.rs] that decides
    which of the node's external addresses strangers can dial, with the dial
    bookkeeping and the threshold of [src/transport_handle.rs] that feed and
    read it.  A stranger's inbound connection makes its IP eligible; its
    reports of our external address credit that address once it is pinned;
    two distinct observers prove it.

    The classifier and the address forwarder run as separate tasks, two of
    each on a dual-stack host, over shared concurrent maps.  Every handler is
    a [task] whose steps are the map operations.  Two history fields, which
    no operation reads, record which addresses were ever pinned and what
    [record_attributed_observer] has returned. *)

From stdpp Require Import prelude gmap.
From S2P Require Import Prelude Ip Address PeerRecord SelfAddress Tasks.

Definition MIN_DISTINCT_OBSERVERS_FOR_DIRECT : nat := 2.
Definition MAX_OBSERVATIONS_PER_PEER : nat := 8.
Definition ADDRESS_EVENT_CHANNEL_CAPACITY : nat := 256.

Inductive Side := Client | Server.

(** The work queue of the reachability driver and the latest value for
    observers; a full queue drops the event. *)
Record AddressEventPublisher := mk_publisher { latest : option SocketAddr; queue : list SocketAddr }.

Definition emit (p : AddressEventPublisher) (a : SocketAddr) : AddressEventPublisher :=
  mk_publisher (Some a)
    (if (length (queue p) <? ADDRESS_EVENT_CHANNEL_CAPACITY)%nat then queue p ++ [a] else queue p).

Record ProofState := mk_proof {
  dialed_addrs : gset SocketAddr;
  known_peer_ips : gset IpAddr;
  external_addresses : ExternalAddresses;
  peer_observations : gmap IpAddr (gset SocketAddr);
  proof_eligible_peers : gset IpAddr;
  proven_externals : gmap SocketAddr (gset IpAddr);
  direct_promoted_events : AddressEventPublisher;
  self_address_updated_events : AddressEventPublisher;
  pinned_once : gset SocketAddr;
  crossings : list SocketAddr;
}.

Definition proof_new : ProofState :=
  mk_proof ∅ ∅ external_new ∅ ∅ ∅ (mk_publisher None []) (mk_publisher None []) ∅ [].

Section direct_proof.
Context `{TL : TransportLib} `{HO : HashOrder}.
Context (normalize_socket_addr : SocketAddr → SocketAddr).
Implicit Types (s : ProofState) (ip : IpAddr) (a ext : SocketAddr).

Definition dial_recorded a s : ProofState :=
  mk_proof ({[a]} ∪ dialed_addrs s) (known_peer_ips s) (external_addresses s) (peer_observations s)
    (proof_eligible_peers s) (proven_externals s) (direct_promoted_events s) (self_address_updated_events s)
    (pinned_once s) (crossings s).
Definition ip_known ip s : ProofState :=
  mk_proof (dialed_addrs s) ({[ip]} ∪ known_peer_ips s) (external_addresses s) (peer_observations s)
    (proof_eligible_peers s) (proven_externals s) (direct_promoted_events s) (self_address_updated_events s)
    (pinned_once s) (crossings s).
Definition ip_eligible ip s : ProofState :=
  mk_proof (dialed_addrs s) (known_peer_ips s) (external_addresses s) (peer_observations s)
    ({[ip]} ∪ proof_eligible_peers s) (proven_externals s) (direct_promoted_events s) (self_address_updated_events s)
    (pinned_once s) (crossings s).
Definition with_external s (e : ExternalAddresses) (pinned : gset SocketAddr) : ProofState :=
  mk_proof (dialed_addrs s) (known_peer_ips s) e (peer_observations s) (proof_eligible_peers s) (proven_externals s)
    (direct_promoted_events s) (self_address_updated_events s) pinned (crossings s).
Definition with_observations s (o : gmap IpAddr (gset SocketAddr)) : ProofState :=
  mk_proof (dialed_addrs s) (known_peer_ips s) (external_addresses s) o (proof_eligible_peers s) (proven_externals s)
    (direct_promoted_events s) (self_address_updated_events s) (pinned_once s) (crossings s).
Definition with_publishers s (promoted updated : AddressEventPublisher) : ProofState :=
  mk_proof (dialed_addrs s) (known_peer_ips s) (external_addresses s) (peer_observations s) (proof_eligible_peers s)
    (proven_externals s) promoted updated (pinned_once s) (crossings s).

Definition observed s ip : gset SocketAddr := default ∅ (peer_observations s !! ip).
Definition observers s ext : gset IpAddr := default ∅ (proven_externals s !! ext).

(** [external_meets_proof_threshold]. *)
Definition is_external_proven s ext : bool :=
  (MIN_DISTINCT_OBSERVERS_FOR_DIRECT <=? size (observers s (normalize_socket_addr ext)))%nat.

(** ** Crediting *)

Definition record_attributed_observer ip ext (proven : gmap SocketAddr (gset IpAddr))
    : option SocketAddr * gmap SocketAddr (gset IpAddr) :=
  let before := default ∅ (proven !! ext) in
  let entry := {[ip]} ∪ before in
  (if bool_decide (ip ∈ before) then None
   else if Nat.eqb (size entry) MIN_DISTINCT_OBSERVERS_FOR_DIRECT then Some ext else None,
   <[ext := entry]> proven).

Definition credit_step ip ext s : ProofState :=
  let '(r, proven) := record_attributed_observer ip ext (proven_externals s) in
  mk_proof (dialed_addrs s) (known_peer_ips s) (external_addresses s) (peer_observations s) (proof_eligible_peers s)
    proven (direct_promoted_events s) (self_address_updated_events s) (pinned_once s) (crossings s ++ option_list r).

Definition credit_result ip ext s : option SocketAddr := (record_attributed_observer ip ext (proven_externals s)).1.

(** Steps that only read. *)
Definition observe (next : ProofState → task ProofState) : task ProofState := Act (λ s, s) next.

Fixpoint emit_promoted (l : list SocketAddr) : task ProofState :=
  match l with
  | [] => Finished
  | a :: rest =>
      Act (λ s, with_publishers s (emit (direct_promoted_events s) a) (self_address_updated_events s))
          (λ _, emit_promoted rest)
  end.

Definition emit_updated (added : option SocketAddr) (next : task ProofState) : task ProofState :=
  match added with
  | Some a => Act (λ s, with_publishers s (direct_promoted_events s) (emit (self_address_updated_events s) a)) (λ _, next)
  | None => next
  end.

(** [credit_observation]: [next] gets what [record_attributed_observer] returned. *)
Definition credit_observation ip ext (pinned_direct : list SocketAddr)
    (next : option SocketAddr → task ProofState) : task ProofState :=
  let n := normalize_socket_addr ext in
  if bool_decide (n ∈ pinned_direct) then Act (credit_step ip n) (λ s, next (credit_result ip n s)) else next None.

Fixpoint credit_each ip (exts pinned_direct promoted : list SocketAddr) : task ProofState :=
  match exts with
  | [] => emit_promoted promoted
  | ext :: rest => credit_observation ip ext pinned_direct (λ r, credit_each ip rest pinned_direct (promoted ++ option_list r))
  end.

(** ** The handlers *)

Definition remote_ip_of a : IpAddr := canonicalize_ip (socket_ip (normalize_socket_addr a)).

(** What [handle_peer_connected_for_proof] does once [was_known_before] is read. *)
Definition after_known_check ip (side : Side) (was_known_before : bool) : task ProofState :=
  Act (ip_known ip) (λ _,
    match side with
    | Client => Finished
    | Server =>
        if was_known_before then Finished
        else observe (λ s,
          let pinned_direct := ext_direct (external_addresses s) in
          if existsb (λ sa, bool_decide (canonicalize_ip (socket_ip sa) = ip)) pinned_direct then Finished
          else Act (ip_eligible ip) (λ _, observe (λ s,
                 match peer_observations s !! ip with
                 | Some reports => credit_each ip (set_iter reports) pinned_direct []
                 | None => Finished
                 end)))
    end).

Definition handle_peer_connected_for_proof (addr : TransportAddr) (side : Side) : task ProofState :=
  match as_socket_addr addr with
  | None => Finished
  | Some sa =>
      let ip := remote_ip_of sa in
      observe (λ s,
        if bool_decide (ip ∈ known_peer_ips s) then after_known_check ip side true
        else observe (λ s, after_known_check ip side (bool_decide (normalize_socket_addr sa ∈ dialed_addrs s))))
  end.

(** The entry of one peer and whether the report was new to it. *)
Definition record_observation (o : gmap IpAddr (gset SocketAddr)) ip ext : bool * gmap IpAddr (gset SocketAddr) :=
  let entry := default ∅ (o !! ip) in
  if (MAX_OBSERVATIONS_PER_PEER <=? size entry)%nat && negb (bool_decide (ext ∈ entry)) then (false, <[ip := entry]> o)
  else (negb (bool_decide (ext ∈ entry)), <[ip := {[ext]} ∪ entry]> o).

Definition handle_peer_observed_external (peer_addr observed_external : SocketAddr) : task ProofState :=
  let peer_ip := remote_ip_of peer_addr in
  let ext := normalize_socket_addr observed_external in
  Act (λ s, with_observations s (record_observation (peer_observations s) peer_ip ext).2) (λ s,
    if negb (record_observation (peer_observations s) peer_ip ext).1 then Finished
    else
      Act (λ s, with_external s (record_unverified normalize_socket_addr (external_addresses s) ext).2 (pinned_once s)) (λ s,
        let added := if (record_unverified normalize_socket_addr (external_addresses s) ext).1 then Some ext else None in
        observe (λ s,
          if negb (bool_decide (peer_ip ∈ proof_eligible_peers s)) then emit_updated added Finished
          else observe (λ s, credit_observation peer_ip ext (ext_direct (external_addresses s))
                 (λ promoted, emit_updated added (emit_promoted (option_list promoted))))))).

(** [back_fill_proof_on_pin]: the walk over the observations visits each
    entry on its own; the peers are those present when it starts. *)
Fixpoint back_fill_proof_on_pin ext (peers : list IpAddr) (promoted : list SocketAddr)
    (next : list SocketAddr → task ProofState) : task ProofState :=
  match peers with
  | [] => next promoted
  | ip :: rest =>
      observe (λ s,
        if negb (bool_decide (ip ∈ proof_eligible_peers s)) then back_fill_proof_on_pin ext rest promoted next
        else observe (λ s,
          if bool_decide (ext ∈ observed s ip)
          then Act (credit_step ip ext)
                 (λ s, back_fill_proof_on_pin ext rest (promoted ++ option_list (credit_result ip ext s)) next)
          else back_fill_proof_on_pin ext rest promoted next))
  end.

(** [ExternalAddressDiscovered] in the address forwarder. *)
Definition external_address_discovered (addr : TransportAddr) : task ProofState :=
  match as_socket_addr addr with
  | None => Finished
  | Some sa =>
      let normalized := normalize_socket_addr sa in
      Act (λ s, with_external s (pin_direct normalize_socket_addr (external_addresses s) normalized).2
                  (list_to_set (ext_direct (pin_direct normalize_socket_addr (external_addresses s) normalized).2)
                     ∪ pinned_once s)) (λ s,
        if (pin_direct normalize_socket_addr (external_addresses s) normalized).1 then
          observe (λ s, back_fill_proof_on_pin (normalize_socket_addr normalized) (fst <$> map_iter (peer_observations s)) []
            (λ promoted, match promoted with
                         | [] => emit_updated (Some normalized) Finished
                         | _ => emit_promoted promoted
                         end))
        else Finished)
  end.

(** A dial of [connect_peer]: the target is recorded before the dial starts. *)
Definition dial_started a : task ProofState :=
  let n := normalize_socket_addr a in
  Act (dial_recorded n) (λ _, Act (ip_known (canonicalize_ip (socket_ip n))) (λ _, Finished)).

Definition relay_set a : task ProofState :=
  Act (λ s, with_external s (set_relay normalize_socket_addr (external_addresses s) a) (pinned_once s)) (λ _, Finished).
Definition relay_cleared : task ProofState :=
  Act (λ s, with_external s (clear_relay (external_addresses s)) (pinned_once s)) (λ _, Finished).

(** The driver takes the next event of either queue. *)
Definition events_received : task ProofState :=
  Act (λ s, with_publishers s
         (mk_publisher (latest (direct_promoted_events s)) (tail (queue (direct_promoted_events s))))
         (self_address_updated_events s)) (λ _, Finished).
Definition updates_received : task ProofState :=
  Act (λ s, with_publishers s (direct_promoted_events s)
         (mk_publisher (latest (self_address_updated_events s)) (tail (queue (self_address_updated_events s)))))
    (λ _, Finished).

(** Everything that works on this state. *)
Inductive ProofEvent :=
  | PeerConnected (addr : TransportAddr) (side : Side)
  | PeerObservedExternal (peer_addr observed_external : SocketAddr)
  | ExternalAddressDiscovered (addr : TransportAddr)
  | DialStarted (target : SocketAddr)
  | RelaySet (addr : SocketAddr)
  | RelayCleared
  | PromotionReceived
  | UpdateReceived.

Definition handler (e : ProofEvent) : task ProofState :=
  match e with
  | PeerConnected addr side => handle_peer_connected_for_proof addr side
  | PeerObservedExternal p o => handle_peer_observed_external p o
  | ExternalAddressDiscovered addr => external_address_discovered addr
  | DialStarted a => dial_started a
  | RelaySet a => relay_set a
  | RelayCleared => relay_cleared
  | PromotionReceived => events_received
  | UpdateReceived => updates_received
  end.

Definition handlers (t : task ProofState) : Prop := ∃ e, t = handler e.

(** The events handled one at a time. *)
Definition proof_run (events : list ProofEvent) : ProofState := foldl (λ s e, run (handler e) s) proof_new events.

(** ** What is credited is earned, under every interleaving *)

Hypothesis normalize_idemp : ∀ a, normalize_socket_addr (normalize_socket_addr a) = normalize_socket_addr a.

Record proof_inv s : Prop := {
  obs_capped ip : size (observed s ip) ≤ MAX_OBSERVATIONS_PER_PEER;
  obs_normal ip ext : ext ∈ observed s ip → normalize_socket_addr ext = ext;
  direct_pinned a : a ∈ ext_direct (external_addresses s) → a ∈ pinned_once s;
  credit_earned ext ip : ip ∈ observers s ext →
    ip ∈ proof_eligible_peers s ∧ ext ∈ observed s ip ∧ ext ∈ pinned_once s;
  crossed_once : NoDup (crossings s);
  crossed_iff ext : ext ∈ crossings s ↔ MIN_DISTINCT_OBSERVERS_FOR_DIRECT ≤ size (observers s ext);
}.

Record proof_grows s s' : Prop := {
  eligible_grows : proof_eligible_peers s ⊆ proof_eligible_peers s';
  observed_grows ip : observed s ip ⊆ observed s' ip;
  pinned_grows : pinned_once s ⊆ pinned_once s';
  observers_grow ext : observers s ext ⊆ observers s' ext;
}.

#[local] Instance proof_grows_preorder : PreOrder proof_grows.
Proof.
  split.
  - intros s. by split.
  - intros s1 s2 s3 [H1 H2 H3 H4] [H1' H2' H3' H4'].
    split; [by etrans|intros ip; by etrans; [apply H2|]|by etrans|intros ext; by etrans; [apply H4|]].
Qed.

Lemma credit_observers ip ext s ext' :
  observers (credit_step ip ext s) ext' =
    if decide (ext = ext') then {[ip]} ∪ observers s ext else observers s ext'.
Proof.
  unfold observers, credit_step, record_attributed_observer. cbn [proven_externals]. case_decide as Heq.
  - subst ext'. by rewrite lookup_insert_eq.
  - by rewrite lookup_insert_ne.
Qed.

Lemma credit_crossings ip ext s : crossings (credit_step ip ext s) = crossings s ++ option_list (credit_result ip ext s).
Proof. done. Qed.

Lemma credit_result_spec ip ext s :
  credit_result ip ext s =
    if bool_decide ((ip ∉ observers s ext) ∧ size ({[ip]} ∪ observers s ext) = MIN_DISTINCT_OBSERVERS_FOR_DIRECT)
    then Some ext else None.
Proof.
  unfold credit_result, record_attributed_observer. cbn [fst]. fold (observers s ext).
  destruct (decide (ip ∈ observers s ext)) as [Hin|Hout].
  - rewrite !bool_decide_true by done. by rewrite bool_decide_false by tauto.
  - rewrite (bool_decide_false (ip ∈ _)) by done. destruct (Nat.eqb_spec (size ({[ip]} ∪ observers s ext)) MIN_DISTINCT_OBSERVERS_FOR_DIRECT).
    + by rewrite bool_decide_true.
    + by rewrite bool_decide_false by tauto.
Qed.

Lemma observers_step ip ext s :
  ip ∉ observers s ext → size ({[ip]} ∪ observers s ext) = S (size (observers s ext)).
Proof. intros Hout. rewrite size_union by set_solver. by rewrite size_singleton. Qed.

Lemma credit_keeps ip ext s :
  proof_inv s → ip ∈ proof_eligible_peers s → ext ∈ observed s ip → ext ∈ pinned_once s →
  proof_inv (credit_step ip ext s) ∧ proof_grows s (credit_step ip ext s).
Proof.
  intros [Hcap Hnorm Hpin Hcredit Hnd Hcross] He Ho Hp. split.
  - split; [done|done|done| | |].
    + intros ext' ip'. rewrite credit_observers. case_decide as Heq; [|apply Hcredit].
      subst ext'. rewrite elem_of_union, elem_of_singleton. intros [->|Hin]; [done|by apply Hcredit].
    + rewrite credit_crossings, credit_result_spec. case_bool_decide as Hd; cbn [option_list]; [|by rewrite app_nil_r].
      apply NoDup_app. split_and!; [done| |by apply NoDup_singleton].
      destruct Hd as [Hout Hsize]. rewrite observers_step in Hsize by done.
      intros x Hx ->%list_elem_of_singleton. apply Hcross in Hx. lia.
    + intros ext'. rewrite credit_crossings, credit_result_spec, credit_observers, elem_of_app, Hcross.
      destruct (decide (ip ∈ observers s ext)) as [Hin|Hout].
      * rewrite bool_decide_false by tauto. cbn [option_list].
        replace ({[ip]} ∪ observers s ext) with (observers s ext) by set_solver.
        case_decide; subst; set_solver.
      * rewrite observers_step by done. unfold MIN_DISTINCT_OBSERVERS_FOR_DIRECT in *. case_bool_decide as Hd; cbn.
        -- rewrite list_elem_of_singleton. destruct Hd as [_ Hd].
           case_decide as Heq; [subst ext'; rewrite observers_step by done; split; [lia|by right]|naive_solver].
        -- assert (S (size (observers s ext)) ≠ 2) by tauto. rewrite elem_of_nil.
           case_decide as Heq; [subst ext'; rewrite observers_step by done; lia|tauto].
  - split; [done|done|done|]. intros ext'. rewrite credit_observers. case_decide; subst; set_solver.
Qed.

Lemma publishers_keep s p u : proof_inv s → proof_inv (with_publishers s p u) ∧ proof_grows s (with_publishers s p u).
Proof. by intros [? ? ? ? ? ?]. Qed.

#[local] Abbreviation ok := (safe proof_inv proof_grows).

Lemma observe_ok next s : (∀ s', proof_grows s s' → ok (next s') s') → ok (observe next) s.
Proof. intros H s' Hg Hi. split_and!; [done..|by apply H]. Qed.

Lemma emit_promoted_ok l s : ok (emit_promoted l) s.
Proof.
  revert s. induction l as [|a rest IH]; intros s; [done|]. intros s' _ Hi.
  destruct (publishers_keep s' (emit (direct_promoted_events s') a) (self_address_updated_events s') Hi).
  split_and!; [done..|apply IH].
Qed.

Lemma emit_updated_ok added next s : (∀ s', ok next s') → ok (emit_updated added next) s.
Proof.
  intros Hnext. destruct added as [a|]; [|apply Hnext]. intros s' _ Hi.
  destruct (publishers_keep s' (direct_promoted_events s') (emit (self_address_updated_events s') a) Hi).
  split_and!; [done..|apply Hnext].
Qed.

Lemma credit_observation_ok ip ext pinned next s :
  ip ∈ proof_eligible_peers s → normalize_socket_addr ext ∈ observed s ip → (∀ a, a ∈ pinned → a ∈ pinned_once s) →
  (∀ r s', proof_grows s s' → ok (next r) s') →
  ok (credit_observation ip ext pinned next) s.
Proof.
  intros He Ho Hp Hnext. unfold credit_observation. cbv zeta. case_bool_decide as Hin; [|by apply Hnext].
  intros s' Hg Hi. destruct (credit_keeps ip (normalize_socket_addr ext) s' Hi) as [Hi' Hg'].
  - by apply (eligible_grows _ _ Hg).
  - by apply (observed_grows _ _ Hg).
  - by apply (pinned_grows _ _ Hg), Hp.
  - split_and!; [done..|]. apply Hnext. by transitivity s'.
Qed.

Lemma credit_each_ok ip pinned exts : ∀ promoted s,
  ip ∈ proof_eligible_peers s → (∀ ext, ext ∈ exts → normalize_socket_addr ext ∈ observed s ip) →
  (∀ a, a ∈ pinned → a ∈ pinned_once s) → ok (credit_each ip exts pinned promoted) s.
Proof.
  induction exts as [|ext rest IH]; intros promoted s He Ho Hp; [apply emit_promoted_ok|].
  apply credit_observation_ok; [done|by apply Ho; left|done|]. intros r s' Hg. apply IH.
  - by apply (eligible_grows _ _ Hg).
  - intros x Hx. apply (observed_grows _ _ Hg), Ho. by right.
  - intros a Ha. by apply (pinned_grows _ _ Hg), Hp.
Qed.

Lemma back_fill_ok ext next peers : ∀ promoted s,
  ext ∈ pinned_once s → (∀ l s', ok (next l) s') → ok (back_fill_proof_on_pin ext peers promoted next) s.
Proof.
  induction peers as [|ip rest IH]; intros promoted s Hp Hnext; [apply Hnext|].
  apply observe_ok. intros s1 Hg1. assert (Hp1 : ext ∈ pinned_once s1) by (by apply (pinned_grows _ _ Hg1)).
  case_bool_decide as He; [cbn [negb]|by apply IH]. apply observe_ok. intros s2 Hg2.
  assert (Hp2 : ext ∈ pinned_once s2) by (by apply (pinned_grows _ _ Hg2)).
  case_bool_decide as Ho; [|by apply IH]. intros s3 Hg3 Hi3.
  destruct (credit_keeps ip ext s3 Hi3) as [Hi' Hg'].
  - by apply (eligible_grows _ _ Hg3), (eligible_grows _ _ Hg2).
  - by apply (observed_grows _ _ Hg3).
  - by apply (pinned_grows _ _ Hg3).
  - split_and!; [done..|]. apply IH; [|done]. by apply (pinned_grows _ _ Hg'), (pinned_grows _ _ Hg3).
Qed.

Lemma known_keep ip s : proof_inv s → proof_inv (ip_known ip s) ∧ proof_grows s (ip_known ip s).
Proof. by intros [? ? ? ? ? ?]. Qed.

Lemma dial_keep a s : proof_inv s → proof_inv (dial_recorded a s) ∧ proof_grows s (dial_recorded a s).
Proof. by intros [? ? ? ? ? ?]. Qed.

Lemma eligible_keep ip s : proof_inv s → proof_inv (ip_eligible ip s) ∧ proof_grows s (ip_eligible ip s).
Proof.
  intros [Hcap Hnorm Hpin Hcredit Hnd Hcross]. split; [|split; [cbn; set_solver|done..]].
  split; [done..| |done|done]. intros ext ip' Hin. destruct (Hcredit ext ip' Hin) as (? & ? & ?).
  split_and!; [cbn; set_solver|done..].
Qed.

Lemma external_keep s e pinned :
  proof_inv s → pinned_once s ⊆ pinned → (∀ a, a ∈ ext_direct e → a ∈ pinned) →
  proof_inv (with_external s e pinned) ∧ proof_grows s (with_external s e pinned).
Proof.
  intros [Hcap Hnorm Hpin Hcredit Hnd Hcross] Hsub Hd. split; [|by split].
  split; [done|done|done| |done|done]. intros ext ip Hin. destruct (Hcredit ext ip Hin) as (? & ? & ?).
  split_and!; [done..|by apply Hsub].
Qed.

Lemma record_observation_observed s ip ext ip' :
  let s' := with_observations s (record_observation (peer_observations s) ip ext).2 in
  observed s' ip' =
    if decide (ip = ip') then
      if decide (MAX_OBSERVATIONS_PER_PEER ≤ size (observed s ip) ∧ ext ∉ observed s ip)
      then observed s ip else {[ext]} ∪ observed s ip
    else observed s ip'.
Proof.
  cbv zeta. unfold observed, record_observation. fold (observed s ip). cbn [peer_observations with_observations].
  destruct (decide (ip = ip')) as [<-|Hne].
  - destruct (Nat.leb_spec MAX_OBSERVATIONS_PER_PEER (size (observed s ip))) as [Hle|Hlt]; cbn [andb].
    + case_bool_decide as Hin; cbn [negb snd]; rewrite lookup_insert_eq; cbn; case_decide; tauto.
    + cbn [snd]. rewrite lookup_insert_eq. cbn. case_decide; [lia|done].
  - destruct (_ && _); cbn [snd]; by rewrite lookup_insert_ne.
Qed.

Lemma observation_keep ip ext s :
  proof_inv s → normalize_socket_addr ext = ext →
  let s' := with_observations s (record_observation (peer_observations s) ip ext).2 in
  proof_inv s' ∧ proof_grows s s'.
Proof.
  intros [Hcap Hnorm Hpin Hcredit Hnd Hcross] Hext. cbv zeta. set (s' := with_observations _ _).
  pose proof (record_observation_observed s ip ext) as Hobs. cbv zeta in Hobs. fold s' in Hobs.
  assert (Hgrow : ∀ ip', observed s ip' ⊆ observed s' ip').
  { intros ip'. rewrite Hobs. repeat case_decide; subst; set_solver. }
  split; [|by split]. split; [| |done| |done|done].
  - intros ip'. rewrite Hobs. destruct (decide (ip = ip')) as [_|_]; [|apply Hcap]. case_decide as Hfull; [apply Hcap|].
    destruct (decide (ext ∈ observed s ip)) as [Hin|Hout].
    { replace ({[ext]} ∪ observed s ip) with (observed s ip) by set_solver. apply Hcap. }
    assert (¬ MAX_OBSERVATIONS_PER_PEER ≤ size (observed s ip)) by tauto.
    rewrite size_union, size_singleton by set_solver. lia.
  - intros ip' x. rewrite Hobs. repeat case_decide; subst; try apply Hnorm.
    rewrite elem_of_union, elem_of_singleton. intros [->|?]; [done|by eapply Hnorm].
  - intros e i Hin. destruct (Hcredit e i Hin) as (? & ? & ?). split_and!; [done|by apply Hgrow|done].
Qed.

Lemma pin_direct_elem e a x :
  x ∈ ext_direct (pin_direct normalize_socket_addr e a).2 → x ∈ ext_direct e ∨ x = normalize_socket_addr a.
Proof.
  unfold pin_direct. cbv zeta. destruct (_ || _); [by left|]. cbn [snd ext_direct].
  intros Hx. eapply elem_of_sublist in Hx; [|apply push_capped_sublist].
  apply elem_of_app in Hx as [?|?%list_elem_of_singleton]; auto.
Qed.

Lemma pin_direct_new e a :
  (pin_direct normalize_socket_addr e a).1 = true →
  normalize_socket_addr a ∈ ext_direct (pin_direct normalize_socket_addr e a).2.
Proof. unfold pin_direct. cbv zeta. destruct (_ || _); [done|]. intros _. apply push_capped_elem. Qed.

Lemma record_unverified_direct e a : ext_direct (record_unverified normalize_socket_addr e a).2 = ext_direct e.
Proof. unfold record_unverified. cbv zeta. by repeat case_match. Qed.

Lemma after_known_ok ip side was s : ok (after_known_check ip side was) s.
Proof.
  intros s1 _ Hi1. destruct (known_keep ip s1 Hi1). split_and!; [done..|].
  destruct side, was; [done..|]. intros s2 Hg2 Hi2. split_and!; [done..|].
  cbv beta zeta. case_match; [done|]. intros s3 Hg3 Hi3. destruct (eligible_keep ip s3 Hi3) as [Hi3' Hg3'].
  split_and!; [done..|]. intros s4 Hg4 Hi4. split_and!; [done..|].
  destruct (peer_observations s4 !! ip) as [reports|] eqn:Hr; [|done].
  assert (Hobs : observed s4 ip = reports) by (unfold observed; by rewrite Hr). apply credit_each_ok.
  - apply (eligible_grows _ _ Hg4). cbn. set_solver.
  - intros ext. rewrite elem_of_set_iter, <-Hobs. intros Hx. by rewrite (obs_normal s4 Hi4 ip ext Hx).
  - intros a Ha. apply (direct_pinned s2 Hi2) in Ha.
    by apply (pinned_grows _ _ Hg4), (pinned_grows _ _ Hg3'), (pinned_grows _ _ Hg3).
Qed.

Lemma observed_external_ok p o s : ok (handle_peer_observed_external p o) s.
Proof.
  intros s1 _ Hi1. set (ip := remote_ip_of p). set (ext := normalize_socket_addr o).
  destruct (observation_keep ip ext s1 Hi1 (normalize_idemp o)) as [Hi1' Hg1]. split_and!; [done..|].
  pose proof (record_observation_observed s1 ip ext ip) as Hobs. cbv zeta in Hobs.
  destruct (record_observation (peer_observations s1) ip ext) as [recorded o'] eqn:Hrec. cbn [fst snd] in *.
  destruct recorded; [cbn [negb]|done].
  assert (Hin : ext ∈ observed (with_observations s1 o') ip).
  { rewrite Hobs. rewrite decide_True by done. unfold record_observation in Hrec. fold (observed s1 ip) in Hrec.
    destruct (decide (MAX_OBSERVATIONS_PER_PEER ≤ size (observed s1 ip) ∧ ext ∉ observed s1 ip)) as [[Hle Hout]|];
      [|set_solver].
    rewrite (bool_decide_false _ Hout) in Hrec. apply Nat.leb_le in Hle. by rewrite Hle in Hrec. }
  intros s2 Hg2 Hi2.
  destruct (external_keep s2 (record_unverified normalize_socket_addr (external_addresses s2) ext).2 (pinned_once s2) Hi2)
    as [Hi2' Hg2']; [done|by rewrite record_unverified_direct; apply (direct_pinned s2 Hi2)|].
  split_and!; [done..|]. cbv beta zeta. intros s3 Hg3 Hi3. split_and!; [done..|].
  case_bool_decide as He; [cbn [negb]|by apply emit_updated_ok].
  intros s4 Hg4 Hi4. split_and!; [done..|]. apply credit_observation_ok.
  - by apply (eligible_grows _ _ Hg4).
  - replace (normalize_socket_addr ext) with ext by (symmetry; apply normalize_idemp).
    apply (observed_grows _ _ Hg4), (observed_grows _ _ Hg3), (observed_grows _ _ Hg2'),
      (observed_grows _ _ Hg2). exact Hin.
  - apply (direct_pinned s4 Hi4).
  - intros r s5 _. apply emit_updated_ok. intros s6. apply emit_promoted_ok.
Qed.

Lemma discovered_ok addr s : ok (external_address_discovered addr) s.
Proof.
  unfold external_address_discovered. destruct (as_socket_addr addr) as [sa|]; [|done]. cbv zeta.
  set (n := normalize_socket_addr sa). intros s1 _ Hi1.
  set (e := (pin_direct normalize_socket_addr (external_addresses s1) n).2).
  destruct (external_keep s1 e (list_to_set (ext_direct e) ∪ pinned_once s1) Hi1) as [Hi1' Hg1]; [set_solver|set_solver|].
  split_and!; [done..|]. destruct (pin_direct _ _ _).1 eqn:Hpin; [|done]. apply pin_direct_new in Hpin.
  intros s2 Hg2 Hi2. split_and!; [done..|]. apply back_fill_ok.
  - apply (pinned_grows _ _ Hg2). cbn. unfold e. set_solver.
  - intros l s3. destruct l; [by apply emit_updated_ok|apply emit_promoted_ok].
Qed.

Lemma handler_ok e s : ok (handler e) s.
Proof.
  destruct e as [addr side|p o|addr|a|a| | |]; cbn [handler].
  - unfold handle_peer_connected_for_proof. destruct (as_socket_addr addr) as [sa|]; [|done].
    apply observe_ok. intros s1 _. cbv beta. case_bool_decide; [apply after_known_ok|].
    apply observe_ok. intros s2 _. apply after_known_ok.
  - apply observed_external_ok.
  - apply discovered_ok.
  - intros s1 _ Hi1. destruct (dial_keep (normalize_socket_addr a) s1 Hi1). split_and!; [done..|].
    intros s2 _ Hi2. destruct (known_keep (canonicalize_ip (socket_ip (normalize_socket_addr a))) s2 Hi2).
    by split_and!.
  - intros s1 _ Hi1.
    destruct (external_keep s1 (set_relay normalize_socket_addr (external_addresses s1) a) (pinned_once s1) Hi1); [done| |by split_and!].
    intros x Hx. apply (elem_of_without normalize_socket_addr) in Hx as [Hx _]. by apply (direct_pinned s1 Hi1).
  - intros s1 _ Hi1.
    destruct (external_keep s1 (clear_relay (external_addresses s1)) (pinned_once s1) Hi1); [done| |by split_and!].
    apply (direct_pinned s1 Hi1).
  - intros s1 _ Hi1. destruct (publishers_keep s1
      (mk_publisher (latest (direct_promoted_events s1)) (tail (queue (direct_promoted_events s1))))
      (self_address_updated_events s1) Hi1). by split_and!.
  - intros s1 _ Hi1. destruct (publishers_keep s1 (direct_promoted_events s1)
      (mk_publisher (latest (self_address_updated_events s1)) (tail (queue (self_address_updated_events s1)))) Hi1). by split_and!.
Qed.

Lemma proof_new_inv : proof_inv proof_new.
Proof.
  split; unfold observed, observers; cbn; try setoid_rewrite lookup_empty; cbn; try set_solver.
  - intros. rewrite size_empty. unfold MAX_OBSERVATIONS_PER_PEER. lia.
  - constructor.
  - intros ext. rewrite size_empty. unfold MIN_DISTINCT_OBSERVERS_FOR_DIRECT. split; [set_solver|lia].
Qed.

Lemma proof_reachable s : reachable handlers proof_new s → proof_inv s.
Proof using normalize_idemp.
  intros Hr. refine (proj1 (reachable_safe proof_inv proof_grows handlers _ proof_new s proof_new_inv Hr)).
  intros t s' [e ->] _. apply handler_ok.
Qed.


(** ** Peers the node knew before *)

Definition steps_aside ip s s' : Prop :=
  known_peer_ips s ⊆ known_peer_ips s' ∧ (ip ∈ proof_eligible_peers s' → ip ∈ proof_eligible_peers s).

Definition known_before ip s : Prop := ip ∈ known_peer_ips s ∧ (ip ∉ proof_eligible_peers s).

#[local] Abbreviation aside ip := (all_steps (steps_aside ip)).

Lemma emit_promoted_aside ip l : aside ip (emit_promoted l).
Proof. induction l as [|a rest IH]; [done|]. by intros s. Qed.

Lemma emit_updated_aside ip added next : aside ip next → aside ip (emit_updated added next).
Proof. destruct added as [a|]; [|done]. by intros H s. Qed.

Lemma credit_observation_aside ip ip' ext pinned next :
  (∀ r, aside ip (next r)) → aside ip (credit_observation ip' ext pinned next).
Proof. intros H. unfold credit_observation. cbv zeta. case_bool_decide; [|done]. by intros s. Qed.

Lemma credit_each_aside ip ip' pinned exts : ∀ promoted, aside ip (credit_each ip' exts pinned promoted).
Proof.
  induction exts as [|ext rest IH]; intros promoted; [apply emit_promoted_aside|]. by apply credit_observation_aside.
Qed.

Lemma back_fill_aside ip ext next peers : ∀ promoted,
  (∀ l, aside ip (next l)) → aside ip (back_fill_proof_on_pin ext peers promoted next).
Proof.
  induction peers as [|ip' rest IH]; intros promoted Hnext; [apply Hnext|]. intros s. split; [done|].
  case_bool_decide; [|by apply IH]. intros s'. split; [done|]. case_bool_decide; [|by apply IH].
  intros s''. split; [done|by apply IH].
Qed.

Lemma after_known_aside ip ip' side was : ip' ≠ ip ∨ was = true → aside ip (after_known_check ip' side was).
Proof.
  intros Hor s1. split; [split; cbn; set_solver|]. destruct side, was; [done..|]. destruct Hor as [Hne|?]; [|done].
  intros s2. split; [done|]. cbv beta zeta. case_match; [done|]. intros s3. split; [split; cbn; set_solver|].
  intros s4. split; [done|]. case_match; [apply credit_each_aside|done].
Qed.

Lemma handler_aside ip e s : known_before ip s → safe (known_before ip) (λ _ _, True) (handler e) s.
Proof.
  intros Hk.
  assert (Hall : ∀ t s, aside ip t → safe (known_before ip) (λ _ _, True) t s).
  { intros t s' Ht. eapply all_steps_safe, Ht. intros s1 s2 [H1 H2] [H3 H4]. split; [split; [set_solver|tauto]|done]. }
  destruct e as [addr side|p o|addr|a|a| | |]; cbn [handler]; [|apply Hall..].
  - unfold handle_peer_connected_for_proof. destruct (as_socket_addr addr) as [sa|]; [|done]. cbv zeta.
    intros s1 _ Hi1. split_and!; [done..|]. destruct (decide (remote_ip_of sa = ip)) as [->|Hne].
    + rewrite bool_decide_true by apply Hi1. apply Hall, after_known_aside. by right.
    + case_bool_decide; [apply Hall, after_known_aside; by left|]. intros s2 _ Hi2. split_and!; [done..|].
      apply Hall, after_known_aside. by left.
  - intros s1. split; [done|]. destruct (negb _); [done|]. intros s2. split; [done|]. cbv zeta. intros s3. split; [done|].
    destruct (negb _); [by apply emit_updated_aside|]. intros s4. split; [done|]. apply credit_observation_aside.
    intros r. apply emit_updated_aside, emit_promoted_aside.
  - unfold external_address_discovered. destruct (as_socket_addr addr) as [sa|]; [|done]. intros s1. split; [done|].
    destruct (pin_direct _ _ _).1; [|done]. intros s2. split; [done|]. apply back_fill_aside.
    intros [|? ?]; [by apply emit_updated_aside|apply emit_promoted_aside].
  - intros s1. split; [done|]. intros s2. split; [|done]. split; cbn; set_solver.
  - by intros s1.
  - by intros s1.
  - by intros s1.
  - by intros s1.
Qed.

(** a peer the node already knew proves nothing.  From any moment at which no handler is under way, an IP the node
    has dialled or been contacted by, and that is not an observer yet, is never credited for any address, whatever
    handlers run and however they interleave. *)
Theorem known_peer_never_proves ip s0 s :
  reachable handlers proof_new s0 → ip ∈ known_peer_ips s0 → (ip ∉ proof_eligible_peers s0) →
  reachable handlers s0 s → (ip ∉ proof_eligible_peers s) ∧ ∀ ext, ip ∉ observers s ext.
Proof using normalize_idemp.
  intros Hr0%proof_reachable Hk He Hr.
  assert (Hs : proof_inv s).
  { refine (proj1 (reachable_safe proof_inv proof_grows handlers _ s0 s Hr0 Hr)). intros t s' [e ->] _. apply handler_ok. }
  assert (Haside : known_before ip s).
  { refine (proj1 (reachable_safe (known_before ip) (λ _ _, True) handlers _ s0 s (conj Hk He) Hr)); [by split|].
    intros t s' [e ->]. apply handler_aside. }
  destruct Haside as [_ Haside]. split; [done|]. intros ext Hin. by destruct (credit_earned s Hs ext ip Hin).
Qed.

(** ** Events handled one at a time *)

(** What crediting and reporting leave alone. *)
Record credits s s' : Prop := {
  credits_dialed : dialed_addrs s' = dialed_addrs s;
  credits_known : known_peer_ips s' = known_peer_ips s;
  credits_external : external_addresses s' = external_addresses s;
  credits_observations : peer_observations s' = peer_observations s;
  credits_eligible : proof_eligible_peers s' = proof_eligible_peers s;
  credits_observers ext : observers s ext ⊆ observers s' ext;
}.

#[local] Instance credits_preorder : PreOrder credits.
Proof.
  split; [by intros s|]. intros s1 s2 s3 [H1 H2 H3 H4 H5 H6] [H1' H2' H3' H4' H5' H6'].
  split; [congruence..|]. intros ext. by etrans; [apply H6|].
Qed.

Lemma credit_credits ip ext s : credits s (credit_step ip ext s).
Proof. split; [done..|]. intros ext'. rewrite credit_observers. case_decide; subst; set_solver. Qed.

#[local] Abbreviation only_credits := (all_steps credits).

Lemma emit_promoted_credits l : only_credits (emit_promoted l).
Proof. induction l as [|a rest IH]; [done|]. by intros s. Qed.

Lemma emit_updated_credits added next : only_credits next → only_credits (emit_updated added next).
Proof. destruct added as [a|]; [|done]. by intros H s. Qed.

Lemma credit_observation_credits ip ext pinned next :
  (∀ r, only_credits (next r)) → only_credits (credit_observation ip ext pinned next).
Proof.
  intros H. unfold credit_observation. cbv zeta. case_bool_decide; [|done]. intros s. split; [apply credit_credits|done].
Qed.

Lemma credit_each_credits ip pinned exts : ∀ promoted, only_credits (credit_each ip exts pinned promoted).
Proof.
  induction exts as [|ext rest IH]; intros promoted; [apply emit_promoted_credits|]. by apply credit_observation_credits.
Qed.

Lemma back_fill_credits ext next peers : ∀ promoted,
  (∀ l, only_credits (next l)) → only_credits (back_fill_proof_on_pin ext peers promoted next).
Proof.
  induction peers as [|ip rest IH]; intros promoted Hnext; [apply Hnext|]. intros s. split; [done|].
  case_bool_decide; [|by apply IH]. intros s'. split; [done|]. case_bool_decide; [|by apply IH].
  intros s''. split; [apply credit_credits|by apply IH].
Qed.

Lemma credit_observation_run ip ext pinned next s :
  (∀ r, only_credits (next r)) → normalize_socket_addr ext ∈ pinned →
  ip ∈ observers (run (credit_observation ip ext pinned next) s) (normalize_socket_addr ext).
Proof.
  intros Hnext Hp. unfold credit_observation. cbv zeta. rewrite bool_decide_true by done. cbn [run].
  eapply (credits_observers _ _ (all_steps_run credits _ _ (Hnext _))). rewrite credit_observers, decide_True by done.
  set_solver.
Qed.

Lemma credit_each_run ip pinned ext exts : ∀ promoted s,
  ext ∈ exts → normalize_socket_addr ext ∈ pinned →
  ip ∈ observers (run (credit_each ip exts pinned promoted) s) (normalize_socket_addr ext).
Proof.
  induction exts as [|x rest IH]; intros promoted s Hin Hp; [by apply elem_of_nil in Hin|]. cbn [credit_each].
  apply elem_of_cons in Hin as [->|Hin].
  - apply credit_observation_run; [|done]. intros r. apply credit_each_credits.
  - unfold credit_observation. cbv zeta. case_bool_decide; cbn [run]; by apply IH.
Qed.

Lemma back_fill_run ip ext next peers : ∀ promoted s,
  (∀ l, only_credits (next l)) → ip ∈ peers → ip ∈ proof_eligible_peers s → ext ∈ observed s ip →
  ip ∈ observers (run (back_fill_proof_on_pin ext peers promoted next) s) ext.
Proof.
  induction peers as [|x rest IH]; intros promoted s Hnext Hin He Ho; [by apply elem_of_nil in Hin|].
  cbn [back_fill_proof_on_pin observe run]. apply elem_of_cons in Hin as [<-|Hin].
  - rewrite bool_decide_true by done. cbn [negb observe run]. rewrite bool_decide_true by done. cbn [run].
    eapply (credits_observers _ _ (all_steps_run credits _ _ (back_fill_credits _ _ _ _ Hnext))).
    rewrite credit_observers, decide_True by done. set_solver.
  - destruct (negb _); [by apply IH|]. cbn [observe run]. case_bool_decide; [|by apply IH]. cbn [run].
    destruct (credit_credits x ext s) as [_ _ _ Hobs Hel _]. apply IH; [done|done|by rewrite Hel|].
    unfold observed. by rewrite Hobs.
Qed.

Definition stranger s (sa : SocketAddr) (side : Side) : Prop :=
  side = Server ∧ (remote_ip_of sa ∉ known_peer_ips s) ∧ (normalize_socket_addr sa ∉ dialed_addrs s) ∧
  ∀ a, a ∈ ext_direct (external_addresses s) → canonicalize_ip (socket_ip a) ≠ remote_ip_of sa.

Lemma own_ip_spec ip (l : list SocketAddr) :
  existsb (λ sa, bool_decide (canonicalize_ip (socket_ip sa) = ip)) l = false ↔ ∀ a, a ∈ l → canonicalize_ip (socket_ip a) ≠ ip.
Proof.
  split.
  - intros H a Ha Heq. enough (existsb (λ sa, bool_decide (canonicalize_ip (socket_ip sa) = ip)) l = true) by congruence.
    apply existsb_exists. exists a. split; [by apply list_elem_of_In|by apply bool_decide_eq_true].
  - intros H. apply not_true_iff_false. intros (a & Ha%list_elem_of_In & Heq%bool_decide_eq_true)%existsb_exists. by apply (H a).
Qed.

Lemma connected_run addr side sa s :
  as_socket_addr addr = Some sa →
  let ip := remote_ip_of sa in let s' := run (handle_peer_connected_for_proof addr side) s in
  (s' = ip_known ip s ∧ ¬ stranger s sa side) ∨
  (stranger s sa side ∧ credits (ip_eligible ip (ip_known ip s)) s' ∧
   ∀ ext, ext ∈ observed s ip → normalize_socket_addr ext ∈ ext_direct (external_addresses s) →
     ip ∈ observers s' (normalize_socket_addr ext)).
Proof.
  intros Ha. cbv zeta. unfold handle_peer_connected_for_proof, stranger. rewrite Ha. cbn [observe run].
  set (ip := remote_ip_of sa). case_bool_decide as Hk; [left; by destruct side; split; [|tauto| |tauto]|].
  cbn [observe run]. case_bool_decide as Hd; [left; by destruct side; split; [|tauto| |tauto]|].
  destruct side; [left; split; [done|by intros [? _]]|]. cbn [after_known_check run observe].
  destruct (existsb _ _) eqn:Hown; change (external_addresses (ip_known ip s)) with (external_addresses s) in Hown; cbn [run].
  { left. split; [done|]. intros (_ & _ & _ & Hno). by apply own_ip_spec in Hno; rewrite Hno in Hown. }
  right. split; [by rewrite own_ip_spec in Hown|]. cbn [peer_observations ip_eligible ip_known external_addresses].
  unfold observed. destruct (peer_observations s !! ip) as [reports|] eqn:Hr; cbn; rewrite ?Hr; cbn.
  - split; [apply (all_steps_run credits), credit_each_credits|]. intros ext Hext Hp. by apply credit_each_run; [apply elem_of_set_iter|].
  - split; [done|]. intros ext. set_solver.
Qed.

Definition complete s : Prop :=
  ∀ ip ext, ip ∈ proof_eligible_peers s → ext ∈ observed s ip → ext ∈ ext_direct (external_addresses s) → ip ∈ observers s ext.

Lemma credits_observed s s' ip : credits s s' → observed s' ip = observed s ip.
Proof. intros [_ _ _ Hobs _ _]. unfold observed. by rewrite Hobs. Qed.

Lemma credits_complete s s' : credits s s' → complete s → complete s'.
Proof.
  intros Hc H ip ext. rewrite (credits_eligible _ _ Hc), (credits_observed _ _ _ Hc), (credits_external _ _ Hc).
  intros. by apply (credits_observers _ _ Hc), H.
Qed.

Lemma connected_complete addr side s :
  proof_inv s → complete s → complete (run (handle_peer_connected_for_proof addr side) s).
Proof.
  intros Hi H. destruct (as_socket_addr addr) as [sa|] eqn:Ha;
    [|unfold handle_peer_connected_for_proof; rewrite Ha; done].
  destruct (connected_run addr side sa s Ha) as [[-> _]|(_ & Hc & Hnew)]; [done|].
  intros ip ext. rewrite (credits_eligible _ _ Hc), (credits_observed _ _ _ Hc), (credits_external _ _ Hc).
  cbn. rewrite elem_of_union, elem_of_singleton. intros [->|He] Ho Hd.
  - pose proof (obs_normal s Hi _ _ Ho) as Hn. rewrite <-Hn. apply Hnew; [done|by rewrite Hn].
  - apply (credits_observers _ _ Hc). by apply H.
Qed.

Lemma observed_complete p o s : proof_inv s → complete s → complete (run (handle_peer_observed_external p o) s).
Proof.
  intros Hi H. unfold handle_peer_observed_external. cbv zeta. cbn [run].
  set (ip := remote_ip_of p). set (ext := normalize_socket_addr o).
  pose proof (record_observation_observed s ip ext) as Hobs. cbv zeta in Hobs.
  destruct (record_observation (peer_observations s) ip ext) as [recorded o'] eqn:Hrec. cbn [fst snd] in *.
  set (s1 := with_observations s o') in *.
  assert (Hold : ∀ ip' ext', ext' ∈ observed s1 ip' → ext' ∈ observed s ip' ∨ recorded = true ∧ ip' = ip ∧ ext' = ext).
  { intros ip' ext'. rewrite Hobs. destruct (decide (ip = ip')) as [<-|]; [|by left].
    unfold record_observation in Hrec. fold (observed s ip) in Hrec.
    destruct (decide (_ ∧ _)); [by left|]. rewrite elem_of_union, elem_of_singleton. intros [->|]; [|by left].
    destruct (decide (ext ∈ observed s ip)) as [?|Hout]; [by left|]. right.
    rewrite (bool_decide_false _ Hout), andb_true_r in Hrec. case_match eqn:Hle; [apply Nat.leb_le in Hle; tauto|]. naive_solver. }
  destruct recorded; cbn [negb].
  2: { intros ip' ext' He Ho Hd. destruct (Hold _ _ Ho) as [?|(? & _)]; [by apply (H ip')|done]. }
  cbn [run]. set (s2 := with_external s1 _ _).
  assert (Hd2 : ext_direct (external_addresses s2) = ext_direct (external_addresses s)) by apply record_unverified_direct.
  cbn [observe run]. case_bool_decide as He2; cbn [negb].
  - cbn [observe run]. set (t := credit_observation _ _ _ _).
    assert (Ht : only_credits t).
    { apply credit_observation_credits. intros r. apply emit_updated_credits, emit_promoted_credits. }
    pose proof (all_steps_run credits t s2 Ht) as Hc. intros ip' ext'.
    rewrite (credits_eligible _ _ Hc), (credits_observed _ _ _ Hc), (credits_external _ _ Hc), Hd2.
    intros He Ho Hd. destruct (Hold _ _ Ho) as [Ho'|(_ & -> & ->)].
    + apply (credits_observers _ _ Hc). by apply (H ip').
    + assert (Hn : normalize_socket_addr ext = ext) by apply normalize_idemp. revert Ht Hc. unfold t. intros _ _.
      match goal with |- ip ∈ observers (run (credit_observation ip ext ?l ?next) s2) ext =>
        pose proof (credit_observation_run ip ext l next s2) as Hx end.
      rewrite Hn in Hx. apply Hx; [|by rewrite Hd2]. intros r. apply emit_updated_credits, emit_promoted_credits.
  - eapply credits_complete; [apply (all_steps_run credits), emit_updated_credits; done|].
    intros ip' ext' He Ho. rewrite Hd2. intros Hd. destruct (Hold _ _ Ho) as [?|(_ & -> & _)]; [by apply (H ip')|done].
Qed.

Lemma discovered_complete addr s : complete s → complete (run (external_address_discovered addr) s).
Proof.
  intros H. unfold external_address_discovered. destruct (as_socket_addr addr) as [sa|]; [|done]. cbv zeta. cbn [run].
  set (n := normalize_socket_addr sa). pose proof (pin_direct_elem (external_addresses s) n) as Hd.
  assert (Hsame : (pin_direct normalize_socket_addr (external_addresses s) n).1 = false →
    (pin_direct normalize_socket_addr (external_addresses s) n).2 = external_addresses s).
  { unfold pin_direct. cbv zeta. by destruct (_ || _). }
  destruct (pin_direct normalize_socket_addr (external_addresses s) n) as [[] e]; cbn [fst snd] in *.
  2: { rewrite Hsame by done. exact H. }
  cbn [observe run]. set (s1 := with_external s e _). cbn [peer_observations s1 with_external].
  set (next := λ promoted : list SocketAddr, _). set (peers := fst <$> map_iter _).
  assert (Hnext : ∀ l, only_credits (next l)).
  { intros [|? ?]; [by apply emit_updated_credits|apply emit_promoted_credits]. }
  pose proof (all_steps_run credits _ s1 (back_fill_credits (normalize_socket_addr n) next peers [] Hnext)) as Hc.
  intros ip ext. rewrite (credits_eligible _ _ Hc), (credits_observed _ _ _ Hc), (credits_external _ _ Hc). cbn.
  intros He Ho [Hin| ->]%Hd; [apply (credits_observers _ _ Hc); by apply H|].
  apply back_fill_run; [done| |done|done]. unfold peers. change (observed s1 ip) with (observed s ip) in Ho.
  unfold observed in Ho. destruct (peer_observations s !! ip) as [r|] eqn:Hr; cbn in Ho; [|set_solver].
  apply list_elem_of_fmap. exists (ip, r). split; [done|]. by rewrite map_iter_perm, elem_of_map_to_list.
Qed.

Lemma handler_complete e s : proof_inv s → complete s → complete (run (handler e) s).
Proof.
  intros Hi H. destruct e as [addr side|p o|addr|a|a| | |]; cbn [handler].
  - by apply connected_complete.
  - by apply observed_complete.
  - by apply discovered_complete.
  - exact H.
  - intros ip ext He Ho Hd. cbn in Hd. apply (elem_of_without normalize_socket_addr) in Hd as [Hd _]. by apply H.
  - exact H.
  - exact H.
  - exact H.
Qed.

(** Who the events bring the node in contact with. *)
Definition contact (e : ProofEvent) : option IpAddr :=
  match e with
  | PeerConnected addr _ => remote_ip_of <$> as_socket_addr addr
  | DialStarted a => Some (remote_ip_of a)
  | _ => None
  end.

(** An inbound connection from an IP without earlier contact that is none of
    the node's own. *)
Definition stranger_arrival (events : list ProofEvent) ip : Prop :=
  ∃ before addr after sa, events = before ++ PeerConnected addr Server :: after ∧
    as_socket_addr addr = Some sa ∧ remote_ip_of sa = ip ∧ (ip ∉ omap contact before) ∧
    ∀ a, a ∈ ext_direct (external_addresses (proof_run before)) → canonicalize_ip (socket_ip a) ≠ ip.

Definition quiet s s' : Prop :=
  dialed_addrs s' = dialed_addrs s ∧ known_peer_ips s' = known_peer_ips s ∧ proof_eligible_peers s' = proof_eligible_peers s.

#[local] Instance quiet_preorder : PreOrder quiet.
Proof. split; [by intros s|]. intros s1 s2 s3 (? & ? & ?) (? & ? & ?). split_and!; congruence. Qed.

Lemma credits_quiet t : only_credits t → all_steps quiet t.
Proof. apply all_steps_impl. intros s s' [? ? _ _ ? _]. by split_and!. Qed.

Lemma handler_quiet e : contact e = None → all_steps quiet (handler e).
Proof.
  intros He. destruct e as [addr side|p o|addr|a|a| | |]; cbn [handler contact] in *; try done.
  - unfold handle_peer_connected_for_proof. by destruct (as_socket_addr addr).
  - intros s1. split; [done|]. destruct (negb _); [done|]. intros s2. split; [done|]. cbv zeta. intros s3. split; [done|].
    destruct (negb _); [by apply credits_quiet, emit_updated_credits|]. intros s4. split; [done|].
    apply credits_quiet, credit_observation_credits. intros r. apply emit_updated_credits, emit_promoted_credits.
  - unfold external_address_discovered. destruct (as_socket_addr addr) as [sa|]; [|done]. intros s1. split; [done|].
    destruct (pin_direct _ _ _).1; [|done]. intros s2. split; [done|]. apply credits_quiet, back_fill_credits.
    intros [|? ?]; [by apply emit_updated_credits|apply emit_promoted_credits].
Qed.

Record history (events : list ProofEvent) s : Prop := {
  history_inv : proof_inv s;
  history_complete : complete s;
  history_dialed a : a ∈ dialed_addrs s → canonicalize_ip (socket_ip a) ∈ known_peer_ips s;
  history_known ip : ip ∈ known_peer_ips s ↔ ip ∈ omap contact events;
  history_eligible ip : ip ∈ proof_eligible_peers s ↔ stranger_arrival events ip;
}.

Lemma arrival_snoc events e ip :
  stranger_arrival (events ++ [e]) ip ↔ stranger_arrival events ip ∨
    ∃ addr sa, e = PeerConnected addr Server ∧ as_socket_addr addr = Some sa ∧ remote_ip_of sa = ip ∧
      (ip ∉ omap contact events) ∧ ∀ a, a ∈ ext_direct (external_addresses (proof_run events)) → canonicalize_ip (socket_ip a) ≠ ip.
Proof.
  split.
  - intros (before & addr & after & sa & Heq & Ha & Hip & Hno & Hown). destruct after as [|e' after _] using rev_ind.
    + apply app_inj_tail in Heq as [<- ->]. right. by exists addr, sa.
    + left. rewrite app_comm_cons, app_assoc in Heq. apply app_inj_tail in Heq as [-> _]. by exists before, addr, after, sa.
  - intros [(before & addr & after & sa & -> & Hrest)|(addr & sa & -> & Hrest)].
    + exists before, addr, (after ++ [e]), sa. split; [by rewrite <-app_assoc|done].
    + by exists events, addr, [], sa.
Qed.

(** One handler: who becomes known, dialled and eligible. *)
Lemma handler_history e s :
  (∀ a, a ∈ dialed_addrs s → canonicalize_ip (socket_ip a) ∈ known_peer_ips s) →
  let s' := run (handler e) s in
  (∀ a, a ∈ dialed_addrs s' → canonicalize_ip (socket_ip a) ∈ known_peer_ips s') ∧
  (∀ ip, ip ∈ known_peer_ips s' ↔ ip ∈ known_peer_ips s ∨ contact e = Some ip) ∧
  (∀ ip, ip ∈ proof_eligible_peers s' ↔ ip ∈ proof_eligible_peers s ∨
     ∃ addr sa, e = PeerConnected addr Server ∧ as_socket_addr addr = Some sa ∧ remote_ip_of sa = ip ∧
       (ip ∉ known_peer_ips s) ∧ ∀ a, a ∈ ext_direct (external_addresses s) → canonicalize_ip (socket_ip a) ≠ ip).
Proof.
  intros Hdial. cbv zeta. destruct (contact e) as [ip0|] eqn:Hc.
  2: { destruct (all_steps_run quiet (handler e) s (handler_quiet e Hc)) as (-> & -> & ->).
       split_and!; [done|naive_solver|]. intros ip. split; [by left|]. intros [?|(addr & sa & -> & Ha & _)]; [done|].
       cbn in Hc. by rewrite Ha in Hc. }
  destruct e as [addr side| | |a| | | |]; cbn [contact handler] in *; try done.
  2: { injection Hc as <-. cbn [run dial_started]. cbn. unfold remote_ip_of. split_and!; [set_solver|set_solver|].
       intros ip. split; [by left|]. by intros [?|(? & ? & ? & _)]. }
  destruct (as_socket_addr addr) as [sa|] eqn:Ha; [|done]. injection Hc as <-.
  destruct (connected_run addr side sa s Ha) as [[-> Hno]|((-> & Hk & Hd & Hown) & Hcr & _)].
  - cbn. split_and!; [set_solver|set_solver|]. intros ip. split; [by left|].
    intros [?|(addr' & sa' & [= -> ->] & Ha' & <- & Hk & Hown)]; [done|]. rewrite Ha in Ha'. injection Ha' as <-.
    destruct Hno. split_and!; [done..| |done]. by intros Hin%Hdial.
  - rewrite (credits_dialed _ _ Hcr), (credits_known _ _ Hcr), (credits_eligible _ _ Hcr). cbn.
    split_and!; [set_solver|set_solver|]. intros ip. rewrite elem_of_union, elem_of_singleton. split.
    + intros [->|?]; [|by left]. right. by exists addr, sa.
    + intros [?|(addr' & sa' & [= ->] & Ha' & <- & _)]; [by right|]. rewrite Ha in Ha'. injection Ha' as <-. by left.
Qed.

Lemma history_run events : history events (proof_run events).
Proof using normalize_idemp.
  induction events as [|e events [Hi Hcom Hdial Hk He]] using rev_ind.
  { split; [apply proof_new_inv|by intros ip ext; cbn; set_solver|set_solver|set_solver|].
    intros ip. cbn. split; [set_solver|]. by intros ([|] & ? & ? & ? & ? & _). }
  assert (Hs : proof_run (events ++ [e]) = run (handler e) (proof_run events)) by (unfold proof_run; by rewrite foldl_app).
  rewrite Hs. set (s := proof_run events) in *.
  pose proof (run_safe proof_inv proof_grows (handler e) s (handler_ok e s) Hi) as [Hi' _].
  destruct (handler_history e s Hdial) as (Hdial' & Hk' & He').
  split; [done|by apply handler_complete|done| |].
  - intros ip. rewrite Hk', Hk, omap_app, elem_of_app. cbn. destruct (contact e); set_solver.
  - intros ip. rewrite He', He, arrival_snoc. by setoid_rewrite Hk.
Qed.

End direct_proof.
