(* ===== verification/TransportSamples.v ===== *)
(** * The transport's state at work

    Small histories of the direct-reachability classifier, the peer and
    channel registry and the wire messages. *)

From stdpp Require Import prelude gmap strings.
From S2P Require Import Prelude Keys Ip Address Models PeerRecord SelfAddress Tasks DirectProof.

Module TransportSamples.

#[local] Existing Instance plain_transport.
#[local] Instance in_order : HashOrder :=
  {| hash_iter K V l := l; hash_iter_perm K V l := reflexivity l |}.

Definition sock (d : Z) : SocketAddr := socket_new (V4 (ipv4 203 0 113 d)) 9000.

(** The transport's normal form of addresses that are not IPv4-mapped. *)
Definition plain (a : SocketAddr) : SocketAddr := a.

Lemma plain_idemp a : plain (plain a) = plain a.
Proof. done. Qed.

(** Two strangers arrive, one before and one after its report; the address
    is pinned in between. *)
Definition proving : list ProofEvent :=
  [PeerObservedExternal (sock 1) (sock 9); PeerConnected (Quic (sock 1)) Server;
   ExternalAddressDiscovered (Quic (sock 9)); PeerConnected (Quic (sock 2)) Server;
   PeerObservedExternal (sock 2) (sock 9)].

Lemma proving_reachable events :
  reachable (handlers plain) proof_new (proof_run plain events).
Proof.
  unfold proof_run. induction events as [|e events IH] using rev_ind; [apply reachable_refl|].
  rewrite foldl_app. cbn [foldl]. apply reachable_run; [by exists e|done].
Qed.


(** A peer the node dialled before it connects adds nothing. *)
Definition dialled : ProofState := proof_run plain (DialStarted (sock 3) :: proving).
Definition redial : list ProofEvent :=
  [PeerConnected (Quic (sock 3)) Server; PeerObservedExternal (sock 3) (sock 9)].

Lemma known_peer_witness :
  V4 (ipv4 203 0 113 3) ∉ observers (foldl (λ s e, run (handler plain e) s) dialled redial) (sock 9).
Proof.
  refine (proj2 (known_peer_never_proves plain plain_idemp (V4 (ipv4 203 0 113 3)) dialled _ _ _ _ _) (sock 9)).
  - exact (proving_reachable (DialStarted (sock 3) :: proving)).
  - by_decide.
  - by_decide.
  - cbn [foldl redial]. apply reachable_run; [by eexists|]. apply reachable_run; [by eexists|]. apply reachable_refl.
Defined.

Definition one_pinned : list ProofEvent := [ExternalAddressDiscovered (Quic (sock 9)); PeerObservedExternal (sock 1) (sock 9)].


(** The classifier reads the pinned addresses before it makes the newcomer
    eligible: when the address is pinned between the two, neither the
    classifier nor the back-fill credits the newcomer's earlier report. *)
Definition reported : ProofState := proof_run plain [PeerObservedExternal (sock 1) (sock 9)].
Definition missed_pool : pool ProofState :=
  schedule [handler plain (PeerConnected (Quic (sock 1)) Server); handler plain (ExternalAddressDiscovered (Quic (sock 9)))]
    [0; 0; 0; 0; 1; 1; 1; 1; 0; 0] reported.
Definition missed : ProofState := missed_pool.2.

Lemma credit_missed :
  reachable (handlers plain) reported missed ∧ missed_pool.1 = [Finished; Finished] ∧
  V4 (ipv4 203 0 113 1) ∈ proof_eligible_peers missed ∧ sock 9 ∈ observed missed (V4 (ipv4 203 0 113 1)) ∧
  sock 9 ∈ ext_direct (external_addresses missed) ∧ observers missed (sock 9) = ∅.
Proof.
  split.
  - apply schedule_reachable. repeat constructor; by eexists.
  - split_and!; [by vm_compute|by_decide..].
Qed.
End TransportSamples.
