(* ===== verification/RateLimit.v ===== *)
(** * Token buckets

    [src/rate_limit.rs]: a bucket that refills at [max_requests] per window up
    to [burst_size] tokens and also counts the requests of the current fixed
    window, and the engine that keeps one bucket per key in an LRU cache.
    Instants and durations are nanoseconds; each operation reads the clock
    once.  The LRU cache belongs to the [lru] crate and is an interface. *)

From Stdlib Require Import SpecFloat.
From stdpp Require Import prelude.
From S2P Require Import Prelude Float.

(** ** The LRU cache *)

(** What the engine relies on: [get_mut] finds the value of a key and a write
    through it changes that key only; [put] stores the value of a key and may
    drop another one. *)
Class LruLib (K V : Type) := {
  Lru : Type;
  lru_new : N → Lru;
  lru_get : Lru → K → option V;
  lru_write : Lru → K → V → Lru;
  lru_put : Lru → K → V → Lru;
  lru_get_new n k : lru_get (lru_new n) k = None;
  lru_get_write c k v : lru_get (lru_write c k v) k = Some v;
  lru_get_write_ne c k k' v : k ≠ k' → lru_get (lru_write c k v) k' = lru_get c k';
  lru_get_put c k v : lru_get (lru_put c k v) k = Some v;
  lru_get_put_ne c k k' v : k ≠ k' →
    lru_get (lru_put c k v) k' = lru_get c k' ∨ lru_get (lru_put c k v) k' = None;
}.
Arguments Lru K V {_}.

(** ** Buckets *)

Definition MAX_RATE_LIMIT_KEYS : N := 100000.

Record EngineConfig := mk_engine_config {
  window : Z;
  max_requests : N;
  burst_size : N;
}.

Record Bucket := mk_bucket {
  tokens : spec_float;
  last_update : Z;
  requests_in_window : N;
  window_start : Z;
}.

#[export] Instance Bucket_eq_dec : EqDecision Bucket.
Proof. solve_decision. Defined.

Definition bucket_new (initial_tokens : spec_float) (now : Z) : Bucket :=
  mk_bucket initial_tokens now 0 now.

(** [Instant::duration_since] saturates at zero. *)
Definition duration_since (now earlier : Z) : Z := Z.max 0 (now - earlier).

Definition u32_as_f64 (n : N) : spec_float := f64_of_Z (Z.of_N n).

Definition try_consume (cfg : EngineConfig) (b : Bucket) (now : Z) : bool * Bucket :=
  let expired := (window cfg <? duration_since now (window_start b))%Z in
  let start := if expired then now else window_start b in
  let requests := if expired then 0%N else requests_in_window b in
  let elapsed := as_secs_f64 (duration_since now (last_update b)) in
  let refill_rate := f64_div (u32_as_f64 (max_requests cfg)) (as_secs_f64 (window cfg)) in
  let level := f64_min (f64_add (tokens b) (f64_mul elapsed refill_rate)) (u32_as_f64 (burst_size cfg)) in
  if SFleb f64_one level && (requests <? max_requests cfg)%N
  then (true, mk_bucket (f64_sub level f64_one) now (requests + 1) start)
  else (false, mk_bucket level now requests start).

(** ** The engine *)

Record Engine (K : Type) `{LruLib K Bucket} := mk_rate_engine {
  cfg : EngineConfig;
  global : Bucket;
  global_poisoned : bool;
  keyed : Lru K Bucket;
}.
Arguments mk_rate_engine {K _} _ _ _ _.
Arguments cfg {K _} _.
Arguments global {K _} _.
Arguments global_poisoned {K _} _.
Arguments keyed {K _} _.

Section engine.
Context {K : Type} `{EqDecision K} `{LruLib K Bucket}.
Implicit Types (e : Engine K) (k key : K) (now : Z).

Definition rate_engine_new (c : EngineConfig) (now : Z) : Engine K :=
  mk_rate_engine c (bucket_new (u32_as_f64 (burst_size c)) now) false (lru_new MAX_RATE_LIMIT_KEYS).

(** A poisoned lock denies the request. *)
Definition try_consume_global e now : bool * Engine K :=
  if global_poisoned e then (false, e)
  else let '(ok, b) := try_consume (cfg e) (global e) now in
       (ok, mk_rate_engine (cfg e) b (global_poisoned e) (keyed e)).

Definition try_consume_key e key now : bool * Engine K :=
  match lru_get (keyed e) key with
  | Some bucket =>
      let '(ok, b) := try_consume (cfg e) bucket now in
      (ok, mk_rate_engine (cfg e) (global e) (global_poisoned e) (lru_write (keyed e) key b))
  | None =>
      let '(ok, b) := try_consume (cfg e) (bucket_new (u32_as_f64 (burst_size (cfg e))) now) now in
      (ok, mk_rate_engine (cfg e) (global e) (global_poisoned e) (lru_put (keyed e) key b))
  end.

(** *** Bounds on what is granted *)

(** The requests a bucket can still grant up to [s + window]. *)
Definition bucket_allowance (c : EngineConfig) (s : Z) (b : Bucket) : N :=
  let left := (max_requests c - requests_in_window b)%N in
  if (window_start b <? s)%Z then (left + max_requests c)%N else left.

Lemma try_consume_allowance c s b now :
  (s ≤ now ≤ s + window c)%Z →
  (N.b2n (try_consume c b now).1 + bucket_allowance c s (try_consume c b now).2 ≤ bucket_allowance c s b)%N.
Proof.
  intros Hnow. unfold try_consume. destruct (Z.ltb_spec (window c) (duration_since now (window_start b))) as [Hx|Hx].
  - assert (window_start b < s)%Z by (unfold duration_since in Hx; lia).
    unfold bucket_allowance. rewrite (proj2 (Z.ltb_lt (window_start b) s)) by done.
    destruct (_ && _) eqn:Hok; cbn [fst snd N.b2n window_start requests_in_window];
      rewrite (proj2 (Z.ltb_ge now s)) by lia; [|lia].
    apply andb_true_iff in Hok as [_ Hok%N.ltb_lt]. lia.
  - unfold bucket_allowance.
    destruct (_ && _) eqn:Hok; cbn [fst snd N.b2n window_start requests_in_window]; [|lia].
    apply andb_true_iff in Hok as [_ Hok%N.ltb_lt]. case_match; lia.
Qed.

Lemma bucket_new_allowance c s v now : (s ≤ now)%Z → bucket_allowance c s (bucket_new v now) = max_requests c.
Proof.
  intros. unfold bucket_allowance. cbn [bucket_new window_start requests_in_window].
  rewrite (proj2 (Z.ltb_ge now s)) by done. lia.
Qed.

(** A run of keyed requests: what the engine grants to [k], and how often it
    forgets [k]'s bucket. *)
Fixpoint granted e k (calls : list (Z * K)) : N :=
  match calls with
  | [] => 0
  | (now, key) :: rest =>
      let '(ok, e') := try_consume_key e key now in
      ((if bool_decide (key = k) then N.b2n ok else 0) + granted e' k rest)%N
  end.

Fixpoint evictions e k (calls : list (Z * K)) : N :=
  match calls with
  | [] => 0
  | (now, key) :: rest =>
      let e' := (try_consume_key e key now).2 in
      (N.b2n (bool_decide (is_Some (lru_get (keyed e) k)) && bool_decide (lru_get (keyed e') k = None))
       + evictions e' k rest)%N
  end.

Definition key_allowance e (s : Z) k : N :=
  match lru_get (keyed e) k with
  | Some b => bucket_allowance (cfg e) s b
  | None => max_requests (cfg e)
  end.

Lemma try_consume_key_cfg e key now : cfg (try_consume_key e key now).2 = cfg e.
Proof. unfold try_consume_key. repeat case_match; simplify_eq; done. Qed.

Lemma try_consume_key_self e s key now :
  (s ≤ now ≤ s + window (cfg e))%Z →
  (N.b2n (try_consume_key e key now).1 + key_allowance (try_consume_key e key now).2 s key ≤ key_allowance e s key)%N ∧
  lru_get (keyed (try_consume_key e key now).2) key ≠ None.
Proof.
  intros Hnow. unfold key_allowance, try_consume_key. destruct (lru_get (keyed e) key) as [b|].
  - pose proof (try_consume_allowance (cfg e) s b now Hnow) as Hb.
    destruct (try_consume (cfg e) b now) as [ok b']. cbn [fst snd keyed cfg] in *. by rewrite lru_get_write.
  - set (b := bucket_new _ now). pose proof (try_consume_allowance (cfg e) s b now Hnow) as Hb.
    unfold b in Hb at 3. rewrite bucket_new_allowance in Hb by lia.
    destruct (try_consume (cfg e) b now) as [ok b']. cbn [fst snd keyed cfg] in *. by rewrite lru_get_put.
Qed.

Lemma try_consume_key_other e k key now :
  key ≠ k →
  lru_get (keyed (try_consume_key e key now).2) k = lru_get (keyed e) k ∨
  lru_get (keyed (try_consume_key e key now).2) k = None.
Proof.
  intros Hne. unfold try_consume_key. destruct (lru_get (keyed e) key);
    destruct (try_consume _ _ _) as [ok b']; cbn [fst snd keyed].
  - left. by apply lru_get_write_ne.
  - by apply lru_get_put_ne.
Qed.

Lemma granted_allowance calls : ∀ e s k,
  Forall (λ c, s ≤ c.1 ≤ s + window (cfg e))%Z calls →
  (granted e k calls ≤ key_allowance e s k + max_requests (cfg e) * evictions e k calls)%N.
Proof.
  induction calls as [|[now key] calls IH]; intros e s k Hall; [simpl; lia|].
  apply Forall_cons in Hall as [Hnow Hall]. cbn [fst] in Hnow. cbn [granted evictions].
  pose proof (try_consume_key_cfg e key now) as Hcfg.
  pose proof (try_consume_key_self e s key now Hnow) as [Hself _].
  pose proof (try_consume_key_other e k key now) as Hother.
  destruct (try_consume_key e key now) as [ok e']. cbn [fst snd] in *.
  specialize (IH e' s k). rewrite Hcfg in IH. specialize (IH Hall).
  destruct (bool_decide_reflect (key = k)) as [->|Hne]; [nia|].
  unfold key_allowance in *. rewrite Hcfg in *. destruct (Hother Hne) as [Heq|Heq]; rewrite Heq in *.
  - destruct (lru_get (keyed e) k); cbn [N.b2n]; nia.
  - destruct (lru_get (keyed e) k) as [b|]; [|cbn [N.b2n]; nia].
    rewrite (bool_decide_eq_true_2 (is_Some (Some b))), (bool_decide_eq_true_2 (None = None)) by done.
    cbn [andb N.b2n]. nia.
Qed.

(** The rate limit.  Whatever requests arrive during any span of time no
    longer than the window, and whatever the refill arithmetic does, a key is
    granted at most [max_requests] twice over (the span can meet two fixed
    windows), plus [max_requests] for each time the cache evicted its bucket
    in between. *)
Theorem granted_bound e s k calls :
  Forall (λ c, s ≤ c.1 ≤ s + window (cfg e))%Z calls →
  (granted e k calls ≤ (2 + evictions e k calls) * max_requests (cfg e))%N.
Proof.
  intros Hall. pose proof (granted_allowance calls e s k Hall) as Hg.
  assert (key_allowance e s k ≤ 2 * max_requests (cfg e))%N; [|nia].
  unfold key_allowance, bucket_allowance. repeat case_match; lia.
Qed.

(** A key that is the only one used is never evicted. *)
Lemma evictions_single calls : ∀ e k, Forall (λ c, c.2 = k) calls → evictions e k calls = 0%N.
Proof.
  induction calls as [|[now key] calls IH]; intros e k Hall; [done|].
  apply Forall_cons in Hall as [Hk Hall]. cbn [snd] in Hk. subst key. cbn [evictions].
  rewrite IH by done.
  assert (Hne : lru_get (keyed (try_consume_key e k now).2) k ≠ None).
  { unfold try_consume_key. destruct (lru_get (keyed e) k);
      destruct (try_consume _ _ _); cbn [snd keyed]; by rewrite ?lru_get_write, ?lru_get_put. }
  rewrite (bool_decide_eq_false_2 (_ = None)) by done. by rewrite andb_false_r.
Qed.

Lemma u32_as_f64_not_nan n : (n < 2 ^ 32)%N → u32_as_f64 n ≠ S754_nan.
Proof.
  intros Hn. apply (below_not_nan (32 + 1)), of_Z_below; [|lia].
  rewrite Z.abs_eq by lia. change (2 ^ 32)%Z with (Z.of_N (2 ^ 32)). lia.
Qed.

(** A grant takes one whole token of a level that never exceeds the burst; a
    denial leaves the level there. *)
Theorem try_consume_burst c b now :
  (burst_size c < 2 ^ 32)%N →
  ∃ level, SFleb level (u32_as_f64 (burst_size c)) = true ∧
    if (try_consume c b now).1
    then SFleb f64_one level = true ∧ tokens (try_consume c b now).2 = f64_sub level f64_one
    else tokens (try_consume c b now).2 = level.
Proof.
  intros Hb. unfold try_consume. set (level := f64_min _ _). exists level.
  split; [by apply f64_min_le, u32_as_f64_not_nan|].
  destruct (_ && _) eqn:Hok; cbn [fst snd tokens]; [|done].
  by apply andb_true_iff in Hok as [Hl _].
Qed.
End engine.
