(* ===== verification/Validation.v ===== *)
(** * Validation of external inputs

    [src/validation.rs]: message, key and value sizes, file paths, API
    requests, the connection rate limiter and the sanitiser.  A Rust string is
    the list of its code points; [str::len] is the length of its UTF-8 form.
    Which characters beyond ASCII count as alphanumeric, and their lower case,
    are Unicode tables and parameters.  Error texts are left out. *)

From Stdlib Require Import Ascii String.
From stdpp Require Import prelude gmap.
From S2P Require Import Prelude Keys Ip RateLimit.

#[local] Open Scope N_scope.

(** ** Text *)

Abbreviation Text := (list N).

Fixpoint lit (s : string) : Text :=
  match s with EmptyString => [] | String c s => N_of_ascii c :: lit s end.

Definition utf8_len (c : N) : N := if c <? 128 then 1 else if c <? 2048 then 2 else if c <? 65536 then 3 else 4.
Definition str_len (t : Text) : N := foldr (λ c acc, utf8_len c + acc) 0 t.

Fixpoint starts_with (pat t : Text) : bool :=
  match pat, t with
  | [], _ => true
  | p :: pat, c :: t => (p =? c) && starts_with pat t
  | _ :: _, [] => false
  end.

Fixpoint contains (pat t : Text) : bool :=
  starts_with pat t || match t with [] => false | _ :: t => contains pat t end.

(** [str::replace] of a non-empty pattern: the matches from the left that do
    not overlap.  [skip] counts the rest of a match. *)
Fixpoint replace_from (pat r : Text) (skip : nat) (t : Text) : Text :=
  match t with
  | [] => []
  | c :: rest =>
      match skip with
      | S skip => replace_from pat r skip rest
      | O => if starts_with pat t then r ++ replace_from pat r (length pat - 1) rest else c :: replace_from pat r 0 rest
      end
  end.
Definition replace (pat r t : Text) : Text := replace_from pat r 0 t.

(** ** Errors and contexts *)

Inductive ValidationError :=
  | MessageTooLarge (size limit : N)
  | InvalidPath
  | PathTraversal (path : Text)
  | InvalidKeySize (size max : N)
  | InvalidValueSize (size max : N)
  | InvalidCryptoParam
  | RateLimitExceeded (identifier : option IpAddr)     (** [None]: the global limit *)
  | InvalidFormat.

Definition MAX_MESSAGE_SIZE : N := 16 * 1024 * 1024.
Definition MAX_PATH_LENGTH : N := 4096.
Definition MAX_KEY_SIZE : N := 1024 * 1024.
Definition MAX_VALUE_SIZE : N := 10 * 1024 * 1024.
Definition MAX_FILE_NAME_LENGTH : N := 255.
Definition FUTURE_TOLERANCE : N := 300.

Record ValidationContext := mk_context {
  max_message_size : N; max_key_size : N; max_value_size : N; max_path_length : N;
  allow_localhost : bool; allow_private_ips : bool;
}.
Definition default_context : ValidationContext := mk_context MAX_MESSAGE_SIZE MAX_KEY_SIZE MAX_VALUE_SIZE MAX_PATH_LENGTH false false.

Abbreviation Checked := (result unit ValidationError).

(** ** Sizes *)

Definition validate_message_size (size max_size : N) : Checked :=
  if max_size <? size then Err (MessageTooLarge size max_size) else Ok ().
Definition validate_key_size (size expected : N) : Checked := if negb (size =? expected) then Err InvalidCryptoParam else Ok ().
Definition validate_nonce_size (size expected : N) : Checked := if negb (size =? expected) then Err InvalidCryptoParam else Ok ().
Definition validate_dht_key (key : list Z) (ctx : ValidationContext) : Checked :=
  match key with
  | [] => Err InvalidFormat
  | _ => if max_key_size ctx <? N.of_nat (length key) then Err (InvalidKeySize (N.of_nat (length key)) (max_key_size ctx)) else Ok ()
  end.
Definition validate_dht_value (value : list Z) (ctx : ValidationContext) : Checked :=
  if max_value_size ctx <? N.of_nat (length value) then Err (InvalidValueSize (N.of_nat (length value)) (max_value_size ctx)) else Ok ().

(** [impl Validate for NetworkMessage]; [now] is [None] when the clock is
    before the epoch. *)
Inductive MessageError := SystemTime | Invalid (e : ValidationError).
Definition validate_network_message (payload : N) (timestamp : N) (ctx : ValidationContext) (now : option N) : result unit MessageError :=
  match validate_message_size payload (max_message_size ctx) with
  | Err e => Err (Invalid e)
  | Ok _ =>
      match now with
      | None => Err SystemTime
      | Some now => if now + FUTURE_TOLERANCE <? timestamp then Err (Invalid InvalidFormat) else Ok ()
      end
  end.

(** ** Paths *)

Definition slash : N := 47.

(** [Path::components] on Unix: the root, and what lies between slashes, less
    empty pieces and [.] anywhere but at the start. *)
Fixpoint split_slash (t : Text) : list Text :=
  match t with
  | [] => [[]]
  | c :: rest =>
      match split_slash rest with
      | piece :: pieces => if c =? slash then [] :: piece :: pieces else (c :: piece) :: pieces
      | [] => [[c]]
      end
  end.
Definition is_piece (t : Text) : bool := negb (bool_decide (t = [])) && negb (bool_decide (t = lit ".")).
Definition components (t : Text) : list Text :=
  match split_slash t with
  | [] => []
  | first :: rest =>
      (if bool_decide (first = []) then (if bool_decide (t = []) then [] else [lit "/"]) else [first]) ++ List.filter is_piece rest
  end.

Definition traversal_patterns : list Text :=
  lit <$> ["../"; "..\"; ".."; "..;"; "....//"; "%2e%2e"; "%252e%252e"]%string.
Definition dangerous_chars : Text := lit "|&;$`" ++ [10].

Definition percent_decoded (t : Text) : Text :=
  replace (lit "%5c") (lit "\") (replace (lit "%2f") (lit "/") (replace (lit "%2e") (lit ".") t)).

Definition validate_file_path (path : Text) : Checked :=
  if MAX_PATH_LENGTH <? str_len path then Err InvalidPath
  else
    let decoded := percent_decoded path in
    if existsb (λ p, contains p path || contains p decoded) traversal_patterns then Err (PathTraversal path)
    else if existsb (N.eqb 0) path then Err InvalidPath
    else if existsb (λ c, existsb (N.eqb c) dangerous_chars) path then Err InvalidPath
    else if existsb (λ c, (MAX_FILE_NAME_LENGTH <? str_len c) || existsb (N.eqb 0) c) (components path) then Err InvalidPath
    else Ok ().

(** ** API requests *)

Definition sql_patterns : list Text :=
  (lit <$> ["select "; "insert "; "update "; "delete "; "drop "; "union "; "exec "; "--"; "/*"; "*/"; "'"]%string) ++ [[34]] ++
  (lit <$> [" or "; " and "; "1=1"; "1='1"]%string).

Section requests.
Context (unicode_lower : N → Text) (unicode_alphanumeric : N → bool) `{HashOrder}.

Definition to_lowercase (t : Text) : Text :=
  concat ((λ c, if c <? 128 then [if (65 <=? c) && (c <=? 90) then c + 32 else c] else unicode_lower c) <$> t).

Definition validate_param (kv : Text * Text) : Checked :=
  match kv.1 with
  | [] => Err InvalidFormat
  | _ =>
      if existsb (λ p, contains p (to_lowercase kv.2)) sql_patterns then Err InvalidFormat
      else if existsb (λ c, existsb (N.eqb c) (dangerous_chars ++ [0])) kv.2 then Err InvalidFormat
      else Ok ()
  end.

Fixpoint validate_params (l : list (Text * Text)) : Checked :=
  match l with
  | [] => Ok ()
  | kv :: rest => match validate_param kv with Err e => Err e | Ok _ => validate_params rest end
  end.

Definition validate_api_request (method path : Text) (params : gmap Text Text) : Checked :=
  if negb (existsb (λ m, bool_decide (method = lit m)) ["GET"; "POST"; "PUT"; "DELETE"]%string) then Err InvalidFormat
  else if negb (starts_with (lit "/") path) then Err InvalidFormat
  else if contains (lit "..") path then Err (PathTraversal path)
  else validate_params (map_iter params).

(** ** The sanitiser *)

Definition is_alphanumeric (c : N) : bool :=
  if c <? 128 then ((48 <=? c) && (c <=? 57)) || ((65 <=? c) && (c <=? 90)) || ((97 <=? c) && (c <=? 122)) else unicode_alphanumeric c.
Definition safe_char (c : N) : bool := is_alphanumeric c || (c =? 95) || (c =? 45) || (c =? 46).
Definition removed_words : list Text :=
  lit <$> ["script"; "javascript:"; "onerror"; "onload"; "onclick"; "alert"; "iframe"]%string.
Definition removed_joiners : list N := [8288; 65440; 8203; 8204; 8205].

Definition sanitize_string (input : Text) (max_length : nat) : Text :=
  let cleaned := List.filter (λ c, negb ((c =? 60) || (c =? 62))) input in
  let cleaned := foldl (λ t w, replace w [] t) cleaned removed_words in
  let cleaned := foldl (λ t j, List.filter (λ c, negb (c =? j)) t) cleaned removed_joiners in
  take max_length (List.filter safe_char cleaned).
End requests.

(** ** The rate limiter *)

Section limiter.
Context `{LruLib IpAddr Bucket}.

(** [RateLimitConfig::default()], as nanoseconds. *)
Definition default_rate_config : EngineConfig := mk_engine_config (60 * 10 ^ 9) 1000 100.

Definition check_ip (e : RateLimit.Engine IpAddr) (ip : IpAddr) (now : Z) : Checked * RateLimit.Engine IpAddr :=
  let '(ok, e) := try_consume_global e now in
  if negb ok then (Err (RateLimitExceeded None), e)
  else
    let '(ok, e) := try_consume_key e ip now in
    if negb ok then (Err (RateLimitExceeded (Some ip)), e) else (Ok (), e).
End limiter.

(** ** Text lemmas *)

Lemma starts_with_spec pat t : starts_with pat t = true ↔ ∃ r, t = pat ++ r.
Proof.
  revert t. induction pat as [|p pat IH]; intros t; cbn; [naive_solver|]. destruct t as [|c t]; [naive_solver|].
  rewrite andb_true_iff, N.eqb_eq, IH. naive_solver.
Qed.

Lemma contains_spec pat t : contains pat t = true ↔ ∃ l r, t = l ++ pat ++ r.
Proof.
  induction t as [|c t IH]; cbn [contains]; rewrite orb_true_iff, starts_with_spec.
  - split; [intros [[r Hr]|?]; [by exists [], r|done]|]. intros (l & r & Hlr). destruct l; [left; by exists r|done].
  - rewrite IH. split.
    + intros [[r Hr]|(l & r & ->)]; [by exists [], r|by exists (c :: l), r].
    + intros (l & r & Hlr). destruct l as [|x l]; [left; by exists r|]. injection Hlr as -> ->. right. by exists l, r.
Qed.

Lemma contains_trans a b t : contains a b = true → contains b t = true → contains a t = true.
Proof.
  rewrite !contains_spec. intros (l & r & ->) (l' & r' & ->). exists (l' ++ l), (r ++ r'). by rewrite !(assoc_L (++)).
Qed.

Lemma contains_refl t : contains t t = true.
Proof. apply contains_spec. exists [], []. by rewrite app_nil_r. Qed.

(** The pieces between the slashes, joined again. *)
Fixpoint join_slash (l : list Text) : Text :=
  match l with
  | [] => []
  | [t] => t
  | t :: rest => t ++ slash :: join_slash rest
  end.

Lemma split_slash_cons t : ∃ first rest, split_slash t = first :: rest.
Proof. destruct t as [|c t]; cbn; [eauto|]. destruct (split_slash t); [eauto|]. destruct (c =? slash); eauto. Qed.

Lemma split_join t : join_slash (split_slash t) = t ∧ Forall (λ p, slash ∉ p) (split_slash t).
Proof.
  induction t as [|c t [IHj IHn]]; [split; [done|]; repeat constructor; by intros ?%elem_of_nil|].
  cbn [split_slash]. destruct (split_slash_cons t) as (first & rest & Hs). rewrite Hs in *.
  destruct (N.eqb_spec c slash) as [->|Hne].
  - split; [cbn [join_slash app]; by f_equal|]. constructor; [by intros ?%elem_of_nil|done].
  - apply Forall_cons in IHn as [Hf Hr]. split; [destruct rest; cbn [join_slash] in *; by rewrite <-IHj|].
    constructor; [|done]. rewrite not_elem_of_cons. done.
Qed.

Lemma piece_contained t piece : piece ∈ split_slash t → contains piece t = true.
Proof.
  rewrite contains_spec. pose proof (proj1 (split_join t)) as Hj. intros Hin. apply list_elem_of_split in Hin as (l1 & l2 & Hs).
  rewrite Hs in Hj. rewrite <-Hj. clear Hs Hj.
  induction l1 as [|x l1 IH]; cbn [app].
  - exists []. destruct l2 as [|y l2]; cbn [join_slash app]; [exists []; by rewrite app_nil_r|eauto].
  - destruct IH as (l & r & Hlr). exists (x ++ slash :: l), r. destruct (l1 ++ piece :: l2) eqn:He; [by destruct l1|].
    cbn [join_slash] in *. rewrite Hlr. by rewrite <-(assoc_L (++)).
Qed.

Lemma component_contained t c : c ∈ components t → c = lit "/" ∨ contains c t = true.
Proof.
  unfold components. destruct (split_slash t) as [|first rest] eqn:Hs; [by intros ?%elem_of_nil|]. intros [Hc|Hc]%elem_of_app.
  - case_bool_decide; [case_bool_decide; [by apply elem_of_nil in Hc|]; apply list_elem_of_singleton in Hc; by left|].
    apply list_elem_of_singleton in Hc as ->. right. apply piece_contained. rewrite Hs. by left.
  - apply elem_of_List_filter in Hc as [Hc _]. right. apply piece_contained. rewrite Hs. by right.
Qed.

(** ** What is accepted *)

(** Exactly the accepted paths. *)
Lemma validate_file_path_spec path : validate_file_path path = Ok () ↔
  (str_len path ≤ MAX_PATH_LENGTH) ∧
  (∀ pat, pat ∈ traversal_patterns → contains pat path = false ∧ contains pat (percent_decoded path) = false) ∧
  (0 ∉ path) ∧ (∀ c, c ∈ path → c ∉ dangerous_chars) ∧ (∀ c, c ∈ components path → str_len c ≤ MAX_FILE_NAME_LENGTH).
Proof.
  assert (Hmem : ∀ x l, existsb (N.eqb x) l = false ↔ x ∉ l).
  { intros x l. rewrite <-not_true_iff_false, existsb_exists. setoid_rewrite <-list_elem_of_In. setoid_rewrite N.eqb_eq. naive_solver. }
  assert (Hnone : ∀ A (f : A → bool) l, existsb f l = false ↔ ∀ x, x ∈ l → f x = false).
  { intros A f l. rewrite <-not_true_iff_false, existsb_exists. setoid_rewrite <-list_elem_of_In. setoid_rewrite <-not_true_iff_false. naive_solver. }
  unfold validate_file_path. destruct (N.ltb_spec MAX_PATH_LENGTH (str_len path)); [split; [done|]; intros (? & _); lia|].
  destruct (existsb _ traversal_patterns) eqn:Ht.
  { split; [done|]. intros (_ & Hp & _). apply existsb_exists in Ht as (pat & Hin & Hc). rewrite <-list_elem_of_In in Hin.
    destruct (Hp pat Hin) as [H1 H2]. by rewrite H1, H2 in Hc. }
  rewrite Hnone in Ht. destruct (existsb (N.eqb 0) path) eqn:Hz.
  { split; [done|]. intros (_ & _ & Hp & _). apply Hmem in Hp. congruence. }
  rewrite Hmem in Hz. destruct (existsb (λ c, existsb (N.eqb c) dangerous_chars) path) eqn:Hd.
  { split; [done|]. intros (_ & _ & _ & Hp & _). apply existsb_exists in Hd as (c & Hin & Hc). rewrite <-list_elem_of_In in Hin.
    specialize (Hp c Hin). apply Hmem in Hp. congruence. }
  rewrite Hnone in Hd. destruct (existsb _ (components path)) eqn:Hn.
  - split; [done|]. intros (_ & _ & _ & _ & Hp). apply existsb_exists in Hn as (c & Hin & Hc). rewrite <-list_elem_of_In in Hin.
    apply orb_true_iff in Hc as [Hc|Hc]; [apply N.ltb_lt in Hc; specialize (Hp c Hin); lia|].
    apply existsb_exists in Hc as (z & Hzc & <-%N.eqb_eq). rewrite <-list_elem_of_In in Hzc. exfalso.
    destruct (component_contained _ _ Hin) as [->|(l & r & ->)%contains_spec]; [revert Hzc; by_decide|]. set_solver.
  - rewrite Hnone in Hn. split; [intros _|done]. split_and!; [done| |done| |].
    + intros pat Hpat. by apply orb_false_iff, Ht.
    + intros c Hc. by apply Hmem, Hd.
    + intros c Hc. specialize (Hn c Hc). apply orb_false_iff in Hn as [Hn%N.ltb_ge _]. done.
Qed.

(** An accepted path never leaves its directory, as it stands or with its
    dots and slashes decoded. *)
Lemma accepted_path_safe path : validate_file_path path = Ok () →
  ∀ c, c ∈ components path ++ components (percent_decoded path) → c ≠ lit "..".
Proof.
  intros (_ & Hp & _)%validate_file_path_spec c Hc ->. assert (Hin : lit ".." ∈ traversal_patterns) by by_decide.
  destruct (Hp _ Hin) as [H1 H2]. apply elem_of_app in Hc as [[?|Hc]%component_contained|[?|Hc]%component_contained]; [done|congruence|done|congruence].
Qed.

Lemma validate_params_ok lower (l : list (Text * Text)) : validate_params lower l = Ok () ↔ ∀ kv, kv ∈ l → validate_param lower kv = Ok ().
Proof.
  induction l as [|kv l IH]; cbn [validate_params]; [split; [intros _ kv ?%elem_of_nil; done|done]|].
  destruct (validate_param lower kv) as [[]|e] eqn:Hkv.
  - rewrite IH. split; [intros H kv' [->|?]%elem_of_cons; auto|intros H kv' ?; apply H; by right].
  - split; [done|]. intros H. rewrite (H kv) in Hkv by (by left). done.
Qed.

(** Whether a request is accepted does not depend on the order in which its
    parameters are visited. *)
Lemma api_request_order lower (h h' : HashOrder) method path params :
  is_ok (@validate_api_request lower h method path params) = is_ok (@validate_api_request lower h' method path params).
Proof.
  unfold validate_api_request. destruct (negb _); [done|]. destruct (negb _); [done|]. destruct (contains _ _); [done|].
  assert (Hiff : validate_params lower (@map_iter h _ _ _ _ params) = Ok () ↔ validate_params lower (@map_iter h' _ _ _ _ params) = Ok ()).
  { rewrite !validate_params_ok. setoid_rewrite (@map_iter_perm h). setoid_rewrite (@map_iter_perm h'). done. }
  destruct (validate_params lower (@map_iter h _ _ _ _ params)) as [[]|], (validate_params lower (@map_iter h' _ _ _ _ params)) as [[]|]; try done; naive_solver.
Qed.

Lemma sanitized alnum input n : let out := sanitize_string alnum input n in
  Forall (λ c, safe_char alnum c = true) out ∧ (length out ≤ n)%nat.
Proof.
  cbn zeta. unfold sanitize_string. split; [|rewrite length_take; lia].
  apply Forall_take, Forall_forall. intros c Hc. by apply elem_of_List_filter in Hc as [_ ?].
Qed.
