(* ===== verification/DialFailure.v ===== *)
(** * Dial-failure caches

    [DialFailureCache] and [IdentityFailureCache] of
    [src/dht_network_manager.rs]: sockets that recently failed to dial, relay
    hosts with too many dead sessions, sockets their owner has just
    re-attested, and peers whose identity exchange failed.  Entries expire
    lazily, on the lookups that meet them; the file shows that this pruning
    is invisible, against a specification that keeps every time stamp.
    Instants are nanoseconds; a sharded map is a finite map, and each cache
    operation is atomic and reads the clock once. *)

From stdpp Require Import prelude sorting gmap strings.
From S2P Require Import Prelude Keys Ip Address PeerRecord RateLimit.

Definition seconds (n : Z) : Z := n * 10 ^ 9.

Definition DIAL_FAILURE_CACHE_TTL : Z := seconds (30 * 60).
Definition DIAL_FAILURE_IP_SUPPRESS_THRESHOLD : nat := 4.
Definition DIAL_FAILURE_PUBLISH_EXEMPTION_TTL : Z := seconds (2 * 60).
Definition IDENTITY_FAILURE_CACHE_TTL : Z := seconds (5 * 60).
Definition IDENTITY_MISMATCH_CACHE_TTL : Z := seconds (30 * 60).

(** [recorded.elapsed() < ttl]. *)
Definition fresh (ttl now recorded : Z) : bool := (duration_since now recorded <? ttl)%Z.

(** ** The cache *)

Record DialFailureCache := mk_dial_cache {
  entries : gmap SocketAddr Z;
  ip_failures : gmap IpAddr (gmap SocketAddr Z);
  exempt : gmap (PeerId * SocketAddr) Z;
}.

Definition dial_cache_new : DialFailureCache := mk_dial_cache ∅ ∅ ∅.

Definition canon_key (addr : SocketAddr) : SocketAddr :=
  socket_new (canonicalize_ip (socket_ip addr)) (socket_port addr).

Section cache.
Implicit Types (c : DialFailureCache) (addr : SocketAddr) (now : Z).

Definition per_addr_failed c addr now : bool * DialFailureCache :=
  match entries c !! addr with
  | Some recorded =>
      if fresh DIAL_FAILURE_CACHE_TTL now recorded then (true, c)
      else (false, mk_dial_cache (delete addr (entries c)) (ip_failures c) (exempt c))
  | None => (false, c)
  end.

Definition ip_is_suppressed c (ip : IpAddr) now : bool * DialFailureCache :=
  match ip_failures c !! ip with
  | Some sessions =>
      let sessions' := filter (λ kv, fresh DIAL_FAILURE_CACHE_TTL now kv.2 = true) sessions in
      if bool_decide (sessions' = ∅)
      then (false, mk_dial_cache (entries c) (delete ip (ip_failures c)) (exempt c))
      else (DIAL_FAILURE_IP_SUPPRESS_THRESHOLD <=? size sessions',
            mk_dial_cache (entries c) (<[ip := sessions']> (ip_failures c)) (exempt c))
  | None => (false, c)
  end.

Definition has_fresh_publish_exemption c (peer : PeerId) addr now : bool * DialFailureCache :=
  match exempt c !! (peer, addr) with
  | Some at_ =>
      if fresh DIAL_FAILURE_PUBLISH_EXEMPTION_TTL now at_ then (true, c)
      else (false, mk_dial_cache (entries c) (ip_failures c) (delete (peer, addr) (exempt c)))
  | None => (false, c)
  end.

Definition is_failed_for_dial c (peer : PeerId) (addr0 : SocketAddr) (ty : AddressType) now
    : bool * DialFailureCache :=
  let addr := canon_key addr0 in
  let '(failed, c) := per_addr_failed c addr now in
  if failed then (true, c)
  else if negb (bool_decide (ty = Relay)) then (false, c)
  else
    let '(suppressed, c) := ip_is_suppressed c (socket_ip addr) now in
    if negb suppressed then (false, c)
    else
      let '(exempted, c) := has_fresh_publish_exemption c peer addr now in
      (negb exempted, c).

Definition record_failure c (addr0 : SocketAddr) (ty : AddressType) now : DialFailureCache :=
  let addr := canon_key addr0 in
  mk_dial_cache (<[addr := now]> (entries c))
    (if bool_decide (ty = Relay)
     then <[socket_ip addr := <[addr := now]> (default ∅ (ip_failures c !! socket_ip addr))]> (ip_failures c)
     else ip_failures c)
    (exempt c).

Definition clear c (addr0 : SocketAddr) : DialFailureCache :=
  let addr := canon_key addr0 in
  mk_dial_cache (delete addr (entries c)) (delete (socket_ip addr) (ip_failures c)) (exempt c).

Definition note_republished c (peer : PeerId) (addr0 : SocketAddr) now : DialFailureCache :=
  let addr := canon_key addr0 in
  mk_dial_cache (delete addr (entries c)) (ip_failures c)
    (<[(peer, addr) := now]> (filter (λ kv, fresh DIAL_FAILURE_PUBLISH_EXEMPTION_TTL now kv.2 = true) (exempt c))).
End cache.

(** A publication clears the failures of the sockets it newly names. *)
Definition clear_dial_failures_for_published `{TransportLib} (c : DialFailureCache) (publisher : PeerId)
    (applied : bool) (previous_addresses addresses : list (MultiAddr * AddressType)) (now : Z)
    : nat * DialFailureCache :=
  if negb applied then (0, c)
  else foldl (λ acc p,
         if existsb (λ q, bool_decide (q.1 = p.1)) previous_addresses then acc
         else match dialable_socket_addr p.1 with
              | Some sa => (S acc.1, note_republished acc.2 publisher sa now)
              | None => acc
              end) (0, c) addresses.

(** ** The identity-failure cache *)

Abbreviation IdentityFailureCache := (gmap PeerId Z).

Definition identity_is_failed (c : IdentityFailureCache) (peer : PeerId) (now : Z) : bool * IdentityFailureCache :=
  match c !! peer with
  | Some expires => if (now <? expires)%Z then (true, c) else (false, delete peer c)
  | None => (false, c)
  end.

Definition identity_record_failure (c : IdentityFailureCache) (peer : PeerId) (now : Z) : IdentityFailureCache :=
  <[peer := (now + IDENTITY_FAILURE_CACHE_TTL)%Z]> c.
Definition identity_record_mismatch (c : IdentityFailureCache) (peer : PeerId) (now : Z) : IdentityFailureCache :=
  <[peer := (now + IDENTITY_MISMATCH_CACHE_TTL)%Z]> c.
Definition identity_clear (c : IdentityFailureCache) (peer : PeerId) : IdentityFailureCache := delete peer c.

(** ** The specification: time stamps that are never pruned *)

Record FailureLog := mk_log {
  failed_at : gmap SocketAddr Z;
  relay_failed_at : gmap SocketAddr Z;
  reattested_at : gmap (PeerId * SocketAddr) Z;
}.

Definition log_new : FailureLog := mk_log ∅ ∅ ∅.

(** A time stamp, while it is fresh. *)
Definition live (ttl now : Z) (o : option Z) : option Z :=
  t ← o; if fresh ttl now t then Some t else None.

(** The relay sessions of a host that failed within the TTL. *)
Definition dead_sessions (l : FailureLog) (ip : IpAddr) (now : Z) : gmap SocketAddr Z :=
  filter (λ kv, socket_ip kv.1 = ip ∧ fresh DIAL_FAILURE_CACHE_TTL now kv.2 = true) (relay_failed_at l).

(** A dial is suppressed when its socket failed within the TTL, or when it is
    a relay dial to a host with four dead sessions, unless the peer has just
    re-attested the socket. *)
Definition suppressed (l : FailureLog) (peer : PeerId) (addr0 : SocketAddr) (ty : AddressType) (now : Z) : bool :=
  let addr := canon_key addr0 in
  bool_decide (is_Some (live DIAL_FAILURE_CACHE_TTL now (failed_at l !! addr))) ||
  (bool_decide (ty = Relay) &&
   (DIAL_FAILURE_IP_SUPPRESS_THRESHOLD <=? size (dead_sessions l (socket_ip addr) now)) &&
   negb (bool_decide (is_Some (live DIAL_FAILURE_PUBLISH_EXEMPTION_TTL now (reattested_at l !! (peer, addr)))))).

Inductive CacheEvent :=
  | EvFailure (addr : SocketAddr) (ty : AddressType)
  | EvSuccess (addr : SocketAddr)
  | EvRepublished (peer : PeerId) (addr : SocketAddr)
  | EvQuery (peer : PeerId) (addr : SocketAddr) (ty : AddressType).

(** One event at an instant, in the cache and in the specification; a query
    also answers. *)
Definition cache_step (c : DialFailureCache) (now : Z) (ev : CacheEvent) : option bool * DialFailureCache :=
  match ev with
  | EvFailure addr ty => (None, record_failure c addr ty now)
  | EvSuccess addr => (None, clear c addr)
  | EvRepublished peer addr => (None, note_republished c peer addr now)
  | EvQuery peer addr ty => let '(b, c') := is_failed_for_dial c peer addr ty now in (Some b, c')
  end.

Definition log_step (l : FailureLog) (now : Z) (ev : CacheEvent) : option bool * FailureLog :=
  match ev with
  | EvFailure addr0 ty =>
      let addr := canon_key addr0 in
      (None, mk_log (<[addr := now]> (failed_at l))
               (if bool_decide (ty = Relay) then <[addr := now]> (relay_failed_at l) else relay_failed_at l)
               (reattested_at l))
  | EvSuccess addr0 =>
      let addr := canon_key addr0 in
      (None, mk_log (delete addr (failed_at l))
               (filter (λ kv, socket_ip kv.1 ≠ socket_ip addr) (relay_failed_at l)) (reattested_at l))
  | EvRepublished peer addr0 =>
      let addr := canon_key addr0 in
      (None, mk_log (delete addr (failed_at l)) (relay_failed_at l) (<[(peer, addr) := now]> (reattested_at l)))
  | EvQuery peer addr ty => (Some (suppressed l peer addr ty now), l)
  end.

Fixpoint cache_run (c : DialFailureCache) (evs : list (Z * CacheEvent)) : list (option bool) :=
  match evs with
  | [] => []
  | (now, ev) :: rest => let '(o, c') := cache_step c now ev in o :: cache_run c' rest
  end.

Fixpoint log_run (l : FailureLog) (evs : list (Z * CacheEvent)) : list (option bool) :=
  match evs with
  | [] => []
  | (now, ev) :: rest => let '(o, l') := log_step l now ev in o :: log_run l' rest
  end.

(** ** Pruning is invisible *)

Lemma fresh_earlier ttl now now' t : (now ≤ now')%Z → fresh ttl now' t = true → fresh ttl now t = true.
Proof. unfold fresh, duration_since. rewrite !Z.ltb_lt. lia. Qed.

Lemma live_later ttl now now' o : (now ≤ now')%Z → live ttl now' (live ttl now o) = live ttl now' o.
Proof.
  intros Hle. destruct o as [t|]; [|done]. cbn. destruct (fresh ttl now t) eqn:Hf; cbn; [done|].
  destruct (fresh ttl now' t) eqn:Hf'; [|done]. by rewrite (fresh_earlier ttl now now') in Hf.
Qed.

Lemma live_mono ttl now now' o o' :
  (now ≤ now')%Z → live ttl now o = live ttl now o' → live ttl now' o = live ttl now' o'.
Proof. intros Hle H. by rewrite <-(live_later ttl now now' o), H, live_later. Qed.

Lemma live_idemp ttl now o : live ttl now (live ttl now o) = live ttl now o.
Proof. by apply live_later. Qed.

Lemma lookup_filter_fresh {K} `{Countable K} ttl now (m : gmap K Z) k :
  filter (λ kv, fresh ttl now kv.2 = true) m !! k = live ttl now (m !! k).
Proof.
  destruct (m !! k) as [t|] eqn:Hk; cbn.
  - destruct (fresh ttl now t) eqn:Hf.
    + by apply map_lookup_filter_Some.
    + apply map_lookup_filter_None. right. intros t' Ht'. by simplify_eq/=; rewrite Hf.
  - apply map_lookup_filter_None. by left.
Qed.

Lemma lookup_dead_sessions l ip now s :
  dead_sessions l ip now !! s =
  if decide (socket_ip s = ip) then live DIAL_FAILURE_CACHE_TTL now (relay_failed_at l !! s) else None.
Proof.
  unfold dead_sessions. destruct (relay_failed_at l !! s) as [t|] eqn:Hs; cbn.
  - destruct (decide (socket_ip s = ip)) as [Hip|Hip].
    + destruct (fresh DIAL_FAILURE_CACHE_TTL now t) eqn:Hf; [by apply map_lookup_filter_Some|].
      apply map_lookup_filter_None. right. intros t' Ht' [_ Hf']. simplify_eq/=. congruence.
    + apply map_lookup_filter_None. right. by intros t' Ht' [? _].
  - destruct (decide _); apply map_lookup_filter_None; by left.
Qed.

Definition sessions (c : DialFailureCache) (ip : IpAddr) : gmap SocketAddr Z := default ∅ (ip_failures c !! ip).

(** The cache and the log agree on every time stamp that is still fresh. *)
Record represents (now : Z) (c : DialFailureCache) (l : FailureLog) : Prop := {
  rep_entries a : live DIAL_FAILURE_CACHE_TTL now (entries c !! a) =
                  live DIAL_FAILURE_CACHE_TTL now (failed_at l !! a);
  rep_sessions ip s : live DIAL_FAILURE_CACHE_TTL now (sessions c ip !! s) = dead_sessions l ip now !! s;
  rep_exempt k : live DIAL_FAILURE_PUBLISH_EXEMPTION_TTL now (exempt c !! k) =
                 live DIAL_FAILURE_PUBLISH_EXEMPTION_TTL now (reattested_at l !! k);
}.

Lemma represents_later now now' c l : (now ≤ now')%Z → represents now c l → represents now' c l.
Proof.
  intros Hle [H1 H2 H3]. split.
  - intros a. by eapply live_mono.
  - intros ip s. specialize (H2 ip s). rewrite lookup_dead_sessions in *. destruct (decide _).
    + by eapply live_mono.
    + by rewrite <-(live_later _ now now'), H2.
  - intros k. by eapply live_mono.
Qed.

Lemma represents_new now : represents now dial_cache_new log_new.
Proof. split; [done|intros; by rewrite lookup_dead_sessions; case_decide|done]. Qed.

(** Lazy pruning replaces an entry by its live part. *)
Lemma live_delete {K} `{Countable K} ttl now (m : gmap K Z) k k' :
  live ttl now (m !! k) = None → live ttl now (delete k m !! k') = live ttl now (m !! k').
Proof.
  intros Hk. destruct (decide (k = k')) as [<-|Hne]; [by rewrite lookup_delete_eq, Hk|by rewrite lookup_delete_ne].
Qed.

Lemma per_addr_failed_spec now c l addr :
  represents now c l →
  (per_addr_failed c addr now).1 = bool_decide (is_Some (live DIAL_FAILURE_CACHE_TTL now (failed_at l !! addr))) ∧
  represents now (per_addr_failed c addr now).2 l.
Proof.
  intros Hr. pose proof (rep_entries _ _ _ Hr addr) as He. rewrite <-He. unfold per_addr_failed.
  destruct (entries c !! addr) as [t|] eqn:Ht; cbn; [|done].
  destruct (fresh _ now t) eqn:Hf; cbn; [done|]. split; [done|].
  destruct Hr as [H1 H2 H3]. split; [|done|done]. intros a. cbn. rewrite live_delete; [done|].
  rewrite Ht. cbn. by rewrite Hf.
Qed.

Lemma ip_is_suppressed_spec now c l ip :
  represents now c l →
  (ip_is_suppressed c ip now).1 = (DIAL_FAILURE_IP_SUPPRESS_THRESHOLD <=? size (dead_sessions l ip now)) ∧
  represents now (ip_is_suppressed c ip now).2 l.
Proof.
  intros Hr.
  assert (Hd : filter (λ kv, fresh DIAL_FAILURE_CACHE_TTL now kv.2 = true) (sessions c ip) = dead_sessions l ip now).
  { apply map_eq. intros s. by rewrite lookup_filter_fresh, (rep_sessions _ _ _ Hr). }
  destruct Hr as [H1 H2 H3]. unfold ip_is_suppressed. unfold sessions in Hd.
  destruct (ip_failures c !! ip) as [ss|] eqn:Hs; cbn in Hd.
  2: { rewrite map_filter_empty in Hd. rewrite <-Hd, map_size_empty. done. }
  rewrite Hd. destruct (bool_decide_reflect (dead_sessions l ip now = ∅)) as [He|Hne]; cbn.
  - rewrite He, map_size_empty. split; [done|]. split; [done| |done].
    intros ip' s. unfold sessions. cbn. destruct (decide (ip = ip')) as [<-|Hne].
    + by rewrite lookup_delete_eq, He.
    + rewrite lookup_delete_ne by done. apply H2.
  - split; [done|]. split; [done| |done]. intros ip' s. unfold sessions. cbn.
    destruct (decide (ip = ip')) as [<-|Hn].
    + rewrite lookup_insert_eq. cbn. rewrite lookup_dead_sessions. case_decide; [apply live_idemp|done].
    + rewrite lookup_insert_ne by done. apply H2.
Qed.

Lemma has_fresh_exemption_spec now c l peer addr :
  represents now c l →
  (has_fresh_publish_exemption c peer addr now).1 =
    bool_decide (is_Some (live DIAL_FAILURE_PUBLISH_EXEMPTION_TTL now (reattested_at l !! (peer, addr)))) ∧
  represents now (has_fresh_publish_exemption c peer addr now).2 l.
Proof.
  intros Hr. pose proof (rep_exempt _ _ _ Hr (peer, addr)) as He. rewrite <-He. unfold has_fresh_publish_exemption.
  destruct (exempt c !! (peer, addr)) as [t|] eqn:Ht; cbn; [|done].
  destruct (fresh _ now t) eqn:Hf; cbn; [done|]. split; [done|].
  destruct Hr as [H1 H2 H3]. split; [done|done|]. intros k. cbn. rewrite live_delete; [done|].
  rewrite Ht. cbn. by rewrite Hf.
Qed.

Lemma is_failed_for_dial_spec now c l peer addr ty :
  represents now c l →
  (is_failed_for_dial c peer addr ty now).1 = suppressed l peer addr ty now ∧
  represents now (is_failed_for_dial c peer addr ty now).2 l.
Proof.
  intros Hr. unfold is_failed_for_dial, suppressed.
  destruct (per_addr_failed_spec now c l (canon_key addr) Hr) as [Hf Hr1].
  destruct (per_addr_failed c (canon_key addr) now) as [f c1]. cbn [fst snd] in *. rewrite <-Hf.
  destruct f; [done|]. cbn [orb]. destruct (bool_decide (ty = Relay)); [|done]. cbn [negb andb].
  destruct (ip_is_suppressed_spec now c1 l (socket_ip (canon_key addr)) Hr1) as [Hs Hr2].
  destruct (ip_is_suppressed c1 (socket_ip (canon_key addr)) now) as [s c2]. cbn [fst snd] in *. rewrite <-Hs.
  destruct s; [|done]. cbn [negb andb].
  destruct (has_fresh_exemption_spec now c2 l peer (canon_key addr) Hr2) as [He Hr3].
  destruct (has_fresh_publish_exemption c2 peer (canon_key addr) now) as [x c3]. cbn [fst snd] in *. by rewrite <-He.
Qed.

Lemma record_failure_spec now c l addr ty :
  represents now c l →
  represents now (record_failure c addr ty now) (log_step l now (EvFailure addr ty)).2.
Proof.
  intros [H1 H2 H3]. cbn. set (a := canon_key addr). split; cbn; [| |done].
  - intros x. destruct (decide (a = x)) as [<-|Hne]; [by rewrite !lookup_insert_eq|].
    by rewrite !lookup_insert_ne.
  - intros ip s. rewrite lookup_dead_sessions. cbn. specialize (H2 ip s). rewrite lookup_dead_sessions in H2.
    unfold sessions, record_failure in *. cbn. destruct (bool_decide (ty = Relay)); [|exact H2]. fold a.
    destruct (decide (socket_ip a = ip)) as [<-|Hne].
    + rewrite lookup_insert_eq. cbn.
      destruct (decide (a = s)) as [<-|Hns]; [by rewrite !lookup_insert_eq, decide_True|].
      by rewrite !lookup_insert_ne.
    + rewrite lookup_insert_ne by done. rewrite H2. case_decide as Hs; [|done].
      destruct (decide (a = s)) as [->|Hns]; [done|]. by rewrite lookup_insert_ne.
Qed.

Lemma clear_spec now c l addr :
  represents now c l → represents now (clear c addr) (log_step l now (EvSuccess addr)).2.
Proof.
  intros [H1 H2 H3]. cbn. set (a := canon_key addr). split; cbn; [| |done].
  - intros x. destruct (decide (a = x)) as [<-|Hne]; [by rewrite !lookup_delete_eq|]. by rewrite !lookup_delete_ne.
  - intros ip s. specialize (H2 ip s). rewrite lookup_dead_sessions in *. cbn. unfold sessions in *. cbn.
    destruct (decide (socket_ip a = ip)) as [<-|Hne].
    + rewrite lookup_delete_eq. cbn. case_decide as Hs; [|done].
      destruct (filter _ _ !! s) as [t|] eqn:Hf; [|done].
      apply map_lookup_filter_Some in Hf as [_ Hf]. by cbn in Hf.
    + rewrite lookup_delete_ne by done. rewrite H2. case_decide as Hs; [|done].
      f_equal. symmetry. destruct (relay_failed_at l !! s) as [t|] eqn:Ht.
      * apply map_lookup_filter_Some. split; [done|]. cbn. congruence.
      * apply map_lookup_filter_None. by left.
Qed.

Lemma note_republished_spec now c l peer addr :
  represents now c l →
  represents now (note_republished c peer addr now) (log_step l now (EvRepublished peer addr)).2.
Proof.
  intros [H1 H2 H3]. cbn. set (a := canon_key addr). split; cbn; [|done|].
  - intros x. destruct (decide (a = x)) as [<-|Hne]; [by rewrite !lookup_delete_eq|]. by rewrite !lookup_delete_ne.
  - intros k. destruct (decide ((peer, a) = k)) as [<-|Hne]; [by rewrite !lookup_insert_eq|].
    rewrite !lookup_insert_ne by done. by rewrite lookup_filter_fresh, live_idemp.
Qed.

Lemma cache_step_spec now c l ev :
  represents now c l →
  (cache_step c now ev).1 = (log_step l now ev).1 ∧ represents now (cache_step c now ev).2 (log_step l now ev).2.
Proof.
  intros Hr. destruct ev as [addr ty|addr|peer addr|peer addr ty].
  - split; [done|by apply record_failure_spec].
  - split; [done|by apply clear_spec].
  - split; [done|by apply note_republished_spec].
  - cbn. destruct (is_failed_for_dial_spec now c l peer addr ty Hr) as [Hf Hr'].
    destruct (is_failed_for_dial c peer addr ty now) as [b c']. cbn in *. by rewrite Hf.
Qed.

Lemma cache_run_refines evs : ∀ now c l,
  represents now c l → Forall (λ e, (now ≤ e.1)%Z) evs → StronglySorted (λ e e', (e.1 ≤ e'.1)%Z) evs →
  cache_run c evs = log_run l evs.
Proof.
  induction evs as [|[t ev] evs IH]; intros now c l Hr Hge Hs; [done|].
  apply Forall_cons in Hge as [Ht _]. apply StronglySorted_inv in Hs as [Hs Hall]. cbn in Ht.
  cbn. pose proof (cache_step_spec t c l ev (represents_later _ _ _ _ Ht Hr)) as [Ho Hr'].
  destruct (cache_step c t ev) as [o c']. destruct (log_step l t ev) as [o' l']. cbn in *.
  rewrite Ho. f_equal. by apply (IH t).
Qed.

(** C36: the dial-failure cache implements its specification.  Over any
    sequence of failures, successes, re-publications and queries at
    non-decreasing instants, the cache answers every query as the log that
    forgets nothing does: a dial is suppressed exactly when its socket failed
    within 30 minutes (with no success or re-publication since), or, for a
    relay socket, when four distinct sessions of its host failed within 30
    minutes with no success on that host, and the peer did not re-attest the
    socket within the last two minutes. *)
Theorem dial_cache_refines evs :
  StronglySorted (λ e e', (e.1 ≤ e'.1)%Z) evs →
  cache_run dial_cache_new evs = log_run log_new evs.
Proof.
  intros Hs. destruct evs as [|[t ev] evs]; [done|].
  apply (cache_run_refines _ t); [apply represents_new| |done].
  apply StronglySorted_inv in Hs as [_ Hall]. by constructor.
Qed.
