(* ===== verification/DialPolicy.v ===== *)
(** * Which addresses to dial

    The dial policy of [src/dht_network_manager.rs]: what the local node knows
    of its own networks ([DialAddressContext]), the bounded plan it dials for
    a peer ([select_dial_candidates_with_context]), the filters for stored and
    relay-candidate addresses, and the loop of [dial_addresses] over a plan
    and the failure cache.  [normalize_socket_addr] belongs to the transport
    crate and is a parameter. *)

From stdpp Require Import prelude sorting gmap strings.
From S2P Require Import Prelude Keys Ip Address PeerRecord RateLimit DialFailure.

Definition MAX_DIAL_PLAN_SIZE : nat := 5.

(** ** The local networks *)

Record DialAddressContext := mk_dial_context {
  local_wan_ips : gset IpAddr;
  local_lan_ips : list IpAddr;
  ctx_allow_loopback : bool;
}.

Definition record_local_ip (acc : gset IpAddr * list IpAddr) (ip0 : IpAddr) : gset IpAddr * list IpAddr :=
  let '(wan_ips, lan_ips) := acc in
  let ip := canonicalize_ip ip0 in
  if is_lan_ip ip then (wan_ips, if bool_decide (ip ∈ lan_ips) then lan_ips else lan_ips ++ [ip])
  else ({[ip]} ∪ wan_ips, lan_ips).

Definition same_lan_prefix (a b : IpAddr) : bool :=
  match canonicalize_ip a, canonicalize_ip b with
  | V4 a, V4 b =>
      is_lan_ip (V4 a) && is_lan_ip (V4 b) && (octet a 0 =? octet b 0)%Z && (octet a 1 =? octet b 1)%Z
      && (octet a 2 =? octet b 2)%Z
  | V6 a, V6 b =>
      is_lan_ip (V6 a) && is_lan_ip (V6 b) &&
      forallb (λ p, (p.1 =? p.2)%Z) (zip (take 8 (octets a)) (take 8 (octets b)))
  | _, _ => false
  end.

Section context.
Context `{TL : TransportLib}.
Implicit Types (ctx : DialAddressContext) (addr : MultiAddr) (typed : list (MultiAddr * AddressType)).

Definition from_parts (external : list SocketAddr) (listen : list MultiAddr) (allow_loopback : bool)
    : DialAddressContext :=
  let acc := foldl record_local_ip (∅, []) (socket_ip <$> external) in
  let '(wan, lan) := foldl record_local_ip acc (omap ip listen) in
  mk_dial_context wan lan allow_loopback.

Definition ip_shares_local_wan ctx (ip0 : IpAddr) : bool :=
  let ip := canonicalize_ip ip0 in
  negb (is_lan_ip ip) && bool_decide (ip ∈ local_wan_ips ctx).

Definition address_shares_local_wan ctx addr : bool :=
  from_option (ip_shares_local_wan ctx) false (ip addr).

Definition peer_shares_wan ctx typed : bool :=
  negb (bool_decide (local_wan_ips ctx = ∅)) &&
  existsb (λ p,
    let ty := for_advertised_address p.1 p.2 in
    negb (bool_decide (ty = Relay) || bool_decide (ty = Lan)) &&
    from_option (ip_shares_local_wan ctx) false (ip p.1)) typed.

(** A [u8]: smaller is nearer. *)
Definition lan_match_score ctx (ip0 : IpAddr) : N :=
  let ip := canonicalize_ip ip0 in
  if negb (is_lan_ip ip) then 4
  else if ip_is_loopback ip then (if ctx_allow_loopback ctx then 0 else 4)
  else if bool_decide (ip ∈ local_lan_ips ctx) then 0
  else if existsb (λ local, same_lan_prefix local ip) (local_lan_ips ctx) then 1
  else 3.

Definition is_dialable addr : bool :=
  match dialable_socket_addr addr with
  | None => false
  | Some sa => negb (ip_is_unspecified (socket_ip sa))
  end.

(** ** Filters *)

Definition first_direct_dialable_with_filter (node : DHTNode) (accept : MultiAddr → bool) : option MultiAddr :=
  fst <$> List.find (λ p, bool_decide (p.2 = Direct) &&
                 from_option (λ sa, negb (ip_is_unspecified (socket_ip sa))) false (dialable_socket_addr p.1) &&
                 accept p.1) (typed_addresses node).

Definition first_direct_dialable (node : DHTNode) : option MultiAddr :=
  first_direct_dialable_with_filter node (λ _, true).

Definition first_direct_dialable_for_relay (node : DHTNode) ctx : option MultiAddr :=
  if bool_decide (local_wan_ips ctx = ∅) then first_direct_dialable node
  else first_direct_dialable_with_filter node (λ addr, negb (address_shares_local_wan ctx addr)).

Definition filter_lan_addresses_for_store_with_context typed (transport_source : option MultiAddr) ctx
    : list (MultiAddr * AddressType) :=
  let canonical := (λ p, (p.1, for_advertised_address p.1 p.2)) <$> typed in
  let arrived_over_lan := from_option is_lan_ip false (transport_source ≫= ip) in
  if arrived_over_lan || peer_shares_wan ctx canonical then canonical
  else List.filter (λ p, negb (bool_decide (p.2 = Lan))) canonical.

Definition filter_response_nodes (candidate_nodes : list DHTNode) (requester : PeerId) : list DHTNode :=
  List.filter (λ node, negb (bool_decide (node_peer_id node = requester))) candidate_nodes.

Definition dialable_addresses_typed typed : list (MultiAddr * AddressType) :=
  sort_by_key (λ p, priority p.2)
    ((λ p, (p.1, for_advertised_address p.1 p.2)) <$> List.filter (λ p, is_dialable p.1) typed).

(** ** The dial plan *)

Context (normalize_socket_addr : SocketAddr → SocketAddr).

Record WanChoice := mk_wan { wan_index : nat; wan_addr : MultiAddr; wan_type : AddressType }.
Record LanChoice := mk_lan { lan_index : nat; lan_score : N; lan_addr : MultiAddr; lan_type : AddressType }.

Record PlanSlots := mk_slots {
  slot_relay : option (MultiAddr * AddressType);
  slot_wan_v4 : option WanChoice;
  slot_wan_v6 : option WanChoice;
  slot_lan_v4 : option LanChoice;
  slot_lan_v6 : option LanChoice;
}.

Definition replace_wan (slot : option WanChoice) (c : WanChoice) : option WanChoice :=
  match slot with
  | Some existing => if (priority (wan_type c) <? priority (wan_type existing))%N then Some c else slot
  | None => Some c
  end.

Definition replace_lan (slot : option LanChoice) (c : LanChoice) : option LanChoice :=
  match slot with
  | Some existing =>
      if (lan_score c <? lan_score existing)%N ||
         ((lan_score c =? lan_score existing)%N && (lan_index c <? lan_index existing))
      then Some c else slot
  | None => Some c
  end.

(** One iteration of the scan over the peer's addresses. *)
Definition plan_step ctx (s : PlanSlots) (x : nat * (MultiAddr * AddressType)) : PlanSlots :=
  let '(index, (addr, ty0)) := x in
  if negb (is_dialable addr) then s
  else
    let ty := for_advertised_address addr ty0 in
    if bool_decide (ty = Relay) then
      if bool_decide (slot_relay s = None) && negb (address_shares_local_wan ctx addr)
      then mk_slots (Some (addr, ty)) (slot_wan_v4 s) (slot_wan_v6 s) (slot_lan_v4 s) (slot_lan_v6 s)
      else s
    else
      match dialable_socket_addr addr with
      | None => s
      | Some sa =>
          let ip := socket_ip (normalize_socket_addr sa) in
          if bool_decide (ty = Lan) then
            let c := mk_lan index (lan_match_score ctx ip) addr ty in
            if ip_is_ipv4 ip
            then mk_slots (slot_relay s) (slot_wan_v4 s) (slot_wan_v6 s) (replace_lan (slot_lan_v4 s) c) (slot_lan_v6 s)
            else mk_slots (slot_relay s) (slot_wan_v4 s) (slot_wan_v6 s) (slot_lan_v4 s) (replace_lan (slot_lan_v6 s) c)
          else
            let c := mk_wan index addr ty in
            if ip_is_ipv4 ip
            then mk_slots (slot_relay s) (replace_wan (slot_wan_v4 s) c) (slot_wan_v6 s) (slot_lan_v4 s) (slot_lan_v6 s)
            else mk_slots (slot_relay s) (slot_wan_v4 s) (replace_wan (slot_wan_v6 s) c) (slot_lan_v4 s) (slot_lan_v6 s)
      end.

Definition indexed typed : list (nat * (MultiAddr * AddressType)) := imap pair typed.

Definition plan_slots ctx typed : PlanSlots :=
  foldl (plan_step ctx) (mk_slots None None None None None) (indexed typed).

Definition select_dial_candidates_with_context typed ctx : list (MultiAddr * AddressType) :=
  let s := plan_slots ctx typed in
  let lan := (λ c, (lan_addr c, lan_type c)) <$>
    sort_by_key (λ c, (lan_score c, lan_index c)) (omap id [slot_lan_v4 s; slot_lan_v6 s]) in
  let wan := (λ c, (wan_addr c, wan_type c)) <$>
    sort_by_key wan_index (omap id [slot_wan_v4 s; slot_wan_v6 s]) in
  let has_wan_or_relay := bool_decide (is_Some (slot_relay s)) || negb (bool_decide (wan = [])) in
  let prefer_lan := negb (bool_decide (lan = [])) && peer_shares_wan ctx typed in
  (if prefer_lan then lan else []) ++ option_list (slot_relay s) ++ wan ++
  (if negb prefer_lan && negb has_wan_or_relay then lan else []).

(** ** Dialling a plan *)

(** The transport's answer to the [i]-th dial of a loop: a channel or an
    error. *)
Context (connect_peer_typed : nat → MultiAddr → AddressType → option string).
(** The clock: two readings for each address of a plan, one for the cache
    lookup and one for the recording of the dial's result. *)
Context (clock : nat → Z).

Definition dial_candidate (i : nat) addr (kind : AddressType) : option string :=
  if from_option ip_is_unspecified false (ip addr) then None else connect_peer_typed i addr kind.

(** Returns the channel, the cache and the addresses that were dialled. *)
Fixpoint dial_loop (peer : PeerId) (i : nat) (plan : list (MultiAddr * AddressType)) (c : DialFailureCache)
    : option string * DialFailureCache * list (MultiAddr * AddressType) :=
  match plan with
  | [] => (None, c, [])
  | (addr, ty) :: rest =>
      match dialable_socket_addr addr with
      | None => dial_loop peer (S i) rest c
      | Some sa =>
          let '(failed, c) := is_failed_for_dial c peer sa ty (clock (2 * i)) in
          if failed then dial_loop peer (S i) rest c
          else match dial_candidate i addr ty with
               | Some channel_id => (Some channel_id, clear c sa, [(addr, ty)])
               | None =>
                   let '(r, c', dialled) :=
                     dial_loop peer (S i) rest (record_failure c sa ty (clock (2 * i + 1))) in
                   (r, c', (addr, ty) :: dialled)
               end
      end
  end.

Definition dial_addresses (peer : PeerId) (connected : bool) ctx typed (c : DialFailureCache)
    : option string * DialFailureCache * list (MultiAddr * AddressType) :=
  if connected then (None, c, [])
  else dial_loop peer 0 (select_dial_candidates_with_context typed ctx) c.

(** [dial_plan_fully_failed_in_cache_for_local]: the [all] stops at the first
    address that may be dialled. *)
Fixpoint all_failed (peer : PeerId) (plan : list (MultiAddr * AddressType)) (c : DialFailureCache) (now : Z)
    : bool * DialFailureCache :=
  match plan with
  | [] => (true, c)
  | (addr, ty) :: rest =>
      match dialable_socket_addr addr with
      | None => (false, c)
      | Some sa =>
          let '(failed, c) := is_failed_for_dial c peer sa ty now in
          if failed then all_failed peer rest c now else (false, c)
      end
  end.

Definition dial_plan_fully_failed (peer : PeerId) ctx typed (c : DialFailureCache) (now : Z) : bool * DialFailureCache :=
  match select_dial_candidates_with_context typed ctx with
  | [] => (false, c)
  | plan => all_failed peer plan c now
  end.

Definition lookup_candidate_dial_plan_is_exhausted (node : DHTNode) (connected : bool) ctx (c : DialFailureCache) (now : Z)
    : bool * DialFailureCache :=
  if negb (existsb (λ p, is_dialable p.1) (typed_addresses node)) then (negb connected, c)
  else let '(failed, c) := dial_plan_fully_failed (node_peer_id node) ctx (typed_addresses node) c now in
       if negb failed then (false, c) else (negb connected, c).

(** ** The plan against its reference *)

Implicit Types x : nat * (MultiAddr * AddressType).

(** What an advertised address competes for: the relay slot, the WAN slot of
    its family or the LAN slot of its family. *)
Definition relay_candidate ctx x : option (MultiAddr * AddressType) :=
  let ty := for_advertised_address x.2.1 x.2.2 in
  if is_dialable x.2.1 && bool_decide (ty = Relay) && negb (address_shares_local_wan ctx x.2.1)
  then Some (x.2.1, ty) else None.

Definition family addr : option bool :=
  (λ sa, ip_is_ipv4 (socket_ip (normalize_socket_addr sa))) <$> dialable_socket_addr addr.

Definition wan_candidate (f : bool) x : option WanChoice :=
  let ty := for_advertised_address x.2.1 x.2.2 in
  if is_dialable x.2.1 && negb (bool_decide (ty = Relay)) && negb (bool_decide (ty = Lan)) &&
     bool_decide (family x.2.1 = Some f)
  then Some (mk_wan x.1 x.2.1 ty) else None.

Definition lan_candidate ctx (f : bool) x : option LanChoice :=
  sa ← dialable_socket_addr x.2.1;
  let ty := for_advertised_address x.2.1 x.2.2 in
  if is_dialable x.2.1 && bool_decide (ty = Lan) && bool_decide (family x.2.1 = Some f)
  then Some (mk_lan x.1 (lan_match_score ctx (socket_ip (normalize_socket_addr sa))) x.2.1 ty) else None.

Definition relay_candidates ctx typed := omap (relay_candidate ctx) (indexed typed).
Definition wan_candidates (f : bool) typed := omap (wan_candidate f) (indexed typed).
Definition lan_candidates ctx (f : bool) typed := omap (lan_candidate ctx f) (indexed typed).

(** The best of each: the first relay, the first WAN address of the best type
    and the first LAN address of the best score. *)
Definition best_wan (f : bool) typed : option WanChoice :=
  min_by_key (λ c, priority (wan_type c)) (wan_candidates f typed).
Definition best_lan ctx (f : bool) typed : option LanChoice := min_by_key lan_score (lan_candidates ctx f typed).

Lemma indexed_snoc typed p : indexed (typed ++ [p]) = indexed typed ++ [(length typed, p)].
Proof. unfold indexed. rewrite imap_app. cbn. by rewrite Nat.add_0_r. Qed.

Lemma lan_candidate_index ctx f typed c : c ∈ lan_candidates ctx f typed → lan_index c < length typed.
Proof.
  unfold lan_candidates. rewrite list_elem_of_omap. intros ([i q] & Hin & Hc).
  apply list_elem_of_lookup in Hin as [j Hj]. unfold indexed in Hj. rewrite list_lookup_imap in Hj.
  destruct (typed !! j) as [q'|] eqn:Hq; [|done]. simplify_eq/=. apply lookup_lt_Some in Hq.
  unfold lan_candidate in Hc. cbn in Hc. destruct (dialable_socket_addr q.1); [|done]. cbn in Hc.
  case_match; simplify_eq/=. done.
Qed.

Lemma omap_snoc {A B} (g : A → option B) l a : omap g (l ++ [a]) = omap g l ++ option_list (g a).
Proof. by rewrite omap_app. Qed.

Lemma bool_eqb_decide (a b : bool) : bool_decide (a = b) = eqb a b.
Proof. by destruct a, b. Qed.

Lemma head_app {A} (l k : list A) : head (l ++ k) = match head l with Some x => Some x | None => head k end.
Proof. by destruct l. Qed.

Lemma replace_wan_min l c :
  replace_wan (min_by_key (λ c, priority (wan_type c)) l) c = min_by_key (λ c, priority (wan_type c)) (l ++ [c]).
Proof.
  unfold min_by_key at 2. rewrite foldl_app. cbn. fold (min_by_key (λ c, priority (wan_type c)) l).
  destruct (min_by_key _ l) as [e|]; cbn; [|done].
  replace (ltb (priority (wan_type c)) (priority (wan_type e))) with (priority (wan_type c) <? priority (wan_type e))%N; [done|].
  apply eq_bool_prop_intro. by rewrite !Is_true_true, ltb_tlt, N_tlt, N.ltb_lt.
Qed.

Lemma replace_lan_min l c :
  (∀ e, e ∈ l → lan_index e < lan_index c) →
  replace_lan (min_by_key lan_score l) c = min_by_key lan_score (l ++ [c]).
Proof.
  intros Hidx. unfold min_by_key at 2. rewrite foldl_app. cbn [foldl]. fold (min_by_key lan_score l).
  destruct (min_by_key lan_score l) as [e|] eqn:He; cbn [min_step replace_lan]; [|done].
  apply min_by_key_Some in He as [He _]. specialize (Hidx e He).
  rewrite (proj2 (Nat.ltb_ge (lan_index c) (lan_index e))) by lia. rewrite andb_false_r, orb_false_r.
  replace (ltb (lan_score c) (lan_score e)) with (lan_score c <? lan_score e)%N; [done|].
  apply eq_bool_prop_intro. by rewrite !Is_true_true, ltb_tlt, N_tlt, N.ltb_lt.
Qed.

(** One more address moves the slots as it moves the reference. *)
Lemma plan_slots_spec ctx typed :
  plan_slots ctx typed =
  mk_slots (head (relay_candidates ctx typed)) (best_wan true typed) (best_wan false typed)
    (best_lan ctx true typed) (best_lan ctx false typed).
Proof.
  induction typed as [|[addr ty0] typed IH] using rev_ind; [done|].
  assert (Hlan : ∀ f e, e ∈ lan_candidates ctx f typed → lan_index e < length typed)
    by (intros f e; apply lan_candidate_index).
  unfold plan_slots in *. rewrite indexed_snoc, foldl_app, IH. cbn [foldl plan_step].
  unfold best_wan, best_lan, relay_candidates, wan_candidates, lan_candidates in *.
  rewrite indexed_snoc, !omap_snoc, head_app.
  set (n := length typed) in *. set (ty := for_advertised_address addr ty0).
  destruct (is_dialable addr) eqn:Hd; cbn [negb].
  2: { assert (E1 : relay_candidate ctx (n, (addr, ty0)) = None) by (unfold relay_candidate; cbn; by rewrite Hd).
       assert (E2 : ∀ f, wan_candidate f (n, (addr, ty0)) = None) by (intros; unfold wan_candidate; cbn; by rewrite Hd).
       assert (E3 : ∀ f, lan_candidate ctx f (n, (addr, ty0)) = None).
       { intros. unfold lan_candidate. cbn. rewrite Hd. by destruct (dialable_socket_addr addr). }
       rewrite E1, !E2, !E3. cbn. rewrite !app_nil_r. by destruct (head _). }
  assert (Hsa : ∃ sa, dialable_socket_addr addr = Some sa).
  { unfold is_dialable in Hd. destruct (dialable_socket_addr addr); [eauto|done]. }
  destruct Hsa as [sa Hsa]. rewrite Hsa. set (v4 := ip_is_ipv4 (socket_ip (normalize_socket_addr sa))).
  assert (E1 : relay_candidate ctx (n, (addr, ty0)) =
    if bool_decide (ty = Relay) && negb (address_shares_local_wan ctx addr) then Some (addr, ty) else None).
  { unfold relay_candidate. cbn. by rewrite Hd. }
  assert (E2 : ∀ f, wan_candidate f (n, (addr, ty0)) =
    if negb (bool_decide (ty = Relay)) && negb (bool_decide (ty = Lan)) && eqb v4 f then Some (mk_wan n addr ty) else None).
  { intros f. unfold wan_candidate, family. cbn [fst snd]. rewrite Hd, Hsa. cbn. fold ty v4.
    by rewrite (bool_decide_ext (Some v4 = Some f) (v4 = f)), bool_eqb_decide by naive_solver. }
  assert (E3 : ∀ f, lan_candidate ctx f (n, (addr, ty0)) =
    if bool_decide (ty = Lan) && eqb v4 f
    then Some (mk_lan n (lan_match_score ctx (socket_ip (normalize_socket_addr sa))) addr ty) else None).
  { intros f. unfold lan_candidate, family. cbn [fst snd]. rewrite Hd, Hsa. cbn. fold ty v4.
    by rewrite (bool_decide_ext (Some v4 = Some f) (v4 = f)), bool_eqb_decide by naive_solver. }
  rewrite E1, !E2, !E3.
  destruct (bool_decide_reflect (ty = Relay)) as [Hr|Hr]; cbn [negb andb].
  { rewrite Hr. cbn. rewrite !app_nil_r. destruct (head _) as [r|]; cbn; [done|].
    by destruct (address_shares_local_wan ctx addr). }
  destruct (bool_decide_reflect (ty = Lan)) as [Hl|Hl]; cbn [negb andb]; cbn [option_list]; rewrite !app_nil_r;
    destruct v4; cbn [eqb option_list slot_relay slot_wan_v4 slot_wan_v6 slot_lan_v4 slot_lan_v6]; rewrite ?app_nil_r.
  - rewrite replace_lan_min by (intros e He; by apply (Hlan true)). by destruct (head _).
  - rewrite replace_lan_min by (intros e He; by apply (Hlan false)). by destruct (head _).
  - rewrite replace_wan_min. by destruct (head _).
  - rewrite replace_wan_min. by destruct (head _).
Qed.

(** The chosen addresses of each kind, in no particular order. *)
Definition lan_choices ctx typed : list (MultiAddr * AddressType) :=
  (λ c, (lan_addr c, lan_type c)) <$> omap (λ f, best_lan ctx f typed) [true; false].
Definition wan_choices typed : list (MultiAddr * AddressType) :=
  (λ c, (wan_addr c, wan_type c)) <$> omap (λ f, best_wan f typed) [true; false].

Lemma omap_two {B} (o1 o2 : option B) (g : bool → option B) :
  g true = o1 → g false = o2 → omap id [o1; o2] = omap g [true; false].
Proof. intros <- <-. cbn. by destruct (g true), (g false). Qed.

Lemma plan_unfold ctx typed :
  ∃ lan wan, lan ≡ₚ lan_choices ctx typed ∧ wan ≡ₚ wan_choices typed ∧
    select_dial_candidates_with_context typed ctx =
    if peer_shares_wan ctx typed then lan ++ option_list (head (relay_candidates ctx typed)) ++ wan
    else match option_list (head (relay_candidates ctx typed)) ++ wan with [] => lan | plan => plan end.
Proof.
  unfold select_dial_candidates_with_context. rewrite plan_slots_spec.
  cbn [slot_relay slot_wan_v4 slot_wan_v6 slot_lan_v4 slot_lan_v6].
  rewrite (omap_two _ _ (λ f, best_wan f typed)), (omap_two _ _ (λ f, best_lan ctx f typed)) by done.
  set (lan := _ <$> sort_by_key _ (omap (λ f, best_lan ctx f typed) _)).
  set (wan := _ <$> sort_by_key _ (omap (λ f, best_wan f typed) _)).
  exists lan, wan. split_and!.
  - unfold lan, lan_choices. by rewrite sort_perm.
  - unfold wan, wan_choices. by rewrite sort_perm.
  - destruct (peer_shares_wan ctx typed); destruct lan as [|p lan], (head (relay_candidates ctx typed)), wan;
      cbn; rewrite ?app_nil_r; done.
Qed.

Lemma elem_of_indexed x typed : x ∈ indexed typed → x.2 ∈ typed.
Proof.
  intros [i Hi]%list_elem_of_lookup. unfold indexed in Hi. rewrite list_lookup_imap in Hi.
  destruct (typed !! i) as [q|] eqn:Hq; [|done]. simplify_eq/=. by eapply list_elem_of_lookup_2.
Qed.

Lemma indexed_elem q typed : q ∈ typed → ∃ i, (i, q) ∈ indexed typed.
Proof.
  intros [i Hi]%list_elem_of_lookup. exists i. apply list_elem_of_lookup. exists i.
  unfold indexed. rewrite list_lookup_imap, Hi. done.
Qed.

(** What any address of a plan is. *)
Definition sound_choice ctx typed (p : MultiAddr * AddressType) : Prop :=
  is_dialable p.1 = true ∧
  (∃ ty0, (p.1, ty0) ∈ typed ∧ p.2 = for_advertised_address p.1 ty0) ∧
  (p.2 = Relay → address_shares_local_wan ctx p.1 = false).

Lemma relay_choice_sound ctx typed p : p ∈ relay_candidates ctx typed → sound_choice ctx typed p.
Proof.
  unfold relay_candidates. rewrite list_elem_of_omap. intros ([i [a ty0]] & Hin%elem_of_indexed & Hc).
  unfold relay_candidate in Hc. cbn in Hc. destruct (is_dialable a) eqn:Hd; [|done]. cbn in Hc.
  destruct (bool_decide _); [|done]. destruct (address_shares_local_wan ctx a) eqn:Hs; [done|]. simplify_eq/=.
  split; [done|]. split; [by exists ty0|done].
Qed.

Lemma wan_choice_sound ctx typed f c : c ∈ wan_candidates f typed → sound_choice ctx typed (wan_addr c, wan_type c).
Proof.
  unfold wan_candidates. rewrite list_elem_of_omap. intros ([i [a ty0]] & Hin%elem_of_indexed & Hc).
  unfold wan_candidate in Hc. cbn in Hc. destruct (is_dialable a) eqn:Hd; [|done]. cbn in Hc.
  destruct (bool_decide_reflect (for_advertised_address a ty0 = Relay)); [done|].
  cbn in Hc. case_match; [|done]. simplify_eq/=. split; [done|]. split; [by exists ty0|done].
Qed.

Lemma lan_choice_sound ctx typed f c : c ∈ lan_candidates ctx f typed → sound_choice ctx typed (lan_addr c, lan_type c).
Proof.
  unfold lan_candidates. rewrite list_elem_of_omap. intros ([i [a ty0]] & Hin%elem_of_indexed & Hc).
  unfold lan_candidate in Hc. cbn in Hc. destruct (dialable_socket_addr a); [|done]. cbn in Hc.
  destruct (is_dialable a) eqn:Hd; [|done]. cbn in Hc.
  destruct (bool_decide_reflect (for_advertised_address a ty0 = Lan)) as [Hl|]; [|done].
  destruct (bool_decide _); [|done]. simplify_eq/=. split; [done|]. split; [by exists ty0|]. cbn. congruence.
Qed.

Lemma choices_sound ctx typed p :
  p ∈ lan_choices ctx typed ∨ p ∈ wan_choices typed ∨ head (relay_candidates ctx typed) = Some p →
  sound_choice ctx typed p.
Proof.
  unfold lan_choices, wan_choices. rewrite !list_elem_of_fmap. intros [(c & -> & Hc)|[(c & -> & Hc)|Hr]].
  - apply list_elem_of_omap in Hc as (f & _ & Hc). apply min_by_key_Some in Hc as [Hc _].
    by eapply lan_choice_sound.
  - apply list_elem_of_omap in Hc as (f & _ & Hc). apply min_by_key_Some in Hc as [Hc _].
    by eapply wan_choice_sound.
  - apply relay_choice_sound. by apply head_Some_elem_of.
Qed.

Lemma best_None {A} (key : A → N) (g : bool → list A) (f : bool) {B} (h : A → B) :
  h <$> omap (λ f, min_by_key key (g f)) [true; false] = [] → g f = [].
Proof.
  intros Hn. apply (min_by_key_None key). revert Hn. cbn.
  destruct (min_by_key key (g true)) eqn:H1, (min_by_key key (g false)) eqn:H2; try done. by destruct f.
Qed.

Lemma nothing_chosen ctx typed a ty :
  lan_choices ctx typed = [] → wan_choices typed = [] → head (relay_candidates ctx typed) = None →
  (a, ty) ∈ typed → is_dialable a = true →
  for_advertised_address a ty = Relay ∧ address_shares_local_wan ctx a = true.
Proof.
  intros Hl Hw Hr [i Hin]%indexed_elem Hd.
  assert (Hsa : ∃ sa, dialable_socket_addr a = Some sa).
  { unfold is_dialable in Hd. destruct (dialable_socket_addr a); [eauto|done]. }
  destruct Hsa as [sa Hsa]. set (f := ip_is_ipv4 (socket_ip (normalize_socket_addr sa))).
  assert (Hf : family a = Some f) by (unfold family; by rewrite Hsa).
  apply (best_None _ (λ f, lan_candidates ctx f typed) f) in Hl.
  apply (best_None _ (λ f, wan_candidates f typed) f) in Hw.
  apply head_None in Hr.
  assert (Hno : ∀ B (g : nat * (MultiAddr * AddressType) → option B),
    omap g (indexed typed) = [] → g (i, (a, ty)) = None).
  { intros B g Hg. destruct (g (i, (a, ty))) as [b|] eqn:Hb; [|done]. exfalso.
    apply (not_elem_of_nil b). rewrite <-Hg. apply list_elem_of_omap. eauto. }
  apply Hno in Hl, Hw, Hr. unfold lan_candidate in Hl. unfold wan_candidate in Hw. unfold relay_candidate in Hr.
  cbn [fst snd] in *. rewrite Hsa in Hl. cbn [mbind option_bind] in Hl. rewrite Hd, Hf in *.
  rewrite (bool_decide_eq_true_2 (Some f = Some f)) in * by done. cbn [andb] in *.
  destruct (bool_decide_reflect (for_advertised_address a ty = Lan)); [done|].
  destruct (bool_decide_reflect (for_advertised_address a ty = Relay)); [|done].
  by destruct (address_shares_local_wan ctx a).
Qed.

Lemma choices_length {A B} (g : bool → option A) (h : A → B) : length (h <$> omap g [true; false]) ≤ 2.
Proof. rewrite length_fmap. cbn. destruct (g true), (g false); cbn; lia. Qed.

Lemma plan_length ctx typed : length (select_dial_candidates_with_context typed ctx) ≤ MAX_DIAL_PLAN_SIZE.
Proof.
  destruct (plan_unfold ctx typed) as (lan & wan & Hlan & Hwan & ->). set (relay := option_list _).
  assert (Hrl : length relay ≤ 1) by (unfold relay; destruct (head _); cbn; lia).
  assert (Hll : length lan ≤ 2) by (rewrite Hlan; apply choices_length).
  assert (Hwl : length wan ≤ 2) by (rewrite Hwan; apply choices_length).
  unfold MAX_DIAL_PLAN_SIZE. destruct (peer_shares_wan ctx typed); [rewrite !length_app; lia|].
  destruct (relay ++ wan) as [|q remote] eqn:Hr; [lia|]. rewrite <-Hr, length_app. lia.
Qed.

(** *** The loop and the cache *)

(** A fresh time stamp survives a lookup. *)
Lemma lookup_keeps c peer sa ty now k t :
  entries c !! k = Some t → fresh DIAL_FAILURE_CACHE_TTL now t = true →
  entries (is_failed_for_dial c peer sa ty now).2 !! k = Some t.
Proof.
  intros Hk Hf. unfold is_failed_for_dial, per_addr_failed.
  assert (Hc : ∀ c', entries c' = entries c →
    entries (if negb (bool_decide (ty = Relay)) then (false, c')
     else let '(s, c2) := ip_is_suppressed c' (socket_ip (canon_key sa)) now in
          if negb s then (false, c2)
          else let '(x, c3) := has_fresh_publish_exemption c2 peer (canon_key sa) now in (negb x, c3)).2 = entries c).
  { intros c' <-. destruct (negb (bool_decide (ty = Relay))); [done|].
    unfold ip_is_suppressed, has_fresh_publish_exemption. by repeat case_match; simplify_eq/=. }
  destruct (entries c !! canon_key sa) as [t'|] eqn:Ht'.
  - destruct (fresh DIAL_FAILURE_CACHE_TTL now t') eqn:Hf'; [done|].
    set (c1 := mk_dial_cache _ _ _).
    destruct (decide (canon_key sa = k)) as [<-|Hne]; [congruence|].
    assert (Hd : entries c1 !! k = Some t) by (cbn; by rewrite lookup_delete_ne).
    clearbody c1. unfold ip_is_suppressed, has_fresh_publish_exemption.
    by repeat case_match; simplify_eq/=.
  - by rewrite Hc.
Qed.

Definition clocks_rise : Prop := ∀ i j, i ≤ j → (clock i ≤ clock j)%Z.

Lemma fresh_span now t : (now < t + DIAL_FAILURE_CACHE_TTL)%Z → fresh DIAL_FAILURE_CACHE_TTL now t = true.
Proof. intros. unfold fresh, duration_since. apply Z.ltb_lt. unfold DIAL_FAILURE_CACHE_TTL, seconds in *. lia. Qed.

(** A socket with a fresh failure on record. *)
Definition on_record (c : DialFailureCache) (k : SocketAddr) (now : Z) : Prop :=
  ∃ t, entries c !! k = Some t ∧ fresh DIAL_FAILURE_CACHE_TTL now t = true.

Lemma record_failure_on_record c sa ty t k now :
  (now < t + DIAL_FAILURE_CACHE_TTL)%Z → k = canon_key sa ∨ on_record c k now →
  on_record (record_failure c sa ty t) k now.
Proof.
  intros Hnow Hk. unfold on_record, record_failure. cbn. destruct (decide (canon_key sa = k)) as [<-|Hne].
  - exists t. rewrite lookup_insert_eq. split; [done|by apply fresh_span].
  - destruct Hk as [->|(t' & Ht' & Hf)]; [done|]. exists t'. by rewrite lookup_insert_ne.
Qed.

(** When no dial succeeds, what was on record stays there, and every dialled
    socket is added. *)
Lemma dial_loop_on_record peer plan : ∀ i c now,
  clocks_rise → (clock (2 * (i + length plan)) ≤ now < clock 0 + DIAL_FAILURE_CACHE_TTL)%Z →
  (dial_loop peer i plan c).1.1 = None →
  ∀ k, on_record c k now ∨ (∃ p sa, p ∈ (dial_loop peer i plan c).2 ∧ dialable_socket_addr p.1 = Some sa ∧ k = canon_key sa) →
  on_record (dial_loop peer i plan c).1.2 k now.
Proof.
  induction plan as [|[addr ty] rest IH]; intros i c now Hrise Hnow Hnone k Hk.
  { destruct Hk as [?|(p & sa & Hp & _)]; [done|by apply elem_of_nil in Hp]. }
  cbn [dial_loop length] in *. replace (i + S (length rest)) with (S i + length rest) in Hnow by lia.
  destruct (dialable_socket_addr addr) as [sa|] eqn:Hsa; [|by apply IH].
  assert (Hkeep : ∀ k, on_record c k now → on_record (is_failed_for_dial c peer sa ty (clock (2 * i))).2 k now).
  { intros k' (t & Ht & Hf). exists t. split; [|done]. apply lookup_keeps; [done|].
    eapply fresh_earlier; [|exact Hf]. etrans; [|apply Hnow]. apply Hrise. lia. }
  destruct (is_failed_for_dial c peer sa ty (clock (2 * i))) as [failed c1]. cbn [snd] in Hkeep.
  destruct failed; [apply IH; [done..|]; naive_solver|]. destruct (dial_candidate i addr ty); [done|].
  specialize (IH (S i) (record_failure c1 sa ty (clock (2 * i + 1))) now Hrise Hnow).
  destruct (dial_loop peer (S i) rest _) as [[r c'] dialled]. cbn [fst snd] in *. apply (IH Hnone).
  assert (Hadd : ∀ k, k = canon_key sa ∨ on_record c1 k now →
    on_record (record_failure c1 sa ty (clock (2 * i + 1))) k now).
  { intros k'. apply record_failure_on_record. assert (clock 0 ≤ clock (2 * i + 1))%Z by (apply Hrise; lia). lia. }
  destruct Hk as [Hk|(p & sa' & [->|Hp]%elem_of_cons & Hsa' & ->)]; [left; auto| |right; eauto].
  cbn in Hsa'. simplify_eq. left. auto.
Qed.

Lemma on_record_failed c sa peer ty now : on_record c (canon_key sa) now → (is_failed_for_dial c peer sa ty now).1 = true.
Proof. intros (t & Ht & Hf). unfold is_failed_for_dial, per_addr_failed. by rewrite Ht, Hf. Qed.

Lemma dial_loop_dialled peer plan : ∀ i c, (dial_loop peer i plan c).2 `sublist_of` plan.
Proof.
  induction plan as [|[addr ty] rest IH]; intros i c; [done|]. cbn [dial_loop].
  destruct (dialable_socket_addr addr); [|by apply sublist_cons].
  destruct (is_failed_for_dial _ _ _ _ _) as [[] c1]; [by apply sublist_cons|].
  destruct (dial_candidate i addr ty).
  - apply sublist_skip, sublist_nil_l.
  - specialize (IH (S i) (record_failure c1 s ty (clock (2 * i + 1)))).
    destruct (dial_loop _ _ _ _) as [[r c'] dialled]. by apply sublist_skip.
Qed.

(** After a success nothing at that socket is suppressed. *)
Lemma clear_not_failed c sa peer ty now : (is_failed_for_dial (clear c sa) peer sa ty now).1 = false.
Proof.
  unfold is_failed_for_dial, per_addr_failed, clear. cbn. rewrite lookup_delete_eq.
  destruct (bool_decide (ty = Relay)); cbn; [|done]. unfold ip_is_suppressed. cbn. by rewrite lookup_delete_eq.
Qed.

Lemma dial_loop_success peer plan : ∀ i c ch,
  (dial_loop peer i plan c).1.1 = Some ch →
  ∃ p sa, p ∈ plan ∧ dialable_socket_addr p.1 = Some sa ∧ ∃ j, dial_candidate j p.1 p.2 = Some ch ∧
    ∀ peer' ty now, (is_failed_for_dial (dial_loop peer i plan c).1.2 peer' sa ty now).1 = false.
Proof.
  induction plan as [|[addr ty] rest IH]; intros i c ch Hch; [done|]. cbn [dial_loop] in *.
  assert (Hrest : ∀ i c, (dial_loop peer i rest c).1.1 = Some ch →
    ∃ p sa, p ∈ (addr, ty) :: rest ∧ dialable_socket_addr p.1 = Some sa ∧ ∃ j, dial_candidate j p.1 p.2 = Some ch ∧
      ∀ peer' ty now, (is_failed_for_dial (dial_loop peer i rest c).1.2 peer' sa ty now).1 = false).
  { intros i' c' H'. destruct (IH i' c' ch H') as (p & sa & Hp & Hrest). exists p, sa. split; [by right|done]. }
  destruct (dialable_socket_addr addr) as [sa|] eqn:Hsa; [|by apply Hrest].
  destruct (is_failed_for_dial c peer sa ty (clock (2 * i))) as [[] c1]; [by apply Hrest|].
  destruct (dial_candidate i addr ty) as [ch'|] eqn:Hd.
  - cbn in Hch. simplify_eq. exists (addr, ty), sa. split; [by left|]. split; [done|]. exists i. split; [done|].
    intros. apply clear_not_failed.
  - specialize (Hrest (S i) (record_failure c1 sa ty (clock (2 * i + 1)))).
    destruct (dial_loop peer (S i) rest _) as [[r c'] dialled]. by apply Hrest.
Qed.

(** dialling a peer.  At most five addresses of the plan are dialled.  When
    none answers, none of the dialled sockets is dialled again (for any peer
    and as any address type) within 30 minutes of the start of the loop,
    unless it is cleared in between; when one does, the channel is that
    dial's, and the socket and its host are no longer suppressed. *)
Theorem dial_addresses_spec peer ctx typed c :
  clocks_rise →
  let out := dial_addresses peer false ctx typed c in
  let plan := select_dial_candidates_with_context typed ctx in
  out.2 `sublist_of` plan ∧ length out.2 ≤ MAX_DIAL_PLAN_SIZE ∧
  match out.1.1 with
  | None => ∀ p sa now, p ∈ out.2 → dialable_socket_addr p.1 = Some sa →
      (clock (2 * length plan) ≤ now < clock 0 + DIAL_FAILURE_CACHE_TTL)%Z →
      ∀ peer' ty, (is_failed_for_dial out.1.2 peer' sa ty now).1 = true
  | Some ch => ∃ p sa i, p ∈ plan ∧ dialable_socket_addr p.1 = Some sa ∧ dial_candidate i p.1 p.2 = Some ch ∧
      ∀ peer' ty now, (is_failed_for_dial out.1.2 peer' sa ty now).1 = false
  end.
Proof.
  intros Hrise. cbv zeta. unfold dial_addresses. set (plan := select_dial_candidates_with_context typed ctx).
  pose proof (dial_loop_dialled peer plan 0 c) as Hsub. split; [done|]. split.
  { etrans; [by apply sublist_length|apply plan_length]. }
  destruct (dial_loop peer 0 plan c).1.1 as [ch|] eqn:Hout.
  - destruct (dial_loop_success peer plan 0 c ch Hout) as (p & sa & Hp & Hsa & i & Hd & Hf). by exists p, sa, i.
  - intros p sa now Hp Hsa Hnow peer' ty. apply on_record_failed.
    apply (dial_loop_on_record peer plan 0 c now Hrise Hnow Hout). right. by exists p, sa.
Qed.

End context.
