(* ===== verification/Trust.v ===== *)
(** * Trust scores

    [src/adaptive/trust.rs] and the trust boundary of [src/adaptive/dht.rs]:
    an exponential moving average of successes and failures per peer that
    decays towards neutral when idle, its snapshots, and the events a consumer
    may report.  Scores are doubles computed exactly as the code computes
    them; [exp] and [powf], whose precision the platform chooses, are
    parameters of which only the range is assumed. *)

From Stdlib Require Import SpecFloat.
From stdpp Require Import prelude gmap.
From S2P Require Import Prelude Float Keys RateLimit.

Class FloatMath := {
  f64_exp : spec_float → spec_float;
  f64_powf : spec_float → spec_float → spec_float;
  f64_exp_range x : SFleb x f64_zero = true → unit_score (f64_exp x);
  f64_powf_range b w : unit_score b → f64_is_finite w = true → SFltb f64_zero w = true →
    unit_score (f64_powf b w);
}.

(** ** Constants *)

Definition DEFAULT_NEUTRAL_TRUST : spec_float := f64_lit 1 2.
Definition MIN_TRUST_SCORE : spec_float := f64_zero.
Definition MAX_TRUST_SCORE : spec_float := f64_one.
Definition EMA_WEIGHT : spec_float := f64_lit 124 1000.
Definition DECAY_LAMBDA : spec_float := f64_lit 1394 100000000.
Definition SUCCESS_OBSERVATION : spec_float := f64_one.
Definition FAILURE_OBSERVATION : spec_float := f64_zero.
(** [f64::EPSILON], 2^-52. *)
Definition F64_EPSILON : spec_float := S754_finite false (2 ^ 52) (-104).
Definition DEFAULT_SWAP_THRESHOLD : spec_float := f64_lit 35 100.
Definition MAX_CONSUMER_WEIGHT : spec_float := f64_of_Z 5.

(** ** One peer *)

Record PeerTrust := mk_trust {
  trust_value : spec_float;
  last_updated : Z;
}.

Definition peer_trust_new (now : Z) : PeerTrust := mk_trust DEFAULT_NEUTRAL_TRUST now.

Inductive NodeStatisticsUpdate := CorrectResponse | FailedResponse.

Definition observation (u : NodeStatisticsUpdate) : spec_float :=
  match u with CorrectResponse => SUCCESS_OBSERVATION | FailedResponse => FAILURE_OBSERVATION end.

(** The engine's map of peers, and the persisted form of it. *)
Abbreviation TrustEngine := (gmap PeerId PeerTrust).

Record TrustRecord := mk_trust_record {
  record_score : spec_float;
  last_updated_epoch_secs : N;
}.
Abbreviation TrustSnapshot := (gmap PeerId TrustRecord).

Section trust.
Context `{FM : FloatMath}.
Implicit Types (p : PeerTrust) (now : Z).

Definition decay_score (score elapsed_secs : spec_float) : spec_float :=
  if SFltb f64_zero elapsed_secs then
    let decay_factor := f64_exp (f64_mul (SFopp DECAY_LAMBDA) elapsed_secs) in
    let decayed := f64_add DEFAULT_NEUTRAL_TRUST (f64_mul (f64_sub score DEFAULT_NEUTRAL_TRUST) decay_factor) in
    f64_clamp decayed MIN_TRUST_SCORE MAX_TRUST_SCORE
  else score.

Definition apply_decay_secs p (elapsed_secs : spec_float) now : PeerTrust :=
  if SFltb f64_zero elapsed_secs then
    let decay_factor := f64_exp (f64_mul (SFopp DECAY_LAMBDA) elapsed_secs) in
    let score := f64_add DEFAULT_NEUTRAL_TRUST
                   (f64_mul (f64_sub (trust_value p) DEFAULT_NEUTRAL_TRUST) decay_factor) in
    mk_trust (f64_clamp score MIN_TRUST_SCORE MAX_TRUST_SCORE) now
  else p.

Definition elapsed_secs p now : spec_float := as_secs_f64 (duration_since now (last_updated p)).

Definition apply_decay p now : PeerTrust := apply_decay_secs p (elapsed_secs p now) now.

Definition decayed_score p now : spec_float := decay_score (trust_value p) (elapsed_secs p now).

Definition record_weighted p (obs weight : spec_float) now : option (spec_float * spec_float) * PeerTrust :=
  if negb (f64_is_finite weight) || SFleb weight f64_zero then (None, p)
  else
    let p := apply_decay p now in
    let previous_score := trust_value p in
    let alpha_w := f64_sub f64_one (f64_powf (f64_sub f64_one EMA_WEIGHT) weight) in
    let blended := f64_add (f64_mul (f64_sub f64_one alpha_w) (trust_value p)) (f64_mul alpha_w obs) in
    let score := f64_clamp blended MIN_TRUST_SCORE MAX_TRUST_SCORE in
    (if SFltb F64_EPSILON (SFabs (f64_sub score previous_score)) then Some (previous_score, score) else None,
     mk_trust score now).

(** ** The engine *)

Implicit Types e : TrustEngine.

Definition trust_engine_new : TrustEngine := ∅.

Definition update_node_stats_weighted e (node_id : PeerId) (u : NodeStatisticsUpdate) (weight : spec_float) now
    : TrustEngine :=
  let entry := default (peer_trust_new now) (e !! node_id) in
  <[node_id := (record_weighted entry (observation u) weight now).2]> e.

Definition update_node_stats e (node_id : PeerId) (u : NodeStatisticsUpdate) now : TrustEngine :=
  update_node_stats_weighted e node_id u f64_one now.

Definition score e (node_id : PeerId) now : spec_float :=
  from_option (λ p, decayed_score p now) DEFAULT_NEUTRAL_TRUST (e !! node_id).

Definition remove_node e (node_id : PeerId) : TrustEngine := delete node_id e.

(** The wall clock in seconds, 0 before the Unix epoch. *)
Definition export_snapshot e now (wall : Z) : TrustSnapshot :=
  let now_epoch := if (wall <? 0)%Z then 0%N else Z.to_N (wall / 10 ^ 9) in
  (λ p, mk_trust_record (decayed_score p now) now_epoch) <$> e.

Definition imported (r : TrustRecord) now : PeerTrust :=
  mk_trust (if f64_is_finite (record_score r)
            then f64_clamp (record_score r) MIN_TRUST_SCORE MAX_TRUST_SCORE
            else DEFAULT_NEUTRAL_TRUST) now.

(** Every record of the snapshot is inserted over what the engine holds. *)
Definition import_snapshot e (snapshot : TrustSnapshot) now : TrustEngine :=
  ((λ r, imported r now) <$> snapshot) ∪ e.

(** ** The trust boundary ([src/adaptive/dht.rs]) *)

Inductive TrustEvent :=
  | ConnectionFailed
  | ConnectionTimeout
  | ApplicationSuccess (weight : spec_float)
  | ApplicationFailure (weight : spec_float).

Definition to_stats_update (ev : TrustEvent) : NodeStatisticsUpdate :=
  match ev with
  | ApplicationSuccess _ => CorrectResponse
  | ConnectionFailed | ConnectionTimeout | ApplicationFailure _ => FailedResponse
  end.

Definition report_trust_event e (peer_id : PeerId) (ev : TrustEvent) now : TrustEngine :=
  match ev with
  | ApplicationSuccess weight | ApplicationFailure weight =>
      if SFltb f64_zero weight then
        update_node_stats_weighted e peer_id (to_stats_update ev) (f64_min weight MAX_CONSUMER_WEIGHT) now
      else e
  | _ => update_node_stats e peer_id (to_stats_update ev) now
  end.

(** [AdaptiveDhtConfig::validate] of the swap threshold. *)
Definition validate_swap_threshold (swap_threshold : spec_float) : bool :=
  negb (negb (SFleb f64_zero swap_threshold && SFltb swap_threshold (f64_lit 1 2)) || f64_is_nan swap_threshold).

(** ** Scores stay in the unit interval *)

Lemma neutral_unit : unit_score DEFAULT_NEUTRAL_TRUST.
Proof. split; [split; vm_compute; congruence|by vm_compute]. Qed.

Lemma ema_base_unit : unit_score (f64_sub f64_one EMA_WEIGHT).
Proof. split; [split; vm_compute; congruence|by vm_compute]. Qed.

Lemma decay_factor_unit el :
  SFltb f64_zero el = true → unit_score (f64_exp (f64_mul (SFopp DECAY_LAMBDA) el)).
Proof.
  intros Hel. apply f64_exp_range.
  assert (Hl : ∃ m ex, SFopp DECAY_LAMBDA = S754_finite true m ex) by (vm_compute; eauto).
  destruct Hl as (m & ex & ->). by apply mul_neg_pos.
Qed.

Lemma decay_score_unit s el : unit_score s → unit_score (decay_score s el).
Proof.
  intros [Hs Hr]. unfold decay_score. destruct (SFltb f64_zero el) eqn:Hel; [|done].
  destruct (decay_factor_unit el Hel) as [Hd _]. destruct neutral_unit as [Hn _].
  apply (clamp_unit 7). change 7%Z with (5 + 2)%Z. apply add_below; [lia|by eapply below_weaken; [|exact Hn]|].
  change 5%Z with (3 + 1 + 1)%Z. apply mul_below; [lia| |done].
  change 3%Z with (1 + 2)%Z. by apply sub_below; [lia|..].
Qed.

(** Mutating the score and reading it decayed compute the same double. *)
Lemma apply_decay_value p now : trust_value (apply_decay p now) = decayed_score p now.
Proof. unfold apply_decay, apply_decay_secs, decayed_score, decay_score. by case_match. Qed.

Lemma observation_unit u : unit_score (observation u).
Proof. destruct u; [apply unit_one|apply unit_zero]. Qed.

Lemma record_weighted_unit p u w now :
  unit_score (trust_value p) → unit_score (trust_value (record_weighted p (observation u) w now).2).
Proof.
  intros Hp. unfold record_weighted. destruct (negb (f64_is_finite w) || SFleb w f64_zero) eqn:Hw; [done|].
  apply orb_false_iff in Hw as [Hfin Hpos]. apply negb_false_iff in Hfin. cbn [snd trust_value].
  rewrite apply_decay_value. destruct (decay_score_unit (trust_value p) (elapsed_secs p now) Hp) as [Hs _].
  fold (decayed_score p now) in Hs. destruct (observation_unit u) as [Ho _]. destruct unit_one as [H1 _].
  assert (Hw' : SFltb f64_zero w = true).
  { apply SFltb_rank. destruct (decide (w = S754_nan)) as [->|Hn]; [done|]. split_and!; [done..|].
    apply tlt_not_tle. intros Hle. apply not_true_iff_false in Hpos. by apply Hpos, SFleb_rank. }
  destruct (f64_powf_range _ w ema_base_unit Hfin Hw') as [Hpw _].
  assert (Ha : below 3 (f64_sub f64_one (f64_powf (f64_sub f64_one EMA_WEIGHT) w))).
  { change 3%Z with (1 + 2)%Z. by apply sub_below; [lia|..]. }
  apply (clamp_unit 9). change 9%Z with (7 + 2)%Z. apply add_below; [lia|..].
  - change 7%Z with (5 + 1 + 1)%Z. apply mul_below; [lia| |done].
    change 5%Z with (3 + 2)%Z. apply sub_below; [lia| |done]. by eapply below_weaken; [|exact H1].
  - apply (below_weaken (3 + 1 + 1)); [lia|]. apply mul_below; [lia|done|done].
Qed.

(** ** The engine's invariant *)

Definition trust_wf e : Prop := map_Forall (λ _ p, unit_score (trust_value p)) e.

Lemma trust_update_wf e peer u w now : trust_wf e → trust_wf (update_node_stats_weighted e peer u w now).
Proof.
  intros He. apply map_Forall_insert_2; [|done]. apply record_weighted_unit.
  destruct (e !! peer) as [p|] eqn:Hp; [by apply (He peer)|apply neutral_unit].
Qed.

Lemma imported_unit r now : (∀ s m ex, record_score r = S754_finite s m ex → Z.log2 (Z.pos m) < 53)%Z →
  unit_score (trust_value (imported r now)).
Proof.
  intros Hr. unfold imported. cbn [trust_value].
  destruct (record_score r) as [s| | |s m ex]; cbn [f64_is_finite]; [|apply neutral_unit..|].
  - by apply (clamp_unit 1).
  - apply (clamp_unit (Z.log2 (Z.pos m) + 1 + ex)). split; [by eapply Hr|lia].
Qed.

(** A double has 53 significant bits; nothing else is asked of a snapshot. *)
Definition snapshot_of_doubles (snap : TrustSnapshot) : Prop :=
  map_Forall (λ _ r, ∀ s m ex, record_score r = S754_finite s m ex → (Z.log2 (Z.pos m) < 53)%Z) snap.

Inductive trust_step e : TrustEngine → Prop :=
  | step_report peer ev now : trust_step e (report_trust_event e peer ev now)
  | step_update peer u w now : trust_step e (update_node_stats_weighted e peer u w now)
  | step_remove peer : trust_step e (remove_node e peer)
  | step_import snap now : snapshot_of_doubles snap → trust_step e (import_snapshot e snap now).

Lemma trust_step_wf e e' : trust_wf e → trust_step e e' → trust_wf e'.
Proof.
  intros He [peer ev now|peer u w now|peer|snap now Hs].
  - unfold report_trust_event, update_node_stats. destruct ev; try case_match; by try apply trust_update_wf.
  - by apply trust_update_wf.
  - by apply map_Forall_delete.
  - intros peer p. unfold import_snapshot. rewrite lookup_union_Some_raw, lookup_fmap_Some.
    intros [(r & <- & Hr)|[_ Hp]]; [by apply imported_unit, (Hs peer)|by apply (He peer)].
Qed.

(** C37: trust scores are sane.  Whatever is reported (any weight, infinite or
    NaN included), removed or imported from a snapshot, and however long
    peers stay idle, every score the engine returns is a double between 0 and
    1, never NaN. *)
Theorem trust_invariant e :
  rtc trust_step trust_engine_new e →
  trust_wf e ∧
  ∀ peer now, score e peer now ≠ S754_nan ∧
    SFleb f64_zero (score e peer now) = true ∧ SFleb (score e peer now) f64_one = true.
Proof.
  intros Hrun. assert (Hwf : trust_wf e).
  { assert (H0 : trust_wf trust_engine_new) by apply map_Forall_empty. revert H0.
    induction Hrun as [|e1 e2 e3 Hs _ IH]; [done|]. intros H1. by apply IH, (trust_step_wf e1). }
  split; [done|]. intros peer now.
  assert (Hu : unit_score (score e peer now)).
  { unfold score. destruct (e !! peer) as [p|] eqn:Hp; cbn [from_option]; [|apply neutral_unit].
    apply decay_score_unit. by apply (Hwf peer). }
  destruct Hu as [Hb Hr]. split; [by eapply below_not_nan|done].
Qed.

(** persistence.  A snapshot exported at some instant and imported into a
    fresh engine at any later instant restores, for every peer, the score the
    peer had when it was exported: downtime does not decay it. *)
Theorem trust_snapshot_roundtrip e peer now wall now' :
  trust_wf e →
  score (import_snapshot trust_engine_new (export_snapshot e now wall) now') peer now' = score e peer now.
Proof.
  intros He. unfold score, import_snapshot, export_snapshot, trust_engine_new. rewrite map_union_empty, !lookup_fmap.
  destruct (e !! peer) as [p|] eqn:Hp; [|done]. cbn [fmap option_fmap option_map from_option].
  assert (Hu : unit_score (decayed_score p now)) by (apply decay_score_unit; by apply (He peer)).
  unfold decayed_score at 1. assert (Hel : elapsed_secs (imported (mk_trust_record (decayed_score p now)
    (if (wall <? 0)%Z then 0%N else Z.to_N (wall / 10 ^ 9))) now') now' = f64_zero).
  { unfold elapsed_secs, imported, duration_since. cbn [last_updated]. rewrite Z.sub_diag. by vm_compute. }
  rewrite Hel. unfold decay_score at 1. cbn [SFltb SFcompare f64_zero]. unfold imported. cbn [trust_value record_score].
  rewrite (below_finite 1) by apply Hu. by apply clamp_id.
Qed.

(** A consumer's event counts at most as much as one of weight 5, and an
    event without a positive weight counts nothing. *)
Lemma consumer_weight_capped e peer w now :
  (SFltb f64_zero w = false → report_trust_event e peer (ApplicationFailure w) now = e) ∧
  (SFleb MAX_CONSUMER_WEIGHT w = true → w ≠ MAX_CONSUMER_WEIGHT →
   report_trust_event e peer (ApplicationFailure w) now =
   report_trust_event e peer (ApplicationFailure MAX_CONSUMER_WEIGHT) now).
Proof.
  split; [intros Hw; cbn [report_trust_event]; by rewrite Hw|]. intros Hw Hne.
  assert (Hmin : f64_min w MAX_CONSUMER_WEIGHT = MAX_CONSUMER_WEIGHT).
  { apply SFleb_rank in Hw as (_ & Hn & Hle). unfold f64_min. replace (f64_is_nan w) with false by by destruct w.
    destruct (SFltb MAX_CONSUMER_WEIGHT w) eqn:Hlt; [done|]. exfalso. apply Hne.
    destruct (tle_cases (sf_rank MAX_CONSUMER_WEIGHT) (sf_rank w)) as [H _].
    destruct (H Hle) as [Hc|Hc]; [by rewrite (proj2 (SFltb_rank _ _)) in Hlt by (split_and!; done)|].
    revert Hc. destruct w as [[]|[]| |[] m ex]; try by vm_compute. cbn. by intros [= <- <-]. }
  cbn [report_trust_event to_stats_update]. rewrite Hmin.
  assert (Hpos : SFltb f64_zero w = true).
  { apply SFltb_rank. apply SFleb_rank in Hw as (_ & Hn & Hle). split_and!; [done..|].
    eapply tlt_le_trans; [|exact Hle]. by vm_compute. }
  by rewrite Hpos.
Qed.

(** A validated threshold never makes an unknown peer swap-eligible. *)
Lemma unknown_peer_not_swappable t :
  validate_swap_threshold t = true → SFltb DEFAULT_NEUTRAL_TRUST t = false.
Proof.
  unfold validate_swap_threshold. rewrite negb_true_iff, orb_false_iff, negb_false_iff, andb_true_iff.
  intros [[_ Hlt] _]. destruct (SFltb DEFAULT_NEUTRAL_TRUST t) eqn:Hc; [|done].
  apply SFltb_rank in Hlt as (_ & _ & Hlt), Hc as (_ & _ & Hc).
  exfalso. by apply (tlt_irrefl (sf_rank t)), (tlt_trans _ (sf_rank (f64_lit 1 2))).
Qed.
End trust.
