(* ===== verification/Snapshots.v ===== *)
(** * What a node keeps across restarts

    The close-group cache of [src/bootstrap/cache.rs], the routing snapshot of
    [src/bootstrap/routing_snapshot.rs], and the code of [src/network.rs] that
    loads them, turns the snapshot into dial candidates and saves both.  The
    JSON library is an interface on the texts of the identities and addresses;
    the texts of errors are left out.  Wall-clock times are seconds since the
    epoch, as the code reads them. *)

From Stdlib Require Import SpecFloat.
From stdpp Require Import prelude gmap strings.
From S2P Require Import Prelude Tasks Float Keys Ip Address Models PeerRecord Trust.

Definition MAX_FUTURE_TIMESTAMP_SKEW : N := 5 * 60.
Definition SCHEMA_VERSION : N := 1.
Definition MAX_AGE : N := 7 * 24 * 60 * 60.
Definition MAX_SNAPSHOT_BYTES : N := 512 * 1024.
Definition MAX_SNAPSHOT_PEERS : nat := 1024.
Definition MAX_ADDRESSES_PER_PEER : nat := 8.
Definition SNAPSHOT_FLOOR_ENFORCED_FOR : N := 60 * 60.
Definition SNAPSHOT_FLOOR_UNRESOLVED : N := 2 ^ 64 - 1.
Definition MAX_SNAPSHOT_ADDRESSES_DIALLED : nat := 2.

Inductive NodeMode := Node | Client.
#[export] Instance NodeMode_eq_dec : EqDecision NodeMode.
Proof. solve_decision. Defined.

(** ** Documents

    What [serde] hands to the JSON library: identities as hex text, addresses
    as their display form. *)

Record SnapshotDoc := mk_snapshot_doc {
  doc_version : N;
  doc_owner : string;
  doc_saved_at : N;
  doc_peers : list (string * list string);
}.
Record CacheDoc := mk_cache_doc {
  doc_cached : list (string * list string * TrustRecord);
  doc_cache_saved_at : N;
}.
Definition finite_doc (d : CacheDoc) : bool := forallb (λ x, f64_is_finite (record_score x.2)) (doc_cached d).

(** [serde_json].  A non-finite number is written as [null], which does not
    parse as a number. *)
Class JsonLib := {
  snapshot_to_json : SnapshotDoc → string;
  snapshot_from_json : string → option SnapshotDoc;
  cache_to_json : CacheDoc → string;
  cache_from_json : string → option CacheDoc;
  snapshot_json_roundtrip d : snapshot_from_json (snapshot_to_json d) = Some d;
  cache_json_roundtrip d : finite_doc d = true → cache_from_json (cache_to_json d) = Some d;
}.

(** What is found at a path.  The length and the contents of a regular file
    are read separately. *)
Inductive DiskFile :=
  | Missing
  | OpenFails
  | NotRegular
  | Regular (len : N) (contents : string).

Definition regular (contents : string) : DiskFile := Regular (N.of_nat (String.length contents)) contents.

(** Where a save stops. *)
Inductive SaveFault := CreateDirFails | TempFileFails | WriteFails | PersistFails.

Section snapshots.
Context `{TL : TransportLib} `{HL : HexLib} `{JL : JsonLib}.

(** ** The close-group cache *)

Record CachedCloseGroupPeer := mk_cached {
  cached_peer_id : PeerId;
  cached_addresses : list MultiAddr;
  cached_trust : TrustRecord;
}.
Record CloseGroupCache := mk_cache {
  cache_peers : list CachedCloseGroupPeer;
  cache_saved_at : N;
}.

(** [u64] subtraction saturates, as that of [N]. *)
Definition cache_is_stale (c : CloseGroupCache) (now : N) (max_age : option N) : bool :=
  if (MAX_FUTURE_TIMESTAMP_SKEW <? cache_saved_at c - now)%N then true
  else from_option (λ max_age, max_age <? now - cache_saved_at c)%N false max_age.

Definition address_texts (l : list MultiAddr) : list string := to_string <$> l.
Definition parse_addresses (l : list string) : option (list MultiAddr) :=
  mapM (λ t, match from_str t with Ok a => Some a | Err _ => None end) l.
Definition parse_peer (t : string) : option PeerId := match from_hex t with Ok p => Some p | Err _ => None end.

Definition cache_doc (c : CloseGroupCache) : CacheDoc :=
  {| doc_cached := (λ p, (to_hex (cached_peer_id p), address_texts (cached_addresses p), cached_trust p)) <$> cache_peers c;
     doc_cache_saved_at := cache_saved_at c |}.
Definition cached_of_doc (x : string * list string * TrustRecord) : option CachedCloseGroupPeer :=
  p ← parse_peer x.1.1; l ← parse_addresses x.1.2; Some (mk_cached p l x.2).
Definition cache_of_doc (d : CacheDoc) : option CloseGroupCache :=
  l ← mapM cached_of_doc (doc_cached d); Some (mk_cache l (doc_cache_saved_at d)).

(** [CloseGroupCache::save_to_dir]: the file is replaced by a rename, or
    stays as it was. *)
Definition cache_save (c : CloseGroupCache) (fault : option SaveFault) (f : DiskFile) : result unit SaveFault * DiskFile :=
  match fault with
  | Some e => (Err e, f)
  | None => (Ok (), regular (cache_to_json (cache_doc c)))
  end.

(** [CloseGroupCache::load_from_dir]; [read_to_string] fails on whatever is
    not a readable file. *)
Definition cache_load (f : DiskFile) : result (option CloseGroupCache) unit :=
  match f with
  | Missing => Ok None
  | OpenFails | NotRegular => Err ()
  | Regular _ contents =>
      match d ← cache_from_json contents; cache_of_doc d with
      | Some c => Ok (Some c)
      | None => Err ()
      end
  end.

(** [P2PNode::start]: the cache and the trust engine it leaves. *)
Definition load_cache (dir : bool) (max_age : option N) (f : DiskFile) (now_epoch : N) (trust : TrustEngine) (now : Z)
    : option CloseGroupCache * TrustEngine :=
  if negb dir then (None, trust)
  else
    match cache_load f with
    | Ok (Some c) =>
        if cache_is_stale c now_epoch max_age then (None, trust)
        else
          let peers := List.filter (λ p, f64_is_finite (record_score (cached_trust p))) (cache_peers c) in
          let snapshot := foldl (λ m p, <[cached_peer_id p := cached_trust p]> m) ∅ peers in
          (Some (mk_cache peers (cache_saved_at c)), import_snapshot trust snapshot now)
    | Ok None | Err _ => (None, trust)
    end.

(** [save_close_group_cache_snapshot]: [close_group] is what
    [find_closest_nodes_local] answers, [score] the trust engine. *)
Definition close_group_cache (close_group : list DHTNode) (score : PeerId → spec_float) (now_epoch : N) : CloseGroupCache :=
  mk_cache
    (omap (λ n,
       let s := score (node_peer_id n) in
       if negb (f64_is_finite s) then None
       else Some (mk_cached (node_peer_id n) (addresses n) (mk_trust_record s now_epoch))) close_group)
    now_epoch.

(** ** The routing snapshot *)

Record SnapshotPeer := mk_snapshot_peer { snap_peer_id : PeerId; snap_addresses : list MultiAddr }.
Inductive SnapshotRejection :=
  | UnknownSchemaVersion (found expected : N)
  | ForeignOwner
  | Stale
  | Unreadable.
Record RoutingSnapshot := mk_snapshot {
  schema_version : N;
  snap_owner : PeerId;
  saved_at_epoch_secs : N;
  snap_peers : list SnapshotPeer;
}.

Definition cap_peers (l : list SnapshotPeer) : list SnapshotPeer :=
  (λ p, mk_snapshot_peer (snap_peer_id p) (take MAX_ADDRESSES_PER_PEER (snap_addresses p))) <$> take MAX_SNAPSHOT_PEERS l.

Definition snapshot_new (owner : PeerId) (saved_at : N) (peers : list SnapshotPeer) : RoutingSnapshot :=
  mk_snapshot SCHEMA_VERSION owner saved_at (cap_peers peers).

Definition snapshot_is_stale (s : RoutingSnapshot) (now : N) : bool :=
  if (MAX_FUTURE_TIMESTAMP_SKEW <? saved_at_epoch_secs s - now)%N then true
  else (MAX_AGE <? now - saved_at_epoch_secs s)%N.

Definition peers_for (s : RoutingSnapshot) (expected_owner : PeerId) (now : N) : result (list SnapshotPeer) SnapshotRejection :=
  if negb (schema_version s =? SCHEMA_VERSION)%N then Err (UnknownSchemaVersion (schema_version s) SCHEMA_VERSION)
  else if negb (bool_decide (snap_owner s = expected_owner)) then Err ForeignOwner
  else if snapshot_is_stale s now then Err Stale
  else Ok (snap_peers s).

Definition snapshot_doc (s : RoutingSnapshot) : SnapshotDoc :=
  {| doc_version := schema_version s; doc_owner := to_hex (snap_owner s); doc_saved_at := saved_at_epoch_secs s;
     doc_peers := (λ p, (to_hex (snap_peer_id p), address_texts (snap_addresses p))) <$> snap_peers s |}.
Definition snapshot_of_doc (d : SnapshotDoc) : option RoutingSnapshot :=
  o ← parse_peer (doc_owner d);
  l ← mapM (λ x : string * list string, p ← parse_peer x.1; a ← parse_addresses x.2; Some (mk_snapshot_peer p a)) (doc_peers d);
  Some (mk_snapshot (doc_version d) o (doc_saved_at d) l).

Definition snapshot_json (s : RoutingSnapshot) : string := snapshot_to_json (snapshot_doc s).

(** [RoutingSnapshot::save_to_dir]. *)
Definition snapshot_save (s : RoutingSnapshot) (fault : option SaveFault) (f : DiskFile) : result unit SaveFault * DiskFile :=
  match fault with
  | Some e => (Err e, f)
  | None => (Ok (), regular (snapshot_json s))
  end.

(** [RoutingSnapshot::load_from_dir], with [open_snapshot_file]. *)
Definition snapshot_load (f : DiskFile) : result (option RoutingSnapshot) SnapshotRejection :=
  match f with
  | Missing => Ok None
  | OpenFails | NotRegular => Err Unreadable
  | Regular len contents =>
      if (MAX_SNAPSHOT_BYTES <? len)%N then Err Unreadable
      else
        let bytes := str_take (N.to_nat (MAX_SNAPSHOT_BYTES + 1)) contents in
        if (MAX_SNAPSHOT_BYTES <? N.of_nat (String.length bytes))%N then Err Unreadable
        else match d ← snapshot_from_json bytes; snapshot_of_doc d with
             | Some s => Ok (Some (mk_snapshot (schema_version s) (snap_owner s) (saved_at_epoch_secs s) (cap_peers (snap_peers s))))
             | None => Err Unreadable
             end
  end.

(** ** Dial candidates *)

Abbreviation DialSets := (list (PeerId * list MultiAddr)).

Definition unseen (seen : gset SocketAddr) (a : MultiAddr) : bool :=
  from_option (λ sa, negb (bool_decide (sa ∈ seen))) false (dialable_socket_addr a).

(** The state of the loop of [snapshot_dial_sets]. *)
Record DialSetLoop := mk_loop { sets : DialSets; seen_peers : gset PeerId; seen_addresses : gset SocketAddr }.

Definition snapshot_dial_step (self : PeerId) (l : DialSetLoop) (p : SnapshotPeer) : DialSetLoop :=
  if bool_decide (snap_peer_id p = self) then l
  else if bool_decide (snap_peer_id p ∈ seen_peers l) then l
  else
    let peers := {[snap_peer_id p]} ∪ seen_peers l in
    match take MAX_SNAPSHOT_ADDRESSES_DIALLED (List.filter (unseen (seen_addresses l)) (snap_addresses p)) with
    | [] => mk_loop (sets l) peers (seen_addresses l)
    | new => mk_loop (sets l ++ [(snap_peer_id p, new)]) peers (seen_addresses l ∪ list_to_set (omap dialable_socket_addr new))
    end.

Definition snapshot_dial_sets (peers : list SnapshotPeer) (self : PeerId) (seen : gset SocketAddr) : DialSets * gset SocketAddr :=
  let l := foldl (snapshot_dial_step self) (mk_loop [] ∅ seen) peers in (sets l, seen_addresses l).

(** The peers of the snapshot file this node may dial. *)
Definition usable_snapshot (self : PeerId) (now : N) (f : DiskFile) : option (list SnapshotPeer) :=
  match snapshot_load f with
  | Ok (Some s) => match peers_for s self now with Ok peers => Some peers | Err _ => None end
  | Ok None | Err _ => None
  end.

(** [resolve_snapshot_floor]'s argument in [routing_snapshot_dial_sets], and
    what that returns. *)
Definition restored_peers (self : PeerId) (now : N) (f : DiskFile) : N :=
  N.of_nat (length (default [] (usable_snapshot self now f))).
Definition routing_snapshot_dial_sets (dir : bool) (self : PeerId) (now : N) (f : DiskFile) (seen : gset SocketAddr) : option DialSets :=
  if negb dir then None
  else peers ← usable_snapshot self now f;
       match (snapshot_dial_sets peers self seen).1 with [] => None | l => Some l end.

(** ** The node's files and floors *)

Record Stored := mk_stored {
  routing_snapshot_restored : bool;
  routing_snapshot_floor : N;
  routing_snapshot_floor_at : N;
  snapshot_file : DiskFile;
  cache_file : DiskFile;
  table : list DHTNode;                 (** [routing_table_peers] *)
  close_group : list DHTNode;           (** [find_closest_nodes_local] of the own key *)
}.
Implicit Types (s : Stored).

Definition stored_new (snapshot cache : DiskFile) : Stored :=
  mk_stored false SNAPSHOT_FLOOR_UNRESOLVED 0 snapshot cache [] [].
Definition with_restored s : Stored :=
  mk_stored true (routing_snapshot_floor s) (routing_snapshot_floor_at s) (snapshot_file s) (cache_file s) (table s) (close_group s).
Definition with_floor_at (now : N) s : Stored :=
  mk_stored (routing_snapshot_restored s) (routing_snapshot_floor s) now (snapshot_file s) (cache_file s) (table s) (close_group s).
Definition with_floor (n : N) s : Stored :=
  mk_stored (routing_snapshot_restored s) n (routing_snapshot_floor_at s) (snapshot_file s) (cache_file s) (table s) (close_group s).
Definition with_snapshot (f : DiskFile) s : Stored :=
  mk_stored (routing_snapshot_restored s) (routing_snapshot_floor s) (routing_snapshot_floor_at s) f (cache_file s) (table s) (close_group s).
Definition with_cache (f : DiskFile) s : Stored :=
  mk_stored (routing_snapshot_restored s) (routing_snapshot_floor s) (routing_snapshot_floor_at s) (snapshot_file s) f (table s) (close_group s).
Definition with_peers (nodes close : list DHTNode) s : Stored :=
  mk_stored (routing_snapshot_restored s) (routing_snapshot_floor s) (routing_snapshot_floor_at s) (snapshot_file s) (cache_file s) nodes close.

Context (mode : NodeMode) (dir : bool) (self : PeerId).

(** The restore step of [connect_bootstrap_peers]: the swap, the file, and
    the two stores of [resolve_snapshot_floor]. *)
Definition restore_snapshot (now now_floor : N) : task Stored :=
  match mode with
  | Client => Finished
  | Node =>
      Act with_restored (λ s,
        if routing_snapshot_restored s || negb dir then Finished
        else Act (λ s, s) (λ s,
          let n := restored_peers self now (snapshot_file s) in
          Act (with_floor_at now_floor) (λ _, Act (with_floor n) (λ _, Finished))))
  end.

Definition snapshot_peers (nodes : list DHTNode) : list SnapshotPeer :=
  (λ n, mk_snapshot_peer (node_peer_id n) (addresses n)) <$> nodes.

(** [save_routing_snapshot]: two loads of the floor around the read of the
    table, then the write. *)
Definition save_routing_snapshot (now : N) (fault : option SaveFault) : task Stored :=
  Act (λ s, s) (λ s,
    let floor_peers := routing_snapshot_floor s in
    if (floor_peers =? SNAPSHOT_FLOOR_UNRESOLVED)%N then Finished
    else Act (λ s, s) (λ s,
      let peers := snapshot_peers (table s) in
      match peers with
      | [] => Finished
      | _ =>
          Act (λ s, s) (λ s,
            let floor_applies := (now - routing_snapshot_floor_at s <? SNAPSHOT_FLOOR_ENFORCED_FOR)%N in
            if floor_applies && (N.of_nat (length peers) <? floor_peers)%N then Finished
            else Act (λ s, with_snapshot (snapshot_save (snapshot_new self now peers) fault (snapshot_file s)).2 s) (λ _, Finished))
      end)).

(** [save_close_group_cache_snapshot]. *)
Definition save_close_group_cache (score : PeerId → spec_float) (now : N) (fault : option SaveFault) : task Stored :=
  Act (λ s, s) (λ s,
    let c := close_group_cache (close_group s) score now in
    Act (λ s, with_cache (cache_save c fault (cache_file s)).2 s) (λ _, Finished)).

(** What works on the files: a bootstrap, a round of the periodic task or the
    shutdown, and everything that changes the routing table. *)
Inductive StoreOp :=
  | Restore (now now_floor : N)
  | SaveBoth (score : PeerId → spec_float) (now_cache now : N) (fault_cache fault : option SaveFault)
  | SaveCache (score : PeerId → spec_float) (now : N) (fault : option SaveFault)
  | TableChanges (nodes close : list DHTNode).

Definition store_task (o : StoreOp) : task Stored :=
  match o with
  | Restore now now_floor => restore_snapshot now now_floor
  | SaveBoth score now_cache now fault_cache fault =>
      if dir then and_then (save_close_group_cache score now_cache fault_cache) (save_routing_snapshot now fault) else Finished
  | SaveCache score now fault => if dir then save_close_group_cache score now fault else Finished
  | TableChanges nodes close => Act (with_peers nodes close) (λ _, Finished)
  end.
Definition store_tasks (t : task Stored) : Prop := ∃ o, t = store_task o.

(** ** Reading back what was written *)

Lemma parse_texts l : parse_addresses (address_texts l) = Some l.
Proof.
  unfold parse_addresses, address_texts. induction l as [|a l IH]; [done|]. cbn. rewrite multiaddr_roundtrip. cbn.
  unfold mapM in *. by rewrite IH.
Qed.

Lemma parse_peer_hex p : parse_peer (to_hex p) = Some p.
Proof. unfold parse_peer. by rewrite from_hex_to_hex. Qed.

Lemma snapshot_of_doc_doc r : snapshot_of_doc (snapshot_doc r) = Some r.
Proof.
  unfold snapshot_of_doc, snapshot_doc. cbn [doc_owner doc_peers doc_version doc_saved_at]. rewrite parse_peer_hex. cbn [mbind option_bind].
  match goal with |- context [mapM ?f ?l] => assert (Hl : mapM f l = Some (snap_peers r)) end.
  { induction (snap_peers r) as [|[p l] ps IH]; [done|]. cbn. rewrite parse_peer_hex, parse_texts. cbn. cbn in IH. by rewrite IH. }
  rewrite Hl. by destruct r.
Qed.

Lemma str_take_all n t : (String.length t ≤ n)%nat → str_take n t = t.
Proof. revert n. induction t as [|c t IH]; intros [|n] Hn; cbn in *; [done..|lia|]. rewrite IH by lia. done. Qed.

Lemma cap_peers_length l : length (cap_peers l) = min MAX_SNAPSHOT_PEERS (length l).
Proof. unfold cap_peers. by rewrite length_fmap, length_take. Qed.

Lemma cap_peers_idem l : cap_peers (cap_peers l) = cap_peers l.
Proof.
  unfold cap_peers. rewrite (take_ge (_ <$> _)) by (rewrite length_fmap, length_take; lia). rewrite <-list_fmap_compose.
  apply list_fmap_ext. intros i p _. cbn. by rewrite take_idemp.
Qed.

Lemma snapshot_load_saved r :
  snap_peers r = cap_peers (snap_peers r) → (N.of_nat (String.length (snapshot_json r)) ≤ MAX_SNAPSHOT_BYTES)%N →
  snapshot_load (regular (snapshot_json r)) = Ok (Some r).
Proof.
  intros Hcap Hlen. unfold snapshot_load, regular. rewrite (proj2 (N.ltb_ge _ _) Hlen).
  rewrite str_take_all by (unfold MAX_SNAPSHOT_BYTES in *; lia). rewrite (proj2 (N.ltb_ge _ _) Hlen).
  unfold snapshot_json. rewrite snapshot_json_roundtrip. cbn [mbind option_bind]. rewrite snapshot_of_doc_doc, <-Hcap. by destruct r.
Qed.

Lemma usable_bounded p now f peers : usable_snapshot p now f = Some peers →
  (length peers ≤ MAX_SNAPSHOT_PEERS)%nat ∧ Forall (λ x, length (snap_addresses x) ≤ MAX_ADDRESSES_PER_PEER)%nat peers.
Proof.
  unfold usable_snapshot, snapshot_load. destruct f as [| | |len c]; [done..|]. destruct (_ <? _)%N; [done|].
  destruct (_ <? _)%N; [done|]. destruct (_ ≫= _) as [r|]; [|done]. unfold peers_for.
  destruct (negb _); [done|]. destruct (negb _); [done|]. destruct (snapshot_is_stale _ _); [done|]. cbn [snap_peers]. intros [= <-].
  rewrite cap_peers_length. split; [lia|]. unfold cap_peers. apply Forall_fmap, Forall_true. intros x. cbn [compose snap_addresses]. rewrite length_take. lia.
Qed.

Lemma restored_resolved p now f : (restored_peers p now f < SNAPSHOT_FLOOR_UNRESOLVED)%N.
Proof.
  unfold restored_peers. destruct (usable_snapshot p now f) as [peers|] eqn:Hu; [|done]. apply usable_bounded in Hu as [Hu _].
  cbn [default from_option id]. change SNAPSHOT_FLOOR_UNRESOLVED with 18446744073709551615%N. unfold MAX_SNAPSHOT_PEERS in Hu. lia.
Qed.

(** ** The floor holds *)

Section floor.
Context (f0 : DiskFile).

(** What a task under way relies on: the restore owns the floor, a save has
    seen it resolved, and one about to write has passed the check. *)
Inductive duty := Restoring (found : option N) | Saving (n : N) | Writing (now len : N).

Definition from_file (n : N) : Prop := ∃ now, n = restored_peers self now f0.
Abbreviation resolved s := (routing_snapshot_floor s ≠ SNAPSHOT_FLOOR_UNRESOLVED).

Definition above_floor s (now len : N) : Prop :=
  (now - routing_snapshot_floor_at s < SNAPSHOT_FLOOR_ENFORCED_FOR)%N → (routing_snapshot_floor s ≤ len)%N.

Definition duty_ok s (d : duty) : Prop :=
  match d with
  | Restoring found => routing_snapshot_restored s = true ∧ ¬ resolved s ∧ ∀ n, found = Some n → from_file n
  | Saving n => resolved s ∧ routing_snapshot_floor s = n
  | Writing now len => resolved s ∧ above_floor s now len
  end.

Definition restorers (l : list duty) : list (option N) := omap (λ d, match d with Restoring found => Some found | _ => None end) l.

(** A snapshot this node saved. *)
Definition written_at s (f : DiskFile) : Prop :=
  ∃ t nodes, f = regular (snapshot_json (snapshot_new self t (snapshot_peers nodes))) ∧ nodes ≠ [] ∧ above_floor s t (N.of_nat (length nodes)).

Record duties (l : list duty) s : Prop := {
  du_ok : Forall (duty_ok s) l;
  du_one : (length (restorers l) ≤ 1)%nat;
  du_fresh : routing_snapshot_restored s = false → ¬ resolved s;
  du_client : mode = Client → ¬ resolved s;
  du_floor : resolved s → from_file (routing_snapshot_floor s);
  du_unresolved : ¬ resolved s → snapshot_file s = f0;
  du_file : snapshot_file s = f0 ∨ written_at s (snapshot_file s);
}.

Lemma duties_perm l l' s : l ≡ₚ l' → duties l s → duties l' s.
Proof. intros Hp [H1 H2 ? ? ? ? ?]. constructor; try done; unfold restorers in *; by rewrite <-Hp. Qed.

(** Only the restore changes the floor, and nobody has seen it then. *)
Lemma restorer_alone found others s :
  duties (Restoring found :: others) s → Forall (λ d, False) others.
Proof.
  intros [Hok Hone _ _ _ _ _]. apply Forall_cons in Hok as [(_ & Hno & _) Hok]. unfold restorers in Hone.
  apply Forall_forall. intros d Hd. rewrite Forall_forall in Hok. specialize (Hok d Hd). destruct d as [o|n|now len]; cbn in Hok; [|tauto..].
  apply list_elem_of_split in Hd as (l1 & l2 & ->). cbn in Hone. rewrite omap_app, length_app in Hone. cbn in Hone. lia.
Qed.

Lemma duties_same l s s' :
  routing_snapshot_restored s' = routing_snapshot_restored s → routing_snapshot_floor s' = routing_snapshot_floor s →
  routing_snapshot_floor_at s' = routing_snapshot_floor_at s → snapshot_file s' = snapshot_file s → duties l s → duties l s'.
Proof.
  destruct s, s'. cbn. intros -> -> -> -> []. constructor; done.
Qed.

Lemma duties_drop d l s : duties (d :: l) s → duties l s.
Proof.
  intros [Hok Hone ? ? ? ? ?]. constructor; try done; [by inversion Hok|]. unfold restorers in *. cbn in Hone. destruct d; cbn in Hone; lia.
Qed.

Lemma duties_push d l s : (∀ o, d ≠ Restoring o) → duty_ok s d → duties l s → duties (d :: l) s.
Proof.
  intros Hno Hd [Hok Hone ? ? ? ? ?]. constructor; try done; [by constructor|]. destruct d; [by destruct (Hno found)|done..].
Qed.

Lemma restore_accounts now now_floor : accounts duties (restore_snapshot now now_floor) [].
Proof.
  unfold restore_snapshot. destruct mode eqn:Hmode; [|done]. intros s others Hd. cbn [app] in Hd.
  destruct (routing_snapshot_restored s || negb dir) eqn:Hgo.
  { exists []. split; [|done]. cbn [app]. destruct Hd as [Hok Hone Hfresh Hcl Hfl Hun Hfile].
    constructor; try done. eapply Forall_impl; [exact Hok|]. intros []; cbn; tauto. }
  apply orb_false_iff in Hgo as [Hres _].
  exists [Restoring None]. split.
  { destruct Hd as [Hok Hone Hfresh Hcl Hfl Hun Hfile]. specialize (Hfresh Hres).
    assert (Hnone : restorers others = []).
    { unfold restorers. clear -Hok Hres. induction Hok as [|[o|n|t n] l Hx _ IH]; cbn; [done| |done..]. cbn in Hx. destruct Hx. congruence. }
    constructor; cbn [app]; try done.
    - constructor; [done|]. eapply Forall_impl; [exact Hok|]. intros []; cbn; tauto.
    - change (restorers (Restoring None :: others)) with (None :: restorers others). by rewrite Hnone. }
  intros s1 others1 Hd1. exists [Restoring (Some (restored_peers self now (snapshot_file s1)))]. split.
  { destruct Hd1 as [Hok Hone Hfresh Hcl Hfl Hun Hfile]. apply Forall_cons in Hok as [(Hr & Hnr & _) Hok]. constructor; try done.
    constructor; [|done]. split_and!; [done..|]. intros n [= <-]. exists now. by rewrite Hun. }
  intros s2 others2 Hd2. exists [Restoring (Some (restored_peers self now (snapshot_file s1)))]. pose proof (restorer_alone _ _ _ Hd2) as Hno.
  assert (others2 = []) as -> by (by destruct Hno). split.
  { destruct Hd2 as [Hok Hone Hfresh Hcl Hfl Hun Hfile]. apply Forall_cons in Hok as [(Hr & Hnr & Hn) _]. constructor; try done.
    - by repeat constructor.
    - left. by apply Hun. }
  intros s3 others3 Hd3. exists []. split; [|done]. pose proof (restorer_alone _ _ _ Hd3) as Hno3.
  assert (others3 = []) as -> by (by destruct Hno3).
  destruct Hd3 as [Hok Hone Hfresh Hcl Hfl Hun Hfile]. apply Forall_cons in Hok as [(Hr & Hnr & Hn) _]. specialize (Hun Hnr).
  constructor; cbn; try done.
  - lia.
  - congruence.
  - congruence.
  - intros _. by apply Hn.
  - by left.
Qed.

Lemma save_snapshot_accounts now fault : accounts duties (save_routing_snapshot now fault) [].
Proof.
  intros s others Hd. cbn zeta. destruct (N.eqb_spec (routing_snapshot_floor s) SNAPSHOT_FLOOR_UNRESOLVED) as [Hun|Hres]; [by exists []|].
  exists [Saving (routing_snapshot_floor s)]. split; [by apply duties_push|]. set (n := routing_snapshot_floor s).
  intros s1 others1 Hd1. destruct (snapshot_peers (table s1)) as [|x peers] eqn:Hpeers; [exists []; split; [by eapply duties_drop|done]|].
  exists [Saving n]. split; [done|]. intros s2 others2 Hd2.
  destruct (_ && _) eqn:Hskip; [exists []; split; [by eapply duties_drop|done]|].
  exists [Writing now (N.of_nat (length (x :: peers)))]. split.
  { pose proof (du_ok _ _ Hd2) as [[Hr Hn] _]%Forall_cons. apply duties_push; [done| |by eapply duties_drop]. split; [done|].
    intros Happ. apply N.ltb_lt in Happ. rewrite Happ in Hskip. cbn [andb] in Hskip. apply N.ltb_ge in Hskip. by rewrite Hn. }
  intros s3 others3 Hd3. exists []. split; [|done]. cbn [app]. pose proof (du_ok _ _ Hd3) as [[Hr Hab] _]%Forall_cons.
  apply duties_drop in Hd3. destruct fault as [e|]; cbn [snapshot_save snd]; [by destruct s3|].
  destruct Hd3 as [Hok Hone Hfresh Hcl Hfl Hun Hfile]. constructor; try done. right. exists now, (table s1).
  split_and!; [cbn [snapshot_file with_snapshot]; by rewrite Hpeers|intros Hnil; by rewrite Hnil in Hpeers|].
  replace (length (table s1)) with (length (x :: peers)); [done|]. rewrite <-Hpeers. apply length_fmap.
Qed.

Lemma save_cache_accounts score now fault t :
  accounts duties t [] → accounts duties (and_then (save_close_group_cache score now fault) t) [].
Proof.
  intros Ht s others Hd. exists []. split; [done|]. intros s1 others1 Hd1. exists []. split; [|exact Ht].
  by eapply duties_same; [..|exact Hd1].
Qed.

Lemma store_accounts t : store_tasks t → accounts duties t [].
Proof.
  intros [o ->]. destruct o as [now now_floor|score now_cache now fault_cache fault|score now fault|nodes close]; cbn [store_task].
  - apply restore_accounts.
  - destruct dir; [|done]. apply save_cache_accounts, save_snapshot_accounts.
  - destruct dir; [|done]. by apply (save_cache_accounts _ _ _ Finished).
  - intros s others Hd. exists []. split; [|done]. by eapply duties_same; [..|exact Hd].
Qed.

Lemma duties_new cache : duties [] (stored_new f0 cache).
Proof. constructor; cbn; try done; try lia; try by left. Qed.

End floor.

(** what a node saves it reads back: after a save that did not fail, the same node may dial exactly the capped peers of
    the table, for a week and up to five minutes before the save; another node may dial none; a failed save leaves the file. *)
Theorem snapshot_roundtrip (owner reader : PeerId) (t now : N) (peers : list SnapshotPeer) (fault : option SaveFault) (f : DiskFile) :
  (N.of_nat (String.length (snapshot_json (snapshot_new owner t peers))) ≤ MAX_SNAPSHOT_BYTES)%N →
  usable_snapshot reader now (snapshot_save (snapshot_new owner t peers) fault f).2 =
  match fault with
  | Some _ => usable_snapshot reader now f
  | None =>
      if bool_decide (reader = owner ∧ (t ≤ now + MAX_FUTURE_TIMESTAMP_SKEW)%N ∧ (now ≤ t + MAX_AGE)%N) then Some (cap_peers peers) else None
  end.
Proof.
  intros Hlen. destruct fault as [e|]; [done|]. cbn [snapshot_save snd]. unfold usable_snapshot.
  rewrite snapshot_load_saved by (try done; cbn [snapshot_new snap_peers]; by rewrite cap_peers_idem).
  unfold peers_for, snapshot_is_stale. cbn [snapshot_new schema_version snap_owner saved_at_epoch_secs snap_peers].
  change (negb (SCHEMA_VERSION =? SCHEMA_VERSION)%N) with false. cbv iota.
  case_bool_decide as Ho; cbn [negb].
  - destruct (N.ltb_spec MAX_FUTURE_TIMESTAMP_SKEW (t - now)); [rewrite bool_decide_false; [done|lia]|].
    destruct (N.ltb_spec MAX_AGE (now - t)); [rewrite bool_decide_false; [done|lia]|]. rewrite bool_decide_true; [done|]. split; [done|lia].
  - rewrite bool_decide_false; [done|]. intros [-> _]. done.
Qed.

(** ** The dial candidates of a snapshot *)

Definition sockets (l : list MultiAddr) : list SocketAddr := omap dialable_socket_addr l.

Record dial_sets_ok (owner : PeerId) (seen : gset SocketAddr) (peers : list SnapshotPeer) (l : DialSetLoop) : Prop := {
  ds_peers : NoDup (sets l).*1;
  ds_known : ∀ p, p ∈ (sets l).*1 → p ∈ seen_peers l;
  ds_self : owner ∉ (sets l).*1;
  ds_seen : seen_addresses l = seen ∪ list_to_set (concat ((λ x, sockets x.2) <$> sets l));
  ds_count : (length (sets l) ≤ length peers)%nat;
  ds_set : ∀ p new, (p, new) ∈ sets l → new ≠ [] ∧ (length new ≤ MAX_SNAPSHOT_ADDRESSES_DIALLED)%nat ∧
    (∃ x, x ∈ peers ∧ snap_peer_id x = p ∧ ∀ a, a ∈ new → a ∈ snap_addresses x) ∧
    ∀ a, a ∈ new → ∃ sa, dialable_socket_addr a = Some sa ∧ (sa ∉ seen);
  ds_disjoint : ∀ i j x y, sets l !! i = Some x → sets l !! j = Some y → i ≠ j → sockets x.2 ## sockets y.2;
}.

Lemma unseen_spec seen a : unseen seen a = true ↔ ∃ sa, dialable_socket_addr a = Some sa ∧ (sa ∉ seen).
Proof.
  unfold unseen. destruct (dialable_socket_addr a) as [sa|]; cbn; [|split; [done|by intros (? & ? & _)]].
  rewrite negb_true_iff, bool_decide_eq_false. split; [eauto|]. by intros (? & [= <-] & ?).
Qed.

Lemma dial_step_ok owner seen peers l x :
  dial_sets_ok owner seen peers l → dial_sets_ok owner seen (peers ++ [x]) (snapshot_dial_step owner l x).
Proof.
  intros [Hnd Hkn Hself Hseen Hcount Hset Hdis].
  assert (Hset' : ∀ p new, (p, new) ∈ sets l → new ≠ [] ∧ (length new ≤ MAX_SNAPSHOT_ADDRESSES_DIALLED)%nat ∧
    (∃ y, y ∈ peers ++ [x] ∧ snap_peer_id y = p ∧ ∀ a, a ∈ new → a ∈ snap_addresses y) ∧
    ∀ a, a ∈ new → ∃ sa, dialable_socket_addr a = Some sa ∧ (sa ∉ seen)).
  { intros p new Hin. destruct (Hset p new Hin) as (? & ? & (y & ? & ?) & ?). split_and!; try done. exists y. set_solver. }
  assert (Hsame : dial_sets_ok owner seen (peers ++ [x]) l) by (constructor; try done; rewrite length_app; lia).
  unfold snapshot_dial_step. case_bool_decide as Hx; [done|]. case_bool_decide as Hsp; [done|].
  destruct (take _ _) as [|a new] eqn:Hnew.
  { destruct Hsame. constructor; cbn [sets seen_peers seen_addresses]; try done. set_solver. }
  assert (Hall : ∀ b, b ∈ a :: new → b ∈ snap_addresses x ∧ ∃ sa, dialable_socket_addr b = Some sa ∧ (sa ∉ seen_addresses l)).
  { intros b Hb. rewrite <-Hnew in Hb. apply elem_of_take in Hb as (i & Hb & _). apply list_elem_of_lookup_2 in Hb.
    apply elem_of_List_filter in Hb as [? ?%unseen_spec]. done. }
  assert (Hlen : (length (a :: new) ≤ MAX_SNAPSHOT_ADDRESSES_DIALLED)%nat) by (rewrite <-Hnew, length_take; lia).
  assert (Hfresh : ∀ y, y ∈ sets l → sockets y.2 ## sockets (a :: new)).
  { intros y Hy sa Hsa Hsa'. apply list_elem_of_omap in Hsa' as (b & Hb & Hbs). destruct (Hall b Hb) as (_ & sa' & Hsa' & Hni).
    apply Hni. rewrite Hseen. apply elem_of_union. right. apply elem_of_list_to_set, list_elem_of_In, in_concat. exists (sockets y.2).
    split; apply list_elem_of_In; [by apply (list_elem_of_fmap_2 (λ x, sockets x.2))|by simplify_eq]. }
  clear Hnew. constructor; cbn [sets seen_peers seen_addresses].
  - rewrite fmap_app. apply NoDup_app. split_and!; [done| |apply NoDup_singleton]. intros p Hp ->%list_elem_of_singleton. by apply Hsp, Hkn.
  - intros p. rewrite fmap_app, elem_of_app. cbn. set_solver.
  - rewrite fmap_app, elem_of_app. cbn. intros [?|H%list_elem_of_singleton]; done.
  - rewrite Hseen, fmap_app, concat_app, list_to_set_app_L. cbn. rewrite app_nil_r. by rewrite (assoc_L (∪)).
  - rewrite !length_app. cbn. lia.
  - intros p l' [Hin|Hin%list_elem_of_singleton]%elem_of_app; [by apply Hset'|]. injection Hin as -> ->. split_and!; [done|done| |].
    + exists x. split_and!; [set_solver|done|]. intros b Hb. by apply Hall.
    + intros b Hb. destruct (Hall b Hb) as (_ & sa & Hsa & Hni). exists sa. split; [done|]. rewrite Hseen in Hni. set_solver.
  - intros i j y z Hi Hj Hne. apply lookup_app_Some in Hi as [Hi|[Hi Hi']], Hj as [Hj|[Hj Hj']].
    + by eapply Hdis.
    + apply list_lookup_singleton_Some in Hj' as [_ <-]. apply Hfresh. by eapply list_elem_of_lookup_2.
    + apply list_lookup_singleton_Some in Hi' as [_ <-]. intros sa H1 H2. apply (Hfresh z) with sa; [by eapply list_elem_of_lookup_2|done..].
    + apply list_lookup_singleton_Some in Hi' as [? _], Hj' as [? _]. lia.
Qed.

Lemma dial_loop_ok owner seen peers :
  dial_sets_ok owner seen peers (foldl (snapshot_dial_step owner) (mk_loop [] ∅ seen) peers).
Proof.
  induction peers as [|x peers IH] using rev_ind; [|rewrite foldl_app; by apply dial_step_ok].
  constructor; cbn; try done; [constructor|set_solver..].
Qed.

(** no file makes a node dial without bound: whatever is on disk, the snapshot yields at most 1024 sets of one or two
    addresses, for distinct peers other than the node itself; every address is a dialable one of the named peer's entry in a
    current snapshot written for this node, none was queued before, and no two sets share a socket address. *)
Theorem snapshot_dials_bounded (owner : PeerId) (now : N) (f : DiskFile) (seen : gset SocketAddr) (l : DialSets) :
  routing_snapshot_dial_sets true owner now f seen = Some l →
  (0 < length l ≤ MAX_SNAPSHOT_PEERS)%nat ∧ NoDup l.*1 ∧ (owner ∉ l.*1) ∧
  (∀ p new, (p, new) ∈ l → (0 < length new ≤ MAX_SNAPSHOT_ADDRESSES_DIALLED)%nat ∧
     (∃ r x, snapshot_load f = Ok (Some r) ∧ peers_for r owner now = Ok (snap_peers r) ∧ x ∈ snap_peers r ∧ snap_peer_id x = p ∧
        ∀ a, a ∈ new → a ∈ snap_addresses x) ∧
     ∀ a, a ∈ new → ∃ sa, dialable_socket_addr a = Some sa ∧ (sa ∉ seen)) ∧
  (∀ i j x y, l !! i = Some x → l !! j = Some y → i ≠ j → sockets x.2 ## sockets y.2).
Proof.
  unfold routing_snapshot_dial_sets. cbn [negb]. destruct (usable_snapshot owner now f) as [peers|] eqn:Hu; [|done]. cbn [mbind option_bind].
  destruct (usable_bounded _ _ _ _ Hu) as [Hbound _]. unfold snapshot_dial_sets. cbn [fst].
  destruct (dial_loop_ok owner seen peers) as [Hnd _ Hself _ Hcount Hset Hdis]. destruct (sets _) as [|d ds] eqn:Hl; [done|]. intros [= <-].
  unfold usable_snapshot in Hu. destruct (snapshot_load f) as [[r|]|] eqn:Hload; [|done..].
  destruct (peers_for r owner now) as [ps|] eqn:Hpf; [|done]. injection Hu as ->.
  assert (peers = snap_peers r) as ->.
  { unfold peers_for in Hpf. destruct (negb _); [done|]. destruct (negb _); [done|]. destruct (snapshot_is_stale _ _); [done|]. by injection Hpf. }
  split_and!; try done; [cbn; lia|lia|]. intros p new Hin. destruct (Hset p new Hin) as (Hne & Hlen & (x & Hx & Hid & Ha) & Hall).
  split_and!; [by destruct new; cbn; [|lia]|done| |done]. exists r, x. split_and!; done.
Qed.
End snapshots.
