(* ===== verification/Bootstrap.v ===== *)
(** * Joining the network

    [connect_bootstrap_peers] and [dial_bootstrap_addr_set] of
    [src/network.rs]: which addresses a starting node dials, in which order,
    how many at once, whom it believes and which channels it closes.  What the
    network answers to each dial, the order in which concurrent dials complete
    and the clock are parameters. *)

From Stdlib Require Import SpecFloat.
From stdpp Require Import prelude gmap strings.
From S2P Require Import Prelude Tasks Float Keys Ip Address Models PeerRecord Trust Snapshots.

Definition MAX_CONCURRENT_BOOTSTRAP_DIALS : nat := 4.
Definition CLIENT_BOOTSTRAP_TARGET : nat := 6.
Definition MAX_CONCURRENT_SNAPSHOT_DIALS : nat := 16.

(** ** Streams of concurrent work *)

Section buffered.
Context {W : Type}.

(** [buffer_unordered(limit)]: work is started as soon as fewer than [limit]
    are under way; [picks] says which of those under way completes next.
    Consumption ends when [enough] says so, which drops what is under way, or
    when everything has completed.  The result: what completed, in order, and
    what was dropped under way or never started. *)
Fixpoint buffer_unordered (fuel limit : nat) (picks : list nat) (enough : list W → bool) (waiting flying completed : list W)
    : list W * list W * list W :=
  match fuel with
  | O => (completed, flying, waiting)
  | S fuel =>
      let started := take (limit - length flying) waiting in
      let waiting := drop (limit - length flying) waiting in
      let flying := flying ++ started in
      let i := default 0 (head picks) mod length flying in
      match flying !! i with
      | None => (completed, flying, waiting)
      | Some w =>
          let completed := completed ++ [w] in
          if enough completed then (completed, delete i flying, waiting)
          else buffer_unordered fuel limit (tail picks) enough waiting (delete i flying) completed
      end
  end.

(** The whole stream: one completion per item. *)
Definition run_stream (limit : nat) (picks : list nat) (enough : list W → bool) (items : list W) : list W * list W * list W :=
  buffer_unordered (length items) limit picks enough items [] [].

Lemma buffer_perm fuel limit picks enough : ∀ waiting flying completed,
  let '(c, f, w) := buffer_unordered fuel limit picks enough waiting flying completed in
  c ++ f ++ w ≡ₚ completed ++ flying ++ waiting.
Proof.
  revert picks. induction fuel as [|fuel IH]; intros picks waiting flying completed; [cbn; reflexivity|]. cbn [buffer_unordered].
  set (fl := flying ++ take (limit - length flying) waiting). set (wa := drop (limit - length flying) waiting).
  assert (Hsplit : flying ++ waiting = fl ++ wa) by (unfold fl, wa; by rewrite <-(assoc_L (++)), take_drop).
  destruct (fl !! (default 0 (head picks) mod length fl)) as [x|] eqn:Hx; [|cbv iota beta; by rewrite Hsplit].
  assert (Hdel : completed ++ flying ++ waiting ≡ₚ (completed ++ [x]) ++ delete (default 0 (head picks) mod length fl) fl ++ wa).
  { rewrite Hsplit. rewrite <-(assoc_L (++) completed). apply Permutation_app_head. cbn.
    rewrite (delete_Permutation fl _ x Hx) at 1. done. }
  destruct (enough (completed ++ [x])); [by rewrite Hdel|].
  specialize (IH (tail picks) wa (delete (default 0 (head picks) mod length fl) fl) (completed ++ [x])).
  destruct (buffer_unordered _ _ _ _ _ _ _) as [[c f] w]. by rewrite IH, Hdel.
Qed.

(** With fuel for every item, nothing is left over unless there was enough. *)
Lemma buffer_drained fuel limit picks enough : 0 < limit → ∀ waiting flying completed,
  length waiting + length flying ≤ fuel → length flying ≤ limit →
  let '(c, f, w) := buffer_unordered fuel limit picks enough waiting flying completed in
  length f ≤ limit ∧ ((f = [] ∧ w = []) ∨ enough c = true).
Proof.
  intros Hlimit. revert picks. induction fuel as [|fuel IH]; intros picks waiting flying completed Hfuel Hfl.
  { destruct waiting, flying; cbn in Hfuel; try lia. split; [cbn; lia|by left]. }
  cbn [buffer_unordered]. set (fl := flying ++ take (limit - length flying) waiting). set (wa := drop (limit - length flying) waiting).
  assert (Hflen : length fl = length flying + min (limit - length flying) (length waiting)) by (unfold fl; by rewrite length_app, length_take).
  assert (Hwlen : length wa = length waiting - (limit - length flying)) by (unfold wa; by rewrite length_drop).
  destruct (fl !! (default 0 (head picks) mod length fl)) as [x|] eqn:Hx.
  - pose proof (length_delete fl (default 0 (head picks) mod length fl) ltac:(by eexists)) as Hdel.
    apply lookup_lt_Some in Hx. destruct (enough (completed ++ [x])) eqn:He; [split; [lia|by right]|]. apply IH; lia.
  - apply lookup_ge_None in Hx. assert (length fl = 0).
    { destruct (decide (length fl = 0)) as [|Hne]; [done|]. pose proof (Nat.mod_upper_bound (default 0 (head picks)) (length fl) Hne). lia. }
    split; [lia|]. left. split; apply nil_length_inv; lia.
Qed.

(** A count that grows by at most one per completion stops at [n]. *)
Lemma buffer_count (count : list W → nat) n fuel limit enough :
  (∀ l x, count (l ++ [x]) ≤ S (count l)) → (∀ l x, count l < n → enough (l ++ [x]) = false → count (l ++ [x]) < n) →
  ∀ picks waiting flying completed, count completed < n →
  count (buffer_unordered fuel limit picks enough waiting flying completed).1.1 ≤ n.
Proof.
  intros Hstep Hgo. induction fuel as [|fuel IH]; intros picks waiting flying completed Hc; [cbn; lia|]. cbn [buffer_unordered].
  destruct (_ !! _) as [x|]; [|cbn; lia]. destruct (enough (completed ++ [x])) eqn:He; [|by apply IH, Hgo].
  cbn. specialize (Hstep completed x). lia.
Qed.

Lemma stream_perm limit picks enough items :
  let '(c, f, w) := run_stream limit picks enough items in c ++ f ++ w ≡ₚ items.
Proof. apply buffer_perm. Qed.

Lemma buffer_never fuel limit enough : (∀ l, enough l = false) → ∀ picks waiting flying completed,
  buffer_unordered fuel limit picks enough waiting flying completed = buffer_unordered fuel limit picks (λ _, false) waiting flying completed.
Proof.
  intros Hno. induction fuel as [|fuel IH]; intros picks waiting flying completed; [done|]. cbn [buffer_unordered].
  destruct (_ !! _); [|done]. rewrite Hno. apply IH.
Qed.

Lemma stream_all limit picks items : 0 < limit → (run_stream limit picks (λ _, false) items).1.1 ≡ₚ items ∧ (run_stream limit picks (λ _, false) items).1.2 = [].
Proof.
  intros Hlimit. pose proof (stream_perm limit picks (λ _, false) items) as Hp. unfold run_stream in *.
  pose proof (buffer_drained (length items) limit picks (λ _, false) Hlimit items [] [] ltac:(cbn; lia) ltac:(cbn; lia)) as Hd.
  destruct (buffer_unordered _ _ _ _ _ _ _) as [[c f] w]. destruct Hd as [_ [[-> ->]|?]]; [|done]. split; [|done]. cbn in *. by rewrite app_nil_r in Hp.
Qed.
End buffered.

Section bootstrap.
Context `{TL : TransportLib}.

Definition bootstrap_peer_identity_matches (expected : option PeerId) (actual : PeerId) : bool :=
  match expected with None => true | Some e => bool_decide (e = actual) end.

(** ** Dialling one peer *)

(** What the transport answers to a dial and the wait for an identity. *)
Inductive BootstrapDial :=
  | ConnectError
  | IdentityError (channel : string)
  | Identified (channel : string) (peer : PeerId).

(** What a dial does to the channels. *)
Inductive ChannelUse := Dialled (a : MultiAddr) | Opened (channel : string) | ClosedChannel (channel : string).

(** [dial_bootstrap_addr_set]: [attempt i a] is the outcome of the [i]-th
    dial. *)
Fixpoint dial_addrs (attempt : nat → MultiAddr → BootstrapDial) (expected : option PeerId) (i : nat) (addrs : list MultiAddr)
    : option PeerId * list ChannelUse :=
  match addrs with
  | [] => (None, [])
  | addr :: rest =>
      let again uses := let '(r, more) := dial_addrs attempt expected (S i) rest in (r, Dialled addr :: uses ++ more) in
      match attempt i addr with
      | ConnectError => again []
      | IdentityError channel => again [Opened channel; ClosedChannel channel]
      | Identified channel peer =>
          if bootstrap_peer_identity_matches expected peer then (Some peer, [Dialled addr; Opened channel])
          else again [Opened channel; ClosedChannel channel]
      end
  end.
Definition dial_bootstrap_addr_set (attempt : nat → MultiAddr → BootstrapDial) (expected : option PeerId) (addrs : list MultiAddr)
    : option PeerId * list ChannelUse := dial_addrs attempt expected 0 addrs.

(** ** The candidates *)

(** The comparison of the close-group peers: highest trust first, NaN last,
    then the closest. *)
Definition close_group_key (self : PeerId) (p : CachedCloseGroupPeer) :=
  let s := record_score (cached_trust p) in
  (f64_is_nan s, mk_reverse (sf_rank s), xor_distance self (cached_peer_id p)).
Definition sorted_peers (self : PeerId) (c : CloseGroupCache) : list CachedCloseGroupPeer := sort_by_key (close_group_key self) (cache_peers c).

Abbreviation Queued := (list (PeerId * list MultiAddr) * gset SocketAddr)%type.

Definition close_group_step (q : Queued) (p : CachedCloseGroupPeer) : Queued :=
  match List.filter (unseen q.2) (cached_addresses p) with
  | [] => q
  | new => (q.1 ++ [(cached_peer_id p, new)], q.2 ∪ list_to_set (omap socket_addr new))
  end.
Definition serial_addr_sets (self : PeerId) (cache : option CloseGroupCache) : Queued :=
  match cache with
  | Some c => foldl close_group_step ([], ∅) (sorted_peers self c)
  | None => ([], ∅)
  end.

Definition configured_step (q : list (list MultiAddr) * gset SocketAddr) (a : MultiAddr) : list (list MultiAddr) * gset SocketAddr :=
  match dialable_socket_addr a with
  | None => q
  | Some sa => (q.1 ++ [[a]], {[sa]} ∪ q.2)
  end.
Definition parallel_addr_sets (configured : list MultiAddr) (seen : gset SocketAddr) : list (list MultiAddr) * gset SocketAddr :=
  foldl configured_step ([], seen) configured.

(** ** The run *)

(** Where a dial comes from. *)
Inductive Source := FromCache | FromConfig | FromSnapshot.

(** One candidate: its source, its position there, the identity it must
    prove and its addresses. *)
Record Candidate := mk_candidate { source : Source; position_ : nat; expected : option PeerId; candidate_addrs : list MultiAddr }.

Definition candidates (src : Source) (l : list (option PeerId * list MultiAddr)) : list Candidate :=
  imap (λ i x, mk_candidate src i x.1 x.2) l.

(** The network's behaviour during one bootstrap: the outcome of every dial,
    the order of completions, which snapshot dials start after the budget,
    and who is connected when no dial succeeded. *)
Record BootstrapEnv := mk_env {
  attempts : Source → nat → nat → MultiAddr → BootstrapDial;
  picks : Source → list nat;
  late : nat → bool;
  transport_peers : list PeerId;
}.
Context (env : BootstrapEnv).

Definition dial (c : Candidate) : option PeerId * list ChannelUse :=
  match source c with
  | FromSnapshot => if late env (position_ c) then (None, []) else
      dial_bootstrap_addr_set (attempts env FromSnapshot (position_ c)) (expected c) (candidate_addrs c)
  | src => dial_bootstrap_addr_set (attempts env src (position_ c)) (expected c) (candidate_addrs c)
  end.
Definition successes (l : list Candidate) : list PeerId := omap (λ c, (dial c).1) l.

Definition target_reached (client : bool) (n : nat) : bool := client && (CLIENT_BOOTSTRAP_TARGET <=? n)%nat.

(** Phase A: one after the other, until a client has enough. *)
Fixpoint serial_phase (client : bool) (l : list Candidate) (completed : list Candidate) : list Candidate :=
  match l with
  | [] => completed
  | c :: rest =>
      let completed := completed ++ [c] in
      if bool_decide (is_Some (dial c).1) && target_reached client (length (successes completed)) then completed
      else serial_phase client rest completed
  end.

(** The end of a bootstrap. *)
Inductive BootstrapEnd := NoCandidates | NotConnected | BootstrappedFrom (seeds : list PeerId).
Record BootstrapRun := mk_run {
  dialled_serial : list Candidate;
  dialled_parallel : list Candidate;
  dropped_parallel : list Candidate;    (** under way when a client had enough *)
  dialled_snapshot : list Candidate;
  run_end : BootstrapEnd;
}.

Context (mode : NodeMode) (self : PeerId) (cache : option CloseGroupCache) (configured : list MultiAddr).

Definition client_mode : bool := bool_decide (mode = Client).

(** [connect_bootstrap_peers]; [restore] is the restore step: [None] in
    client mode and in a re-bootstrap. *)
Definition connect_bootstrap_peers (restore : gset SocketAddr → option (list (PeerId * list MultiAddr))) : BootstrapRun :=
  let '(serial, seen) := serial_addr_sets self cache in
  let '(parallel, seen) := parallel_addr_sets configured seen in
  let snapshot := if client_mode then None else restore seen in
  match serial, parallel, snapshot with
  | [], [], None => mk_run [] [] [] [] NoCandidates
  | _, _, _ =>
      let phase_a := serial_phase client_mode (candidates FromCache ((λ x, (Some x.1, x.2)) <$> serial)) [] in
      let '(phase_b, dropped, _) :=
        if negb client_mode || (length (successes phase_a) <? CLIENT_BOOTSTRAP_TARGET)%nat then
          run_stream MAX_CONCURRENT_BOOTSTRAP_DIALS (picks env FromConfig)
            (λ completed, bool_decide (is_Some (last completed ≫= λ c, (dial c).1)) &&
                          target_reached client_mode (length (successes phase_a) + length (successes completed)))
            (candidates FromConfig ((λ l, (None, l)) <$> parallel))
        else ([], [], []) in
      let phase_c := (run_stream MAX_CONCURRENT_SNAPSHOT_DIALS (picks env FromSnapshot) (λ _, false)
                        (candidates FromSnapshot ((λ x, (Some x.1, x.2)) <$> default [] snapshot))).1.1 in
      let connected := successes phase_a ++ successes phase_b in
      mk_run phase_a phase_b dropped phase_c
        (match connected, successes phase_c with
         | [], [] => match transport_peers env with [] => NotConnected | seeds => BootstrappedFrom seeds end
         | _, _ => BootstrappedFrom connected
         end)
  end.

(** ** Whom a dial believes *)

Definition opened (uses : list ChannelUse) : list string := omap (λ u, match u with Opened c => Some c | _ => None end) uses.
Definition closed (uses : list ChannelUse) : list string := omap (λ u, match u with ClosedChannel c => Some c | _ => None end) uses.
Definition tried (uses : list ChannelUse) : list MultiAddr := omap (λ u, match u with Dialled a => Some a | _ => None end) uses.

(** A dial of [addrs]: it goes through them in order; every channel it opens
    it closes, except the one that proved the identity it returns, if it
    returns one. *)
Definition dial_ok (expected : option PeerId) (addrs : list MultiAddr) (attempt : nat → MultiAddr → BootstrapDial)
    (out : option PeerId * list ChannelUse) : Prop :=
  match out.1 with
  | None => opened out.2 = closed out.2 ∧ tried out.2 = addrs
  | Some p => ∃ ch i a rest, opened out.2 = closed out.2 ++ [ch] ∧ addrs = tried out.2 ++ rest ∧ last (tried out.2) = Some a ∧
      attempt i a = Identified ch p ∧ ∀ e, expected = Some e → e = p
  end.

Lemma dial_addrs_ok attempt expected addrs : ∀ i, dial_ok expected addrs attempt (dial_addrs attempt expected i addrs).
Proof.
  induction addrs as [|a addrs IH]; intros i; [done|]. specialize (IH (S i)). cbn [dial_addrs]. unfold dial_ok in *.
  assert (Hagain : ∀ uses, opened uses = closed uses → tried uses = [] →
    let out := (let '(r, more) := dial_addrs attempt expected (S i) addrs in (r, Dialled a :: uses ++ more)) in
    match out.1 with
    | None => opened out.2 = closed out.2 ∧ tried out.2 = a :: addrs
    | Some p => ∃ ch j b rest, opened out.2 = closed out.2 ++ [ch] ∧ a :: addrs = tried out.2 ++ rest ∧ last (tried out.2) = Some b ∧
        attempt j b = Identified ch p ∧ ∀ e, expected = Some e → e = p
    end).
  { intros uses Huses Htried. destruct (dial_addrs attempt expected (S i) addrs) as [r more]. cbn [fst snd] in *.
    assert (Ho : opened (Dialled a :: uses ++ more) = closed uses ++ opened more) by (rewrite <-Huses; apply omap_app).
    assert (Hc : closed (Dialled a :: uses ++ more) = closed uses ++ closed more) by apply omap_app.
    assert (Ht : tried (Dialled a :: uses ++ more) = a :: tried more).
    { cbn. f_equal. change (tried (uses ++ more) = tried more). unfold tried in *. by rewrite omap_app, Htried. }
    rewrite Ho, Hc, Ht. destruct r as [p|].
    - destruct IH as (ch & j & b & rest & -> & -> & Hlast & Hj & He). exists ch, j, b, rest. rewrite (assoc_L (++)).
      split_and!; try done. rewrite last_cons, Hlast. done.
    - destruct IH as [-> ->]. done. }
  destruct (attempt i a) as [|ch|ch p] eqn:Ha; [by apply Hagain..|].
  destruct (bootstrap_peer_identity_matches expected p) eqn:Hm; [|by apply Hagain]. cbn [fst snd].
  exists ch, i, a, addrs. split_and!; try done. intros e ->. cbn in Hm. by apply bool_decide_eq_true in Hm.
Qed.

Lemma dial_believed c : late env (position_ c) = false ∨ source c ≠ FromSnapshot →
  dial_ok (expected c) (candidate_addrs c) (attempts env (source c) (position_ c)) (dial c).
Proof.
  unfold dial, dial_bootstrap_addr_set. intros Hl. destruct (source c); [apply dial_addrs_ok..|].
  destruct Hl as [->|]; [apply dial_addrs_ok|done].
Qed.

(** ** How many *)

Lemma successes_snoc l c : length (successes (l ++ [c])) = length (successes l) + if bool_decide (is_Some (dial c).1) then 1 else 0.
Proof.
  unfold successes. rewrite omap_app, length_app. cbn. destruct (dial c).1 as [p|]; case_bool_decide as H; try done; by destruct H.
Qed.

Lemma target_step client base l c :
  base + length (successes l) < CLIENT_BOOTSTRAP_TARGET →
  bool_decide (is_Some (dial c).1) && target_reached client (base + length (successes (l ++ [c]))) = false →
  client = true → base + length (successes (l ++ [c])) < CLIENT_BOOTSTRAP_TARGET.
Proof.
  intros Hl Hgo ->. rewrite successes_snoc in *. unfold target_reached in Hgo. cbn [andb] in Hgo.
  case_bool_decide as Hs; [|lia]. cbn [andb] in Hgo. apply Nat.leb_gt in Hgo. lia.
Qed.

Lemma serial_count l : ∀ completed, length (successes completed) < CLIENT_BOOTSTRAP_TARGET →
  length (successes (serial_phase true l completed)) ≤ CLIENT_BOOTSTRAP_TARGET.
Proof.
  induction l as [|c l IH]; intros completed Hc; cbn [serial_phase]; [lia|].
  destruct (_ && _) eqn:Hgo; [rewrite successes_snoc; destruct (bool_decide _); lia|]. apply IH.
  by apply (target_step true 0).
Qed.

Lemma serial_all l : ∀ completed, serial_phase false l completed = completed ++ l.
Proof.
  induction l as [|c l IH]; intros completed; cbn [serial_phase]; [by rewrite app_nil_r|].
  unfold target_reached. cbn [andb]. rewrite andb_false_r, IH. by rewrite <-(assoc_L (++)).
Qed.

Lemma serial_prefix client l : ∀ completed, ∃ rest, completed ++ l = serial_phase client l completed ++ rest.
Proof.
  induction l as [|c l IH]; intros completed; cbn [serial_phase]; [by exists []|].
  destruct (_ && _); [exists l; by rewrite <-(assoc_L (++))|]. destruct (IH (completed ++ [c])) as [rest Hrest].
  exists rest. by rewrite <-Hrest, <-(assoc_L (++)).
Qed.

(** ** The whole bootstrap *)

Section whole.
Context (restore : gset SocketAddr → option (list (PeerId * list MultiAddr))).

Definition queued_addresses : gset SocketAddr := (parallel_addr_sets configured (serial_addr_sets self cache).2).2.
Definition cache_candidates : list Candidate := candidates FromCache ((λ x, (Some x.1, x.2)) <$> (serial_addr_sets self cache).1).
Definition config_candidates : list Candidate :=
  candidates FromConfig ((λ l, (None, l)) <$> (parallel_addr_sets configured (serial_addr_sets self cache).2).1).
Definition snapshot_candidates : list Candidate :=
  candidates FromSnapshot ((λ x, (Some x.1, x.2)) <$> default [] (if client_mode then None else restore queued_addresses)).

Abbreviation the_run := (connect_bootstrap_peers restore).
Definition dialled (r : BootstrapRun) : list Candidate := dialled_serial r ++ dialled_parallel r ++ dialled_snapshot r.

Definition config_phase (phase_a : list Candidate) : list Candidate * list Candidate * list Candidate :=
  if negb client_mode || (length (successes phase_a) <? CLIENT_BOOTSTRAP_TARGET)%nat then
    run_stream MAX_CONCURRENT_BOOTSTRAP_DIALS (picks env FromConfig)
      (λ completed, bool_decide (is_Some (last completed ≫= λ c, (dial c).1)) &&
                    target_reached client_mode (length (successes phase_a) + length (successes completed))) config_candidates
  else ([], [], []).
Definition run_end_of (r : BootstrapRun) : BootstrapEnd :=
  match successes (dialled_serial r) ++ successes (dialled_parallel r), successes (dialled_snapshot r) with
  | [], [] => match transport_peers env with [] => NotConnected | seeds => BootstrappedFrom seeds end
  | connected, _ => BootstrappedFrom connected
  end.

(** A run is its three phases. *)
Lemma run_phases :
  dialled_serial the_run = serial_phase client_mode cache_candidates [] ∧
  dialled_parallel the_run = (config_phase (dialled_serial the_run)).1.1 ∧
  dropped_parallel the_run = (config_phase (dialled_serial the_run)).1.2 ∧
  dialled_snapshot the_run = (run_stream MAX_CONCURRENT_SNAPSHOT_DIALS (picks env FromSnapshot) (λ _, false) snapshot_candidates).1.1 ∧
  (run_end the_run = run_end_of the_run ∨ run_end the_run = NoCandidates ∧ dialled the_run = []).
Proof.
  unfold connect_bootstrap_peers, run_end_of, config_phase, cache_candidates, config_candidates, snapshot_candidates, queued_addresses, dialled.
  destruct (serial_addr_sets self cache) as [serial seen1]. cbn [fst snd]. destruct (parallel_addr_sets configured seen1) as [parallel seen2].
  cbn [fst snd]. set (snap := if client_mode then None else restore seen2).
  assert (Hno : serial = [] → parallel = [] → snap = None →
    serial_phase client_mode (candidates FromCache ((λ x, (Some x.1, x.2)) <$> serial)) [] = [] ∧
    candidates FromConfig ((λ l, (None, l)) <$> parallel) = [] ∧
    candidates FromSnapshot ((λ x, (Some x.1, x.2)) <$> default [] snap) = []) by (by intros -> -> ->).
  destruct serial as [|x serial]; [destruct parallel as [|y parallel]; [destruct snap as [l|] eqn:Hsnap|]|].
  2: { cbn. destruct (negb client_mode || _); cbn; split_and!; try done; by right. }
  all: clear Hno; match goal with |- context [let '(_, _) := ?e in _] => destruct e as [[phase_b dropped] waiting] eqn:Hb end;
    cbn [dialled_serial dialled_parallel dropped_parallel dialled_snapshot run_end] in *; rewrite ?Hb; split_and!; try done; left.
  all: destruct (successes _ ++ successes phase_b); done.
Qed.

Lemma config_phase_perm phase_a :
  let '(c, f, w) := config_phase phase_a in c ++ f ++ w ⊆+ config_candidates.
Proof.
  unfold config_phase. destruct (_ || _); [|apply submseteq_nil_l].
  match goal with |- context [run_stream ?a ?b ?c ?d] => pose proof (stream_perm a b c d) as Hp; destruct (run_stream a b c d) as [[x y] z] end.
  by rewrite Hp.
Qed.

Lemma config_phase_count : client_mode = true → ∀ phase_a, length (successes phase_a) ≤ CLIENT_BOOTSTRAP_TARGET →
  length (successes phase_a) + length (successes (config_phase phase_a).1.1) ≤ CLIENT_BOOTSTRAP_TARGET.
Proof.
  intros Hc phase_a Ha. unfold config_phase. rewrite Hc. cbn [negb orb].
  destruct (Nat.ltb_spec (length (successes phase_a)) CLIENT_BOOTSTRAP_TARGET) as [Hlt|]; [|cbn; lia].
  unfold run_stream.
  apply (buffer_count (λ l, length (successes phase_a) + length (successes l)) CLIENT_BOOTSTRAP_TARGET).
  - intros l c. rewrite successes_snoc. destruct (bool_decide _); lia.
  - intros l c Hl. rewrite last_snoc. cbn [mbind option_bind]. intros Hgo. by apply (target_step true).
  - cbn. lia.
Qed.

Lemma config_phase_dropped phase_a : length (config_phase phase_a).1.2 ≤ MAX_CONCURRENT_BOOTSTRAP_DIALS.
Proof.
  unfold config_phase. destruct (_ || _); [|cbn; lia]. unfold run_stream.
  match goal with |- context [buffer_unordered ?a ?b ?c ?d ?e ?f ?g] =>
    pose proof (buffer_drained a b c d ltac:(unfold MAX_CONCURRENT_BOOTSTRAP_DIALS; lia) e f g ltac:(cbn; lia) ltac:(cbn; lia)) as H;
    destruct (buffer_unordered a b c d e f g) as [[x y] z] end.
  apply H.
Qed.


End whole.
End bootstrap.
