(* ===== verification/BootstrapSamples.v ===== *)
(** * A restart at work

    A JSON codec, the files of a node, and bootstraps against a small network:
    the theorems of [Snapshots] and [Bootstrap] applied, and a peer that is
    dialled twice. *)

From Stdlib Require Import Ascii String SpecFloat.
From stdpp Require Import prelude gmap strings.
From S2P Require Import Prelude Tasks Float Keys Ip Address Models PeerRecord Trust Snapshots Bootstrap.

Module BootstrapSamples.

#[local] Existing Instance plain_transport.
#[local] Existing Instance plain_hex.

(** ** A codec: the binary digits of a document *)

Fixpoint digits_text (p : positive) : string :=
  match p with
  | xH => EmptyString
  | xO p => String "0" (digits_text p)
  | xI p => String "1" (digits_text p)
  end.
Fixpoint text_of_digits (t : string) : positive :=
  match t with
  | EmptyString => xH
  | String c t => if Ascii.eqb c "0" then xO (text_of_digits t) else xI (text_of_digits t)
  end.
Lemma text_digits p : text_of_digits (digits_text p) = p.
Proof. induction p as [p IH|p IH|]; cbn; [by rewrite IH..|done]. Qed.

Definition snapshot_tuple (d : SnapshotDoc) : N * string * N * list (string * list string) :=
  (doc_version d, doc_owner d, doc_saved_at d, doc_peers d).
Definition tuple_snapshot (x : N * string * N * list (string * list string)) : SnapshotDoc := mk_snapshot_doc x.1.1.1 x.1.1.2 x.1.2 x.2.
#[local] Instance snapshot_doc_eq_dec : EqDecision SnapshotDoc.
Proof. solve_decision. Defined.
#[local] Instance snapshot_doc_countable : Countable SnapshotDoc :=
  inj_countable' snapshot_tuple tuple_snapshot (λ d, match d with mk_snapshot_doc _ _ _ _ => eq_refl end).

Definition float_tuple (x : spec_float) : option (option bool + bool * positive * Z) + bool :=
  match x with
  | S754_zero s => inr s
  | S754_infinity s => inl (Some (inl (Some s)))
  | S754_nan => inl None
  | S754_finite s m e => inl (Some (inr (s, m, e)))
  end.
Definition tuple_float (x : option (option bool + bool * positive * Z) + bool) : spec_float :=
  match x with
  | inr s => S754_zero s
  | inl (Some (inl (Some s))) => S754_infinity s
  | inl None | inl (Some (inl None)) => S754_nan
  | inl (Some (inr (s, m, e))) => S754_finite s m e
  end.
#[local] Instance float_countable : Countable spec_float :=
  inj_countable' float_tuple tuple_float (λ x, match x with S754_zero _ | S754_infinity _ | S754_nan | S754_finite _ _ _ => eq_refl end).
#[local] Instance trust_record_eq_dec : EqDecision TrustRecord.
Proof. solve_decision. Defined.
#[local] Instance trust_record_countable : Countable TrustRecord :=
  inj_countable' (λ r, (record_score r, last_updated_epoch_secs r)) (λ x, mk_trust_record x.1 x.2)
    (λ r, match r with mk_trust_record _ _ => eq_refl end).
#[local] Instance cache_doc_eq_dec : EqDecision CacheDoc.
Proof. solve_decision. Defined.
#[local] Instance cache_doc_countable : Countable CacheDoc :=
  inj_countable' (λ d, (doc_cached d, doc_cache_saved_at d)) (λ x, mk_cache_doc x.1 x.2) (λ d, match d with mk_cache_doc _ _ => eq_refl end).

Definition cache_parse (t : string) : option CacheDoc := d ← decode (text_of_digits t); if finite_doc d then Some d else None.
Lemma snapshot_codec (d : SnapshotDoc) : decode (text_of_digits (digits_text (encode d))) = Some d.
Proof. by rewrite text_digits, decode_encode. Qed.
Lemma cache_codec (d : CacheDoc) : finite_doc d = true → cache_parse (digits_text (encode d)) = Some d.
Proof. intros Hd. unfold cache_parse. rewrite text_digits, decode_encode. cbn [mbind option_bind]. by rewrite Hd. Qed.

#[local] Instance plain_json : JsonLib := {|
  snapshot_to_json d := digits_text (encode d);
  snapshot_from_json t := decode (text_of_digits t);
  cache_to_json d := digits_text (encode d);
  cache_from_json := cache_parse;
  snapshot_json_roundtrip := snapshot_codec;
  cache_json_roundtrip := cache_codec;
|}.

(** ** A node and its table *)

Definition peer (n : Z) : PeerId := key_of_bytes [n].
Definition at_host (n : Z) : MultiAddr := from_ipv4 (ipv4 203 0 113 n) 9000.
Definition known (p : Z) (hosts : list Z) : DHTNode :=
  {| node_peer_id := peer p; addresses := at_host <$> hosts; address_types := []; distance := None;
     reliability := S754_zero false; address_authority := None |}.
Definition entry (p : Z) (hosts : list Z) : SnapshotPeer := mk_snapshot_peer (peer p) (at_host <$> hosts).
Definition me : PeerId := peer 0.

Definition of_three : RoutingSnapshot := snapshot_new me 1000 [entry 1 [11; 12; 13]%Z; entry 2 [21]%Z; entry 3 [11]%Z].
Definition old_file : DiskFile := regular (snapshot_json of_three).

Lemma roundtrip_witness :
  usable_snapshot me 2000 (snapshot_save (snapshot_new me 1000 [entry 1 [11; 12; 13]%Z; entry 2 [21]%Z; entry 3 [11]%Z]) None Missing).2 =
  Some [entry 1 [11; 12; 13]%Z; entry 2 [21]%Z; entry 3 [11]%Z].
Proof.
  rewrite (snapshot_roundtrip me me 1000 2000 [entry 1 [11; 12; 13]%Z; entry 2 [21]%Z; entry 3 [11]%Z] None Missing); [done|].
  apply N.leb_le. vm_compute. reflexivity.
Defined.

Lemma dials_witness :
  routing_snapshot_dial_sets true me 2000 old_file ∅ = Some [(peer 1, [at_host 11; at_host 12]); (peer 2, [at_host 21])] ∧
  NoDup (fst <$> [(peer 1, [at_host 11; at_host 12]); (peer 2, [at_host 21])]).
Proof.
  assert (H : routing_snapshot_dial_sets true me 2000 old_file ∅ = Some [(peer 1, [at_host 11; at_host 12]); (peer 2, [at_host 21])]) by by_decide.
  split; [exact H|]. destruct (snapshot_dials_bounded me 2000 old_file ∅ _ H) as (_ & Hnd & _). exact Hnd.
Defined.

(** Stopped a minute after the start with one peer of three: the old file
    stays.  An hour later the smaller table is written. *)
Definition stored (ops : list StoreOp) (order : list nat) : pool Stored :=
  schedule (store_task Node true me <$> ops) order (stored_new old_file Missing).
Definition score (_ : PeerId) : spec_float := f64_one.
Definition early : pool Stored :=
  stored [Restore 2000 2000; TableChanges [known 1 [11]%Z] [known 1 [11]%Z]; SaveBoth score 2060 2060 None None] (concat (replicate 8 <$> [0; 1; 2])).
Definition much_later : pool Stored :=
  stored [Restore 2000 2000; TableChanges [known 1 [11]%Z] [known 1 [11]%Z]; SaveBoth score 9000 9000 None None] (concat (replicate 8 <$> [0; 1; 2])).

Lemma stored_reached ops order : rtc (pool_step (store_tasks Node true me)) ([], stored_new old_file Missing) ((stored ops order).1, (stored ops order).2).
Proof. rewrite <-surjective_pairing. apply schedule_rtc. apply Forall_fmap, Forall_true. intros o. by exists o. Qed.

#[local] Instance disk_file_eq_dec : EqDecision DiskFile.
Proof. solve_decision. Defined.


(** ** A bootstrap *)

(** Host [n] is peer [n / 10]; host 29 answers as somebody else, and hosts
    from 200 on do not answer. *)
Definition host_of (a : MultiAddr) : Z := match ip a with Some (V4 a) => octet a 3 | _ => 0%Z end.
Definition answers (a : MultiAddr) : BootstrapDial :=
  let h := host_of a in
  if (200 <=? h)%Z then ConnectError
  else if (h =? 29)%Z then Identified "stranger" (peer 99)
  else Identified "channel" (peer (h / 10)).
Definition network : BootstrapEnv :=
  {| attempts _ _ _ a := answers a; picks _ := [1; 0; 3]; late _ := false; transport_peers := [] |}.

Definition cached (p : Z) (s : spec_float) (hosts : list Z) : CachedCloseGroupPeer :=
  mk_cached (peer p) (at_host <$> hosts) (mk_trust_record s 0).
Definition the_cache : CloseGroupCache := mk_cache [cached 1 f64_zero [10]%Z; cached 2 f64_one [29; 20]%Z] 900.
Definition restarted (mode : NodeMode) : BootstrapRun :=
  connect_bootstrap_peers network mode me (Some the_cache) [at_host 201; at_host 30] (routing_snapshot_dial_sets true me 2000 old_file).

#[local] Instance bootstrap_end_eq_dec : EqDecision BootstrapEnd.
Proof. solve_decision. Defined.

(** The most trusted peer first; the stranger is not believed; peer 1 and
    peer 2 are dialled again, at the addresses of the snapshot. *)
Lemma dialled_twice :
  run_end (restarted Node) = BootstrappedFrom [peer 2; peer 1; peer 3] ∧
  expected <$> dialled_serial (restarted Node) = [Some (peer 2); Some (peer 1)] ∧
  (peer 1 ∈ omap expected (dialled_serial (restarted Node))) ∧ (peer 1 ∈ omap expected (dialled_snapshot (restarted Node))).
Proof. split_and!; by_decide. Qed.
End BootstrapSamples.
