(* ===== verification/DialCoordinator.v ===== *)
(** * The dial coordinator

    [ensure_peer_channel] and [run_owned_dial] of
    [src/dht_network_manager.rs]: concurrent requests for a channel to the
    same peer collapse onto one dial.  The first caller owns it and performs
    its side effects; the others wait for the broadcast of its outcome.  The
    interleaving of callers, of the connections the transport makes on its
    own and of cancelled owners is a step relation. *)

From Stdlib Require Import SpecFloat.
From stdpp Require Import prelude gmap strings.
From S2P Require Import Prelude Float Keys Ip Address PeerRecord RateLimit DialFailure DialPolicy Trust.

Inductive PendingDialOutcome :=
  | Connected
  | DialFailed (candidates_count : nat)
  | IdentityFailed (err : string)
  | IdentityMismatch (actual : PeerId).

(** The errors [ensure_peer_channel] returns, without their text. *)
Inductive ChannelError :=
  | FailedToDial (peer : PeerId) (candidates_count : nat)
  | IdentityExchangeFailed (peer : PeerId) (err : string)
  | MismatchedIdentity (expected actual : PeerId)
  | InFlightDialDropped (peer : PeerId)
  | SuppressedRecentFailure (peer : PeerId).

#[export] Instance ChannelError_eq_dec : EqDecision ChannelError.
Proof. solve_decision. Defined.

Definition into_result (o : PendingDialOutcome) (peer : PeerId) : result unit ChannelError :=
  match o with
  | Connected => Ok tt
  | DialFailed n => Err (FailedToDial peer n)
  | IdentityFailed err => Err (IdentityExchangeFailed peer err)
  | IdentityMismatch actual => Err (MismatchedIdentity peer actual)
  end.

Section coordinator.
Context `{TL : TransportLib} `{FM : FloatMath} (normalize_socket_addr : SocketAddr → SocketAddr).

(** What an owned dial meets: the local networks, the peer's candidates,
    whether the transport already has the peer when the dial starts, the
    transport's answers and the clock. *)
Record DialEnv := mk_dial_env {
  env_context : DialAddressContext;
  env_candidates : list (MultiAddr * AddressType);
  env_connected : bool;
  env_connect : nat → MultiAddr → AddressType → option string;
  env_clock : nat → Z;
  env_identity : string → result PeerId string;
  env_now : Z;
}.

(** The shared state an owned dial changes. *)
Record Shared := mk_shared {
  dial_failures : DialFailureCache;
  identity_failures : IdentityFailureCache;
  trust : option TrustEngine;
  disconnected : list string;
}.

(** [record_peer_failure]: nothing without a trust engine. *)
Definition record_peer_failure (t : option TrustEngine) (peer : PeerId) (now : Z) : option TrustEngine :=
  (λ e, update_node_stats e peer FailedResponse now) <$> t.

Definition run_owned_dial (sh : Shared) (peer : PeerId) (env : DialEnv) : PendingDialOutcome * Shared :=
  let '(dialled, failures, _) :=
    dial_addresses normalize_socket_addr (env_connect env) (env_clock env) peer (env_connected env)
      (env_context env) (env_candidates env) (dial_failures sh) in
  match dialled with
  | None =>
      (DialFailed (length (env_candidates env)),
       mk_shared failures (identity_failures sh) (record_peer_failure (trust sh) peer (env_now env)) (disconnected sh))
  | Some channel_id =>
      match env_identity env channel_id with
      | Ok authenticated =>
          if bool_decide (authenticated = peer)
          then (Connected, mk_shared failures (identity_clear (identity_failures sh) peer) (trust sh) (disconnected sh))
          else (IdentityMismatch authenticated,
                mk_shared failures (identity_record_mismatch (identity_failures sh) peer (env_now env)) (trust sh)
                  (disconnected sh))
      | Err e =>
          (IdentityFailed e,
           mk_shared failures (identity_record_failure (identity_failures sh) peer (env_now env))
             (record_peer_failure (trust sh) peer (env_now env)) (channel_id :: disconnected sh))
      end
  end.

(** ** Callers *)

Abbreviation CallId := nat.

(** [checked] are the calls past the fast path, about to look at the map of
    pending dials; [pending] gives for each peer the owner of its dial and the
    calls that joined it; [evicted] are the peers removed from the routing
    table after a mismatch. *)
Record Coordinator := mk_coordinator {
  shared : Shared;
  connected : gset PeerId;
  checked : list (CallId * PeerId);
  pending : gmap PeerId (CallId * list CallId);
  results : list (CallId * result unit ChannelError);
  evicted : list PeerId;
}.

Implicit Types (s : Coordinator) (id : CallId) (peer : PeerId).

Definition with_result s (r : list (CallId * result unit ChannelError)) : list (CallId * result unit ChannelError) :=
  r ++ results s.

(** A call returns at once when the peer is connected. *)
Definition call_starts s id peer : Coordinator :=
  if bool_decide (peer ∈ connected s)
  then mk_coordinator (shared s) (connected s) (checked s) (pending s) (with_result s [(id, Ok tt)]) (evicted s)
  else mk_coordinator (shared s) (connected s) ((id, peer) :: checked s) (pending s) (results s) (evicted s).

(** It joins the pending dial of the peer or, failing that, claims the slot,
    unless a recent identity failure suppresses it. *)
Definition call_claims s id peer (rest : list (CallId * PeerId)) (now : Z) : Coordinator :=
  match pending s !! peer with
  | Some (owner, joined) =>
      mk_coordinator (shared s) (connected s) rest (<[peer := (owner, id :: joined)]> (pending s)) (results s) (evicted s)
  | None =>
      let '(failed, cache) := identity_is_failed (identity_failures (shared s)) peer now in
      let sh := mk_shared (dial_failures (shared s)) cache (trust (shared s)) (disconnected (shared s)) in
      if failed
      then mk_coordinator sh (connected s) rest (pending s)
             (with_result s [(id, Err (SuppressedRecentFailure peer))]) (evicted s)
      else mk_coordinator sh (connected s) rest (<[peer := (id, [])]> (pending s)) (results s) (evicted s)
  end.

(** The owner is done: eviction on a mismatch, the slot cleared, the outcome
    broadcast and returned. *)
Definition owner_finishes s peer (owner : CallId) (joined : list CallId) (env : DialEnv) : Coordinator :=
  let '(outcome, sh) := run_owned_dial (shared s) peer env in
  mk_coordinator sh (connected s) (checked s) (delete peer (pending s))
    (with_result s ((λ id, (id, into_result outcome peer)) <$> owner :: joined))
    (match outcome with IdentityMismatch _ => peer :: evicted s | _ => evicted s end).

(** The owner's task is dropped: its guard clears the slot, the calls that had
    joined fail, and the owner itself never returns. *)
Definition owner_dropped s peer (joined : list CallId) : Coordinator :=
  mk_coordinator (shared s) (connected s) (checked s) (delete peer (pending s))
    (with_result s ((λ id, (id, Err (InFlightDialDropped peer))) <$> joined)) (evicted s).

(** What happened, for the specification: each event names the calls it is
    about, and the end of a dial what the dial met and how it ended. *)
Inductive Event :=
  | FastPath id peer
  | Passed id peer
  | Joined id peer
  | Suppressed id peer
  | Claimed id peer
  | Finished peer (owner : CallId) (joined : list CallId) (env : DialEnv) (outcome : PendingDialOutcome)
  | Dropped peer (owner : CallId) (joined : list CallId)
  | TransportChanged.

Definition start_event s id peer : Event :=
  if bool_decide (peer ∈ connected s) then FastPath id peer else Passed id peer.

Definition claim_event s id peer (now : Z) : Event :=
  match pending s !! peer with
  | Some _ => Joined id peer
  | None =>
      if (identity_is_failed (identity_failures (shared s)) peer now).1 then Suppressed id peer else Claimed id peer
  end.

(** One step.  The dial of an owner is a single step, taken when it ends: the
    calls that join it and the connections the transport makes meanwhile are
    earlier steps. *)
Inductive coordinator_step : Coordinator → Event → Coordinator → Prop :=
  | step_call s id peer : coordinator_step s (start_event s id peer) (call_starts s id peer)
  | step_claim s id peer l1 l2 now :
      checked s = l1 ++ (id, peer) :: l2 →
      coordinator_step s (claim_event s id peer now) (call_claims s id peer (l1 ++ l2) now)
  | step_finish s peer owner joined env :
      pending s !! peer = Some (owner, joined) →
      coordinator_step s (Finished peer owner joined env (run_owned_dial (shared s) peer env).1)
        (owner_finishes s peer owner joined env)
  | step_drop s peer owner joined :
      pending s !! peer = Some (owner, joined) →
      coordinator_step s (Dropped peer owner joined) (owner_dropped s peer joined)
  | step_transport s c' :
      coordinator_step s TransportChanged
        (mk_coordinator (shared s) c' (checked s) (pending s) (results s) (evicted s)).

(** The states reachable from shared state [sh], with the events so far, the
    latest first. *)
Definition coordinator_new (sh : Shared) (c : gset PeerId) : Coordinator := mk_coordinator sh c [] ∅ [] [].

Inductive coordinator_run (sh : Shared) : list Event → Coordinator → Prop :=
  | run_new c : coordinator_run sh [] (coordinator_new sh c)
  | run_step log s ev s' :
      coordinator_run sh log s → coordinator_step s ev s' → coordinator_run sh (ev :: log) s'.

(** ** The specification: what follows from the events alone *)

Definition issued_by (ev : Event) : list CallId :=
  match ev with FastPath id _ | Passed id _ => [id] | _ => [] end.

(** A dropped owner's task is gone: nobody waits for its answer. *)
Definition lost_by (ev : Event) : list CallId :=
  match ev with Dropped _ owner _ => [owner] | _ => [] end.

Definition answers (ev : Event) : list (CallId * result unit ChannelError) :=
  match ev with
  | FastPath id _ => [(id, Ok tt)]
  | Suppressed id peer => [(id, Err (SuppressedRecentFailure peer))]
  | Finished peer owner joined _ outcome => (λ id, (id, into_result outcome peer)) <$> owner :: joined
  | Dropped peer _ joined => (λ id, (id, Err (InFlightDialDropped peer))) <$> joined
  | _ => []
  end.

(** The dial of a peer in flight after some events: its owner and the calls
    that joined since. *)
Fixpoint in_flight (log : list Event) peer : option (CallId * list CallId) :=
  match log with
  | [] => None
  | ev :: before =>
      match ev with
      | Claimed id q => if bool_decide (q = peer) then Some (id, []) else in_flight before peer
      | Joined id q =>
          if bool_decide (q = peer)
          then (λ d, (d.1, id :: d.2)) <$> in_flight before peer
          else in_flight before peer
      | Finished q _ _ _ _ | Dropped q _ _ => if bool_decide (q = peer) then None else in_flight before peer
      | _ => in_flight before peer
      end
  end.

(** The trust engine the events lead to: one failure per dial that failed,
    none for the calls that joined it, and none for a mismatch. *)
Fixpoint penalties (log : list Event) (t : option TrustEngine) : option TrustEngine :=
  match log with
  | [] => t
  | Finished peer _ _ env (DialFailed _ | IdentityFailed _) :: before =>
      record_peer_failure (penalties before t) peer (env_now env)
  | _ :: before => penalties before t
  end.

Definition mismatch_of (ev : Event) : list PeerId :=
  match ev with Finished peer _ _ _ (IdentityMismatch _) => [peer] | _ => [] end.

(** ** Proofs *)

(** The calls that wait on a dial in flight. *)
Definition waiting (m : gmap PeerId (CallId * list CallId)) : list CallId :=
  map_to_list m ≫= λ e, e.2.1 :: e.2.2.

Lemma waiting_insert m peer d : m !! peer = None → waiting (<[peer := d]> m) ≡ₚ (d.1 :: d.2) ++ waiting m.
Proof. intros Hp. unfold waiting. by rewrite (map_to_list_insert _ _ _ Hp). Qed.

Lemma waiting_delete m peer d : m !! peer = Some d → waiting m ≡ₚ (d.1 :: d.2) ++ waiting (delete peer m).
Proof.
  intros Hp. rewrite <-(insert_delete_id m peer d Hp) at 1. apply waiting_insert, lookup_delete_eq.
Qed.

Lemma waiting_join m peer owner joined id :
  m !! peer = Some (owner, joined) → waiting (<[peer := (owner, id :: joined)]> m) ≡ₚ id :: waiting m.
Proof.
  intros Hp. rewrite (waiting_delete m peer _ Hp), <-insert_delete_eq, waiting_insert by apply lookup_delete_eq.
  solve_Permutation.
Qed.

Lemma claim_cases s id peer rest now :
  match pending s !! peer with
  | Some (owner, joined) =>
      claim_event s id peer now = Joined id peer ∧
      call_claims s id peer rest now =
        mk_coordinator (shared s) (connected s) rest (<[peer := (owner, id :: joined)]> (pending s)) (results s) (evicted s)
  | None =>
      ∃ cache, let sh := mk_shared (dial_failures (shared s)) cache (trust (shared s)) (disconnected (shared s)) in
      (claim_event s id peer now = Suppressed id peer ∧
       call_claims s id peer rest now =
         mk_coordinator sh (connected s) rest (pending s)
           ((id, Err (SuppressedRecentFailure peer)) :: results s) (evicted s)) ∨
      (claim_event s id peer now = Claimed id peer ∧
       call_claims s id peer rest now =
         mk_coordinator sh (connected s) rest (<[peer := (id, [])]> (pending s)) (results s) (evicted s))
  end.
Proof.
  unfold claim_event, call_claims. destruct (pending s !! peer) as [[owner joined]|]; [done|].
  destruct (identity_is_failed _ peer now) as [[] cache]; exists cache; [by left|by right].
Qed.

(** The case analysis of a step, with the branches of its call evaluated. *)
Local Ltac step_cases Hstep :=
  let id := fresh "id" in let peer := fresh "peer" in let now := fresh "now" in
  destruct Hstep as [s id peer|s id peer l1 l2 now Hchecked|s peer owner joined env Hp|s peer owner joined Hp|s c'];
  [ unfold start_event, call_starts; destruct (decide (peer ∈ connected s));
    [rewrite !bool_decide_true by done|rewrite !bool_decide_false by done]
  | pose proof (claim_cases s id peer (l1 ++ l2) now) as Hclaim;
    destruct (pending s !! peer) as [[owner joined]|] eqn:Hp;
    [destruct Hclaim as [-> ->]|destruct Hclaim as [cache [[-> ->]|[-> ->]]]]
  | unfold owner_finishes; destruct (run_owned_dial (shared s) peer env) as [outcome sh] eqn:Hdial
  | unfold owner_dropped
  | ].

Lemma step_results s ev s' : coordinator_step s ev s' → results s' = answers ev ++ results s.
Proof. intros Hstep. by step_cases Hstep. Qed.

Lemma step_evicted s ev s' : coordinator_step s ev s' → evicted s' = mismatch_of ev ++ evicted s.
Proof. intros Hstep. step_cases Hstep; try done. by destruct outcome. Qed.

Lemma step_conserved s ev s' :
  coordinator_step s ev s' →
  issued_by ev ++ (checked s).*1 ++ waiting (pending s) ++ (results s).*1
  ≡ₚ lost_by ev ++ (checked s').*1 ++ waiting (pending s') ++ (results s').*1.
Proof.
  intros Hstep. step_cases Hstep; cbn [issued_by lost_by checked results pending]; unfold with_result;
    rewrite ?Hchecked, ?fmap_app, ?fmap_cons, <-?list_fmap_compose, ?list_fmap_id; try solve_Permutation.
  - rewrite (waiting_join _ _ _ _ id Hp). solve_Permutation.
  - rewrite (waiting_insert _ _ (id, []) Hp). solve_Permutation.
  - rewrite (waiting_delete _ _ _ Hp). solve_Permutation.
  - rewrite (waiting_delete _ _ _ Hp). solve_Permutation.
Qed.

(** The map of pending dials is what the events say is in flight. *)
Lemma step_in_flight s ev s' log :
  coordinator_step s ev s' → (∀ p, pending s !! p = in_flight log p) →
  (∀ p, pending s' !! p = in_flight (ev :: log) p) ∧
  match ev with
  | Claimed _ peer => in_flight log peer = None
  | Finished peer owner joined _ _ | Dropped peer owner joined => in_flight log peer = Some (owner, joined)
  | _ => True
  end.
Proof.
  intros Hstep Hlog. step_cases Hstep; cbn [pending in_flight]; rewrite <-?Hlog; (split; [|done]).
  all: intros p; rewrite <-?Hlog; try done; case_bool_decide; subst.
  all: rewrite ?Hp, ?lookup_insert_eq, ?lookup_delete_eq; try done.
  all: by rewrite ?lookup_insert_ne, ?lookup_delete_ne.
Qed.

(** The outcome of an owned dial and its effect on trust and channels. *)
Lemma owned_dial_spec sh peer env :
  let out := run_owned_dial sh peer env in
  match out.1 with
  | Connected =>
      trust out.2 = trust sh ∧ disconnected out.2 = disconnected sh ∧ env_connected env = false ∧
      (∃ channel, env_identity env channel = Ok peer) ∧ identity_failures out.2 !! peer = None
  | DialFailed n =>
      trust out.2 = record_peer_failure (trust sh) peer (env_now env) ∧ disconnected out.2 = disconnected sh ∧
      n = length (env_candidates env)
  | IdentityFailed e =>
      trust out.2 = record_peer_failure (trust sh) peer (env_now env) ∧
      (∃ channel, env_identity env channel = Err e ∧ disconnected out.2 = channel :: disconnected sh) ∧
      identity_failures out.2 !! peer = Some (env_now env + IDENTITY_FAILURE_CACHE_TTL)%Z
  | IdentityMismatch actual =>
      trust out.2 = trust sh ∧ disconnected out.2 = disconnected sh ∧ actual ≠ peer ∧
      (∃ channel, env_identity env channel = Ok actual) ∧
      identity_failures out.2 !! peer = Some (env_now env + IDENTITY_MISMATCH_CACHE_TTL)%Z
  end.
Proof.
  cbv zeta. unfold run_owned_dial, dial_addresses. destruct (env_connected env) eqn:Hc; [done|].
  destruct (dial_loop _ _ _ _ _ _) as [[[ch|] failures] dialled]; [|done].
  destruct (env_identity env ch) as [authenticated|e] eqn:Hid; [case_bool_decide as Ha|]; cbn.
  - subst. split_and!; eauto. apply lookup_delete_eq.
  - split_and!; eauto. apply lookup_insert_eq.
  - split_and!; eauto. apply lookup_insert_eq.
Qed.
Lemma run_in_flight sh log s : coordinator_run sh log s → ∀ p, pending s !! p = in_flight log p.
Proof. induction 1 as [c|log s ev s' Hrun IH Hstep]; [done|]. by apply (step_in_flight s ev s' log). Qed.

Lemma step_trust s ev s' t :
  coordinator_step s ev s' → ∀ log, trust (shared s) = penalties log t → trust (shared s') = penalties (ev :: log) t.
Proof.
  intros Hstep log Hlog. step_cases Hstep; cbn [shared trust penalties]; try done.
  pose proof (owned_dial_spec (shared s) peer env) as Hspec. rewrite Hdial in Hspec. cbn in Hspec.
  rewrite <-Hlog. destruct outcome; naive_solver.
Qed.


Lemma step_outcome s peer owner joined env outcome s' :
  coordinator_step s (Finished peer owner joined env outcome) s' → outcome = (run_owned_dial (shared s) peer env).1.
Proof.
  remember (Finished peer owner joined env outcome) as ev eqn:Hev. intros Hstep. revert Hev. destruct Hstep; intros Hev.
  - unfold start_event in Hev. by case_bool_decide.
  - unfold claim_event in Hev. destruct (pending _ !! _); [done|]. by destruct (identity_is_failed _ _ _).1.
  - by simplify_eq.
  - done.
  - done.
Qed.

End coordinator.
