(* ===== verification/ClientRouting.v ===== *)
(** * Client-side routing

    [src/client_routing.rs]: which of several reports about a peer wins, and
    the normalisation of lookup results and witness views.  Hash maps are
    [gmap]s; the order in which the code iterates over one is the parameter
    [HashOrder], and the theorems hold for every order. *)

From Stdlib Require Import SpecFloat.
From stdpp Require Import prelude sorting gmap strings.
From S2P Require Import Prelude Keys Ip Address PeerRecord.

(** ** The winning report *)

Definition QUORUM_TOP_N : nat := 3.
Definition QUORUM_THRESHOLD : nat := 2.
Definition U8_MAX : N := 255.

Abbreviation SubjectReports := (gmap PeerId DHTNode).

Record WitnessedCloseGroup `{TransportLib} := mk_group {
  group_target : Key;
  group_k : nat;
  initial_closest : list DHTNode;
  responder_views : list (PeerId * list DHTNode);
}.

Section routing.
Context `{TL : TransportLib} `{HL : HexLib}.
Implicit Types node candidate existing : DHTNode.

Definition best_tier_priority node : N :=
  default U8_MAX (min_by_key id ((λ p, priority p.2) <$> typed_addresses node)).

Definition report_signature node : list (MultiAddr * N) :=
  sort_by_key (λ a, to_string a.1) ((λ p, (p.1, priority p.2)) <$> typed_addresses node).

Definition owner_view_version node : bool * N :=
  let pub := address_authority node ≫= publication in
  (bool_decide (is_Some pub), from_option verified_sequence (dht_node_publish_seq node) pub).

Definition may_replace_owner_view (current incoming : DHTNode) : bool :=
  leb (owner_view_version current) (owner_view_version incoming).

(** A row of [by_dist]: responder, report, distance to the subject, tier. *)
Record Report := mk_report {
  rid : PeerId;
  report : DHTNode;
  report_distance : Key;
  tier : N;
}.

Definition mk_row (subject_id : PeerId) (r : PeerId * DHTNode) : Report :=
  {| rid := r.1; report := r.2; report_distance := xor_distance r.1 subject_id;
     tier := best_tier_priority r.2 |}.

Definition row_key (r : Report) : Key * N := (report_distance r, tier r).

(** The comparison of rule 1: version, then closer, then stronger tier. *)
Definition authority_key (r : Report) : (bool * N) * (Reverse Key * Reverse N) :=
  (owner_view_version (report r), (mk_reverse (report_distance r), mk_reverse (tier r))).

Definition has_sequence (r : Report) : bool := negb (dht_node_publish_seq (report r) =? 0)%N.

(** The grouping of rule 3, with [entry(sig).or_default().push(rid)]. *)
Definition add_vote (buckets : gmap (list (MultiAddr * N)) (list PeerId)) (r : Report)
    : gmap (list (MultiAddr * N)) (list PeerId) :=
  let sig := report_signature (report r) in
  <[sig := default [] (buckets !! sig) ++ [rid r]]> buckets.

Context `{HO : HashOrder}.

Definition by_dist (subject_id : PeerId) (reports : SubjectReports) : list Report :=
  sort_by_key row_key (mk_row subject_id <$> map_iter reports).

Definition quorum_winner (subject_id : PeerId) (reports : SubjectReports) (top_n : list Report)
    : option (option (PeerId * DHTNode)) :=
  if (QUORUM_THRESHOLD <=? length top_n)%nat then
    let buckets := foldl add_vote ∅ top_n in
    match List.find (λ g, (QUORUM_THRESHOLD <=? length g)%nat) (map_values buckets) with
    | Some group =>
        match min_by_key (λ r, xor_distance r subject_id) group with
        | Some winner_rid => Some ((λ node, (winner_rid, node)) <$> reports !! winner_rid)
        | None => None
        end
    | None => None
    end
  else None.

Definition compute_winner (subject_id : PeerId) (reports : SubjectReports)
    : option (PeerId * DHTNode) :=
  if Nat.eqb (size reports) 0 then None
  else
    let rows := by_dist subject_id reports in
    match max_by_key authority_key (List.filter has_sequence rows) with
    | Some r => Some (rid r, foldl (λ winner r', merge_from winner (report r')) (report r) rows)
    | None =>
        match reports !! subject_id with
        | Some node => Some (subject_id, node)
        | None =>
            match quorum_winner subject_id reports (take (Nat.min (length rows) QUORUM_TOP_N) rows) with
            | Some answer => answer
            | None => (λ r, (rid r, report r)) <$> head rows
            end
        end
    end.

Definition prefer_lookup_record candidate existing : bool :=
  let candidate_seq := dht_node_publish_seq candidate in
  let existing_seq := dht_node_publish_seq existing in
  (existing_seq <? candidate_seq)%N
  || ((candidate_seq =? existing_seq)%N
      && (best_tier_priority candidate <? best_tier_priority existing)%N).

(** ** Result normalisation *)

(** [compare_peer_distance]: the order of distance to the target, then id. *)
Definition compare_peer_distance (key : Key) (p : PeerId) : Key * PeerId :=
  (xor_distance p key, p).

Definition sort_truncate (key : Key) (count : nat) (nodes : list DHTNode) : list DHTNode :=
  take count (sort_by_key (λ n, compare_peer_distance key (node_peer_id n)) nodes).

(** One candidate of [best_nodes] refreshed with its subject's winner. *)
Definition refresh_node (subject_reports : gmap PeerId SubjectReports) node : DHTNode :=
  match subject_reports !! node_peer_id node ≫= compute_winner (node_peer_id node) with
  | Some (_, winner) =>
      if negb (dht_node_publish_seq node =? 0)%N || negb (dht_node_publish_seq winner =? 0)%N
      then merge_from node winner else winner
  | None => node
  end.

Definition apply_one (subject_reports : gmap PeerId SubjectReports)
    (by_peer : gmap PeerId DHTNode) (node0 : DHTNode) : gmap PeerId DHTNode :=
  let node := refresh_node subject_reports node0 in
  match by_peer !! node_peer_id node with
  | Some existing =>
      if negb (dht_node_publish_seq node =? 0)%N || negb (dht_node_publish_seq existing =? 0)%N
      then <[node_peer_id node := merge_from existing node]> by_peer
      else if prefer_lookup_record node existing then <[node_peer_id node := node]> by_peer
      else by_peer
  | None => <[node_peer_id node := node]> by_peer
  end.

Definition apply_lookup_report_winners (best_nodes : list DHTNode)
    (subject_reports : gmap PeerId SubjectReports) (key : Key) (count : nat) : list DHTNode :=
  let by_peer := foldl (apply_one subject_reports) ∅ best_nodes in
  sort_truncate key count (map_values by_peer).

Definition merge_witnessed_node (nodes : gmap PeerId DHTNode) node : gmap PeerId DHTNode :=
  match nodes !! node_peer_id node with
  | Some existing => <[node_peer_id node := merge_from existing node]> nodes
  | None => <[node_peer_id node := node]> nodes
  end.

Definition sort_dedup_witnessed_nodes (nodes : list DHTNode) (key : Key) (count : nat)
    : list DHTNode :=
  sort_truncate key count (map_values (foldl merge_witnessed_node ∅ nodes)).

Definition self_inclusive_responder_view (responder : PeerId) (closest : list DHTNode)
    (known_nodes : gmap PeerId DHTNode) (key : Key) (count : nat) : list DHTNode :=
  let view_nodes := foldl merge_witnessed_node ∅ closest in
  let view_nodes :=
    match known_nodes !! responder with
    | Some responder_node => merge_witnessed_node view_nodes responder_node
    | None => view_nodes
    end in
  sort_truncate key count (map_values view_nodes).

Definition build_witnessed_close_group (key : Key) (count view_count : nat)
    (initial : list DHTNode) (responder_node_views : list (PeerId * list DHTNode))
    : WitnessedCloseGroup :=
  let initial_closest := sort_dedup_witnessed_nodes initial key count in
  let known_nodes := foldl merge_witnessed_node ∅ initial_closest in
  let known_nodes :=
    foldl (λ known v, foldl merge_witnessed_node known v.2) known_nodes responder_node_views in
  let views :=
    (λ v, (v.1, self_inclusive_responder_view v.1 v.2 known_nodes key view_count))
      <$> responder_node_views in
  {| group_target := key; group_k := count; initial_closest := initial_closest;
     responder_views := sort_by_key (λ v, compare_peer_distance key v.1) views |}.
End routing.

(** ** Owner views *)

Section owner_views.
Context `{TL : TransportLib}.
Implicit Types a b n : DHTNode.

(** Signed publications are only built with a nonzero sequence. *)
Definition authority_ok n : Prop :=
  ∀ r, address_authority n = Some (Signed r) → verified_sequence r ≠ 0%N.

Lemma merge_owner_views_cases a b : merge_owner_views a b = a ∨ merge_owner_views a b = b.
Proof. unfold merge_owner_views. repeat case_match; auto. Qed.

Lemma merge_from_peer_id a b : node_peer_id (merge_from a b) = node_peer_id a.
Proof.
  unfold merge_from. case_bool_decide as Hid; [|done]. cbn [negb].
  destruct (_ || _).
  - by destruct (merge_owner_views_cases a b) as [-> | ->].
  - by destruct (foldl _ _ _).
Qed.

(** What decides between two owner views. *)
Lemma version_cases n :
  (∃ r, address_authority n = Some (Signed r) ∧
        owner_view_version n = (true, verified_sequence r) ∧
        publication_sequence n = verified_sequence r ∧ dht_node_publish_seq n = verified_sequence r) ∨
  (owner_view_version n = (false, dht_node_publish_seq n) ∧ publication_sequence n = 0%N).
Proof.
  unfold owner_view_version, publication_sequence, dht_node_publish_seq.
  destruct (address_authority n) as [[seq|r]|]; simpl; eauto 10.
Qed.

Lemma version_tlt_true s t : tlt (true, s) (true, t) ↔ (s < t)%N.
Proof. rewrite pair_tlt_iff. simpl. rewrite N_tlt. unfold tlt. simpl. naive_solver. Qed.
Lemma version_tlt_false s t : tlt (false, s) (false, t) ↔ (s < t)%N.
Proof. rewrite pair_tlt_iff. simpl. rewrite N_tlt. unfold tlt. simpl. naive_solver. Qed.

(** A view without a newer version than the current one changes nothing. *)
Lemma merge_from_not_newer a b :
  dht_node_publish_seq a ≠ 0%N →
  (dht_node_publish_seq b ≠ 0%N → tle (owner_view_version b) (owner_view_version a)) →
  merge_from a b = a.
Proof.
  intros Ha Hle. unfold merge_from. case_bool_decide; [|done]. cbn [negb].
  rewrite (proj2 (N.eqb_neq _ _) Ha). simpl. unfold merge_owner_views.
  destruct (version_cases a) as [(ra & _ & Hva & Hpa & Hsa)|[Hva Hpa]],
    (version_cases b) as [(rb & _ & Hvb & Hpb & Hsb)|[Hvb Hpb]];
    rewrite Hva, Hvb, ?tle_not_tlt in Hle; rewrite ?Hpa, ?Hpb, ?Hsa, ?Hsb in *; simpl.
  - destruct (negb _ || negb _) eqn:Hz; destruct (N.ltb_spec (verified_sequence ra) (verified_sequence rb));
      try done; destruct Hle; try (by apply version_tlt_true); lia.
  - destruct (N.eqb_spec (verified_sequence ra) 0); [done|]. simpl.
    by destruct (N.ltb_spec (verified_sequence ra) 0); [lia|].
  - destruct (N.eqb_spec (verified_sequence rb) 0) as [Hz|Hnz]; simpl.
    + rewrite Hz. destruct (N.ltb_spec (dht_node_publish_seq a) 0); [lia|done].
    + exfalso. apply Hle; [done|]. rewrite pair_tlt_iff. by left.
  - destruct (N.ltb_spec (dht_node_publish_seq a) (dht_node_publish_seq b)); [|done].
    exfalso. apply Hle; [lia|]. by apply version_tlt_false.
Qed.

(** A newer view of the same peer replaces the current one. *)
Lemma merge_from_newer a b :
  node_peer_id a = node_peer_id b →
  tlt (owner_view_version a) (owner_view_version b) →
  dht_node_publish_seq b ≠ 0%N → merge_from a b = b.
Proof.
  intros Hid Hlt Hb. unfold merge_from. rewrite bool_decide_eq_true_2 by done. cbn [negb].
  rewrite (proj2 (N.eqb_neq _ _) Hb), orb_true_r. unfold merge_owner_views.
  destruct (version_cases a) as [(ra & _ & Hva & Hpa & Hsa)|[Hva Hpa]],
    (version_cases b) as [(rb & Hrb & Hvb & Hpb & Hsb)|[Hvb Hpb]];
    rewrite Hva, Hvb in Hlt; rewrite ?Hpa, ?Hpb, ?Hsa, ?Hsb in *; simpl.
  - rewrite version_tlt_true in Hlt. destruct (N.eqb_spec (verified_sequence rb) 0); [lia|].
    rewrite orb_true_r. by destruct (N.ltb_spec (verified_sequence ra) (verified_sequence rb)); [|lia].
  - rewrite pair_tlt_iff in Hlt. simpl in Hlt. destruct Hlt as [Hlt|[? _]]; done.
  - destruct (N.eqb_spec (verified_sequence rb) 0); [lia|]. simpl.
    by destruct (N.ltb_spec 0 (verified_sequence rb)); [|lia].
  - rewrite version_tlt_false in Hlt. simpl.
    by destruct (N.ltb_spec (dht_node_publish_seq a) (dht_node_publish_seq b)); [|lia].
Qed.

(** The sequence of a view is zero exactly when its version is the least. *)
Lemma version_zero n :
  authority_ok n → dht_node_publish_seq n = 0%N ↔ owner_view_version n = (false, 0%N).
Proof.
  intros Hok. destruct (version_cases n) as [(r & Hr & Hv & _ & Hs)|[Hv _]]; rewrite Hv.
  - rewrite Hs. pose proof (Hok r Hr). naive_solver.
  - split; intros Heq; congruence.
Qed.

Lemma version_least v : tle (false, 0%N) v.
Proof.
  apply tle_not_tlt. rewrite pair_tlt_iff. destruct v as [[] s]; simpl.
  - intros [?|[? _]]; done.
  - rewrite N_tlt. intros [?|[_ ?]]; [done|lia].
Qed.

Lemma merge_from_version a b :
  node_peer_id a = node_peer_id b → authority_ok a → authority_ok b →
  dht_node_publish_seq a ≠ 0%N ∨ dht_node_publish_seq b ≠ 0%N →
  merge_from a b = (if ltb (owner_view_version a) (owner_view_version b) then b else a).
Proof.
  intros Hid Hoka Hokb Hseq. destruct (ltb _ _) eqn:Hlt.
  - apply ltb_tlt in Hlt. apply merge_from_newer; [done..|].
    rewrite version_zero by done. intros Hz. rewrite Hz in Hlt.
    by apply tlt_not_tle in Hlt; destruct Hlt; apply version_least.
  - apply ltb_false in Hlt. apply merge_from_not_newer; [|done].
    destruct Hseq as [?|Hb]; [done|]. intros Ha. apply version_zero in Ha; [|done].
    rewrite Ha in Hlt. apply Hb, version_zero; [done|].
    apply (anti_symm tle); [done|apply version_least].
Qed.

(** Combining two views of a peer of which at least one was established
    by its owner never mixes them: the merged record is one of the two, the
    one with the newer owner version (a signed publication beats every V1
    view, inside a protocol the greater sequence wins), the current one on a
    tie; the outcome is never older than either view, an unsequenced hint
    cannot change an owner-proven view, and [may_replace_owner_view] admits
    exactly the incoming views the merge would not refuse as older. *)
Theorem merge_from_owner_views a b :
  node_peer_id a = node_peer_id b → authority_ok a → authority_ok b →
  dht_node_publish_seq a ≠ 0%N ∨ dht_node_publish_seq b ≠ 0%N →
  merge_from a b = (if ltb (owner_view_version a) (owner_view_version b) then b else a) ∧
  tle (owner_view_version a) (owner_view_version (merge_from a b)) ∧
  tle (owner_view_version b) (owner_view_version (merge_from a b)) ∧
  (dht_node_publish_seq b = 0%N → merge_from a b = a) ∧
  (may_replace_owner_view a b = true ↔ owner_view_version (merge_from a b) = owner_view_version b).
Proof.
  intros Hid Ha Hb Hseq. rewrite (merge_from_version a b Hid Ha Hb Hseq).
  unfold may_replace_owner_view. rewrite leb_tle.
  assert (Hz : dht_node_publish_seq b = 0%N → ltb (owner_view_version a) (owner_view_version b) = false).
  { rewrite version_zero by done. intros ->. apply ltb_false, version_least. }
  destruct (ltb _ _) eqn:Hlt.
  - apply ltb_tlt, tlt_tle in Hlt. split_and!; try done. intros H0. by apply Hz in H0.
  - apply ltb_false in Hlt. split_and!; try done. split; [|by intros ->].
    intros Hle. by apply (anti_symm tle).
Qed.
End owner_views.

(** ** Reports *)

Section reports.
Context `{TL : TransportLib} `{HL : HexLib}.
Implicit Types (subject : PeerId) (reports : SubjectReports).

Lemma rows_NoDup subject reports :
  NoDup (row_key <$> (mk_row subject <$> map_to_list reports)).
Proof.
  rewrite <- list_fmap_compose.
  assert (Hext : (row_key ∘ mk_row subject <$> map_to_list reports).*1 =
    (λ p, xor_distance p subject) <$> (map_to_list reports).*1)
    by (rewrite <- !list_fmap_compose; by apply list_fmap_ext).
  eapply NoDup_fmap_1. rewrite Hext.
  pose proof (xor_distance_inj_l subject). apply NoDup_fmap_2; [done|].
  apply NoDup_fst_map_to_list.
Qed.

Section order.
Context `{HO : HashOrder}.

Lemma by_dist_perm subject reports : by_dist subject reports ≡ₚ mk_row subject <$> map_to_list reports.
Proof. unfold by_dist. by rewrite sort_perm, map_iter_perm. Qed.

Lemma elem_of_by_dist subject reports r :
  r ∈ by_dist subject reports ↔
  r = mk_row subject (rid r, report r) ∧ reports !! rid r = Some (report r).
Proof.
  rewrite by_dist_perm, list_elem_of_fmap. split.
  - intros ([p n] & -> & Hin). apply elem_of_map_to_list in Hin. done.
  - intros [-> Hin]. simpl in *. exists (rid r, report r). split; [done|]. by apply elem_of_map_to_list.
Qed.

Lemma by_dist_canonical subject reports :
  by_dist subject reports = sort_by_key row_key (mk_row subject <$> map_to_list reports).
Proof.
  unfold by_dist. apply sort_unique; [|by rewrite map_iter_perm].
  rewrite map_iter_perm. apply rows_NoDup.
Qed.

Lemma by_dist_nil subject reports : by_dist subject reports = [] ↔ reports = ∅.
Proof.
  rewrite by_dist_canonical. split.
  - intros Hs. apply (f_equal length) in Hs. rewrite sort_length, length_fmap in Hs.
    rewrite length_map_to_list in Hs. by apply map_size_empty_inv.
  - intros ->. by rewrite map_to_list_empty.
Qed.
End order.

(** *** Quorum groups *)

Definition has_signature (sig : list (MultiAddr * N)) (r : Report) : bool :=
  bool_decide (report_signature (report r) = sig).

Definition voters (sig : list (MultiAddr * N)) (rows : list Report) : list PeerId :=
  rid <$> List.filter (has_signature sig) rows.

Lemma add_votes_lookup rows sig :
  foldl add_vote ∅ rows !! sig = (if Nat.eqb (length (voters sig rows)) 0 then None else Some (voters sig rows)).
Proof.
  induction rows as [|r rows IH] using rev_ind; [done|].
  unfold voters in *. rewrite foldl_app, List.filter_app, fmap_app, length_app.
  cbn [foldl List.filter]. unfold add_vote at 1.
  assert (Hr : has_signature sig r = bool_decide (report_signature (report r) = sig)) by done.
  rewrite Hr. clear Hr. case_bool_decide as Hsig.
  - subst sig. rewrite lookup_insert_eq, IH. simpl. rewrite Nat.add_1_r. simpl.
    destruct (Nat.eqb_spec (length (rid <$> List.filter (has_signature (report_signature (report r))) rows)) 0)
      as [Hz|Hz]; simpl; [|done].
    by apply nil_length_inv in Hz as ->.
  - rewrite lookup_insert_ne by done. rewrite IH. simpl. by rewrite Nat.add_0_r, app_nil_r.
Qed.

(** Among at most three responders at most one address set has two votes. *)
Lemma quorum_unique rows s1 s2 :
  length rows ≤ QUORUM_TOP_N →
  QUORUM_THRESHOLD ≤ length (voters s1 rows) → QUORUM_THRESHOLD ≤ length (voters s2 rows) →
  s1 = s2.
Proof.
  unfold voters. rewrite !length_fmap. intros Hlen H1 H2.
  destruct (decide (s1 = s2)) as [|Hne]; [done|]. exfalso.
  pose proof (List_filter_disjoint_length (has_signature s1) (has_signature s2) rows) as Hd.
  unfold QUORUM_TOP_N, QUORUM_THRESHOLD in *. cut (4 ≤ length rows); [lia|].
  etrans; [|apply Hd]; [lia|]. intros r _ Hr. unfold has_signature in *.
  apply bool_decide_eq_true in Hr. apply bool_decide_eq_false. congruence.
Qed.

Lemma elem_of_groups `{HashOrder} rows g :
  g ∈ map_values (foldl add_vote ∅ rows) → ∃ sig, g = voters sig rows.
Proof.
  unfold map_values. rewrite map_iter_perm. intros ([sig g'] & -> & Hin)%list_elem_of_fmap.
  apply elem_of_map_to_list in Hin. rewrite add_votes_lookup in Hin.
  exists sig. destruct (Nat.eqb _ 0); by simplify_eq/=.
Qed.

Lemma group_elem `{HashOrder} rows sig :
  voters sig rows ≠ [] → voters sig rows ∈ map_values (foldl add_vote ∅ rows).
Proof.
  intros Hne. unfold map_values. rewrite map_iter_perm.
  apply (list_elem_of_fmap_2 snd _ (sig, voters sig rows)), elem_of_map_to_list.
  rewrite add_votes_lookup. destruct (Nat.eqb_spec (length (voters sig rows)) 0) as [Hz|]; [|done].
  by apply nil_length_inv in Hz.
Qed.

Definition quorate (g : list PeerId) : bool := (QUORUM_THRESHOLD <=? length g)%nat.

Lemma quorum_find_unique `{HashOrder} rows g g' :
  length rows ≤ QUORUM_TOP_N →
  g ∈ map_values (foldl add_vote ∅ rows) → g' ∈ map_values (foldl add_vote ∅ rows) →
  quorate g = true → quorate g' = true → g = g'.
Proof.
  intros Hlen [s ->]%elem_of_groups [s' ->]%elem_of_groups Hs%Nat.leb_le Hs'%Nat.leb_le.
  by rewrite (quorum_unique rows s s').
Qed.

Lemma quorum_winner_order (HO1 HO2 : HashOrder) subject reports rows :
  length rows ≤ QUORUM_TOP_N →
  quorum_winner (HO := HO1) subject reports rows = quorum_winner (HO := HO2) subject reports rows.
Proof.
  intros Hlen. unfold quorum_winner. destruct (QUORUM_THRESHOLD <=? length rows); [|done]. cbn zeta.
  rewrite (find_perm _ (map_values (H := HO1) (foldl add_vote ∅ rows))
    (map_values (H := HO2) (foldl add_vote ∅ rows))); [done| |].
  - unfold map_values. by rewrite !map_iter_perm.
  - intros g g' Hg Hg'. by apply (quorum_find_unique (H := HO1) rows).
Qed.

(** The quorum rule in terms of votes. *)
Lemma quorum_winner_spec `{HashOrder} subject reports rows sig :
  length rows ≤ QUORUM_TOP_N → QUORUM_THRESHOLD ≤ length (voters sig rows) →
  ∃ w, w ∈ voters sig rows ∧
    (∀ p, p ∈ voters sig rows → tle (xor_distance w subject) (xor_distance p subject)) ∧
    quorum_winner subject reports rows = Some ((λ node, (w, node)) <$> reports !! w).
Proof.
  intros Hlen Hsig. unfold quorum_winner.
  assert (Hrows : length (voters sig rows) ≤ length rows).
  { unfold voters. rewrite length_fmap. apply List.filter_length_le. }
  rewrite (proj2 (Nat.leb_le _ _)) by lia. cbn zeta.
  assert (Hne : voters sig rows ≠ []).
  { intros Hn. rewrite Hn in Hsig. simpl in Hsig. unfold QUORUM_THRESHOLD in Hsig. lia. }
  destruct (List.find _ _) as [g|] eqn:Hf.
  - apply find_Some_iff in Hf as [Hg Hq].
    assert (g = voters sig rows) as ->.
    { eapply quorum_find_unique; [done|done|by apply group_elem|done|]. by apply Nat.leb_le. }
    destruct (min_by_key _ _) as [w|] eqn:Hm.
    + apply min_by_key_Some in Hm as [Hin Hmin]. by exists w.
    + by apply min_by_key_None in Hm.
  - rewrite find_None_iff in Hf. specialize (Hf _ (group_elem rows sig Hne)).
    apply Nat.leb_nle in Hf. lia.
Qed.

Lemma quorum_winner_None `{HashOrder} subject reports rows :
  (∀ sig, length (voters sig rows) < QUORUM_THRESHOLD) →
  quorum_winner subject reports rows = None.
Proof.
  intros Hno. unfold quorum_winner. destruct (_ <=? _); [|done]. cbn zeta.
  rewrite (proj2 (find_None_iff _ _)); [done|]. intros g [sig ->]%elem_of_groups.
  apply Nat.leb_nle. specialize (Hno sig). lia.
Qed.

(** *** The winner *)

Section winner.
Context `{HO : HashOrder}.

Definition all_hints reports : Prop :=
  ∀ p n, reports !! p = Some n → dht_node_publish_seq n = 0%N.

Definition top_rows subject reports : list Report := take QUORUM_TOP_N (by_dist subject reports).

Lemma top_rows_alt subject reports :
  take (Nat.min (length (by_dist subject reports)) QUORUM_TOP_N) (by_dist subject reports) =
  top_rows subject reports.
Proof.
  unfold top_rows. destruct (Nat.min_spec (length (by_dist subject reports)) QUORUM_TOP_N)
    as [[Hlt ->]|[_ ->]]; [|done].
  rewrite !take_ge by lia. done.
Qed.

Lemma top_rows_length subject reports : length (top_rows subject reports) ≤ QUORUM_TOP_N.
Proof. unfold top_rows. rewrite length_take. lia. Qed.

Lemma elem_of_voters subject reports sig p :
  p ∈ voters sig (top_rows subject reports) →
  ∃ n, reports !! p = Some n ∧ report_signature n = sig.
Proof.
  unfold voters. intros (r & -> & Hr)%list_elem_of_fmap.
  apply elem_of_List_filter in Hr as [Hr Hsig%bool_decide_eq_true].
  apply elem_of_sublist with (l2 := by_dist subject reports) in Hr; [|apply sublist_take].
  apply elem_of_by_dist in Hr as [_ Hr]. eauto.
Qed.

Lemma compute_winner_nonempty reports p n :
  reports !! p = Some n → Nat.eqb (size reports) 0 = false.
Proof.
  intros Hp. apply Nat.eqb_neq. intros Hs%map_size_empty_inv. by rewrite Hs, lookup_empty in Hp.
Qed.

Lemma no_sequences subject reports :
  all_hints reports → List.filter has_sequence (by_dist subject reports) = [].
Proof.
  intros Hall. destruct (List.filter _ _) as [|r l] eqn:Hf; [done|]. exfalso.
  assert (Hr : r ∈ List.filter has_sequence (by_dist subject reports)) by (rewrite Hf; by left).
  apply elem_of_List_filter in Hr as [[_ Hr]%elem_of_by_dist Hs].
  unfold has_sequence in Hs. by rewrite (Hall _ _ Hr) in Hs.
Qed.

Lemma merge_rows_not_newer w rows :
  dht_node_publish_seq w ≠ 0%N →
  (∀ r, r ∈ rows → dht_node_publish_seq (report r) ≠ 0%N →
     tle (owner_view_version (report r)) (owner_view_version w)) →
  foldl (λ winner r', merge_from winner (report r')) w rows = w.
Proof.
  intros Hw Hall. induction rows as [|r rows IH]; [done|]. cbn [foldl].
  rewrite merge_from_not_newer; [|done|].
  - apply IH. intros r' Hr'. apply Hall. by right.
  - apply Hall. by left.
Qed.

(** The row rule 1 selects, and that merging the others into it is a no-op. *)
Lemma rule1_spec subject reports r :
  max_by_key authority_key (List.filter has_sequence (by_dist subject reports)) = Some r →
  reports !! rid r = Some (report r) ∧ dht_node_publish_seq (report r) ≠ 0%N ∧
  (∀ p' n', reports !! p' = Some n' → dht_node_publish_seq n' ≠ 0%N →
    tlt (owner_view_version n') (owner_view_version (report r)) ∨
    (owner_view_version n' = owner_view_version (report r) ∧
     tle (xor_distance (rid r) subject) (xor_distance p' subject))) ∧
  foldl (λ winner r', merge_from winner (report r')) (report r) (by_dist subject reports) = report r.
Proof.
  intros [[Hr Hseq]%elem_of_List_filter Hmax]%max_by_key_Some.
  apply elem_of_by_dist in Hr as [Hrow Hrep]. apply negb_true_iff, N.eqb_neq in Hseq.
  assert (Hkey : ∀ p' n', reports !! p' = Some n' → dht_node_publish_seq n' ≠ 0%N →
    tlt (owner_view_version n') (owner_view_version (report r)) ∨
    (owner_view_version n' = owner_view_version (report r) ∧
     tle (xor_distance (rid r) subject) (xor_distance p' subject))).
  { intros p' n' Hp' Hn'.
    assert (Hin : mk_row subject (p', n') ∈ List.filter has_sequence (by_dist subject reports)).
    { apply elem_of_List_filter. split; [by apply elem_of_by_dist|].
      by apply negb_true_iff, N.eqb_neq. }
    pose proof (Hmax _ Hin) as Hle.
    apply tle_cases in Hle. rewrite pair_tlt_iff in Hle. rewrite Hrow in Hle. simpl in Hle.
    destruct Hle as [[Hlt|[Heq Hlt]]|Heq]; [by left|right; split; [done|]|right].
    - rewrite pair_tlt_iff in Hlt. simpl in Hlt. rewrite reverse_tlt in Hlt.
      destruct Hlt as [?|[Hd _]]; [by apply tlt_tle|].
      apply (f_equal unreverse) in Hd. simpl in Hd. by rewrite Hd.
    - split; [exact (f_equal fst Heq)|].
      pose proof (f_equal (λ k, unreverse k.2.1) Heq) as Hd. simpl in Hd. by rewrite Hd. }
  split_and!; [done..|]. apply merge_rows_not_newer; [done|].
  intros r' [_ Hr']%elem_of_by_dist Hs'.
  destruct (Hkey _ _ Hr' Hs') as [?|[-> _]]; [by apply tlt_tle|done].
Qed.

Lemma head_by_dist subject reports :
  reports ≠ ∅ → ∃ r, head (by_dist subject reports) = Some r ∧ reports !! rid r = Some (report r) ∧
    ∀ p, is_Some (reports !! p) → tle (xor_distance (rid r) subject) (xor_distance p subject).
Proof.
  intros Hne. pose proof (sort_sorted row_key (mk_row subject <$> map_iter reports)) as Hsort.
  fold (by_dist subject reports) in Hsort.
  destruct (by_dist subject reports) as [|r l] eqn:Hb; [by apply by_dist_nil in Hb|].
  assert (Hr : r ∈ by_dist subject reports) by (rewrite Hb; by left).
  apply elem_of_by_dist in Hr as [Hrow Hr]. exists r. split_and!; [done..|].
  intros p [n Hp].
  assert (Hin : mk_row subject (p, n) ∈ by_dist subject reports) by (by apply elem_of_by_dist).
  rewrite Hb in Hin. apply StronglySorted_cons in Hsort as [Hx _]. rewrite Forall_forall in Hx.
  apply elem_of_cons in Hin as [<-|Hin]; [done|]. specialize (Hx _ Hin).
  apply tle_cases in Hx. rewrite pair_tlt_iff in Hx. rewrite Hrow in Hx. simpl in Hx.
  destruct Hx as [[?|[-> _]]|Hx]; [by apply tlt_tle|done|].
  apply (f_equal fst) in Hx. simpl in Hx. by rewrite Hx.
Qed.

Lemma quorum_winner_report subject reports answer :
  quorum_winner subject reports (top_rows subject reports) = Some answer →
  ∃ w n, answer = Some (w, n) ∧ reports !! w = Some n.
Proof.
  unfold quorum_winner. destruct (_ <=? _); [|done]. cbn zeta.
  destruct (List.find _ _) as [g|] eqn:Hf; [|done].
  apply find_Some_iff in Hf as [[sig ->]%elem_of_groups _].
  destruct (min_by_key _ _) as [w|] eqn:Hm; [|done]. intros [= <-].
  apply min_by_key_Some in Hm as [[n [Hn _]]%elem_of_voters _]. exists w, n. by rewrite Hn.
Qed.

(** Rule 1 of the report selection: as soon as one report carries an
    owner-established sequence, the winner is one of the reports, unchanged,
    whose owner version is the newest of all (signed publications before V1
    sequences, then the greater sequence), and the closest responder among
    those that carry that version is the one credited. *)
Theorem compute_winner_owner subject reports p n :
  reports !! p = Some n → dht_node_publish_seq n ≠ 0%N →
  ∃ w node, compute_winner subject reports = Some (w, node) ∧
    reports !! w = Some node ∧ dht_node_publish_seq node ≠ 0%N ∧
    ∀ p' n', reports !! p' = Some n' → dht_node_publish_seq n' ≠ 0%N →
      tlt (owner_view_version n') (owner_view_version node) ∨
      (owner_view_version n' = owner_view_version node ∧
       tle (xor_distance w subject) (xor_distance p' subject)).
Proof.
  intros Hp Hn. unfold compute_winner. rewrite (compute_winner_nonempty _ _ _ Hp). cbn zeta.
  destruct (max_by_key _ _) as [r|] eqn:Hmax.
  - apply rule1_spec in Hmax as (? & ? & ? & ->). exists (rid r), (report r). done.
  - apply max_by_key_None in Hmax. exfalso.
    assert (Hr : mk_row subject (p, n) ∈ List.filter has_sequence (by_dist subject reports)).
    { apply elem_of_List_filter. split; [by apply elem_of_by_dist|]. by apply negb_true_iff, N.eqb_neq. }
    rewrite Hmax in Hr. by apply not_elem_of_nil in Hr.
Qed.

(** Rules 2 to 4, when every report is an unsequenced hint: the subject's
    own report wins; without one, an address set on which two of the three
    closest responders agree wins, reported by the closest of them, so one
    adversarial responder cannot outvote two honest neighbours; without a
    quorum the closest responder's report wins. *)
Theorem compute_winner_hints subject reports :
  all_hints reports → reports ≠ ∅ →
  (∀ n, reports !! subject = Some n → compute_winner subject reports = Some (subject, n)) ∧
  (reports !! subject = None →
   (∀ sig, QUORUM_THRESHOLD ≤ length (voters sig (top_rows subject reports)) →
      ∃ w node, compute_winner subject reports = Some (w, node) ∧
        reports !! w = Some node ∧ report_signature node = sig ∧
        ∀ p, p ∈ voters sig (top_rows subject reports) →
          tle (xor_distance w subject) (xor_distance p subject)) ∧
   ((∀ sig, length (voters sig (top_rows subject reports)) < QUORUM_THRESHOLD) →
      ∃ w node, compute_winner subject reports = Some (w, node) ∧
        reports !! w = Some node ∧
        ∀ p, is_Some (reports !! p) → tle (xor_distance w subject) (xor_distance p subject))).
Proof.
  intros Hall Hne. unfold compute_winner. rewrite (no_sequences subject _ Hall). cbn zeta.
  rewrite top_rows_alt. change (max_by_key authority_key []) with (@None Report). cbn match.
  assert (Hsz : Nat.eqb (size reports) 0 = false).
  { apply Nat.eqb_neq. by intros Hs%map_size_empty_inv. }
  rewrite Hsz. split; [by intros n ->|]. intros ->. split.
  - intros sig Hsig.
    destruct (quorum_winner_spec subject reports (top_rows subject reports) sig) as (w & Hw & Hmin & ->);
      [apply top_rows_length|done|].
    destruct (elem_of_voters _ _ _ _ Hw) as (node & Hnode & Hs). rewrite Hnode. simpl. eauto 10.
  - intros Hno. rewrite quorum_winner_None by done.
    destruct (head_by_dist subject reports Hne) as (r & -> & ? & ?). by exists (rid r), (report r).
Qed.
End winner.

Lemma compute_winner_report `{HO : HashOrder} subject reports :
  reports ≠ ∅ → ∃ w n, compute_winner subject reports = Some (w, n) ∧ reports !! w = Some n.
Proof.
  intros Hne. unfold compute_winner.
  rewrite (proj2 (Nat.eqb_neq _ _)) by (by intros ?%map_size_empty_inv). cbn zeta.
  destruct (max_by_key _ _) as [r|] eqn:Hmax.
  { apply rule1_spec in Hmax as (? & _ & _ & ->). eauto. }
  destruct (reports !! subject) as [n|] eqn:Hs; [by eauto|].
  rewrite top_rows_alt. destruct (quorum_winner _ _ _) as [answer|] eqn:Hq.
  - apply quorum_winner_report in Hq as (w & n & -> & ?). eauto.
  - destruct (head_by_dist subject reports Hne) as (r & -> & ? & _). simpl. eauto.
Qed.

Lemma compute_winner_elem `{HO : HashOrder} subject reports w n :
  compute_winner subject reports = Some (w, n) → reports !! w = Some n.
Proof.
  intros Hw. destruct (compute_winner_report subject reports) as (w' & n' & Hw' & ?); [|congruence].
  by intros ->.
Qed.

(** The winner is always one of the reports, exists exactly when there is
    a report, and does not depend on the iteration order of the hash maps. *)
Theorem compute_winner_canonical subject reports (HO1 HO2 : HashOrder) :
  (compute_winner (HO := HO1) subject reports = None ↔ reports = ∅) ∧
  (∀ w n, compute_winner (HO := HO1) subject reports = Some (w, n) → reports !! w = Some n) ∧
  compute_winner (HO := HO1) subject reports = compute_winner (HO := HO2) subject reports.
Proof.
  assert (Heq : compute_winner (HO := HO1) subject reports = compute_winner (HO := HO2) subject reports).
  { unfold compute_winner.
    rewrite (by_dist_canonical (HO := HO1)), <- (by_dist_canonical (HO := HO2)), top_rows_alt.
    by rewrite (quorum_winner_order HO1 HO2) by apply (top_rows_length (HO := HO2)). }
  split_and!; [|by apply compute_winner_elem|done].
  split; [|by intros ->]. intros Hnone. destruct (decide (size reports = 0)) as [Hz|Hz].
  - by apply map_size_empty_inv.
  - destruct (compute_winner_report (HO := HO1) subject reports) as (w & n & Hw & _); [|congruence].
    intros ->. by rewrite map_size_empty in Hz.
Qed.
End reports.

(** ** Closest-first views *)

Section views.
Context `{TL : TransportLib}.
Implicit Types (m : gmap PeerId DHTNode) (nodes L : list DHTNode).

(** Every record is filed under its own peer. *)
Definition keyed m : Prop := ∀ p n, m !! p = Some n → node_peer_id n = p.

(** [L] is the list of the [count] records of [m] closest to [key], closest
    first. *)
Record closest_view (key : Key) (count : nat) m L : Prop := {
  view_keyed : keyed m;
  view_elem n : n ∈ L → m !! node_peer_id n = Some n;
  view_sorted : StronglySorted (λ a b, tlt (xor_distance (node_peer_id a) key)
                                           (xor_distance (node_peer_id b) key)) L;
  view_length : length L = Nat.min count (size m);
  view_closest p n : m !! p = Some n → n ∉ L →
    length L = count ∧ ∀ a, a ∈ L → tlt (xor_distance (node_peer_id a) key) (xor_distance p key);
}.

Lemma peer_key_lt key a b :
  tlt (compare_peer_distance key a) (compare_peer_distance key b) ↔
  tlt (xor_distance a key) (xor_distance b key).
Proof.
  unfold compare_peer_distance. rewrite pair_tlt_iff. simpl. split; [|by left].
  intros [?|[Heq Hlt]]; [done|]. apply (xor_distance_inj_l key) in Heq as ->.
  by apply tlt_irrefl in Hlt.
Qed.

Lemma values_keys_NoDup `{HO : HashOrder} m key :
  keyed m → NoDup ((λ n, compare_peer_distance key (node_peer_id n)) <$> map_values m).
Proof.
  intros Hk. unfold map_values. rewrite map_iter_perm, <- list_fmap_compose.
  eapply NoDup_fmap_1 with (f := snd).
  assert (Hext : snd <$> ((λ n, compare_peer_distance key (node_peer_id n)) ∘ snd <$> map_to_list m)
    = (map_to_list m).*1); [|rewrite Hext; apply NoDup_fst_map_to_list].
  rewrite <- list_fmap_compose. apply list_fmap_ext. intros i [p n] Hi. simpl.
  apply Hk, elem_of_map_to_list. by eapply list_elem_of_lookup_2.
Qed.

Lemma elem_of_values `{HO : HashOrder} m n : keyed m → n ∈ map_values m ↔ m !! node_peer_id n = Some n.
Proof.
  intros Hk. unfold map_values. rewrite map_iter_perm, list_elem_of_fmap. split.
  - intros ([p n'] & -> & Hin). apply elem_of_map_to_list in Hin. simpl. by rewrite (Hk _ _ Hin).
  - intros Hm. exists (node_peer_id n, n). split; [done|]. by apply elem_of_map_to_list.
Qed.

Lemma sort_truncate_view `{HO : HashOrder} m key count :
  keyed m → closest_view key count m (sort_truncate key count (map_values m)).
Proof.
  intros Hk. set (k := λ n, compare_peer_distance key (node_peer_id n)).
  pose proof (sort_strict k (map_values m) (values_keys_NoDup m key Hk)) as Hs.
  assert (Hlt : ∀ a b, key_lt k a b →
    tlt (xor_distance (node_peer_id a) key) (xor_distance (node_peer_id b) key)).
  { intros a b Hab. by apply peer_key_lt. }
  unfold sort_truncate. fold k. rewrite <- (take_drop count (sort_by_key k (map_values m))) in Hs.
  constructor; [done|..].
  - intros n Hn. apply elem_of_sublist with (l2 := sort_by_key k (map_values m)) in Hn; [|apply sublist_take].
    by rewrite elem_of_sort, elem_of_values in Hn.
  - apply StronglySorted_app_1_l in Hs. eapply StronglySorted_weaken; [|done]. naive_solver.
  - rewrite length_take, sort_length. unfold map_values, map_iter.
    by rewrite length_fmap, hash_iter_perm, length_map_to_list.
  - intros p n Hp Hn. assert (Hin : n ∈ sort_by_key k (map_values m)).
    { rewrite elem_of_sort, elem_of_values by done. by rewrite (Hk _ _ Hp). }
    rewrite <- (take_drop count (sort_by_key k (map_values m))) in Hin.
    apply elem_of_app in Hin as [?|Hin]; [done|]. split.
    + rewrite length_take_le; [done|]. destruct (decide (length (sort_by_key k (map_values m)) < count)) as [Hc|]; [|lia].
      rewrite drop_ge in Hin by lia. by apply not_elem_of_nil in Hin.
    + intros a Ha. rewrite <- (Hk _ _ Hp). apply Hlt. by eapply StronglySorted_app_1_elem_of.
Qed.

(** The order of the hash map is irrelevant. *)
Lemma sort_truncate_order (HO1 HO2 : HashOrder) m key count :
  keyed m →
  sort_truncate key count (map_values (H := HO1) m) = sort_truncate key count (map_values (H := HO2) m).
Proof.
  intros Hk. unfold sort_truncate. f_equal. apply sort_unique; [by apply values_keys_NoDup|].
  unfold map_values. by rewrite !map_iter_perm.
Qed.

Lemma merge_witnessed_keyed m n : keyed m → keyed (merge_witnessed_node m n).
Proof.
  intros Hk p n'. unfold merge_witnessed_node. destruct (m !! node_peer_id n) as [e|] eqn:He.
  - destruct (decide (p = node_peer_id n)) as [->|Hne].
    + rewrite lookup_insert_eq. intros [= <-]. rewrite merge_from_peer_id. by apply Hk.
    + rewrite lookup_insert_ne by done. apply Hk.
  - destruct (decide (p = node_peer_id n)) as [->|Hne].
    + rewrite lookup_insert_eq. by intros [= <-].
    + rewrite lookup_insert_ne by done. apply Hk.
Qed.

Lemma merge_all_keyed nodes m : keyed m → keyed (foldl merge_witnessed_node m nodes).
Proof.
  revert m. induction nodes as [|n nodes IH]; intros m Hm; [done|].
  apply IH. by apply merge_witnessed_keyed.
Qed.

Lemma empty_keyed : keyed ∅.
Proof. intros p n. by rewrite lookup_empty. Qed.

(** All reports about [p] in a list, merged in order. *)
Definition merge_report (p : PeerId) (acc : option DHTNode) (n : DHTNode) : option DHTNode :=
  if bool_decide (node_peer_id n = p)
  then Some (match acc with Some e => merge_from e n | None => n end) else acc.
Definition merged_report (p : PeerId) nodes : option DHTNode := foldl (merge_report p) None nodes.

Lemma merge_witnessed_lookup p m n :
  merge_witnessed_node m n !! p = merge_report p (m !! p) n.
Proof.
  unfold merge_witnessed_node, merge_report. case_bool_decide as Hp.
  - subst p. destruct (m !! node_peer_id n); by rewrite lookup_insert_eq.
  - destruct (m !! node_peer_id n); by rewrite lookup_insert_ne.
Qed.

Lemma merge_all_lookup p nodes m :
  foldl merge_witnessed_node m nodes !! p = foldl (merge_report p) (m !! p) nodes.
Proof.
  revert m. induction nodes as [|n nodes IH]; intros m; [done|]. cbn [foldl].
  by rewrite IH, merge_witnessed_lookup.
Qed.

Lemma merge_report_is_Some p nodes acc :
  is_Some (foldl (merge_report p) acc nodes) ↔ is_Some acc ∨ p ∈ node_peer_id <$> nodes.
Proof.
  revert acc. induction nodes as [|n nodes IH]; intros acc; cbn [foldl].
  - rewrite fmap_nil, elem_of_nil. naive_solver.
  - rewrite IH, fmap_cons, elem_of_cons. unfold merge_report. case_bool_decide as Hp; [|naive_solver].
    split; [naive_solver|]. intros _. by left.
Qed.

(** Deduplication of witnessed nodes: the result is the list of the
    [count] closest peers named by the input, closest first and each once;
    each carries the merge, in input order, of all records about it, and the
    result does not depend on the hash map's order. *)
Theorem sort_dedup_spec (HO1 HO2 : HashOrder) nodes key count :
  let L := sort_dedup_witnessed_nodes (HO := HO1) nodes key count in
  (∃ m, (∀ p, m !! p = merged_report p nodes) ∧ closest_view key count m L) ∧
  (∀ n, n ∈ L → merged_report (node_peer_id n) nodes = Some n) ∧
  L = sort_dedup_witnessed_nodes (HO := HO2) nodes key count.
Proof.
  set (m := foldl merge_witnessed_node ∅ nodes).
  assert (Hk : keyed m) by apply merge_all_keyed, empty_keyed.
  assert (Hm : ∀ p, m !! p = merged_report p nodes).
  { intros p. unfold m. by rewrite merge_all_lookup, lookup_empty. }
  pose proof (sort_truncate_view (HO := HO1) m key count Hk) as Hv.
  split_and!; [by exists m| |by apply sort_truncate_order].
  intros n Hn. rewrite <- Hm. by apply (view_elem _ _ _ _ Hv).
Qed.

Section group.
Context `{HO : HashOrder}.

Lemma responder_view_spec responder closest known key count :
  (∀ p n, known !! p = Some n → node_peer_id n = p) →
  let reports := closest ++ (match known !! responder with Some n => [n] | None => [] end) in
  let L := self_inclusive_responder_view responder closest known key count in
  ∃ m, (∀ p, m !! p = merged_report p reports) ∧ closest_view key count m L.
Proof.
  intros Hkn. cbn zeta. unfold self_inclusive_responder_view, merged_report.
  set (view := foldl merge_witnessed_node ∅ closest).
  assert (Hview : keyed view) by apply merge_all_keyed, empty_keyed.
  assert (Hlook : ∀ p, view !! p = foldl (merge_report p) None closest).
  { intros p. unfold view. by rewrite merge_all_lookup, lookup_empty. }
  destruct (known !! responder) as [n|].
  - exists (merge_witnessed_node view n). split.
    + intros p. by rewrite merge_witnessed_lookup, foldl_app, Hlook.
    + by apply sort_truncate_view, merge_witnessed_keyed.
  - exists view. split; [|by apply sort_truncate_view].
    intros p. by rewrite app_nil_r, Hlook.
Qed.

(** The records of all replies, merged into [m]. *)
Lemma fold_views_keyed (rs : list (PeerId * list DHTNode)) m :
  keyed m → keyed (foldl (λ known v, foldl merge_witnessed_node known v.2) m rs).
Proof.
  revert m. induction rs as [|r rs IH]; intros m Hm; [done|]. apply IH. by apply merge_all_keyed.
Qed.

Lemma fold_views_is_Some (rs : list (PeerId * list DHTNode)) m p :
  is_Some (foldl (λ known v, foldl merge_witnessed_node known v.2) m rs !! p) ↔
  is_Some (m !! p) ∨ ∃ r' c, (r', c) ∈ rs ∧ p ∈ node_peer_id <$> c.
Proof.
  revert m. induction rs as [|[r c] rs IH]; intros m; cbn [foldl].
  - setoid_rewrite elem_of_nil. naive_solver.
  - rewrite IH, merge_all_lookup, merge_report_is_Some. setoid_rewrite elem_of_cons. naive_solver.
Qed.

(** The witnessed close group: the initial group is the deduplicated
    closest-[count] list; there is one view per reply, ordered by the
    distance of the responder; every view is a closest-first list of at most
    [view_count] distinct peers, and a responder that is known to anyone in
    the transcript is in its own view unless [view_count] closer peers are. *)
Theorem witnessed_group_spec key count view_count initial replies :
  let g := build_witnessed_close_group key count view_count initial replies in
  initial_closest g = sort_dedup_witnessed_nodes initial key count ∧
  fst <$> responder_views g ≡ₚ fst <$> replies ∧
  StronglySorted (λ v w, tle (xor_distance v.1 key) (xor_distance w.1 key)) (responder_views g) ∧
  ∀ responder L, (responder, L) ∈ responder_views g →
    StronglySorted (λ a b, tlt (xor_distance (node_peer_id a) key) (xor_distance (node_peer_id b) key)) L ∧
    length L ≤ view_count ∧
    (responder ∈ node_peer_id <$> initial_closest g ∨
     (∃ r' c, (r', c) ∈ replies ∧ responder ∈ node_peer_id <$> c) →
     responder ∈ node_peer_id <$> L ∨
     (length L = view_count ∧ ∀ a, a ∈ L → tlt (xor_distance (node_peer_id a) key) (xor_distance responder key))).
Proof.
  unfold build_witnessed_close_group. cbn [initial_closest responder_views].
  set (init := sort_dedup_witnessed_nodes initial key count).
  set (known0 := foldl merge_witnessed_node ∅ init).
  set (known := foldl (λ known v, foldl merge_witnessed_node known v.2) known0 replies).
  set (views := _ <$> replies).
  assert (Hknown : keyed known) by apply fold_views_keyed, merge_all_keyed, empty_keyed.
  assert (Hdom : ∀ p, is_Some (known !! p) ↔
    p ∈ node_peer_id <$> init ∨ ∃ r' c, (r', c) ∈ replies ∧ p ∈ node_peer_id <$> c).
  { intros p. unfold known, known0.
    rewrite fold_views_is_Some, merge_all_lookup, lookup_empty, merge_report_is_Some.
    split; intros [H|H]; auto. destruct H as [[? ?]|?]; [done|auto]. }
  split_and!; [done| | |].
  - rewrite sort_perm. unfold views. by rewrite <- list_fmap_compose.
  - eapply StronglySorted_weaken; [|apply sort_sorted]. intros v w _ _ Hvw.
    apply tle_cases in Hvw as [Hlt|Heq]; [by apply tlt_tle, peer_key_lt|].
    apply (f_equal fst) in Heq. simpl in Heq. by rewrite Heq.
  - intros responder L Hin. rewrite elem_of_sort in Hin.
    unfold views in Hin. apply list_elem_of_fmap in Hin as ([r c] & [= -> ->] & _). simpl.
    destruct (responder_view_spec r c known key view_count Hknown) as (m & Hm & [Hkm Helem Hsorted Hlen Hcl]).
    split_and!; [done|lia|]. rewrite <- Hdom. intros [n Hn].
    assert (Hsome : is_Some (m !! r)).
    { rewrite Hm. unfold merged_report. apply merge_report_is_Some. right. rewrite Hn, fmap_app.
      apply elem_of_app. right. simpl. apply list_elem_of_singleton. symmetry. by apply Hknown. }
    destruct Hsome as [n' Hn'].
    destruct (decide (r ∈ node_peer_id <$> self_inclusive_responder_view r c known key view_count))
      as [|Hni]; [by left|right].
    apply (Hcl _ _ Hn'). intros Hin'. apply Hni. 
    apply list_elem_of_fmap. exists n'. split; [|done]. symmetry. by apply Hkm.
Qed.
End group.

(** *** Refreshing lookup results *)

Section refresh.
Context `{HL : HexLib} `{HO : HashOrder}.
Context (subject_reports : gmap PeerId SubjectReports).

(** Reports are filed under their subject and carry real publications. *)
Hypothesis Hsubjects : ∀ s reports p n,
  subject_reports !! s = Some reports → reports !! p = Some n → node_peer_id n = s ∧ authority_ok n.

Definition winner_of (p : PeerId) : option DHTNode :=
  snd <$> (subject_reports !! p ≫= compute_winner p).

Lemma winner_of_ok p w : winner_of p = Some w → node_peer_id w = p ∧ authority_ok w.
Proof.
  unfold winner_of. destruct (subject_reports !! p) as [reports|] eqn:Hs; simpl; [|done].
  destruct (compute_winner p reports) as [[r n]|] eqn:Hw; simpl; [|done]. intros [= <-].
  apply compute_winner_elem in Hw. by eapply Hsubjects.
Qed.

Lemma refresh_node_alt n :
  refresh_node subject_reports n =
  match winner_of (node_peer_id n) with
  | Some w => if negb (dht_node_publish_seq n =? 0)%N || negb (dht_node_publish_seq w =? 0)%N
              then merge_from n w else w
  | None => n
  end.
Proof. unfold refresh_node, winner_of. by destruct (_ ≫= _) as [[]|]. Qed.

(** [c] is a real view of the peer of [a] that is at least as new as [a]. *)
Definition newer_than (a c : DHTNode) : Prop :=
  node_peer_id c = node_peer_id a ∧ authority_ok c ∧ tle (owner_view_version a) (owner_view_version c).

Lemma newer_than_trans a b c : newer_than a b → newer_than b c → newer_than a c.
Proof. intros (Hab & _ & Hv) (Hbc & Hc & Hv'). split_and!; [congruence|done|by etrans]. Qed.

(** Two views combined the way the refresh combines them. *)
Lemma combine_newer a b c :
  node_peer_id a = node_peer_id b → authority_ok a → authority_ok b →
  (dht_node_publish_seq a ≠ 0%N ∨ dht_node_publish_seq b ≠ 0%N → c = merge_from a b) →
  (dht_node_publish_seq a = 0%N → dht_node_publish_seq b = 0%N → c = a ∨ c = b) →
  newer_than a c ∧ newer_than b c.
Proof.
  intros Hid Ha Hb Hc Hz. unfold newer_than.
  destruct (decide (dht_node_publish_seq a = 0%N)) as [Haz|Hanz];
    [destruct (decide (dht_node_publish_seq b = 0%N)) as [Hbz|Hbnz]|].
  - pose proof (proj1 (version_zero a Ha) Haz) as Hva. pose proof (proj1 (version_zero b Hb) Hbz) as Hvb.
    destruct (Hz Haz Hbz) as [-> | ->]; rewrite Hva, Hvb; done.
  - rewrite (Hc (or_intror Hbnz)), (merge_from_version a b) by auto.
    destruct (ltb _ _) eqn:Hlt; [apply ltb_tlt, tlt_tle in Hlt|apply ltb_false in Hlt]; done.
  - rewrite (Hc (or_introl Hanz)), (merge_from_version a b) by auto.
    destruct (ltb _ _) eqn:Hlt; [apply ltb_tlt, tlt_tle in Hlt|apply ltb_false in Hlt]; done.
Qed.

Lemma seq_test a b :
  negb (dht_node_publish_seq a =? 0)%N || negb (dht_node_publish_seq b =? 0)%N = true ↔
  dht_node_publish_seq a ≠ 0%N ∨ dht_node_publish_seq b ≠ 0%N.
Proof. by rewrite orb_true_iff, !negb_true_iff, !N.eqb_neq. Qed.

Lemma refresh_node_newer n :
  authority_ok n →
  newer_than n (refresh_node subject_reports n) ∧
  ∀ w, winner_of (node_peer_id n) = Some w → newer_than w (refresh_node subject_reports n).
Proof.
  intros Hn. rewrite refresh_node_alt. destruct (winner_of (node_peer_id n)) as [w|] eqn:Hw.
  - destruct (winner_of_ok _ _ Hw) as [Hid Hok].
    destruct (combine_newer n w (refresh_node subject_reports n)) as [H1 H2]; [done..| | |].
    + rewrite refresh_node_alt, Hw. intros Hs%seq_test. by rewrite Hs.
    + rewrite refresh_node_alt, Hw. intros Hs1 Hs2. rewrite Hs1, Hs2. by right.
    + rewrite refresh_node_alt, Hw in H1, H2. split; [done|]. by intros ? [= <-].
  - split; [|done]. done.
Qed.

(** What the map holds after the candidates [seen]. *)
Record refresh_inv (m : gmap PeerId DHTNode) (seen : list DHTNode) : Prop := {
  refresh_dom p : is_Some (m !! p) ↔ p ∈ node_peer_id <$> seen;
  refresh_newer p n : m !! p = Some n → node_peer_id n = p ∧ authority_ok n ∧
    (∀ n0, n0 ∈ seen → node_peer_id n0 = p → newer_than n0 n) ∧
    (∀ w, winner_of p = Some w → newer_than w n);
}.

(** The step writes one entry for the candidate's peer, at least as new as
    the refreshed candidate and as the entry it replaces. *)
Lemma apply_one_insert m n0 :
  let node := refresh_node subject_reports n0 in
  authority_ok node →
  (∀ e, m !! node_peer_id node = Some e → node_peer_id e = node_peer_id node ∧ authority_ok e) →
  ∃ c, apply_one subject_reports m n0 = <[node_peer_id node := c]> m ∧
    newer_than node c ∧ ∀ e, m !! node_peer_id node = Some e → newer_than e c.
Proof.
  intros node Hok Hm. unfold apply_one. fold node.
  destruct (m !! node_peer_id node) as [e|] eqn:He; [|by exists node].
  destruct (Hm _ eq_refl) as [Heid Heok].
  assert (Hc : ∀ c, (dht_node_publish_seq e ≠ 0%N ∨ dht_node_publish_seq node ≠ 0%N → c = merge_from e node) →
    (dht_node_publish_seq e = 0%N → dht_node_publish_seq node = 0%N → c = e ∨ c = node) →
    newer_than node c ∧ ∀ e', Some e = Some e' → newer_than e' c).
  { intros c H1 H2. destruct (combine_newer e node c) as [? ?]; [done..|].
    split; [done|]. by intros ? [= <-]. }
  destruct (_ || _) eqn:Hs.
  - exists (merge_from e node). split; [done|]. apply Hc; [done|]. intros Hez Hnz.
    apply seq_test in Hs as [?|?]; congruence.
  - apply orb_false_iff in Hs as [Hs1 Hs2]. apply negb_false_iff, N.eqb_eq in Hs1, Hs2.
    destruct (prefer_lookup_record node e).
    + exists node. split; [done|]. apply Hc; [naive_solver|by right].
    + exists e. rewrite insert_id by done. split; [done|]. apply Hc; [naive_solver|by left].
Qed.

Lemma apply_one_inv m seen n0 :
  authority_ok n0 → refresh_inv m seen → refresh_inv (apply_one subject_reports m n0) (seen ++ [n0]).
Proof.
  intros Hok0 [Hdom Hnew]. destruct (refresh_node_newer n0 Hok0) as [Hn0 Hw].
  pose proof Hn0 as (Hid & Hok & _).
  destruct (apply_one_insert m n0 Hok) as (c & -> & Hcn & Hce).
  { intros e He. destruct (Hnew _ _ He) as (? & ? & _). done. }
  rewrite Hid in *. constructor.
  - intros p. rewrite fmap_app, elem_of_app, <- Hdom.
    change (node_peer_id <$> [n0]) with [node_peer_id n0]. rewrite list_elem_of_singleton.
    destruct (decide (p = node_peer_id n0)) as [->|Hne];
      [rewrite lookup_insert_eq|rewrite lookup_insert_ne by done]; naive_solver.
  - intros p n. destruct (decide (p = node_peer_id n0)) as [->|Hne].
    + rewrite lookup_insert_eq. intros [= <-].
      split_and!; [by rewrite (proj1 Hcn)|apply Hcn| |].
      * intros n1 [Hin|Heq%list_elem_of_singleton]%elem_of_app Hp;
          [|subst n1; by eapply newer_than_trans].
        assert (Hs : is_Some (m !! node_peer_id n0)).
        { rewrite Hdom, <- Hp. by apply list_elem_of_fmap_2. }
        destruct Hs as [e He]. destruct (Hnew _ _ He) as (_ & _ & Hseen & _).
        eapply newer_than_trans; [by apply Hseen|by apply Hce].
      * intros w Hww. eapply newer_than_trans; [by apply Hw|done].
    + rewrite lookup_insert_ne by done. intros Hp. destruct (Hnew _ _ Hp) as (? & ? & Hseen & ?).
      split_and!; [done..| |done]. intros n1 [Hin|Heq%list_elem_of_singleton]%elem_of_app Hp1;
        [by apply Hseen|congruence].
Qed.

Lemma apply_all_inv nodes : ∀ m seen,
  Forall authority_ok nodes → refresh_inv m seen →
  refresh_inv (foldl (apply_one subject_reports) m nodes) (seen ++ nodes).
Proof.
  induction nodes as [|n nodes IH]; intros m seen Hok Hinv; [by rewrite app_nil_r|].
  apply Forall_cons in Hok as [Hn Hok]. rewrite cons_middle, app_assoc. cbn [foldl].
  apply IH; [done|]. by apply apply_one_inv.
Qed.

Lemma apply_all_start nodes :
  Forall authority_ok nodes → refresh_inv (foldl (apply_one subject_reports) ∅ nodes) nodes.
Proof.
  intros Hok. apply (apply_all_inv nodes ∅ []); [done|]. constructor; intros p.
  - rewrite lookup_empty. cbn. rewrite elem_of_nil. split; [by intros [??]|done].
  - intros n. by rewrite lookup_empty.
Qed.
End refresh.

(** Lookup results returned to the caller: exactly the [count] closest of
    the peers the walk found, closest first and each once; none of them
    carries an older owner view than any copy the walk had of that peer, nor
    than the winner among the reports about it, so a stale candidate copy
    cannot leak out. *)
Theorem apply_winners_spec `{HexLib} `{HashOrder} (subject_reports : gmap PeerId SubjectReports)
    nodes key count :
  (∀ s reports p n, subject_reports !! s = Some reports → reports !! p = Some n →
     node_peer_id n = s ∧ authority_ok n) →
  Forall authority_ok nodes →
  let L := apply_lookup_report_winners nodes subject_reports key count in
  (∃ m, (∀ p, is_Some (m !! p) ↔ p ∈ node_peer_id <$> nodes) ∧ closest_view key count m L) ∧
  ∀ n, n ∈ L →
    (∀ n0, n0 ∈ nodes → node_peer_id n0 = node_peer_id n →
       tle (owner_view_version n0) (owner_view_version n)) ∧
    (∀ reports w winner, subject_reports !! node_peer_id n = Some reports →
       compute_winner (node_peer_id n) reports = Some (w, winner) →
       tle (owner_view_version winner) (owner_view_version n)).
Proof.
  intros Hsub Hok. cbn zeta. destruct (apply_all_start subject_reports Hsub nodes Hok) as [Hdom Hnew].
  unfold apply_lookup_report_winners. set (m := foldl _ _ _) in *.
  assert (Hk : keyed m) by (intros p n Hp; by apply (Hnew _ _ Hp)).
  pose proof (sort_truncate_view m key count Hk) as Hv. split; [by exists m|].
  intros n Hn. apply (view_elem _ _ _ _ Hv) in Hn. destruct (Hnew _ _ Hn) as (_ & _ & Hseen & Hwin).
  split.
  - intros n0 Hn0 Hp. by apply Hseen.
  - intros reports w winner Hr Hw. apply Hwin. unfold winner_of. rewrite Hr. simpl. by rewrite Hw.
Qed.
End views.
