(* ===== verification/SignedAddress.v ===== *)
(** * Versioned address records and signed publications

    The operations of [src/transport_address.rs] and [src/signed_address.rs]
    on the data of [PeerRecord].  The postcard codec and the ML-DSA / BLAKE3
    primitives are libraries: the classes [PostcardLib] and [CryptoLib]. *)

From Stdlib Require Import SpecFloat.
From stdpp Require Import prelude gmap strings.
From S2P Require Import Prelude Keys Ip Address PeerRecord.

Definition MAX_TRANSPORT_ADDRESS_PAYLOAD : nat := 2 * 1024.
Definition MAX_TRANSPORT_ADDRESS_RECORDS : nat := 16.
Definition MAX_SIGNED_ADDRESS_BYTES : nat := 40 * 1024.
Definition ML_DSA_65_PUBLIC_KEY_SIZE : nat := 1952.
Definition ML_DSA_65_SIGNATURE_SIZE : nat := 3309.
Definition DOMAIN : string := "saorsa/address-record/2".

(** ** Stable identifiers *)

Definition transport_from_id (id : N) : option KnownTransport :=
  if (id =? QUIC_ID)%N then Some KQuic
  else if (id =? WEBRTC_DIRECT_ID)%N then Some KWebRtcDirect else None.

Inductive KnownReachability := KRelay | KDirect | KUnverified | KLan.

Definition RELAY_ID : N := 1.
Definition DIRECT_ID : N := 2.
Definition UNVERIFIED_ID : N := 3.
Definition LAN_ID : N := 4.

Definition reachability_id (r : KnownReachability) : N :=
  match r with
  | KRelay => RELAY_ID | KDirect => DIRECT_ID | KUnverified => UNVERIFIED_ID | KLan => LAN_ID
  end.

Definition reachability_from_id (id : N) : option KnownReachability :=
  if (id =? RELAY_ID)%N then Some KRelay
  else if (id =? DIRECT_ID)%N then Some KDirect
  else if (id =? UNVERIFIED_ID)%N then Some KUnverified
  else if (id =? LAN_ID)%N then Some KLan else None.

Definition from_legacy (t : AddressType) : KnownReachability :=
  match t with Relay => KRelay | Direct => KDirect | Unverified => KUnverified | Lan => KLan end.
Definition into_legacy (r : KnownReachability) : AddressType :=
  match r with KRelay => Relay | KDirect => Direct | KUnverified => Unverified | KLan => Lan end.

Definition legacy_reachability (r : TransportAddressRecord) : option AddressType :=
  into_legacy <$> reachability_from_id (record_reachability r).

Definition is_within_wire_bounds (r : TransportAddressRecord) : bool :=
  negb (Nat.eqb (length (record_address r)) 0)
  && (length (record_address r) <=? MAX_TRANSPORT_ADDRESS_PAYLOAD)%nat.

(** [bounded_vec]: a sequence visitor with a size limit.  [hint] is the
    sequence's size hint, the elements are what [next_element] yields. *)
Fixpoint visit_bounded {T E} (limit : nat) (too_long : E) (values : list T)
    (elements : list (result T E)) : result (list T) E :=
  match elements with
  | [] => Ok values
  | Err e :: _ => Err e
  | Ok v :: rest =>
      if Nat.eqb (length values) limit then Err too_long
      else visit_bounded limit too_long (values ++ [v]) rest
  end.

Definition bounded_vec {T E} (limit : nat) (too_long : E) (hint : option nat)
    (elements : list (result T E)) : result (list T) E :=
  if from_option (λ size, limit <? size)%nat false hint then Err too_long
  else visit_bounded limit too_long [] elements.

(** The collection bounds [SignedAddressRecord] is deserialised with. *)
Definition within_decode_bounds (r : SignedAddressRecord) : bool :=
  (length (signed_records r) <=? MAX_TRANSPORT_ADDRESS_RECORDS)%nat
  && forallb (λ t, length (record_address t) <=? MAX_TRANSPORT_ADDRESS_PAYLOAD)%nat (signed_records r)
  && (length (public_key r) <=? ML_DSA_65_PUBLIC_KEY_SIZE)%nat
  && (length (signature r) <=? ML_DSA_65_SIGNATURE_SIZE)%nat.

(** ** Libraries *)

Class PostcardLib `{TransportLib} := {
  to_stdvec_addr : MultiAddr → result (list Z) string;
  from_bytes_addr : list Z → result MultiAddr string;
  to_stdvec_signable : string → PeerId → N → list TransportAddressRecord → result (list Z) string;
  to_stdvec_signed : SignedAddressRecord → result (list Z) string;
  from_bytes_signed : list Z → result SignedAddressRecord string;
  addr_roundtrip a bytes : to_stdvec_addr a = Ok bytes → from_bytes_addr bytes = Ok a;
  signed_roundtrip r bytes : within_decode_bounds r = true →
    to_stdvec_signed r = Ok bytes → from_bytes_signed bytes = Ok r;
  signed_decode_bounded bytes r : from_bytes_signed bytes = Ok r → within_decode_bounds r = true;
  signable_injective d p n l p' n' l' bytes :
    to_stdvec_signable d p n l = Ok bytes → to_stdvec_signable d p' n' l' = Ok bytes →
    p = p' ∧ n = n' ∧ l = l';
}.

Class CryptoLib := {
  MlDsaPublicKey : Type;
  MlDsaSecretKey : Type;
  MlDsaSignature : Type;
  pk_from_bytes : list Z → result MlDsaPublicKey string;
  pk_as_bytes : MlDsaPublicKey → list Z;
  sig_from_bytes : list Z → result MlDsaSignature string;
  sig_as_bytes : MlDsaSignature → list Z;
  blake3_hash : list Z → PeerId;
  ml_dsa_sign : MlDsaSecretKey → list Z → result MlDsaSignature string;
  ml_dsa_verify : MlDsaPublicKey → list Z → MlDsaSignature → result bool string;
  key_pair : MlDsaPublicKey → MlDsaSecretKey → Prop;
  pk_roundtrip k : pk_from_bytes (pk_as_bytes k) = Ok k;
  sig_roundtrip s : sig_from_bytes (sig_as_bytes s) = Ok s;
  sign_verify pk sk m s : key_pair pk sk → ml_dsa_sign sk m = Ok s → ml_dsa_verify pk m s = Ok true;
}.

(** ** Node identities ([src/identity/node_identity.rs]) *)

Record NodeIdentity `{CryptoLib} := mk_identity {
  secret_key : MlDsaSecretKey;
  identity_public_key : MlDsaPublicKey;
  identity_peer_id : PeerId;
}.

Definition peer_id_from_public_key `{CryptoLib} (k : MlDsaPublicKey) : PeerId :=
  blake3_hash (pk_as_bytes k).

Definition ML_DSA_PUB_KEY_LEN : nat := 1952.

Definition peer_id_from_public_key_bytes `{CryptoLib} (bytes : list Z) : result PeerId string :=
  if negb (Nat.eqb (length bytes) ML_DSA_PUB_KEY_LEN) then Err "Invalid ML-DSA public key length"
  else match pk_from_bytes bytes with
       | Err e => Err ("Invalid ML-DSA public key: " +:+ e)
       | Ok k => Ok (peer_id_from_public_key k)
       end.

(** The way every constructor of an identity builds it from a key pair. *)
Definition identity_of `{CryptoLib} (pk : MlDsaPublicKey) (sk : MlDsaSecretKey) : NodeIdentity :=
  {| secret_key := sk; identity_public_key := pk; identity_peer_id := peer_id_from_public_key pk |}.

Section signed.
Context `{TL : TransportLib} `{PL : !PostcardLib} `{CL : CryptoLib}.
Implicit Types (r : SignedAddressRecord) (t : TransportAddressRecord).

(** ** Transport records *)

Definition from_multiaddr (address : MultiAddr) (reachability : KnownReachability)
    : result (option TransportAddressRecord) string :=
  let build (tr : KnownTransport) :=
    let reach := match tr with KQuic => reachability | KWebRtcDirect => KUnverified end in
    match to_stdvec_addr address with
    | Err e => Err e
    | Ok bytes => Ok (Some {| record_transport := transport_id tr;
                              record_reachability := reachability_id reach;
                              record_address := bytes |})
    end in
  if is_quic address then build KQuic
  else if is_webrtc_direct address then build KWebRtcDirect
  else Ok None.

Definition decode_known t : result (option MultiAddr) string :=
  match transport_from_id (record_transport t) with
  | None => Ok None
  | Some tr =>
      match from_bytes_addr (record_address t) with
      | Err e => Err e
      | Ok address =>
          let matches_transport :=
            match tr with KQuic => is_quic address | KWebRtcDirect => is_webrtc_direct address end in
          Ok (if matches_transport then Some address else None)
      end
  end.

(** ** Publications *)

Definition signable_bytes r : result (list Z) string :=
  to_stdvec_signable DOMAIN (owner r) (signed_sequence r) (signed_records r).

Definition validate_record (who : PeerId) t : result unit string :=
  if Nat.eqb (length (record_address t)) 0
     || (MAX_TRANSPORT_ADDRESS_PAYLOAD <? length (record_address t))%nat
  then Err "address record payload exceeds bounds"
  else match decode_known t with
       | Err e => Err e
       | Ok (Some address) =>
           if negb (is_storable address) then Err "address is not a dialable destination"
           else if from_option (λ p, negb (bool_decide (p = who))) false (peer_id address)
                   || (is_webrtc_direct address && negb (bool_decide (peer_id address = Some who)))
           then Err "address owner mismatch"
           else Ok tt
       | Ok None =>
           match transport_from_id (record_transport t) with
           | Some _ => Err "address does not match transport identifier"
           | None => Ok tt
           end
       end.

Fixpoint validate_records (who : PeerId) (l : list TransportAddressRecord) : result unit string :=
  match l with
  | [] => Ok tt
  | t :: l' => match validate_record who t with Err e => Err e | Ok _ => validate_records who l' end
  end.

Definition validate r : result unit string :=
  if (signed_sequence r =? 0)%N || Nat.eqb (length (signed_records r)) 0
     || (MAX_TRANSPORT_ADDRESS_RECORDS <? length (signed_records r))%nat
  then Err "invalid address record sequence or cardinality"
  else validate_records (owner r) (signed_records r).

Definition sign (identity : NodeIdentity) (sequence : N) (records : list TransportAddressRecord)
    : result SignedAddressRecord string :=
  let record := {| owner := identity_peer_id identity; signed_sequence := sequence;
                   signed_records := records;
                   public_key := pk_as_bytes (identity_public_key identity); signature := [] |} in
  match validate record with
  | Err e => Err e
  | Ok _ =>
      match signable_bytes record with
      | Err e => Err e
      | Ok bytes =>
          match ml_dsa_sign (secret_key identity) bytes with
          | Err e => Err e
          | Ok s => Ok {| owner := owner record; signed_sequence := sequence;
                          signed_records := records; public_key := public_key record;
                          signature := sig_as_bytes s |}
          end
      end
  end.

Definition verify r : result VerifiedAddressRecord string :=
  match validate r with
  | Err e => Err e
  | Ok _ =>
      match pk_from_bytes (public_key r) with
      | Err e => Err e
      | Ok key =>
          if negb (bool_decide (peer_id_from_public_key key = owner r))
          then Err "address signing key does not match owner"
          else match sig_from_bytes (signature r) with
               | Err e => Err e
               | Ok s =>
                   match signable_bytes r with
                   | Err e => Err e
                   | Ok bytes =>
                       match ml_dsa_verify key bytes s with
                       | Err e => Err e
                       | Ok false => Err "invalid address record signature"
                       | Ok true => Ok (mk_verified r)
                       end
                   end
               end
      end
  end.

Definition encode_signed r : result (list Z) string := to_stdvec_signed r.

Definition decode_signed (bytes : list Z) : result SignedAddressRecord string :=
  if (MAX_SIGNED_ADDRESS_BYTES <? length bytes)%nat
  then Err "signed address record exceeds envelope limit"
  else from_bytes_signed bytes.

(** The typed address a record contributes to the derived view. *)
Definition record_view t : option (MultiAddr * AddressType) :=
  match decode_known t with
  | Ok (Some address) =>
      let kind :=
        if is_webrtc_direct address then Unverified
        else match reachability_from_id (record_reachability t) with
             | Some KRelay => Relay
             | Some KDirect => Direct
             | Some KLan => Lan
             | _ => Unverified
             end in
      Some (address, for_advertised_address address kind)
  | _ => None
  end.

Definition peer_record (v : VerifiedAddressRecord) (rel : spec_float) : DHTNode :=
  let typed := omap record_view (verified_records v) in
  {| node_peer_id := verified_owner v;
     addresses := fst <$> typed;
     address_types := snd <$> typed;
     distance := encode_publish_seq_distance (verified_sequence v);
     reliability := rel;
     address_authority := Some (Signed v) |}.

(** ** Bundles *)

(** [u32::to_be_bytes] and [u32::from_be_bytes]. *)
Definition u32_to_be_bytes (n : nat) : list Z :=
  (λ i, (Z.of_nat n / 2 ^ (8 * i)) mod 256)%Z <$> [3; 2; 1; 0]%Z.
Definition u32_from_be_bytes (l : list Z) : nat := Z.to_nat (be_combine l).

Fixpoint encode_record_bundle (records : list SignedAddressRecord) : result (list Z) string :=
  match records with
  | [] => Ok []
  | r :: rest =>
      match encode_signed r with
      | Err e => Err e
      | Ok encoded =>
          if (MAX_SIGNED_ADDRESS_BYTES <? length encoded)%nat then Err "signed record exceeds limit"
          else if (2 ^ 32 <=? Z.of_nat (length encoded))%Z
          then Err "out of range integral type conversion attempted"
          else match encode_record_bundle rest with
               | Err e => Err e
               | Ok bytes => Ok (u32_to_be_bytes (length encoded) ++ encoded ++ bytes)
               end
      end
  end.

(** The loop of [decode_record_bundle]; every iteration consumes at least the
    four length bytes, so the input length is enough fuel. *)
Fixpoint decode_bundle_loop (fuel : nat) (bytes : list Z) (max_records : nat)
    (records : list SignedAddressRecord) : result (list SignedAddressRecord) string :=
  match bytes with
  | [] => Ok records
  | _ =>
      match fuel with
      | O => Err "out of fuel"
      | S fuel =>
          if (max_records <=? length records)%nat || (length bytes <? 4)%nat
          then Err "invalid signed record bundle"
          else
            let len := u32_from_be_bytes (take 4 bytes) in
            let bytes := drop 4 bytes in
            if (length bytes <? len)%nat then Err "truncated signed record"
            else match decode_signed (take len bytes) with
                 | Err e => Err e
                 | Ok r => decode_bundle_loop fuel (drop len bytes) max_records (records ++ [r])
                 end
      end
  end.

Definition decode_record_bundle (bytes : list Z) (max_records : nat)
    : result (list SignedAddressRecord) string :=
  decode_bundle_loop (length bytes) bytes max_records [].
End signed.

(** ** Properties *)

Lemma transport_from_to x : transport_from_id (transport_id x) = Some x.
Proof. by destruct x. Qed.
Lemma transport_to_from n x : transport_from_id n = Some x → transport_id x = n.
Proof.
  unfold transport_from_id. destruct (N.eqb_spec n QUIC_ID); [by intros [= <-]|].
  destruct (N.eqb_spec n WEBRTC_DIRECT_ID); [by intros [= <-]|done].
Qed.
Lemma reachability_from_to x : reachability_from_id (reachability_id x) = Some x.
Proof. by destruct x. Qed.
Lemma into_from_legacy t : into_legacy (from_legacy t) = t.
Proof. by destruct t. Qed.

Lemma visit_bounded_spec {T E} limit (too_long : E) elements : ∀ (values l : list T),
  length values ≤ limit →
  visit_bounded limit too_long values elements = Ok l ↔
  ∃ new, elements = (Ok <$> new) ∧ l = values ++ new ∧ length l ≤ limit.
Proof.
  induction elements as [|e elements IH]; intros values l Hlen; simpl.
  - split.
    + intros [= <-]. exists []. by rewrite app_nil_r.
    + intros ([|x new] & Hnew & -> & _); [|done]. by rewrite app_nil_r.
  - destruct e as [v|err].
    + destruct (Nat.eqb_spec (length values) limit) as [Heq|Hne].
      * split; [done|]. intros ([|x new] & Hnew & -> & Hl); [done|].
        rewrite length_app in Hl. simpl in Hl. lia.
      * rewrite IH by (rewrite length_app; simpl; lia). split.
        -- intros (new & -> & -> & Hl). exists (v :: new). by rewrite <- app_assoc in *.
        -- intros ([|x new] & Hnew & -> & Hl); [done|]. rewrite fmap_cons in Hnew. simplify_eq.
           exists new. by rewrite <- app_assoc.
    + split; [done|]. by intros ([|x new] & Hnew & _).
Qed.

(** The bounded collection visitor accepts exactly the element sequences
    of at most [limit] well-formed elements whose size hint, if any, does not
    exceed the limit, and returns them unchanged; everything else is an
    error, so no oversized collection is ever built. *)
Theorem bounded_vec_spec {T E} limit (too_long : E) hint (elements : list (result T E)) l :
  bounded_vec limit too_long hint elements = Ok l ↔
  elements = (Ok <$> l) ∧ length l ≤ limit ∧ (∀ size, hint = Some size → size ≤ limit).
Proof.
  unfold bounded_vec. destruct hint as [size|]; simpl.
  - destruct (Nat.ltb_spec limit size) as [Hlt|Hge].
    + split; [done|]. intros (_ & _ & Hs). specialize (Hs _ eq_refl). lia.
    + rewrite visit_bounded_spec by (simpl; lia). simpl. naive_solver.
  - rewrite visit_bounded_spec by (simpl; lia). simpl. naive_solver.
Qed.

Section properties.
Context `{TL : TransportLib} `{PL : !PostcardLib} `{CL : CryptoLib}.
Implicit Types (r : SignedAddressRecord) (t : TransportAddressRecord).

(** Wire records of known transports are faithful: a record built from an
    address decodes to it and shows the reachability it was built with
    (always unverified for WebRTC Direct); a record whose identifier does not
    match its payload never yields an address, and one with an unknown
    identifier stays opaque. *)
Theorem transport_record_roundtrip a reach :
  (∀ t, from_multiaddr a reach = Ok (Some t) →
     decode_known t = Ok (Some a) ∧
     legacy_reachability t = Some (if is_webrtc_direct a then Unverified else into_legacy reach)) ∧
  (∀ t tr, transport_from_id (record_transport t) = Some tr → decode_known t = Ok (Some a) →
     from_bytes_addr (record_address t) = Ok a ∧
     (if is_quic a then tr = KQuic else is_webrtc_direct a = true ∧ tr = KWebRtcDirect)) ∧
  (∀ t, transport_from_id (record_transport t) = None → decode_known t = Ok None).
Proof.
  split_and!.
  - intros t. unfold from_multiaddr. destruct (is_quic a) eqn:Hq; [|destruct (is_webrtc_direct a) eqn:Hw; [|done]].
    + destruct (to_stdvec_addr a) as [bytes|] eqn:Hb; [|done]. intros [= <-].
      unfold decode_known, legacy_reachability. cbn [record_transport record_address record_reachability].
      change (transport_from_id QUIC_ID) with (Some KQuic). cbn match.
      by rewrite (addr_roundtrip _ _ Hb), Hq, reachability_from_to, (quic_webrtc_disjoint a Hq).
    + destruct (to_stdvec_addr a) as [bytes|] eqn:Hb; [|done]. intros [= <-].
      unfold decode_known, legacy_reachability. cbn [record_transport record_address record_reachability].
      change (transport_from_id WEBRTC_DIRECT_ID) with (Some KWebRtcDirect). cbn match.
      by rewrite (addr_roundtrip _ _ Hb), Hw.
  - intros t tr Htr. unfold decode_known. rewrite Htr.
    destruct (from_bytes_addr (record_address t)) as [a'|]; [|done].
    destruct tr.
    + destruct (is_quic a') eqn:Hq; [|done]. intros [= <-]. by rewrite Hq.
    + destruct (is_webrtc_direct a') eqn:Hw; [|done]. intros [= <-]. split; [done|].
      destruct (is_quic a') eqn:Hq; [|done]. by rewrite (quic_webrtc_disjoint a' Hq) in Hw.
  - intros t Ht. unfold decode_known. by rewrite Ht.
Qed.

(** What validation of one record establishes. *)
Definition record_valid (who : PeerId) t : Prop :=
  0 < length (record_address t) ≤ MAX_TRANSPORT_ADDRESS_PAYLOAD ∧
  ((transport_from_id (record_transport t) = None ∧ decode_known t = Ok None) ∨
   ∃ a, decode_known t = Ok (Some a) ∧ is_storable a = true ∧
     (peer_id a = None ∨ peer_id a = Some who) ∧ (is_webrtc_direct a = true → peer_id a = Some who)).

Lemma validate_record_Ok who t : validate_record who t = Ok tt ↔ record_valid who t.
Proof.
  unfold validate_record, record_valid.
  destruct (Nat.eqb_spec (length (record_address t)) 0) as [Hz|Hz]; simpl; [split; [done|lia]|].
  destruct (Nat.ltb_spec MAX_TRANSPORT_ADDRESS_PAYLOAD (length (record_address t))) as [Hl|Hl];
    [split; [done|lia]|].
  assert (Hlen : 0 < length (record_address t) ≤ MAX_TRANSPORT_ADDRESS_PAYLOAD) by lia.
  destruct (decode_known t) as [[a|]|e] eqn:Hd.
  - assert (Hiff : (0 < length (record_address t) ≤ MAX_TRANSPORT_ADDRESS_PAYLOAD) ∧
      ((transport_from_id (record_transport t) = None ∧ Ok (E := string) (Some a) = Ok None) ∨
       ∃ a0, Ok (E := string) (Some a) = Ok (Some a0) ∧ is_storable a0 = true ∧
         (peer_id a0 = None ∨ peer_id a0 = Some who) ∧ (is_webrtc_direct a0 = true → peer_id a0 = Some who)) ↔
      is_storable a = true ∧ (peer_id a = None ∨ peer_id a = Some who) ∧
      (is_webrtc_direct a = true → peer_id a = Some who)).
    { split; [|by eauto 10]. intros [_ [[_ ?]|(a' & [= <-] & ?)]]; done. }
    rewrite Hiff. clear Hiff. destruct (is_storable a) eqn:Hs; cbn [negb]; [|by split; [|intros [? _]]].
    destruct (peer_id a) as [p|]; simpl.
    + destruct (decide (p = who)) as [->|Hne].
      * rewrite !bool_decide_eq_true_2 by done. simpl. rewrite andb_false_r. split; auto.
      * rewrite !bool_decide_eq_false_2 by congruence. simpl. split; [done|].
        intros (_ & [?|?] & _); congruence.
    + rewrite ?andb_true_r.
      destruct (is_webrtc_direct a).
      * split; [done|]. intros (_ & _ & Hw). by specialize (Hw eq_refl).
      * split; [|done]. intros _. split_and!; auto. done.
  - destruct (transport_from_id (record_transport t)).
    + split; [done|]. intros [_ [[? _]|(a & ? & _)]]; congruence.
    + split; auto.
  - split; [done|]. intros [_ [[_ ?]|(a & ? & _)]]; congruence.
Qed.

Lemma validate_records_Ok who l : validate_records who l = Ok tt ↔ Forall (record_valid who) l.
Proof.
  induction l as [|t l IH]; simpl; [by rewrite Forall_nil|]. rewrite Forall_cons, <- validate_record_Ok, <- IH.
  destruct (validate_record who t) as [[]|]; naive_solver.
Qed.

Definition record_set_valid r : Prop :=
  signed_sequence r ≠ 0%N ∧ 0 < length (signed_records r) ≤ MAX_TRANSPORT_ADDRESS_RECORDS ∧
  Forall (record_valid (owner r)) (signed_records r).

Lemma validate_Ok r : validate r = Ok tt ↔ record_set_valid r.
Proof.
  unfold validate, record_set_valid.
  destruct (N.eqb_spec (signed_sequence r) 0) as [Hs|Hs]; simpl; [naive_solver|].
  destruct (Nat.eqb_spec (length (signed_records r)) 0) as [Hz|Hz]; simpl; [split; [done|lia]|].
  destruct (Nat.ltb_spec MAX_TRANSPORT_ADDRESS_RECORDS (length (signed_records r))) as [Hl|Hl];
    [split; [done|lia]|].
  rewrite validate_records_Ok. split; [|by intros (_ & _ & ?)]. intros Hf. split; [done|]. split; [lia|done].
Qed.

Lemma validate_unit r u : validate r = Ok u ↔ validate r = Ok tt.
Proof. by destruct u. Qed.

Lemma verify_Ok r v :
  verify r = Ok v ↔
  v = mk_verified r ∧ record_set_valid r ∧
  ∃ key s bytes, pk_from_bytes (public_key r) = Ok key ∧ peer_id_from_public_key key = owner r ∧
    sig_from_bytes (signature r) = Ok s ∧ signable_bytes r = Ok bytes ∧ ml_dsa_verify key bytes s = Ok true.
Proof.
  unfold verify. rewrite <- validate_Ok.
  destruct (validate r) as [[]|]; [|by split; [|intros (_ & ? & _)]].
  destruct (pk_from_bytes (public_key r)) as [key|]; [|split; [done|by intros (_ & _ & ? & ? & ? & ? & _)]].
  case_bool_decide as Hown; cbn [negb]; [|split; [done|by intros (_ & _ & ? & _ & _ & [= ->] & ? & _)]].
  destruct (sig_from_bytes (signature r)) as [s|];
    [|split; [done|by intros (_ & _ & ? & ? & ? & _ & _ & ? & _)]].
  destruct (signable_bytes r) as [bytes|]; [|split; [done|by intros (_ & _ & ? & ? & ? & _ & _ & _ & ? & _)]].
  destruct (ml_dsa_verify key bytes s) as [[]|] eqn:Hv.
  - split; [|by intros (-> & _)]. intros [= <-]. split_and!; [done..|]. by exists key, s, bytes.
  - split; [done|]. intros (_ & _ & ? & ? & ? & [= ->] & _ & [= ->] & [= ->] & ?). congruence.
  - split; [done|]. intros (_ & _ & ? & ? & ? & [= ->] & _ & [= ->] & [= ->] & ?). congruence.
Qed.

(** A record passes verification exactly when it is well-formed (nonzero
    sequence, 1 to 16 records, bounded payloads, known transports decoding to
    storable addresses of the owner) and its signature over owner, sequence
    and records checks under a key whose hash is the owner; the verified
    record is the record itself.  Two records with the same signed bytes have
    the same owner, sequence and records. *)
Theorem verify_sound_complete r v :
  (verify r = Ok v ↔
   v = mk_verified r ∧ record_set_valid r ∧
   ∃ key s bytes, pk_from_bytes (public_key r) = Ok key ∧ blake3_hash (pk_as_bytes key) = owner r ∧
     sig_from_bytes (signature r) = Ok s ∧ signable_bytes r = Ok bytes ∧ ml_dsa_verify key bytes s = Ok true) ∧
  (∀ r' bytes, signable_bytes r = Ok bytes → signable_bytes r' = Ok bytes →
     owner r = owner r' ∧ signed_sequence r = signed_sequence r' ∧ signed_records r = signed_records r').
Proof.
  split; [apply verify_Ok|]. intros r' bytes H1 H2. by eapply signable_injective.
Qed.

Lemma sign_verifies pk sk sequence records r :
  key_pair pk sk → sign (identity_of pk sk) sequence records = Ok r →
  verify r = Ok (mk_verified r) ∧ owner r = peer_id_from_public_key pk ∧
  signed_sequence r = sequence ∧ signed_records r = records.
Proof.
  intros Hkey. unfold sign. set (rec := {| owner := _ |}).
  destruct (validate rec) as [[]|] eqn:Hv; [|done].
  destruct (signable_bytes rec) as [bytes|] eqn:Hb; [|done].
  destruct (ml_dsa_sign _ bytes) as [s|] eqn:Hs; [|done]. intros [= <-]. split_and!; [|done..].
  apply verify_Ok. split; [done|]. split.
  - by apply validate_Ok in Hv.
  - exists pk, s, bytes. split_and!; [apply pk_roundtrip|done|apply sig_roundtrip|done|].
    by eapply sign_verify.
Qed.

(** What an identity signs, everyone verifies: a publication signed with
    the key pair of an identity verifies, and its owner is that identity. *)
Theorem sign_then_verify pk sk sequence records r :
  key_pair pk sk → sign (identity_of pk sk) sequence records = Ok r →
  verify r = Ok (mk_verified r) ∧ owner r = peer_id_from_public_key pk ∧
  signed_sequence r = sequence ∧ signed_records r = records.
Proof. apply sign_verifies. Qed.

(** The peer record derived from a verified publication: its tags are
    parallel to its addresses, every address is a storable destination of the
    owner, a local address is tagged local and a WebRTC address never better
    than unverified; the record carries the publication as its authority,
    with a nonzero sequence. *)
Theorem peer_record_sound r v rel :
  verify r = Ok v →
  let n := peer_record v rel in
  node_peer_id n = owner r ∧ length (address_types n) = length (addresses n) ∧
  address_authority n = Some (Signed v) ∧ dht_node_publish_seq n = signed_sequence r ∧
  dht_node_publish_seq n ≠ 0%N ∧
  ∀ a (t : AddressType), (a, t) ∈ zip (addresses n) (address_types n) →
    is_storable a = true ∧ (peer_id a = None ∨ peer_id a = Some (owner r)) ∧
    for_advertised_address a t = t ∧ (is_webrtc_direct a = true → t = Unverified ∨ t = Lan).
Proof.
  rewrite verify_Ok. intros (-> & (Hseq & _ & Hrec) & _). cbn zeta. unfold peer_record.
  cbn [node_peer_id address_types addresses address_authority dht_node_publish_seq].
  split_and!; [done|by rewrite !length_fmap|done|done|done|].
  intros a t. rewrite zip_fst_snd. intros (rec & Hin & Hview)%list_elem_of_omap.
  rewrite Forall_forall in Hrec. specialize (Hrec _ Hin) as [_ Hrec].
  unfold record_view in Hview. destruct Hrec as [[_ Hno]|(a' & Hd & Hst & Hown & _)];
    [by rewrite Hno in Hview|]. rewrite Hd in Hview. injection Hview as -> <-.
  split_and!; [done|done|apply for_advertised_idemp|]. intros ->.
  unfold for_advertised_address. destruct (from_option _ _ _); auto.
Qed.

(** *** Bundles *)

Lemma u32_from_to n : (Z.of_nat n < 2 ^ 32)%Z → u32_from_be_bytes (u32_to_be_bytes n) = n.
Proof.
  intros Hn. unfold u32_from_be_bytes, u32_to_be_bytes.
  change [3; 2; 1; 0]%Z with (Z.of_nat <$> reverse (seq 0 4)).
  rewrite be_combine_to_bytes by lia. rewrite Z.mod_small; [lia|]. split; [lia|]. exact Hn.
Qed.

Lemma decode_bundle_fuel fuel : ∀ bytes fuel' max records,
  length bytes ≤ fuel → length bytes ≤ fuel' →
  decode_bundle_loop fuel bytes max records = decode_bundle_loop fuel' bytes max records.
Proof.
  induction fuel as [|fuel IH]; intros bytes fuel' max records Hf Hf'.
  - destruct bytes; [by destruct fuel'|simpl in Hf; lia].
  - destruct bytes as [|b bytes]; [by destruct fuel'|]. destruct fuel' as [|fuel']; [simpl in Hf'; lia|].
    set (bs := b :: bytes) in *. cbn [decode_bundle_loop]. unfold bs at 1 5.
    destruct (_ || _); [done|]. cbn zeta. destruct (_ <? _)%nat; [done|].
    destruct (decode_signed _); [|done]. apply IH; rewrite !length_drop; simpl length in *; lia.
Qed.

Lemma decode_bundle_step bytes max records :
  bytes ≠ [] →
  decode_bundle_loop (length bytes) bytes max records =
  if (max <=? length records)%nat || (length bytes <? 4)%nat then Err "invalid signed record bundle"
  else let len := u32_from_be_bytes (take 4 bytes) in
       if (length (drop 4 bytes) <? len)%nat then Err "truncated signed record"
       else match decode_signed (take len (drop 4 bytes)) with
            | Err e => Err e
            | Ok r => decode_bundle_loop (length (drop len (drop 4 bytes))) (drop len (drop 4 bytes)) max (records ++ [r])
            end.
Proof.
  intros Hne. destruct bytes as [|b bytes]; [done|]. set (bs := b :: bytes).
  change (length bs) with (S (length bytes)) at 1. cbn [decode_bundle_loop]. unfold bs at 1.
  destruct (_ || _); [done|]. cbn zeta. destruct (_ <? _)%nat; [done|].
  destruct (decode_signed _); [|done]. apply decode_bundle_fuel; rewrite !length_drop; simpl; lia.
Qed.

Lemma decode_bundle_append recs : ∀ bytes max records,
  Forall (λ r, within_decode_bounds r = true) recs →
  encode_record_bundle recs = Ok bytes → length records + length recs ≤ max →
  decode_bundle_loop (length bytes) bytes max records = Ok (records ++ recs).
Proof.
  induction recs as [|r recs IH]; intros bytes max records Hb; cbn [encode_record_bundle].
  { intros [= <-] _. by rewrite app_nil_r. }
  apply Forall_cons in Hb as [Hr Hb]. unfold encode_signed. destruct (to_stdvec_signed r) as [enc|] eqn:He; [|done].
  destruct (Nat.ltb_spec MAX_SIGNED_ADDRESS_BYTES (length enc)) as [|Hlen]; [done|].
  destruct (Z.leb_spec (2 ^ 32) (Z.of_nat (length enc))) as [|H32]; [done|].
  destruct (encode_record_bundle recs) as [rest|] eqn:Hrest; [|done]. intros Heq Hmax.
  assert (bytes = u32_to_be_bytes (length enc) ++ enc ++ rest) as -> by congruence. clear Heq.
  assert (Hd : drop 4 (u32_to_be_bytes (length enc) ++ enc ++ rest) = enc ++ rest) by done.
  assert (Ht : take 4 (u32_to_be_bytes (length enc) ++ enc ++ rest) = u32_to_be_bytes (length enc)) by done.
  rewrite decode_bundle_step by done. rewrite Ht, Hd, u32_from_to by done. cbn zeta.
  simpl length in Hmax. rewrite (proj2 (Nat.leb_gt max (length records))) by lia.
  rewrite length_app. cbn [orb]. change (length (u32_to_be_bytes (length enc))) with 4.
  rewrite (proj2 (Nat.ltb_ge (4 + _) 4)), length_app, (proj2 (Nat.ltb_ge _ _)) by lia.
  rewrite take_app_length, drop_app_length. unfold decode_signed.
  rewrite (proj2 (Nat.ltb_ge _ _)) by lia. rewrite (signed_roundtrip _ _ Hr He).
  rewrite (IH rest max (records ++ [r])); [by rewrite <- app_assoc|done|done|].
  rewrite length_app. simpl. lia.
Qed.

Lemma decode_bundle_bounded fuel : ∀ bytes max records l,
  length records ≤ max → Forall (λ r, within_decode_bounds r = true) records →
  decode_bundle_loop fuel bytes max records = Ok l →
  length l ≤ max ∧ Forall (λ r, within_decode_bounds r = true) l.
Proof.
  induction fuel as [|fuel IH]; intros bytes max records l Hlen Hall.
  - destruct bytes; simpl; [by intros [= <-]|done].
  - destruct bytes as [|b bytes]; [by intros [= <-]|]. set (bs := b :: bytes).
    cbn [decode_bundle_loop]. unfold bs at 1.
    destruct (Nat.leb_spec max (length records)) as [|Hlt]; [done|]. cbn [orb].
    destruct (_ <? 4)%nat; [done|]. cbn zeta. destruct (_ <? _)%nat; [done|].
    unfold decode_signed. destruct (_ <? _)%nat; [done|].
    destruct (from_bytes_signed _) as [r|] eqn:Hr; [|done]. apply IH.
    + rewrite length_app. simpl. lia.
    + apply Forall_app. split; [done|]. constructor; [by eapply signed_decode_bounded|done].
Qed.

(** Bundles of signed records round-trip: what [encode_record_bundle]
    writes, [decode_record_bundle] reads back, whenever the record limit
    admits it; whatever bytes arrive, a successful decoding yields at most
    the requested number of records, each within the decoding bounds; and the
    loop ends within as many iterations as there are bytes, more never change
    the outcome. *)
Theorem bundle_roundtrip recs bytes max :
  (Forall (λ r, within_decode_bounds r = true) recs → encode_record_bundle recs = Ok bytes →
   length recs ≤ max → decode_record_bundle bytes max = Ok recs) ∧
  (∀ l, decode_record_bundle bytes max = Ok l →
     length l ≤ max ∧ Forall (λ r, within_decode_bounds r = true) l) ∧
  (∀ fuel, length bytes ≤ fuel → decode_bundle_loop fuel bytes max [] = decode_record_bundle bytes max).
Proof.
  unfold decode_record_bundle. split_and!.
  - intros Hb He Hmax. by apply (decode_bundle_append recs bytes max []).
  - intros l. by apply decode_bundle_bounded; [simpl; lia|].
  - intros fuel Hf. by apply decode_bundle_fuel.
Qed.
End properties.
