(* ===== verification/Identity.v ===== *)
(** * The identity of a node

    [src/identity/node_identity.rs]: generating an identity, deriving it from
    a seed, and keeping it on disk.  Key generation, the key derivation and
    the document format are libraries: [KeyLib]. *)

From stdpp Require Import prelude strings.
From S2P Require Import Prelude Keys Address SignedAddress Snapshots.

(** The persisted form of an identity. *)
Record IdentityData := mk_identity_data {
  data_secret_key : list Z;
  data_public_key : list Z;
}.

(** The secret-key half of the signature crate, its key generation from a
    seed (public and secret bytes), HKDF-SHA3, and [serde_json]. *)
Class KeyLib `{CryptoLib} := {
  sk_from_bytes : list Z → result MlDsaSecretKey string;
  sk_as_bytes : MlDsaSecretKey → list Z;
  generate_keypair_from_seed : list Z → list Z * list Z;
  hkdf_derive : list Z → string → option (list Z);
  identity_to_json : IdentityData → string;
  identity_from_json : string → option IdentityData;
  sk_roundtrip k : sk_from_bytes (sk_as_bytes k) = Ok k;
  identity_json_roundtrip d : identity_from_json (identity_to_json d) = Some d;
}.

Inductive IdentityError :=
  | KeyGenerationFailed
  | HkdfFailed
  | InvalidPublicKey
  | InvalidSecretKey
  | CreateDirectoryFailed
  | WriteFailed
  | ReadFailed
  | DeserializeFailed.
#[export] Instance IdentityError_eq_dec : EqDecision IdentityError.
Proof. solve_decision. Defined.

(** Where [save_to_file] stops; [StoppedAfter n] is a write that ends after
    [n] characters of the truncated file. *)
Inductive IdentityFault := NoDirectory | NotOpened | StoppedAfter (n : nat).

Section identity.
Context `{CL : CryptoLib} `{KL : !KeyLib}.
Implicit Types (i : NodeIdentity) (d : IdentityData).

(** [NodeIdentity::generate] of the pair the crate draws. *)
Definition generate (drawn : option (MlDsaPublicKey * MlDsaSecretKey)) : result NodeIdentity IdentityError :=
  match drawn with
  | Some (pk, sk) => Ok (identity_of pk sk)
  | None => Err KeyGenerationFailed
  end.

Definition from_seed (seed : list Z) : result NodeIdentity IdentityError :=
  match hkdf_derive seed "saorsa-node-identity-seed" with
  | None => Err HkdfFailed
  | Some xi =>
      let '(pk, sk) := generate_keypair_from_seed xi in
      match pk_from_bytes pk with
      | Err _ => Err InvalidPublicKey
      | Ok public_key =>
          match sk_from_bytes sk with
          | Err _ => Err InvalidSecretKey
          | Ok secret_key => Ok (identity_of public_key secret_key)
          end
      end
  end.

Definition identity_export i : IdentityData :=
  mk_identity_data (sk_as_bytes (secret_key i)) (pk_as_bytes (identity_public_key i)).

Definition identity_import d : result NodeIdentity IdentityError :=
  match sk_from_bytes (data_secret_key d) with
  | Err _ => Err InvalidSecretKey
  | Ok secret_key =>
      match pk_from_bytes (data_public_key d) with
      | Err _ => Err InvalidPublicKey
      | Ok public_key => Ok (identity_of public_key secret_key)
      end
  end.

(** The file is written in place. *)
Definition save_to_file i (fault : option IdentityFault) (f : DiskFile) : result unit IdentityError * DiskFile :=
  let json := identity_to_json (identity_export i) in
  match fault with
  | None => (Ok (), regular json)
  | Some NoDirectory => (Err CreateDirectoryFailed, f)
  | Some NotOpened => (Err WriteFailed, f)
  | Some (StoppedAfter n) => (Err WriteFailed, regular (str_take n json))
  end.

Definition load_from_file (f : DiskFile) : result NodeIdentity IdentityError :=
  match f with
  | Missing | OpenFails | NotRegular => Err ReadFailed
  | Regular _ contents =>
      match identity_from_json contents with
      | None => Err DeserializeFailed
      | Some d => identity_import d
      end
  end.

(** ** An identity is its keys *)

(** The identity of a key pair: its peer id is that of the public key. *)
Definition identity_wf i : Prop := identity_peer_id i = peer_id_from_public_key (identity_public_key i).

Lemma identity_wf_of i : identity_wf i → i = identity_of (identity_public_key i) (secret_key i).
Proof. destruct i as [sk pk p]. unfold identity_wf, identity_of. cbn. by intros ->. Qed.

Lemma generate_wf drawn i : generate drawn = Ok i → identity_wf i.
Proof. destruct drawn as [[pk sk]|]; [|done]. by intros [= <-]. Qed.
Lemma import_wf d i : identity_import d = Ok i → identity_wf i.
Proof. unfold identity_import. destruct (sk_from_bytes _); [|done]. destruct (pk_from_bytes _); [|done]. by intros [= <-]. Qed.
Lemma from_seed_wf seed i : from_seed seed = Ok i → identity_wf i.
Proof.
  unfold from_seed. destruct (hkdf_derive _ _); [|done]. destruct (generate_keypair_from_seed _) as [pk sk].
  destruct (pk_from_bytes pk); [|done]. destruct (sk_from_bytes sk); [|done]. by intros [= <-].
Qed.
Lemma load_wf f i : load_from_file f = Ok i → identity_wf i.
Proof. destruct f as [| | |len s]; try done. cbn. destruct (identity_from_json s); [apply import_wf|done]. Qed.

Lemma import_export i : identity_wf i → identity_import (identity_export i) = Ok i.
Proof. intros Hi%identity_wf_of. unfold identity_import, identity_export. cbn. by rewrite sk_roundtrip, pk_roundtrip, <-Hi. Qed.

(** An identity is loaded as it was saved, under whatever name it is known; a save that fails before it writes leaves the
    stored identity; one that stops while writing leaves what a prefix of the document parses to, whatever was stored. *)
Lemma identity_persists i fault f :
  identity_wf i →
  match fault with
  | None => load_from_file (save_to_file i fault f).2 = Ok i
  | Some (StoppedAfter n) =>
      load_from_file (save_to_file i fault f).2 =
      match identity_from_json (str_take n (identity_to_json (identity_export i))) with
      | Some d => identity_import d | None => Err DeserializeFailed end
  | Some _ => load_from_file (save_to_file i fault f).2 = load_from_file f
  end.
Proof.
  intros Hi. destruct fault as [[| |n]|]; [done..|]. cbn. by rewrite identity_json_roundtrip, import_export.
Qed.

(** Nothing ties the secret key of an imported document to its public key: any two keys that parse make an identity, named
    by the public one. *)
Lemma import_takes_any_pair pk sk :
  identity_import (mk_identity_data (sk_as_bytes sk) (pk_as_bytes pk)) = Ok (identity_of pk sk).
Proof. unfold identity_import. cbn. by rewrite sk_roundtrip, pk_roundtrip. Qed.

End identity.
