(* ===== verification/RecordSamples.v ===== *)
(** * Examples for addresses, peer records and client routing

    Concrete peers over the library models of [Models], on which the theorems
    of [Address], [PeerRecord] and [ClientRouting] are applied. *)

From Stdlib Require Import Ascii String SpecFloat.
From stdpp Require Import prelude sorting gmap strings.
From S2P Require Import Prelude Keys Ip Address Models PeerRecord ClientRouting.

Module RecordSamples.

#[local] Existing Instance plain_transport.
#[local] Existing Instance plain_hex.

(** Iteration in map order, and in the opposite order. *)
#[export] Instance forward_order : HashOrder :=
  {| hash_iter K V l := l; hash_iter_perm K V l := reflexivity l |}.
Definition backward_order : HashOrder :=
  {| hash_iter K V l := reverse l; hash_iter_perm K V l := reverse_Permutation l |}.

Definition peer (n : Z) : PeerId := key_of_bytes [n].
Definition public_addr (n : Z) : MultiAddr := from_ipv4 (ipv4 203 0 113 n) 9000.
Definition lan_addr (n : Z) : MultiAddr := from_ipv4 (ipv4 192 168 1 n) 9000.

Definition hint (p : Z) (addrs : list MultiAddr) (types : list AddressType) : DHTNode :=
  {| node_peer_id := peer p; addresses := addrs; address_types := types; distance := None;
     reliability := S754_zero false; address_authority := None |}.
Definition owned (p : Z) (seq : N) (addrs : list MultiAddr) : DHTNode :=
  {| node_peer_id := peer p; addresses := addrs; address_types := []; distance := None;
     reliability := S754_zero false; address_authority := Some (AuthenticatedOwner seq) |}.
Definition publication_of (p : Z) (seq : N) : DHTNode :=
  {| node_peer_id := peer p; addresses := []; address_types := []; distance := None;
     reliability := S754_zero false;
     address_authority := Some (Signed (mk_verified (mk_signed (peer p) seq [] [] []))) |}.

(** The codec laws hold of the models, and the parser runs. *)
Lemma multiaddr_roundtrip_witness :
  from_str (to_string (with_peer_id (public_addr 9) (peer 7))) =
  Ok (with_peer_id (public_addr 9) (peer 7)).
Proof. apply (multiaddr_roundtrip (with_peer_id (public_addr 9) (peer 7))). Defined.

Lemma from_str_sound_witness :
  let s := to_string (with_peer_id (public_addr 9) (peer 7)) in
  ∃ t h p, s = t +:+ "/p2p/" +:+ h ∧ t ≠ EmptyString ∧ contains "/" h = false ∧
    transport_parse t = Ok (transport (public_addr 9)) ∧ p = peer 7 ∧ from_hex h = Ok p.
Proof.
  cbn zeta.
  destruct (from_str_sound (to_string (with_peer_id (public_addr 9) (peer 7)))
    (with_peer_id (public_addr 9) (peer 7))) as [(_ & Hno & _)|(t & h & p & H)].
  - by_decide.
  - done.
  - exists t, h, p. destruct H as (? & ? & ? & ? & Hp & ?). simpl in Hp. by simplify_eq.
Defined.

Lemma publish_seq_witness :
  advertised_publish_seq
    {| node_peer_id := peer 1; addresses := []; address_types := [];
       distance := encode_publish_seq_distance 77; reliability := S754_zero false;
       address_authority := None |} = 77%N.
Proof. eapply publish_seq_roundtrip; done. Defined.

Lemma merge_from_unsequenced_witness :
  let r := merge_from (hint 1 [lan_addr 5; public_addr 1] [Direct])
                      (hint 1 [public_addr 1; public_addr 2] [Direct; Relay]) in
  addresses r = [public_addr 2; public_addr 1; lan_addr 5] ∧
  address_types r = [Relay; Direct; Lan] ∧ NoDup (addresses r).
Proof.
  cbn zeta. split_and!; [by_decide..|].
  apply merge_from_unsequenced; [done|done|done|simpl; lia|].
  by_decide.
Defined.

Lemma merge_from_owner_views_witness :
  merge_from (owned 1 90 [public_addr 1]) (publication_of 1 3) = publication_of 1 3 ∧
  merge_from (publication_of 1 3) (owned 1 90 [public_addr 1]) = publication_of 1 3.
Proof.
  split.
  - destruct (merge_from_owner_views (owned 1 90 [public_addr 1]) (publication_of 1 3)) as [-> _];
      [done|by intros ? [=]|by intros r [= <-]|by left|by_decide].
  - destruct (merge_from_owner_views (publication_of 1 3) (owned 1 90 [public_addr 1])) as [-> _];
      [done|by intros r [= <-]|by intros ? [=]|by left|by_decide].
Defined.

Definition sequenced_reports : SubjectReports :=
  {[ peer 4 := owned 1 5 [public_addr 1]; peer 5 := publication_of 1 2;
     peer 1 := hint 1 [public_addr 3] [Direct] ]}.

Lemma compute_winner_owner_witness :
  ∃ node, compute_winner (peer 1) sequenced_reports = Some (peer 5, node) ∧
    owner_view_version node = (true, 2%N).
Proof.
  destruct (compute_winner_owner (peer 1) sequenced_reports (peer 4) (owned 1 5 [public_addr 1]))
    as (w & node & Hw & _ & _ & _); [by_decide|done|].
  assert (Hid : fst <$> compute_winner (peer 1) sequenced_reports = Some (peer 5))
    by by_decide.
  assert (Hv : (λ r, owner_view_version r.2) <$> compute_winner (peer 1) sequenced_reports = Some (true, 2%N))
    by by_decide.
  rewrite Hw in Hid, Hv. cbn [fmap option_fmap option_map fst snd] in Hid, Hv.
  injection Hid as Hid. apply Some_inj in Hv.
  exists node. split; [rewrite Hw; subst w; reflexivity|exact Hv].
Defined.

(** Two honest responders agree, the closest one lies. *)
Definition hint_reports : SubjectReports :=
  {[ peer 0 := hint 1 [public_addr 66] [Relay]; peer 3 := hint 1 [public_addr 1] [Direct];
     peer 5 := hint 1 [public_addr 1] [Direct] ]}.

Lemma compute_winner_hints_witness :
  ∃ w node, compute_winner (peer 1) hint_reports = Some (w, node) ∧
    report_signature node = [(public_addr 1, 1%N)].
Proof.
  destruct (compute_winner_hints (peer 1) hint_reports) as [_ Hrest].
  - assert (Hall : map_Forall (λ _ n, dht_node_publish_seq n = 0%N) hint_reports); [|exact Hall].
    by_decide.
  - intros He. apply (f_equal size) in He. by vm_compute in He.
  - destruct Hrest as [Hq _]; [by_decide|].
    destruct (Hq [(public_addr 1, 1%N)]) as (w & node & ? & _ & ? & _).
    + apply Nat.leb_le. by vm_compute.
    + eauto.
Defined.

Lemma compute_winner_canonical_witness :
  compute_winner (HO := forward_order) (peer 1) hint_reports =
  compute_winner (HO := backward_order) (peer 1) hint_reports.
Proof. apply (compute_winner_canonical (peer 1) hint_reports forward_order backward_order). Defined.

Lemma sort_dedup_witness :
  node_peer_id <$> sort_dedup_witnessed_nodes
    [hint 9 [public_addr 9] []; hint 2 [public_addr 2] []; hint 9 [public_addr 8] []] (peer 0) 5 =
  [peer 2; peer 9].
Proof.
  pose proof (sort_dedup_spec forward_order backward_order
    [hint 9 [public_addr 9] []; hint 2 [public_addr 2] []; hint 9 [public_addr 8] []] (peer 0) 5) as (_ & _ & Heq).
  rewrite Heq. by_decide.
Defined.

Lemma apply_winners_witness :
  let nodes := [owned 1 1 [public_addr 1]] in
  let reports : gmap PeerId SubjectReports := {[ peer 1 := {[ peer 5 := publication_of 1 2 ]} ]} in
  Forall (λ n, tle (true, 2%N) (owner_view_version n))
    (apply_lookup_report_winners nodes reports (peer 0) 5).
Proof.
  cbn zeta. set (reports := {[peer 1 := _]}).
  destruct (apply_winners_spec reports [owned 1 1 [public_addr 1]] (peer 0) 5) as [_ H].
  - intros s rs p n Hs Hp. apply lookup_singleton_Some in Hs as [<- <-].
    apply lookup_singleton_Some in Hp as [<- <-]. split; [done|]. by intros r [= <-].
  - constructor; [|constructor]. by intros r [=].
  - apply Forall_forall. intros n Hn. destruct (H n Hn) as [_ Hw].
    assert (Hp : node_peer_id n = peer 1).
    { assert (Hall : Forall (λ n, node_peer_id n = peer 1)
        (apply_lookup_report_winners [owned 1 1 [public_addr 1]] reports (peer 0) 5)).
      { by_decide. }
      rewrite Forall_forall in Hall. by apply Hall. }
    eapply (Hw {[ peer 5 := publication_of 1 2 ]} (peer 5) (publication_of 1 2)).
    + rewrite Hp. apply lookup_singleton_Some. done.
    + rewrite Hp. by_decide.
Defined.

(** A record with more tags than addresses: the tag of the merged address is
    taken from the surplus, not from the record that carries it. *)
Example merge_from_surplus_tag :
  let n := hint 1 [public_addr 1] [Direct; Relay] in
  let other := hint 1 [public_addr 2] [Unverified] in
  typed_addresses other = [(public_addr 2, Unverified)] ∧
  zip (addresses (merge_from n other)) (address_types (merge_from n other)) =
    [(public_addr 2, Relay); (public_addr 1, Direct)].
Proof. split; by_decide. Qed.

End RecordSamples.
