(* ===== verification/NodeInfo.v ===== *)
(** * Routing-table nodes

    [NodeInfo] of [src/dht/core_engine.rs]: a peer with its typed addresses,
    parallel by index, and the time it was last seen.  A method that can panic
    ([Vec::insert] past the end) returns an [option]; [None] is the panic. *)

From stdpp Require Import prelude sorting gmap.
From S2P Require Import Prelude Keys Ip Address PeerRecord.

Definition MAX_ADDRESSES_PER_NODE : nat := 8.

(** A point in time ([Instant]), in nanoseconds of a monotonic clock. *)
Abbreviation Instant := Z.

Record NodeInfo `{TransportLib} := mk_node {
  id : PeerId;
  naddresses : list MultiAddr;
  naddress_types : list AddressType;
  last_seen : Instant;
}.

#[export] Instance NodeInfo_eq_dec `{TransportLib} : EqDecision NodeInfo.
Proof. solve_decision. Defined.

Section node_info.
Context `{TL : TransportLib}.
Implicit Types n : NodeInfo.

Definition with_addresses n (addrs : list MultiAddr) (types : list AddressType) : NodeInfo :=
  {| id := id n; naddresses := addrs; naddress_types := types; last_seen := last_seen n |}.
Definition with_last_seen n (t : Instant) : NodeInfo :=
  {| id := id n; naddresses := naddresses n; naddress_types := naddress_types n; last_seen := t |}.

Definition is_storable_address (addr : MultiAddr) : bool := is_storable addr.
Definition type_priority (t : AddressType) : N := priority t.

Definition node_socket_addr n : option SocketAddr := head (naddresses n) ≫= socket_addr.
Definition node_ip n : option IpAddr := head (naddresses n) ≫= ip.

(** The set of canonical IPs of all addresses. *)
Definition all_ips n : gset IpAddr :=
  list_to_set (omap (λ a, canonicalize_ip <$> ip a) (naddresses n)).

Definition retain_storable_addresses n : NodeInfo :=
  let types := pad_types (naddresses n) (naddress_types n) in
  let kept := List.filter (λ p, is_storable_address p.1) (zip (naddresses n) types) in
  with_addresses n (fst <$> kept) (snd <$> kept).

Definition address_type_at n (index : nat) : AddressType :=
  let advertised := default Unverified (naddress_types n !! index) in
  from_option (λ addr, for_advertised_address addr advertised) advertised (naddresses n !! index).

(** ** The per-family cap *)

Definition family_matches (want_v4 : bool) (addr : MultiAddr) : bool :=
  match ip addr with
  | Some a => Bool.eqb (ip_is_ipv4 (canonicalize_ip a)) want_v4
  | None => false
  end.

Definition family_indices (addrs : list MultiAddr) (want_v4 : bool) : list nat :=
  List.filter (λ i, from_option (family_matches want_v4) false (addrs !! i)) (seq 0 (length addrs)).

Definition has_type (types : list AddressType) (t : AddressType) (i : nat) : bool :=
  bool_decide (types !! i = Some t).

(** The three slots of a family: newest relay, best WAN entry, newest LAN. *)
Definition relay_slot (types : list AddressType) (family : list nat) : option nat :=
  List.find (has_type types Relay) family.
Definition wan_slot (types : list AddressType) (family : list nat) : option nat :=
  match List.find (has_type types Direct) family with
  | Some i => Some i
  | None => List.find (has_type types Unverified) family
  end.
Definition lan_slot (types : list AddressType) (family : list nat) : option nat :=
  List.find (has_type types Lan) (reverse family).

Definition keep_slot (slot : option nat) (keep : list bool) : list bool :=
  match slot with Some i => <[i := true]> keep | None => keep end.

Definition keep_family (addrs : list MultiAddr) (types : list AddressType)
    (keep : list bool) (want_v4 : bool) : list bool :=
  let family := family_indices addrs want_v4 in
  keep_slot (lan_slot types family) (keep_slot (wan_slot types family)
    (keep_slot (relay_slot types family) keep)).

Definition keep_flags (addrs : list MultiAddr) (types : list AddressType) : list bool :=
  foldl (keep_family addrs types) ((λ a, bool_decide (ip a = None)) <$> addrs) [true; false].

Definition enforce_per_ip_family_cap n : NodeInfo :=
  let addrs := naddresses n in
  let types := take (length addrs) (pad_types addrs (naddress_types n)) in
  let keep := keep_flags addrs types in
  with_addresses n (keep_flagged keep addrs) (keep_flagged keep types).

(** ** Merging an address *)

(** The position [merge_typed_address] inserts at. *)
Definition insert_position (addrs : list MultiAddr) (types : list AddressType) (t : AddressType) : nat :=
  match t with
  | Relay => 0
  | Direct => default (length addrs) (position (λ t, negb (bool_decide (t = Relay))) types)
  | Unverified =>
      default (length addrs)
        (position (λ t, negb (bool_decide (t = Relay)) && negb (bool_decide (t = Direct))) types)
  | Lan => length addrs
  end.

(** [Vec::push] for LAN addresses, [Vec::insert] for the others. *)
Definition insert_typed (addrs : list MultiAddr) (types : list AddressType)
    (addr : MultiAddr) (t : AddressType) : option (list MultiAddr * list AddressType) :=
  match t with
  | Lan => Some (addrs ++ [addr], types ++ [Lan])
  | _ =>
      let pos := insert_position addrs types t in
      addrs' ← vec_insert pos addr addrs;
      types' ← vec_insert pos t types;
      Some (addrs', types')
  end.

(** Removal of an existing entry for the same address. *)
Definition remove_duplicate (addrs : list MultiAddr) (types : list AddressType) (addr : MultiAddr)
    : list MultiAddr * list AddressType :=
  match position (λ a, bool_decide (a = addr)) addrs with
  | Some pos => (delete pos addrs, if decide (pos < length types) then delete pos types else types)
  | None => (addrs, types)
  end.

Definition merge_typed_address n (addr : MultiAddr) (t : AddressType) : option NodeInfo :=
  if negb (is_storable_address addr) then Some n
  else
    let t := for_advertised_address addr t in
    let types := pad_types (naddresses n) (naddress_types n) in
    let '(addrs, types) := remove_duplicate (naddresses n) types addr in
    '(addrs, types) ← insert_typed addrs types addr t;
    let capped := enforce_per_ip_family_cap (with_addresses n addrs types) in
    let addrs := take MAX_ADDRESSES_PER_NODE (naddresses capped) in
    Some (with_addresses n addrs (take (length addrs) (naddress_types capped))).

Definition merge_address n (addr : MultiAddr) : option NodeInfo := merge_typed_address n addr Direct.

Definition merge_typed_address_upgrade_only n (addr : MultiAddr) (t : AddressType)
    : option (bool * NodeInfo) :=
  if negb (is_storable_address addr) then Some (false, n)
  else
    let t := for_advertised_address addr t in
    let unchanged :=
      match position (λ a, bool_decide (a = addr)) (naddresses n) with
      | Some pos => (priority (address_type_at n pos) <=? priority t)%N
      | None => false
      end in
    if unchanged then Some (false, n)
    else n' ← merge_typed_address n addr t; Some (true, n').
End node_info.

(** ** The cap *)

Section cap.
Context `{TL : TransportLib}.
Implicit Types (n : NodeInfo) (addrs : list MultiAddr) (types : list AddressType).

(** The IP family of an address ([true] for IPv4, mapped addresses included)
    and the slot its tag competes for. *)
Definition family (a : MultiAddr) : option bool := (λ i, ip_is_ipv4 (canonicalize_ip i)) <$> ip a.

Inductive Slot := RelaySlot | WanSlot | LanSlot.
Definition slot (t : AddressType) : Slot :=
  match t with Relay => RelaySlot | Direct | Unverified => WanSlot | Lan => LanSlot end.

(** At most one relay, one WAN and one LAN address per IP family. *)
Definition cap_ok addrs types : Prop :=
  ∀ i j a b t u f, addrs !! i = Some a → addrs !! j = Some b → types !! i = Some t → types !! j = Some u →
    family a = Some f → family b = Some f → slot t = slot u → i = j.

Definition aligned n : Prop := length (naddress_types n) = length (naddresses n).

Lemma family_matches_spec w a : family_matches w a = true ↔ family a = Some w.
Proof.
  unfold family_matches, family. destruct (ip a) as [x|]; simpl; [|done].
  rewrite eqb_true_iff. naive_solver.
Qed.

Lemma elem_of_family addrs w i :
  i ∈ family_indices addrs w ↔ ∃ a, addrs !! i = Some a ∧ family a = Some w.
Proof.
  unfold family_indices. rewrite elem_of_List_filter. setoid_rewrite <- family_matches_spec. split.
  - intros [_ H]. destruct (addrs !! i) as [a|]; simpl in H; [eauto|done].
  - intros (a & Ha & Hw). rewrite Ha. split; [|done]. apply elem_of_seq.
    split; [lia|]. by eapply lookup_lt_Some.
Qed.

(** The index a family keeps for a slot. *)
Definition slot_pick addrs types (w : bool) (s : Slot) : option nat :=
  match s with
  | RelaySlot => relay_slot types (family_indices addrs w)
  | WanSlot => wan_slot types (family_indices addrs w)
  | LanSlot => lan_slot types (family_indices addrs w)
  end.

Lemma find_type types t l i :
  List.find (has_type types t) l = Some i → i ∈ l ∧ types !! i = Some t.
Proof. intros [? ?%bool_decide_eq_true]%find_Some_iff. done. Qed.

Lemma find_type_is_Some types t l i :
  i ∈ l → types !! i = Some t → is_Some (List.find (has_type types t) l).
Proof.
  intros Hi Ht. destruct (List.find _ _) eqn:Hf; [done|]. rewrite find_None_iff in Hf.
  specialize (Hf _ Hi). by apply bool_decide_eq_false in Hf.
Qed.

Lemma slot_pick_spec addrs types w s i :
  slot_pick addrs types w s = Some i →
  ∃ a t, addrs !! i = Some a ∧ types !! i = Some t ∧ family a = Some w ∧ slot t = s.
Proof.
  assert (Hfind : ∀ t l, List.find (has_type types t) l = Some i → (∀ j, j ∈ l → j ∈ family_indices addrs w) →
    slot t = s → ∃ a t, addrs !! i = Some a ∧ types !! i = Some t ∧ family a = Some w ∧ slot t = s).
  { intros t l [Hin Ht]%find_type Hl <-. apply Hl, elem_of_family in Hin as (a & ? & ?). eauto 10. }
  destruct s; simpl.
  - unfold relay_slot. intros Hf. by eapply Hfind.
  - unfold wan_slot. destruct (List.find (has_type types Direct) _) eqn:Hd.
    + intros [= ->]. by eapply Hfind.
    + intros Hf. by eapply Hfind.
  - unfold lan_slot. intros Hf. eapply Hfind; [done| |done]. intros j. by rewrite elem_of_reverse.
Qed.

Lemma slot_pick_is_Some addrs types w i a t :
  addrs !! i = Some a → types !! i = Some t → family a = Some w →
  is_Some (slot_pick addrs types w (slot t)).
Proof.
  intros Ha Ht Hf. assert (Hin : i ∈ family_indices addrs w) by (apply elem_of_family; eauto).
  destruct t; simpl.
  - by eapply find_type_is_Some.
  - unfold wan_slot. by destruct (find_type_is_Some _ _ _ _ Hin Ht) as [j ->].
  - unfold wan_slot. destruct (List.find (has_type types Direct) _); [done|]. by eapply find_type_is_Some.
  - unfold lan_slot. eapply find_type_is_Some; [by rewrite elem_of_reverse|done].
Qed.

Lemma keep_slot_length s keep : length (keep_slot s keep) = length keep.
Proof. destruct s; simpl; [apply length_insert|done]. Qed.

Lemma keep_slot_lookup s keep i :
  keep_slot s keep !! i = Some true ↔ keep !! i = Some true ∨ (s = Some i ∧ i < length keep).
Proof.
  destruct s as [j|]; simpl; [|naive_solver]. rewrite list_lookup_insert_Some. split.
  - intros [(-> & _ & Hlt)|[_ ?]]; auto.
  - intros [Hk|[[= ->] Hlt]]; [|by left]. destruct (decide (j = i)) as [->|]; [left|by right].
    split_and!; [done..|by eapply lookup_lt_Some].
Qed.

Lemma keep_family_length addrs types keep w : length (keep_family addrs types keep w) = length keep.
Proof. unfold keep_family. by rewrite !keep_slot_length. Qed.

Lemma keep_family_lookup addrs types keep w i :
  keep_family addrs types keep w !! i = Some true ↔
  keep !! i = Some true ∨ (i < length keep ∧ ∃ s, slot_pick addrs types w s = Some i).
Proof.
  unfold keep_family. rewrite !keep_slot_lookup, !keep_slot_length. split.
  - intros [[[?|[? ?]]|[? ?]]|[? ?]]; [by left|right; split; [done|]..];
      [by exists RelaySlot|by exists WanSlot|by exists LanSlot].
  - intros [?|[? [[] ?]]]; simpl in *; auto.
Qed.

Lemma keep_flags_length addrs types : length (keep_flags addrs types) = length addrs.
Proof. unfold keep_flags. cbn [foldl]. by rewrite !keep_family_length, length_fmap. Qed.

(** An entry survives when it has no IP or is its family's pick for a slot. *)
Lemma keep_flags_lookup addrs types i a :
  addrs !! i = Some a →
  keep_flags addrs types !! i = Some true ↔
  ip a = None ∨ ∃ w s, slot_pick addrs types w s = Some i.
Proof.
  intros Ha. unfold keep_flags. cbn [foldl]. rewrite !keep_family_lookup, keep_family_length, length_fmap.
  rewrite list_lookup_fmap, Ha. simpl.
  assert (Hi : i < length addrs) by (by eapply lookup_lt_Some).
  assert (Hip : Some (bool_decide (ip a = None)) = Some true ↔ ip a = None).
  { case_bool_decide; naive_solver. }
  rewrite Hip. split.
  - intros [[?|[_ ?]]|[_ ?]]; eauto.
  - intros [?|([] & s & ?)]; eauto.
Qed.

Lemma cap_types_length n :
  length (take (length (naddresses n)) (pad_types (naddresses n) (naddress_types n))) = length (naddresses n).
Proof.
  rewrite length_take. unfold pad_types. rewrite length_app, length_replicate. lia.
Qed.

Lemma cap_aligned n : aligned (enforce_per_ip_family_cap n).
Proof.
  unfold aligned, enforce_per_ip_family_cap. simpl. apply keep_flagged_length, cap_types_length.
Qed.

Lemma cap_cap_ok n :
  cap_ok (naddresses (enforce_per_ip_family_cap n)) (naddress_types (enforce_per_ip_family_cap n)).
Proof.
  unfold enforce_per_ip_family_cap. simpl. set (types := take _ _). set (addrs := naddresses n).
  set (keep := keep_flags addrs types).
  intros i j a b t u f Ha Hb Ht Hu Hfa Hfb Hst.
  destruct (keep_flagged_lookup_zip _ _ _ _ _ _ Ha Ht) as (i' & Hki & Hai & Hti & Hri).
  destruct (keep_flagged_lookup_zip _ _ _ _ _ _ Hb Hu) as (j' & Hkj & Hbj & Huj & Hrj).
  cut (i' = j'); [intros ->; congruence|].
  assert (Hpick : ∀ k c v, keep !! k = Some true → addrs !! k = Some c → types !! k = Some v →
    family c = Some f → slot_pick addrs types f (slot v) = Some k).
  { intros k c v Hk Hc Hv Hfc. apply (keep_flags_lookup _ _ _ _ Hc) in Hk as [Hip|(w & s & Hs)].
    - unfold family in Hfc. by rewrite Hip in Hfc.
    - destruct (slot_pick_spec _ _ _ _ _ Hs) as (c' & v' & Hc' & Hv' & Hf' & Hsl). congruence. }
  pose proof (Hpick _ _ _ Hki Hai Hti Hfa) as H1. pose proof (Hpick _ _ _ Hkj Hbj Huj Hfb) as H2.
  rewrite Hst in H1. congruence.
Qed.

(** *** Which entry a slot picks *)

Lemma family_sorted addrs w : StronglySorted lt (family_indices addrs w).
Proof. apply List_filter_StronglySorted, seq_StronglySorted. Qed.

(** The newest entry of a slot: lowest index for relay, direct and unverified
    addresses, highest for LAN ones, direct before unverified. *)
Lemma pick_relay addrs types w i a :
  addrs !! i = Some a → types !! i = Some Relay → family a = Some w →
  (∀ j, j < i → types !! j ≠ Some Relay) →
  slot_pick addrs types w RelaySlot = Some i.
Proof.
  intros Ha Ht Hf Hbefore. assert (Hin : i ∈ family_indices addrs w) by (apply elem_of_family; eauto).
  destruct (find_type_is_Some types Relay _ i Hin Ht) as [k Hk]. simpl. unfold relay_slot. rewrite Hk.
  pose proof (find_least _ _ _ i (family_sorted addrs w) Hk Hin) as Hle.
  apply find_type in Hk as [_ Hk]. f_equal.
  assert (¬ k < i) by (intros Hlt; by apply (Hbefore k)).
  cut (k ≤ i); [lia|]. apply Hle. by apply bool_decide_eq_true.
Qed.

Lemma pick_direct addrs types w i a :
  addrs !! i = Some a → types !! i = Some Direct → family a = Some w →
  (∀ j, j < i → types !! j ≠ Some Direct) →
  slot_pick addrs types w WanSlot = Some i.
Proof.
  intros Ha Ht Hf Hbefore. assert (Hin : i ∈ family_indices addrs w) by (apply elem_of_family; eauto).
  destruct (find_type_is_Some types Direct _ i Hin Ht) as [k Hk]. simpl. unfold wan_slot. rewrite Hk.
  pose proof (find_least _ _ _ i (family_sorted addrs w) Hk Hin) as Hle.
  apply find_type in Hk as [_ Hk]. f_equal.
  assert (¬ k < i) by (intros Hlt; by apply (Hbefore k)).
  cut (k ≤ i); [lia|]. apply Hle. by apply bool_decide_eq_true.
Qed.

Lemma pick_unverified addrs types w i a :
  addrs !! i = Some a → types !! i = Some Unverified → family a = Some w →
  (∀ j, j < i → types !! j ≠ Some Unverified) →
  (∀ j b, addrs !! j = Some b → types !! j = Some Direct → family b ≠ Some w) →
  slot_pick addrs types w WanSlot = Some i.
Proof.
  intros Ha Ht Hf Hbefore Hnod.
  assert (Hin : i ∈ family_indices addrs w) by (apply elem_of_family; eauto).
  simpl. unfold wan_slot. destruct (List.find (has_type types Direct) _) as [d|] eqn:Hd.
  { apply find_type in Hd as [(b & Hb & Hfb)%elem_of_family Hd]. by destruct (Hnod d b). }
  destruct (find_type_is_Some types Unverified _ i Hin Ht) as [k Hk]. rewrite Hk.
  pose proof (find_least _ _ _ i (family_sorted addrs w) Hk Hin) as Hle.
  apply find_type in Hk as [_ Hk]. f_equal.
  assert (¬ k < i) by (intros Hlt; by apply (Hbefore k)).
  cut (k ≤ i); [lia|]. apply Hle. by apply bool_decide_eq_true.
Qed.

Lemma pick_lan addrs types w i a :
  addrs !! i = Some a → types !! i = Some Lan → family a = Some w →
  (∀ j, i < j → types !! j ≠ Some Lan) →
  slot_pick addrs types w LanSlot = Some i.
Proof.
  intros Ha Ht Hf Hafter. assert (Hin : i ∈ family_indices addrs w) by (apply elem_of_family; eauto).
  destruct (find_type_is_Some types Lan (reverse (family_indices addrs w)) i) as [k Hk];
    [by rewrite elem_of_reverse|done|]. simpl. unfold lan_slot. rewrite Hk.
  pose proof (find_greatest _ _ _ i (family_sorted addrs w) Hk Hin) as Hge.
  apply find_type in Hk as [_ Hk]. f_equal.
  assert (¬ i < k) by (intros Hlt; by apply (Hafter k)).
  cut (i ≤ k); [lia|]. apply Hge. by apply bool_decide_eq_true.
Qed.

(** *** Inserting *)

Lemma insert_position_le addrs types t :
  length types = length addrs → insert_position addrs types t ≤ length addrs.
Proof.
  intros Hlen. assert (Hp : ∀ p, default (length addrs) (position p types) ≤ length addrs).
  { intros p. destruct (position p types) as [i|] eqn:Hi; simpl; [|done].
    apply position_lt in Hi. lia. }
  destruct t; simpl; auto; lia.
Qed.

(** Everything in front of the insertion point belongs to a stronger tier. *)
Lemma insert_position_before addrs types t j u :
  length types = length addrs → t ≠ Lan →
  j < insert_position addrs types t → types !! j = Some u → (priority u < priority t)%N.
Proof.
  intros Hlen HLan. assert (Hp : ∀ p, j < default (length addrs) (position p types) →
    types !! j = Some u → p u = false).
  { intros p. destruct (position p types) as [i|] eqn:Hi; simpl; intros Hj Hu.
    - apply position_Some in Hi as (_ & _ & _ & Hb). by eapply Hb.
    - rewrite position_None in Hi. apply Hi. by eapply list_elem_of_lookup_2. }
  destruct t; simpl; [lia| | |done]; intros Hj Hu; specialize (Hp _ Hj Hu).
  - destruct u; done.
  - destruct u; done.
Qed.

Lemma insert_typed_spec addrs types addr t :
  length types = length addrs →
  ∃ addrs' types' pos, insert_typed addrs types addr t = Some (addrs', types') ∧
    length types' = length addrs' ∧ addrs' !! pos = Some addr ∧ types' !! pos = Some t ∧
    (t ≠ Lan → ∀ j u, j < pos → types' !! j = Some u → (priority u < priority t)%N) ∧
    (t = Lan → ∀ j, pos < j → types' !! j = None) ∧
    (∀ a, a ∈ addrs' ↔ a = addr ∨ a ∈ addrs) ∧
    (∀ a u, (a, u) ∈ zip addrs' types' → (a, u) = (addr, t) ∨ (a, u) ∈ zip addrs types).
Proof.
  intros Hlen. destruct (decide (t = Lan)) as [->|Hne].
  - exists (addrs ++ [addr]), (types ++ [Lan]), (length addrs). split_and!; [done|..].
    + rewrite !length_app. simpl. lia.
    + by apply list_lookup_middle.
    + apply list_lookup_middle. lia.
    + done.
    + intros _ j Hj. apply lookup_ge_None. rewrite length_app. simpl. lia.
    + intros a. rewrite elem_of_app, list_elem_of_singleton. tauto.
    + intros a u. rewrite zip_with_app by done. rewrite elem_of_app. simpl.
      rewrite list_elem_of_singleton. tauto.
  - set (pos := insert_position addrs types t).
    assert (Hpos : pos ≤ length addrs) by (by apply insert_position_le).
    exists (take pos addrs ++ addr :: drop pos addrs), (take pos types ++ t :: drop pos types), pos.
    split_and!.
    + unfold insert_typed. fold pos. rewrite (vec_insert_Some pos addr addrs), (vec_insert_Some pos t types) by lia.
      by destruct t.
    + rewrite !insert_at_length. lia.
    + by apply insert_at_lookup.
    + apply insert_at_lookup. lia.
    + intros _ j u Hj. rewrite insert_at_lookup_lt by lia. by apply (insert_position_before addrs types).
    + done.
    + intros a. apply elem_of_insert_at.
    + intros a u. rewrite zip_with_app by (rewrite !length_take; lia). simpl.
      rewrite <- zip_with_take, <- zip_with_drop, elem_of_insert_at. done.
Qed.

(** *** Well-formed nodes *)

Record node_wf n : Prop := {
  wf_aligned : aligned n;
  wf_cap : cap_ok (naddresses n) (naddress_types n);
  wf_storable a : a ∈ naddresses n → is_storable a = true;
  wf_lan a t : (a, t) ∈ zip (naddresses n) (naddress_types n) → for_advertised_address a t = t;
  wf_max : length (naddresses n) ≤ MAX_ADDRESSES_PER_NODE;
}.

Lemma pad_types_aligned addrs types : length types = length addrs → pad_types addrs types = types.
Proof. intros Hlen. unfold pad_types. by rewrite Hlen, Nat.sub_diag, app_nil_r. Qed.

Lemma zip_delete addrs types i :
  length types = length addrs → zip (delete i addrs) (delete i types) = delete i (zip addrs types).
Proof.
  revert types i. induction addrs as [|a addrs IH]; intros [|t types] [|i]; simpl; try done.
  intros [= Hlen]. f_equal. by apply IH.
Qed.

Lemma remove_duplicate_spec addrs types addr :
  length types = length addrs →
  let r := remove_duplicate addrs types addr in
  length r.2 = length r.1 ∧
  (∀ a u, (a, u) ∈ zip r.1 r.2 → (a, u) ∈ zip addrs types) ∧
  (∀ a, a ∈ r.1 → a ∈ addrs) ∧ (∀ a, a ∈ addrs → a = addr ∨ a ∈ r.1).
Proof.
  intros Hlen. unfold remove_duplicate.
  destruct (position _ addrs) as [pos|] eqn:Hp; simpl; [|split_and!; auto].
  apply position_Some in Hp as (x & Hx & ->%bool_decide_eq_true & _).
  assert (Hlt : pos < length addrs) by (by eapply lookup_lt_Some).
  rewrite decide_True by lia. split_and!.
  - rewrite !length_delete; [by rewrite Hlen|eauto|apply lookup_lt_is_Some; lia].
  - intros a u. rewrite zip_delete by done. intros H. by eapply elem_of_sublist, sublist_delete.
  - intros a H. by eapply elem_of_sublist, sublist_delete.
  - intros a Ha. rewrite <- (take_drop_middle _ _ _ Hx) in Ha. rewrite delete_take_drop.
    rewrite !elem_of_app, elem_of_cons in *. tauto.
Qed.

Lemma cap_sublist n :
  aligned n →
  (∀ a u, (a, u) ∈ zip (naddresses (enforce_per_ip_family_cap n)) (naddress_types (enforce_per_ip_family_cap n)) →
     (a, u) ∈ zip (naddresses n) (naddress_types n)) ∧
  naddresses (enforce_per_ip_family_cap n) `sublist_of` naddresses n.
Proof.
  intros Hal. unfold enforce_per_ip_family_cap. simpl.
  rewrite pad_types_aligned, take_ge by (rewrite ?Hal; done). split.
  - intros a u. rewrite keep_flagged_zip by done. intros H.
    by eapply elem_of_sublist, keep_flagged_sublist.
  - apply keep_flagged_sublist.
Qed.

Lemma take_zip_elem (k : nat) addrs types a u :
  (a, u) ∈ zip (take k addrs) (take k types) → (a, u) ∈ zip addrs types.
Proof. rewrite <- zip_with_take. intros H. by eapply elem_of_sublist, sublist_take. Qed.

(** Truncating a capped node to the global limit. *)
Lemma cap_truncate_wf n :
  aligned n → (∀ a, a ∈ naddresses n → is_storable a = true) →
  (∀ a t, (a, t) ∈ zip (naddresses n) (naddress_types n) → for_advertised_address a t = t) →
  let c := enforce_per_ip_family_cap n in
  let addrs := take MAX_ADDRESSES_PER_NODE (naddresses c) in
  node_wf (with_addresses n addrs (take (length addrs) (naddress_types c))).
Proof.
  intros Hal Hst Hlan c addrs. destruct (cap_sublist n Hal) as [Hzip Hsub].
  pose proof (cap_aligned n) as Hc. fold c in Hzip, Hsub, Hc. unfold aligned in Hc.
  assert (Hlen : length (take (length addrs) (naddress_types c)) = length addrs).
  { unfold addrs. rewrite !length_take. lia. }
  assert (Ht : take (length addrs) (naddress_types c) = take MAX_ADDRESSES_PER_NODE (naddress_types c)).
  { unfold addrs. rewrite length_take. destruct (Nat.min_spec MAX_ADDRESSES_PER_NODE (length (naddresses c)))
      as [[_ ->]|[Hge ->]]; [done|]. rewrite !take_ge by lia. done. }
  constructor; unfold aligned; cbn [naddresses naddress_types with_addresses].
  - done.
  - intros i j a b t u f Ha Hb Htt Hu. apply lookup_take_Some in Ha as [Ha _], Hb as [Hb _], Htt as [Htt _], Hu as [Hu _].
    by apply (cap_cap_ok n i j).
  - intros a Ha. apply Hst. eapply elem_of_sublist; [|exact Hsub].
    by eapply elem_of_sublist, sublist_take.
  - intros a t. rewrite Ht. intros H. by apply Hlan, Hzip, (take_zip_elem MAX_ADDRESSES_PER_NODE).
  - unfold addrs. rewrite length_take. lia.
Qed.

(** The node [merge_typed_address] builds before the cap is applied. *)
Lemma merge_typed_address_steps n addr t :
  aligned n → is_storable addr = true →
  let t' := for_advertised_address addr t in
  ∃ addrs types pos,
    let m := with_addresses n addrs types in
    let c := enforce_per_ip_family_cap m in
    let kept := take MAX_ADDRESSES_PER_NODE (naddresses c) in
    merge_typed_address n addr t = Some (with_addresses n kept (take (length kept) (naddress_types c))) ∧
    aligned m ∧ addrs !! pos = Some addr ∧ types !! pos = Some t' ∧
    (t' ≠ Lan → ∀ j u, j < pos → types !! j = Some u → (priority u < priority t')%N) ∧
    (t' = Lan → ∀ j, pos < j → types !! j = None) ∧
    (∀ a, a ∈ addrs ↔ a = addr ∨ a ∈ naddresses n) ∧
    (∀ a u, (a, u) ∈ zip addrs types → (a, u) = (addr, t') ∨ (a, u) ∈ zip (naddresses n) (naddress_types n)).
Proof.
  intros Hal Hst t'. unfold merge_typed_address, is_storable_address. rewrite Hst. cbn [negb].
  rewrite pad_types_aligned by done. fold t'.
  destruct (remove_duplicate_spec (naddresses n) (naddress_types n) addr Hal) as (Hlen & Hzip & Hin & Hout).
  destruct (remove_duplicate _ _ _) as [addrs0 types0]. simpl in Hlen, Hzip, Hin, Hout.
  destruct (insert_typed_spec addrs0 types0 addr t' Hlen)
    as (addrs & types & pos & -> & Hl & Ha & Ht & Hb & Hlan & Hdom & Hz).
  exists addrs, types, pos. split_and!; [done..| |].
  - intros a. rewrite Hdom. naive_solver.
  - intros a u [?|?]%Hz; auto.
Qed.

Lemma merge_typed_address_wf n addr t :
  node_wf n → ∃ n', merge_typed_address n addr t = Some n' ∧ node_wf n' ∧
    id n' = id n ∧ last_seen n' = last_seen n ∧
    ∀ a, a ∈ naddresses n' → a = addr ∨ a ∈ naddresses n.
Proof.
  intros Hwf. destruct (is_storable addr) eqn:Hst.
  2:{ exists n. split_and!; [|done..|by right]. unfold merge_typed_address, is_storable_address. by rewrite Hst. }
  destruct (merge_typed_address_steps n addr t (wf_aligned _ Hwf) Hst)
    as (addrs & types & pos & Hm & Hal & _ & _ & _ & _ & Hdom & Hz).
  eexists. split; [exact Hm|]. split_and!; [|done..|].
  - apply (cap_truncate_wf (with_addresses n addrs types)); [done|..]; simpl.
    + intros a [->|Ha]%Hdom; [done|by apply (wf_storable _ Hwf)].
    + intros a u [[= -> ->]|Ha]%Hz; [apply for_advertised_idemp|by apply (wf_lan _ Hwf)].
  - intros a Ha. apply Hdom. simpl in Ha. eapply elem_of_sublist.
    + by eapply elem_of_sublist, sublist_take.
    + apply (cap_sublist (with_addresses n addrs types) Hal).
Qed.

(** *** Theorems *)

Lemma zip_elem_lookup addrs types a u :
  (a, u) ∈ zip addrs types ↔ ∃ i, addrs !! i = Some a ∧ types !! i = Some u.
Proof.
  rewrite list_elem_of_lookup. setoid_rewrite lookup_zip_with_Some. naive_solver.
Qed.

Lemma kept_pair n i a u :
  aligned n → naddresses n !! i = Some a → naddress_types n !! i = Some u →
  keep_flags (naddresses n) (naddress_types n) !! i = Some true →
  (a, u) ∈ zip (naddresses (enforce_per_ip_family_cap n)) (naddress_types (enforce_per_ip_family_cap n)).
Proof.
  intros Hal Ha Hu Hk. unfold enforce_per_ip_family_cap. simpl.
  rewrite pad_types_aligned, take_ge by (rewrite ?Hal; done).
  rewrite keep_flagged_zip by done. eapply keep_flagged_elem; [done|].
  by rewrite lookup_zip_with, Ha, Hu.
Qed.

(** The per-family cap on an aligned node: what survives is a subsequence
    of the entries, still aligned; no IP family keeps two relays, two WAN or
    two LAN addresses; every address without an IP survives; a family that
    had an entry for a slot still has one, and a direct entry is never given
    up for an unverified one. *)
Theorem family_cap_spec n :
  aligned n →
  let c := enforce_per_ip_family_cap n in
  aligned c ∧ cap_ok (naddresses c) (naddress_types c) ∧
  naddresses c `sublist_of` naddresses n ∧
  (∀ a u, (a, u) ∈ zip (naddresses c) (naddress_types c) → (a, u) ∈ zip (naddresses n) (naddress_types n)) ∧
  (∀ a u, (a, u) ∈ zip (naddresses n) (naddress_types n) → ip a = None →
     (a, u) ∈ zip (naddresses c) (naddress_types c)) ∧
  (∀ a u f, (a, u) ∈ zip (naddresses n) (naddress_types n) → family a = Some f →
     ∃ b v, (b, v) ∈ zip (naddresses c) (naddress_types c) ∧ family b = Some f ∧ slot v = slot u ∧
       (u = Direct → v = Direct)).
Proof.
  intros Hal c. destruct (cap_sublist n Hal) as [Hzip Hsub].
  split_and!; [apply cap_aligned|apply cap_cap_ok|done|done| |].
  - intros a u (i & Ha & Hu)%zip_elem_lookup Hip. eapply kept_pair; [done..|].
    apply (keep_flags_lookup _ _ _ _ Ha). by left.
  - intros a u f (i & Ha & Hu)%zip_elem_lookup Hf.
    destruct (slot_pick_is_Some (naddresses n) (naddress_types n) f i a u Ha Hu Hf) as [k Hk].
    destruct (slot_pick_spec _ _ _ _ _ Hk) as (b & v & Hb & Hv & Hfb & Hsl).
    exists b, v. split_and!; [|done..|].
    + eapply kept_pair; [done..|]. apply (keep_flags_lookup _ _ _ _ Hb). eauto.
    + intros ->. simpl in Hk. unfold wan_slot in Hk.
      destruct (find_type_is_Some (naddress_types n) Direct (family_indices (naddresses n) f) i) as [d Hd];
        [apply elem_of_family; eauto|done|].
      rewrite Hd in Hk. injection Hk as <-. apply find_type in Hd as [_ Hd]. congruence.
Qed.

(** The slot the new entry competes for picks it. *)
Lemma merged_entry_kept n pos addr t :
  aligned n → naddresses n !! pos = Some addr → naddress_types n !! pos = Some t →
  (t ≠ Lan → ∀ j u, j < pos → naddress_types n !! j = Some u → (priority u < priority t)%N) →
  (t = Lan → ∀ j, pos < j → naddress_types n !! j = None) →
  keep_flags (naddresses n) (naddress_types n) !! pos = Some true ∨
  (t = Unverified ∧ ∃ b f, (b, Direct) ∈ zip (naddresses n) (naddress_types n) ∧
     family b = Some f ∧ family addr = Some f).
Proof.
  intros Hal Ha Ht Hbefore Hlan.
  destruct (family addr) as [f|] eqn:Hf.
  2:{ left. apply (keep_flags_lookup _ _ _ _ Ha). left. unfold family in Hf. by destruct (ip addr). }
  assert (Hkeep : slot_pick (naddresses n) (naddress_types n) f (slot t) = Some pos →
    keep_flags (naddresses n) (naddress_types n) !! pos = Some true).
  { intros Hp. apply (keep_flags_lookup _ _ _ _ Ha). eauto. }
  assert (Hno : ∀ u, (priority t ≤ priority u)%N → t ≠ Lan → ∀ j, j < pos → naddress_types n !! j ≠ Some u).
  { intros u Hu HL j Hj Hjt. specialize (Hbefore HL j u Hj Hjt). lia. }
  destruct t.
  - left. apply Hkeep. eapply pick_relay; [done..|]. by apply Hno.
  - left. apply Hkeep. eapply pick_direct; [done..|]. by apply Hno.
  - destruct (decide (Exists (λ p, p.2 = Direct ∧ family p.1 = Some f) (zip (naddresses n) (naddress_types n))))
      as [Hex|Hnex].
    + right. split; [done|]. apply Exists_exists in Hex as ([b v] & Hin & Hv & Hb). simpl in *. subst v. eauto.
    + left. apply Hkeep. eapply pick_unverified; [done..|by apply Hno|].
      intros j b Hb Hd Hfb. apply Hnex, Exists_exists. exists (b, Direct).
      split; [|done]. apply zip_elem_lookup. eauto.
  - left. apply Hkeep. eapply pick_lan; [done..|]. intros j Hj. by rewrite (Hlan eq_refl j Hj).
Qed.

(** Merging a typed address into a well-formed node: the call does not
    panic, the node stays well-formed (aligned, capped per IP family, at most
    eight storable addresses, local addresses tagged local), nothing but the
    new address is added, and the new address is stored under its canonical
    tag unless it is unverified and a direct address of its family is known,
    or the node is at the global limit. *)
Theorem merge_typed_address_spec n addr t :
  node_wf n → is_storable addr = true →
  let t' := for_advertised_address addr t in
  ∃ n', merge_typed_address n addr t = Some n' ∧ node_wf n' ∧
    id n' = id n ∧ last_seen n' = last_seen n ∧
    (∀ a u, (a, u) ∈ zip (naddresses n') (naddress_types n') →
       (a, u) = (addr, t') ∨ (a, u) ∈ zip (naddresses n) (naddress_types n)) ∧
    ((addr, t') ∈ zip (naddresses n') (naddress_types n') ∨
     (t' = Unverified ∧ ∃ b f, (b, Direct) ∈ zip (naddresses n) (naddress_types n) ∧
        family b = Some f ∧ family addr = Some f) ∨
     length (naddresses n') = MAX_ADDRESSES_PER_NODE).
Proof.
  intros Hwf Hst t'. destruct (merge_typed_address_wf n addr t Hwf) as (n' & Hm & Hwf' & Hid & Hls & _).
  exists n'. split_and!; [done..| |];
  destruct (merge_typed_address_steps n addr t (wf_aligned _ Hwf) Hst)
    as (addrs & types & pos & Hm' & Hal & Ha & Ht & Hb & Hlan & Hdom & Hz);
  rewrite Hm in Hm'; apply (inj Some) in Hm' as ->; fold t' in Ht, Hb, Hlan, Hz;
  set (m := with_addresses n addrs types) in *; cbn [naddresses naddress_types with_addresses];
  pose proof (cap_aligned m) as Hc; unfold aligned in Hc;
  destruct (cap_sublist m Hal) as [Hzip _].
  - intros a u Hin. apply Hz, Hzip.
    assert (Hsub : ∀ k, (a, u) ∈ zip (take MAX_ADDRESSES_PER_NODE (naddresses (enforce_per_ip_family_cap m)))
      (take k (naddress_types (enforce_per_ip_family_cap m))) →
      (a, u) ∈ zip (naddresses (enforce_per_ip_family_cap m)) (naddress_types (enforce_per_ip_family_cap m))).
    { intros k (i & Hi & Hj)%zip_elem_lookup. apply lookup_take_Some in Hi as [Hi _], Hj as [Hj _].
      apply zip_elem_lookup. eauto. }
    by eapply Hsub.
  - destruct (merged_entry_kept m pos addr t' Hal Ha Ht Hb Hlan) as [Hk|(-> & b & f & Hbd & Hfb & Hfa)].
    + pose proof (kept_pair m pos addr t' Hal Ha Ht Hk) as Hin.
      destruct (decide (MAX_ADDRESSES_PER_NODE < length (naddresses (enforce_per_ip_family_cap m)))) as [Hlt|Hge].
      * right. right. rewrite length_take. lia.
      * left. rewrite (take_ge (naddresses _)), (take_ge (naddress_types _)) by lia. done.
    + right. left. split; [done|]. exists b, f. split_and!; [|done..].
      by apply Hz in Hbd as [[=]|Hbd].
Qed.

(** Gossip never weakens a record: an upgrade-only merge into a
    well-formed node does not panic and keeps it well-formed; when it reports
    no change the node is exactly as it was, and every address known before
    and after has a tag at least as strong as before. *)
Theorem upgrade_only_never_demotes n addr t :
  node_wf n → NoDup (naddresses n) →
  ∃ changed n', merge_typed_address_upgrade_only n addr t = Some (changed, n') ∧ node_wf n' ∧
    (changed = false → n' = n) ∧
    (∀ a u v, (a, v) ∈ zip (naddresses n) (naddress_types n) →
       (a, u) ∈ zip (naddresses n') (naddress_types n') → (priority u ≤ priority v)%N).
Proof.
  intros Hwf Hnd.
  assert (Huniq : ∀ a u v, (a, u) ∈ zip (naddresses n) (naddress_types n) →
    (a, v) ∈ zip (naddresses n) (naddress_types n) → u = v).
  { intros a u v (i & Hi & Hu)%zip_elem_lookup (j & Hj & Hv)%zip_elem_lookup.
    assert (i = j) as <- by (by eapply NoDup_lookup). congruence. }
  assert (Hsame : ∀ a u v, (a, v) ∈ zip (naddresses n) (naddress_types n) →
    (a, u) ∈ zip (naddresses n) (naddress_types n) → (priority u ≤ priority v)%N).
  { intros a u v Hv Hu. by rewrite (Huniq a u v). }
  unfold merge_typed_address_upgrade_only, is_storable_address. cbn zeta.
  destruct (is_storable addr) eqn:Hst; cbn [negb]; [|by exists false, n].
  set (t' := for_advertised_address addr t).
  destruct (merge_typed_address_wf n addr t' Hwf) as (n' & Hm & Hwf' & _ & _ & _).
  destruct (merge_typed_address_steps n addr t' (wf_aligned _ Hwf) Hst)
    as (addrs & types & pos & Hm' & Hal & _ & _ & _ & _ & _ & Hz).
  rewrite Hm in Hm'. apply (inj Some) in Hm' as Hn'.
  assert (Ht' : for_advertised_address addr t' = t') by apply for_advertised_idemp. rewrite Ht' in Hz.
  assert (Hsub : ∀ a u, (a, u) ∈ zip (naddresses n') (naddress_types n') →
    (a, u) = (addr, t') ∨ (a, u) ∈ zip (naddresses n) (naddress_types n)).
  { intros a u (i & Hi & Hu)%zip_elem_lookup. rewrite Hn' in Hi, Hu.
    apply lookup_take_Some in Hi as [Hi _], Hu as [Hu _].
    apply Hz, (proj1 (cap_sublist _ Hal)), zip_elem_lookup. eauto. }
  destruct (position _ (naddresses n)) as [i|] eqn:Hp; [|].
  - apply position_Some in Hp as (x & Hx & ->%bool_decide_eq_true & _).
    destruct (N.leb_spec (priority (address_type_at n i)) (priority t')) as [Hle|Hgt]; [by exists false, n|].
    exists true, n'. rewrite Hm. split_and!; [done..|].
    intros a u v Hv [[= -> ->]|Hu]%Hsub; [|by eapply Hsame].
    apply zip_elem_lookup in Hv as (j & Hj & Hv).
    assert (i = j) as <- by (by eapply NoDup_lookup).
    unfold address_type_at in Hgt. rewrite Hj, Hv in Hgt. simpl in Hgt.
    rewrite (wf_lan _ Hwf addr v) in Hgt by (apply zip_elem_lookup; eauto). lia.
  - exists true, n'. rewrite Hm. split_and!; [done..|].
    intros a u v Hv [[= -> ->]|Hu]%Hsub; [|by eapply Hsame].
    rewrite position_None in Hp. apply zip_elem_lookup in Hv as (j & Hj & _).
    apply list_elem_of_lookup_2, Hp in Hj. by apply bool_decide_eq_false in Hj.
Qed.
End cap.
