(* ===== verification/KBucket.v ===== *)
(** * K-buckets

    [KBucket] of [src/dht/core_engine.rs].  Operations that read the clock
    take the current time; [None] is a panic; a fallible operation returns its
    [result] next to the new bucket.  The last part of the file is the bucket
    invariant and what each operation does on every branch. *)

From stdpp Require Import prelude sorting gmap.
From S2P Require Import Prelude Keys Ip Address PeerRecord NodeInfo.

Record KBucket `{TransportLib} := mk_bucket {
  nodes : list NodeInfo;
  max_size : nat;
  last_refreshed_by_live_peer : Instant;
  last_probe_finished : Instant;
}.

Inductive AddressReplaceMode := AuthenticatedSelfPublish | GossipedRecord.

Definition refreshes_liveness (m : AddressReplaceMode) : bool :=
  match m with AuthenticatedSelfPublish => true | GossipedRecord => false end.

Inductive AddNodeError :=
  | NoAddresses
  | AtCapacity (len max : nat)
  | CannotInsertSelf.

#[export] Instance AddNodeError_eq_dec : EqDecision AddNodeError.
Proof. solve_decision. Defined.

Section bucket.
Context `{TL : TransportLib}.
Implicit Types (b : KBucket) (node : NodeInfo) (now : Instant).

Definition bucket_new (k : nat) now : KBucket :=
  {| nodes := []; max_size := k; last_refreshed_by_live_peer := now; last_probe_finished := now |}.

Definition set_nodes b (l : list NodeInfo) : KBucket :=
  {| nodes := l; max_size := max_size b;
     last_refreshed_by_live_peer := last_refreshed_by_live_peer b;
     last_probe_finished := last_probe_finished b |}.
Definition refreshed b now : KBucket :=
  {| nodes := nodes b; max_size := max_size b; last_refreshed_by_live_peer := now;
     last_probe_finished := last_probe_finished b |}.

Definition bucket_position b (p : PeerId) : option nat :=
  position (λ n, bool_decide (id n = p)) (nodes b).

Definition find_node b (p : PeerId) : option NodeInfo :=
  List.find (λ n, bool_decide (id n = p)) (nodes b).

Definition get_nodes b : list NodeInfo := nodes b.

(** [self.nodes.remove(pos)] followed by [self.nodes.push(node)]. *)
Definition move_to_tail b (pos : nat) node : KBucket := set_nodes b (delete pos (nodes b) ++ [node]).

(** The filtering, capping and retagging of an incoming record. *)
Definition strip_unstorable node : NodeInfo :=
  let kept := List.filter (λ p, is_storable_address p.1)
    (imap (λ i addr, (addr, default Unverified (naddress_types node !! i))) (naddresses node)) in
  with_addresses node (fst <$> kept) (snd <$> kept).

Definition limit_addresses node : NodeInfo :=
  let addrs := take MAX_ADDRESSES_PER_NODE (naddresses node) in
  with_addresses node addrs (retag addrs (take (length addrs) (naddress_types node))).

Fixpoint merge_all node (l : list (MultiAddr * AddressType)) : option NodeInfo :=
  match l with
  | [] => Some node
  | (a, t) :: l' => node' ← merge_typed_address node a t; merge_all node' l'
  end.

Definition add_node b node now : option (result unit AddNodeError * KBucket) :=
  let node := strip_unstorable node in
  if Nat.eqb (length (naddresses node)) 0 then Some (Err NoAddresses, b)
  else
    let node := limit_addresses node in
    match bucket_position b (id node) with
    | Some pos =>
        existing ← nodes b !! pos;
        let existing := with_last_seen existing (last_seen node) in
        existing ← merge_all existing (imap (λ i addr,
          (addr, default Unverified (naddress_types node !! i))) (naddresses node));
        Some (Ok tt, refreshed (move_to_tail b pos existing) now)
    | None =>
        if (length (nodes b) <? max_size b)%nat
        then Some (Ok tt, refreshed (set_nodes b (nodes b ++ [enforce_per_ip_family_cap node])) now)
        else Some (Err (AtCapacity (length (nodes b)) (max_size b)), b)
    end.

Definition remove_node b (p : PeerId) : KBucket :=
  set_nodes b (List.filter (λ n, negb (bool_decide (id n = p))) (nodes b)).

(** Loopback injection prevention. *)
Definition addr_is_loopback (addr : MultiAddr) : bool :=
  from_option (λ i, ip_is_loopback (canonicalize_ip i)) false (ip addr).
Definition node_has_non_loopback node : bool :=
  existsb (λ a, from_option (λ i, negb (ip_is_loopback (canonicalize_ip i))) false (ip a)) (naddresses node).

Definition touch_node_typed b (p : PeerId) (address : option MultiAddr) (t : AddressType) now
    : option (bool * KBucket) :=
  match bucket_position b p with
  | Some pos =>
      node ← nodes b !! pos;
      let node := with_last_seen node now in
      node ← match address with
             | Some addr =>
                 if negb (addr_is_loopback addr && node_has_non_loopback node)
                 then merge_typed_address node addr t else Some node
             | None => Some node
             end;
      Some (true, refreshed (move_to_tail b pos node) now)
  | None => Some (false, b)
  end.

Definition bucket_merge_upgrade_only b (p : PeerId) (addr : MultiAddr) (t : AddressType)
    : option (bool * KBucket) :=
  match bucket_position b p with
  | None => Some (false, b)
  | Some pos =>
      node ← nodes b !! pos;
      if addr_is_loopback addr && node_has_non_loopback node then Some (false, b)
      else '(changed, node) ← merge_typed_address_upgrade_only node addr t;
           Some (changed, set_nodes b (<[pos := node]> (nodes b)))
  end.

(** [None] asks the caller to take the slow path. *)
Definition touch_last_seen_if_merge_noop b (p : PeerId) (address : option MultiAddr)
    (t : AddressType) now : option bool * KBucket :=
  match bucket_position b p with
  | None => (Some false, b)
  | Some pos =>
      match nodes b !! pos with
      | None => (Some false, b)
      | Some node =>
          let merge_is_noop :=
            match address with
            | None => true
            | Some addr =>
                let t := for_advertised_address addr t in
                match position (λ a, bool_decide (a = addr)) (naddresses node) with
                | Some existing_pos => bool_decide (address_type_at node existing_pos = t)
                | None => addr_is_loopback addr && node_has_non_loopback node
                end
            end in
          if merge_is_noop
          then (Some true, set_nodes b (<[pos := with_last_seen node now]> (nodes b)))
          else (None, b)
      end
  end.

Definition bucket_replace_with_mode b (p : PeerId) (typed_addresses : list (MultiAddr * AddressType))
    (mode : AddressReplaceMode) now : bool * KBucket :=
  match bucket_position b p with
  | None => (false, b)
  | Some pos =>
      let typed := (λ q, (q.1, for_advertised_address q.1 q.2)) <$>
        List.filter (λ q, is_storable_address q.1) typed_addresses in
      if Nat.eqb (length typed) 0 && negb (Nat.eqb (length typed_addresses) 0) then (false, b)
      else
        let typed := take MAX_ADDRESSES_PER_NODE (sort_by_key (λ q, type_priority q.2) typed) in
        match nodes b !! pos with
        | None => (false, b)
        | Some node =>
            let node := enforce_per_ip_family_cap (with_addresses node (fst <$> typed) (snd <$> typed)) in
            if refreshes_liveness mode
            then (true, refreshed (move_to_tail b pos (with_last_seen node now)) now)
            else (true, set_nodes b (<[pos := node]> (nodes b)))
        end
  end.

Definition bucket_replace b p typed now : bool * KBucket :=
  bucket_replace_with_mode b p typed AuthenticatedSelfPublish now.
Definition bucket_replace_from_gossip b p typed now : bool * KBucket :=
  bucket_replace_with_mode b p typed GossipedRecord now.

(** ** Invariant *)

Record bucket_wf b : Prop := {
  bucket_ids : NoDup (id <$> nodes b);
  bucket_size : length (nodes b) ≤ max_size b;
  bucket_nodes n : n ∈ nodes b → node_wf n;
}.

Lemma bucket_position_Some b p pos :
  bucket_position b p = Some pos → ∃ n, nodes b !! pos = Some n ∧ id n = p.
Proof. intros (n & ? & ?%bool_decide_eq_true & _)%position_Some. eauto. Qed.

Lemma bucket_position_None b p : bucket_position b p = None ↔ p ∉ id <$> nodes b.
Proof.
  unfold bucket_position. rewrite position_None, list_elem_of_fmap. split.
  - intros Hall (n & -> & Hn). apply Hall in Hn. by apply bool_decide_eq_false in Hn.
  - intros Hni n Hn. apply bool_decide_eq_false. intros <-. eauto.
Qed.

Lemma move_to_tail_perm b pos n n' :
  nodes b !! pos = Some n → nodes (move_to_tail b pos n') ≡ₚ n' :: delete pos (nodes b).
Proof. intros _. simpl. by rewrite Permutation_app_comm. Qed.

Lemma delete_cons_perm b pos n : nodes b !! pos = Some n → nodes b ≡ₚ n :: delete pos (nodes b).
Proof. intros H. by apply delete_Permutation. Qed.

(** Replacing a node by a well-formed node of the same peer, in place or at
    the tail. *)
Lemma move_to_tail_wf b pos n n' :
  bucket_wf b → nodes b !! pos = Some n → id n' = id n → node_wf n' → bucket_wf (move_to_tail b pos n').
Proof.
  intros [Hids Hsize Hn] Hpos Hid Hn'. pose proof (delete_cons_perm b pos n Hpos) as Hp. constructor.
  - rewrite (move_to_tail_perm b pos n n' Hpos), fmap_cons, Hid, <- fmap_cons. by rewrite <- Hp.
  - rewrite (move_to_tail_perm b pos n n' Hpos). simpl. rewrite Hp in Hsize. simpl in Hsize. lia.
  - intros m. rewrite (move_to_tail_perm b pos n n' Hpos), elem_of_cons. intros [->|Hm]; [done|].
    apply Hn. rewrite Hp. by right.
Qed.

Lemma update_wf b pos n n' :
  bucket_wf b → nodes b !! pos = Some n → id n' = id n → node_wf n' →
  bucket_wf (set_nodes b (<[pos := n']> (nodes b))).
Proof.
  intros [Hids Hsize Hn] Hpos Hid Hn'. constructor; simpl.
  - rewrite list_fmap_insert, Hid, list_insert_id; [done|]. by rewrite list_lookup_fmap, Hpos.
  - by rewrite length_insert.
  - intros m [i Hi]%list_elem_of_lookup. apply list_lookup_insert_Some in Hi as [(_ & <- & _)|[_ Hi]]; [done|].
    apply Hn. by eapply list_elem_of_lookup_2.
Qed.

Lemma push_wf b n :
  bucket_wf b → id n ∉ id <$> nodes b → length (nodes b) < max_size b → node_wf n →
  bucket_wf (set_nodes b (nodes b ++ [n])).
Proof.
  intros [Hids Hsize Hn] Hni Hroom Hwf. constructor; simpl.
  - rewrite fmap_app. apply NoDup_app. split_and!; [done| |apply NoDup_singleton].
    intros x Hx Heq%list_elem_of_singleton. by subst x.
  - rewrite length_app. simpl. lia.
  - intros m [?|Hm%list_elem_of_singleton]%elem_of_app; [by apply Hn|by subst m].
Qed.

Lemma refreshed_wf b now : bucket_wf b → bucket_wf (refreshed b now).
Proof. by intros []. Qed.

Lemma with_last_seen_wf n t : node_wf n → node_wf (with_last_seen n t).
Proof. by intros []. Qed.

(** Capping a list that is already within the global limit. *)
Lemma cap_wf n :
  aligned n → (∀ a, a ∈ naddresses n → is_storable a = true) →
  (∀ a t, (a, t) ∈ zip (naddresses n) (naddress_types n) → for_advertised_address a t = t) →
  length (naddresses n) ≤ MAX_ADDRESSES_PER_NODE →
  node_wf (enforce_per_ip_family_cap n).
Proof.
  intros Hal Hst Hlan Hmax. pose proof (cap_truncate_wf n Hal Hst Hlan) as Hwf. cbn zeta in Hwf.
  destruct (cap_sublist n Hal) as [_ Hsub%sublist_length]. pose proof (cap_aligned n) as Hc.
  unfold aligned in Hc.
  rewrite (take_ge (naddresses (enforce_per_ip_family_cap n))) in Hwf by lia.
  by rewrite take_ge in Hwf by lia.
Qed.

(** An incoming record after filtering and limiting. *)
Record record_ok n : Prop := {
  rec_aligned : aligned n;
  rec_storable a : a ∈ naddresses n → is_storable a = true;
  rec_lan a t : (a, t) ∈ zip (naddresses n) (naddress_types n) → for_advertised_address a t = t;
  rec_max : length (naddresses n) ≤ MAX_ADDRESSES_PER_NODE;
}.

Lemma strip_aligned n : aligned (strip_unstorable n).
Proof. unfold aligned, strip_unstorable. simpl. by rewrite !length_fmap. Qed.

Lemma elem_of_strip n a :
  a ∈ naddresses (strip_unstorable n) ↔ a ∈ naddresses n ∧ is_storable a = true.
Proof.
  unfold strip_unstorable. simpl. rewrite list_elem_of_fmap. split.
  - intros ([a' t] & -> & [(i & x & [= -> _] & Hi)%elem_of_lookup_imap Hs]%elem_of_List_filter).
    split; [by eapply list_elem_of_lookup_2|done].
  - intros [[i Hi]%list_elem_of_lookup Hs]. exists (a, default Unverified (naddress_types n !! i)).
    split; [done|]. apply elem_of_List_filter. split; [|done].
    apply elem_of_lookup_imap. eauto.
Qed.

Lemma retag_zip addrs types a t :
  (a, t) ∈ zip addrs (retag addrs types) → for_advertised_address a t = t.
Proof.
  intros (i & Ha & Ht)%zip_elem_lookup. rewrite (retag_lookup _ _ _ _ Ha) in Ht.
  destruct (types !! i); simplify_eq/=. apply for_advertised_idemp.
Qed.

Lemma incoming_ok n : record_ok (limit_addresses (strip_unstorable n)).
Proof.
  pose proof (strip_aligned n) as Hal. unfold aligned in Hal.
  set (s := strip_unstorable n) in *. constructor; unfold aligned; cbn [limit_addresses with_addresses naddresses naddress_types].
  - rewrite retag_length, !length_take. lia.
  - intros a Ha. apply (elem_of_strip n). fold s. by eapply elem_of_sublist, sublist_take.
  - intros a t. apply retag_zip.
  - rewrite length_take. lia.
Qed.

Lemma merge_all_wf l : ∀ n, node_wf n →
  ∃ n', merge_all n l = Some n' ∧ node_wf n' ∧ id n' = id n ∧ last_seen n' = last_seen n ∧
    ∀ a, a ∈ naddresses n' → a ∈ fst <$> l ∨ a ∈ naddresses n.
Proof.
  induction l as [|[a t] l IH]; intros n Hn; cbn [merge_all]; [exists n; split_and!; auto|].
  destruct (merge_typed_address_wf n a t Hn) as (n1 & -> & Hn1 & Hid1 & Hls1 & Hsub1). simpl.
  destruct (IH n1 Hn1) as (n' & -> & Hn' & Hid' & Hls' & Hsub'). exists n'.
  split_and!; [done|done|congruence|congruence|]. intros x [?|[?|?]%Hsub1]%Hsub'; set_solver.
Qed.

Lemma record_typed_fst n :
  fst <$> imap (λ i addr, (addr, default Unverified (naddress_types n !! i))) (naddresses n) = naddresses n.
Proof.
  rewrite fmap_imap. rewrite <- (list_fmap_id (naddresses n)) at 2. rewrite <- imap_const. by apply imap_ext.
Qed.

(** Removing a peer's only entry is filtering its id out. *)
Lemma delete_is_filter (l : list NodeInfo) pos n :
  NoDup (id <$> l) → l !! pos = Some n →
  delete pos l = List.filter (λ m, negb (bool_decide (id m = id n))) l.
Proof.
  revert pos. induction l as [|m l IH]; intros pos Hnd Hpos; [done|].
  rewrite fmap_cons in Hnd. apply NoDup_cons in Hnd as [Hni Hnd]. destruct pos as [|pos]; simpl in *.
  - injection Hpos as ->. rewrite bool_decide_eq_true_2 by done. simpl.
    symmetry. apply filter_all_id. intros m' Hm'. apply negb_true_iff, bool_decide_eq_false.
    intros Heq. apply Hni. rewrite <- Heq. by apply list_elem_of_fmap_2.
  - rewrite bool_decide_eq_false_2; simpl; [f_equal; auto|].
    intros Heq. apply Hni. rewrite Heq. apply list_elem_of_fmap_2. by eapply list_elem_of_lookup_2.
Qed.

Lemma absent_filter b p :
  p ∉ id <$> nodes b → List.filter (λ m, negb (bool_decide (id m = p))) (nodes b) = nodes b.
Proof.
  intros Hni. apply filter_all_id. intros m Hm. apply negb_true_iff, bool_decide_eq_false.
  intros <-. apply Hni. by apply list_elem_of_fmap_2.
Qed.

Lemma limit_id n : id (limit_addresses (strip_unstorable n)) = id n.
Proof. done. Qed.

(** Adding a node to a well-formed bucket never panics and keeps the
    bucket well-formed.  A record without a storable address is refused and
    a new peer is refused by a full bucket, both leaving the bucket as it
    was.  Otherwise the peer ends up at the tail with the record's
    timestamp, only addresses of the record or of the stored entry, and the
    other entries and their order are untouched. *)
Lemma bucket_add_node_spec b node now :
  bucket_wf b →
  let stored := List.filter (λ n, negb (bool_decide (id n = id node))) (nodes b) in
  ((∀ a, a ∈ naddresses node → is_storable a = false) → add_node b node now = Some (Err NoAddresses, b)) ∧
  ((∃ a, a ∈ naddresses node ∧ is_storable a = true) →
   (id node ∉ id <$> nodes b → length (nodes b) = max_size b →
      add_node b node now = Some (Err (AtCapacity (length (nodes b)) (max_size b)), b)) ∧
   (id node ∈ id <$> nodes b ∨ length (nodes b) < max_size b →
      ∃ b' n', add_node b node now = Some (Ok tt, b') ∧ bucket_wf b' ∧
        nodes b' = stored ++ [n'] ∧ id n' = id node ∧ last_seen n' = last_seen node ∧
        last_refreshed_by_live_peer b' = now ∧ max_size b' = max_size b ∧
        (∀ a, a ∈ naddresses n' → (a ∈ naddresses node ∧ is_storable a = true) ∨
           ∃ n, n ∈ nodes b ∧ id n = id node ∧ a ∈ naddresses n))).
Proof.
  intros Hwf stored. unfold add_node. cbn zeta. set (s := strip_unstorable node).
  pose proof (incoming_ok node) as Hrec. fold s in Hrec. set (rec := limit_addresses s) in *.
  assert (Hrecin : ∀ a, a ∈ naddresses rec → a ∈ naddresses node ∧ is_storable a = true).
  { intros a Ha. apply elem_of_strip. fold s.
    change (naddresses rec) with (take MAX_ADDRESSES_PER_NODE (naddresses s)) in Ha.
    by eapply elem_of_sublist, sublist_take. }
  split.
  { intros Hno. rewrite (proj2 (Nat.eqb_eq _ _)); [done|]. apply length_zero_iff_nil, elem_of_nil_inv.
    intros a [Ha Hs]%elem_of_strip. by rewrite Hno in Hs. }
  intros (a0 & Ha0 & Hs0).
  assert (Hne : Nat.eqb (length (naddresses s)) 0 = false).
  { apply Nat.eqb_neq. intros Hz%length_zero_iff_nil.
    assert (Hin : a0 ∈ naddresses s) by (by apply elem_of_strip). rewrite Hz in Hin. by apply not_elem_of_nil in Hin. }
  rewrite Hne. change (id rec) with (id node). split.
  - intros Hni Hfull. rewrite (proj2 (bucket_position_None b (id node)) Hni).
    by rewrite Hfull, Nat.ltb_irrefl.
  - intros Hroom. destruct (bucket_position b (id node)) as [pos|] eqn:Hp.
    + destruct (bucket_position_Some _ _ _ Hp) as (n & Hpos & Hid). rewrite Hpos. cbn [mbind option_bind].
      assert (Hnwf : node_wf n) by (eapply bucket_nodes; [done|by eapply list_elem_of_lookup_2]).
      destruct (merge_all_wf (imap (λ i addr, (addr, default Unverified (naddress_types rec !! i))) (naddresses rec))
        (with_last_seen n (last_seen rec))) as (n' & -> & Hn' & Hid' & Hls' & Hsub); [by apply with_last_seen_wf|].
      rewrite record_typed_fst in Hsub. cbn [mbind option_bind].
      exists (refreshed (move_to_tail b pos n') now), n'. split_and!; [done|..|done|done|].
      * apply refreshed_wf. eapply move_to_tail_wf; [done..|]. simpl in Hid'. congruence.
      * simpl. rewrite (delete_is_filter _ _ _ (bucket_ids _ Hwf) Hpos), Hid. done.
      * simpl in Hid'. congruence.
      * done.
      * intros a [?|?]%Hsub; [left; auto|right]. exists n. split_and!; [by eapply list_elem_of_lookup_2|done..].
    + rewrite bucket_position_None in Hp. destruct Hroom as [?|Hroom]; [done|].
      rewrite (proj2 (Nat.ltb_lt _ _) Hroom).
      exists (refreshed (set_nodes b (nodes b ++ [enforce_per_ip_family_cap rec])) now), (enforce_per_ip_family_cap rec).
      destruct Hrec as [Hal Hst Hlan Hmax]. destruct (cap_sublist rec Hal) as [_ Hsub].
      split_and!; [done|..|done|done|done|done|].
      * apply refreshed_wf, push_wf; [done..|]. by apply cap_wf.
      * simpl. unfold stored. by rewrite absent_filter.
      * intros a Ha. left. apply Hrecin. by eapply elem_of_sublist.
Qed.

Lemma elem_node_wf b pos n : bucket_wf b → nodes b !! pos = Some n → node_wf n.
Proof. intros Hwf Hpos. eapply bucket_nodes; [done|by eapply list_elem_of_lookup_2]. Qed.

(** Touching a peer (an authenticated message from it): the call does
    not panic and keeps the bucket well-formed; an absent peer changes
    nothing; a present one is moved to the tail with the current time, and
    its addresses change at most by the reported one, which is dropped when
    it is a loopback address and the peer is known at another. *)
Lemma touch_node_spec b p address t now :
  bucket_wf b →
  (p ∉ id <$> nodes b → touch_node_typed b p address t now = Some (false, b)) ∧
  (∀ n, n ∈ nodes b → id n = p →
     ∃ b' n', touch_node_typed b p address t now = Some (true, b') ∧ bucket_wf b' ∧
       nodes b' = List.filter (λ m, negb (bool_decide (id m = p))) (nodes b) ++ [n'] ∧
       id n' = p ∧ last_seen n' = now ∧ last_refreshed_by_live_peer b' = now ∧
       (address = None → naddresses n' = naddresses n ∧ naddress_types n' = naddress_types n) ∧
       (∀ a, address = Some a → addr_is_loopback a && node_has_non_loopback n = true →
          naddresses n' = naddresses n ∧ naddress_types n' = naddress_types n) ∧
       (∀ a, a ∈ naddresses n' → address = Some a ∨ a ∈ naddresses n)).
Proof.
  intros Hwf. unfold touch_node_typed. split.
  { intros Hni. by rewrite (proj2 (bucket_position_None b p) Hni). }
  intros n Hn Hid. destruct (bucket_position b p) as [pos|] eqn:Hp.
  2:{ apply bucket_position_None in Hp. destruct Hp. subst p. by apply list_elem_of_fmap_2. }
  destruct (bucket_position_Some _ _ _ Hp) as (n0 & Hpos & Hid0).
  assert (n0 = n) as ->.
  { apply list_elem_of_lookup in Hn as [k Hk].
    assert (pos = k) as ->; [|congruence].
    eapply (NoDup_lookup (id <$> nodes b)); [apply (bucket_ids _ Hwf)| |]; rewrite list_lookup_fmap;
      [by rewrite Hpos|by rewrite Hk; simpl; congruence]. }
  rewrite Hpos. cbn [mbind option_bind].
  assert (Hnwf : node_wf (with_last_seen n now)) by (by eapply with_last_seen_wf, elem_node_wf).
  set (merged := match address with Some a => _ | None => _ end).
  assert (Hm : ∃ n', merged = Some n' ∧ node_wf n' ∧ id n' = id n ∧ last_seen n' = now ∧
    (address = None → naddresses n' = naddresses n ∧ naddress_types n' = naddress_types n) ∧
    (∀ a, address = Some a → addr_is_loopback a && node_has_non_loopback n = true →
       naddresses n' = naddresses n ∧ naddress_types n' = naddress_types n) ∧
    (∀ a, a ∈ naddresses n' → address = Some a ∨ a ∈ naddresses n)).
  { unfold merged. destruct address as [a|]; [|by exists (with_last_seen n now); auto 10].
    change (node_has_non_loopback (with_last_seen n now)) with (node_has_non_loopback n).
    destruct (addr_is_loopback a && node_has_non_loopback n) eqn:Hl; cbn [negb].
    - exists (with_last_seen n now). split_and!; auto.
    - destruct (merge_typed_address_wf _ a t Hnwf) as (n' & -> & ? & ? & ? & Hsub).
      exists n'. split_and!; [done..| |].
      + intros a' [= <-]. congruence.
      + intros a' [->|?]%Hsub; auto. }
  destruct Hm as (n' & -> & Hn' & Hid' & Hls & H1 & H2 & H3). cbn [mbind option_bind].
  exists (refreshed (move_to_tail b pos n') now), n'. split_and!; try done; [..|congruence].
  - apply refreshed_wf. by eapply move_to_tail_wf.
  - simpl. by rewrite (delete_is_filter _ _ _ (bucket_ids _ Hwf) Hpos), Hid.
Qed.

(** The liveness state of a bucket: who was seen when, in which order, and
    when the bucket was last refreshed. *)
Definition liveness b : list (PeerId * Instant) * Instant * Instant :=
  ((λ n, (id n, last_seen n)) <$> nodes b, last_refreshed_by_live_peer b, last_probe_finished b).

Lemma update_liveness b pos n n' :
  nodes b !! pos = Some n → id n' = id n → last_seen n' = last_seen n →
  liveness (set_nodes b (<[pos := n']> (nodes b))) = liveness b.
Proof.
  intros Hpos Hid Hls. unfold liveness. simpl. f_equal. f_equal.
  rewrite list_fmap_insert, Hid, Hls. apply list_insert_id. by rewrite list_lookup_fmap, Hpos.
Qed.

Lemma upgrade_only_wf n a t :
  node_wf n → ∃ c n', merge_typed_address_upgrade_only n a t = Some (c, n') ∧ node_wf n' ∧
    id n' = id n ∧ last_seen n' = last_seen n ∧ (∀ x, x ∈ naddresses n' → x = a ∨ x ∈ naddresses n).
Proof.
  intros Hn. unfold merge_typed_address_upgrade_only. cbn zeta.
  assert (Hsame : ∃ c n', Some (false, n) = Some (c, n') ∧ node_wf n' ∧
    id n' = id n ∧ last_seen n' = last_seen n ∧ (∀ x, x ∈ naddresses n' → x = a ∨ x ∈ naddresses n)) by eauto 10.
  destruct (negb _); [done|].
  destruct (match position _ _ with Some _ => _ | None => _ end); [done|].
  destruct (merge_typed_address_wf n a (for_advertised_address a t) Hn) as (n' & -> & ? & ? & ? & ?).
  simpl. exists true, n'. split_and!; done.
Qed.

Lemma bucket_upgrade_only_wf b p a t :
  bucket_wf b → ∃ c b', bucket_merge_upgrade_only b p a t = Some (c, b') ∧ bucket_wf b' ∧
    liveness b' = liveness b ∧ max_size b' = max_size b.
Proof.
  intros Hwf. unfold bucket_merge_upgrade_only. destruct (bucket_position b p) as [pos|] eqn:Hp; [|eauto 10].
  destruct (bucket_position_Some _ _ _ Hp) as (n & Hpos & _). rewrite Hpos. cbn [mbind option_bind].
  destruct (_ && _); [eauto 10|].
  destruct (upgrade_only_wf n a t (elem_node_wf _ _ _ Hwf Hpos)) as (c & n' & -> & ? & ? & ? & _).
  cbn [mbind option_bind]. exists c, (set_nodes b (<[pos := n']> (nodes b))). split_and!; [done|..|done].
  - by eapply update_wf.
  - by eapply update_liveness.
Qed.

(** The record a published address set is stored as. *)
Definition published (typed : list (MultiAddr * AddressType)) : list (MultiAddr * AddressType) :=
  take MAX_ADDRESSES_PER_NODE (sort_by_key (λ q, type_priority q.2)
    ((λ q, (q.1, for_advertised_address q.1 q.2)) <$> List.filter (λ q, is_storable_address q.1) typed)).

Lemma elem_of_published typed a t :
  (a, t) ∈ published typed → is_storable a = true ∧ for_advertised_address a t = t ∧ a ∈ fst <$> typed.
Proof.
  unfold published. intros Hin. apply elem_of_sublist with (l2 := sort_by_key (λ q, type_priority q.2)
    ((λ q, (q.1, for_advertised_address q.1 q.2)) <$> List.filter (λ q, is_storable_address q.1) typed)) in Hin;
    [|apply sublist_take].
  rewrite elem_of_sort in Hin. apply list_elem_of_fmap in Hin as ([x u] & [= -> ->] & Hin).
  apply elem_of_List_filter in Hin as [Hin Hs]. split_and!; [done|apply for_advertised_idemp|].
  by apply (list_elem_of_fmap_2 fst) in Hin.
Qed.

Lemma published_wf n typed :
  node_wf (enforce_per_ip_family_cap (with_addresses n (fst <$> published typed) (snd <$> published typed))).
Proof.
  apply cap_wf; unfold aligned; cbn [naddresses naddress_types with_addresses].
  - by rewrite !length_fmap.
  - intros a ([x t] & -> & Hin)%list_elem_of_fmap. by apply elem_of_published in Hin as [? _].
  - intros a t. rewrite zip_fst_snd. intros Hin. by apply elem_of_published in Hin as (_ & ? & _).
  - rewrite length_fmap. unfold published. rewrite length_take. lia.
Qed.

Lemma bucket_replace_unfold b p typed mode now pos n :
  bucket_position b p = Some pos → nodes b !! pos = Some n →
  (typed = [] ∨ ∃ a, a ∈ fst <$> typed ∧ is_storable a = true) →
  bucket_replace_with_mode b p typed mode now =
  (true,
   let node := enforce_per_ip_family_cap (with_addresses n (fst <$> published typed) (snd <$> published typed)) in
   if refreshes_liveness mode then refreshed (move_to_tail b pos (with_last_seen node now)) now
   else set_nodes b (<[pos := node]> (nodes b))).
Proof.
  intros Hp Hpos Hok. unfold bucket_replace_with_mode. rewrite Hp, Hpos. fold (published typed).
  assert (Hguard : Nat.eqb (length ((λ q, (q.1, for_advertised_address q.1 q.2)) <$>
    List.filter (λ q, is_storable_address q.1) typed)) 0 && negb (Nat.eqb (length typed) 0) = false).
  { destruct Hok as [->|(a & ([x t] & -> & Hin)%list_elem_of_fmap & Hs)]; [done|].
    rewrite length_fmap. apply andb_false_iff. left. apply Nat.eqb_neq. intros Hz%length_zero_iff_nil.
    assert (Hf : (x, t) ∈ List.filter (λ q, is_storable_address q.1) typed) by (by apply elem_of_List_filter).
    rewrite Hz in Hf. by apply not_elem_of_nil in Hf. }
  cbn zeta. rewrite Hguard. by destruct (refreshes_liveness mode).
Qed.

(** The three outcomes of a replacement. *)
Lemma bucket_replace_cases b p typed mode now :
  bucket_replace_with_mode b p typed mode now = (false, b) ∨
  ∃ pos n, bucket_position b p = Some pos ∧ nodes b !! pos = Some n ∧
    (typed = [] ∨ ∃ a, a ∈ fst <$> typed ∧ is_storable a = true).
Proof.
  destruct (bucket_position b p) as [pos|] eqn:Hp.
  2:{ left. unfold bucket_replace_with_mode. by rewrite Hp. }
  destruct (bucket_position_Some _ _ _ Hp) as (n & Hpos & _).
  destruct typed as [|q typed'] eqn:Ht; [by right; eauto 10|]. rewrite <- Ht in *.
  destruct (decide (Exists (λ q, is_storable q.1 = true) typed)) as [Hex|Hnex].
  - right. exists pos, n. split_and!; [done..|]. right.
    apply Exists_exists in Hex as ([a u] & Hin & Hs). exists a. split; [|done].
    by apply (list_elem_of_fmap_2 fst) in Hin.
  - left. unfold bucket_replace_with_mode. rewrite Hp. cbn zeta.
    assert (Hf : List.filter (λ q, is_storable_address q.1) typed = []).
    { destruct (List.filter _ typed) as [|x l] eqn:Hf; [done|]. destruct Hnex. apply Exists_exists.
      assert (Hx : x ∈ List.filter (λ q, is_storable_address q.1) typed) by (rewrite Hf; by left).
      apply elem_of_List_filter in Hx as [? ?]. eauto. }
    rewrite Hf, Ht. done.
Qed.

Lemma bucket_replace_wf b p typed mode now :
  bucket_wf b → let r := bucket_replace_with_mode b p typed mode now in
  bucket_wf r.2 ∧ max_size r.2 = max_size b ∧
  (r.1 = false → r.2 = b) ∧ (mode = GossipedRecord → liveness r.2 = liveness b).
Proof.
  intros Hwf. cbn zeta. destruct (bucket_replace_cases b p typed mode now) as [->|(pos & n & Hp & Hpos & Hok)];
    [done|].
  rewrite (bucket_replace_unfold _ _ _ _ _ _ _ Hp Hpos Hok). cbn zeta.
  pose proof (published_wf n typed) as Hpub. set (node := enforce_per_ip_family_cap _) in *.
  destruct mode; cbn [refreshes_liveness fst snd]; split_and!; try done.
  - apply refreshed_wf. eapply move_to_tail_wf; [done..|]. by apply with_last_seen_wf.
  - by eapply update_wf.
  - intros _. by eapply update_liveness.
Qed.

(** Gossip is not evidence of life: neither an upgrade-only merge nor a
    gossiped address set changes a peer's [last_seen], the order of the
    bucket, or the bucket's refresh and probe times; both keep the bucket
    well-formed and never panic. *)
Theorem gossip_is_not_liveness b :
  bucket_wf b →
  (∀ p a t, ∃ c b', bucket_merge_upgrade_only b p a t = Some (c, b') ∧ bucket_wf b' ∧ liveness b' = liveness b) ∧
  (∀ p typed now, let b' := (bucket_replace_from_gossip b p typed now).2 in
     bucket_wf b' ∧ liveness b' = liveness b).
Proof.
  intros Hwf. split.
  - intros p a t. destruct (bucket_upgrade_only_wf b p a t Hwf) as (c & b' & ? & ? & ? & _). eauto.
  - intros p typed now. destruct (bucket_replace_wf b p typed GossipedRecord now Hwf) as (? & _ & _ & Hl).
    cbn zeta. unfold bucket_replace_from_gossip. auto.
Qed.

Lemma keep_flagged_sorted {A} (R : relation A) flags l :
  StronglySorted R l → StronglySorted R (keep_flagged flags l).
Proof.
  intros Hs. revert flags. induction Hs as [|x l Hl IH Hx]; intros [|f flags]; try (by constructor).
  simpl. destruct f; [|apply IH]. constructor; [apply IH|].
  rewrite Forall_forall in Hx |- *. intros y Hy. apply Hx. by eapply elem_of_sublist, keep_flagged_sublist.
Qed.

Lemma published_sorted n typed :
  let c := enforce_per_ip_family_cap (with_addresses n (fst <$> published typed) (snd <$> published typed)) in
  StronglySorted (λ p q, (priority p.2 ≤ priority q.2)%N) (zip (naddresses c) (naddress_types c)).
Proof.
  cbn zeta. unfold enforce_per_ip_family_cap. cbn [naddresses naddress_types with_addresses].
  rewrite pad_types_aligned by (by rewrite !length_fmap).
  rewrite take_ge by (by rewrite !length_fmap). rewrite keep_flagged_zip by (by rewrite !length_fmap).
  rewrite zip_fst_snd. apply keep_flagged_sorted. unfold published.
  apply (StronglySorted_weaken (key_le (λ q, type_priority q.2))); [intros p q _ _ Hpq; by apply N_tle|].
  eapply (StronglySorted_app_1_l _ _ (drop MAX_ADDRESSES_PER_NODE _)). rewrite take_drop. apply sort_sorted.
Qed.

(** An authenticated address publication replaces the peer's whole
    address list: the stored list is sorted by tier, capped per family,
    holds only published storable addresses under their canonical tags, and
    the peer moves to the tail with the current time.  A set in which no
    address is storable is refused and changes nothing. *)
Theorem bucket_replace_spec b p typed now n :
  bucket_wf b → n ∈ nodes b → id n = p →
  ((typed ≠ [] ∧ ∀ a, a ∈ fst <$> typed → is_storable a = false) → bucket_replace b p typed now = (false, b)) ∧
  (typed = [] ∨ (∃ a, a ∈ fst <$> typed ∧ is_storable a = true) →
   ∃ b' n', bucket_replace b p typed now = (true, b') ∧ bucket_wf b' ∧
     nodes b' = List.filter (λ m, negb (bool_decide (id m = p))) (nodes b) ++ [n'] ∧
     id n' = p ∧ last_seen n' = now ∧ node_wf n' ∧
     StronglySorted (λ x y, (priority x.2 ≤ priority y.2)%N) (zip (naddresses n') (naddress_types n')) ∧
     (∀ a, a ∈ naddresses n' → a ∈ fst <$> typed)).
Proof.
  intros Hwf Hn Hid. unfold bucket_replace. split.
  - intros [Hne Hno]. destruct (bucket_replace_cases b p typed AuthenticatedSelfPublish now)
      as [?|(_ & _ & _ & _ & [?|(a & Ha & Hs)])]; [done|done|]. by rewrite Hno in Hs.
  - intros Hok. destruct (bucket_position b p) as [pos|] eqn:Hp.
    2:{ apply bucket_position_None in Hp. destruct Hp. subst p. by apply list_elem_of_fmap_2. }
    destruct (bucket_position_Some _ _ _ Hp) as (n0 & Hpos & Hid0).
    rewrite (bucket_replace_unfold _ _ _ _ _ _ _ Hp Hpos Hok). cbn zeta. cbn [refreshes_liveness].
    pose proof (published_wf n0 typed) as Hpub. pose proof (published_sorted n0 typed) as Hsort. cbn zeta in Hsort.
    assert (Hin : ∀ a, a ∈ naddresses (enforce_per_ip_family_cap
      (with_addresses n0 (fst <$> published typed) (snd <$> published typed))) → a ∈ fst <$> typed).
    { intros a Ha. assert (Hsub : a ∈ fst <$> published typed).
      { eapply elem_of_sublist; [exact Ha|]. apply keep_flagged_sublist. }
      apply list_elem_of_fmap in Hsub as ([x u] & -> & Hx). by apply elem_of_published in Hx as (_ & _ & ?). }
    set (node := enforce_per_ip_family_cap _) in *.
    eexists _, (with_last_seen node now). split; [done|]. split_and!; try done.
    + apply refreshed_wf. eapply move_to_tail_wf; [done..|]. by apply with_last_seen_wf.
    + simpl. by rewrite (delete_is_filter _ _ _ (bucket_ids _ Hwf) Hpos), Hid0.
    + by apply with_last_seen_wf.
Qed.

(** The lock-free touch: [Some false] exactly when the peer is absent;
    [Some true] only when the reported address needs no merge (none reported,
    stored under the same tag, or refused as a loopback injection), and then
    the peer's [last_seen] is the only thing that changes; in every other case
    the bucket is untouched and the caller is sent to the slow path. *)
Lemma fast_touch_spec b p address t now :
  bucket_wf b →
  let r := touch_last_seen_if_merge_noop b p address t now in
  bucket_wf r.2 ∧ last_refreshed_by_live_peer r.2 = last_refreshed_by_live_peer b ∧
  (r.1 = Some false ↔ ¬ (p ∈ id <$> nodes b)) ∧ (r.1 ≠ Some true → r.2 = b) ∧
  (r.1 = Some true → ∃ pos n, nodes b !! pos = Some n ∧ id n = p ∧
     nodes r.2 = <[pos := with_last_seen n now]> (nodes b) ∧
     ∀ a, address = Some a →
       (a, for_advertised_address a t) ∈ zip (naddresses n) (naddress_types n) ∨
       (¬ (a ∈ naddresses n) ∧ addr_is_loopback a = true ∧ node_has_non_loopback n = true)).
Proof.
  intros Hwf. unfold touch_last_seen_if_merge_noop. cbn zeta.
  destruct (bucket_position b p) as [pos|] eqn:Hp.
  2:{ apply bucket_position_None in Hp. cbn. split_and!; done. }
  destruct (bucket_position_Some _ _ _ Hp) as (n & Hpos & Hid). rewrite Hpos.
  assert (Hin : p ∈ id <$> nodes b).
  { subst p. apply list_elem_of_fmap_2. by eapply list_elem_of_lookup_2. }
  assert (Hnwf : node_wf n) by (by eapply elem_node_wf).
  destruct (match address with Some a => _ | None => _ end) eqn:Hnoop; cbn [fst snd].
  - split_and!; [by eapply update_wf, with_last_seen_wf|done|by split|done|].
    intros _. exists pos, n. split_and!; [done..|]. intros a ->.
    destruct (position _ (naddresses n)) as [i|] eqn:Ha.
    + left. apply position_Some in Ha as (x & Hx & ->%bool_decide_eq_true & _).
      apply bool_decide_eq_true in Hnoop. unfold address_type_at in Hnoop. rewrite Hx in Hnoop. simpl in Hnoop.
      destruct (lookup_lt_is_Some_2 (naddress_types n) i) as [u Hu].
      { rewrite (wf_aligned _ Hnwf). by eapply lookup_lt_Some. }
      rewrite Hu in Hnoop. simpl in Hnoop. apply zip_elem_lookup. exists i. split; [done|].
      rewrite Hu, <- Hnoop. symmetry. f_equal. apply (wf_lan _ Hnwf), zip_elem_lookup. eauto.
    + right. apply andb_true_iff in Hnoop as [? ?]. split_and!; [|done..].
      rewrite position_None in Ha. intros Hx. apply Ha in Hx. by apply bool_decide_eq_false in Hx.
  - split_and!; [done|done|by split|done|done].
Qed.

Lemma remove_node_wf b p : bucket_wf b → bucket_wf (remove_node b p).
Proof.
  intros [Hids Hsize Hn].
  assert (Hsub : nodes (remove_node b p) `sublist_of` nodes b) by apply List_filter_sublist.
  constructor.
  - eapply sublist_NoDup; [exact Hids|]. by apply fmap_sublist.
  - apply sublist_length in Hsub. simpl in *. lia.
  - intros n Hin. apply Hn. by eapply elem_of_sublist.
Qed.
End bucket.
