(* ===== verification/RoutingTable.v ===== *)
(** * The Kademlia routing table

    [KademliaRoutingTable] of [src/dht/core_engine.rs]: 256 buckets around the
    local identifier and the publication state of the admitted peers.  [None]
    is a panic (an index out of range, or a panic of a bucket operation). *)

From stdpp Require Import prelude sorting gmap.
From S2P Require Import Prelude Keys Ip Address PeerRecord SignedAddress NodeInfo KBucket.

Definition KADEMLIA_BUCKET_COUNT : nat := 256.

Record TransportAddressSet := mk_set {
  set_seq : N;
  set_records : list TransportAddressRecord;
  set_proof : option VerifiedAddressRecord;
}.

Record AddressPublication := mk_publication {
  pub_seq : N;
  pub_transport : option TransportAddressSet;
}.

(** [AddressPublication::default()]. *)
Definition default_publication : AddressPublication := {| pub_seq := 0; pub_transport := None |}.

Record KademliaRoutingTable `{TransportLib} := mk_table {
  buckets : list KBucket;
  node_id : PeerId;
  address_publications : gmap PeerId AddressPublication;
}.

Record BucketRefreshCandidate := mk_candidate {
  candidate_index : nat;
  refresh_debt : Z;
  live_peer_age : Z;
  probe_age : Z;
}.

(** Bit [i] of a distance, most significant first:
    [(distance[i / 8] >> (7 - i % 8)) & 1 == 1]. *)
Definition distance_bit (d : Key) (i : nat) : bool :=
  (Z.land (Z.shiftr (nth (i / 8)%nat (key_bytes d) 0%Z) (7 - Z.of_nat (i mod 8)%nat)) 1 =? 1)%Z.

Definition bucket_index_of (self key : PeerId) : option nat :=
  List.find (distance_bit (xor_distance self key)) (seq 0 KADEMLIA_BUCKET_COUNT).

Global Arguments bucket_index_of : simpl never.

Section table.
Context `{TL : TransportLib}.
Implicit Types (t : KademliaRoutingTable) (now : Instant).

Definition table_new (self : PeerId) (k_value : nat) now : KademliaRoutingTable :=
  {| buckets := replicate KADEMLIA_BUCKET_COUNT (bucket_new k_value now); node_id := self;
     address_publications := ∅ |}.

Definition set_buckets t (l : list KBucket) : KademliaRoutingTable :=
  {| buckets := l; node_id := node_id t; address_publications := address_publications t |}.
Definition set_publications t (m : gmap PeerId AddressPublication) : KademliaRoutingTable :=
  {| buckets := buckets t; node_id := node_id t; address_publications := m |}.
Definition set_bucket t (i : nat) (b : KBucket) : KademliaRoutingTable :=
  set_buckets t (<[i := b]> (buckets t)).

Definition get_bucket_index_for_key t (key : DhtKey) : option nat := bucket_index_of (node_id t) key.
Definition get_bucket_index t (p : PeerId) : option nat := get_bucket_index_for_key t p.

Definition publish_seq_for t (p : PeerId) : N :=
  from_option pub_seq 0%N (address_publications t !! p).

Definition transport_address_set t (p : PeerId) : option TransportAddressSet :=
  address_publications t !! p ≫= pub_transport.

Definition has_address_publication t (p : PeerId) : bool :=
  negb (publish_seq_for t p =? 0)%N || bool_decide (is_Some (transport_address_set t p)).

Definition touch_node t (p : PeerId) (address : option MultiAddr) (ty : AddressType) now
    : option (bool * KademliaRoutingTable) :=
  let address := if has_address_publication t p then None else address in
  match get_bucket_index t p with
  | Some i =>
      b ← buckets t !! i;
      '(found, b) ← touch_node_typed b p address ty now;
      Some (found, set_bucket t i b)
  | None => Some (false, t)
  end.

Definition table_add_node t (node : NodeInfo) now
    : option (result unit AddNodeError * KademliaRoutingTable) :=
  if has_address_publication t (id node) then
    '(_, t) ← touch_node t (id node) None Unverified now;
    Some (Ok tt, t)
  else
    match get_bucket_index t (id node) with
    | None => Some (Err CannotInsertSelf, t)
    | Some i =>
        b ← buckets t !! i;
        '(r, b) ← add_node b node now;
        Some (r, set_bucket t i b)
    end.

Definition table_remove_node t (p : PeerId) : option KademliaRoutingTable :=
  t ← match get_bucket_index t p with
      | Some i => b ← buckets t !! i; Some (set_bucket t i (remove_node b p))
      | None => Some t
      end;
  Some (set_publications t (delete p (address_publications t))).

Definition table_merge_upgrade_only t (p : PeerId) (addr : MultiAddr) (ty : AddressType)
    : option (bool * KademliaRoutingTable) :=
  if has_address_publication t p then Some (false, t)
  else match get_bucket_index t p with
       | Some i =>
           b ← buckets t !! i;
           '(changed, b) ← bucket_merge_upgrade_only b p addr ty;
           Some (changed, set_bucket t i b)
       | None => Some (false, t)
       end.

Definition touch_legacy_relay_hint_if_unsequenced t (p : PeerId) (addr : MultiAddr) now
    : option (bool * KademliaRoutingTable) :=
  if has_address_publication t p then Some (false, t)
  else touch_node t p (Some addr) Relay now.

Definition replace_with_mode t (p : PeerId) (typed : list (MultiAddr * AddressType)) (seq : N)
    (mode : AddressReplaceMode) now : option (bool * KademliaRoutingTable) :=
  if (seq =? 0)%N then Some (false, t)
  else if from_option (λ stored, bool_decide (is_Some (pub_transport stored)) || (seq <=? pub_seq stored)%N)
            false (address_publications t !! p)
  then Some (false, t)
  else match get_bucket_index t p with
       | None => Some (false, t)
       | Some i =>
           b ← buckets t !! i;
           let '(applied, b) := match mode with
                                | AuthenticatedSelfPublish => bucket_replace b p typed now
                                | GossipedRecord => bucket_replace_from_gossip b p typed now
                                end in
           let t := set_bucket t i b in
           if applied then
             let old := default default_publication (address_publications t !! p) in
             Some (true, set_publications t
               (<[p := {| pub_seq := seq; pub_transport := pub_transport old |}]> (address_publications t)))
           else Some (false, t)
       end.

Definition replace_node_addresses t p typed seq now : option (bool * KademliaRoutingTable) :=
  replace_with_mode t p typed seq AuthenticatedSelfPublish now.
Definition replace_node_addresses_from_gossip t p typed seq now : option (bool * KademliaRoutingTable) :=
  replace_with_mode t p typed seq GossipedRecord now.

(** The fast touch path; it changes [last_seen] only. *)
Definition try_touch_last_seen t (p : PeerId) (address : option MultiAddr) (ty : AddressType) now
    : option (option bool * KademliaRoutingTable) :=
  let address := if has_address_publication t p then None else address in
  match get_bucket_index t p with
  | None => Some (None, t)
  | Some i =>
      b ← buckets t !! i;
      let '(r, b) := touch_last_seen_if_merge_noop b p address ty now in
      Some (r, set_bucket t i b)
  end.

Definition all_nodes t : list NodeInfo := concat (get_nodes <$> buckets t).

Definition find_closest_nodes t (key : DhtKey) (count : nat) : list NodeInfo :=
  let candidates := (λ n, (n, xor_distance (id n) key)) <$> all_nodes t in
  fst <$> take count (sort_by_key snd candidates).

Definition find_closest_nodes_with_publish_seq t (key : DhtKey) (count : nat) : list (NodeInfo * N) :=
  (λ n, (n, publish_seq_for t (id n))) <$> find_closest_nodes t key count.

Definition all_nodes_with_publish_seq t : list (NodeInfo * N) :=
  (λ n, (n, publish_seq_for t (id n))) <$> all_nodes t.

Definition find_node_by_id t (p : PeerId) : option NodeInfo :=
  i ← get_bucket_index t p; b ← buckets t !! i; find_node b p.

Definition node_count t : nat := sum_list (length ∘ get_nodes <$> buckets t).

Definition k_closest_ids t (k : nat) : list PeerId := id <$> find_closest_nodes t (node_id t) k.

Definition bucket_refresh_candidates t now : list BucketRefreshCandidate :=
  imap (λ index b,
    let live_peer_age := Z.max 0 (now - last_refreshed_by_live_peer b) in
    let probe_age := Z.max 0 (now - last_probe_finished b) in
    {| candidate_index := index; refresh_debt := Z.min live_peer_age probe_age;
       live_peer_age := live_peer_age; probe_age := probe_age |}) (buckets t).

Definition mark_bucket_probe_finished t (i : nat) now : bool * KademliaRoutingTable :=
  match buckets t !! i with
  | None => (false, t)
  | Some b => (true, set_bucket t i
      {| nodes := nodes b; max_size := max_size b;
         last_refreshed_by_live_peer := last_refreshed_by_live_peer b; last_probe_finished := now |})
  end.

Context `{PL : !PostcardLib}.

(** Records the local view of a publication keeps: everything but QUIC
    records whose address was capped away. *)
Definition keep_record (node : NodeInfo) (r : TransportAddressRecord) : bool :=
  negb (record_transport r =? transport_id KQuic)%N
  || match decode_known r with
     | Ok (Some a) => bool_decide (a ∈ naddresses node)
     | _ => false
     end.

Definition store_transport_address_set t (p : PeerId) (set : TransportAddressSet)
    (native : list (MultiAddr * AddressType)) (mode : AddressReplaceMode) now
    : option (bool * KademliaRoutingTable) :=
  match get_bucket_index t p with
  | None => Some (false, t)
  | Some i =>
      if (set_seq set =? 0)%N
         || from_option (λ old, (set_seq set <=? set_seq old)%N) false (transport_address_set t p)
      then Some (false, t)
      else
        b ← buckets t !! i;
        let '(applied, b) := bucket_replace_with_mode b p native mode now in
        let t := set_bucket t i b in
        if negb applied then Some (false, t)
        else match find_node b p with
             | None => Some (false, t)
             | Some node =>
                 let set := {| set_seq := set_seq set;
                               set_records := List.filter (keep_record node) (set_records set);
                               set_proof := set_proof set |} in
                 Some (true, set_publications t
                   (<[p := {| pub_seq := set_seq set; pub_transport := Some set |}]>
                      (address_publications t)))
             end
  end.
End table.

(** ** Bucket indices *)

Lemma be_combine_testbit l j b :
  Forall (λ x, 0 ≤ x < 256)%Z l → (j < length l)%nat → (0 ≤ b < 8)%Z →
  Z.testbit (be_combine l) (8 * Z.of_nat (length l - 1 - j) + b) = Z.testbit (nth j l 0%Z) b.
Proof.
  intros Hok. revert j. induction Hok as [|x l Hx Hl IH]; intros j Hj Hb; [simpl in Hj; lia|].
  pose proof (be_combine_bound l Hl) as Hbound. cbn [be_combine].
  set (w := (8 * Z.of_nat (length l))%Z) in *.
  assert (Hw : (0 ≤ w)%Z) by lia.
  destruct j as [|j]; cbn [nth length].
  - replace (8 * Z.of_nat (S (length l) - 1 - 0) + b)%Z with (b + w)%Z by lia.
    rewrite <- Z.shiftr_spec by lia. f_equal. rewrite Z.shiftr_div_pow2 by done.
    symmetry. apply Z.div_unique with (be_combine l); lia.
  - simpl in Hj. rewrite <- (IH j) by lia.
    set (i := (8 * Z.of_nat (length l - 1 - j) + b)%Z).
    replace (8 * Z.of_nat (S (length l) - 1 - S j) + b)%Z with i by lia.
    assert (Hi : (0 ≤ i < w)%Z) by lia.
    rewrite <- (Z.mod_pow2_bits_low (x * 2 ^ w + be_combine l) w) by lia.
    rewrite Z.add_comm, Z.mod_add by lia. by rewrite Z.mod_small by lia.
Qed.

Lemma distance_bit_testbit d i :
  i < KADEMLIA_BUCKET_COUNT → distance_bit d i = Z.testbit (key_to_Z d) (255 - Z.of_nat i).
Proof.
  intros Hi. unfold KADEMLIA_BUCKET_COUNT in Hi. unfold distance_bit, key_to_Z.
  assert (Hbit : ∀ x k, (0 ≤ k)%Z → (Z.land (Z.shiftr x k) 1 =? 1)%Z = Z.testbit x k).
  { intros x k Hk. rewrite (Z.land_ones _ 1) by lia. change (2 ^ 1)%Z with 2%Z.
    rewrite <- Z.bit0_mod, Z.shiftr_spec by lia. rewrite Z.add_0_l. by destruct (Z.testbit x k). }
  pose proof (Nat.div_mod i 8 ltac:(lia)) as Hdm. pose proof (Nat.mod_upper_bound i 8 ltac:(lia)) as Hm.
  rewrite Hbit by lia.
  assert (Hlen : length (key_bytes d) = 32) by apply key_length.
  rewrite <- (be_combine_testbit (key_bytes d) (i / 8)%nat) by (try apply key_bytes_ok; lia).
  f_equal. rewrite Hlen. lia.
Qed.

(** The index as the position of the leading bit of the distance. *)
Lemma bucket_index_log2 self key :
  bucket_index_of self key =
  if (key_to_Z (xor_distance self key) =? 0)%Z then None
  else Some (255 - Z.to_nat (Z.log2 (key_to_Z (xor_distance self key)))).
Proof.
  set (d := xor_distance self key). pose proof (key_to_Z_bound d) as Hd. unfold bucket_index_of. fold d.
  destruct (Z.eqb_spec (key_to_Z d) 0) as [Hz|Hnz].
  - apply find_None_iff. intros i Hi%elem_of_seq. rewrite distance_bit_testbit by lia.
    rewrite Hz. apply Z.bits_0.
  - set (L := Z.log2 (key_to_Z d)).
    assert (HL : (0 ≤ L < 256)%Z).
    { split; [apply Z.log2_nonneg|]. apply Z.log2_lt_pow2; lia. }
    unfold KADEMLIA_BUCKET_COUNT. apply find_seq; [lia|..].
    + rewrite distance_bit_testbit by (unfold KADEMLIA_BUCKET_COUNT; lia).
      replace (255 - Z.of_nat (255 - Z.to_nat L))%Z with L by lia. apply Z.bit_log2. lia.
    + intros j Hj. rewrite distance_bit_testbit by (unfold KADEMLIA_BUCKET_COUNT; lia).
      apply Z.bits_above_log2; [lia|]. fold L. lia.
Qed.

Lemma bucket_index_None self key : bucket_index_of self key = None ↔ key = self.
Proof.
  rewrite bucket_index_log2. pose proof (xor_distance_zero self key) as Hz.
  destruct (Z.eqb_spec (key_to_Z (xor_distance self key)) 0) as [H0|H0].
  - split; [|done]. intros _. by apply Hz in H0.
  - split; [done|]. intros ->. destruct H0. by apply Hz.
Qed.

Lemma bucket_index_lt self key i : bucket_index_of self key = Some i → i < KADEMLIA_BUCKET_COUNT.
Proof. intros [Hi%elem_of_seq _]%find_Some_iff. lia. Qed.

Lemma bucket_index_Some self key i :
  bucket_index_of self key = Some i ↔
  i < KADEMLIA_BUCKET_COUNT ∧
  (2 ^ (255 - Z.of_nat i) ≤ key_to_Z (xor_distance self key) < 2 ^ (256 - Z.of_nat i))%Z.
Proof.
  set (D := key_to_Z (xor_distance self key)).
  pose proof (key_to_Z_bound (xor_distance self key)) as HD. fold D in HD.
  rewrite bucket_index_log2. fold D. unfold KADEMLIA_BUCKET_COUNT.
  destruct (Z.eqb_spec D 0) as [H0|H0].
  - split; [done|]. intros (? & Hlo & _). rewrite H0 in Hlo.
    pose proof (Z.pow_pos_nonneg 2 (255 - Z.of_nat i)). lia.
  - assert (HL : (0 ≤ Z.log2 D < 256)%Z).
    { split; [apply Z.log2_nonneg|]. apply Z.log2_lt_pow2; lia. }
    pose proof (Z.log2_spec D ltac:(lia)) as Hspec. split.
    + intros [= <-]. split; [lia|].
      replace (255 - Z.of_nat (255 - Z.to_nat (Z.log2 D)))%Z with (Z.log2 D) by lia.
      replace (256 - Z.of_nat (255 - Z.to_nat (Z.log2 D)))%Z with (Z.succ (Z.log2 D)) by lia. done.
    + intros (Hi & Hr). f_equal.
      assert (Z.log2 D = 255 - Z.of_nat i)%Z; [|lia].
      apply Z.log2_unique; [lia|]. by replace (Z.succ (255 - Z.of_nat i)) with (256 - Z.of_nat i)%Z by lia.
Qed.

(** The bucket of a key is the length of the common prefix with the local
    identifier: index [i] below 256 exactly when the XOR distance lies in
    [2^(255-i), 2^(256-i)); only the local identifier itself has no bucket. *)
Theorem bucket_index_spec self key i :
  (bucket_index_of self key = Some i ↔
   i < KADEMLIA_BUCKET_COUNT ∧
   (2 ^ (255 - Z.of_nat i) ≤ key_to_Z (xor_distance self key) < 2 ^ (256 - Z.of_nat i))%Z) ∧
  (bucket_index_of self key = None ↔ key = self).
Proof. split; [apply bucket_index_Some|apply bucket_index_None]. Qed.

(** ** Invariant *)

Global Opaque bucket_index_of.
Global Arguments get_bucket_index : simpl never.
Global Arguments get_bucket_index_for_key : simpl never.

Section invariant.
Context `{TL : TransportLib}.
Implicit Types (t : KademliaRoutingTable) (now : Instant) (p : PeerId).

Definition member t p : Prop := ∃ n, n ∈ all_nodes t ∧ id n = p.

Record table_wf (k : nat) t : Prop := {
  table_len : length (buckets t) = KADEMLIA_BUCKET_COUNT;
  table_bucket i b : buckets t !! i = Some b → bucket_wf b ∧ max_size b = k;
  table_place i b n : buckets t !! i = Some b → n ∈ nodes b → get_bucket_index t (id n) = Some i;
  table_pubs p : is_Some (address_publications t !! p) → member t p;
}.

Lemma elem_of_all_nodes t n :
  n ∈ all_nodes t ↔ ∃ i b, buckets t !! i = Some b ∧ n ∈ nodes b.
Proof.
  unfold all_nodes. rewrite list_elem_of_In, in_concat. split.
  - intros (l & Hl & Hn). apply list_elem_of_In, list_elem_of_fmap in Hl as (b & -> & Hb).
    apply list_elem_of_lookup in Hb as [i Hi]. apply list_elem_of_In in Hn. eauto.
  - intros (i & b & Hb & Hn). exists (nodes b). split; [|by apply list_elem_of_In].
    apply list_elem_of_In, list_elem_of_fmap. exists b. split; [done|]. by eapply list_elem_of_lookup_2.
Qed.

Lemma table_bucket_at k t p i :
  table_wf k t → get_bucket_index t p = Some i → ∃ b, buckets t !! i = Some b ∧ bucket_wf b ∧ max_size b = k.
Proof.
  intros Hwf Hi%bucket_index_lt. destruct (lookup_lt_is_Some_2 (buckets t) i) as [b Hb].
  { by rewrite (table_len _ _ Hwf). }
  destruct (table_bucket _ _ Hwf _ _ Hb). eauto.
Qed.

(** Membership is membership of the peer's own bucket. *)
Lemma member_bucket k t p :
  table_wf k t →
  member t p ↔ ∃ i b, get_bucket_index t p = Some i ∧ buckets t !! i = Some b ∧ p ∈ id <$> nodes b.
Proof.
  intros Hwf. unfold member. split.
  - intros (n & (i & b & Hb & Hn)%elem_of_all_nodes & <-). exists i, b.
    split_and!; [by eapply table_place|done|by apply list_elem_of_fmap_2].
  - intros (i & b & Hi & Hb & (n & -> & Hn)%list_elem_of_fmap). exists n.
    split; [|done]. apply elem_of_all_nodes. eauto.
Qed.

Lemma self_not_member k t : table_wf k t → ¬ member t (node_id t).
Proof.
  intros Hwf (i & b & Hi & _)%(member_bucket _ _ _ Hwf).
  unfold get_bucket_index, get_bucket_index_for_key in Hi.
  by rewrite (proj2 (bucket_index_None (node_id t) (node_id t)) eq_refl) in Hi.
Qed.

Lemma all_nodes_NoDup k t : table_wf k t → NoDup (id <$> all_nodes t).
Proof.
  intros Hwf. unfold all_nodes.
  assert (Hc : id <$> concat (get_nodes <$> buckets t) = concat (fmap id <$> (get_nodes <$> buckets t)))
    by apply List.concat_map.
  rewrite Hc.
  apply (NoDup_concat_indexed (get_bucket_index t) _ 0). intros i l.
  rewrite !list_lookup_fmap. destruct (buckets t !! i) as [b|] eqn:Hb; simpl; [|done]. intros [= <-].
  destruct (table_bucket _ _ Hwf _ _ Hb) as [Hbwf _]. split; [apply (bucket_ids _ Hbwf)|].
  intros p (n & -> & Hn)%list_elem_of_fmap. rewrite Nat.add_0_r. by eapply table_place.
Qed.

(** Replacing a bucket by one with at least its peers, all in place. *)
Lemma set_bucket_wf k t i b b' :
  table_wf k t → buckets t !! i = Some b → bucket_wf b' → max_size b' = max_size b →
  (∀ p, p ∈ id <$> nodes b' → get_bucket_index t p = Some i) →
  (∀ p, p ∈ id <$> nodes b → p ∈ id <$> nodes b') →
  table_wf k (set_bucket t i b').
Proof.
  intros Hwf Hb Hwf' Hmax Hplace Hkeep. constructor; simpl.
  - rewrite length_insert. apply (table_len _ _ Hwf).
  - intros j c. rewrite list_lookup_insert_Some. intros [(-> & <- & _)|[_ Hc]]; [|by apply (table_bucket _ _ Hwf _ _ Hc)].
    split; [done|]. rewrite Hmax. by apply (table_bucket _ _ Hwf _ _ Hb).
  - intros j c n. rewrite list_lookup_insert_Some. intros [(-> & <- & _)|[_ Hc]] Hn.
    + apply Hplace. by apply list_elem_of_fmap_2.
    + exact (table_place _ _ Hwf j c n Hc Hn).
  - intros p (n & (j & c & Hc & Hn)%elem_of_all_nodes & <-)%(table_pubs _ _ Hwf).
    destruct (decide (j = i)) as [->|Hne].
    + assert (c = b) as -> by congruence.
      assert (Hin : id n ∈ id <$> nodes b') by (apply Hkeep; by apply list_elem_of_fmap_2).
      apply list_elem_of_fmap in Hin as (m' & Heq & Hm'). exists m'. split; [|done].
      apply elem_of_all_nodes. exists i, b'. split; [|done]. simpl. apply list_lookup_insert_eq.
      by eapply lookup_lt_Some.
    + exists n. split; [|done]. apply elem_of_all_nodes. exists j, c. split; [|done].
      simpl. by rewrite list_lookup_insert_ne.
Qed.

Lemma table_new_wf self k now : table_wf k (table_new self k now).
Proof.
  constructor; unfold table_new; cbn [buckets address_publications].
  - apply length_replicate.
  - intros i b [-> _]%lookup_replicate. split; [|done]. constructor; simpl; [constructor|lia|].
    intros n Hn. by apply not_elem_of_nil in Hn.
  - intros i b n [-> _]%lookup_replicate Hn. by apply not_elem_of_nil in Hn.
  - intros p [x Hx]. by rewrite lookup_empty in Hx.
Qed.

(** *** Operations *)

Lemma set_bucket_index t i b p : get_bucket_index (set_bucket t i b) p = get_bucket_index t p.
Proof. reflexivity. Qed.

Lemma bucket_ids_place k t i b p :
  table_wf k t → buckets t !! i = Some b → p ∈ id <$> nodes b → get_bucket_index t p = Some i.
Proof. intros Hwf Hb (n & -> & Hn)%list_elem_of_fmap. exact (table_place _ _ Hwf i b n Hb Hn). Qed.

Lemma ids_filter_snoc (l : list NodeInfo) n p q :
  id n = p → q ∈ id <$> (List.filter (λ m, negb (bool_decide (id m = p))) l ++ [n]) ↔ q = p ∨ q ∈ id <$> l.
Proof.
  intros Hn. rewrite fmap_app, elem_of_app. change (id <$> [n]) with [id n].
  rewrite list_elem_of_singleton, Hn, !list_elem_of_fmap. setoid_rewrite elem_of_List_filter.
  setoid_rewrite negb_true_iff. setoid_rewrite bool_decide_eq_false. split; [naive_solver|].
  intros [?|(m & -> & Hm)]; [by right|]. destruct (decide (id m = p)); [by right|left; eauto].
Qed.

(** A touch keeps the peers of the bucket. *)
Lemma touch_node_typed_ids b p address ty now :
  bucket_wf b → ∃ found b', touch_node_typed b p address ty now = Some (found, b') ∧ bucket_wf b' ∧
    max_size b' = max_size b ∧ (∀ q, q ∈ id <$> nodes b' ↔ q ∈ id <$> nodes b).
Proof.
  intros Hwf. destruct (touch_node_spec b p address ty now Hwf) as [Habs Hpres].
  destruct (decide (p ∈ id <$> nodes b)) as [Hin|Hni].
  - pose proof Hin as (n & Hid & Hn)%list_elem_of_fmap.
    destruct (Hpres n Hn (eq_sym Hid)) as (b' & n' & Hop & Hwf' & Hnodes & Hid' & _).
    exists true, b'. split_and!; [done|done| |].
    + revert Hop. unfold touch_node_typed. destruct (bucket_position b p); [|done].
      destruct (nodes b !! _); [|done]. simpl.
      destruct (match address with Some _ => _ | None => _ end); [|done]. simpl. by intros [= <-].
    + intros q. rewrite Hnodes, ids_filter_snoc by done. naive_solver.
  - exists false, b. split_and!; auto.
Qed.

Lemma touch_node_wf k t p address ty now :
  table_wf k t → ∃ found t', touch_node t p address ty now = Some (found, t') ∧ table_wf k t'.
Proof.
  intros Hwf. unfold touch_node. cbn zeta. destruct (get_bucket_index t p) as [i|] eqn:Hi; [|eauto].
  destruct (table_bucket_at _ _ _ _ Hwf Hi) as (b & Hb & Hbwf & Hmax). rewrite Hb. cbn [mbind option_bind].
  destruct (touch_node_typed_ids b p (if has_address_publication t p then None else address) ty now Hbwf)
    as (found & b' & -> & Hwf' & Hmax' & Hids). cbn [mbind option_bind].
  exists found, (set_bucket t i b'). split; [done|].
  eapply set_bucket_wf; [done..| |].
  - intros q Hq%Hids. by eapply bucket_ids_place.
  - intros q. apply Hids.
Qed.

Lemma add_node_ids b node now :
  bucket_wf b → ∃ r b', add_node b node now = Some (r, b') ∧ bucket_wf b' ∧ max_size b' = max_size b ∧
    (∀ q, q ∈ id <$> nodes b' → q = id node ∨ q ∈ id <$> nodes b) ∧
    (∀ q, q ∈ id <$> nodes b → q ∈ id <$> nodes b') ∧
    (is_ok r = true → id node ∈ id <$> nodes b') ∧ (is_ok r = false → b' = b).
Proof.
  intros Hwf. destruct (bucket_add_node_spec b node now Hwf) as [Hno Hyes].
  destruct (decide (Exists (λ a, is_storable a = true) (naddresses node))) as [Hex|Hnex].
  2:{ exists (Err NoAddresses), b. split_and!; auto; [|done].
      apply Hno. intros a Ha. destruct (is_storable a) eqn:Hs; [|done].
      destruct Hnex. apply Exists_exists. eauto. }
  apply Exists_exists in Hex. destruct (Hyes Hex) as [Hfull Hroom].
  destruct (decide (id node ∈ id <$> nodes b ∨ length (nodes b) < max_size b)) as [Hok|Hnok].
  - destruct (Hroom Hok) as (b' & n' & Hop & Hwf' & Hnodes & Hid' & _ & _ & Hmax & _).
    exists (Ok tt), b'. rewrite Hnodes. split_and!; try done.
    + intros q. rewrite ids_filter_snoc by done. done.
    + intros q Hq. rewrite ids_filter_snoc by done. by right.
    + intros _. rewrite ids_filter_snoc by done. by left.
  - exists (Err (AtCapacity (length (nodes b)) (max_size b))), b. split_and!; auto; [|done].
    apply Hfull; [tauto|]. pose proof (bucket_size _ Hwf). lia.
Qed.

Lemma table_add_node_wf k t node now :
  table_wf k t → ∃ r t', table_add_node t node now = Some (r, t') ∧ table_wf k t'.
Proof.
  intros Hwf. unfold table_add_node. destruct (has_address_publication t (id node)).
  { destruct (touch_node_wf k t (id node) None Unverified now Hwf) as (f & t' & -> & Hwf').
    cbn [mbind option_bind]. eauto. }
  destruct (get_bucket_index t (id node)) as [i|] eqn:Hi; [|eauto].
  destruct (table_bucket_at _ _ _ _ Hwf Hi) as (b & Hb & Hbwf & Hmax). rewrite Hb. cbn [mbind option_bind].
  destruct (add_node_ids b node now Hbwf) as (r & b' & -> & Hwf' & Hmax' & Hsub & Hsup & _).
  cbn [mbind option_bind]. exists r, (set_bucket t i b'). split; [done|].
  eapply set_bucket_wf; [done..| |done].
  intros q [->|Hq]%Hsub; [done|]. by eapply bucket_ids_place.
Qed.

Lemma table_upgrade_only_wf k t p addr ty :
  table_wf k t → ∃ c t', table_merge_upgrade_only t p addr ty = Some (c, t') ∧ table_wf k t'.
Proof.
  intros Hwf. unfold table_merge_upgrade_only. destruct (has_address_publication t p); [eauto|].
  destruct (get_bucket_index t p) as [i|] eqn:Hi; [|eauto].
  destruct (table_bucket_at _ _ _ _ Hwf Hi) as (b & Hb & Hbwf & Hmax). rewrite Hb. cbn [mbind option_bind].
  destruct (bucket_upgrade_only_wf b p addr ty Hbwf) as (c & b' & -> & Hwf' & Hlive & Hmax').
  cbn [mbind option_bind]. exists c, (set_bucket t i b'). split; [done|].
  assert (Hids : id <$> nodes b' = id <$> nodes b).
  { apply (f_equal (λ l, fst <$> l.1.1)) in Hlive. simpl in Hlive. rewrite <- !list_fmap_compose in Hlive. exact Hlive. }
  eapply set_bucket_wf; [done..| |]; rewrite Hids; [|done].
  intros q Hq. by eapply bucket_ids_place.
Qed.

Lemma bucket_replace_ids b p typed mode now :
  bucket_wf b → let r := bucket_replace_with_mode b p typed mode now in
  bucket_wf r.2 ∧ max_size r.2 = max_size b ∧ (r.1 = false → r.2 = b) ∧
  (∀ q, q ∈ id <$> nodes r.2 ↔ q ∈ id <$> nodes b) ∧ (r.1 = true → p ∈ id <$> nodes b).
Proof.
  intros Hwf. cbn zeta. destruct (bucket_replace_wf b p typed mode now Hwf) as (H1 & H2 & H3 & _).
  destruct (bucket_replace_cases b p typed mode now) as [Heq|(pos & n & Hp & Hpos & Hok)].
  { rewrite Heq in *. done. }
  destruct (bucket_position_Some _ _ _ Hp) as (n0 & Hn0 & Hid). assert (n0 = n) as -> by congruence.
  assert (Hin : p ∈ id <$> nodes b).
  { subst p. apply list_elem_of_fmap_2. by eapply list_elem_of_lookup_2. }
  split_and!; [done..| |done]. rewrite (bucket_replace_unfold _ _ _ _ _ _ _ Hp Hpos Hok). intros q.
  destruct mode; cbn [refreshes_liveness snd].
  - cbn [nodes refreshed move_to_tail set_nodes].
    rewrite (delete_is_filter _ _ _ (bucket_ids _ Hwf) Hpos), Hid, ids_filter_snoc by done. naive_solver.
  - cbn [nodes set_nodes]. rewrite list_fmap_insert. rewrite list_insert_id; [done|].
    by rewrite list_lookup_fmap, Hpos.
Qed.

(** Writing a publication of a member keeps the invariant. *)
Lemma set_publication_wf k t p pub :
  table_wf k t → member t p → table_wf k (set_publications t (<[p := pub]> (address_publications t))).
Proof.
  intros [Hlen Hb Hpl Hpub] Hm. constructor; [done..|]. intros q Hq. cbn [address_publications set_publications] in Hq.
  destruct (decide (q = p)) as [->|Hne]; [done|]. rewrite lookup_insert_ne in Hq by done. by apply Hpub.
Qed.

Lemma bucket_member k t p i b : table_wf k t → buckets t !! i = Some b → p ∈ id <$> nodes b → member t p.
Proof.
  intros Hwf Hb (n & -> & Hn)%list_elem_of_fmap. exists n. split; [|done]. apply elem_of_all_nodes. eauto.
Qed.

Lemma set_bucket_replace_wf k t i b p typed mode now :
  table_wf k t → buckets t !! i = Some b →
  let r := bucket_replace_with_mode b p typed mode now in
  table_wf k (set_bucket t i r.2) ∧ (r.1 = true → member (set_bucket t i r.2) p).
Proof.
  intros Hwf Hb. cbn zeta. destruct (table_bucket _ _ Hwf _ _ Hb) as [Hbwf _].
  destruct (bucket_replace_ids b p typed mode now Hbwf) as (H1 & H2 & _ & Hids & Hin).
  set (r := bucket_replace_with_mode b p typed mode now) in *.
  assert (Hwf' : table_wf k (set_bucket t i r.2)).
  { eapply set_bucket_wf; [done..| |].
    - intros q Hq%Hids. by eapply bucket_ids_place.
    - intros q. apply Hids. }
  split; [done|]. intros Hr. eapply (bucket_member k _ _ i r.2); [done| |].
  - apply list_lookup_insert_eq. by eapply lookup_lt_Some.
  - apply Hids, Hin, Hr.
Qed.

Lemma replace_with_mode_wf k t p typed seq mode now :
  table_wf k t → ∃ r t', replace_with_mode t p typed seq mode now = Some (r, t') ∧ table_wf k t'.
Proof.
  intros Hwf. unfold replace_with_mode. destruct (seq =? 0)%N; [eauto|].
  destruct (from_option _ _ _); [eauto|]. destruct (get_bucket_index t p) as [i|] eqn:Hi; [|eauto].
  destruct (table_bucket_at _ _ _ _ Hwf Hi) as (b & Hb & _). rewrite Hb. cbn [mbind option_bind].
  destruct (set_bucket_replace_wf k t i b p typed mode now Hwf Hb) as [Hwf' Hmem].
  assert (Hmode : (match mode with AuthenticatedSelfPublish => bucket_replace b p typed now
    | GossipedRecord => bucket_replace_from_gossip b p typed now end) = bucket_replace_with_mode b p typed mode now)
    by (by destruct mode).
  rewrite Hmode. destruct (bucket_replace_with_mode b p typed mode now) as [[] b']; simpl in *; [|eauto].
  eexists _, _. split; [done|]. apply (set_publication_wf k (set_bucket t i b') p); auto.
Qed.

Lemma remove_node_ids b p q : q ∈ id <$> nodes (remove_node b p) ↔ q ∈ id <$> nodes b ∧ q ≠ p.
Proof.
  simpl. rewrite !list_elem_of_fmap. setoid_rewrite elem_of_List_filter.
  setoid_rewrite negb_true_iff. setoid_rewrite bool_decide_eq_false. naive_solver.
Qed.

Lemma table_remove_node_wf k t p :
  table_wf k t → ∃ t', table_remove_node t p = Some t' ∧ table_wf k t' ∧
    (∀ q, member t' q ↔ member t q ∧ q ≠ p) ∧ address_publications t' = delete p (address_publications t).
Proof.
  intros Hwf. unfold table_remove_node. destruct (get_bucket_index t p) as [i|] eqn:Hi.
  - destruct (table_bucket_at _ _ _ _ Hwf Hi) as (b & Hb & Hbwf & Hmax). rewrite Hb. cbn [mbind option_bind].
    eexists. split; [done|]. set (t' := set_publications _ _).
    assert (Hmem : ∀ q, member t' q ↔ member t q ∧ q ≠ p).
    { intros q. unfold member. setoid_rewrite elem_of_all_nodes. split.
      - intros (n & (j & c & Hc & Hn) & <-). cbn in Hc. apply list_lookup_insert_Some in Hc as [(<- & <- & _)|[Hne Hc]].
        + apply elem_of_List_filter in Hn as [Hn Hp%negb_true_iff%bool_decide_eq_false]. eauto 10.
        + split; [eauto 10|]. intros Heq. rewrite <- Heq in Hi. rewrite (table_place _ _ Hwf j c n Hc Hn) in Hi. congruence.
      - intros [(n & (j & c & Hc & Hn) & <-) Hne]. exists n. split; [|done].
        destruct (decide (j = i)) as [->|Hji].
        + exists i, (remove_node b p). split; [by apply list_lookup_insert_eq; eapply lookup_lt_Some|].
          apply elem_of_List_filter. assert (c = b) as -> by congruence.
          split; [done|]. by apply negb_true_iff, bool_decide_eq_false.
        + exists j, c. split; [|done]. cbn. by rewrite list_lookup_insert_ne. }
    split_and!; [|done|done]. constructor.
    + cbn. rewrite length_insert. apply (table_len _ _ Hwf).
    + intros j c Hc. cbn in Hc. apply list_lookup_insert_Some in Hc as [(<- & <- & _)|[_ Hc]].
      * split; [by apply remove_node_wf|done].
      * by apply (table_bucket _ _ Hwf _ _ Hc).
    + intros j c n Hc Hn. cbn in Hc. apply list_lookup_insert_Some in Hc as [(<- & <- & _)|[_ Hc]].
      * apply elem_of_List_filter in Hn as [Hn _]. exact (table_place _ _ Hwf i b n Hb Hn).
      * exact (table_place _ _ Hwf j c n Hc Hn).
    + intros q Hq. apply Hmem. cbn in Hq. destruct (decide (q = p)) as [->|Hne].
      * rewrite lookup_delete_eq in Hq. by destruct Hq.
      * rewrite lookup_delete_ne in Hq by done. split; [|done]. by apply (table_pubs _ _ Hwf).
  - eexists. split; [done|].
    assert (Hnm : ¬ member t p).
    { intros (j & b & Hj & _)%(member_bucket _ _ _ Hwf). congruence. }
    split_and!; [|intros q; split; [intros Hq; split; [done|by intros ->]|by intros [? _]]|done].
    destruct Hwf as [Hlen Hb Hpl Hpub]. constructor; [done..|]. intros q Hq. cbn in Hq.
    destruct (decide (q = p)) as [->|Hne]; [rewrite lookup_delete_eq in Hq; by destruct Hq|].
    rewrite lookup_delete_ne in Hq by done. by apply Hpub.
Qed.

Lemma fast_touch_max_size b p address ty now :
  max_size (touch_last_seen_if_merge_noop b p address ty now).2 = max_size b.
Proof. unfold touch_last_seen_if_merge_noop. repeat case_match; done. Qed.

Lemma try_touch_wf k t p address ty now :
  table_wf k t → ∃ r t', try_touch_last_seen t p address ty now = Some (r, t') ∧ table_wf k t'.
Proof.
  intros Hwf. unfold try_touch_last_seen. cbn zeta. destruct (get_bucket_index t p) as [i|] eqn:Hi; [|eauto].
  destruct (table_bucket_at _ _ _ _ Hwf Hi) as (b & Hb & Hbwf & Hmax). rewrite Hb. cbn [mbind option_bind].
  set (addr := if has_address_publication t p then None else address).
  destruct (fast_touch_spec b p addr ty now Hbwf) as (Hwf' & _ & _ & Hsame & Htrue).
  destruct (touch_last_seen_if_merge_noop b p addr ty now) as [r b'] eqn:Hop. simpl in *.
  exists r, (set_bucket t i b'). split; [done|].
  assert (Hids : id <$> nodes b' = id <$> nodes b ∧ max_size b' = max_size b).
  { destruct (decide (r = Some true)) as [Hr|Hr]; [|by rewrite (Hsame Hr)].
    destruct (Htrue Hr) as (pos & n & Hpos & _ & Hn & _). split.
    - rewrite Hn, list_fmap_insert, list_insert_id; [done|]. by rewrite list_lookup_fmap, Hpos.
    - pose proof (fast_touch_max_size b p addr ty now) as Hm. by rewrite Hop in Hm. }
  destruct Hids as [Hids Hm]. eapply set_bucket_wf; [done..| |]; rewrite Hids; [|done].
  intros q Hq. by eapply bucket_ids_place.
Qed.

Lemma mark_probe_wf k t i now : table_wf k t → table_wf k (mark_bucket_probe_finished t i now).2.
Proof.
  intros Hwf. unfold mark_bucket_probe_finished. destruct (buckets t !! i) as [b|] eqn:Hb; [|done].
  destruct (table_bucket _ _ Hwf _ _ Hb) as [[? ? ?] _]. cbn [snd].
  apply (set_bucket_wf k t i b); [done|done|by constructor|done| |done].
  intros q Hq. exact (bucket_ids_place k t i b q Hwf Hb Hq).
Qed.

Lemma legacy_hint_wf k t p addr now :
  table_wf k t → ∃ r t', touch_legacy_relay_hint_if_unsequenced t p addr now = Some (r, t') ∧ table_wf k t'.
Proof.
  intros Hwf. unfold touch_legacy_relay_hint_if_unsequenced. destruct (has_address_publication t p); [eauto|].
  by apply touch_node_wf.
Qed.

Context `{PL : !PostcardLib}.

Lemma store_transport_wf k t p set native mode now :
  table_wf k t → ∃ r t', store_transport_address_set t p set native mode now = Some (r, t') ∧ table_wf k t'.
Proof.
  intros Hwf. unfold store_transport_address_set. destruct (get_bucket_index t p) as [i|] eqn:Hi; [|eauto].
  destruct (_ || _); [eauto|].
  destruct (table_bucket_at _ _ _ _ Hwf Hi) as (b & Hb & _). rewrite Hb. cbn [mbind option_bind].
  destruct (set_bucket_replace_wf k t i b p native mode now Hwf Hb) as [Hwf' Hmem].
  destruct (bucket_replace_with_mode b p native mode now) as [[] b']; cbn [negb fst snd] in *; [|eauto].
  destruct (find_node b' p); [|eauto].
  eexists _, _. split; [done|]. apply (set_publication_wf k (set_bucket t i b') p); auto.
Qed.

(** One operation on the table, whatever its arguments and outcome. *)
Inductive table_step t : KademliaRoutingTable → Prop :=
  | step_add node now r t' : table_add_node t node now = Some (r, t') → table_step t t'
  | step_remove p t' : table_remove_node t p = Some t' → table_step t t'
  | step_touch p address ty now r t' : touch_node t p address ty now = Some (r, t') → table_step t t'
  | step_try_touch p address ty now r t' : try_touch_last_seen t p address ty now = Some (r, t') → table_step t t'
  | step_upgrade p addr ty r t' : table_merge_upgrade_only t p addr ty = Some (r, t') → table_step t t'
  | step_legacy p addr now r t' : touch_legacy_relay_hint_if_unsequenced t p addr now = Some (r, t') → table_step t t'
  | step_replace p typed seq mode now r t' : replace_with_mode t p typed seq mode now = Some (r, t') → table_step t t'
  | step_store p set native mode now r t' : store_transport_address_set t p set native mode now = Some (r, t') → table_step t t'
  | step_probe i now : table_step t (mark_bucket_probe_finished t i now).2.

Ltac step_case lem := match goal with H : _ = Some _ |- _ => destruct lem as (? & ? & Hop & ?); rewrite Hop in H; by simplify_eq end.

Lemma table_step_wf k t t' : table_wf k t → table_step t t' → table_wf k t'.
Proof.
  intros Hwf. destruct 1 as [node now r t' H|p t' H|p a ty now r t' H|p a ty now r t' H|p a ty r t' H|p a now r t' H
    |p typed seq mode now r t' H|p set native mode now r t' H|i now].
  - step_case (table_add_node_wf k t node now Hwf).
  - destruct (table_remove_node_wf k t p Hwf) as (? & Hop & ? & _). rewrite Hop in H. by simplify_eq.
  - step_case (touch_node_wf k t p a ty now Hwf).
  - step_case (try_touch_wf k t p a ty now Hwf).
  - step_case (table_upgrade_only_wf k t p a ty Hwf).
  - step_case (legacy_hint_wf k t p a now Hwf).
  - step_case (replace_with_mode_wf k t p typed seq mode now Hwf).
  - step_case (store_transport_wf k t p set native mode now Hwf).
  - by apply mark_probe_wf.
Qed.

Lemma table_steps_wf k t t' : table_wf k t → rtc table_step t t' → table_wf k t'.
Proof. intros Hwf Hs. induction Hs; [done|]. eauto using table_step_wf. Qed.

Lemma node_count_bound k t : table_wf k t → node_count t ≤ KADEMLIA_BUCKET_COUNT * k.
Proof.
  intros Hwf. rewrite <- (table_len _ _ Hwf). unfold node_count.
  assert (Hall : ∀ b, b ∈ buckets t → length (nodes b) ≤ k).
  { intros b [i Hb]%list_elem_of_lookup. destruct (table_bucket _ _ Hwf _ _ Hb) as [Hbwf <-].
    apply (bucket_size _ Hbwf). }
  clear Hwf. induction (buckets t) as [|b l IH]; [done|].
  assert (Hb : length (nodes b) ≤ k) by (apply Hall; by left).
  assert (Hl : sum_list (length ∘ get_nodes <$> l) ≤ length l * k)
    by (apply IH; intros c Hc; apply Hall; by right).
  cbn [fmap list_fmap sum_list length compose Nat.mul]. change (get_nodes b) with (nodes b). change (Datatypes.id (length (nodes b))) with (length (nodes b)). lia.
Qed.

Lemma all_nodes_count t : length (all_nodes t) = node_count t.
Proof.
  unfold all_nodes, node_count. induction (buckets t) as [|b l IH]; [done|].
  rewrite fmap_cons. cbn [concat]. rewrite length_app, IH. done.
Qed.

(** Every routing table the engine can reach from an empty one, by any
    sequence of operations with any arguments, is well-formed: 256 buckets of
    at most [k] well-formed nodes, every peer in the bucket of its distance,
    no peer twice, the local peer never, at most [256 * k] peers in all, and
    publication state only for peers in the table.  None of the operations
    panics on such a table. *)
Theorem table_invariant self k now t :
  rtc table_step (table_new self k now) t →
  table_wf k t ∧ NoDup (id <$> all_nodes t) ∧ ¬ member t (node_id t) ∧
  node_count t ≤ KADEMLIA_BUCKET_COUNT * k ∧
  (∀ node now, is_Some (table_add_node t node now)) ∧ (∀ p, is_Some (table_remove_node t p)) ∧
  (∀ p a ty now, is_Some (touch_node t p a ty now)) ∧ (∀ p a ty now, is_Some (try_touch_last_seen t p a ty now)) ∧
  (∀ p a ty, is_Some (table_merge_upgrade_only t p a ty)) ∧
  (∀ p typed seq mode now, is_Some (replace_with_mode t p typed seq mode now)) ∧
  (∀ p set native mode now, is_Some (store_transport_address_set t p set native mode now)).
Proof.
  intros Hs. assert (Hwf : table_wf k t) by (eapply table_steps_wf; [apply table_new_wf|done]).
  split_and!; [done|by eapply all_nodes_NoDup|by eapply self_not_member|by apply node_count_bound|..].
  - intros node n. by destruct (table_add_node_wf k t node n Hwf) as (? & ? & -> & _).
  - intros p. by destruct (table_remove_node_wf k t p Hwf) as (? & -> & _).
  - intros p a ty n. by destruct (touch_node_wf k t p a ty n Hwf) as (? & ? & -> & _).
  - intros p a ty n. by destruct (try_touch_wf k t p a ty n Hwf) as (? & ? & -> & _).
  - intros p a ty. by destruct (table_upgrade_only_wf k t p a ty Hwf) as (? & ? & -> & _).
  - intros p typed seq mode n. by destruct (replace_with_mode_wf k t p typed seq mode n Hwf) as (? & ? & -> & _).
  - intros p set native mode n. by destruct (store_transport_wf k t p set native mode n Hwf) as (? & ? & -> & _).
Qed.

Lemma find_closest_sort t key count :
  find_closest_nodes t key count = take count (sort_by_key (λ n, xor_distance (id n) key) (all_nodes t)).
Proof.
  unfold find_closest_nodes. rewrite sort_by_key_fmap, <- fmap_take, <- list_fmap_compose. apply list_fmap_id.
Qed.

(** Lookup of the closest nodes scans the whole table correctly: the
    result is sorted by strictly increasing distance to the key, has
    [min count (node_count t)] entries of the table, and every entry of the
    table that is left out is farther than all returned ones. *)
Theorem find_closest_spec k t key count :
  table_wf k t →
  let L := find_closest_nodes t key count in
  StronglySorted (λ a b, tlt (xor_distance (id a) key) (xor_distance (id b) key)) L ∧
  length L = Nat.min count (node_count t) ∧ (∀ n, n ∈ L → n ∈ all_nodes t) ∧
  (∀ n m, n ∈ all_nodes t → n ∉ L → m ∈ L → tlt (xor_distance (id m) key) (xor_distance (id n) key)).
Proof.
  intros Hwf. cbn zeta. rewrite find_closest_sort. set (f := λ n, xor_distance (id n) key).
  assert (Hnd : NoDup (f <$> all_nodes t)).
  { unfold f. pose proof (xor_distance_inj_l key).
    change (λ n, xor_distance (id n) key) with ((λ p, xor_distance p key) ∘ id). rewrite list_fmap_compose.
    apply NoDup_fmap_2; [done|]. by eapply all_nodes_NoDup. }
  pose proof (sort_strict f (all_nodes t) Hnd) as Hs.
  rewrite <- (take_drop count (sort_by_key f (all_nodes t))) in Hs. split_and!.
  - by apply StronglySorted_app_1_l in Hs.
  - by rewrite length_take, sort_length, all_nodes_count.
  - intros n Hn. apply elem_of_sublist with (l2 := sort_by_key f (all_nodes t)) in Hn; [|apply sublist_take].
    by rewrite elem_of_sort in Hn.
  - intros n m Hn Hni Hm. rewrite <- (elem_of_sort f), <- (take_drop count (sort_by_key f (all_nodes t))) in Hn.
    apply elem_of_app in Hn as [?|Hn]; [done|]. exact (StronglySorted_app_1_elem_of _ _ _ _ _ Hs Hm Hn).
Qed.

(** *** Owner publications *)

(** The version of the owner's publication the table holds for a peer: a
    signed (V2) one ranks above every V1 sequence. *)
Definition pub_version t p : bool * N :=
  match address_publications t !! p with
  | Some pub => match pub_transport pub with
                | Some set => (true, set_seq set)
                | None => (false, pub_seq pub)
                end
  | None => (false, 0%N)
  end.

(** The addresses the table holds for a peer. *)
Definition addresses_of (o : option NodeInfo) : option (list MultiAddr * list AddressType) :=
  (λ n, (naddresses n, naddress_types n)) <$> o.
Definition stored_addresses t p := addresses_of (find_node_by_id t p).

Lemma find_filter (l : list NodeInfo) p q n :
  p ≠ q → id n = p →
  List.find (λ m, bool_decide (id m = q)) (List.filter (λ m, negb (bool_decide (id m = p))) l ++ [n]) =
  List.find (λ m, bool_decide (id m = q)) l.
Proof.
  intros Hne Hn. induction l as [|m l IH]; simpl.
  - rewrite bool_decide_eq_false_2; [done|congruence].
  - destruct (decide (id m = p)) as [Hm|Hm].
    + rewrite (bool_decide_eq_true_2 (id m = p)) by done. simpl.
      rewrite (bool_decide_eq_false_2 (id m = q)) by congruence. exact IH.
    + rewrite (bool_decide_eq_false_2 (id m = p)) by done. simpl. by destruct (bool_decide (id m = q)).
Qed.

Lemma find_filter_self (l : list NodeInfo) p n :
  id n = p →
  List.find (λ m, bool_decide (id m = p)) (List.filter (λ m, negb (bool_decide (id m = p))) l ++ [n]) = Some n.
Proof.
  intros Hn. induction l as [|m l IH]; simpl.
  - by rewrite bool_decide_eq_true_2.
  - destruct (bool_decide (id m = p)) eqn:Hm; simpl; [exact IH|]. by rewrite Hm.
Qed.

Lemma find_update (l : list NodeInfo) pos n n' q :
  l !! pos = Some n → id n' = id n → q ≠ id n →
  List.find (λ m, bool_decide (id m = q)) (<[pos := n']> l) = List.find (λ m, bool_decide (id m = q)) l.
Proof.
  revert pos. induction l as [|m l IH]; intros [|pos] Hpos Hid Hne; simpl in *; try done.
  - injection Hpos as ->. rewrite !bool_decide_eq_false_2 by congruence. done.
  - destruct (bool_decide (id m = q)); [done|]. by apply IH.
Qed.

Lemma find_node_elem b n : bucket_wf b → n ∈ nodes b → find_node b (id n) = Some n.
Proof.
  intros Hwf [i Hi]%list_elem_of_lookup. unfold find_node.
  destruct (List.find _ _) as [m|] eqn:Hf.
  - apply find_Some_iff in Hf as [[j Hj]%list_elem_of_lookup Hm%bool_decide_eq_true].
    assert (i = j) as <-; [|congruence].
    eapply (NoDup_lookup (id <$> nodes b)); [apply (bucket_ids _ Hwf)| |]; rewrite list_lookup_fmap;
      [by rewrite Hi|by rewrite Hj; simpl; congruence].
  - rewrite find_None_iff in Hf. assert (Hin : n ∈ nodes b) by (by eapply list_elem_of_lookup_2).
    specialize (Hf n Hin). by apply bool_decide_eq_false in Hf.
Qed.

(** Reading a peer after one bucket was replaced. *)
Lemma stored_set_bucket k t i b b' q :
  table_wf k t → buckets t !! i = Some b →
  (get_bucket_index t q = Some i → addresses_of (find_node b' q) = addresses_of (find_node b q)) →
  stored_addresses (set_bucket t i b') q = stored_addresses t q.
Proof.
  intros Hwf Hb Hq. unfold stored_addresses, find_node_by_id. rewrite set_bucket_index.
  destruct (get_bucket_index t q) as [j|] eqn:Hj; [|done]. cbn [mbind option_bind set_bucket set_buckets buckets].
  destruct (decide (j = i)) as [->|Hne].
  - rewrite list_lookup_insert_eq by (by eapply lookup_lt_Some). rewrite Hb. cbn [mbind option_bind]. by apply Hq.
  - by rewrite list_lookup_insert_ne.
Qed.

Lemma stored_set_publications t m q : stored_addresses (set_publications t m) q = stored_addresses t q.
Proof. done. Qed.

(** A touch without an address changes no address; with one, only the
    touched peer's. *)
Lemma touch_addresses b p address ty now found b' q :
  bucket_wf b → touch_node_typed b p address ty now = Some (found, b') →
  address = None ∨ q ≠ p → addresses_of (find_node b' q) = addresses_of (find_node b q).
Proof.
  intros Hwf Hop Hq. destruct (touch_node_spec b p address ty now Hwf) as [Habs Hpres].
  destruct (decide (p ∈ id <$> nodes b)) as [Hin|Hni]; [|rewrite (Habs Hni) in Hop; by simplify_eq].
  pose proof Hin as (n & Hid & Hn)%list_elem_of_fmap.
  destruct (Hpres n Hn (eq_sym Hid)) as (b1 & n' & Hop' & _ & Hnodes & Hid' & _ & _ & Hnone & _).
  rewrite Hop in Hop'. simplify_eq. unfold find_node at 1. rewrite Hnodes.
  destruct (decide (q = id n)) as [->|Hne].
  - destruct Hq as [->|?]; [|done]. rewrite find_filter_self by done.
    rewrite (find_node_elem b n Hwf Hn). destruct (Hnone eq_refl) as [H1 H2]. unfold addresses_of. simpl. congruence.
  - by rewrite find_filter.
Qed.

Lemma add_addresses b node now r b' q :
  bucket_wf b → add_node b node now = Some (r, b') → q ≠ id node →
  addresses_of (find_node b' q) = addresses_of (find_node b q).
Proof.
  intros Hwf Hop Hq. destruct (bucket_add_node_spec b node now Hwf) as [Hno Hyes].
  destruct (decide (Exists (λ a, is_storable a = true) (naddresses node))) as [Hex|Hnex].
  2:{ rewrite Hno in Hop; [by simplify_eq|]. intros a Ha. destruct (is_storable a) eqn:Hs; [|done].
      destruct Hnex. apply Exists_exists. eauto. }
  apply Exists_exists in Hex. destruct (Hyes Hex) as [Hfull Hroom].
  destruct (decide (id node ∈ id <$> nodes b ∨ length (nodes b) < max_size b)) as [Hok|Hnok].
  - destruct (Hroom Hok) as (b1 & n' & Hop' & _ & Hnodes & Hid' & _). rewrite Hop in Hop'. simplify_eq.
    unfold find_node at 1. by rewrite Hnodes, find_filter.
  - rewrite Hfull in Hop; [by simplify_eq|tauto|]. pose proof (bucket_size _ Hwf). lia.
Qed.

Lemma upgrade_addresses b p addr ty c b' q :
  bucket_wf b → bucket_merge_upgrade_only b p addr ty = Some (c, b') → q ≠ p →
  addresses_of (find_node b' q) = addresses_of (find_node b q).
Proof.
  intros Hwf. unfold bucket_merge_upgrade_only. destruct (bucket_position b p) as [pos|] eqn:Hp; [|by intros [= _ <-]].
  destruct (bucket_position_Some _ _ _ Hp) as (n & Hpos & Hid). rewrite Hpos. cbn [mbind option_bind].
  destruct (_ && _); [by intros [= _ <-]|].
  destruct (upgrade_only_wf n addr ty (elem_node_wf _ _ _ Hwf Hpos)) as (c' & n' & -> & _ & Hid' & _).
  cbn [mbind option_bind]. intros [= _ <-] Hq. unfold find_node. cbn [nodes set_nodes].
  by rewrite (find_update _ _ n) by congruence.
Qed.

Lemma fast_touch_addresses b p address ty now q :
  bucket_wf b →
  addresses_of (find_node (touch_last_seen_if_merge_noop b p address ty now).2 q) = addresses_of (find_node b q).
Proof.
  intros Hwf. destruct (fast_touch_spec b p address ty now Hwf) as (Hwf' & _ & _ & Hsame & Htrue).
  set (r := touch_last_seen_if_merge_noop b p address ty now) in *.
  destruct (decide (r.1 = Some true)) as [Hr|Hr]; [|by rewrite (Hsame Hr)].
  destruct (Htrue Hr) as (pos & n & Hpos & Hid & Hn & _).
  destruct (decide (q = id n)) as [->|Hne].
  - rewrite (find_node_elem b n Hwf) by (by eapply list_elem_of_lookup_2).
    assert (Hin : with_last_seen n now ∈ nodes r.2).
    { rewrite Hn. apply list_elem_of_insert. by eapply lookup_lt_Some. }
    pose proof (find_node_elem r.2 _ Hwf' Hin) as Hf. cbn [id with_last_seen] in Hf. by rewrite Hf.
  - unfold find_node. rewrite Hn. by rewrite (find_update _ _ n).
Qed.

Lemma replace_addresses b p typed mode now q :
  bucket_wf b → q ≠ p →
  addresses_of (find_node (bucket_replace_with_mode b p typed mode now).2 q) = addresses_of (find_node b q).
Proof.
  intros Hwf Hq. destruct (bucket_replace_cases b p typed mode now) as [->|(pos & n & Hp & Hpos & Hok)]; [done|].
  destruct (bucket_position_Some _ _ _ Hp) as (n0 & Hn0 & Hid). assert (n0 = n) as -> by congruence.
  rewrite (bucket_replace_unfold _ _ _ _ _ _ _ Hp Hpos Hok). unfold find_node.
  destruct mode; cbn [refreshes_liveness snd nodes refreshed move_to_tail set_nodes].
  - rewrite (delete_is_filter _ _ _ (bucket_ids _ Hwf) Hpos), Hid. by rewrite find_filter by auto.
  - rewrite (find_update _ _ n); [done|done|done|congruence].
Qed.

Lemma find_filter_other (l : list NodeInfo) p q :
  p ≠ q → List.find (λ m, bool_decide (id m = q)) (List.filter (λ m, negb (bool_decide (id m = p))) l) =
  List.find (λ m, bool_decide (id m = q)) l.
Proof.
  intros Hne. induction l as [|m l IH]; simpl; [done|].
  destruct (decide (id m = p)) as [Hm|Hm].
  - rewrite (bool_decide_eq_true_2 (id m = p)) by done. simpl.
    rewrite (bool_decide_eq_false_2 (id m = q)) by congruence. exact IH.
  - rewrite (bool_decide_eq_false_2 (id m = p)) by done. simpl. by destruct (bool_decide (id m = q)).
Qed.

(** [t'] holds the same publication and the same addresses for [p]. *)
Definition same_record t t' p : Prop :=
  stored_addresses t' p = stored_addresses t p ∧ address_publications t' !! p = address_publications t !! p.

Lemma same_record_set_bucket k t i b b' p :
  table_wf k t → buckets t !! i = Some b →
  addresses_of (find_node b' p) = addresses_of (find_node b p) → same_record t (set_bucket t i b') p.
Proof. intros Hwf Hb Hf. split; [|done]. by eapply stored_set_bucket. Qed.

Lemma touch_same_record k t p' address ty now r t' p :
  table_wf k t → touch_node t p' address ty now = Some (r, t') →
  has_address_publication t p = true → same_record t t' p.
Proof.
  intros Hwf. unfold touch_node. cbn zeta. destruct (get_bucket_index t p') as [i|] eqn:Hi; [|by intros [= _ <-]].
  destruct (table_bucket_at _ _ _ _ Hwf Hi) as (b & Hb & Hbwf & _). rewrite Hb. cbn [mbind option_bind].
  destruct (touch_node_typed _ _ _ _ _) as [[f b']|] eqn:Hop; [|done]. cbn [mbind option_bind].
  intros [= _ <-] Hpub. apply (same_record_set_bucket k t i b); [done..|].
  eapply touch_addresses; [done|exact Hop|]. destruct (decide (p = p')) as [->|Hne]; [left|by right].
  by rewrite Hpub.
Qed.

Lemma add_same_record k t node now r t' p :
  table_wf k t → table_add_node t node now = Some (r, t') →
  has_address_publication t p = true → same_record t t' p.
Proof.
  intros Hwf. unfold table_add_node. destruct (has_address_publication t (id node)) eqn:Hn.
  { destruct (touch_node t (id node) None Unverified now) as [[f t1]|] eqn:Hop; [|done].
    cbn [mbind option_bind]. intros [= _ <-] Hpub. by eapply touch_same_record. }
  destruct (get_bucket_index t (id node)) as [i|] eqn:Hi; [|by intros [= _ <-]].
  destruct (table_bucket_at _ _ _ _ Hwf Hi) as (b & Hb & Hbwf & _). rewrite Hb. cbn [mbind option_bind].
  destruct (add_node b node now) as [[f b']|] eqn:Hop; [|done]. cbn [mbind option_bind]. intros [= _ <-] Hpub.
  apply (same_record_set_bucket k t i b); [done..|]. eapply add_addresses; [done|exact Hop|congruence].
Qed.

Lemma try_touch_same_record k t p' address ty now r t' p :
  table_wf k t → try_touch_last_seen t p' address ty now = Some (r, t') → same_record t t' p.
Proof.
  intros Hwf. unfold try_touch_last_seen. cbn zeta.
  destruct (get_bucket_index t p') as [i|] eqn:Hi; [|by intros [= _ <-]].
  destruct (table_bucket_at _ _ _ _ Hwf Hi) as (b & Hb & Hbwf & _). rewrite Hb. cbn [mbind option_bind].
  pose proof (fast_touch_addresses b p' (if has_address_publication t p' then None else address) ty now p Hbwf) as Ha.
  destruct (touch_last_seen_if_merge_noop _ _ _ _ _) as [r' b']. cbn [snd] in Ha. intros [= _ <-].
  by apply (same_record_set_bucket k t i b).
Qed.

Lemma upgrade_same_record k t p' addr ty r t' p :
  table_wf k t → table_merge_upgrade_only t p' addr ty = Some (r, t') →
  has_address_publication t p = true → same_record t t' p.
Proof.
  intros Hwf. unfold table_merge_upgrade_only. destruct (has_address_publication t p') eqn:Hp'; [by intros [= _ <-]|].
  destruct (get_bucket_index t p') as [i|] eqn:Hi; [|by intros [= _ <-]].
  destruct (table_bucket_at _ _ _ _ Hwf Hi) as (b & Hb & Hbwf & _). rewrite Hb. cbn [mbind option_bind].
  destruct (bucket_merge_upgrade_only b p' addr ty) as [[c b']|] eqn:Hop; [|done]. cbn [mbind option_bind].
  intros [= _ <-] Hpub. apply (same_record_set_bucket k t i b); [done..|].
  eapply upgrade_addresses; [done|exact Hop|congruence].
Qed.

Lemma probe_same_record k t i now p : table_wf k t → same_record t (mark_bucket_probe_finished t i now).2 p.
Proof.
  intros Hwf. unfold mark_bucket_probe_finished. destruct (buckets t !! i) as [b|] eqn:Hb; [|done].
  by apply (same_record_set_bucket k t i b).
Qed.

Lemma remove_same_record k t p' t' p :
  table_wf k t → table_remove_node t p' = Some t' → p' ≠ p → same_record t t' p.
Proof.
  intros Hwf. unfold table_remove_node. destruct (get_bucket_index t p') as [i|] eqn:Hi.
  - destruct (table_bucket_at _ _ _ _ Hwf Hi) as (b & Hb & _). rewrite Hb. cbn [mbind option_bind].
    intros [= <-] Hne. split; [|by apply lookup_delete_ne].
    rewrite stored_set_publications. eapply stored_set_bucket; [done..|]. intros _.
    unfold find_node. cbn [nodes remove_node set_nodes]. by rewrite find_filter_other.
  - intros [= <-] Hne. split; [done|]. by apply lookup_delete_ne.
Qed.

(** V1 publications: the step either leaves the record of every peer alone,
    or replaces that of its own peer under a greater sequence and without a
    stored V2 publication. *)
Lemma replace_record k t p' typed seq mode now r t' p :
  table_wf k t → replace_with_mode t p' typed seq mode now = Some (r, t') →
  same_record t t' p ∨ (p = p' ∧ tlt (pub_version t p) (pub_version t' p)).
Proof.
  intros Hwf. unfold replace_with_mode. destruct (N.eqb_spec seq 0) as [|Hseq]; [intros [= _ <-]; by left|].
  destruct (from_option _ _ _) eqn:Hstale; [intros [= _ <-]; by left|].
  destruct (get_bucket_index t p') as [i|] eqn:Hi; [|intros [= _ <-]; by left].
  destruct (table_bucket_at _ _ _ _ Hwf Hi) as (b & Hb & Hbwf & _). rewrite Hb. cbn [mbind option_bind].
  assert (Hmode : (match mode with AuthenticatedSelfPublish => bucket_replace b p' typed now
    | GossipedRecord => bucket_replace_from_gossip b p' typed now end) = bucket_replace_with_mode b p' typed mode now)
    by (by destruct mode).
  rewrite Hmode. clear Hmode.
  pose proof (replace_addresses b p' typed mode now p Hbwf) as Hother.
  destruct (bucket_replace_ids b p' typed mode now Hbwf) as (_ & _ & Hsame & _).
  destruct (bucket_replace_with_mode b p' typed mode now) as [[] b']; cbn [fst snd] in *.
  - intros [= _ <-]. destruct (decide (p = p')) as [->|Hne].
    + right. split; [done|]. unfold pub_version. cbn [address_publications set_publications set_bucket set_buckets].
      rewrite lookup_insert_eq. destruct (address_publications t !! p') as [pub|] eqn:Hpub; simpl in *.
      * apply orb_false_iff in Hstale as [Htr Hle]. apply bool_decide_eq_false in Htr.
        destruct (pub_transport pub); [by destruct Htr|]. rewrite pair_tlt_iff. right. split; [done|].
        simpl. rewrite N_tlt. apply N.leb_gt in Hle. exact Hle.
      * rewrite pair_tlt_iff. right. split; [done|]. simpl. rewrite N_tlt. lia.
    + left. split; [|by apply lookup_insert_ne]. rewrite stored_set_publications.
      eapply stored_set_bucket; [done..|]. auto.
  - intros [= _ <-]. left. rewrite (Hsame eq_refl). by eapply same_record_set_bucket.
Qed.

(** V2 publications. *)
Lemma store_record k t p' set native mode now r t' p :
  table_wf k t → store_transport_address_set t p' set native mode now = Some (r, t') →
  same_record t t' p ∨ (p = p' ∧ tlt (pub_version t p) (pub_version t' p)).
Proof.
  intros Hwf. unfold store_transport_address_set.
  destruct (get_bucket_index t p') as [i|] eqn:Hi; [|intros [= _ <-]; by left].
  destruct (_ || _) eqn:Hstale; [intros [= _ <-]; by left|].
  destruct (table_bucket_at _ _ _ _ Hwf Hi) as (b & Hb & Hbwf & _). rewrite Hb. cbn [mbind option_bind].
  pose proof (replace_addresses b p' native mode now p Hbwf) as Hother.
  destruct (bucket_replace_ids b p' native mode now Hbwf) as (Hwf' & _ & Hsame & Hids & Hin).
  destruct (bucket_replace_with_mode b p' native mode now) as [[] b']; cbn [fst snd negb] in *.
  2:{ intros [= _ <-]. left. rewrite (Hsame eq_refl). by eapply same_record_set_bucket. }
  assert (Hfound : ∃ node, find_node b' p' = Some node).
  { specialize (Hin eq_refl). apply Hids in Hin. apply list_elem_of_fmap in Hin as (n & -> & Hn).
    exists n. by apply find_node_elem. }
  destruct Hfound as [node ->]. intros [= _ <-]. destruct (decide (p = p')) as [->|Hne].
  - right. split; [done|]. unfold pub_version. cbn [address_publications set_publications set_bucket set_buckets].
    rewrite lookup_insert_eq. cbn [pub_transport set_seq]. rewrite pair_tlt_iff.
    apply orb_false_iff in Hstale as [_ Hle]. unfold transport_address_set in Hle.
    destruct (address_publications t !! p') as [pub|]; simpl in *; [|by left].
    destruct (pub_transport pub) as [old|]; simpl in *; [right|by left].
    split; [done|]. rewrite N_tlt. by apply N.leb_gt in Hle.
  - left. split; [|by apply lookup_insert_ne]. rewrite stored_set_publications.
    eapply stored_set_bucket; [done..|]. auto.
Qed.

(** C5: Owner publications are authoritative: once the table holds one for a
    peer, whatever operation comes next leaves the peer's addresses and its
    publication as they are, or replaces them by a strictly newer owner
    publication (a signed V2 set beats every V1 sequence), or has removed the
    peer; stale, replayed and V1-after-V2 publications, observed addresses,
    legacy relay hints and gossip cannot change the record. *)
Theorem publication_authority k t t' p :
  table_wf k t → table_step t t' → has_address_publication t p = true →
  same_record t t' p ∨ tlt (pub_version t p) (pub_version t' p) ∨ ¬ member t' p.
Proof.
  intros Hwf Hstep Hpub.
  destruct Hstep as [node now r t' H|p' t' H|p' a ty now r t' H|p' a ty now r t' H|p' a ty r t' H|p' a now r t' H
    |p' typed seq mode now r t' H|p' set native mode now r t' H|i now].
  - left. by eapply add_same_record.
  - destruct (decide (p' = p)) as [->|Hne]; [|left; by eapply remove_same_record].
    right. right. destruct (table_remove_node_wf k t p Hwf) as (t1 & Hop & _ & Hmem & _).
    rewrite Hop in H. simplify_eq. rewrite Hmem. by intros [_ ?].
  - left. by eapply touch_same_record.
  - left. by eapply try_touch_same_record.
  - left. by eapply upgrade_same_record.
  - left. revert H. unfold touch_legacy_relay_hint_if_unsequenced.
    destruct (has_address_publication t p'); [by intros [= _ <-]|]. intros H. by eapply touch_same_record.
  - destruct (replace_record k t p' typed seq mode now r t' p Hwf H) as [?|[_ ?]]; auto.
  - destruct (store_record k t p' set native mode now r t' p Hwf H) as [?|[_ ?]]; auto.
  - left. by eapply probe_same_record.
Qed.
End invariant.
