(* ===== verification/Refresh.v ===== *)
(** * Periodic maintenance of the DHT network manager

    The timers of [src/dht_network_manager.rs]: the jittered intervals, the
    choice of the buckets a refresh pass looks up, the marks it leaves, and
    the re-bootstrap of a starved routing table with its cooldown.  Times are
    nanoseconds of the monotonic clock. *)

From stdpp Require Import prelude sorting gmap.
From S2P Require Import Prelude Keys Ip Address PeerRecord SignedAddress NodeInfo KBucket RoutingTable.

Definition SECOND : Z := 10 ^ 9.
Definition SELF_LOOKUP_INTERVAL_MIN : Z := 300.
Definition SELF_LOOKUP_INTERVAL_MAX : Z := 600.
Definition BUCKET_REFRESH_INTERVAL_MIN : Z := 450.
Definition BUCKET_REFRESH_INTERVAL_MAX : Z := 750.
Definition MAX_BUCKET_REFRESH_LOOKUPS_PER_PASS : nat := 2.
Definition BUCKET_REFRESH_SELECTION_JITTER : Z := 60.
Definition AUTO_REBOOTSTRAP_THRESHOLD : nat := 3.
Definition REBOOTSTRAP_COOLDOWN : Z := 300 * SECOND.

(** ** Intervals *)

(** [u64::from_le_bytes] of the first eight random bytes. *)
Definition le_bytes (l : list Z) : Z := foldr (λ b acc, b + 256 * acc)%Z 0%Z (take 8 l).

(** In seconds; the random bytes are those of [PeerId::random()]. *)
Definition randomised_interval (min max : Z) (random : PeerId) : Z :=
  let range_secs := Z.max 0 (max - min) in
  if (range_secs =? 0)%Z then min
  else (min + le_bytes (key_bytes random) mod (range_secs + 1))%Z.

Lemma randomised_interval_within min max random :
  (min ≤ max)%Z → (min ≤ randomised_interval min max random ≤ max)%Z.
Proof.
  intros Hle. unfold randomised_interval. destruct (Z.eqb_spec (Z.max 0 (max - min)) 0); [lia|].
  pose proof (Z.mod_pos_bound (le_bytes (key_bytes random)) (Z.max 0 (max - min) + 1)). lia.
Qed.

(** ** The buckets of a refresh pass *)

Definition as_millis (d : Z) : Z := (d / 10 ^ 6)%Z.
Definition u128_max : Z := 2 ^ 128 - 1.

(** The comparison of [select_bucket_refresh_indices]: most debt first, then
    the longest without a live peer, then without a probe, then the index. *)
Abbreviation ScoreKey := (Reverse Z * Reverse Z * Reverse Z * nat)%type.
Definition score (c : BucketRefreshCandidate) (jitter : Z) : ScoreKey :=
  (mk_reverse (Z.min u128_max (as_millis (refresh_debt c) + jitter)), mk_reverse (as_millis (live_peer_age c)),
   mk_reverse (as_millis (probe_age c)), candidate_index c).

(** [jitters]: the random milliseconds drawn for the candidates in order. *)
Definition select_bucket_refresh_indices (candidates : list BucketRefreshCandidate) (jitters : list Z) : list nat :=
  let scored := zip_with score candidates jitters in
  snd <$> take MAX_BUCKET_REFRESH_LOOKUPS_PER_PASS (sort_by_key (λ k : ScoreKey, k) scored).

(** ** Re-bootstrap *)

Inductive Rebootstrap (Addr Peer : Type) :=
  | Enough
  | CoolingDown
  | NoSeeds (dialled : list Addr)
  | BootstrapFrom (dialled : list Addr) (seeds : list Peer).
Global Arguments Enough {_ _}.
Global Arguments CoolingDown {_ _}.
Global Arguments NoSeeds {_ _} _.
Global Arguments BootstrapFrom {_ _} _ _.

(** [maybe_rebootstrap]: [connected] are the connected peers, [reconnected]
    those connected after the configured peers have been dialled. *)
Definition maybe_rebootstrap {Addr Peer} (rt_size : nat) (last_rebootstrap : option Z) (now : Z) (connected : list Peer)
    (configured : list Addr) (reconnected : list Peer) : Rebootstrap Addr Peer * option Z :=
  if (AUTO_REBOOTSTRAP_THRESHOLD <=? rt_size)%nat then (Enough, last_rebootstrap)
  else if from_option (λ last, (now - last <? REBOOTSTRAP_COOLDOWN)%Z) false last_rebootstrap
  then (CoolingDown, last_rebootstrap)
  else
    (match connected, configured, reconnected with
     | _ :: _, _, _ => BootstrapFrom [] connected
     | [], [], _ => NoSeeds []
     | [], _, [] => NoSeeds configured
     | [], _, _ => BootstrapFrom configured reconnected
     end, Some now).

(** The instants at which a sequence of calls begins a re-bootstrap. *)
Fixpoint rebootstraps {Addr Peer} (last : option Z) (calls : list (nat * Z * list Peer * list Addr * list Peer)) : list Z :=
  match calls with
  | [] => []
  | (size, now, connected, configured, reconnected) :: rest =>
      let '(r, last) := maybe_rebootstrap size last now connected configured reconnected in
      match r with
      | NoSeeds _ | BootstrapFrom _ _ => now :: rebootstraps last rest
      | _ => rebootstraps last rest
      end
  end.

Definition spaced (last : option Z) (times : list Z) : Prop :=
  StronglySorted (λ a b, (a + REBOOTSTRAP_COOLDOWN ≤ b)%Z) (option_list last ++ times).

Lemma rebootstraps_spaced {Addr Peer} (calls : list (nat * Z * list Peer * list Addr * list Peer)) : ∀ last,
  spaced last (rebootstraps last calls).
Proof.
  induction calls as [|[[[[size now] connected] configured] reconnected] calls IH]; intros last; cbn [rebootstraps].
  { unfold spaced. rewrite app_nil_r. destruct last; repeat constructor. }
  unfold maybe_rebootstrap. destruct (AUTO_REBOOTSTRAP_THRESHOLD <=? size)%nat; [apply IH|].
  destruct (from_option _ _ _) eqn:Hcool; [apply IH|].
  assert (Hnow : spaced last (now :: rebootstraps (Some now) calls)).
  { specialize (IH (Some now)). unfold spaced in *. cbn [option_list app] in *. destruct last as [last|]; [|exact IH].
    cbn in Hcool. apply Z.ltb_ge in Hcool. cbn [option_list app]. constructor; [exact IH|].
    apply StronglySorted_inv in IH as [_ Hall]. constructor; [lia|].
    eapply Forall_impl; [exact Hall|]. intros b Hb. cbn in *. unfold REBOOTSTRAP_COOLDOWN, SECOND in *. lia. }
  destruct connected as [|? ?]; [|exact Hnow]. destruct configured as [|? ?]; [exact Hnow|].
  destruct reconnected; exact Hnow.
Qed.

(** ** No bucket starves *)

Section passes.
Context `{TL : TransportLib}.
Implicit Types (t : KademliaRoutingTable).

(** One pass: when it reads the buckets, the jitters it draws, and when its
    lookups end. *)
Record Pass := mk_pass { pass_now : Z; pass_jitters : list Z; pass_marks : list Z }.

Definition scored t (p : Pass) : list ScoreKey := zip_with score (bucket_refresh_candidates t (pass_now p)) (pass_jitters p).
Definition selected t (p : Pass) : list nat := select_bucket_refresh_indices (bucket_refresh_candidates t (pass_now p)) (pass_jitters p).

(** The loop of [spawn_bucket_refresh_task]: each lookup ends with the mark
    of its bucket. *)
Definition refresh_pass t (p : Pass) : KademliaRoutingTable :=
  foldl (λ t x, (mark_bucket_probe_finished t x.1 x.2).2) t (zip (selected t p) (pass_marks p)).

(** What else happens to the buckets: no probe mark goes back. *)
Definition probes_kept t t' : Prop :=
  length (buckets t') = length (buckets t) ∧
  ∀ i b b', buckets t !! i = Some b → buckets t' !! i = Some b' → (last_probe_finished b ≤ last_probe_finished b')%Z.

(** Bucket [B] has seen neither a live peer nor a probe after [T]. *)
Definition quiet (B : nat) (T : Z) t : Prop :=
  ∃ b, buckets t !! B = Some b ∧ (last_refreshed_by_live_peer b ≤ T)%Z ∧ (last_probe_finished b ≤ T)%Z.

Record pass_ok (T : Z) (p : Pass) : Prop := {
  ok_now : (T + (BUCKET_REFRESH_SELECTION_JITTER + 1) * SECOND < pass_now p)%Z;
  ok_clock : (pass_now p - T ≤ 2 ^ 64 * SECOND)%Z;
  ok_jitters : length (pass_jitters p) = KADEMLIA_BUCKET_COUNT;
  ok_jitter : Forall (λ j, 0 ≤ j ≤ BUCKET_REFRESH_SELECTION_JITTER * 1000)%Z (pass_jitters p);
  ok_marks : length (pass_marks p) = MAX_BUCKET_REFRESH_LOOKUPS_PER_PASS;
  ok_mark : Forall (λ m, pass_now p ≤ m)%Z (pass_marks p);
}.

(** Passes during which bucket [B] stays as it is, with the buckets they
    select. *)
Inductive passes (B : nat) (T : Z) : KademliaRoutingTable → list Pass → list nat → KademliaRoutingTable → Prop :=
  | passes_none t : length (buckets t) = KADEMLIA_BUCKET_COUNT → passes B T t [] [] t
  | passes_one t ps sel t1 t2 p :
      passes B T t ps sel t1 → probes_kept t1 t2 → quiet B T t2 → pass_ok T p →
      passes B T t (ps ++ [p]) (sel ++ selected t2 p) (refresh_pass t2 p).

Lemma scored_lookup t p i b :
  buckets t !! i = Some b → length (pass_jitters p) = length (buckets t) →
  ∃ j, pass_jitters p !! i = Some j ∧ scored t p !! i = Some (score
    {| candidate_index := i;
       refresh_debt := Z.min (Z.max 0 (pass_now p - last_refreshed_by_live_peer b)) (Z.max 0 (pass_now p - last_probe_finished b));
       live_peer_age := Z.max 0 (pass_now p - last_refreshed_by_live_peer b);
       probe_age := Z.max 0 (pass_now p - last_probe_finished b) |} j).
Proof.
  intros Hb Hlen. destruct (lookup_lt_is_Some_2 (pass_jitters p) i) as [j Hj].
  { rewrite Hlen. by eapply lookup_lt_Some. }
  exists j. split; [done|]. unfold scored. rewrite lookup_zip_with. unfold bucket_refresh_candidates.
  rewrite list_lookup_imap, Hb, Hj. done.
Qed.

Lemma scored_indices t p : length (pass_jitters p) = length (buckets t) → (scored t p).*2 = seq 0 (length (buckets t)).
Proof.
  intros Hlen. apply list_eq. intros i. rewrite list_lookup_fmap.
  destruct (buckets t !! i) as [b|] eqn:Hb.
  - destruct (scored_lookup t p i b Hb Hlen) as (j & _ & ->). cbn. symmetry. apply lookup_seq_lt. by eapply lookup_lt_Some.
  - apply lookup_ge_None in Hb. rewrite lookup_seq_ge by done. assert (Hno : scored t p !! i = None); [|by rewrite Hno].
    apply lookup_ge_None. unfold scored, bucket_refresh_candidates. rewrite length_zip_with, length_imap. lia.
Qed.

Lemma fst_inj_NoDup {A B} (l : list (A * B)) x y : NoDup l.*2 → x ∈ l → y ∈ l → x.2 = y.2 → x = y.
Proof.
  intros Hnd (i & Hi)%list_elem_of_lookup (j & Hj)%list_elem_of_lookup Heq.
  assert (i = j) as ->; [|congruence]. eapply (NoDup_lookup _ _ _ x.2 Hnd); rewrite list_lookup_fmap; [by rewrite Hi|].
  rewrite Hj. cbn. by rewrite Heq.
Qed.

(** Whatever is selected has at least the score of what is not. *)
Lemma selected_scores t p k k' :
  k ∈ scored t p → k' ∈ scored t p → length (pass_jitters p) = length (buckets t) →
  k.2 ∈ selected t p → (k'.2 ∉ selected t p) → tle k k'.
Proof.
  intros Hk Hk' Hlen Hin Hni. unfold selected, select_bucket_refresh_indices in *. fold (scored t p) in *.
  set (s := sort_by_key (λ k : ScoreKey, k) (scored t p)) in *.
  assert (Hnd : NoDup (s.*2)).
  { unfold s. rewrite (sort_perm (λ k : ScoreKey, k)), scored_indices by done. apply NoDup_seq. }
  assert (Hs : StronglySorted tle s) by apply (sort_sorted (λ k : ScoreKey, k) (scored t p)).
  rewrite <-(elem_of_sort (λ k : ScoreKey, k)) in Hk, Hk'. fold s in Hk, Hk'.
  apply list_elem_of_fmap in Hin as (x & Heq & Hx).
  assert (x = k) as ->.
  { apply (fst_inj_NoDup s); [done| |done|done]. by eapply elem_of_sublist, sublist_take. }
  rewrite <-(take_drop MAX_BUCKET_REFRESH_LOOKUPS_PER_PASS s) in Hk', Hs.
  apply elem_of_app in Hk' as [Hk'|Hk']; [destruct Hni; by apply list_elem_of_fmap_2|].
  by eapply StronglySorted_app_1_elem_of; [exact Hs|exact Hx|exact Hk'].
Qed.

Lemma score_debt c j c' j' : tle (score c j) (score c' j') →
  (Z.min u128_max (as_millis (refresh_debt c') + j') ≤ Z.min u128_max (as_millis (refresh_debt c) + j))%Z.
Proof.
  unfold score. intros H. apply tle_cases in H as [H|H].
  - repeat (rewrite pair_tlt_iff in H; cbn [fst snd] in H). rewrite reverse_tlt, Z_tlt in H. destruct H as [[[H|[H _]]|[H _]]|[H _]]; [lia| |..]; simplify_eq; lia.
  - injection H as -> _ _ _. done.
Qed.

Lemma selected_shape t p : length (pass_jitters p) = length (buckets t) → (MAX_BUCKET_REFRESH_LOOKUPS_PER_PASS ≤ length (buckets t))%nat →
  NoDup (selected t p) ∧ length (selected t p) = MAX_BUCKET_REFRESH_LOOKUPS_PER_PASS ∧ ∀ i, i ∈ selected t p → (i < length (buckets t))%nat.
Proof.
  intros Hlen Hmax. unfold selected, select_bucket_refresh_indices. fold (scored t p).
  set (s := sort_by_key (λ k : ScoreKey, k) (scored t p)).
  assert (Hperm : s.*2 ≡ₚ seq 0 (length (buckets t))).
  { unfold s. by rewrite (sort_perm (λ k : ScoreKey, k)), scored_indices. }
  assert (Hsub : sublist (take MAX_BUCKET_REFRESH_LOOKUPS_PER_PASS s).*2 s.*2) by (apply fmap_sublist, sublist_take).
  split_and!.
  - eapply sublist_NoDup; [|exact Hsub]. rewrite Hperm. apply NoDup_seq.
  - rewrite length_fmap, length_take. apply Permutation_length in Hperm. rewrite length_fmap, length_seq in Hperm. lia.
  - intros i Hi. eapply elem_of_sublist in Hi; [|exact Hsub]. rewrite Hperm in Hi. apply elem_of_seq in Hi. lia.
Qed.

(** Bucket [i] was probed after [L]. *)
Definition probed_after (L : Z) t (i : nat) : Prop := ∃ b, buckets t !! i = Some b ∧ (L < last_probe_finished b)%Z.

Lemma mark_probed L t i m j : (L < m)%Z → probed_after L t j ∨ (j = i ∧ (i < length (buckets t))%nat) →
  probed_after L (mark_bucket_probe_finished t i m).2 j.
Proof.
  intros Hm Hj. unfold mark_bucket_probe_finished, probed_after in *.
  destruct (buckets t !! i) as [b|] eqn:Hb; cbn [snd]; unfold set_bucket, set_buckets; cbn [buckets].
  - pose proof (lookup_lt_Some _ _ _ Hb) as Hlt. destruct (decide (i = j)) as [->|Hne].
    + rewrite list_lookup_insert_eq by done. eexists. split; [done|exact Hm].
    + rewrite list_lookup_insert_ne by done. destruct Hj as [Hj|[-> _]]; done.
  - destruct Hj as [Hj|[-> Hlt]]; [done|]. apply lookup_ge_None in Hb. lia.
Qed.

Lemma mark_length t i m : length (buckets (mark_bucket_probe_finished t i m).2) = length (buckets t).
Proof. unfold mark_bucket_probe_finished. destruct (buckets t !! i); [apply length_insert|done]. Qed.

Lemma marks_probed L (l : list (nat * Z)) : ∀ t, Forall (λ x, L < x.2)%Z l → (∀ i, i ∈ l.*1 → (i < length (buckets t))%nat) →
  let t' := foldl (λ t x, (mark_bucket_probe_finished t x.1 x.2).2) t l in
  length (buckets t') = length (buckets t) ∧ ∀ j, probed_after L t j ∨ j ∈ l.*1 → probed_after L t' j.
Proof.
  induction l as [|[i m] l IH]; intros t Hall Hlt.
  { split; [done|]. intros j [?|Hj]; [done|by apply elem_of_nil in Hj]. }
  apply Forall_cons in Hall as [Hm Hall]. cbn [fst snd] in Hm.
  destruct (IH (mark_bucket_probe_finished t i m).2 Hall) as [Hlen Hafter].
  { intros j Hj. rewrite mark_length. apply Hlt. by right. }
  cbn [foldl fst snd]. split; [by rewrite Hlen, mark_length|]. intros j Hj. apply Hafter. cbn [fmap list_fmap fst] in Hj, Hlt.
  destruct Hj as [Hj|[->|Hj]%elem_of_cons]; [..|by right]; left; apply mark_probed; try done; [by left|].
  right. split; [done|]. apply Hlt. by left.
Qed.

Lemma probes_kept_after L t t' i : probes_kept t t' → probed_after L t i → probed_after L t' i.
Proof.
  intros [Hlen Hkept] (b & Hb & HL). destruct (lookup_lt_is_Some_2 (buckets t') i) as [b' Hb'].
  { rewrite Hlen. by eapply lookup_lt_Some. }
  exists b'. split; [done|]. specialize (Hkept _ _ _ Hb Hb'). lia.
Qed.

Abbreviation settled T := (T + (BUCKET_REFRESH_SELECTION_JITTER + 1) * SECOND)%Z.

(** A bucket probed recently is not selected before a quiet one. *)
Lemma quiet_first B T t p i : length (buckets t) = KADEMLIA_BUCKET_COUNT → pass_ok T p → quiet B T t → (B ∉ selected t p) →
  probed_after (settled T) t i → (i ∉ selected t p).
Proof.
  intros Hlen Hok (b & Hb & Hlive & Hprobe) HB (bi & Hbi & Hi) Hin.
  assert (Hj : length (pass_jitters p) = length (buckets t)) by (by rewrite Hlen, (ok_jitters _ _ Hok)).
  destruct (scored_lookup t p B b Hb Hj) as (jB & HjB & HkB). destruct (scored_lookup t p i bi Hbi Hj) as (ji & Hji & Hki).
  pose proof (selected_scores t p _ _ (list_elem_of_lookup_2 _ _ _ Hki) (list_elem_of_lookup_2 _ _ _ HkB) Hj Hin HB) as Hle.
  apply score_debt in Hle. cbn [refresh_debt] in Hle.
  pose proof (Forall_lookup_1 _ _ _ _ (ok_jitter _ _ Hok) HjB) as HB'. pose proof (Forall_lookup_1 _ _ _ _ (ok_jitter _ _ Hok) Hji) as Hi'.
  pose proof (ok_now _ _ Hok) as Hnow. pose proof (ok_clock _ _ Hok) as Hclock. cbn beta in HB', Hi'.
  unfold as_millis, u128_max, SECOND, BUCKET_REFRESH_SELECTION_JITTER in *.
  set (dB := Z.min _ _) in Hle at 2. set (di := Z.min (Z.max 0 (_ - last_refreshed_by_live_peer bi)) _) in Hle.
  assert (HdB : (pass_now p - T ≤ dB)%Z) by lia. assert (Hdi : (di < pass_now p - T - 61 * 10 ^ 9)%Z) by lia.
  pose proof (Z.div_le_mono (pass_now p - T) dB (10 ^ 6) ltac:(lia) HdB).
  pose proof (Z.div_le_mono di (pass_now p - T + (-61000) * 10 ^ 6) (10 ^ 6) ltac:(lia) ltac:(lia)) as Hd.
  rewrite Z.div_add in Hd by lia. pose proof (Z.div_le_mono (pass_now p - T) (2 ^ 64 * 10 ^ 9) (10 ^ 6) ltac:(lia) ltac:(lia)) as Hc.
  change (2 ^ 64 * 10 ^ 9 / 10 ^ 6)%Z with (2 ^ 64 * 10 ^ 3)%Z in Hc. lia.
Qed.

Record passes_inv (T : Z) (n : nat) (sel : list nat) t : Prop := {
  inv_buckets : length (buckets t) = KADEMLIA_BUCKET_COUNT;
  inv_distinct : NoDup sel;
  inv_selected : length sel = n * MAX_BUCKET_REFRESH_LOOKUPS_PER_PASS;
  inv_index : ∀ i, i ∈ sel → (i < KADEMLIA_BUCKET_COUNT)%nat;
  inv_probed : ∀ i, i ∈ sel → probed_after (settled T) t i;
}.

Lemma passes_invariant B T t ps sel t' : passes B T t ps sel t' → (B ∉ sel) → passes_inv T (length ps) sel t'.
Proof.
  induction 1 as [t Hlen|t ps sel t1 t2 p Hps IH Hkept Hquiet Hok]; intros HB.
  { constructor; [done|constructor|done|..]; intros i Hi; by apply elem_of_nil in Hi. }
  apply not_elem_of_app in HB as [HB HBp]. destruct (IH HB) as [Hlen Hnd Hn Hidx Hafter].
  assert (Hlen2 : length (buckets t2) = KADEMLIA_BUCKET_COUNT) by (destruct Hkept as [-> _]; done).
  destruct (selected_shape t2 p) as (Hnd' & Hn' & Hidx').
  { by rewrite Hlen2, (ok_jitters _ _ Hok). }
  { rewrite Hlen2. vm_compute. lia. }
  assert (Hzip : (zip (selected t2 p) (pass_marks p)).*1 = selected t2 p) by (apply fst_zip; rewrite Hn', (ok_marks _ _ Hok); done).
  destruct (marks_probed (settled T) (zip (selected t2 p) (pass_marks p)) t2) as [Hlen' Hafter'].
  { apply Forall_forall. intros [i m] Hm%elem_of_zip_r. cbn [snd]. pose proof (ok_mark _ _ Hok) as HM. rewrite Forall_forall in HM.
    specialize (HM _ Hm). pose proof (ok_now _ _ Hok). lia. }
  { by rewrite Hzip. }
  rewrite Hzip in Hafter'. fold (refresh_pass t2 p) in Hlen', Hafter'.
  assert (H2 : ∀ i, i ∈ sel → probed_after (settled T) t2 i) by eauto using probes_kept_after.
  constructor.
  - by rewrite Hlen', Hlen2.
  - apply NoDup_app. split_and!; [done| |done]. intros i Hi. by eapply quiet_first; eauto.
  - rewrite !length_app, Hn, Hn'. cbn [length]. lia.
  - intros i [Hi|Hi]%elem_of_app; [by apply Hidx|]. rewrite <-Hlen2. by apply Hidx'.
  - intros i [Hi|Hi]%elem_of_app; apply Hafter'; [left; by apply H2|by right].
Qed.

(** C22: [spawn_bucket_refresh_task] starves no bucket: however the jitters
    fall and whatever is probed or heard of elsewhere, a bucket that sees
    neither a live peer nor a probe is selected within 128 refresh passes,
    counted from the first one that starts more than the jitter after it
    went quiet. *)
Theorem refresh_fair B T t ps sel t' :
  passes B T t ps sel t' → (B < KADEMLIA_BUCKET_COUNT)%nat → (KADEMLIA_BUCKET_COUNT ≤ MAX_BUCKET_REFRESH_LOOKUPS_PER_PASS * length ps)%nat →
  B ∈ sel.
Proof.
  intros Hps HB Hn. destruct (decide (B ∈ sel)) as [Hin|Hni]; [done|exfalso].
  destruct (passes_invariant B T t ps sel t' Hps Hni) as [_ Hnd Hlen Hidx _].
  assert (Hsub : B :: sel ⊆+ seq 0 KADEMLIA_BUCKET_COUNT).
  { apply NoDup_submseteq; [by constructor|]. intros i Hi. apply elem_of_seq. apply elem_of_cons in Hi as [->|Hi]; [lia|].
    specialize (Hidx _ Hi). lia. }
  apply submseteq_length in Hsub. rewrite length_seq in Hsub. cbn [length] in Hsub. lia.
Qed.
End passes.
