(* ===== verification/Diversity.v ===== *)
(** * IP diversity of a set of nodes

    The subnet masks and [DhtCoreEngine::find_ip_swap_in_scope] of
    [src/dht/core_engine.rs]: whether a candidate may join a scope (a bucket
    or the close group) without exceeding the limits on nodes that share an
    IP address or a subnet, and whom it may push out instead.  Trust scores
    are IEEE doubles ([spec_float]), compared as Rust compares them. *)

From Stdlib Require Import SpecFloat.
From stdpp Require Import prelude gmap.
From S2P Require Import Prelude Keys Ip Address PeerRecord NodeInfo RoutingTable.

(** ** The engine's state *)

Record DhtCoreEngine `{TransportLib} := mk_engine {
  engine_node_id : PeerId;
  routing_table : KademliaRoutingTable;
  k_value : nat;
  ip_diversity_config : IPDiversityConfig;
  allow_loopback : bool;
  swap_threshold : spec_float;
  live_threshold : Z;
  shutdown : bool;
}.

(** ** Octets of a number *)

(** The [n] octets of a number, most significant first: [Ipv4Addr::from(u32)]
    and [Ipv6Addr::from(u128)]. *)
Fixpoint be_split (n : nat) (z : Z) : list Z :=
  match n with
  | O => []
  | S m => (Z.shiftr z (8 * Z.of_nat m) mod 256)%Z :: be_split m z
  end.

Lemma be_split_wf n z : Is_true (wf_bytes n (be_split n z)).
Proof.
  apply wf_bytes_spec. split; induction n as [|n IH]; simpl; [done|by rewrite IH|constructor|].
  constructor; [|done]. apply Z.mod_pos_bound. lia.
Qed.

Definition octets_from (n : nat) (z : Z) : Octets n := mk_octets (be_split n z) (be_split_wf n z).
Definition octets_value {n} (a : Octets n) : Z := be_combine (octets a).

(** ** Masks *)

(** An unsigned [w]-bit all-ones value shifted left; the shift amount is
    taken modulo the width. *)
Definition shl_max (w amount : Z) : Z :=
  Z.land (Z.shiftl (2 ^ w - 1) (amount mod w)) (2 ^ w - 1).

Definition mask_ipv4 (addr : Ipv4Addr) (prefix_len : Z) : Ipv4Addr :=
  let bits := octets_value addr in
  let mask := if (32 <=? prefix_len)%Z then (2 ^ 32 - 1)%Z else shl_max 32 (32 - prefix_len) in
  octets_from 4 (Z.land bits mask).

Definition mask_ipv6 (addr : Ipv6Addr) (prefix_len : Z) : Ipv6Addr :=
  let bits := octets_value addr in
  let mask := if (128 <=? prefix_len)%Z then (2 ^ 128 - 1)%Z else shl_max 128 (128 - prefix_len) in
  octets_from 16 (Z.land bits mask).

(** ** Swaps in a scope *)

(** The double nearest to 0.7. *)
Definition TRUST_PROTECTION_THRESHOLD : spec_float := S754_finite false 6305039478318694 (-53).

(** [elapsed() > threshold] of an instant. *)
Definition elapsed_exceeds (now seen threshold : Z) : bool := (threshold <? Z.max 0 (now - seen))%Z.

Inductive Tier := ExactIp | Slash24 | Slash48.
Inductive ScopeName := BucketScope | CloseGroupScope.

Inductive DiversityExceeded := mk_exceeded (tier : Tier) (limit : N) (scope : ScopeName).

#[export] Instance Tier_eq_dec : EqDecision Tier.
Proof. solve_decision. Defined.
#[export] Instance ScopeName_eq_dec : EqDecision ScopeName.
Proof. solve_decision. Defined.
#[export] Instance DiversityExceeded_eq_dec : EqDecision DiversityExceeded.
Proof. solve_decision. Defined.

(** Count and farthest node of a tier. *)
Record TierTally := mk_tally {
  tally_count : N;
  tally_farthest : option (PeerId * Key * Instant);
}.

Definition tally_zero : TierTally := {| tally_count := 0; tally_farthest := None |}.

Section scope.
Context `{TL : TransportLib}.
Implicit Types (n : NodeInfo) (e : DhtCoreEngine) (now : Instant).

(** One tier's update for a node that matches it. *)
Definition tally_node (matched : bool) n (dist : Key) (t : TierTally) : TierTally :=
  if matched then
    {| tally_count := tally_count t + 1;
       tally_farthest :=
         if from_option (λ f, ltb f.1.2 dist) true (tally_farthest t)
         then Some (id n, dist, last_seen n) else tally_farthest t |}
  else t.

(** Whether an address of a node is the candidate's, or in its subnet;
    loopback addresses and those of the other family never are. *)
Definition same_ip (candidate existing : IpAddr) : bool :=
  negb (ip_is_loopback existing) &&
  match candidate, existing with
  | V4 v4, V4 e => bool_decide (e = v4)
  | V6 v6, V6 e => bool_decide (e = v6)
  | _, _ => false
  end.

Definition same_subnet (candidate existing : IpAddr) : bool :=
  negb (ip_is_loopback existing) &&
  match candidate, existing with
  | V4 v4, V4 e => bool_decide (mask_ipv4 e 24 = mask_ipv4 v4 24)
  | V6 v6, V6 e => bool_decide (mask_ipv6 e 48 = mask_ipv6 v6 48)
  | _, _ => false
  end.

Definition node_matches (f : IpAddr → bool) n : bool := existsb f (elements (all_ips n)).

Definition scan_node (self candidate_id : PeerId) (candidate_ip : IpAddr)
    (acc : TierTally * TierTally) n : TierTally * TierTally :=
  if bool_decide (id n = candidate_id) then acc
  else if bool_decide (all_ips n = ∅) then acc
  else
    let dist := xor_distance self (id n) in
    (tally_node (node_matches (same_ip candidate_ip) n) n dist acc.1,
     tally_node (node_matches (same_subnet candidate_ip) n) n dist acc.2).

Definition limit_ip e : N := default IP_EXACT_LIMIT (max_per_ip (ip_diversity_config e)).
Definition limit_subnet e : N :=
  default (ip_subnet_limit (N.of_nat (k_value e))) (max_per_subnet (ip_diversity_config e)).

Definition subnet_tier (candidate_ip : IpAddr) : Tier :=
  match candidate_ip with V4 _ => Slash24 | V6 _ => Slash48 end.

Context (trust_score : PeerId → spec_float).

Definition swappable e now (candidate_distance : Key) (f : PeerId * Key * Instant) : bool :=
  let '(far_id, far_dist, far_last_seen) := f in
  ltb candidate_distance far_dist
  && (SFltb (trust_score far_id) TRUST_PROTECTION_THRESHOLD
      || elapsed_exceeds now far_last_seen (live_threshold e)).

(** The tiers, narrowest first; the first one at its limit decides. *)
Fixpoint check_tiers e now (candidate_distance : Key) (scope : ScopeName)
    (tiers : list (TierTally * N * Tier)) : result (option PeerId) DiversityExceeded :=
  match tiers with
  | [] => Ok None
  | (t, limit, name) :: rest =>
      if (limit <=? tally_count t)%N then
        match tally_farthest t with
        | Some f => if swappable e now candidate_distance f then Ok (Some f.1.1)
                    else Err (mk_exceeded name limit scope)
        | None => Err (mk_exceeded name limit scope)
        end
      else check_tiers e now candidate_distance scope rest
  end.

Definition find_ip_swap_in_scope e now (scope_nodes : list NodeInfo) (candidate_id : PeerId)
    (candidate_ip : IpAddr) (candidate_distance : Key) (scope : ScopeName)
    : result (option PeerId) DiversityExceeded :=
  if ip_is_loopback candidate_ip then Ok None
  else
    let '(by_ip, by_subnet) :=
      foldl (scan_node (engine_node_id e) candidate_id candidate_ip) (tally_zero, tally_zero) scope_nodes in
    check_tiers e now candidate_distance scope
      [(by_ip, limit_ip e, ExactIp); (by_subnet, limit_subnet e, subnet_tier candidate_ip)].
End scope.

(** ** Masks keep the leading octets *)

Lemma be_split_combine l :
  Forall (λ b, 0 ≤ b < 256)%Z l → be_split (length l) (be_combine l) = l.
Proof.
  intros Hok. assert (Hhi : ∀ z, (0 ≤ z)%Z →
    be_split (length l) (z * 2 ^ (8 * Z.of_nat (length l)) + be_combine l) = l).
  { induction Hok as [|x l Hx Hl IH]; intros z Hz; [done|]. cbn [length be_split be_combine].
    pose proof (be_combine_bound l Hl) as Hb. set (w := (8 * Z.of_nat (length l))%Z) in *.
    replace (8 * Z.of_nat (S (length l)))%Z with (8 + w)%Z by lia.
    assert (Hw : (0 ≤ w)%Z) by lia. rewrite (Z.pow_add_r 2 8 w) by lia.
    replace (z * (2 ^ 8 * 2 ^ w) + (x * 2 ^ w + be_combine l))%Z
      with ((z * 256 + x) * 2 ^ w + be_combine l)%Z by (change (2 ^ 8)%Z with 256%Z; ring).
    f_equal; [|apply IH; nia]. rewrite Z.shiftr_div_pow2 by done.
    rewrite Z.div_add_l by lia. rewrite (Z.div_small (be_combine l)) by done.
    rewrite Z.add_0_r, Z.add_comm, Z.mod_add by lia. by apply Z.mod_small. }
  specialize (Hhi 0%Z). rewrite Z.mul_0_l, Z.add_0_l in Hhi. by apply Hhi.
Qed.

Lemma octets_from_value {n} (a : Octets n) : octets_from n (octets_value a) = a.
Proof.
  apply octets_eq. cbn [octets octets_from]. unfold octets_value.
  pose proof (be_split_combine (octets a) (octets_ok a)) as H. by rewrite octets_length in H.
Qed.

Lemma be_combine_app l k :
  be_combine (l ++ k) = (be_combine l * 2 ^ (8 * Z.of_nat (length k)) + be_combine k)%Z.
Proof.
  induction l as [|x l IH]; cbn [app be_combine]; [lia|]. rewrite IH, length_app, Nat2Z.inj_add.
  rewrite Z.mul_add_distr_l, Z.pow_add_r by lia. ring.
Qed.

Lemma be_combine_zeros n : be_combine (replicate n 0%Z) = 0%Z.
Proof. induction n as [|n IH]; cbn [replicate be_combine]; [done|]. rewrite IH. lia. Qed.

(** Masking keeps the leading octets and zeroes the others. *)
Lemma land_high x s w :
  (0 ≤ s ≤ w)%Z → (0 ≤ x < 2 ^ w)%Z →
  Z.land x (Z.land (Z.shiftl (2 ^ w - 1) s) (2 ^ w - 1)) = (x / 2 ^ s * 2 ^ s)%Z.
Proof.
  intros Hs Hx. rewrite <- Z.shiftl_mul_pow2, <- Z.shiftr_div_pow2 by lia.
  replace (2 ^ w - 1)%Z with (Z.ones w) by (rewrite Z.ones_equiv; lia).
  apply Z.bits_inj'. intros i Hi. rewrite !Z.land_spec, !Z.shiftl_spec by lia.
  rewrite (Z.testbit_ones_nonneg w i) by lia.
  destruct (Z.ltb_spec i s).
  - rewrite !(Z.testbit_neg_r _ (i - s)) by lia. by rewrite andb_false_r.
  - rewrite Z.shiftr_spec, (Z.testbit_ones_nonneg w (i - s)) by lia. replace (i - s + s)%Z with i by lia.
    destruct (Z.ltb_spec i w); [rewrite (proj2 (Z.ltb_lt (i - s) w)) by lia; by rewrite !andb_true_r|].
    rewrite !andb_false_r. symmetry. rewrite <- (Z.mod_small x (2 ^ w)) by done.
    apply Z.mod_pow2_bits_high. lia.
Qed.

Lemma octets_masked {n} (a : Octets n) (m : nat) :
  m ≤ n → (0 < n) →
  octets (octets_from n (Z.land (octets_value a)
    (shl_max (8 * Z.of_nat n) (8 * Z.of_nat n - 8 * Z.of_nat m)))) =
  if decide (m = 0) then octets a else take m (octets a) ++ replicate (n - m) 0%Z.
Proof.
  intros Hm Hn. pose proof (octets_ok a) as Hok. pose proof (octets_length a) as Hlen.
  pose proof (be_combine_bound _ Hok) as Hb. rewrite Hlen in Hb. unfold octets_value, shl_max.
  destruct (decide (m = 0)) as [->|Hnz].
  { replace (8 * Z.of_nat n - 8 * Z.of_nat 0)%Z with (8 * Z.of_nat n)%Z by lia. rewrite Z.mod_same by lia.
    rewrite land_high by lia. rewrite Z.pow_0_r, Z.div_1_r, Z.mul_1_r.
    exact (f_equal octets (octets_from_value a)). }
  rewrite Z.mod_small by lia. rewrite land_high by lia. cbn [octets octets_from].
  rewrite <- (take_drop m (octets a)), be_combine_app, length_drop, Hlen.
  replace (8 * Z.of_nat (n - m))%Z with (8 * Z.of_nat n - 8 * Z.of_nat m)%Z by lia.
  assert (Hd : Forall (λ b, 0 ≤ b < 256)%Z (drop m (octets a))) by (by apply Forall_drop).
  pose proof (be_combine_bound _ Hd) as Hbd. rewrite length_drop, Hlen in Hbd.
  replace (8 * Z.of_nat (n - m))%Z with (8 * Z.of_nat n - 8 * Z.of_nat m)%Z in Hbd by lia.
  rewrite Z.div_add_l by lia. rewrite Z.div_small by done. rewrite Z.add_0_r.
  set (l := take m (octets a) ++ replicate (n - m) 0%Z).
  assert (Hl : length l = n) by (unfold l; rewrite length_app, length_take, length_replicate; lia).
  assert (Hc : be_combine l = (be_combine (take m (octets a)) * 2 ^ (8 * Z.of_nat n - 8 * Z.of_nat m))%Z).
  { unfold l. rewrite be_combine_app, be_combine_zeros, length_replicate.
    replace (8 * Z.of_nat (n - m))%Z with (8 * Z.of_nat n - 8 * Z.of_nat m)%Z by lia. lia. }
  rewrite take_app_le by (rewrite length_take; lia). rewrite take_take, Nat.min_id, <- Hc.
  transitivity (be_split (length l) (be_combine l)); [by rewrite Hl|]. apply be_split_combine.
  apply Forall_app. split; [by apply Forall_take|]. apply Forall_replicate. lia.
Qed.

Lemma octets_masked_eq {n} (a b : Octets n) (m : nat) :
  0 < m ≤ n →
  let mask x := octets_from n (Z.land (octets_value x) (shl_max (8 * Z.of_nat n) (8 * Z.of_nat n - 8 * Z.of_nat m))) in
  mask a = mask b ↔ take m (octets a) = take m (octets b).
Proof.
  intros Hm. cbn zeta.
  assert (Hmask : ∀ x : Octets n, octets (octets_from n (Z.land (octets_value x)
    (shl_max (8 * Z.of_nat n) (8 * Z.of_nat n - 8 * Z.of_nat m)))) = take m (octets x) ++ replicate (n - m) 0%Z).
  { intros x. rewrite octets_masked by lia. by rewrite decide_False by lia. }
  split; intros H.
  - apply (f_equal octets) in H. rewrite !Hmask in H. apply app_inj_1 in H as [H _]; [done|].
    by rewrite !length_take, !octets_length.
  - apply octets_eq. by rewrite !Hmask, H.
Qed.

Lemma mask_ipv4_24 a b : mask_ipv4 a 24 = mask_ipv4 b 24 ↔ take 3 (octets a) = take 3 (octets b).
Proof. exact (octets_masked_eq a b 3 ltac:(lia)). Qed.

Lemma mask_ipv6_48 a b : mask_ipv6 a 48 = mask_ipv6 b 48 ↔ take 6 (octets a) = take 6 (octets b).
Proof. exact (octets_masked_eq a b 6 ltac:(lia)). Qed.

(** ** The scan of a scope *)

Section scan.
Context `{TL : TransportLib}.
Implicit Types (n : NodeInfo) (e : DhtCoreEngine) (now : Instant) (l : list NodeInfo).

(** The nodes of a scope, other than the candidate, with an address that
    satisfies [f]. *)
Definition matching (candidate_id : PeerId) (f : IpAddr → bool) l : list NodeInfo :=
  List.filter (λ n, negb (bool_decide (id n = candidate_id)) && node_matches f n) l.

Lemma node_matches_spec f n : node_matches f n = true ↔ ∃ i, i ∈ all_ips n ∧ f i = true.
Proof.
  unfold node_matches. rewrite existsb_exists. setoid_rewrite <- list_elem_of_In.
  by setoid_rewrite elem_of_elements.
Qed.

Lemma elem_of_matching p f l n :
  n ∈ matching p f l ↔ n ∈ l ∧ id n ≠ p ∧ node_matches f n = true.
Proof.
  unfold matching. rewrite elem_of_List_filter, andb_true_iff, negb_true_iff, bool_decide_eq_false. tauto.
Qed.

(** A tally describes a list: its length and its farthest node. *)
Definition tally_of (self : PeerId) (t : TierTally) (ms : list NodeInfo) : Prop :=
  tally_count t = N.of_nat (length ms) ∧
  match tally_farthest t with
  | None => ms = []
  | Some (p, d, s) => ∃ n, n ∈ ms ∧ id n = p ∧ last_seen n = s ∧ d = xor_distance self (id n) ∧
      ∀ m, m ∈ ms → tle (xor_distance self (id m)) d
  end.

Lemma tally_node_spec self t ms n :
  tally_of self t ms → tally_of self (tally_node true n (xor_distance self (id n)) t) (ms ++ [n]).
Proof.
  intros [Hc Hf]. unfold tally_node. split; cbn [tally_count tally_farthest].
  { rewrite Hc, length_app. simpl. lia. }
  destruct (tally_farthest t) as [[[p d] s]|]; cbn [from_option fst snd].
  - destruct Hf as (m & Hm & Hid & Hs & Hd & Hmax). destruct (ltb d (xor_distance self (id n))) eqn:Hlt.
    + apply ltb_tlt in Hlt. exists n. split_and!; [set_solver|done..|].
      intros m' [Hm'|Hm']%elem_of_app; [|apply list_elem_of_singleton in Hm' as ->; by apply tle_refl].
      eapply tle_trans; [by apply Hmax|]. by apply tlt_tle.
    + apply ltb_false in Hlt. exists m. split_and!; [set_solver|done..|].
      intros m' [Hm'|Hm']%elem_of_app; [by apply Hmax|]. by apply list_elem_of_singleton in Hm' as ->.
  - subst ms. exists n. split_and!; [set_solver|done..|].
    intros m ->%list_elem_of_singleton. apply tle_refl.
Qed.

Lemma node_no_ips f n : all_ips n = ∅ → node_matches f n = false.
Proof.
  intros He. destruct (node_matches f n) eqn:Hm; [|done].
  apply node_matches_spec in Hm as (i & Hi & _). rewrite He in Hi. set_solver.
Qed.

Lemma matching_snoc p f l n :
  matching p f (l ++ [n]) = matching p f l ++ (if negb (bool_decide (id n = p)) && node_matches f n then [n] else []).
Proof. unfold matching. rewrite List.filter_app. done. Qed.

Lemma scan_spec self p cand l :
  let r := foldl (scan_node self p cand) (tally_zero, tally_zero) l in
  tally_of self r.1 (matching p (same_ip cand) l) ∧ tally_of self r.2 (matching p (same_subnet cand) l).
Proof.
  cbn zeta. induction l as [|n l IH] using rev_ind; [done|].
  rewrite foldl_app. cbn [foldl]. rewrite !matching_snoc.
  set (acc := foldl (scan_node self p cand) (tally_zero, tally_zero) l) in *.
  unfold scan_node. destruct (bool_decide (id n = p)) eqn:Hid; cbn [negb andb]; [by rewrite !app_nil_r|].
  clear Hid. case_bool_decide as He.
  { rewrite !(node_no_ips _ _ He), !app_nil_r. done. }
  cbn [fst snd]. destruct IH as [IH1 IH2]. split.
  - destruct (node_matches (same_ip cand) n); [by apply tally_node_spec|]. by rewrite app_nil_r.
  - destruct (node_matches (same_subnet cand) n); [by apply tally_node_spec|]. by rewrite app_nil_r.
Qed.

Lemma same_ip_subnet cand i : same_ip cand i = true → same_subnet cand i = true.
Proof.
  unfold same_ip, same_subnet. rewrite !andb_true_iff. intros [? H]. split; [done|].
  destruct cand, i; try done; apply bool_decide_eq_true in H as ->; by apply bool_decide_eq_true.
Qed.

(** What [same_ip] and [same_subnet] decide, for a candidate that is not a
    loopback address. *)
Lemma same_ip_spec cand i : ip_is_loopback cand = false → same_ip cand i = true ↔ i = cand.
Proof.
  intros Hl. unfold same_ip. rewrite andb_true_iff, negb_true_iff. split.
  - intros [_ H]. destruct cand, i; try done; apply bool_decide_eq_true in H as ->; done.
  - intros ->. split; [done|]. destruct cand; by apply bool_decide_eq_true.
Qed.

Lemma same_subnet_spec cand i :
  same_subnet cand i = true ↔ ip_is_loopback i = false ∧
  match cand, i with
  | V4 a, V4 b => take 3 (octets b) = take 3 (octets a)
  | V6 a, V6 b => take 6 (octets b) = take 6 (octets a)
  | _, _ => False
  end.
Proof.
  unfold same_subnet. rewrite andb_true_iff, negb_true_iff. apply and_iff_compat_l.
  destruct cand, i; try done; rewrite bool_decide_eq_true; [apply mask_ipv4_24|apply mask_ipv6_48].
Qed.

(** The node a scope gives up for a candidate. *)
Record swap_target (trust : PeerId → spec_float) e now (dist : Key) (ms : list NodeInfo) n : Prop := {
  target_in : n ∈ ms;
  target_farthest m : m ∈ ms → tle (xor_distance (engine_node_id e) (id m)) (xor_distance (engine_node_id e) (id n));
  target_farther : tlt dist (xor_distance (engine_node_id e) (id n));
  target_unprotected : SFltb (trust (id n)) TRUST_PROTECTION_THRESHOLD = true ∨
                       elapsed_exceeds now (last_seen n) (live_threshold e) = true;
}.

Lemma tier_decision trust e now dist scope t limit name rest ms :
  tally_of (engine_node_id e) t ms →
  let r := check_tiers trust e now dist scope ((t, limit, name) :: rest) in
  (N.of_nat (length ms) < limit ∧ r = check_tiers trust e now dist scope rest)%N ∨
  ((limit ≤ N.of_nat (length ms))%N ∧
   ((∃ n, r = Ok (Some (id n)) ∧ swap_target trust e now dist ms n) ∨
    (r = Err (mk_exceeded name limit scope) ∧
     (NoDup (id <$> ms) → ∀ n, ¬ swap_target trust e now dist ms n)))).
Proof.
  intros [Hc Hf]. cbn zeta. cbn [check_tiers]. rewrite Hc.
  destruct (N.leb_spec limit (N.of_nat (length ms))) as [Hle|Hlt]; [right|by left]. split; [done|].
  destruct (tally_farthest t) as [[[p d] s]|].
  2:{ subst ms. right. split; [done|]. intros _ n [Hn _ _ _]. by apply not_elem_of_nil in Hn. }
  destruct Hf as (n & Hn & <- & <- & -> & Hmax).
  destruct (swappable trust e now dist _) eqn:Hs; unfold swappable in Hs.
  - apply andb_true_iff in Hs as [Hd%ltb_tlt Hun%orb_true_iff]. left. by exists n.
  - right. split; [done|]. intros Hnd m [Hm Hfar Hd Hprot].
    assert (id m = id n) as Hid.
    { apply (xor_distance_inj_l (engine_node_id e)). rewrite !(xor_distance_comm _ (engine_node_id e)).
      assert (AntiSymm (=) (tle (A := Key))) as Has by apply _.
      apply Has; [by apply Hmax|by apply Hfar]. }
    apply list_elem_of_lookup in Hm as [i Hi], Hn as [j Hj].
    assert (i = j) as <-.
    { eapply (NoDup_lookup (id <$> ms)); [done|..]; rewrite list_lookup_fmap; [by rewrite Hi|].
      rewrite Hj. simpl. by rewrite Hid. }
    assert (m = n) as -> by congruence. apply andb_false_iff in Hs as [Hs|Hs].
    + apply ltb_false in Hs. by apply tlt_not_tle in Hd.
    + apply orb_false_iff in Hs as [H1 H2]. destruct Hprot; congruence.
Qed.

Lemma find_ip_swap_cases trust e now l p cand dist scope :
  ip_is_loopback cand = false → NoDup (id <$> l) →
  let r := find_ip_swap_in_scope trust e now l p cand dist scope in
  let ips := matching p (same_ip cand) l in
  let subnets := matching p (same_subnet cand) l in
  (r = Ok None ↔ N.of_nat (length ips) < limit_ip e ∧ N.of_nat (length subnets) < limit_subnet e)%N ∧
  (∀ q, r = Ok (Some q) → ∃ n, id n = q ∧
     (((limit_ip e ≤ N.of_nat (length ips))%N ∧ swap_target trust e now dist ips n) ∨
      ((N.of_nat (length ips) < limit_ip e)%N ∧ (limit_subnet e ≤ N.of_nat (length subnets))%N ∧
       swap_target trust e now dist subnets n))) ∧
  (∀ err, r = Err err →
     ((limit_ip e ≤ N.of_nat (length ips))%N ∧ ∀ n, ¬ swap_target trust e now dist ips n) ∨
     ((N.of_nat (length ips) < limit_ip e)%N ∧ (limit_subnet e ≤ N.of_nat (length subnets))%N ∧
      ∀ n, ¬ swap_target trust e now dist subnets n)).
Proof.
  intros Hl Hnd. cbn zeta. unfold find_ip_swap_in_scope. rewrite Hl.
  destruct (scan_spec (engine_node_id e) p cand l) as [H1 H2].
  destruct (foldl _ _ l) as [t1 t2]. cbn [fst snd] in H1, H2.
  assert (Hm : ∀ f, NoDup (id <$> matching p f l)).
  { intros f. eapply sublist_NoDup; [exact Hnd|]. apply fmap_sublist, List_filter_sublist. }
  destruct (tier_decision trust e now dist scope t1 (limit_ip e) ExactIp
    [(t2, limit_subnet e, subnet_tier cand)] _ H1) as [[Hlt1 ->]|[Hle1 [(n & -> & Hn)|[-> Hno]]]].
  2:{ split_and!; [split; [done|lia]| |done]. intros q Hq. exists n. split; [congruence|]. auto. }
  2:{ split_and!; [split; [done|lia]|done|]. intros err _. left. auto. }
  destruct (tier_decision trust e now dist scope t2 (limit_subnet e) (subnet_tier cand) [] _ H2)
    as [[Hlt2 ->]|[Hle2 [(n & -> & Hn)|[-> Hno]]]].
  - split_and!; done.
  - split_and!; [split; [done|lia]| |done]. intros q Hq. exists n. split; [congruence|]. auto.
  - split_and!; [split; [done|lia]|done|]. intros err _. right. auto.
Qed.

(** Joining a scope: a candidate that is not a loopback address is let in
    without a swap exactly when fewer nodes of the scope than the limit share
    its address and fewer than the limit share its subnet (the first three
    octets of an IPv4, the first six of an IPv6 address); otherwise the node
    it may replace is the farthest of those at the narrowest full tier, and
    only if it is strictly farther from the local peer than the candidate and
    is not a trusted live peer; in every other case the candidate is refused. *)
Theorem find_ip_swap_spec trust e now l p cand dist scope :
  ip_is_loopback cand = false → NoDup (id <$> l) →
  let r := find_ip_swap_in_scope trust e now l p cand dist scope in
  let ips := matching p (same_ip cand) l in
  let subnets := matching p (same_subnet cand) l in
  (r = Ok None ↔ N.of_nat (length ips) < limit_ip e ∧ N.of_nat (length subnets) < limit_subnet e)%N ∧
  (∀ q, r = Ok (Some q) → ∃ n, id n = q ∧
     (((limit_ip e ≤ N.of_nat (length ips))%N ∧ swap_target trust e now dist ips n) ∨
      ((N.of_nat (length ips) < limit_ip e)%N ∧ (limit_subnet e ≤ N.of_nat (length subnets))%N ∧
       swap_target trust e now dist subnets n))) ∧
  (∀ err, r = Err err →
     ((limit_ip e ≤ N.of_nat (length ips))%N ∧ ∀ n, ¬ swap_target trust e now dist ips n) ∨
     ((N.of_nat (length ips) < limit_ip e)%N ∧ (limit_subnet e ≤ N.of_nat (length subnets))%N ∧
      ∀ n, ¬ swap_target trust e now dist subnets n)).
Proof. intros Hl Hnd. by apply find_ip_swap_cases. Qed.
End scan.
