(* ===== verification/Canary.v ===== *)
(** * Relay canaries

    [src/reachability/canary.rs]: before a node publishes the address a relay
    allocated to it, witnesses drawn from its routing table cold-dial the
    address and report.  The file models what a witness checks before it
    dials, how witnesses are drawn, and how a round's reports become a
    verdict.  [blake3], the shuffle of the candidates, the outcome of each
    probe and the order in which the probes complete are parameters. *)

From stdpp Require Import prelude gmap strings.
From S2P Require Import Prelude Keys Ip Address PeerRecord Diversity RateLimit.

(** ** Constants and rate limits *)

Definition RELAY_CANARY_WITNESS_TARGET : nat := 3.
Definition RELAY_CANARY_ADMISSION_SUCCESSES : nat := RELAY_CANARY_WITNESS_TARGET.
Definition RELAY_CANARY_ADMISSION_FAILURES : nat := 1.
Definition RELAY_CANARY_MAINTENANCE_SUCCESSES : nat := 2.
Definition RELAY_CANARY_MAINTENANCE_FAILURES : nat := 2.

(** One hour, in nanoseconds. *)
Definition RELAY_CANARY_RATE_WINDOW : Z := 60 * 60 * 10 ^ 9.
Definition RELAY_CANARY_ELIGIBILITY_EPOCH_SECS : Z := 60 * 60.
Definition RELAY_CANARY_ELIGIBILITY_MASK : Z := 192.

Definition canary_rate_config (per_window : N) : EngineConfig :=
  mk_engine_config RELAY_CANARY_RATE_WINDOW per_window per_window.
Definition relay_canary_rate_limit_config : EngineConfig := canary_rate_config 4.
Definition relay_canary_source_network_rate_limit_config : EngineConfig := canary_rate_config 20.
Definition relay_canary_global_rate_limit_config : EngineConfig := canary_rate_config 60.
Definition relay_canary_destination_rate_limit_config : EngineConfig := canary_rate_config 4.
Definition relay_canary_destination_ip_rate_limit_config : EngineConfig := canary_rate_config 20.

(** ** Messages *)

Record RelayCanaryRequest := mk_canary_request {
  target_peer_id : PeerId;
  relay_addr : SocketAddr;
  eligibility_epoch : N;
}.

Inductive RelayCanaryProbeResult := ProbeSuccess | ProbeFailure | WitnessRateLimited.

Record RelayCanaryResponse := mk_canary_response { probe_result : RelayCanaryProbeResult }.

Inductive RelayCanaryRequestOutcome :=
  | Response (r : RelayCanaryResponse)
  | NoProtocolResponse.

Inductive RelayCanaryProbeDisposition := Success | AssumedSuccess | Failure | Ineligible.

#[export] Instance RelayCanaryProbeDisposition_eq_dec : EqDecision RelayCanaryProbeDisposition.
Proof. solve_decision. Defined.

Definition disposition_of (r : RelayCanaryProbeResult) : RelayCanaryProbeDisposition :=
  match r with
  | ProbeSuccess => Success
  | WitnessRateLimited => Ineligible
  | ProbeFailure => Failure
  end.

Definition probe_summary (r : RelayCanaryProbeResult) : string :=
  match r with
  | ProbeSuccess => "success"
  | ProbeFailure => "probe failed"
  | WitnessRateLimited => "witness rate-limited source"
  end.

Inductive RelayCanaryRequestRejection :=
  | SourceMismatch (source_peer_id target_peer_id : PeerId)
  | InvalidClock
  | StaleEligibilityEpoch (requested current : N)
  | IneligibleWitness (witness_peer_id : PeerId)
  | UnspecifiedPort
  | UnspecifiedIp
  | LocalScopeIp (ip : IpAddr)
  | MulticastIp (ip : IpAddr)
  | BroadcastIp (ip : Ipv4Addr).

#[export] Instance RelayCanaryRequestRejection_eq_dec : EqDecision RelayCanaryRequestRejection.
Proof. solve_decision. Defined.

(** ** What a witness checks *)

Open Scope result_scope.

Definition validate_relay_canary_address (relay_addr : SocketAddr) : result unit RelayCanaryRequestRejection :=
  if (socket_port relay_addr =? 0)%N then Err UnspecifiedPort
  else
    let ip := socket_ip relay_addr in
    if ip_is_unspecified ip then Err UnspecifiedIp
    else if is_lan_ip ip then Err (LocalScopeIp ip)
    else if ip_is_multicast ip then Err (MulticastIp ip)
    else match ip with
         | V4 ipv4 => if v4_is_broadcast ipv4 then Err (BroadcastIp ipv4) else Ok tt
         | V6 _ => Ok tt
         end.

(** [now] is in nanoseconds from the Unix epoch, negative before it. *)
Definition relay_canary_eligibility_epoch (now : Z) : result N RelayCanaryRequestRejection :=
  if (now <? 0)%Z then Err InvalidClock
  else Ok (Z.to_N (now / 10 ^ 9 / RELAY_CANARY_ELIGIBILITY_EPOCH_SECS)).

Definition relay_canary_source_network (ip : IpAddr) : IpAddr :=
  match canonicalize_ip ip with
  | V4 ipv4 => V4 ipv4
  | V6 ipv6 => V6 (octets_from 16 (Z.land (octets_value ipv6) (shl_max 128 64)))
  end.

(** [u64::to_le_bytes]. *)
Definition u64_to_le_bytes (n : N) : list Z := reverse (u64_to_be_bytes n).

Definition CANARY_DOMAIN : list Z :=
  (Z.of_N <$> string_bytes "saorsa-relay-canary-witness-v1") ++ [0%Z].

Section canary.
Context `{TL : TransportLib} (blake3 : list Z → Octets 32).
Implicit Types (source_peer_id witness_peer_id target relayer : PeerId) (epoch : N) (now : Z).

Definition relay_canary_witness_is_eligible (target witness_peer_id : PeerId) (epoch : N) : bool :=
  let digest := blake3 (CANARY_DOMAIN ++ key_bytes target ++ key_bytes witness_peer_id ++ u64_to_le_bytes epoch) in
  (Z.land (octet digest 0) RELAY_CANARY_ELIGIBILITY_MASK =? 0)%Z.

Definition validate_relay_canary_request source_peer_id witness_peer_id (request : RelayCanaryRequest) now
    : result unit RelayCanaryRequestRejection :=
  if negb (bool_decide (target_peer_id request = source_peer_id))
  then Err (SourceMismatch source_peer_id (target_peer_id request))
  else
    let? _ := validate_relay_canary_address (relay_addr request) in
    let? current := relay_canary_eligibility_epoch now in
    if negb (eligibility_epoch request =? current)%N &&
       negb (bool_decide (Some (eligibility_epoch request) =
                          if (current =? 0)%N then None else Some (current - 1)%N))
    then Err (StaleEligibilityEpoch (eligibility_epoch request) current)
    else if negb (relay_canary_witness_is_eligible (target_peer_id request) witness_peer_id
                    (eligibility_epoch request))
    then Err (IneligibleWitness witness_peer_id)
    else Ok tt.

(** [None] is the dial's timeout, [Err] its failure. *)
Definition answer_relay_canary_request {E} (dial : option (result PeerId E)) (request : RelayCanaryRequest)
    : RelayCanaryResponse :=
  mk_canary_response
    match dial with
    | Some (Ok authenticated_peer) =>
        if bool_decide (authenticated_peer = target_peer_id request) then ProbeSuccess else ProbeFailure
    | Some (Err _) => ProbeFailure
    | None => ProbeFailure
    end.

(** ** Choosing the witnesses *)

Record RelayCanaryWitness := mk_witness {
  witness_id : PeerId;
  witness_addresses : list (MultiAddr * AddressType);
}.

#[global] Instance RelayCanaryWitness_eq_dec : EqDecision RelayCanaryWitness.
Proof. solve_decision. Defined.

Definition first_dialable_ip (typed : list (MultiAddr * AddressType)) : option IpAddr :=
  head (omap (λ p, socket_ip <$> dialable_socket_addr p.1) typed).

(** The loop over the shuffled candidates. *)
Fixpoint select_loop (close_group : gset PeerId) target relayer (relay_ip : IpAddr) epoch (count : nat)
    (witnesses : list RelayCanaryWitness) (seen_ips : gset IpAddr) (candidates : list DHTNode)
    : list RelayCanaryWitness :=
  match candidates with
  | [] => witnesses
  | node :: rest =>
      let continue := select_loop close_group target relayer relay_ip epoch count witnesses seen_ips rest in
      if bool_decide (node_peer_id node = target) || bool_decide (node_peer_id node = relayer)
         || bool_decide (node_peer_id node ∈ close_group)
         || negb (relay_canary_witness_is_eligible target (node_peer_id node) epoch)
      then continue
      else
        let typed := typed_addresses node in
        if negb (existsb (λ p, bool_decide (is_Some (dialable_socket_addr p.1))) typed) then continue
        else match first_dialable_ip typed with
             | None => continue
             | Some ip0 =>
                 let ip := canonicalize_ip ip0 in
                 if bool_decide (ip = relay_ip) || bool_decide (ip ∈ seen_ips) then continue
                 else
                   let witnesses' := witnesses ++ [mk_witness (node_peer_id node) typed] in
                   if Nat.eqb (length witnesses') count then witnesses'
                   else select_loop close_group target relayer relay_ip epoch count
                          witnesses' ({[ip]} ∪ seen_ips) rest
             end
  end.

Definition select_relay_canary_witnesses (shuffled : list DHTNode) (close_group : gset PeerId)
    target relayer (relay_ip : IpAddr) epoch (count : nat) : list RelayCanaryWitness :=
  select_loop close_group target relayer (canonicalize_ip relay_ip) epoch count [] ∅ shuffled.

End canary.

(** ** Aggregating a round *)

Inductive RelayCanaryVerdict :=
  | Verified (successes attempts : nat)
  | Rejected (successes attempts : nat)
  | Inconclusive (successes failures unavailable : nat).

#[export] Instance RelayCanaryVerdict_eq_dec : EqDecision RelayCanaryVerdict.
Proof. solve_decision. Defined.

(** [Admission] is the gate before publication, [Maintenance] the periodic
    check of an established relay. *)
Inductive RelayCanaryPolicy := AdmissionPolicy | MaintenancePolicy.

Definition required_successes (p : RelayCanaryPolicy) : nat :=
  match p with
  | AdmissionPolicy => RELAY_CANARY_ADMISSION_SUCCESSES
  | MaintenancePolicy => RELAY_CANARY_MAINTENANCE_SUCCESSES
  end.

Definition required_failures (p : RelayCanaryPolicy) : nat :=
  match p with
  | AdmissionPolicy => RELAY_CANARY_ADMISSION_FAILURES
  | MaintenancePolicy => RELAY_CANARY_MAINTENANCE_FAILURES
  end.

Record RelayCanarySummary := mk_summary {
  total : nat;
  responses : nat;
  eligible_attempts : nat;
  successes : nat;
  assumed_successes : nat;
  ineligible : nat;
}.

Definition summary_new (total : nat) : RelayCanarySummary := mk_summary total 0 0 0 0 0.

Definition record_disposition (s : RelayCanarySummary) (d : RelayCanaryProbeDisposition) : RelayCanarySummary :=
  let s := mk_summary (total s) (responses s + 1) (eligible_attempts s) (successes s)
             (assumed_successes s) (ineligible s) in
  match d with
  | Success =>
      mk_summary (total s) (responses s) (eligible_attempts s + 1) (successes s + 1)
        (assumed_successes s) (ineligible s)
  | AssumedSuccess =>
      mk_summary (total s) (responses s) (eligible_attempts s + 1) (successes s + 1)
        (assumed_successes s + 1) (ineligible s)
  | Failure =>
      mk_summary (total s) (responses s) (eligible_attempts s + 1) (successes s)
        (assumed_successes s) (ineligible s)
  | Ineligible =>
      mk_summary (total s) (responses s) (eligible_attempts s) (successes s)
        (assumed_successes s) (ineligible s + 1)
  end.

Definition summary_verdict (s : RelayCanarySummary) (p : RelayCanaryPolicy) : RelayCanaryVerdict :=
  let failures := eligible_attempts s - successes s in
  if required_successes p <=? successes s then Verified (successes s) (eligible_attempts s)
  else if required_failures p <=? failures then Rejected (successes s) (eligible_attempts s)
  else Inconclusive (successes s) failures (ineligible s + (RELAY_CANARY_WITNESS_TARGET - total s)).

Record RelayCanaryProbeReport := mk_report {
  report_witness : PeerId;
  report_disposition : RelayCanaryProbeDisposition;
  report_detail : string;
}.

Definition relay_canary_probe_report {E} (error_to_string : E → string) (witness : PeerId)
    (outcome : result RelayCanaryRequestOutcome E) : RelayCanaryProbeReport :=
  match outcome with
  | Ok (Response r) => mk_report witness (disposition_of (probe_result r)) (probe_summary (probe_result r))
  | Ok NoProtocolResponse =>
      mk_report witness AssumedSuccess "no canary-protocol response; treating selected witness as legacy"
  | Err error => mk_report witness Ineligible (error_to_string error)
  end.

(** ** A round *)

(** What the round takes from its environment: the local view of the DHT, the
    clock, the random permutation of the candidates, the outcome of each
    request and the order in which the probes complete. *)
Record RoundEnv `{TransportLib} (E : Type) := mk_round_env {
  self_id : PeerId;
  closest_to_self : list DHTNode;
  routing_table_peers : list DHTNode;
  clock : Z;
  shuffle : list DHTNode → list DHTNode;
  request_outcome : RelayCanaryWitness → RelayCanaryRequest → result RelayCanaryRequestOutcome E;
  completion : list RelayCanaryProbeReport → list RelayCanaryProbeReport;
  error_to_string : E → string;
}.
Arguments self_id {_ _} _.
Arguments closest_to_self {_ _} _.
Arguments routing_table_peers {_ _} _.
Arguments clock {_ _} _.
Arguments shuffle {_ _} _.
Arguments request_outcome {_ _} _.
Arguments completion {_ _} _.
Arguments error_to_string {_ _} _.

Section round.
Context `{TL : TransportLib} (blake3 : list Z → Octets 32) {E : Type}.
Implicit Types (env : RoundEnv E) (relayer : PeerId) (policy : RelayCanaryPolicy).

Definition request_relay_canary env (witness : RelayCanaryWitness) (request : RelayCanaryRequest)
    : RelayCanaryProbeReport :=
  relay_canary_probe_report (error_to_string env) (witness_id witness) (request_outcome env witness request).

Definition round_witnesses env relayer (addr : SocketAddr) (epoch : N) : list RelayCanaryWitness :=
  let close_group_ids := list_to_set (node_peer_id <$> closest_to_self env) in
  select_relay_canary_witnesses blake3 (shuffle env (routing_table_peers env)) close_group_ids
    (self_id env) relayer (socket_ip addr) epoch RELAY_CANARY_WITNESS_TARGET.

Definition verify_relay_with_canaries env relayer (addr : SocketAddr) policy : RelayCanaryVerdict :=
  match validate_relay_canary_address addr with
  | Err _ => Rejected 0 0
  | Ok _ =>
      match relay_canary_eligibility_epoch (clock env) with
      | Err _ => Inconclusive 0 0 RELAY_CANARY_WITNESS_TARGET
      | Ok epoch =>
          let witnesses := round_witnesses env relayer addr epoch in
          if length witnesses <? required_successes policy
          then Inconclusive 0 0 (RELAY_CANARY_WITNESS_TARGET - length witnesses)
          else
            let request := mk_canary_request (self_id env) addr epoch in
            let reports := completion env ((λ w, request_relay_canary env w request) <$> witnesses) in
            let summary := foldl record_disposition (summary_new (length witnesses))
                             (report_disposition <$> reports) in
            summary_verdict summary policy
      end
  end.

End round.

(** ** Properties *)

Definition witness_ip `{TransportLib} (w : RelayCanaryWitness) : option IpAddr :=
  canonicalize_ip <$> first_dialable_ip (witness_addresses w).

Section selection.
Context `{TL : TransportLib} (blake3 : list Z → Octets 32).
Context (close_group : gset PeerId) (target relayer : PeerId) (relay_ip : IpAddr) (epoch : N).
Implicit Types (node : DHTNode) (w : RelayCanaryWitness) (ws : list RelayCanaryWitness).

Definition witness_of node : RelayCanaryWitness := mk_witness (node_peer_id node) (typed_addresses node).

(** A peer that may witness: neither end of the relay, outside the close
    group, assigned to the target this epoch, with a dialable address that is
    not on the relay's own host. *)
Record may_witness node : Prop := {
  not_self : node_peer_id node ≠ target;
  not_relayer : node_peer_id node ≠ relayer;
  not_close : node_peer_id node ∉ close_group;
  assigned : relay_canary_witness_is_eligible blake3 target (node_peer_id node) epoch = true;
  off_host : ∃ ip, witness_ip (witness_of node) = Some ip ∧ ip ≠ relay_ip;
}.

Lemma first_dialable_None typed :
  existsb (λ p : MultiAddr * AddressType, bool_decide (is_Some (dialable_socket_addr p.1))) typed = false →
  first_dialable_ip typed = None.
Proof.
  unfold first_dialable_ip. induction typed as [|p typed IH]; [done|]. cbn [existsb].
  intros [Hp Ht]%orb_false_iff. apply bool_decide_eq_false, eq_None_not_Some in Hp.
  cbn. rewrite Hp. by apply IH.
Qed.

(** The guards of the loop, as one choice: skip the node or take it. *)
Lemma select_step count ws seen node rest :
  (∀ ip, ip ∈ seen ↔ Some ip ∈ witness_ip <$> ws) →
  let go := select_loop blake3 close_group target relayer relay_ip epoch count in
  ((¬ may_witness node ∨ witness_ip (witness_of node) ∈ witness_ip <$> ws) ∧
   go ws seen (node :: rest) = go ws seen rest) ∨
  (may_witness node ∧ ∃ ip, witness_ip (witness_of node) = Some ip ∧ (ip ∉ seen) ∧
   go ws seen (node :: rest) =
     (if Nat.eqb (length (ws ++ [witness_of node])) count then ws ++ [witness_of node]
      else go (ws ++ [witness_of node]) ({[ip]} ∪ seen) rest)).
Proof.
  intros Hseen. cbn zeta. cbn [select_loop].
  destruct (bool_decide_reflect (node_peer_id node = target)); [left; split; [left; by intros []|done]|].
  destruct (bool_decide_reflect (node_peer_id node = relayer)); [left; split; [left; by intros []|done]|].
  destruct (bool_decide_reflect (node_peer_id node ∈ close_group)); [left; split; [left; by intros []|done]|].
  destruct (relay_canary_witness_is_eligible _ _ _ _) eqn:He;
    [|left; split; [left; intros []; congruence|done]].
  cbn [orb negb]. destruct (existsb _ _) eqn:Hx; cbn [negb].
  2: { apply first_dialable_None in Hx. left. split; [|done]. left. intros [_ _ _ _ (ip & Hip & _)].
       unfold witness_ip in Hip. cbn in Hip. by rewrite Hx in Hip. }
  destruct (first_dialable_ip (typed_addresses node)) as [ip0|] eqn:Hip.
  2: { left. split; [|done]. left. intros [_ _ _ _ (ip & Hip' & _)].
       unfold witness_ip in Hip'. cbn in Hip'. by rewrite Hip in Hip'. }
  assert (Hw : witness_ip (witness_of node) = Some (canonicalize_ip ip0)).
  { unfold witness_ip. cbn. by rewrite Hip. }
  destruct (bool_decide_reflect (canonicalize_ip ip0 = relay_ip)) as [Heq|Hne].
  { left. split; [|done]. left. intros [_ _ _ _ (ip & Hip' & Hn)]. congruence. }
  destruct (bool_decide_reflect (canonicalize_ip ip0 ∈ seen)) as [Hin|Hnin]; cbn [orb].
  { left. split; [|done]. right. rewrite Hw. by apply Hseen. }
  right. split; [split; eauto|]. exists (canonicalize_ip ip0). done.
Qed.

(** What a selection from [candidates] that extends [ws] ends in. *)
Record selected count (candidates : list DHTNode) ws (out : list RelayCanaryWitness) : Prop := {
  sel_length : length out ≤ count;
  sel_sound w : w ∈ out → w ∈ ws ∨ ∃ node, node ∈ candidates ∧ may_witness node ∧ w = witness_of node;
  sel_distinct : NoDup (witness_ip <$> out);
  sel_maximal : length out < count → ∀ node, node ∈ candidates → may_witness node →
                  witness_ip (witness_of node) ∈ witness_ip <$> out;
  sel_grows w : w ∈ ws → w ∈ out;
}.

Lemma select_loop_spec count candidates : ∀ ws seen,
  length ws < count → NoDup (witness_ip <$> ws) →
  (∀ ip, ip ∈ seen ↔ Some ip ∈ witness_ip <$> ws) →
  selected count candidates ws
    (select_loop blake3 close_group target relayer relay_ip epoch count ws seen candidates).
Proof.
  induction candidates as [|node rest IH]; intros ws seen Hlen Hnd Hseen.
  { split; [simpl; lia|naive_solver|done| |done]. by intros _ node ?%elem_of_nil. }
  destruct (select_step count ws seen node rest Hseen) as [[Hskip ->]|(Hmay & ip & Hip & Hnin & ->)].
  - destruct (IH ws seen Hlen Hnd Hseen) as [H1 H2 H3 H4 H5]. split; [done| |done| |done].
    + intros w [?|(n & Hn & Hm & ->)]%H2; [by left|right]. exists n. set_solver.
    + intros Hlt n [->|Hn]%elem_of_cons Hm; [|by apply H4].
      destruct Hskip as [?|Hw]; [done|]. apply list_elem_of_fmap in Hw as (w & Hw & Hin).
      rewrite Hw. apply list_elem_of_fmap_2. by apply H5.
  - assert (Hnd' : NoDup (witness_ip <$> ws ++ [witness_of node])).
    { rewrite fmap_app. apply NoDup_app. split; [done|]. split; [|apply NoDup_singleton].
      intros x Hx Hx'. cbn in Hx'. apply list_elem_of_singleton in Hx' as ->.
      rewrite Hip in Hx. by apply Hnin, Hseen. }
    destruct (Nat.eqb_spec (length (ws ++ [witness_of node])) count) as [Hc|Hc].
    + split; [lia| |done|lia|set_solver]. intros w [Hw|Hw]%elem_of_app; [by left|right].
      apply list_elem_of_singleton in Hw as ->. exists node. set_solver.
    + destruct (IH (ws ++ [witness_of node]) ({[ip]} ∪ seen)) as [H1 H2 H3 H4 H5].
      * rewrite length_app in *. simpl in *. lia.
      * done.
      * intros ip'. rewrite fmap_app, elem_of_app, elem_of_union, Hseen. cbn.
        rewrite Hip, list_elem_of_singleton, elem_of_singleton. naive_solver.
      * split; [done| |done| |set_solver].
        -- intros w [[Hw|Hw]%elem_of_app|(n & Hn & Hm & ->)]%H2; [by left| |].
           ++ apply list_elem_of_singleton in Hw as ->. right. exists node. set_solver.
           ++ right. exists n. set_solver.
        -- intros Hlt n [->|Hn]%elem_of_cons Hm; [|by apply H4].
           apply list_elem_of_fmap_2, H5. set_solver.
Qed.
End selection.

Lemma selection_selected `{TL : TransportLib} blake3 shuffled close_group target relayer relay_ip epoch count :
  0 < count →
  selected blake3 close_group target relayer (canonicalize_ip relay_ip) epoch count shuffled []
    (select_relay_canary_witnesses blake3 shuffled close_group target relayer relay_ip epoch count).
Proof. intros Hc. apply select_loop_spec; [done|constructor|set_solver]. Qed.

(** the draw of witnesses.  At most [count] peers are drawn, each of them
    entitled to witness (not the node itself, not the relayer, not in the
    close group, assigned by the epoch's hash, dialable, not on the relay's
    host); no two share a canonical IP address; and when fewer than [count]
    are drawn, every entitled peer of the routing table already shares the
    address of one that was. *)
Theorem canary_selection_spec `{TL : TransportLib} blake3 shuffled close_group target relayer relay_ip epoch count :
  0 < count →
  let out := select_relay_canary_witnesses blake3 shuffled close_group target relayer relay_ip epoch count in
  let entitled := may_witness blake3 close_group target relayer (canonicalize_ip relay_ip) epoch in
  length out ≤ count ∧
  (∀ w, w ∈ out → ∃ node, node ∈ shuffled ∧ entitled node ∧ w = witness_of node) ∧
  NoDup (witness_ip <$> out) ∧
  (length out < count → ∀ node, node ∈ shuffled → entitled node →
     witness_ip (witness_of node) ∈ witness_ip <$> out).
Proof.
  intros Hc. destruct (selection_selected blake3 shuffled close_group target relayer relay_ip epoch count Hc)
    as [H1 H2 H3 H4 _]. split; [done|]. split; [|done]. intros w [?%elem_of_nil|?]%H2; [done|done].
Qed.

Definition positive_disposition (d : RelayCanaryProbeDisposition) : bool :=
  match d with Success | AssumedSuccess => true | _ => false end.
Definition positives (ds : list RelayCanaryProbeDisposition) : nat := length (List.filter positive_disposition ds).
Definition failures (ds : list RelayCanaryProbeDisposition) : nat :=
  length (List.filter (λ d, match d with Failure => true | _ => false end) ds).

Lemma record_all ds : ∀ s,
  let s' := foldl record_disposition s ds in
  successes s' = successes s + positives ds ∧
  eligible_attempts s' = eligible_attempts s + positives ds + failures ds.
Proof.
  unfold positives, failures. induction ds as [|d ds IH]; intros s; cbn; [lia|].
  destruct (IH (record_disposition s d)) as [-> ->]. destruct d; cbn; lia.
Qed.

Lemma filter_length_perm {A} (p : A → bool) l l' :
  l ≡ₚ l' → length (List.filter p l) = length (List.filter p l').
Proof. induction 1; simpl; repeat case_match; simpl; congruence. Qed.

Lemma positives_failures ds : positives ds + failures ds ≤ length ds.
Proof. unfold positives, failures. induction ds as [|d ds IH]; [done|]. destruct d; cbn; lia. Qed.

Lemma positives_all ds : positives ds = length ds ↔ Forall (λ d, positive_disposition d = true) ds.
Proof.
  unfold positives. induction ds as [|d ds IH]; [by split|]. rewrite Forall_cons, <-IH. cbn.
  assert (length (List.filter positive_disposition ds) ≤ length ds) by apply sublist_length, List_filter_sublist.
  destruct (positive_disposition d); cbn; split; [intros; split; [done|lia]|lia|lia|naive_solver].
Qed.

Lemma failures_elem ds : 1 ≤ failures ds ↔ Failure ∈ ds.
Proof.
  unfold failures. induction ds as [|d ds IH]; [split; [simpl; lia|by intros ?%elem_of_nil]|].
  rewrite elem_of_cons, <-IH. destruct d; cbn; split; intros; intuition (try lia; congruence).
Qed.

Lemma summary_verdict_cases s policy :
  ((∃ x a, summary_verdict s policy = Verified x a) ↔ required_successes policy ≤ successes s) ∧
  ((∃ x a, summary_verdict s policy = Rejected x a) ↔
     successes s < required_successes policy ∧ required_failures policy ≤ eligible_attempts s - successes s).
Proof.
  unfold summary_verdict. destruct (Nat.leb_spec (required_successes policy) (successes s)).
  - split; (split; [try by intros (? & ? & ?)|try lia]); eauto.
  - destruct (Nat.leb_spec (required_failures policy) (eligible_attempts s - successes s));
      split; (split; [try by intros (? & ? & ?)|try lia]); eauto.
Qed.

(** An hour moves the epoch by at most one. *)
Lemma epoch_advance now now' epoch :
  relay_canary_eligibility_epoch now = Ok epoch →
  (now ≤ now' ≤ now + RELAY_CANARY_RATE_WINDOW)%Z →
  ∃ current, relay_canary_eligibility_epoch now' = Ok current ∧ (epoch ≤ current ≤ epoch + 1)%N.
Proof.
  unfold relay_canary_eligibility_epoch, RELAY_CANARY_RATE_WINDOW, RELAY_CANARY_ELIGIBILITY_EPOCH_SECS.
  destruct (Z.ltb_spec now 0); [done|]. intros [= <-] Hnow. destruct (Z.ltb_spec now' 0); [lia|].
  eexists. split; [reflexivity|]. rewrite !Z.div_div by lia.
  set (d := (10 ^ 9 * (60 * 60))%Z) in *.
  assert (now / d ≤ now' / d)%Z by (apply Z.div_le_mono; lia).
  assert (now' / d ≤ now / d + 1)%Z.
  { replace (now / d + 1)%Z with ((now + 1 * d) / d)%Z by (apply Z.div_add; lia). apply Z.div_le_mono; lia. }
  assert (0 ≤ now / d)%Z by (apply Z.div_pos; lia). lia.
Qed.

Section rounds.
Context `{TL : TransportLib} (blake3 : list Z → Octets 32) {E : Type} (env : RoundEnv E).
Context (relayer : PeerId) (addr : SocketAddr).

(** What the witnesses of the round report, in the order they were drawn. *)
Definition round_dispositions (epoch : N) : list RelayCanaryProbeDisposition :=
  (λ w, report_disposition (request_relay_canary env w (mk_canary_request (self_id env) addr epoch)))
    <$> round_witnesses blake3 env relayer addr epoch.

Lemma round_dispositions_length epoch : length (round_dispositions epoch) ≤ 3.
Proof.
  unfold round_dispositions. rewrite length_fmap. unfold round_witnesses.
  apply (sel_length _ _ _ _ _ _ _ _ _ _ (selection_selected _ _ _ _ _ _ _ RELAY_CANARY_WITNESS_TARGET ltac:(compute; lia))).
Qed.

Hypothesis completes : ∀ l, completion env l ≡ₚ l.

(** The verdict depends on the reports only through their counts. *)
Lemma verify_counts policy epoch :
  validate_relay_canary_address addr = Ok tt →
  relay_canary_eligibility_epoch (clock env) = Ok epoch →
  let ds := round_dispositions epoch in
  required_successes policy ≤ length ds →
  ∃ s, successes s = positives ds ∧ eligible_attempts s = positives ds + failures ds ∧
       verify_relay_with_canaries blake3 env relayer addr policy = summary_verdict s policy.
Proof.
  intros Hv He ds Hlen. unfold verify_relay_with_canaries. rewrite Hv, He.
  assert (Hl : length (round_witnesses blake3 env relayer addr epoch) = length ds).
  { unfold ds, round_dispositions. by rewrite length_fmap. }
  destruct (Nat.ltb_spec (length (round_witnesses blake3 env relayer addr epoch)) (required_successes policy)); [lia|].
  set (reports := completion env _). eexists. split; [|split; [|reflexivity]].
  all: assert (Hp : report_disposition <$> reports ≡ₚ ds)
    by (unfold reports, ds, round_dispositions; rewrite completes, <-list_fmap_compose; done).
  all: rewrite ?(proj1 (record_all _ _)), ?(proj2 (record_all _ _)); cbn; unfold positives, failures.
  all: by rewrite !(filter_length_perm _ _ _ Hp).
Qed.

Lemma verify_cases policy epoch :
  validate_relay_canary_address addr = Ok tt →
  relay_canary_eligibility_epoch (clock env) = Ok epoch →
  let v := verify_relay_with_canaries blake3 env relayer addr policy in
  let ds := round_dispositions epoch in
  ((∃ s a, v = Verified s a) ↔ required_successes policy ≤ positives ds) ∧
  ((∃ s a, v = Rejected s a) ↔ required_successes policy ≤ length ds ∧
     positives ds < required_successes policy ∧ required_failures policy ≤ failures ds).
Proof.
  intros Hv He v ds. pose proof (positives_failures ds) as Hpf.
  destruct (decide (required_successes policy ≤ length ds)) as [Hlen|Hlen].
  - destruct (verify_counts policy epoch Hv He Hlen) as (s & Hs & Ha & Hd). unfold v. rewrite Hd.
    destruct (summary_verdict_cases s policy) as [-> ->]. rewrite Hs, Ha. fold ds.
    split; [done|]. split; intros; repeat split; lia.
  - assert (Hd : ∃ u, v = Inconclusive 0 0 u).
    { unfold v, verify_relay_with_canaries. rewrite Hv, He.
      unfold ds, round_dispositions in Hlen. rewrite length_fmap in Hlen.
      destruct (Nat.ltb_spec (length (round_witnesses blake3 env relayer addr epoch)) (required_successes policy));
        [eauto|lia]. }
    destruct Hd as [u ->]. split; (split; [by intros (? & ? & ?)|lia]).
Qed.

(** the verdict of a canary round, whatever order the probes complete in.
    A provisional relay is verified exactly when its address is acceptable,
    the clock is sane, three witnesses were drawn and none of them reported
    anything but a success (or stayed silent, as a legacy node does); it is
    rejected when its address is not acceptable or one of three witnesses
    failed to reach it.  An established relay is verified by two positive
    reports and rejected by two failures. *)
Theorem canary_verdict_spec policy :
  let verdict := verify_relay_with_canaries blake3 env relayer addr policy in
  ((∃ s a, verdict = Verified s a) ↔
     validate_relay_canary_address addr = Ok tt ∧
     ∃ epoch, relay_canary_eligibility_epoch (clock env) = Ok epoch ∧
       match policy with
       | AdmissionPolicy => length (round_dispositions epoch) = 3 ∧
           Forall (λ d, positive_disposition d = true) (round_dispositions epoch)
       | MaintenancePolicy => 2 ≤ positives (round_dispositions epoch)
       end) ∧
  ((∃ s a, verdict = Rejected s a) ↔
     validate_relay_canary_address addr ≠ Ok tt ∨
     ∃ epoch, relay_canary_eligibility_epoch (clock env) = Ok epoch ∧
       match policy with
       | AdmissionPolicy => length (round_dispositions epoch) = 3 ∧ Failure ∈ round_dispositions epoch
       | MaintenancePolicy => 2 ≤ failures (round_dispositions epoch)
       end).
Proof.
  cbv zeta. destruct (validate_relay_canary_address addr) as [[]|r] eqn:Hv.
  2: { unfold verify_relay_with_canaries. rewrite Hv. naive_solver. }
  destruct (relay_canary_eligibility_epoch (clock env)) as [epoch|r] eqn:He.
  2: { unfold verify_relay_with_canaries. rewrite Hv, He. naive_solver. }
  set (v := verify_relay_with_canaries _ _ _ _ _).
  pose proof (round_dispositions_length epoch) as Hmax.
  pose proof (positives_failures (round_dispositions epoch)) as Hpf.
  pose proof (positives_all (round_dispositions epoch)) as Hall.
  pose proof (failures_elem (round_dispositions epoch)) as Hfail.
  destruct (verify_cases policy epoch Hv He) as [Hver Hrej]. fold v in Hver, Hrej. rewrite Hver, Hrej.
  clear Hver Hrej v. set (ds := round_dispositions epoch) in *.
  destruct policy; cbn [required_successes required_failures].
  - change RELAY_CANARY_ADMISSION_SUCCESSES with 3. change RELAY_CANARY_ADMISSION_FAILURES with 1. split; split.
    + intros Hc. split; [done|]. exists epoch. split; [done|]. split; [fold ds; lia|]. apply Hall. fold ds. lia.
    + intros (_ & ep & [= <-] & Hl & Hf). apply Hall in Hf. fold ds in Hl, Hf. lia.
    + intros (Hc & _ & Hf). right. exists epoch. split; [done|]. split; [fold ds; lia|by apply Hfail].
    + intros [?|(ep & [= <-] & Hl & Hf)]; [done|]. apply Hfail in Hf. fold ds in Hl, Hf. lia.
  - change RELAY_CANARY_MAINTENANCE_SUCCESSES with 2. change RELAY_CANARY_MAINTENANCE_FAILURES with 2. split; split.
    + intros Hc. split; [done|]. by exists epoch.
    + by intros (_ & ep & [= <-] & Hl).
    + intros (Hc & _ & Hf). right. by exists epoch.
    + intros [?|(ep & [= <-] & Hl)]; [done|]. fold ds in Hl. lia.
Qed.

(** an honest request is honoured.  Every witness the requester draws
    accepts the request it receives: the request's epoch is still current, or
    the previous one, for a witness whose clock is between the requester's
    and one hour ahead of it, and the witness finds itself eligible. *)
Theorem honest_request_accepted epoch w now' :
  validate_relay_canary_address addr = Ok tt →
  relay_canary_eligibility_epoch (clock env) = Ok epoch →
  w ∈ round_witnesses blake3 env relayer addr epoch →
  (clock env ≤ now' ≤ clock env + RELAY_CANARY_RATE_WINDOW)%Z →
  validate_relay_canary_request blake3 (self_id env) (witness_id w)
    (mk_canary_request (self_id env) addr epoch) now' = Ok tt.
Proof.
  intros Hv He Hw Hnow. unfold validate_relay_canary_request. cbn [target_peer_id Canary.relay_addr eligibility_epoch].
  rewrite bool_decide_eq_true_2 by done. cbn [negb]. rewrite Hv. cbn [try].
  destruct (epoch_advance (clock env) now' epoch He Hnow) as (current & -> & Hcur). cbn [try].
  assert (Hel : relay_canary_witness_is_eligible blake3 (self_id env) (witness_id w) epoch = true).
  { destruct (sel_sound _ _ _ _ _ _ _ _ _ _ (selection_selected _ _ _ _ _ _ _ RELAY_CANARY_WITNESS_TARGET
      ltac:(compute; lia)) w Hw) as [?%elem_of_nil|(node & _ & [] & ->)]; [done|]. done. }
  rewrite Hel. destruct (N.eqb_spec epoch current) as [|Hne]; [done|]. cbn [negb andb].
  rewrite bool_decide_eq_true_2; [done|]. destruct (N.eqb_spec current 0); [lia|]. f_equal. lia.
Qed.
End rounds.
