(* ===== verification/CanaryWitness.v ===== *)
(** * The witness side of the relay canary

    [handle_relay_canary_message] of [src/dht_network_manager.rs]: a request
    is decoded, validated, charged to five independent budgets and given one
    of four probe permits before the witness dials.  The handler is split at
    the dial, where it suspends: [handle_relay_canary_message] decides and
    [finish_probe] answers and returns the permit. *)

From stdpp Require Import prelude strings.
From S2P Require Import Prelude Float Keys Ip Address PeerRecord Diversity RateLimit Canary.

Definition MAX_MESSAGE_SIZE : nat := 64 * 1024.
Definition MAX_CONCURRENT_RELAY_CANARY_PROBES : nat := 4.

(** [RequestResponseEnvelope] of [src/network.rs]. *)
Record RequestResponseEnvelope := mk_envelope {
  message_id : string;
  is_response : bool;
  payload : list Z;
}.

(** The decoders of the [postcard] crate for the two message types. *)
Class CanaryCodec := {
  decode_envelope : list Z → result RequestResponseEnvelope string;
  decode_request : list Z → result RelayCanaryRequest string;
}.

Definition parse_request_envelope `{CanaryCodec} (data : list Z) : option (string * bool * list Z) :=
  match decode_envelope data with
  | Ok envelope => Some (message_id envelope, is_response envelope, payload envelope)
  | Err _ => None
  end.

Section witness.
Context `{CanaryCodec} (blake3 : list Z → Octets 32) (normalize_socket_addr : SocketAddr → SocketAddr).
Context `{LruLib PeerId Bucket} `{LruLib IpAddr Bucket} `{LruLib SocketAddr Bucket} `{LruLib string Bucket}.

(** The limiters and the semaphore of [DhtNetworkManager]. *)
Record WitnessState := mk_witness_state {
  relay_canary_rate_limiter : Engine PeerId;
  relay_canary_source_network_rate_limiter : Engine IpAddr;
  relay_canary_global_rate_limiter : Engine string;
  relay_canary_destination_rate_limiter : Engine SocketAddr;
  relay_canary_destination_ip_rate_limiter : Engine IpAddr;
  relay_canary_permits : nat;
}.

Definition witness_new (now : Z) : WitnessState := {|
  relay_canary_rate_limiter := rate_engine_new relay_canary_rate_limit_config now;
  relay_canary_source_network_rate_limiter := rate_engine_new relay_canary_source_network_rate_limit_config now;
  relay_canary_global_rate_limiter := rate_engine_new relay_canary_global_rate_limit_config now;
  relay_canary_destination_rate_limiter := rate_engine_new relay_canary_destination_rate_limit_config now;
  relay_canary_destination_ip_rate_limiter := rate_engine_new relay_canary_destination_ip_rate_limit_config now;
  relay_canary_permits := MAX_CONCURRENT_RELAY_CANARY_PROBES;
|}.

(** An incoming message: its sender, the address its connection comes from,
    its bytes, and the wall and monotonic clocks when it is handled. *)
Record Incoming := mk_incoming {
  source_peer : PeerId;
  source_addr : option SocketAddr;
  data : list Z;
  wall : Z;
  mono : Z;
}.

Inductive HandlerOutcome :=
  | Ignored
  | Answered (message_id : string) (response : RelayCanaryResponse)
  | Dialling (message_id : string) (request : RelayCanaryRequest).

Definition throttled (id : string) : HandlerOutcome := Answered id (mk_canary_response WitnessRateLimited).

(** Decoding and validation, up to the budgets: the outcome when the handler
    stops there, or what the budgets are charged for. *)
Definition admit_request (self : PeerId) (m : Incoming)
    : HandlerOutcome + (string * RelayCanaryRequest * SocketAddr) :=
  if MAX_MESSAGE_SIZE <? length (data m) then inl Ignored
  else match parse_request_envelope (data m) with
       | None => inl Ignored
       | Some (id, true, _) => inl Ignored
       | Some (id, false, payload) =>
           match decode_request payload with
           | Err _ => inl Ignored
           | Ok request =>
               match validate_relay_canary_request blake3 (source_peer m) self request (wall m) with
               | Err _ => inl (throttled id)
               | Ok _ =>
                   match source_addr m with
                   | None => inl (throttled id)
                   | Some source_addr => inr (id, request, source_addr)
                   end
               end
           end
       end.

Definition handle_relay_canary_message (self : PeerId) (st : WitnessState) (m : Incoming)
    : HandlerOutcome * WitnessState :=
  match admit_request self m with
  | inl outcome => (outcome, st)
  | inr (id, request, source_addr) =>
      let destination := normalize_socket_addr (relay_addr request) in
      let source_network := relay_canary_source_network (socket_ip source_addr) in
      let destination_ip := canonicalize_ip (socket_ip destination) in
      let '(peer_allowed, peers) := try_consume_key (relay_canary_rate_limiter st) (source_peer m) (mono m) in
      let '(network_allowed, networks) :=
        try_consume_key (relay_canary_source_network_rate_limiter st) source_network (mono m) in
      let '(global_allowed, globals) :=
        try_consume_key (relay_canary_global_rate_limiter st) "global" (mono m) in
      let '(destination_allowed, destinations) :=
        try_consume_key (relay_canary_destination_rate_limiter st) destination (mono m) in
      let '(destination_ip_allowed, destination_ips) :=
        try_consume_key (relay_canary_destination_ip_rate_limiter st) destination_ip (mono m) in
      let st' permits := mk_witness_state peers networks globals destinations destination_ips permits in
      if negb (peer_allowed && network_allowed && global_allowed && destination_allowed && destination_ip_allowed)
      then (throttled id, st' (relay_canary_permits st))
      else match relay_canary_permits st with
           | O => (throttled id, st' O)
           | S permits => (Dialling id request, st' permits)
           end
  end.

(** The dial is over: the permit is dropped and the answer sent. *)
Definition finish_probe {E} (st : WitnessState) (id : string) (request : RelayCanaryRequest)
    (dial : option (result PeerId E)) : HandlerOutcome * WitnessState :=
  (Answered id (answer_relay_canary_request dial request),
   mk_witness_state (relay_canary_rate_limiter st) (relay_canary_source_network_rate_limiter st)
     (relay_canary_global_rate_limiter st) (relay_canary_destination_rate_limiter st)
     (relay_canary_destination_ip_rate_limiter st) (S (relay_canary_permits st))).

(** ** Runs of the witness *)

(** The witness and the probes it has not answered yet. *)
Definition System : Type := WitnessState * list (string * RelayCanaryRequest).

Inductive witness_step {E} (self : PeerId) : System → option Incoming → HandlerOutcome → System → Prop :=
  | step_message st probes m outcome st' :
      handle_relay_canary_message self st m = (outcome, st') →
      witness_step self (st, probes) (Some m) outcome
        (st', match outcome with Dialling id request => (id, request) :: probes | _ => probes end)
  | step_probe st l1 l2 id request (dial : option (result PeerId E)) outcome st' :
      finish_probe st id request dial = (outcome, st') →
      witness_step self (st, l1 ++ (id, request) :: l2) None outcome (st', l1 ++ l2).

Inductive witness_run {E} (self : PeerId) : System → list (option Incoming * HandlerOutcome) → System → Prop :=
  | run_nil s : witness_run self s [] s
  | run_cons s ev out s' tr s'' :
      witness_step (E := E) self s ev out s' → witness_run self s' tr s'' →
      witness_run self s ((ev, out) :: tr) s''.

Definition is_dial (o : HandlerOutcome) : bool := match o with Dialling _ _ => true | _ => false end.
Definition dials (tr : list (option Incoming * HandlerOutcome)) : nat :=
  length (List.filter (λ x, is_dial x.2) tr).

(** *** What a dial costs *)

(** The charge of a message to the node-wide budget. *)
Definition global_charge (self : PeerId) (m : Incoming) : list (Z * string) :=
  match admit_request self m with inl _ => [] | inr _ => [(mono m, "global")] end.

Definition global_charges (self : PeerId) (tr : list (option Incoming * HandlerOutcome)) : list (Z * string) :=
  tr ≫= λ x, from_option (global_charge self) [] x.1.

Lemma handle_charge self st m outcome st' :
  handle_relay_canary_message self st m = (outcome, st') →
  let e := relay_canary_global_rate_limiter st in
  let e' := relay_canary_global_rate_limiter st' in
  relay_canary_permits st = relay_canary_permits st' + Nat.b2n (is_dial outcome) ∧
  cfg e' = cfg e ∧
  ∀ rest, (N.b2n (is_dial outcome) + granted e' "global" rest ≤ granted e "global" (global_charge self m ++ rest))%N.
Proof.
  unfold handle_relay_canary_message, global_charge. destruct (admit_request self m) as [o|[[id request] src]] eqn:Ha.
  { intros [= <- <-]. cbn zeta. assert (is_dial o = false) as ->; [|cbn; split_and!; [lia|done|done]].
    revert Ha. unfold admit_request. repeat case_match; by intros [= <-]. }
  destruct (try_consume_key (relay_canary_rate_limiter st) _ _) as [ok1 e1].
  destruct (try_consume_key (relay_canary_source_network_rate_limiter st) _ _) as [ok2 e2].
  pose proof (try_consume_key_cfg (relay_canary_global_rate_limiter st) "global" (mono m)) as Hcfg.
  destruct (try_consume_key (relay_canary_global_rate_limiter st) "global" (mono m)) as [ok3 e3] eqn:Hg.
  destruct (try_consume_key (relay_canary_destination_rate_limiter st) _ _) as [ok4 e4].
  destruct (try_consume_key (relay_canary_destination_ip_rate_limiter st) _ _) as [ok5 e5].
  cbn [snd] in Hcfg. intros Hout. cbn zeta.
  assert (Hst : relay_canary_global_rate_limiter st' = e3 ∧
    relay_canary_permits st = relay_canary_permits st' + Nat.b2n (is_dial outcome) ∧
    (is_dial outcome = true → ok3 = true)).
  { destruct ok1, ok2, ok3, ok4, ok5; cbn in Hout;
      try (simplify_eq; cbn; split_and!; [done|lia|done]).
    destruct (relay_canary_permits st) as [|p] eqn:Hp; simplify_eq; cbn; split_and!; (done || lia). }
  destruct Hst as (-> & Hp & Hok). split_and!; [done|done|]. intros rest. cbn [app granted]. rewrite Hg.
  rewrite bool_decide_eq_true_2 by done. destruct (is_dial outcome); [rewrite Hok by done; lia|].
  cbn [N.b2n]. lia.
Qed.

(** A dial is made only for a request the witness has validated. *)
Lemma handle_dial_valid self st m id request st' :
  handle_relay_canary_message self st m = (Dialling id request, st') →
  validate_relay_canary_request blake3 (source_peer m) self request (wall m) = Ok tt.
Proof.
  unfold handle_relay_canary_message. destruct (admit_request self m) as [o|[[id' request'] src]] eqn:Ha.
  - intros [= -> <-]. revert Ha. unfold admit_request. by repeat case_match.
  - intros Hout. assert (request' = request) as ->.
    { repeat case_match; simplify_eq; done. }
    revert Ha. unfold admit_request. repeat case_match; intros; simplify_eq.
    match goal with Hv : validate_relay_canary_request _ _ _ _ _ = Ok ?u |- _ => by destruct u end.
Qed.

Lemma handle_global_run {E} self s tr s' :
  witness_run (E := E) self s tr s' →
  relay_canary_permits s.1 + length s.2 = relay_canary_permits s'.1 + length s'.2 ∧
  (N.of_nat (dials tr) ≤ granted (relay_canary_global_rate_limiter s.1) "global" (global_charges self tr))%N ∧
  ∀ m id request, (Some m, Dialling id request) ∈ tr →
    validate_relay_canary_request blake3 (source_peer m) self request (wall m) = Ok tt.
Proof.
  induction 1 as [s|s ev out s' tr s'' Hstep Hrun (IHp & IHg & IHv)].
  { split_and!; [done|done|]. by intros ? ? ? ?%elem_of_nil. }
  destruct Hstep as [st probes m outcome st' Hm|st l1 l2 id request dial outcome st' Hf]; cbn [fst snd] in *.
  - destruct (handle_charge _ _ _ _ _ Hm) as (Hp & _ & Hc). split_and!.
    + destruct outcome; cbn in *; lia.
    + unfold dials, global_charges in *. cbn. specialize (Hc (tr ≫= λ x, from_option (global_charge self) [] x.1)).
      destruct (is_dial outcome); cbn [N.b2n length] in *; lia.
    + intros m' id request [[= <- Ho]|Hin]%elem_of_cons; [|by eapply IHv].
      rewrite <-Ho in Hm. by eapply handle_dial_valid.
  - unfold finish_probe in Hf. simplify_eq. split_and!.
    + cbn in *. rewrite !length_app in *. cbn. lia.
    + done.
    + intros m' id' request' [[=]|Hin]%elem_of_cons. by eapply IHv.
Qed.

End witness.
