(* ===== verification/ReachSamples.v ===== *)
(** * Concrete reachability, trust and dialling

    An association-list LRU cache, toy decoders and a coarse [exp]/[powf]
    that satisfy the interfaces, and concrete inputs on which the hypotheses
    of the properties hold. *)

From Stdlib Require Import SpecFloat.
From stdpp Require Import prelude sorting gmap strings.
From S2P Require Import Prelude Float Keys Ip Address Models PeerRecord SelfAddress RateLimit DialFailure DialPolicy Trust DialCoordinator Diversity Canary CanaryWitness.

Module ReachSamples.

#[local] Existing Instance plain_transport.

Definition peer (b : Z) : PeerId := default (mk_key (replicate 32 0%Z) I) (key_of_list (b :: replicate 31 0%Z)).
Definition sock (a b c d : Z) (port : N) : SocketAddr := SocketV4 (ipv4 a b c d) port.
Definition addr (a b c d : Z) (port : N) : MultiAddr := quic (sock a b c d port).

(** ** An LRU cache: the most recent key first *)

Section lru.
Context {K V : Type} `{EqDecision K}.
Implicit Types (l : list (K * V)) (k : K) (v : V).

Fixpoint assoc l k : option V :=
  match l with [] => None | (k', v) :: l' => if decide (k' = k) then Some v else assoc l' k end.

Definition without_key l k : list (K * V) := List.filter (λ p, negb (bool_decide (p.1 = k))) l.

Lemma assoc_without l k k' : k ≠ k' → assoc (without_key l k) k' = assoc l k'.
Proof.
  intros Hne. induction l as [|[k1 v1] l IH]; [done|]. cbn.
  destruct (bool_decide_reflect (k1 = k)) as [->|]; cbn; [by rewrite decide_False|].
  by destruct (decide (k1 = k')).
Qed.

Lemma assoc_take n l k : assoc (take n l) k = assoc l k ∨ assoc (take n l) k = None.
Proof.
  revert n. induction l as [|[k1 v1] l IH]; intros [|n]; cbn; auto.
  destruct (decide (k1 = k)); auto.
Qed.

#[local] Instance assoc_lru : LruLib K V.
Proof.
  refine {|
    Lru := nat * list (K * V);
    lru_new n := (N.to_nat n, []);
    lru_get c k := assoc c.2 k;
    lru_write c k v := (c.1, (k, v) :: without_key c.2 k);
    lru_put c k v := (c.1, (k, v) :: take (c.1 - 1) (without_key c.2 k));
  |}; cbn; intros.
  - done.
  - by rewrite decide_True.
  - rewrite decide_False by done. by apply assoc_without.
  - by rewrite decide_True.
  - rewrite decide_False by done. destruct (assoc_take (c.1 - 1) (without_key c.2 k) k') as [->|]; [|by right].
    left. by apply assoc_without.
Defined.
End lru.
#[local] Existing Instance assoc_lru.

(** ** Own addresses *)

(** An IPv4-mapped address becomes the IPv4 address. *)
Definition unmap (sa : SocketAddr) : SocketAddr :=
  match sa with
  | SocketV6 ip port _ _ => match to_ipv4_mapped ip with Some v4 => SocketV4 v4 port | None => sa end
  | _ => sa
  end.

Example self_set :
  into_typed_vec (build_self_address_set unmap (λ sa, bool_decide (sa = sock 203 0 113 9 9000))
    [sock 203 0 113 1 9000; sock 192 168 1 4 9000; sock 203 0 113 2 9000]
    [addr 203 0 113 9 9000; addr 0 0 0 0 9000] (Some (sock 198 51 100 7 4433))) =
  [(addr 198 51 100 7 4433, Relay); (addr 203 0 113 9 9000, Direct); (addr 192 168 1 4 9000, Lan)].
Proof. by_decide. Qed.

(** ** Canaries *)

(** Every witness is eligible. *)
Definition zero_hash : list Z → Octets 32 := λ _, octets_from 32 0.

(** A routing-table entry with one direct address. *)
Definition node (b : Z) : DHTNode :=
  {| node_peer_id := peer b; addresses := [addr 198 51 100 b 9000]; address_types := [Direct];
     distance := None; reliability := f64_one; address_authority := None |}.

Definition round (outcomes : Z → result RelayCanaryRequestOutcome string) : RoundEnv string :=
  {| self_id := peer 1; closest_to_self := [node 2]; routing_table_peers := [node 2; node 3; node 4; node 5; node 6];
     clock := 10 ^ 18; shuffle := reverse; completion := reverse; error_to_string := id;
     request_outcome w _ := outcomes (nth 0 (key_bytes (witness_id w)) 0%Z) |}.

Definition all_reached : RoundEnv string := round (λ _, Ok (Response (mk_canary_response ProbeSuccess))).
Definition relay_at : SocketAddr := sock 203 0 113 50 4433.

Lemma selection_witness :
  witness_id <$> select_relay_canary_witnesses zero_hash (routing_table_peers all_reached) {[peer 2]} (peer 1) (peer 3)
    (V4 (ipv4 198 51 100 4)) 0 2 = [peer 5; peer 6] ∧
  length (select_relay_canary_witnesses zero_hash (routing_table_peers all_reached) {[peer 2]} (peer 1) (peer 3)
    (V4 (ipv4 198 51 100 4)) 0 2) ≤ 2.
Proof.
  split; [by_decide|].
  exact (proj1 (canary_selection_spec zero_hash (routing_table_peers all_reached) {[peer 2]} (peer 1) (peer 3)
    (V4 (ipv4 198 51 100 4)) 0 2 ltac:(lia))).
Defined.

Lemma verdict_witness :
  verify_relay_with_canaries zero_hash all_reached (peer 6) relay_at AdmissionPolicy = Verified 3 3 ∧
  ∃ epoch, length (round_dispositions zero_hash all_reached (peer 6) relay_at epoch) = 3.
Proof.
  assert (Hv : verify_relay_with_canaries zero_hash all_reached (peer 6) relay_at AdmissionPolicy = Verified 3 3)
    by by_decide.
  split; [exact Hv|].
  destruct (canary_verdict_spec zero_hash all_reached (peer 6) relay_at (λ l, reverse_Permutation l) AdmissionPolicy)
    as [[H _] _].
  destruct (H (ex_intro _ 3 (ex_intro _ 3 Hv))) as (_ & epoch & _ & Hlen & _). by exists epoch.
Defined.

(** One failure among three rejects a provisional relay, not an established one. *)
Definition one_failed : RoundEnv string :=
  round (λ b, if (b =? 4)%Z then Ok (Response (mk_canary_response ProbeFailure)) else Ok NoProtocolResponse).
Example admission_rejects :
  verify_relay_with_canaries zero_hash one_failed (peer 6) relay_at AdmissionPolicy = Rejected 2 3.
Proof. by_decide. Qed.
Example maintenance_keeps :
  verify_relay_with_canaries zero_hash one_failed (peer 6) relay_at MaintenancePolicy = Verified 2 3.
Proof. by_decide. Qed.

Lemma honest_witness :
  validate_relay_canary_request zero_hash (peer 1) (peer 5)
    (mk_canary_request (peer 1) relay_at (10 ^ 18 / 10 ^ 9 / 3600)) (10 ^ 18 + 10 ^ 9) = Ok tt.
Proof.
  apply (honest_request_accepted zero_hash all_reached (peer 6) relay_at (10 ^ 18 / 10 ^ 9 / 3600)
    (mk_witness (peer 5) (typed_addresses (node 5))) (10 ^ 18 + 10 ^ 9)).
  - by_decide.
  - by_decide.
  - apply list_elem_of_lookup. exists 0. by_decide.
  - vm_compute. split; congruence.
Defined.

(** The address check does not see through an IPv4-mapped address: the
    broadcast address is refused, its mapped form is accepted. *)
Definition mapped_broadcast : SocketAddr :=
  SocketV6 (ipv6 (mapped_prefix ++ [255; 255; 255; 255])%Z) 9000 0 0.
Example mapped_broadcast_accepted :
  validate_relay_canary_address (sock 255 255 255 255 9000) = Err (BroadcastIp (ipv4 255 255 255 255)) ∧
  validate_relay_canary_address mapped_broadcast = Ok tt ∧
  canonicalize_ip (socket_ip mapped_broadcast) = V4 (ipv4 255 255 255 255).
Proof. split_and!; by_decide. Qed.

(** ** A witness at work *)

(** A message is a marker, the sender and the epoch. *)
#[local] Instance toy_codec : CanaryCodec := {|
  decode_envelope l := match l with 1%Z :: rest => Ok (mk_envelope "id" false rest) | _ => Err "malformed" end;
  decode_request l :=
    match l with
    | [b; e] => Ok (mk_canary_request (peer b) relay_at (Z.to_N e))
    | _ => Err "malformed"
    end;
|}.

Definition incoming (b : Z) : Incoming :=
  {| source_peer := peer b; source_addr := Some (sock 198 51 100 b 9000); data := [1; b; 277777]%Z;
     wall := 10 ^ 18; mono := 5 |}.

Definition started : WitnessState := witness_new 0.
Definition handled (st : WitnessState) (m : Incoming) := handle_relay_canary_message zero_hash unmap (peer 9) st m.

Definition first := handled started (incoming 3).
Definition probe3 : RelayCanaryRequest := mk_canary_request (peer 3) relay_at 277777.

Lemma first_dials : handled started (incoming 3) = (Dialling "id" probe3, first.2).
Proof.
  rewrite (surjective_pairing (handled started (incoming 3))).
  apply (f_equal (λ o, (o, first.2))). vm_compute. reflexivity.
Qed.


(** ** Trust *)

(** A coarse [exp] and [powf]: 1 at the origin, one half elsewhere. *)
#[local] Instance coarse_math : FloatMath.
Proof.
  refine {| f64_exp x := if SFltb x f64_zero then f64_lit 1 2 else f64_one;
            f64_powf b w := f64_lit 1 2 |}.
  - intros x _. destruct (SFltb x f64_zero); [apply neutral_unit|apply unit_one].
  - intros b w _ _ _. apply neutral_unit.
Defined.

(** A failure, then a consumer's success of infinite weight. *)
Definition judged : TrustEngine :=
  report_trust_event (report_trust_event trust_engine_new (peer 3) ConnectionFailed 0) (peer 3)
    (ApplicationSuccess (S754_infinity false)) (10 ^ 12).

Lemma judged_reachable : rtc trust_step trust_engine_new judged.
Proof. unfold judged. do 2 (eapply rtc_r; [|apply step_report]). apply rtc_refl. Qed.

Lemma trust_witness :
  score judged (peer 3) (10 ^ 12) = f64_lit 11 16 ∧ score judged (peer 3) (10 ^ 12) ≠ S754_nan.
Proof.
  split; [vm_compute; reflexivity|].
  exact (proj1 (proj2 (trust_invariant judged judged_reachable) (peer 3) (10 ^ 12)%Z)).
Defined.

Lemma judged_wf : trust_wf judged.
Proof. unfold judged. do 2 (eapply trust_step_wf; [|apply step_report]). apply map_Forall_empty. Qed.

Lemma snapshot_witness :
  score (import_snapshot trust_engine_new (export_snapshot judged (10 ^ 12) (10 ^ 18)) (10 ^ 13)) (peer 3) (10 ^ 13)
  = score judged (peer 3) (10 ^ 12).
Proof. apply (trust_snapshot_roundtrip judged (peer 3) (10 ^ 12) (10 ^ 18) (10 ^ 13)). exact judged_wf. Defined.

(** ** The dial-failure cache *)

Definition minutes (n : Z) : Z := seconds (60 * n).

(** Four sessions of one relay host fail; a fifth is suppressed, except for
    the peer that has just re-attested it; a success lifts the suppression. *)
Definition history : list (Z * CacheEvent) := [
  (minutes 0, EvFailure (sock 198 51 100 1 1001) Relay);
  (minutes 1, EvFailure (sock 198 51 100 1 1002) Relay);
  (minutes 1, EvFailure (sock 198 51 100 1 1003) Relay);
  (minutes 2, EvQuery (peer 3) (sock 198 51 100 1 1005) Relay);
  (minutes 2, EvFailure (sock 198 51 100 1 1004) Relay);
  (minutes 3, EvQuery (peer 3) (sock 198 51 100 1 1005) Relay);
  (minutes 3, EvQuery (peer 3) (sock 198 51 100 1 1005) Direct);
  (minutes 4, EvRepublished (peer 3) (sock 198 51 100 1 1005));
  (minutes 5, EvQuery (peer 3) (sock 198 51 100 1 1005) Relay);
  (minutes 5, EvQuery (peer 4) (sock 198 51 100 1 1005) Relay);
  (minutes 7, EvQuery (peer 3) (sock 198 51 100 1 1005) Relay);
  (minutes 31, EvQuery (peer 3) (sock 198 51 100 1 1005) Relay);
  (minutes 31, EvQuery (peer 3) (sock 198 51 100 1 1004) Relay);
  (minutes 31, EvSuccess (sock 198 51 100 1 1004));
  (minutes 31, EvQuery (peer 3) (sock 198 51 100 1 1004) Relay)].

Lemma cache_witness :
  cache_run dial_cache_new history =
    [None; None; None; Some false; None; Some true; Some false; None; Some false; Some true; Some true;
     Some false; Some true; None; Some false] ∧
  cache_run dial_cache_new history = log_run log_new history.
Proof.
  split; [by_decide|]. apply (dial_cache_refines history).
  repeat constructor; cbn; vm_compute; congruence.
Defined.

(** ** Dialling *)

(** This node is at 203.0.113.1 on the WAN and 192.168.1.0/24 on the LAN. *)
Definition here : DialAddressContext := from_parts [sock 203 0 113 1 9000] [addr 192 168 1 2 9000] false.

Definition neighbour : list (MultiAddr * AddressType) := [
  (addr 198 51 100 9 4433, Relay); (addr 203 0 113 1 9100, Unverified); (addr 10 0 0 5 9100, Direct);
  (addr 192 168 1 7 9100, Lan)].

(** A peer behind the same WAN address is dialled over the LAN first. *)
Example neighbour_plan :
  select_dial_candidates_with_context unmap neighbour here =
  [(addr 192 168 1 7 9100, Lan); (addr 198 51 100 9 4433, Relay); (addr 203 0 113 1 9100, Unverified)].
Proof. by_decide. Qed.

Definition ticks (i : nat) : Z := seconds (Z.of_nat i).
Definition refuse (i : nat) (a : MultiAddr) (t : AddressType) : option string := None.

Lemma dial_witness :
  (dial_addresses unmap refuse ticks (peer 3) false here neighbour dial_cache_new).2 =
    select_dial_candidates_with_context unmap neighbour here ∧
  length (dial_addresses unmap refuse ticks (peer 3) false here neighbour dial_cache_new).2 ≤ MAX_DIAL_PLAN_SIZE.
Proof.
  split; [by_decide|].
  refine (proj1 (proj2 (dial_addresses_spec unmap refuse ticks (peer 3) here neighbour dial_cache_new _))).
  intros i j Hij. unfold ticks, seconds. lia.
Defined.

(** A Direct address with port zero is offered to the relay walker. *)
Example first_direct_port_zero :
  first_direct_dialable {| node_peer_id := peer 3; addresses := [addr 198 51 100 9 0; addr 198 51 100 9 9000];
    address_types := [Direct; Direct]; distance := None; reliability := f64_one; address_authority := None |}
  = Some (addr 198 51 100 9 0).
Proof. by_decide. Qed.

(** ** Two calls for the same peer *)

(** The transport meanwhile accepted a connection of the peer. *)
Definition raced : DialEnv :=
  mk_dial_env here neighbour true (λ _ _ _, Some "channel") ticks (λ _, Ok (peer 3)) (seconds 1).

Definition start : Coordinator :=
  coordinator_new (mk_shared dial_cache_new ∅ (Some trust_engine_new) []) ∅.
Definition both_checked : Coordinator := call_starts (call_starts start 1 (peer 3)) 2 (peer 3).
Definition both_wait : Coordinator :=
  call_claims (call_claims both_checked 1 (peer 3) [(2, peer 3)] 0) 2 (peer 3) [] 0.
Definition answered (env : DialEnv) : Coordinator := owner_finishes unmap both_wait (peer 3) 1 [2] env.

Definition two_calls (env : DialEnv) : list Event := [
  Finished (peer 3) 1 [2] env (run_owned_dial unmap (shared both_wait) (peer 3) env).1;
  Joined 2 (peer 3); Claimed 1 (peer 3); Passed 2 (peer 3); Passed 1 (peer 3)].

Definition first_claimed : Coordinator := call_claims both_checked 1 (peer 3) [(2, peer 3)] 0.

Lemma two_calls_run env :
  coordinator_run unmap (mk_shared dial_cache_new ∅ (Some trust_engine_new) []) (two_calls env) (answered env).
Proof.
  apply (run_step _ _ _ both_wait); [|by apply step_finish].
  apply (run_step _ _ _ first_claimed); [|exact (step_claim _ first_claimed 2 (peer 3) [] [] 0 eq_refl)].
  apply (run_step _ _ _ both_checked); [|exact (step_claim _ both_checked 1 (peer 3) [(2, peer 3)] [] 0 eq_refl)].
  apply (run_step _ _ _ (call_starts start 1 (peer 3))); [|exact (step_call _ _ 2 (peer 3))].
  apply (run_step _ _ _ start); [|exact (step_call _ start 1 (peer 3))].
  exact (run_new _ _ ∅).
Qed.

(** The peer answers and authenticates. *)
Definition reached : DialEnv :=
  mk_dial_env here neighbour false (λ _ _ _, Some "channel") ticks (λ _, Ok (peer 3)) (seconds 1).
Definition unreachable : DialEnv :=
  mk_dial_env here neighbour false refuse ticks (λ _, Ok (peer 3)) (seconds 1).



(** When the peer connects to us between the fast path and the dial, the dial
    is skipped, both calls fail, and the peer pays as for a failed dial. *)
Example connected_peer_penalised :
  results (answered raced) = [(1, Err (FailedToDial (peer 3) 4)); (2, Err (FailedToDial (peer 3) 4))] ∧
  trust (shared (answered raced)) = Some (update_node_stats trust_engine_new (peer 3) FailedResponse (seconds 1)).
Proof. split; [by_decide|reflexivity]. Qed.
End ReachSamples.
