(* ===== verification/ValidationSamples.v ===== *)
(** * Validation at work

    Inputs on which the checks of [Validation] decide, and some they should not
    let through. *)

From Stdlib Require Import Ascii String.
From stdpp Require Import prelude gmap.
From S2P Require Import Prelude Keys Ip Models RateLimit CanaryWitness ReachSamples Validation.

Module ValidationSamples.

Lemma plain_path_accepted :
  validate_file_path (lit "/var/lib/node/./cache.json") = Ok () ∧
  validate_file_path (lit "data/%2e%2e/key") = Err (PathTraversal (lit "data/%2e%2e/key")).
Proof. split; vm_compute; reflexivity. Qed.

(** Percent encoding is not case-sensitive; the decoding of the check is. *)
Lemma upper_case_traversal_accepted : validate_file_path (lit "data/%2E%2E%2Fetc/passwd") = Ok ().
Proof. vm_compute. reflexivity. Qed.

(** Removing a word can make it. *)
Lemma removed_word_reappears :
  sanitize_string (λ _, false) (lit "<scrscriptipt>") 20 = lit "script" ∧
  sanitize_string (λ _, false) (sanitize_string (λ _, false) (lit "<scrscriptipt>") 20) 20 = [].
Proof. split; vm_compute; reflexivity. Qed.

(** ** One host takes what all hosts share *)

#[local] Existing Instance ReachSamples.assoc_lru.

Definition ip_of (n : Z) : IpAddr := V4 (ipv4 203 0 113 n).

(** A hundred connections of one host within an instant. *)
Definition flooded : RateLimit.Engine IpAddr :=
  foldl (λ e _, (check_ip e (ip_of 1) 0).2) (rate_engine_new default_rate_config 0) (seq 0 100).

Lemma one_host_starves_the_rest :
  (check_ip (rate_engine_new default_rate_config 0) (ip_of 2) 0).1 = Ok () ∧
  (check_ip flooded (ip_of 2) 0).1 = Err (RateLimitExceeded None) ∧
  (check_ip flooded (ip_of 1) 0).1 = Err (RateLimitExceeded None).
Proof. split_and!; vm_compute; reflexivity. Qed.
End ValidationSamples.
