(* ===== verification/SignedSamples.v ===== *)
(** * A codec, a signature scheme and signed records

    Executable instances of [PostcardLib] and [CryptoLib] over the transport
    model of [Models], which show that the laws of the two classes hold
    together, and the theorems of [SignedAddress] applied to a publication
    signed with them. *)

From Stdlib Require Import Ascii String SpecFloat.
From stdpp Require Import prelude sorting gmap strings.
From S2P Require Import Prelude Keys Ip Address Models PeerRecord SignedAddress Diversity.

Module SignedSamples.

#[local] Existing Instance plain_transport.

(** ** Bytes

    One byte per binary digit, least significant first, the leading one left
    out. *)

Fixpoint pos_bytes (p : positive) : list Z :=
  match p with
  | xH => []
  | xO p => 0%Z :: pos_bytes p
  | xI p => 1%Z :: pos_bytes p
  end.

Fixpoint bytes_pos (l : list Z) : positive :=
  match l with
  | [] => xH
  | b :: l' => if (b =? 0)%Z then xO (bytes_pos l') else xI (bytes_pos l')
  end.

Lemma bytes_pos_bytes p : bytes_pos (pos_bytes p) = p.
Proof. induction p as [p IH|p IH|]; cbn; [by rewrite IH..|done]. Qed.

(** The bytes of a value of a countable type. *)
Definition to_bytes {A} `{Countable A} (a : A) : list Z := pos_bytes (encode a).

Definition of_bytes {A} `{Countable A} (l : list Z) : result A string :=
  match decode (bytes_pos l) with Some a => Ok a | None => Err "malformed" end.

Lemma of_to_bytes {A} `{Countable A} (a : A) : of_bytes (to_bytes a) = Ok a.
Proof. unfold of_bytes, to_bytes. by rewrite bytes_pos_bytes, decode_encode. Qed.

(** ** The codec *)

Definition record_tuple (r : TransportAddressRecord) : N * N * list Z :=
  (record_transport r, record_reachability r, record_address r).
Definition tuple_record (x : N * N * list Z) : TransportAddressRecord := mk_record x.1.1 x.1.2 x.2.

#[export] Instance record_countable : Countable TransportAddressRecord :=
  inj_countable' record_tuple tuple_record (λ r, match r with mk_record _ _ _ => eq_refl end).

Definition signed_tuple (r : SignedAddressRecord) : Key * N * list TransportAddressRecord * list Z * list Z :=
  (owner r, signed_sequence r, signed_records r, public_key r, signature r).
Definition tuple_signed (x : Key * N * list TransportAddressRecord * list Z * list Z) : SignedAddressRecord :=
  mk_signed x.1.1.1.1 x.1.1.1.2 x.1.1.2 x.1.2 x.2.

#[export] Instance signed_countable : Countable SignedAddressRecord :=
  inj_countable' signed_tuple tuple_signed (λ r, match r with mk_signed _ _ _ _ _ => eq_refl end).

Definition decode_bounded (l : list Z) : result SignedAddressRecord string :=
  match of_bytes l with
  | Ok r => if within_decode_bounds r then Ok r else Err "collection too long"
  | Err e => Err e
  end.

Definition plain_postcard : PostcardLib.
Proof.
  refine {|
    to_stdvec_addr a := Ok (to_bytes a);
    from_bytes_addr := of_bytes;
    to_stdvec_signable _ p n l := Ok (to_bytes (p, n, l));
    to_stdvec_signed r := Ok (to_bytes r);
    from_bytes_signed := decode_bounded;
  |}.
  - intros a bytes [= <-]. apply of_to_bytes.
  - intros r bytes Hb [= <-]. unfold decode_bounded. by rewrite of_to_bytes, Hb.
  - intros bytes r. unfold decode_bounded. destruct (of_bytes bytes) as [r'|]; [|done].
    destruct (within_decode_bounds r') eqn:Hb; [|done]. by intros [= <-].
  - intros _ p n l p' n' l' bytes [= H1] [= H2].
    assert (Ok (p, n, l) = Ok (E := string) (p', n', l')) as [= -> -> ->]; [|done].
    rewrite <- (of_to_bytes (p, n, l)), <- (of_to_bytes (p', n', l')). congruence.
Defined.

(** ** The signature scheme *)

(** Sizes small enough for evaluation; nothing depends on them. *)
Definition TOY_KEY_SIZE : nat := 4.
Definition TOY_SIGNATURE_SIZE : nat := 8.

Definition checksum (l : list Z) : Z := foldr (λ b h, (3 * h + b + 1) mod 65537)%Z 7%Z l.

Definition toy_sign (pk : Octets TOY_KEY_SIZE) (m : list Z) : Octets TOY_SIGNATURE_SIZE :=
  octets_from TOY_SIGNATURE_SIZE (checksum (octets pk ++ m)).

Definition octets_or_error {n} (l : list Z) : result (Octets n) string :=
  match octets_of_list l with Some a => Ok a | None => Err "wrong length" end.

Lemma octets_or_error_octets {n} (a : Octets n) : octets_or_error (octets a) = Ok a.
Proof. unfold octets_or_error. by rewrite octets_of_list_octets. Qed.

Definition toy_crypto : CryptoLib.
Proof.
  refine {|
    MlDsaPublicKey := Octets TOY_KEY_SIZE;
    MlDsaSecretKey := Octets TOY_KEY_SIZE;
    MlDsaSignature := Octets TOY_SIGNATURE_SIZE;
    pk_from_bytes := octets_or_error;
    pk_as_bytes := octets;
    sig_from_bytes := octets_or_error;
    sig_as_bytes := octets;
    blake3_hash l := key_of_bytes (be_split 32 (checksum l));
    ml_dsa_sign sk m := Ok (toy_sign sk m);
    ml_dsa_verify pk m s := Ok (bool_decide (s = toy_sign pk m));
    key_pair pk sk := pk = sk;
  |}.
  - intros k. apply octets_or_error_octets.
  - intros s. apply octets_or_error_octets.
  - intros pk sk m s -> [= <-]. by rewrite bool_decide_eq_true_2.
Defined.

(** ** A signed publication *)

#[local] Existing Instance plain_postcard.
#[local] Existing Instance toy_crypto.

Definition alice_key : MlDsaPublicKey := octets_from TOY_KEY_SIZE 12345.
Definition alice : PeerId := peer_id_from_public_key alice_key.
Definition alice_addr : MultiAddr := from_ipv4 (ipv4 203 0 113 9) 9000.
Definition alice_lan : MultiAddr := from_ipv4 (ipv4 192 168 1 9) 9000.

Definition quic_record (a : MultiAddr) (r : KnownReachability) : TransportAddressRecord :=
  mk_record QUIC_ID (reachability_id r) (to_bytes a).
(** A record of a transport this version does not know. *)
Definition opaque_record : TransportAddressRecord := mk_record 77 2 [1; 2; 3]%Z.

Definition alice_records : list TransportAddressRecord :=
  [quic_record alice_addr KDirect; quic_record alice_lan KRelay; opaque_record].

Definition alice_signed : SignedAddressRecord :=
  {| owner := alice; signed_sequence := 4; signed_records := alice_records;
     public_key := octets alice_key;
     signature := octets (toy_sign alice_key (to_bytes (alice, 4%N, alice_records))) |}.

Lemma sign_then_verify_witness :
  sign (identity_of alice_key alice_key) 4 alice_records = Ok alice_signed ∧
  verify alice_signed = Ok (mk_verified alice_signed) ∧ owner alice_signed = alice.
Proof.
  assert (Hs : sign (identity_of alice_key alice_key) 4 alice_records = Ok alice_signed) by by_decide.
  split; [exact Hs|].
  destruct (sign_then_verify alice_key alice_key 4 alice_records alice_signed) as (Hv & Ho & _);
    [reflexivity|exact Hs|]. split; [exact Hv|exact Ho].
Defined.

Lemma verify_witness :
  verify alice_signed = Ok (mk_verified alice_signed) ∧ record_set_valid alice_signed ∧
  verify {| owner := alice; signed_sequence := 5; signed_records := alice_records;
            public_key := public_key alice_signed; signature := signature alice_signed |} =
    Err "invalid address record signature".
Proof.
  assert (Hv : verify alice_signed = Ok (mk_verified alice_signed)) by by_decide.
  destruct (verify_sound_complete alice_signed (mk_verified alice_signed)) as [Hiff _].
  destruct (proj1 Hiff Hv) as (_ & Hset & _). split_and!; [exact Hv|exact Hset|by_decide].
Defined.

(** The LAN address is retagged, the opaque record contributes no address. *)
Lemma peer_record_witness :
  let n := peer_record (mk_verified alice_signed) (S754_zero false) in
  addresses n = [alice_addr; alice_lan] ∧ address_types n = [Direct; Lan] ∧
  node_peer_id n = alice ∧ dht_node_publish_seq n = 4%N.
Proof.
  cbn zeta.
  destruct (peer_record_sound alice_signed (mk_verified alice_signed) (S754_zero false)) as (Hid & _ & _ & Hseq & _);
    [by_decide|]. split_and!; [by_decide|by_decide|exact Hid|exact Hseq].
Defined.

Lemma transport_record_witness :
  decode_known (quic_record alice_addr KDirect) = Ok (Some alice_addr) ∧
  legacy_reachability (quic_record alice_addr KDirect) = Some Direct ∧
  decode_known opaque_record = Ok None.
Proof.
  destruct (transport_record_roundtrip alice_addr KDirect) as (Hrt & _ & Hopaque).
  destruct (Hrt (quic_record alice_addr KDirect)) as [H1 H2]; [by_decide|].
  split_and!; [exact H1|exact H2|apply Hopaque; reflexivity].
Defined.

Definition unsigned (n : Z) : SignedAddressRecord := mk_signed (key_of_bytes [n]) 1 [opaque_record] [] [].

Lemma bundle_witness :
  match encode_record_bundle [unsigned 1; unsigned 2] with
  | Ok bytes => decode_record_bundle bytes 2 = Ok [unsigned 1; unsigned 2] ∧ is_ok (decode_record_bundle bytes 1) = false
  | Err _ => False
  end.
Proof.
  destruct (encode_record_bundle [unsigned 1; unsigned 2]) as [bytes|e] eqn:He.
  - destruct (bundle_roundtrip [unsigned 1; unsigned 2] bytes 2) as (Hrt & _).
    destruct (bundle_roundtrip [unsigned 1; unsigned 2] bytes 1) as (_ & Hmax & _). split.
    + apply Hrt; [|exact He|reflexivity]. constructor; [by_decide|]. constructor; [by_decide|constructor].
    + destruct (decode_record_bundle bytes 1) as [l|] eqn:Hd; [|reflexivity].
      assert (Hok : (match encode_record_bundle [unsigned 1; unsigned 2] with
        | Ok bytes => is_ok (decode_record_bundle bytes 1) | Err _ => true end) = false) by (vm_compute; reflexivity).
      rewrite He in Hok. rewrite Hd in Hok. discriminate Hok.
  - assert (Hok : is_ok (encode_record_bundle [unsigned 1; unsigned 2]) = true) by (vm_compute; reflexivity).
    rewrite He in Hok. discriminate Hok.
Defined.
End SignedSamples.
