(* ===== verification/Wire.v ===== *)
(** * Wire messages

    The signed envelope every peer-to-peer message travels in:
    [WireMessage], [parse_protocol_message] and [verify_message_signature] of
    [src/network.rs], and the framing functions of [src/transport_handle.rs],
    with the request/response envelope carried in the payload.  Postcard is an
    interface, as is the text form of socket addresses; the signature scheme
    is that of [SignedAddress]. *)

From Stdlib Require Import Ascii.
From stdpp Require Import prelude strings.
From S2P Require Import Prelude Keys Ip Address PeerRecord SignedAddress.

Record WireMessage := mk_wire {
  wire_protocol : string;
  wire_data : list Z;
  wire_from : PeerId;
  wire_timestamp : N;
  wire_user_agent : string;
  wire_public_key : list Z;
  wire_signature : list Z;
}.

Record RequestResponseEnvelope := mk_envelope {
  message_id : string;
  is_response : bool;
  payload : list Z;
}.

(** Postcard on the types of this file: decoding what was encoded gives the
    value back, and the signed tuple has one encoding per value. *)
Class WireCodec := {
  to_stdvec_wire : WireMessage → result (list Z) string;
  from_bytes_wire : list Z → result WireMessage string;
  to_stdvec_tuple : string → list Z → PeerId → N → string → result (list Z) string;
  to_allocvec_envelope : RequestResponseEnvelope → result (list Z) string;
  from_bytes_envelope : list Z → result RequestResponseEnvelope string;
  wire_encode_decode msg bytes : to_stdvec_wire msg = Ok bytes → from_bytes_wire bytes = Ok msg;
  tuple_injective p d f t u p' d' f' t' u' bytes :
    to_stdvec_tuple p d f t u = Ok bytes → to_stdvec_tuple p' d' f' t' u' = Ok bytes →
    p = p' ∧ d = d' ∧ f = f' ∧ t = t' ∧ u = u';
  envelope_encode_decode e bytes : to_allocvec_envelope e = Ok bytes → from_bytes_envelope bytes = Ok e;
}.

(** [SocketAddr]'s [Display] and [FromStr]. *)
Class SocketText := {
  socket_to_string : SocketAddr → string;
  socket_parse : string → option SocketAddr;
  socket_parse_display sa : socket_parse (socket_to_string sa) = Some sa;
}.

Section wire.
Context `{TL : TransportLib} `{CL : CryptoLib} `{WC : WireCodec} `{ST : SocketText}.

Inductive P2PEvent :=
  | Message (topic : string) (source : option PeerId) (transport_source : option MultiAddr) (timestamp : N) (data : list Z)
  | PeerConnected (peer : PeerId) (user_agent : string)
  | PeerDisconnected (peer : PeerId).

Record ParsedMessage := mk_parsed {
  event : P2PEvent;
  authenticated_node_id : option PeerId;
  user_agent : string;
  payload_len : nat;
}.

(** ** Receiving *)

Definition verify_message_signature (msg : WireMessage) : result PeerId string :=
  match pk_from_bytes (wire_public_key msg) with
  | Err e => Err ("invalid public key: " +:+ e)
  | Ok pubkey =>
      let peer_id := peer_id_from_public_key pubkey in
      if negb (bool_decide (wire_from msg = peer_id)) then Err "from field mismatch"
      else
        match to_stdvec_tuple (wire_protocol msg) (wire_data msg) (wire_from msg) (wire_timestamp msg) (wire_user_agent msg) with
        | Err e => Err ("failed to serialize signable bytes: " +:+ e)
        | Ok signable =>
            match sig_from_bytes (wire_signature msg) with
            | Err e => Err ("invalid signature: " +:+ e)
            | Ok sig =>
                match ml_dsa_verify pubkey signable sig with
                | Err e => Err ("verification error: " +:+ e)
                | Ok valid => if valid : bool then Ok peer_id else Err "signature is invalid"
                end
            end
        end
  end.

Definition parse_protocol_message (bytes : list Z) (source : string) : option ParsedMessage :=
  match from_bytes_wire bytes with
  | Err _ => None
  | Ok msg =>
      let transport_source := quic <$> socket_parse source in
      let parsed (authenticated : option PeerId) :=
        mk_parsed (Message (wire_protocol msg) authenticated transport_source (wire_timestamp msg) (wire_data msg))
          authenticated (wire_user_agent msg) (length (wire_data msg)) in
      if negb (Nat.eqb (length (wire_signature msg)) 0) then
        match verify_message_signature msg with
        | Ok peer_id => Some (parsed (Some peer_id))
        | Err _ => None
        end
      else Some (parsed None)
  end.

(** ** Sending *)

Inductive FrameError := SystemTime | SignableFailed (e : string) | SigningFailed (e : string) | FrameFailed (e : string).

(** [SystemTime::now] since the epoch, in seconds; [None] before the epoch. *)
Definition current_timestamp_secs (clock : option N) : result N FrameError :=
  match clock with Some secs => Ok secs | None => Err SystemTime end.

Definition compute_signable_bytes (protocol : string) (data : list Z) (from : PeerId) (timestamp : N) (agent : string)
    : result (list Z) FrameError :=
  match to_stdvec_tuple protocol data from timestamp agent with Ok b => Ok b | Err e => Err (SignableFailed e) end.

Definition sign_wire_message (msg : WireMessage) (identity : NodeIdentity) : result WireMessage FrameError :=
  match compute_signable_bytes (wire_protocol msg) (wire_data msg) (wire_from msg) (wire_timestamp msg) (wire_user_agent msg) with
  | Err e => Err e
  | Ok signable =>
      match ml_dsa_sign (secret_key identity) signable with
      | Err e => Err (SigningFailed e)
      | Ok sig => Ok (mk_wire (wire_protocol msg) (wire_data msg) (wire_from msg) (wire_timestamp msg) (wire_user_agent msg)
                        (pk_as_bytes (identity_public_key identity)) (sig_as_bytes sig))
      end
  end.

Definition serialize_wire_message (msg : WireMessage) : result (list Z) FrameError :=
  match to_stdvec_wire msg with Ok b => Ok b | Err e => Err (FrameFailed e) end.

Definition frame (identity : NodeIdentity) (agent protocol : string) (data : list Z) (clock : option N)
    : result (list Z) FrameError :=
  match current_timestamp_secs clock with
  | Err e => Err e
  | Ok timestamp =>
      match sign_wire_message (mk_wire protocol data (identity_peer_id identity) timestamp agent [] []) identity with
      | Err e => Err e
      | Ok msg => serialize_wire_message msg
      end
  end.

(** The borrowing view [WireMessageRef] serialises to the same bytes. *)
Definition create_protocol_message (identity : NodeIdentity) (agent protocol : string) (data : list Z) (clock : option N)
    : result (list Z) FrameError := frame identity agent protocol data clock.

Definition IDENTITY_ANNOUNCE_PROTOCOL : string := "/saorsa/identity/1.0".

Definition create_identity_announce_bytes (identity : NodeIdentity) (agent : string) (clock : option N)
    : result (list Z) FrameError := frame identity agent IDENTITY_ANNOUNCE_PROTOCOL [] clock.

(** Empty names and names with a slash, a backslash or a NUL. *)
Definition valid_protocol_name (protocol : string) : bool :=
  negb (String.eqb protocol "") &&
  negb (contains "/"%char protocol || contains (Ascii.ascii_of_nat 92) protocol || contains (Ascii.ascii_of_nat 0) protocol).

Definition parse_request_envelope (data : list Z) : option (string * bool * list Z) :=
  match from_bytes_envelope data with
  | Ok e => Some (message_id e, is_response e, payload e)
  | Err _ => None
  end.

(** ** What arrives is what was sent *)

(** An ML-DSA-65 signature has 3309 bytes. *)
Hypothesis signature_nonempty : ∀ sig, sig_as_bytes sig ≠ [].

Lemma signed_message_verifies msg pk sk signed :
  key_pair pk sk → wire_from msg = peer_id_from_public_key pk → sign_wire_message msg (identity_of pk sk) = Ok signed →
  verify_message_signature signed = Ok (wire_from msg) ∧ wire_signature signed ≠ [] ∧
  wire_protocol signed = wire_protocol msg ∧ wire_data signed = wire_data msg ∧ wire_timestamp signed = wire_timestamp msg ∧
  wire_user_agent signed = wire_user_agent msg.
Proof.
  intros Hkeys Hfrom. unfold sign_wire_message, compute_signable_bytes.
  destruct (to_stdvec_tuple _ _ _ _ _) as [signable|] eqn:Hs; [|done]. cbn [secret_key identity_of identity_public_key].
  destruct (ml_dsa_sign sk signable) as [sig|] eqn:Hsig; [|done]. intros [= <-].
  unfold verify_message_signature. cbn [wire_public_key wire_from wire_signature wire_protocol wire_data wire_timestamp wire_user_agent].
  rewrite pk_roundtrip, Hs, sig_roundtrip, (sign_verify _ _ _ _ Hkeys Hsig). rewrite bool_decide_true by done. cbn [negb].
  split_and!; [by rewrite Hfrom|apply signature_nonempty|done..].
Qed.

Lemma frame_parses pk sk agent protocol data clock bytes source :
  key_pair pk sk → frame (identity_of pk sk) agent protocol data clock = Ok bytes →
  ∃ timestamp, clock = Some timestamp ∧
    parse_protocol_message bytes source =
      Some (mk_parsed (Message protocol (Some (peer_id_from_public_key pk)) (quic <$> socket_parse source) timestamp data)
              (Some (peer_id_from_public_key pk)) agent (length data)).
Proof.
  intros Hkeys. unfold frame, current_timestamp_secs. destruct clock as [timestamp|]; [|done].
  destruct (sign_wire_message _ _) as [msg|] eqn:Hmsg; [|done].
  unfold serialize_wire_message. destruct (to_stdvec_wire msg) as [b|] eqn:Hb; [|done]. intros [= <-].
  exists timestamp. split; [done|]. apply (signed_message_verifies _ pk sk msg Hkeys) in Hmsg; [|done].
  cbn [wire_from wire_protocol wire_data wire_timestamp wire_user_agent] in Hmsg.
  destruct Hmsg as (Hv & Hne & Hp & Hd & Ht & Hu).
  unfold parse_protocol_message. rewrite (wire_encode_decode _ _ Hb), Hv, Hp, Hd, Ht, Hu. cbv zeta.
  destruct (wire_signature msg); [done|]. done.
Qed.

(** C16: messages arrive as they were sent.  Whatever a node frames, an ordinary message or its identity announcement, the
    receiver decodes to the same protocol, payload, timestamp and user agent, authenticated as the sender. *)
Theorem wire_roundtrip pk sk agent protocol data clock bytes source :
  key_pair pk sk →
  create_protocol_message (identity_of pk sk) agent protocol data clock = Ok bytes ∨
  create_identity_announce_bytes (identity_of pk sk) agent clock = Ok bytes ∧ protocol = IDENTITY_ANNOUNCE_PROTOCOL ∧ data = [] →
  ∃ timestamp, clock = Some timestamp ∧
    parse_protocol_message bytes source =
      Some (mk_parsed (Message protocol (Some (peer_id_from_public_key pk)) (quic <$> socket_parse source) timestamp data)
              (Some (peer_id_from_public_key pk)) agent (length data)).
Proof using signature_nonempty.
  intros Hkeys [H|(H & -> & ->)]; by eapply frame_parses.
Qed.

Lemma verify_inv msg p :
  verify_message_signature msg = Ok p →
  ∃ pk sig signable, pk_from_bytes (wire_public_key msg) = Ok pk ∧ p = peer_id_from_public_key pk ∧ wire_from msg = p ∧
    to_stdvec_tuple (wire_protocol msg) (wire_data msg) p (wire_timestamp msg) (wire_user_agent msg) = Ok signable ∧
    ml_dsa_verify pk signable sig = Ok true.
Proof.
  unfold verify_message_signature. destruct (pk_from_bytes _) as [pk|]; [|done]. cbv zeta.
  case_bool_decide as Hfrom; cbn [negb]; [|done]. destruct (to_stdvec_tuple _ _ _ _ _) as [signable|] eqn:Hs; [|done].
  destruct (sig_from_bytes _) as [sig|]; [|done]. destruct (ml_dsa_verify _ _ _) as [[]|] eqn:Hv; [|done..].
  intros [= <-]. rewrite Hfrom in Hs. by exists pk, sig, signable.
Qed.

(** C15: messages cannot be forged.  Suppose the key behind an identity verifies only bytes that its owner signed.  Then a
    message that is delivered as coming from that identity carries exactly the protocol, payload, timestamp and user agent
    its owner signed, under the owner's own name; no other content has the same signed bytes. *)
Theorem wire_authenticity bytes source parsed p (signed_by_owner : list Z → Prop) :
  (∀ pk m sig, peer_id_from_public_key pk = p → ml_dsa_verify pk m sig = Ok true → signed_by_owner m) →
  parse_protocol_message bytes source = Some parsed → authenticated_node_id parsed = Some p →
  ∃ topic timestamp data signable,
    event parsed = Message topic (Some p) (quic <$> socket_parse source) timestamp data ∧
    signed_by_owner signable ∧ to_stdvec_tuple topic data p timestamp (user_agent parsed) = Ok signable ∧
    ∀ topic' data' p' timestamp' agent', to_stdvec_tuple topic' data' p' timestamp' agent' = Ok signable →
      topic' = topic ∧ data' = data ∧ p' = p ∧ timestamp' = timestamp ∧ agent' = user_agent parsed.
Proof.
  intros Howner. unfold parse_protocol_message. destruct (from_bytes_wire bytes) as [msg|]; [|done]. cbv zeta.
  destruct (negb _); [|by intros [= <-]]. destruct (verify_message_signature msg) as [q|] eqn:Hv; [|done].
  intros [= <-] [= ->]. destruct (verify_inv msg p Hv) as (pk & sig & signable & _ & Hp & _ & Hs & Hok).
  exists (wire_protocol msg), (wire_timestamp msg), (wire_data msg), signable. split_and!; [done|by eapply Howner|done|].
  intros topic' data' p' timestamp' agent' Hs'. destruct (tuple_injective _ _ _ _ _ _ _ _ _ _ _ Hs' Hs) as (? & ? & ? & ? & ?).
  done.
Qed.
End wire.
