(* ===== verification/Channels.v ===== *)
(** * Peers and channels

    The registry of [src/transport_handle.rs]: which transport channels are
    open, which authenticated peers speak over which of them, and the
    [PeerConnected] and [PeerDisconnected] events the rest of the node follows.
    The registry is five concurrent maps; its operations, run by the accept
    loop, the lifecycle monitor, the message consumers and the callers, are
    [task]s whose steps are the map operations.  [broadcasts] and [closed]
    are histories: the events sent and the connections closed. *)

From stdpp Require Import prelude gmap strings.
From S2P Require Import Prelude Keys Ip Address PeerRecord SignedAddress Tasks Wire.

Inductive ConnectionStatus := Connecting | Connected | Disconnecting | Disconnected | Failed (reason : string).

Section channels.
Context `{TL : TransportLib} `{CL : CryptoLib} `{WC : WireCodec} `{ST : SocketText} `{HO : HashOrder}.
Context (normalize_socket_addr : SocketAddr → SocketAddr).

Record PeerInfo := mk_peer_info {
  channel_id : string;
  info_addresses : list MultiAddr;
  connected_at : Z;
  last_seen : Z;
  status : ConnectionStatus;
  protocols : list string;
  heartbeat_count : N;
}.

Record Registry := mk_registry {
  peers : gmap string PeerInfo;
  active_connections : gset string;
  peer_to_channel : gmap PeerId (gset string);
  channel_to_peers : gmap string (gset PeerId);
  peer_user_agents : gmap PeerId string;
  broadcasts : list P2PEvent;
  closed : list SocketAddr;
}.

Implicit Types (s : Registry) (c : string) (p : PeerId).

Definition registry_new : Registry := mk_registry ∅ ∅ ∅ ∅ ∅ [] [].

Definition with_peers s (m : gmap string PeerInfo) : Registry :=
  mk_registry m (active_connections s) (peer_to_channel s) (channel_to_peers s) (peer_user_agents s) (broadcasts s) (closed s).
Definition with_active s (a : gset string) : Registry :=
  mk_registry (peers s) a (peer_to_channel s) (channel_to_peers s) (peer_user_agents s) (broadcasts s) (closed s).
Definition with_peer_to_channel s (m : gmap PeerId (gset string)) (agents : gmap PeerId string) : Registry :=
  mk_registry (peers s) (active_connections s) m (channel_to_peers s) agents (broadcasts s) (closed s).
Definition with_channel_to_peers s (m : gmap string (gset PeerId)) : Registry :=
  mk_registry (peers s) (active_connections s) (peer_to_channel s) m (peer_user_agents s) (broadcasts s) (closed s).

Definition drop_active c s : Registry := with_active s (active_connections s ∖ {[c]}).
Definition drop_peer_info c s : Registry := with_peers s (delete c (peers s)).
Definition broadcast (e : P2PEvent) s : Registry :=
  mk_registry (peers s) (active_connections s) (peer_to_channel s) (channel_to_peers s) (peer_user_agents s)
    (broadcasts s ++ [e]) (closed s).
Definition disconnect_peer_by_addr (a : SocketAddr) s : Registry :=
  mk_registry (peers s) (active_connections s) (peer_to_channel s) (channel_to_peers s) (peer_user_agents s)
    (broadcasts s) (closed s ++ [a]).

(** One map operation and what follows. *)
Definition step (f : Registry → Registry) (t : task Registry) : task Registry := Act f (λ _, t).

(** ** Queries *)

Definition channels_of s p : gset string := default ∅ (peer_to_channel s !! p).
Definition peers_on s c : gset PeerId := default ∅ (channel_to_peers s !! c).

Definition connected_peers s : list PeerId := fst <$> map_iter (peer_to_channel s).
Definition peer_count s : nat := size (peer_to_channel s).
Definition peer_user_agent s p : option string := peer_user_agents s !! p.
Definition is_peer_connected s p : bool := bool_decide (is_Some (peer_to_channel s !! p)).
Definition is_connection_active s c : bool := bool_decide (c ∈ active_connections s).
Definition peer_info s p : option PeerInfo :=
  channel ← (peer_to_channel s !! p) ≫= (λ chs, head (set_iter chs)); peers s !! channel.
Definition channels_for_peer s p : list string := from_option set_iter [] (peer_to_channel s !! p).
Definition peers_on_channel s c : list PeerId := from_option set_iter [] (channel_to_peers s !! c).

Definition canonical_channel_id (a : SocketAddr) : string := socket_to_string (normalize_socket_addr a).

(** [peer_id_for_addr]; [dual_stack_alternate] belongs to the transport crate. *)
Definition peer_id_for_addr (dual_stack_alternate : SocketAddr → option SocketAddr) s (a : SocketAddr) : option PeerId :=
  let n := normalize_socket_addr a in
  match (channel_to_peers s !! socket_to_string n) ≫= (λ ps, head (set_iter ps)) with
  | Some p => Some p
  | None =>
      alt ← dual_stack_alternate n;
      (channel_to_peers s !! socket_to_string alt) ≫= (λ ps, head (set_iter ps))
  end.

Definition get_channel_id_by_address s (a : MultiAddr) : option string :=
  target ← socket_addr a;
  fst <$> find (λ e : string * PeerInfo, existsb (λ x, bool_decide (socket_addr x = Some target)) (info_addresses e.2))
            (map_iter (peers s)).

Definition list_active_connections s : list (string * list MultiAddr) :=
  (λ c, (c, from_option info_addresses [] (peers s !! c))) <$> set_iter (active_connections s).

(** ** Registration *)

Definition upserted (peers : gmap string PeerInfo) c (remote : SocketAddr) (refresh_connected_at : bool) (now : Z)
    : gmap string PeerInfo :=
  let address := quic (normalize_socket_addr remote) in
  match peers !! c with
  | Some i => <[c := mk_peer_info (channel_id i)
                       (if bool_decide (address ∈ info_addresses i) then info_addresses i else info_addresses i ++ [address])
                       (if refresh_connected_at then now else connected_at i) (last_seen i) Connected (protocols i)
                       (heartbeat_count i)]> peers
  | None => <[c := mk_peer_info c [address] now now Connected [] 0%N]> peers
  end.

Definition upsert_connected_channel c (remote : SocketAddr) (refresh_connected_at : bool) (now : Z) (t : task Registry)
    : task Registry :=
  step (λ s, with_active s ({[c]} ∪ active_connections s))
    (step (λ s, with_peers s (upserted (peers s) c remote refresh_connected_at now)) t).

(** The entry of [peer_to_channel], with the agent of a new peer. *)
Definition map_peer p c (agent : string) s : Registry :=
  match peer_to_channel s !! p with
  | Some chs => with_peer_to_channel s (<[p := {[c]} ∪ chs]> (peer_to_channel s)) (peer_user_agents s)
  | None => with_peer_to_channel s (<[p := {[c]}]> (peer_to_channel s)) (<[p := agent]> (peer_user_agents s))
  end.

Definition index_channel c p s : Registry :=
  with_channel_to_peers s (<[c := {[p]} ∪ peers_on s c]> (channel_to_peers s)).

Definition register_authenticated_peer_channel c (remote : SocketAddr) p (agent : string) (now : Z) : task Registry :=
  upsert_connected_channel c remote false now
    (Act (map_peer p c agent) (λ s,
       let is_new_peer := negb (is_peer_connected s p) in
       let inserted := is_new_peer || negb (bool_decide (c ∈ channels_of s p)) in
       let announce := if is_new_peer then step (broadcast (PeerConnected p agent)) Finished else Finished in
       if inserted then step (index_channel c p) announce else announce)).

(** ** Removal *)

(** One peer loses the channel; its entry and its agent go with the last one. *)
Definition scrub_peer c p s : Registry :=
  match peer_to_channel s !! p with
  | Some chs =>
      if bool_decide (chs ∖ {[c]} = ∅)
      then with_peer_to_channel s (delete p (peer_to_channel s)) (delete p (peer_user_agents s))
      else with_peer_to_channel s (<[p := chs ∖ {[c]}]> (peer_to_channel s)) (peer_user_agents s)
  | None => s
  end.

Definition became_empty c s p : bool :=
  match peer_to_channel s !! p with Some chs => bool_decide (chs ∖ {[c]} = ∅) | None => false end.

Fixpoint scrub_each c (ps : list PeerId) (t : task Registry) : task Registry :=
  match ps with
  | [] => t
  | p :: rest => Act (scrub_peer c p) (λ s,
      if became_empty c s p then step (broadcast (PeerDisconnected p)) (scrub_each c rest t) else scrub_each c rest t)
  end.

Definition remove_channel_mappings c (t : task Registry) : task Registry :=
  Act (λ s, with_channel_to_peers s (delete c (channel_to_peers s))) (λ s,
    match channel_to_peers s !! c with
    | Some app_peers => scrub_each c (set_iter app_peers) t
    | None => t
    end).

Definition remove_channel c : task Registry :=
  step (drop_active c) (remove_channel_mappings c (step (drop_peer_info c) Finished)).

Definition close_channel c (t : task Registry) : task Registry :=
  match socket_parse c with
  | Some a => step (disconnect_peer_by_addr a) t
  | None => t
  end.

Definition disconnect_channel c : task Registry :=
  close_channel c (step (drop_active c) (remove_channel_mappings c (step (drop_peer_info c) Finished))).

(** [Lost] and [Failed] in the lifecycle monitor. *)
Definition connection_lost (remote : SocketAddr) : task Registry :=
  let c := canonical_channel_id remote in
  step (drop_active c) (step (drop_peer_info c) (remove_channel_mappings c Finished)).

Definition connection_established (remote : SocketAddr) (now : Z) : task Registry :=
  upsert_connected_channel (canonical_channel_id remote) remote true now Finished.

(** A peer leaves one of its channels; the entry goes with the last peer. *)
Definition leave_channel p c s : Registry :=
  match channel_to_peers s !! c with
  | Some ps =>
      if bool_decide (ps ∖ {[p]} = ∅) then with_channel_to_peers s (delete c (channel_to_peers s))
      else with_channel_to_peers s (<[c := ps ∖ {[p]}]> (channel_to_peers s))
  | None => s
  end.

Definition orphaned p s c : bool :=
  match channel_to_peers s !! c with Some ps => bool_decide (ps ∖ {[p]} = ∅) | None => false end.

Fixpoint leave_each p (cs orphans : list string) (next : list string → task Registry) : task Registry :=
  match cs with
  | [] => next orphans
  | c :: rest => Act (leave_channel p c) (λ s, leave_each p rest (if orphaned p s c then orphans ++ [c] else orphans) next)
  end.

Fixpoint close_each (cs : list string) : task Registry :=
  match cs with
  | [] => Finished
  | c :: rest => close_channel c (step (drop_active c) (step (drop_peer_info c) (close_each rest)))
  end.

Definition forget_peer p s : Registry :=
  match peer_to_channel s !! p with
  | Some _ => with_peer_to_channel s (delete p (peer_to_channel s)) (delete p (peer_user_agents s))
  | None => s
  end.

Definition disconnect_peer p : task Registry :=
  Act (forget_peer p) (λ s,
    match peer_to_channel s !! p with
    | None => Finished
    | Some chs => leave_each p (set_iter chs) [] (λ orphans, step (broadcast (PeerDisconnected p)) (close_each orphans))
    end).

Fixpoint disconnect_each (ps : list PeerId) : task Registry :=
  match ps with
  | [] => Finished
  | p :: rest => and_then (disconnect_peer p) (disconnect_each rest)
  end.

Definition disconnect_all_peers : task Registry := Act (λ s, s) (λ s, disconnect_each (connected_peers s)).

(** ** Connections *)

(** The accept loop; [allowed] is the rate limiter's answer. *)
Definition register_new_channel c (remote : MultiAddr) (now : Z) : PeerInfo :=
  mk_peer_info c [remote] now now Connected ["p2p-core/1.0.0"] 0%N.

Definition accept_connection (remote : SocketAddr) (allowed : bool) (now : Z) : task Registry :=
  if allowed then
    let c := canonical_channel_id remote in
    step (λ s, with_peers s (<[c := register_new_channel c (quic remote) now]> (peers s)))
      (step (λ s, with_active s ({[c]} ∪ active_connections s)) Finished)
  else Finished.

Inductive ConnectError := NotDialable | ConnectionFailed | SelfConnection.

(** [connect_peer_inner_authenticated] after the dial: [dialed] is the remote
    socket the transport connected to, [listen] the node's own addresses. *)
Definition connect_result (address : MultiAddr) (listen : list MultiAddr) (dialed : option SocketAddr) : result string ConnectError :=
  match dialable_socket_addr address with
  | None => Err NotDialable
  | Some _ =>
      match dialed with
      | None => Err ConnectionFailed
      | Some a => if existsb (λ l, bool_decide (socket_addr l = Some a)) listen then Err SelfConnection
                  else Ok (canonical_channel_id a)
      end
  end.

Definition connect_peer (address : MultiAddr) (listen : list MultiAddr) (dialed : option SocketAddr) (now : Z) : task Registry :=
  match connect_result address listen dialed, dialed with
  | Ok c, _ =>
      step (λ s, with_peers s (<[c := mk_peer_info c [address] now now Connected ["p2p-foundation/1.0"] 0%N]> (peers s)))
        (step (λ s, with_active s ({[c]} ∪ active_connections s)) Finished)
  | Err SelfConnection, Some a => step (disconnect_peer_by_addr a) Finished
  | Err _, _ => Finished
  end.

(** What [send_on_channel] does to the registry around the send. *)
Definition send_registered c (now : Z) (t : task Registry) : task Registry :=
  step (λ s, with_peers s (match peers s !! c with
                           | Some _ => peers s
                           | None => <[c := mk_peer_info c (from_option (λ a, [quic a]) [] (socket_parse c)) now now Connected [] 0%N]> (peers s)
                           end))
    (Act (λ s, s) (λ s, if is_connection_active s c then t
                        else step (λ s, with_active s ({[c]} ∪ active_connections s)) t)).

Definition send_failed c : task Registry := step (drop_active c) Finished.

(** Everything that works on the registry. *)
Inductive RegistryOp :=
  | Register (remote : SocketAddr) (peer : PeerId) (agent : string) (now : Z)
  | RemoveChannel (channel : string)
  | DisconnectChannel (channel : string)
  | ConnectionLost (remote : SocketAddr)
  | ConnectionEstablished (remote : SocketAddr) (now : Z)
  | DisconnectPeer (peer : PeerId)
  | DisconnectAll
  | Accept (remote : SocketAddr) (allowed : bool) (now : Z)
  | Connect (address : MultiAddr) (listen : list MultiAddr) (dialed : option SocketAddr) (now : Z)
  | SendOn (channel : string) (delivered : bool) (now : Z).

Definition operation (o : RegistryOp) : task Registry :=
  match o with
  | Register remote p agent now => register_authenticated_peer_channel (canonical_channel_id remote) remote p agent now
  | RemoveChannel c => remove_channel c
  | DisconnectChannel c => disconnect_channel c
  | ConnectionLost remote => connection_lost remote
  | ConnectionEstablished remote now => connection_established remote now
  | DisconnectPeer p => disconnect_peer p
  | DisconnectAll => disconnect_all_peers
  | Accept remote allowed now => accept_connection remote allowed now
  | Connect address listen dialed now => connect_peer address listen dialed now
  | SendOn c delivered now => send_registered c now (if delivered then Finished else send_failed c)
  end.

Definition operations (t : task Registry) : Prop := ∃ o, t = operation o.

Definition registry_run (ops : list RegistryOp) : Registry := foldl (λ s o, run (operation o) s) registry_new ops.

(** ** Under every interleaving *)

Record agents_inv s : Prop := {
  agents_dom : dom (peer_user_agents s) = dom (peer_to_channel s);
  channels_nonempty p chs : peer_to_channel s !! p = Some chs → chs ≠ ∅;
  peers_nonempty c ps : channel_to_peers s !! c = Some ps → ps ≠ ∅;
}.

Definition keeps_agents s s' : Prop := agents_inv s → agents_inv s'.

(** Steps on the other maps. *)
Lemma other_maps s s' :
  peer_to_channel s' = peer_to_channel s → channel_to_peers s' = channel_to_peers s → peer_user_agents s' = peer_user_agents s →
  keeps_agents s s'.
Proof. intros H1 H2 H3 [Ha Hb Hc]. split; [by rewrite H1, H3|by rewrite H1|by rewrite H2]. Qed.

Lemma map_peer_keeping p c agent s : keeps_agents s (map_peer p c agent s).
Proof.
  intros [Ha Hb Hc]. unfold map_peer. destruct (peer_to_channel s !! p) as [chs|] eqn:Hp.
  - split; cbn; [|intros p' chs'|done].
    + rewrite dom_insert_lookup_L by done. done.
    + rewrite lookup_insert_Some. intros [[<- <-]|[_ ?]]; [set_solver|by eapply Hb].
  - split; cbn; [|intros p' chs'|done].
    + by rewrite !dom_insert_L, Ha.
    + rewrite lookup_insert_Some. intros [[<- <-]|[_ ?]]; [set_solver|by eapply Hb].
Qed.

Lemma index_channel_keeping c p s : keeps_agents s (index_channel c p s).
Proof.
  intros [Ha Hb Hc]. split; cbn; [done|done|]. intros c' ps.
  rewrite lookup_insert_Some. intros [[<- <-]|[_ ?]]; [set_solver|by eapply Hc].
Qed.

Lemma scrub_peer_keeping c p s : keeps_agents s (scrub_peer c p s).
Proof.
  intros [Ha Hb Hc]. unfold scrub_peer. destruct (peer_to_channel s !! p) as [chs|] eqn:Hp; [|done].
  case_bool_decide as He; split; cbn; try done.
  - by rewrite !dom_delete_L, Ha.
  - intros p' chs' [_ ?]%lookup_delete_Some. by eapply Hb.
  - by rewrite dom_insert_lookup_L.
  - intros p' chs'. rewrite lookup_insert_Some. intros [[<- <-]|[_ ?]]; [done|by eapply Hb].
Qed.

Lemma leave_channel_keeping p c s : keeps_agents s (leave_channel p c s).
Proof.
  intros [Ha Hb Hc]. unfold leave_channel. destruct (channel_to_peers s !! c) as [ps|] eqn:Hp; [|done].
  case_bool_decide as He; split; cbn; try done.
  - intros c' ps' [_ ?]%lookup_delete_Some. by eapply Hc.
  - intros c' ps'. rewrite lookup_insert_Some. intros [[<- <-]|[_ ?]]; [done|by eapply Hc].
Qed.

Lemma forget_peer_keeping p s : keeps_agents s (forget_peer p s).
Proof.
  intros [Ha Hb Hc]. unfold forget_peer. destruct (peer_to_channel s !! p); [|done]. split; cbn; [|intros p' chs'|done].
  - by rewrite !dom_delete_L, Ha.
  - intros [_ ?]%lookup_delete_Some. by eapply Hb.
Qed.

(** The map operations the registry's operations consist of. *)
Record primitive_steps (P : Registry → Registry → Prop) : Prop := {
  prim_read s : P s s;
  prim_peers s m : P s (with_peers s m);
  prim_active s a : P s (with_active s a);
  prim_map p c agent s : P s (map_peer p c agent s);
  prim_index c p s : P s (index_channel c p s);
  prim_scrub c p s : P s (scrub_peer c p s);
  prim_unmap c s : P s (with_channel_to_peers s (delete c (channel_to_peers s)));
  prim_leave p c s : P s (leave_channel p c s);
  prim_forget p s : P s (forget_peer p s);
  prim_connected p agent s : P s (broadcast (PeerConnected p agent) s);
  prim_disconnected p s : P s (broadcast (PeerDisconnected p) s);
  prim_close a s : P s (disconnect_peer_by_addr a s);
}.

Section primitive.
Context (P : Registry → Registry → Prop) (HP : primitive_steps P).

Lemma step_all f t : (∀ s, P s (f s)) → all_steps P t → all_steps P (step f t).
Proof using Type. intros Hf Ht s. split; [apply Hf|done]. Qed.

Lemma scrub_each_all c t ps : all_steps P t → all_steps P (scrub_each c ps t).
Proof using HP.
  intros Ht. induction ps as [|p rest IH]; [done|]. intros s. split; [by apply prim_scrub|].
  destruct (became_empty c s p); [apply step_all; [by apply prim_disconnected|done]|done].
Qed.

Lemma remove_mappings_all c t : all_steps P t → all_steps P (remove_channel_mappings c t).
Proof using HP.
  intros Ht s. split; [by apply prim_unmap|]. destruct (channel_to_peers s !! c); [by apply scrub_each_all|done].
Qed.

Lemma close_channel_all c t : all_steps P t → all_steps P (close_channel c t).
Proof using HP.
  intros Ht. unfold close_channel. destruct (socket_parse c); [apply step_all; [by apply prim_close|done]|done].
Qed.

Lemma drop_active_all c t : all_steps P t → all_steps P (step (drop_active c) t).
Proof using HP. intros Ht. apply step_all; [|done]. intros s. exact (prim_active P HP s _). Qed.

Lemma drop_info_all c t : all_steps P t → all_steps P (step (drop_peer_info c) t).
Proof using HP. intros Ht. apply step_all; [|done]. intros s. exact (prim_peers P HP s _). Qed.

Lemma close_each_all cs : all_steps P (close_each cs).
Proof using HP. induction cs as [|c rest IH]; [done|]. by apply close_channel_all, drop_active_all, drop_info_all. Qed.

Lemma disconnect_peer_all p : all_steps P (disconnect_peer p).
Proof using HP.
  intros s. split; [by apply prim_forget|]. destruct (peer_to_channel s !! p) as [chs|]; [|done].
  generalize (@nil string). induction (set_iter chs) as [|c rest IH]; intros orphans; cbn [leave_each].
  - apply step_all; [by apply prim_disconnected|apply close_each_all].
  - intros s'. split; [by apply prim_leave|apply IH].
Qed.

Lemma register_all c remote p agent now : all_steps P (register_authenticated_peer_channel c remote p agent now).
Proof using HP.
  apply step_all, step_all; [by intros; apply prim_active|by intros; apply prim_peers|]. intros s. split; [by apply prim_map|].
  cbv zeta.
  assert (Hannounce : all_steps P (if negb (is_peer_connected s p) then step (broadcast (PeerConnected p agent)) Finished else Finished))
    by (destruct (negb _); [apply step_all; [by apply prim_connected|done]|done]).
  destruct (_ || _); [|done]. apply step_all; [by apply prim_index|done].
Qed.

Lemma operation_all o : all_steps P (operation o).
Proof using HP.
  assert (Hboth : ∀ f g, all_steps P (step (λ s, with_peers s (f s)) (step (λ s, with_active s (g s)) Finished))).
  { intros f g. apply step_all, step_all; [by intros; apply prim_peers|by intros; apply prim_active|done]. }
  destruct o as [remote p agent now|c|c|remote|remote now|p| |remote allowed now|address listen dialed now|c delivered now];
    cbn [operation].
  - apply register_all.
  - by apply drop_active_all, remove_mappings_all, drop_info_all.
  - by apply close_channel_all, drop_active_all, remove_mappings_all, drop_info_all.
  - by apply drop_active_all, drop_info_all, remove_mappings_all.
  - apply step_all, step_all; [by intros; apply prim_active|by intros; apply prim_peers|done].
  - apply disconnect_peer_all.
  - intros s. split; [by apply prim_read|]. induction (connected_peers s) as [|p rest IH]; [done|].
    cbn [disconnect_each]. generalize (disconnect_peer_all p). generalize (disconnect_peer p).
    intros t Ht. induction t as [|f k IHt]; [done|]. intros s'. destruct (Ht s'). split; [done|by apply IHt].
  - unfold accept_connection. destruct allowed; [apply Hboth|done].
  - unfold connect_peer. destruct (connect_result _ _ _) as [c|[]], dialed; try done; try apply Hboth.
    apply step_all; [by apply prim_close|done].
  - apply step_all; [by intros; apply prim_peers|]. intros s. split; [by apply prim_read|].
    assert (Hend : all_steps P (if delivered then Finished else send_failed c)) by (destruct delivered; [done|by apply drop_active_all]).
    destruct (is_connection_active s c); [done|]. apply step_all; [by intros; apply prim_active|done].
Qed.
End primitive.

Lemma keeps_agents_primitive : primitive_steps keeps_agents.
Proof.
  split; intros; try by apply other_maps.
  - apply map_peer_keeping.
  - apply index_channel_keeping.
  - apply scrub_peer_keeping.
  - intros [Ha Hb Hc]. split; cbn; [done..|]. intros c' ps [_ ?]%lookup_delete_Some. by eapply Hc.
  - apply leave_channel_keeping.
  - apply forget_peer_keeping.
Qed.

(** A connected peer always has its user agent.  However the accept loop, the lifecycle monitor, the message consumers
    and the callers interleave, a peer is connected exactly when its user agent is recorded, and neither index keeps an
    entry without members. *)
Theorem connected_peer_has_agent s p :
  reachable operations registry_new s →
  (is_peer_connected s p = true ↔ is_Some (peer_user_agent s p)) ∧
  (is_peer_connected s p = true ↔ p ∈ connected_peers s) ∧
  (is_peer_connected s p = true → channels_for_peer s p ≠ []) ∧
  ∀ c ps, channel_to_peers s !! c = Some ps → ps ≠ ∅.
Proof.
  intros Hr. assert (Hi : agents_inv s).
  { refine (proj1 (reachable_safe agents_inv (λ _ _, True) operations _ registry_new s _ Hr)); [by split| |by split].
    intros t s' [o ->] _. eapply all_steps_safe; [|apply (operation_all _ keeps_agents_primitive)]. intros s1 s2 H Hi. split; [by apply H|done]. }
  unfold is_peer_connected. rewrite bool_decide_eq_true. split_and!.
  - unfold peer_user_agent. rewrite <-!elem_of_dom. by rewrite (agents_dom s Hi).
  - unfold connected_peers. rewrite <-elem_of_dom. setoid_rewrite list_elem_of_fmap. split.
    + intros [chs Hp]%elem_of_dom. exists (p, chs). split; [done|]. by rewrite map_iter_perm, elem_of_map_to_list.
    + intros ([p' chs] & -> & Hin). rewrite map_iter_perm, elem_of_map_to_list in Hin. by apply elem_of_dom_2 in Hin.
  - intros [chs Hp]. unfold channels_for_peer. rewrite Hp. cbn. intros Hnil. apply (channels_nonempty s Hi p chs Hp).
    apply set_eq. intros c. rewrite <-elem_of_set_iter, Hnil. set_solver.
  - apply (peers_nonempty s Hi).
Qed.

(** ** Operations that are not interrupted *)

(** Who a subscriber believes to be connected; [None] when a peer connects
    twice or disconnects without being connected. *)
Definition follow (believed : option (gset PeerId)) (e : P2PEvent) : option (gset PeerId) :=
  match believed, e with
  | Some ps, PeerConnected p _ => if bool_decide (p ∈ ps) then None else Some ({[p]} ∪ ps)
  | Some ps, PeerDisconnected p => if bool_decide (p ∈ ps) then Some (ps ∖ {[p]}) else None
  | _, _ => believed
  end.

Definition believed_connected (events : list P2PEvent) : option (gset PeerId) := foldl follow (Some ∅) events.

Record consistent s : Prop := {
  con_agents : agents_inv s;
  con_index p c : c ∈ channels_of s p ↔ p ∈ peers_on s c;
  con_info c : is_Some (channel_to_peers s !! c) → is_Some (peers s !! c);
  con_events : believed_connected (broadcasts s) = Some (dom (peer_to_channel s));
}.

Lemma believed_snoc events e : believed_connected (events ++ [e]) = follow (believed_connected events) e.
Proof. unfold believed_connected. by rewrite foldl_app. Qed.

Lemma registry_new_consistent : consistent registry_new.
Proof.
  split; [by split| |by intros c [? ?]|cbn; by rewrite dom_empty_L].
  intros p c. unfold channels_of, peers_on. cbn. set_solver.
Qed.

Lemma peers_on_Some s c : agents_inv s → is_Some (channel_to_peers s !! c) ↔ peers_on s c ≠ ∅.
Proof.
  intros [_ _ Hne]. unfold peers_on. destruct (channel_to_peers s !! c) as [ps|] eqn:Hc; cbn.
  - split; [|by eexists]. intros _. by eapply Hne.
  - split; [by intros [? ?]|done].
Qed.

Lemma channels_of_Some s p : agents_inv s → p ∈ dom (peer_to_channel s) ↔ channels_of s p ≠ ∅.
Proof.
  intros [_ Hne _]. unfold channels_of. rewrite elem_of_dom. destruct (peer_to_channel s !! p) as [chs|] eqn:Hc; cbn.
  - split; [|by eexists]. intros _. by eapply Hne.
  - split; [by intros [? ?]|done].
Qed.

(** Steps on [peers] and [active_connections] that keep the entries of the
    channels in use. *)
Lemma consistent_info s (m : gmap string PeerInfo) (a : gset string) l :
  consistent s → (∀ c, is_Some (channel_to_peers s !! c) → is_Some (m !! c)) →
  consistent (mk_registry m a (peer_to_channel s) (channel_to_peers s) (peer_user_agents s) (broadcasts s) l).
Proof. intros [[H1 H2 H3] Hi Hn He] Hm. split; [by split|done|done|done]. Qed.

Lemma upserted_Some (m : gmap string PeerInfo) c remote refresh now c' :
  is_Some (upserted m c remote refresh now !! c') ↔ c' = c ∨ is_Some (m !! c').
Proof.
  unfold upserted. cbv zeta. destruct (m !! c) as [i|] eqn:Hc; rewrite lookup_insert_is_Some';
    split; naive_solver.
Qed.

Lemma map_peer_channels p c agent s p' :
  channels_of (map_peer p c agent s) p' = if decide (p' = p) then {[c]} ∪ channels_of s p else channels_of s p'.
Proof.
  unfold map_peer, channels_of. destruct (peer_to_channel s !! p) as [chs|] eqn:Hp; cbn; case_decide as Heq.
  - subst p'. by rewrite lookup_insert_eq.
  - by rewrite lookup_insert_ne.
  - subst p'. rewrite lookup_insert_eq. cbn. set_solver.
  - by rewrite lookup_insert_ne.
Qed.

Lemma index_channel_peers c p s c' :
  peers_on (index_channel c p s) c' = if decide (c' = c) then {[p]} ∪ peers_on s c else peers_on s c'.
Proof.
  unfold peers_on. cbn. case_decide as Heq; [subst c'; by rewrite lookup_insert_eq|by rewrite lookup_insert_ne].
Qed.

Lemma register_consistent c remote p agent now s :
  consistent s → consistent (run (register_authenticated_peer_channel c remote p agent now) s).
Proof.
  intros Hcon. cbn [register_authenticated_peer_channel upsert_connected_channel step run].
  set (s1 := with_peers _ _).
  assert (H1 : consistent s1).
  { apply (consistent_info s); [done|]. intros c' Hc'. apply upserted_Some. right. by apply (con_info s Hcon). }
  assert (Hc1 : is_Some (peers s1 !! c)) by (apply upserted_Some; by left).
  clearbody s1. clear s Hcon. destruct H1 as [Hag Hidx Hinfo Hev]. cbv zeta.
  pose proof (map_peer_keeping p c agent s1 Hag) as Hag2. set (s2 := map_peer p c agent s1) in *.
  assert (Hsame : channel_to_peers s2 = channel_to_peers s1 ∧ peers s2 = peers s1 ∧ broadcasts s2 = broadcasts s1).
  { unfold s2, map_peer. by destruct (peer_to_channel s1 !! p). }
  destruct Hsame as (Hc2p & Hpeers & Hbr).
  assert (Hdom : dom (peer_to_channel s2) = {[p]} ∪ dom (peer_to_channel s1)).
  { unfold s2, map_peer. destruct (peer_to_channel s1 !! p) eqn:Hp; cbn; by rewrite dom_insert_L. }
  pose proof (map_peer_channels p c agent s1) as Hmap. fold s2 in Hmap.
  assert (Hidx2 : ∀ p' c', c' ∈ channels_of s2 p' ↔ p' ∈ peers_on (index_channel c p s2) c').
  { intros p' c'. rewrite Hmap, index_channel_peers. unfold peers_on. rewrite Hc2p. fold (peers_on s1 c) (peers_on s1 c').
    repeat case_decide; subst; rewrite ?elem_of_union, ?elem_of_singleton, ?Hidx; naive_solver. }
  assert (Hinfo2 : ∀ c', is_Some (channel_to_peers (index_channel c p s2) !! c') → is_Some (peers s2 !! c')).
  { intros c'. cbn. rewrite Hpeers, lookup_insert_is_Some', Hc2p. intros [<-|?]; [done|by apply Hinfo]. }
  unfold is_peer_connected. case_bool_decide as Hnew; cbn [negb orb].
  - (* a known peer *)
    assert (Hdom' : dom (peer_to_channel s2) = dom (peer_to_channel s1)).
    { rewrite Hdom. apply elem_of_dom in Hnew. set_solver. }
    case_bool_decide as Hin; cbn [negb step run].
    + split; [done| |by rewrite Hc2p, Hpeers|by rewrite Hbr, Hdom'].
      intros p' c'. unfold peers_on. rewrite Hc2p. fold (peers_on s1 c'). rewrite <-Hidx, Hmap.
      case_decide; [subst; set_solver|done].
    + split; [by apply index_channel_keeping|done|done|cbn; by rewrite Hbr, Hdom'].
  - (* a new peer *)
    assert (Hout : p ∉ dom (peer_to_channel s1)) by (by rewrite elem_of_dom).
    split; [by apply (other_maps (index_channel c p s2)), index_channel_keeping|done|done|].
    cbn. rewrite Hbr, believed_snoc, Hev. cbn. rewrite bool_decide_false by done. by rewrite Hdom.
Qed.

(** The indexes and the events while a channel is taken from its peers. *)
Definition scrub_one c s p : Registry :=
  (if became_empty c s p then broadcast (PeerDisconnected p) else (λ s, s)) (scrub_peer c p s).

Lemma scrub_each_run c t ps s : run (scrub_each c ps t) s = run t (foldl (scrub_one c) s ps).
Proof.
  revert s. induction ps as [|p rest IH]; intros s; [done|]. cbn [scrub_each run foldl]. unfold scrub_one at 2.
  destruct (became_empty c s p); cbn [step run]; apply IH.
Qed.

(** [tracked]: the agents, the index entries and the events agree. *)
Definition tracked s : Prop := agents_inv s ∧ believed_connected (broadcasts s) = Some (dom (peer_to_channel s)).

Lemma scrub_one_spec c s p :
  tracked s → let s' := scrub_one c s p in
  tracked s' ∧ peers s' = peers s ∧ active_connections s' = active_connections s ∧ channel_to_peers s' = channel_to_peers s ∧
  closed s' = closed s ∧ ∀ p', channels_of s' p' = if decide (p' = p) then channels_of s p ∖ {[c]} else channels_of s p'.
Proof.
  intros [Hag Hev]. cbv zeta. unfold scrub_one. pose proof (scrub_peer_keeping c p s Hag) as Hag'.
  unfold became_empty, scrub_peer in *. unfold channels_of. destruct (peer_to_channel s !! p) as [chs|] eqn:Hp.
  2: { split_and!; [by split|done..|]. intros p'. case_decide; [subst; by rewrite Hp; set_solver|done]. }
  case_bool_decide as He.
  - split_and!; [split; [by refine (other_maps _ _ _ _ _ Hag')|]|done..|].
    + cbn. rewrite believed_snoc, Hev. cbn. rewrite bool_decide_true by (by eapply elem_of_dom_2). by rewrite dom_delete_L.
    + intros p'. cbn. case_decide as Heq; [subst p'; rewrite lookup_delete_eq; by rewrite He|by rewrite lookup_delete_ne].
  - split_and!; [split; [done|]|done..|].
    + cbn [peer_to_channel broadcasts with_peer_to_channel]. by rewrite Hev, dom_insert_lookup_L.
    + intros p'. cbn. case_decide as Heq; [subst p'; by rewrite lookup_insert_eq|by rewrite lookup_insert_ne].
Qed.

Lemma scrub_all_spec c ps : ∀ s,
  tracked s → let s' := foldl (scrub_one c) s ps in
  tracked s' ∧ peers s' = peers s ∧ active_connections s' = active_connections s ∧ channel_to_peers s' = channel_to_peers s ∧
  closed s' = closed s ∧ ∀ p, channels_of s' p = if decide (p ∈ ps) then channels_of s p ∖ {[c]} else channels_of s p.
Proof.
  induction ps as [|p rest IH]; intros s Ht; cbv zeta; [by split_and!|]. cbn [foldl].
  destruct (scrub_one_spec c s p Ht) as (Ht' & Hp & Ha & Hc & Hcl & Hch).
  destruct (IH _ Ht') as (Ht'' & Hp' & Ha' & Hc' & Hcl' & Hch'). split_and!; [done|congruence..|].
  intros p'. rewrite Hch', Hch. repeat case_decide; subst; set_solver.
Qed.

Definition indexed s : Prop := ∀ p c, c ∈ channels_of s p ↔ p ∈ peers_on s c.

(** After [remove_channel_mappings] nobody is on the channel. *)
Lemma mappings_removed c t s :
  tracked s → indexed s → ∃ s', run (remove_channel_mappings c t) s = run t s' ∧ tracked s' ∧ indexed s' ∧
    channel_to_peers s' = delete c (channel_to_peers s) ∧ (∀ p, channels_of s' p = channels_of s p ∖ {[c]}) ∧
    active_connections s' = active_connections s ∧ peers s' = peers s.
Proof.
  unfold indexed. intros [Hag Hev] Hidx. cbn [remove_channel_mappings run]. set (s1 := with_channel_to_peers s _).
  assert (Ht1 : tracked s1).
  { split; [|done]. destruct Hag as [H1 H2 H3]. split; [done..|]. intros c' ps. cbn. intros [_ ?]%lookup_delete_Some. by eapply H3. }
  assert (Hon : ∀ c', peers_on s1 c' = if decide (c' = c) then ∅ else peers_on s c').
  { intros c'. unfold peers_on, s1. cbn. case_decide; [subst; by rewrite lookup_delete_eq|by rewrite lookup_delete_ne]. }
  set (ps := from_option set_iter [] (channel_to_peers s !! c)).
  assert (Hrun : run (match channel_to_peers s !! c with Some app_peers => scrub_each c (set_iter app_peers) t | None => t end) s1 =
    run t (foldl (scrub_one c) s1 ps)).
  { unfold ps. destruct (channel_to_peers s !! c); [apply scrub_each_run|done]. }
  rewrite Hrun. destruct (scrub_all_spec c ps s1 Ht1) as (Ht2 & Hp & Ha & Hc & _ & Hch).
  set (s2 := foldl (scrub_one c) s1 ps) in *.
  assert (Hps : ∀ p, p ∈ ps ↔ p ∈ peers_on s c).
  { intros p. unfold ps, peers_on. destruct (channel_to_peers s !! c); cbn; [apply elem_of_set_iter|set_solver]. }
  assert (Hchs : ∀ p, channels_of s2 p = channels_of s p ∖ {[c]}).
  { intros p. rewrite Hch. change (channels_of s1 p) with (channels_of s p). case_decide as Hin; [done|].
    rewrite Hps, <-Hidx in Hin. set_solver. }
  exists s2. split_and!; [done|exact Ht2| |done|done|done|done].
  intros p c'. rewrite Hchs. unfold peers_on. rewrite Hc. fold (peers_on s1 c'). rewrite Hon.
  case_decide as Heq; [subst; set_solver|]. rewrite <-Hidx. set_solver.
Qed.

Lemma consistent_intro s :
  tracked s → indexed s → (∀ c, is_Some (channel_to_peers s !! c) → is_Some (peers s !! c)) → consistent s.
Proof. intros [? ?] ? ?. by split. Qed.

Lemma deleted_info s c (m : gmap string (gset PeerId)) c' :
  (∀ c, is_Some (m !! c) → is_Some (peers s !! c)) →
  is_Some (delete c m !! c') → is_Some (delete c (peers s) !! c').
Proof.
  intros Hinfo [ps [Hne ?]%lookup_delete_Some]. rewrite lookup_delete_ne by done. apply Hinfo. by eexists.
Qed.

Lemma remove_channel_consistent c s :
  consistent s → let s' := run (remove_channel c) s in
  consistent s' ∧ (∀ p, channels_of s' p = channels_of s p ∖ {[c]}) ∧ (c ∉ active_connections s') ∧ peers s' !! c = None.
Proof.
  intros [Hag Hidx Hinfo Hev]. cbv zeta. cbn [remove_channel step run].
  destruct (mappings_removed c (step (drop_peer_info c) Finished) (drop_active c s)) as (s' & -> & [Hag' Hev'] & Hidx' & Hc & Hch & Ha & Hp).
  { split; [by apply (other_maps s)|done]. }
  { exact Hidx. }
  cbn [step run]. split_and!; [|done|cbn; rewrite Ha; cbn; set_solver|cbn; by rewrite lookup_delete_eq].
  apply consistent_intro; [split; [by apply (other_maps s')|done]|done|].
  intros c'. cbn. rewrite Hc, Hp. by apply (deleted_info s).
Qed.

Lemma close_channel_run c t s : ∃ l, run (close_channel c t) s = run t (mk_registry (peers s) (active_connections s)
  (peer_to_channel s) (channel_to_peers s) (peer_user_agents s) (broadcasts s) (closed s ++ l)).
Proof.
  unfold close_channel. destruct (socket_parse c) as [a|]; [by exists [a]|]. exists []. rewrite app_nil_r. by destruct s.
Qed.

Lemma disconnect_channel_consistent c s :
  consistent s → let s' := run (disconnect_channel c) s in
  consistent s' ∧ ∀ p, channels_of s' p = channels_of s p ∖ {[c]}.
Proof.
  intros Hcon. cbv zeta. unfold disconnect_channel. destruct (close_channel_run c (remove_channel c) s) as [l Hl].
  change (step (drop_active c) (remove_channel_mappings c (step (drop_peer_info c) Finished))) with (remove_channel c).
  rewrite Hl. match goal with |- context [run (remove_channel c) ?s1] =>
    destruct (remove_channel_consistent c s1) as (H & Hch & _) end; [|done].
  apply consistent_info; [done|apply (con_info s Hcon)].
Qed.

Lemma connection_lost_consistent remote s :
  consistent s → let c := canonical_channel_id remote in let s' := run (connection_lost remote) s in
  consistent s' ∧ ∀ p, channels_of s' p = channels_of s p ∖ {[c]}.
Proof.
  intros Hcon. cbv zeta. cbn [connection_lost step run]. set (c := canonical_channel_id remote).
  destruct Hcon as [Hag Hidx Hinfo Hev].
  destruct (mappings_removed c Finished (drop_peer_info c (drop_active c s))) as (s' & -> & Ht' & Hidx' & Hc & Hch & Ha & Hp).
  { split; [by apply (other_maps s)|done]. }
  { exact Hidx. }
  cbn [run]. split; [|done]. apply consistent_intro; [done..|].
  intros c'. cbn. rewrite Hc, Hp. by apply (deleted_info s).
Qed.

(** A peer leaves its channels: the ones it was alone on are closed. *)
Lemma leave_channel_spec p c s :
  agents_inv s → let s' := leave_channel p c s in
  agents_inv s' ∧ peer_to_channel s' = peer_to_channel s ∧ peers s' = peers s ∧ broadcasts s' = broadcasts s ∧
  (∀ c', peers_on s' c' = if decide (c' = c) then peers_on s c ∖ {[p]} else peers_on s c') ∧
  (∀ c', is_Some (channel_to_peers s' !! c') → is_Some (channel_to_peers s !! c')) ∧
  (orphaned p s c = true ↔ is_Some (channel_to_peers s !! c) ∧ channel_to_peers s' !! c = None).
Proof.
  intros Hag. cbv zeta. pose proof (leave_channel_keeping p c s Hag) as Hag'. split; [done|]. clear Hag'.
  unfold leave_channel, orphaned, peers_on. destruct (channel_to_peers s !! c) as [ps|] eqn:Hc.
  2: { split_and!; try done; [|by split; [|intros [[? ?] _]]]. intros c'. case_decide; [subst; rewrite Hc; set_solver|done]. }
  case_bool_decide as He; cbn; split_and!; try done.
  - intros c'. case_decide; [subst; rewrite lookup_delete_eq; cbn; by rewrite He|by rewrite lookup_delete_ne].
  - intros c' [x [_ ?]%lookup_delete_Some]. by eexists.
  - rewrite lookup_delete_eq. split; [by split; [eexists|]|done].
  - intros c'. case_decide; [subst; by rewrite lookup_insert_eq|by rewrite lookup_insert_ne].
  - intros c'. rewrite lookup_insert_is_Some'. intros [<-|?]; [by eexists|done].
  - rewrite lookup_insert_eq. split; [done|by intros [_ ?]].
Qed.

Lemma leave_each_run p next cs : ∀ orphans s,
  agents_inv s → ∃ s' more, run (leave_each p cs orphans next) s = run (next (orphans ++ more)) s' ∧
    agents_inv s' ∧ peer_to_channel s' = peer_to_channel s ∧ peers s' = peers s ∧ broadcasts s' = broadcasts s ∧
    (∀ c, peers_on s' c = if decide (c ∈ cs) then peers_on s c ∖ {[p]} else peers_on s c) ∧
    (∀ c, is_Some (channel_to_peers s' !! c) → is_Some (channel_to_peers s !! c)) ∧
    (∀ c, c ∈ more → channel_to_peers s' !! c = None).
Proof.
  induction cs as [|c rest IH]; intros orphans s Hag.
  { exists s, []. rewrite app_nil_r. by split_and!; try set_solver. }
  cbn [leave_each run]. destruct (leave_channel_spec p c s Hag) as (Hag1 & Hpc1 & Hp1 & Hb1 & Hon1 & Hsome1 & Horph).
  destruct (IH (if orphaned p s c then orphans ++ [c] else orphans) (leave_channel p c s) Hag1)
    as (s' & more & Hrun & Hag' & Hpc & Hp & Hb & Hon & Hsome & Hmore).
  exists s', ((if orphaned p s c then [c] else []) ++ more). split_and!; [|done|congruence..| | |].
  - rewrite Hrun. destruct (orphaned p s c); [by rewrite <-app_assoc|done].
  - intros c'. rewrite Hon, Hon1. repeat case_decide; subst; set_solver.
  - naive_solver.
  - intros c' [Hc'|?]%elem_of_app; [|by apply Hmore]. destruct (orphaned p s c) eqn:Ho; [|by apply elem_of_nil in Hc'].
    apply list_elem_of_singleton in Hc' as ->. destruct (proj1 Horph eq_refl) as [_ Hnone].
    destruct (channel_to_peers s' !! c) as [ps|] eqn:Hc; [|done].
    destruct (Hsome c) as [? Hx]; [by eexists|]. by rewrite Hnone in Hx.
Qed.

Lemma close_each_run cs : ∀ s,
  consistent s → (∀ c, c ∈ cs → channel_to_peers s !! c = None) →
  let s' := run (close_each cs) s in consistent s' ∧ peer_to_channel s' = peer_to_channel s ∧
    channel_to_peers s' = channel_to_peers s ∧ ∀ c, c ∈ cs → peers s' !! c = None ∧ (c ∉ active_connections s').
Proof.
  induction cs as [|c rest IH]; intros s Hcon Hnone; cbv zeta; [by split_and!; [..|set_solver]|]. cbn [close_each].
  destruct (close_channel_run c (step (drop_active c) (step (drop_peer_info c) (close_each rest))) s) as [l ->].
  cbn [step run]. set (s1 := drop_peer_info c _).
  assert (Hcon1 : consistent s1).
  { apply (consistent_info s); [done|]. cbn. intros c' Hc'. destruct (decide (c' = c)) as [->|Hne].
    - rewrite Hnone in Hc' by (by left). by destruct Hc'.
    - rewrite lookup_delete_ne by done. by apply (con_info s Hcon). }
  destruct (IH s1 Hcon1) as (Hcon' & Hpc & Hc2p & Hgone); [intros c' Hc'; apply Hnone; by right|].
  split_and!; [done..|]. intros c' [->|Hc']%elem_of_cons; [|by apply Hgone].
  assert (Hkeep : ∀ cs s, peers s !! c = None → c ∉ active_connections s →
    peers (run (close_each cs) s) !! c = None ∧ (c ∉ active_connections (run (close_each cs) s))).
  { clear. induction cs as [|x cs IH]; intros s Hp Ha; [done|]. cbn [close_each].
    destruct (close_channel_run x (step (drop_active x) (step (drop_peer_info x) (close_each cs))) s) as [l ->].
    cbn [step run]. apply IH; cbn; [by apply lookup_delete_None; right|set_solver]. }
  apply Hkeep; cbn; [by rewrite lookup_delete_eq|set_solver].
Qed.

Lemma disconnect_peer_consistent p s :
  consistent s → let s' := run (disconnect_peer p) s in
  consistent s' ∧ ∀ p', channels_of s' p' = if decide (p' = p) then ∅ else channels_of s p'.
Proof.
  intros [Hag Hidx Hinfo Hev]. cbv zeta. cbn [disconnect_peer run]. unfold forget_peer.
  destruct (peer_to_channel s !! p) as [chs|] eqn:Hp.
  2: { cbn. split; [by split|]. intros p'. case_decide; [subst; unfold channels_of; by rewrite Hp|done]. }
  set (s1 := with_peer_to_channel s _ _).
  assert (Hag1 : agents_inv s1).
  { pose proof (forget_peer_keeping p s Hag) as H. unfold forget_peer in H. by rewrite Hp in H. }
  assert (Hch1 : ∀ p', channels_of s1 p' = if decide (p' = p) then ∅ else channels_of s p').
  { intros p'. unfold channels_of, s1. cbn. case_decide; [subst; by rewrite lookup_delete_eq|by rewrite lookup_delete_ne]. }
  destruct (leave_each_run p (λ orphans, step (broadcast (PeerDisconnected p)) (close_each orphans)) (set_iter chs) [] s1 Hag1)
    as (s2 & orphans & -> & Hag2 & Hpc2 & Hp2 & Hb2 & Hon2 & Hsome2 & Horph). cbn [app step run].
  set (s3 := broadcast _ s2).
  assert (Hchs : channels_of s p = chs) by (unfold channels_of; by rewrite Hp).
  assert (Hch3 : ∀ p', channels_of s3 p' = if decide (p' = p) then ∅ else channels_of s p').
  { intros p'. unfold channels_of, s3. cbn. rewrite Hpc2. apply Hch1. }
  assert (Hcon3 : consistent s3).
  { apply consistent_intro; [split; [by apply (other_maps s2)|]| |].
    - cbn. rewrite Hpc2, Hb2. cbn. rewrite believed_snoc, Hev. cbn.
      rewrite bool_decide_true by (by eapply elem_of_dom_2). by rewrite dom_delete_L.
    - intros p' c. rewrite Hch3. change (peers_on s3 c) with (peers_on s2 c). rewrite Hon2.
      change (peers_on s1 c) with (peers_on s c).
      destruct (decide (c ∈ set_iter chs)) as [Hin|Hin]; rewrite elem_of_set_iter, <-Hchs in Hin;
        destruct (decide (p' = p)) as [->|]; rewrite ?elem_of_difference, <-?Hidx; set_solver.
    - intros c Hc. cbn. rewrite Hp2. cbn. apply Hinfo, Hsome2, Hc. }
  destruct (close_each_run orphans s3 Hcon3) as (Hcon4 & Hpc4 & _ & _); [exact Horph|].
  split; [done|]. intros p'. unfold channels_of. rewrite Hpc4. apply Hch3.
Qed.

Lemma disconnect_each_consistent ps : ∀ s,
  consistent s → let s' := run (disconnect_each ps) s in
  consistent s' ∧ ∀ p, channels_of s' p = if decide (p ∈ ps) then ∅ else channels_of s p.
Proof.
  induction ps as [|p rest IH]; intros s Hcon; cbv zeta; [by split|]. cbn [disconnect_each]. rewrite run_and_then.
  destruct (disconnect_peer_consistent p s Hcon) as [Hcon1 Hch1]. destruct (IH _ Hcon1) as [Hcon2 Hch2]. split; [done|].
  intros p'. rewrite Hch2, Hch1. repeat case_decide; set_solver.
Qed.

(** The specification of the registry: who is on which channels. *)
Definition channels_step (f : PeerId → gset string) (o : RegistryOp) (p : PeerId) : gset string :=
  match o with
  | Register remote p' _ _ => if decide (p = p') then {[canonical_channel_id remote]} ∪ f p else f p
  | RemoveChannel c | DisconnectChannel c => f p ∖ {[c]}
  | ConnectionLost remote => f p ∖ {[canonical_channel_id remote]}
  | DisconnectPeer p' => if decide (p = p') then ∅ else f p
  | DisconnectAll => ∅
  | _ => f p
  end.

Lemma not_connected_channels s p : p ∉ connected_peers s → channels_of s p = ∅.
Proof.
  intros Hout. unfold channels_of. destruct (peer_to_channel s !! p) as [chs|] eqn:Hp; [|done]. destruct Hout.
  unfold connected_peers. apply list_elem_of_fmap. exists (p, chs). split; [done|]. by rewrite map_iter_perm, elem_of_map_to_list.
Qed.

Lemma operation_consistent o s :
  consistent s → let s' := run (operation o) s in
  consistent s' ∧ ∀ p, channels_of s' p = channels_step (channels_of s) o p.
Proof.
  intros Hcon. pose proof (con_info s Hcon) as Hinfo. cbv zeta.
  assert (Hins : ∀ (c : string) (i : PeerInfo) c', is_Some (channel_to_peers s !! c') → is_Some (<[c := i]> (peers s) !! c')).
  { intros c i c' Hc'. rewrite lookup_insert_is_Some'. right. by apply Hinfo. }
  destruct o as [remote p agent now|c|c|remote|remote now|p| |remote allowed now|address listen dialed now|c delivered now];
    cbn [operation channels_step].
  - split; [by apply register_consistent|]. intros p'. set (c := canonical_channel_id remote).
    cbn [register_authenticated_peer_channel upsert_connected_channel step run]. set (s1 := with_peers _ _). cbv zeta.
    transitivity (channels_of (map_peer p c agent s1) p').
    { destruct (_ || _), (negb _); reflexivity. }
    rewrite map_peer_channels. change (channels_of s1) with (channels_of s). case_decide; by subst.
  - destruct (remove_channel_consistent c s Hcon) as (? & ? & _). by split.
  - apply (disconnect_channel_consistent c s Hcon).
  - apply (connection_lost_consistent remote s Hcon).
  - split; [|done]. cbn [connection_established upsert_connected_channel step run]. apply (consistent_info s); [done|].
    intros c' Hc'. apply upserted_Some. right. by apply Hinfo.
  - apply (disconnect_peer_consistent p s Hcon).
  - cbn [disconnect_all_peers run]. destruct (disconnect_each_consistent (connected_peers s) s Hcon) as [Hc Hch]. split; [done|].
    intros p. rewrite Hch. case_decide; [done|by apply not_connected_channels].
  - unfold accept_connection. destruct allowed; [|done]. split; [|done]. apply (consistent_info s); [done|]. apply Hins.
  - unfold connect_peer. destruct (connect_result _ _ _) as [c|[]], dialed; (split; [|done]); try done;
      apply (consistent_info s); first [done|apply Hins].
  - cbn [send_registered step run]. set (m := match peers s !! c with Some _ => peers s | None => _ end).
    assert (Hm : ∀ c', is_Some (channel_to_peers s !! c') → is_Some (m !! c')).
    { intros c' Hc'. unfold m. destruct (peers s !! c); [by apply Hinfo|by apply Hins]. }
    destruct (is_connection_active _ c), delivered; (split; [|done]); by apply (consistent_info s).
Qed.

Lemma run_consistent ops :
  consistent (registry_run ops) ∧ ∀ p, channels_of (registry_run ops) p = foldl channels_step (λ _, ∅) ops p.
Proof.
  induction ops as [|o ops [Hcon Hch]] using rev_ind; [split; [apply registry_new_consistent|done]|].
  unfold registry_run in *. rewrite !foldl_app. cbn [foldl]. destruct (operation_consistent o _ Hcon) as [Hcon' Hch'].
  split; [done|]. intros p. rewrite Hch'. destruct o; cbn; rewrite ?Hch; done.
Qed.

(** C17: the registry keeps its books.  After any sequence of its operations: every peer is on exactly the channels that the
    registrations, removals and disconnections so far give it; the two indexes mirror each other; every connected peer has
    the information of its channel; and a subscriber who follows the broadcast events sees no peer connect twice or
    disconnect unconnected, and believes connected exactly the connected peers. *)
Theorem registry_consistent ops :
  let s := registry_run ops in
  (∀ p c, c ∈ channels_for_peer s p ↔ c ∈ foldl channels_step (λ _, ∅) ops p) ∧
  (∀ p c, c ∈ channels_for_peer s p ↔ p ∈ peers_on_channel s c) ∧
  (∀ p, is_peer_connected s p = true ↔ foldl channels_step (λ _, ∅) ops p ≠ ∅) ∧
  (∀ p, is_peer_connected s p = true → is_Some (peer_info s p)) ∧
  believed_connected (broadcasts s) = Some (list_to_set (connected_peers s)).
Proof.
  cbv zeta. destruct (run_consistent ops) as [[Hag Hidx Hinfo Hev] Hch]. set (s := registry_run ops) in *.
  assert (Hfor : ∀ p c, c ∈ channels_for_peer s p ↔ c ∈ channels_of s p).
  { intros p c. unfold channels_for_peer, channels_of. destruct (peer_to_channel s !! p); cbn; [apply elem_of_set_iter|set_solver]. }
  assert (Hon : ∀ p c, p ∈ peers_on_channel s c ↔ p ∈ peers_on s c).
  { intros p c. unfold peers_on_channel, peers_on. destruct (channel_to_peers s !! c); cbn; [apply elem_of_set_iter|set_solver]. }
  split_and!.
  - intros p c. by rewrite Hfor, Hch.
  - intros p c. by rewrite Hfor, Hon, Hidx.
  - intros p. unfold is_peer_connected. rewrite bool_decide_eq_true, <-Hch, <-elem_of_dom. by apply channels_of_Some.
  - intros p. unfold is_peer_connected. rewrite bool_decide_eq_true. intros [chs Hp]. unfold peer_info. rewrite Hp. cbn.
    destruct (set_iter chs) as [|c rest] eqn:Hset.
    { destruct (channels_nonempty s Hag p chs Hp). apply set_eq. intros c. rewrite <-elem_of_set_iter, Hset. set_solver. }
    cbn. apply Hinfo, peers_on_Some; [done|]. assert (Hc : c ∈ channels_of s p).
    { unfold channels_of. rewrite Hp. cbn. rewrite <-elem_of_set_iter, Hset. by left. }
    apply Hidx in Hc. set_solver.
  - rewrite Hev. f_equal. apply set_eq. intros p. rewrite elem_of_list_to_set. unfold connected_peers.
    rewrite list_elem_of_fmap. split.
    + intros [chs Hp]%elem_of_dom. exists (p, chs). split; [done|]. by rewrite map_iter_perm, elem_of_map_to_list.
    + intros ([p' chs] & -> & Hin). rewrite map_iter_perm, elem_of_map_to_list in Hin. by apply elem_of_dom_2 in Hin.
Qed.
End channels.
