(* ===== verification/Receiving.v ===== *)
(** * Receiving messages

    The inbound half of [src/transport_handle.rs]: the dispatcher that spreads
    frames over the shards by source IP, the shard consumer that verifies each
    frame, registers its sender and routes it, the correlation of responses
    with pending requests, and the counters of received traffic. *)

From stdpp Require Import prelude gmap strings.
From S2P Require Import Prelude Keys Ip Address PeerRecord SignedAddress Tasks Wire Channels.

Definition MESSAGE_RECV_CHANNEL_CAPACITY : nat := 256.
Definition MESSAGE_DISPATCH_SHARDS : nat := 8.
Definition MIN_SHARD_CHANNEL_CAPACITY : nat := 16.
Definition MAX_ACTIVE_REQUESTS : nat := 256.

(** Per-shard queue capacity. *)
Definition per_shard_capacity : nat :=
  Nat.max (MESSAGE_RECV_CHANNEL_CAPACITY / MESSAGE_DISPATCH_SHARDS) MIN_SHARD_CHANNEL_CAPACITY.

Definition starts_with (p s : string) : bool := String.prefix p s.

(** ** Counters

    [AtomicU64::fetch_add] wraps around. *)

Definition wrap_u64 (n : N) : N := (n mod 2 ^ 64)%N.
Definition fetch_add (counter amount : N) : N := wrap_u64 (counter + amount).

Record ReceivedTraffic := mk_received {
  wire_rx_bytes : N;
  wire_rx_count : N;
  overhead_rx_bytes : N;
  wire_rejected_rx_bytes : N;
  wire_rejected_rx_count : N;
  wire_dropped_rx_bytes : N;
  wire_dropped_rx_count : N;
}.

Definition received_new : ReceivedTraffic := mk_received 0 0 0 0 0 0 0.

Definition record_rx (t : ReceivedTraffic) (wire_len payload_len : nat) : ReceivedTraffic :=
  mk_received (fetch_add (wire_rx_bytes t) (N.of_nat wire_len)) (fetch_add (wire_rx_count t) 1)
    (fetch_add (overhead_rx_bytes t) (N.of_nat (wire_len - payload_len)))
    (wire_rejected_rx_bytes t) (wire_rejected_rx_count t) (wire_dropped_rx_bytes t) (wire_dropped_rx_count t).
Definition record_rejected_rx (t : ReceivedTraffic) (wire_len : nat) : ReceivedTraffic :=
  mk_received (wire_rx_bytes t) (wire_rx_count t) (overhead_rx_bytes t)
    (fetch_add (wire_rejected_rx_bytes t) (N.of_nat wire_len)) (fetch_add (wire_rejected_rx_count t) 1)
    (wire_dropped_rx_bytes t) (wire_dropped_rx_count t).
Definition record_dropped_rx (t : ReceivedTraffic) (wire_len : nat) : ReceivedTraffic :=
  mk_received (wire_rx_bytes t) (wire_rx_count t) (overhead_rx_bytes t) (wire_rejected_rx_bytes t) (wire_rejected_rx_count t)
    (fetch_add (wire_dropped_rx_bytes t) (N.of_nat wire_len)) (fetch_add (wire_dropped_rx_count t) 1).

Section receiving.
Context `{TL : TransportLib} `{CL : CryptoLib} `{WC : WireCodec} `{ST : SocketText} `{HO : HashOrder}.
Context (normalize_socket_addr : SocketAddr → SocketAddr).
(** This node, and the hash of a source IP. *)
Context (self_peer_id : PeerId) (hash_ip : IpAddr → nat).

Definition Frame : Type := SocketAddr * list Z.

(** [active_requests] maps message ids to the peer asked; [replies] is the
    history of the payloads handed to waiting callers. *)
Record Inbound := mk_inbound {
  registry : Registry;
  active_requests : gmap string PeerId;
  replies : list (string * PeerId * list Z);
  traffic : ReceivedTraffic;
}.

Implicit Types (i : Inbound) (p : PeerId).

Definition inbound_new : Inbound := mk_inbound registry_new ∅ [] received_new.

Definition with_registry i (r : Registry) : Inbound := mk_inbound r (active_requests i) (replies i) (traffic i).
Definition with_traffic i (t : ReceivedTraffic) : Inbound := mk_inbound (registry i) (active_requests i) (replies i) t.

(** ** The shard consumer *)

(** The sender of a signed message is registered on the channel, except this
    node itself. *)
Definition register_sender i (from : SocketAddr) (m : ParsedMessage) (now : Z) : Inbound :=
  match authenticated_node_id m with
  | Some app_id =>
      if bool_decide (app_id = self_peer_id) then i
      else with_registry i (run (register_authenticated_peer_channel normalize_socket_addr
             (canonical_channel_id normalize_socket_addr from) from app_id (user_agent m) now) (registry i))
  | None => i
  end.

(** A response goes to the pending request of its id when the peer that was
    asked has signed it. *)
Definition route_response i (sender : option PeerId) (e : RequestResponseEnvelope) : Inbound :=
  match active_requests i !! message_id e with
  | None => i
  | Some expected_peer =>
      if negb (bool_decide (sender = Some expected_peer)) then i
      else mk_inbound (registry i) (delete (message_id e) (active_requests i))
             (replies i ++ [(message_id e, expected_peer, payload e)]) (traffic i)
  end.

Definition response_envelope (topic : string) (data : list Z) : option RequestResponseEnvelope :=
  if starts_with "/rr/" topic then
    match from_bytes_envelope data with
    | Ok e => if is_response e then Some e else None
    | Err _ => None
    end
  else None.

Definition route_message i (m : ParsedMessage) : Inbound :=
  match event m with
  | Message topic _ _ _ data =>
      if String.eqb topic IDENTITY_ANNOUNCE_PROTOCOL then i
      else match response_envelope topic data with
           | Some e => route_response i (authenticated_node_id m) e
           | None => with_registry i (broadcast (event m) (registry i))
           end
  | _ => with_registry i (broadcast (event m) (registry i))
  end.

(** One iteration of [run_shard_consumer]. *)
Definition consume_frame i (f : Frame) (now : Z) : Inbound :=
  let '(from, bytes) := f in
  match parse_protocol_message bytes (canonical_channel_id normalize_socket_addr from) with
  | Some m =>
      let i := with_traffic i (record_rx (traffic i) (length bytes) (payload_len m)) in
      route_message (register_sender i from m now) m
  | None => with_traffic i (record_rejected_rx (traffic i) (length bytes))
  end.

(** ** Requests *)

(** [send_request] up to the send: the table has room and the id is fresh. *)
Definition begin_request i (id : string) p : option Inbound :=
  if (MAX_ACTIVE_REQUESTS <=? size (active_requests i))%nat then None
  else Some (mk_inbound (registry i) (<[id := p]> (active_requests i)) (replies i) (traffic i)).

(** [ActiveRequestGuard::drop]: the caller has its answer or gave up. *)
Definition end_request i (id : string) : Inbound :=
  mk_inbound (registry i) (delete id (active_requests i)) (replies i) (traffic i).

(** ** The dispatcher *)

Definition shard_index_for_addr (a : SocketAddr) : nat := hash_ip (socket_ip a) mod MESSAGE_DISPATCH_SHARDS.

(** The queues of the shards, the inbound state, and the histories of the
    frames that arrived and were consumed. *)
Record Dispatcher := mk_dispatcher {
  queues : nat → list Frame;
  inbound : Inbound;
  arrived : list Frame;
  consumed : list Frame;
  dropped : list Frame;
}.

Definition dispatcher_new : Dispatcher := mk_dispatcher (λ _, []) inbound_new [] [] [].

(** A frame from the transport; [open] says whether the shard's consumer is
    still there. *)
Definition dispatch (d : Dispatcher) (f : Frame) (open : bool) : Dispatcher :=
  let k := shard_index_for_addr f.1 in
  if open && (length (queues d k) <? per_shard_capacity)%nat
  then mk_dispatcher (λ j, if Nat.eqb j k then queues d k ++ [f] else queues d j) (inbound d)
         (arrived d ++ [f]) (consumed d) (dropped d)
  else mk_dispatcher (queues d) (with_traffic (inbound d) (record_dropped_rx (traffic (inbound d)) (length f.2)))
         (arrived d ++ [f]) (consumed d) (dropped d ++ [f]).

(** Shard [k] takes the next frame of its queue. *)
Definition consume (d : Dispatcher) (k : nat) (now : Z) : Dispatcher :=
  match queues d k with
  | [] => d
  | f :: rest => mk_dispatcher (λ j, if Nat.eqb j k then rest else queues d j) (consume_frame (inbound d) f now)
                   (arrived d) (consumed d ++ [f]) (dropped d)
  end.

Inductive InboundOp :=
  | Arrive (f : Frame) (open : bool)
  | Consume (shard : nat) (now : Z)
  | Begin (id : string) (peer : PeerId)
  | End_ (id : string)
  | Elsewhere (o : RegistryOp).

Definition with_inbound (d : Dispatcher) i : Dispatcher := mk_dispatcher (queues d) i (arrived d) (consumed d) (dropped d).

Definition inbound_step (d : Dispatcher) (o : InboundOp) : Dispatcher :=
  match o with
  | Arrive f open => dispatch d f open
  | Consume k now => if (k <? MESSAGE_DISPATCH_SHARDS)%nat then consume d k now else d
  | Begin id p => from_option (with_inbound d) d (begin_request (inbound d) id p)
  | End_ id => with_inbound d (end_request (inbound d) id)
  | Elsewhere r => with_inbound d (with_registry (inbound d) (run (operation normalize_socket_addr r) (registry (inbound d))))
  end.

Definition inbound_run (ops : list InboundOp) : Dispatcher := foldl inbound_step dispatcher_new ops.

(** ** Accounting and order *)

Definition frame_bytes (l : list Frame) : N := foldr (λ f n, N.of_nat (length f.2) + n)%N 0%N l.
Definition from_ip (ip : IpAddr) (l : list Frame) : list Frame := List.filter (λ f, bool_decide (socket_ip f.1 = ip)) l.
Definition queued (d : Dispatcher) : list Frame := concat (queues d <$> seq 0 MESSAGE_DISPATCH_SHARDS).

Definition received_bytes (t : ReceivedTraffic) : N :=
  wrap_u64 (wire_rx_bytes t + wire_rejected_rx_bytes t + wire_dropped_rx_bytes t).
Definition received_count (t : ReceivedTraffic) : N :=
  wrap_u64 (wire_rx_count t + wire_rejected_rx_count t + wire_dropped_rx_count t).

Record accounted (d : Dispatcher) : Prop := {
  acc_frames : arrived d ≡ₚ consumed d ++ dropped d ++ queued d;
  acc_order ip : from_ip ip (consumed d) ++ from_ip ip (queues d (hash_ip ip mod MESSAGE_DISPATCH_SHARDS)) `sublist_of` from_ip ip (arrived d);
  acc_shard k f : f ∈ queues d k → shard_index_for_addr f.1 = k;
  acc_capacity k : length (queues d k) ≤ per_shard_capacity;
  acc_bytes : received_bytes (traffic (inbound d)) = wrap_u64 (frame_bytes (consumed d ++ dropped d));
  acc_count : received_count (traffic (inbound d)) = wrap_u64 (N.of_nat (length (consumed d ++ dropped d)));
}.

Lemma wrap_add a b : wrap_u64 (wrap_u64 a + b) = wrap_u64 (a + b).
Proof. unfold wrap_u64. by rewrite N.Div0.add_mod_idemp_l. Qed.

Lemma frame_bytes_app l l' : frame_bytes (l ++ l') = (frame_bytes l + frame_bytes l')%N.
Proof. unfold frame_bytes. rewrite foldr_app. induction l as [|f l IH]; [done|]. cbn [foldr]. rewrite IH. lia. Qed.

(** An increment of one of three counters is one of their sum. *)
Lemma fetch_sum a b c n : wrap_u64 (fetch_add a n + b + c) = wrap_u64 (wrap_u64 (a + b + c) + n).
Proof. unfold fetch_add. rewrite wrap_add. rewrite <-N.add_assoc, wrap_add. f_equal. lia. Qed.
Lemma fetch_sum2 a b c n : wrap_u64 (a + fetch_add b n + c) = wrap_u64 (wrap_u64 (a + b + c) + n).
Proof. rewrite (N.add_comm a), fetch_sum. by rewrite (N.add_comm b). Qed.
Lemma fetch_sum3 a b c n : wrap_u64 (a + b + fetch_add c n) = wrap_u64 (wrap_u64 (a + b + c) + n).
Proof. rewrite N.add_comm, N.add_assoc, fetch_sum. do 2 f_equal. rewrite <-N.add_assoc, N.add_comm. done. Qed.

Lemma route_traffic i m : traffic (route_message i m) = traffic i.
Proof.
  unfold route_message, route_response. destruct (event m); [|done|done]. destruct (String.eqb _ _); [done|].
  destruct (response_envelope _ _); [|done]. by repeat case_match.
Qed.

Lemma register_traffic i from m now : traffic (register_sender i from m now) = traffic i.
Proof. unfold register_sender. by repeat case_match. Qed.

Lemma consume_traffic i f now :
  received_bytes (traffic (consume_frame i f now)) = wrap_u64 (received_bytes (traffic i) + N.of_nat (length f.2)) ∧
  received_count (traffic (consume_frame i f now)) = wrap_u64 (received_count (traffic i) + 1).
Proof.
  destruct f as [from bytes]. unfold consume_frame, received_bytes, received_count.
  destruct (parse_protocol_message _ _) as [m|]; [rewrite route_traffic, register_traffic|]; cbn -[fetch_add wrap_u64].
  - by rewrite !fetch_sum.
  - by rewrite !fetch_sum2.
Qed.

Lemma dropped_traffic t n :
  received_bytes (record_dropped_rx t n) = wrap_u64 (received_bytes t + N.of_nat n) ∧
  received_count (record_dropped_rx t n) = wrap_u64 (received_count t + 1).
Proof.
  unfold received_bytes, received_count. cbn -[fetch_add wrap_u64]. by rewrite !fetch_sum3.
Qed.

(** The queues as one list. *)
Lemma queued_update (d : Dispatcher) k (q : list Frame) n :
  k < n →
  concat ((λ j, if Nat.eqb j k then q else queues d j) <$> seq 0 n) ++ queues d k ≡ₚ concat (queues d <$> seq 0 n) ++ q.
Proof.
  intros Hk. replace n with (k + S (n - S k)) by lia. rewrite seq_app, !fmap_app, !concat_app. cbn [seq fmap list_fmap concat].
  rewrite Nat.add_0_l, Nat.eqb_refl.
  assert (Hsame : ∀ l : list nat, k ∉ l → (λ j, if Nat.eqb j k then q else queues d j) <$> l = queues d <$> l).
  { intros l Hl. apply list_fmap_ext. intros ? j Hj. destruct (Nat.eqb_spec j k) as [->|]; [|done].
    destruct Hl. by eapply list_elem_of_lookup_2. }
  rewrite !Hsame by (rewrite elem_of_seq; lia). solve_Permutation.
Qed.

Lemma from_ip_snoc ip l f : from_ip ip (l ++ [f]) = from_ip ip l ++ (if decide (socket_ip f.1 = ip) then [f] else []).
Proof. unfold from_ip. rewrite List.filter_app. cbn. case_bool_decide; case_decide; tauto || by rewrite ?app_nil_r. Qed.

Lemma shard_bound a : shard_index_for_addr a < MESSAGE_DISPATCH_SHARDS.
Proof. apply Nat.mod_upper_bound. done. Qed.

Lemma dispatch_accounted d f open : accounted d → accounted (dispatch d f open).
Proof.
  intros [Hf Ho Hs Hc Hb Hn]. unfold dispatch. set (k := shard_index_for_addr f.1).
  destruct (open && (length (queues d k) <? per_shard_capacity)%nat) eqn:Hroom.
  - apply andb_true_iff in Hroom as [_ Hroom%Nat.ltb_lt]. split; cbn [arrived consumed dropped queues inbound].
    + pose proof (queued_update d k (queues d k ++ [f]) MESSAGE_DISPATCH_SHARDS (shard_bound f.1)) as Hq.
      unfold queued. cbn [queues]. rewrite Hf. unfold queued. apply (Permutation_app_inv_r (queues d k)).
      rewrite <-!app_assoc, Hq. solve_Permutation.
    + intros ip. rewrite from_ip_snoc. set (j := hash_ip ip mod MESSAGE_DISPATCH_SHARDS).
      destruct (Nat.eqb_spec j k) as [Hj|Hj].
      * rewrite <-Hj, from_ip_snoc, app_assoc. by apply sublist_app.
      * rewrite decide_False; [rewrite app_nil_r; apply Ho|]. intros Hip. apply Hj. unfold j, k, shard_index_for_addr. by rewrite Hip.
    + intros j f'. destruct (Nat.eqb_spec j k) as [->|]; [|apply Hs]. rewrite elem_of_app, list_elem_of_singleton.
      intros [?| ->]; [by apply Hs|done].
    + intros j. destruct (Nat.eqb_spec j k) as [->|]; [|apply Hc]. rewrite length_app. cbn [length]. lia.
    + done.
    + done.
  - split; cbn [arrived consumed dropped queues inbound traffic with_traffic]; [| |done|done| |].
    + unfold queued in *. cbn [queues]. rewrite Hf. solve_Permutation.
    + intros ip. rewrite from_ip_snoc. apply sublist_inserts_r, Ho.
    + rewrite (proj1 (dropped_traffic _ _)), Hb, wrap_add. f_equal. rewrite !frame_bytes_app. cbn [frame_bytes foldr]. lia.
    + rewrite (proj2 (dropped_traffic _ _)), Hn, wrap_add. f_equal. rewrite !length_app. cbn [length]. lia.
Qed.

Lemma consume_accounted d k now : k < MESSAGE_DISPATCH_SHARDS → accounted d → accounted (consume d k now).
Proof.
  intros Hk [Hf Ho Hs Hc Hb Hn]. unfold consume. destruct (queues d k) as [|f rest] eqn:Hq; [by split|].
  assert (Hfk : shard_index_for_addr f.1 = k) by (apply Hs; rewrite Hq; by left).
  split; cbn [arrived consumed dropped queues inbound].
  - pose proof (queued_update d k rest MESSAGE_DISPATCH_SHARDS Hk) as Hu. unfold queued. cbn [queues]. rewrite Hf. unfold queued.
    rewrite Hq in Hu. apply (Permutation_app_inv_r (f :: rest)). rewrite <-!app_assoc, Hu. solve_Permutation.
  - intros ip. specialize (Ho ip). rewrite from_ip_snoc. destruct (Nat.eqb_spec (hash_ip ip mod MESSAGE_DISPATCH_SHARDS) k) as [Hj|Hj].
    + rewrite Hj, Hq in Ho. rewrite <-app_assoc. etrans; [|exact Ho]. apply sublist_app; [done|].
      unfold from_ip at 2. cbn. case_bool_decide; case_decide; tauto || done.
    + rewrite decide_False; [by rewrite app_nil_r|]. intros Hip. apply Hj. rewrite <-Hfk. unfold shard_index_for_addr. by rewrite Hip.
  - intros j f'. destruct (Nat.eqb_spec j k) as [->|]; [|apply Hs]. intros Hin. apply Hs. rewrite Hq. by right.
  - intros j. destruct (Nat.eqb_spec j k) as [->|]; [|apply Hc]. specialize (Hc k). rewrite Hq in Hc. cbn [length] in Hc. lia.
  - rewrite (proj1 (consume_traffic _ _ _)), Hb, wrap_add. f_equal. rewrite !frame_bytes_app. cbn [frame_bytes foldr]. lia.
  - rewrite (proj2 (consume_traffic _ _ _)), Hn, wrap_add. f_equal. rewrite !length_app. cbn [length]. lia.
Qed.

Lemma with_inbound_accounted d i : traffic i = traffic (inbound d) → accounted d → accounted (with_inbound d i).
Proof. intros Ht [? ? ? ? ? ?]. split; cbn; rewrite ?Ht; done. Qed.

Lemma step_accounted d o : accounted d → accounted (inbound_step d o).
Proof.
  intros H. destruct o as [f open|k now|id p|id|r]; cbn [inbound_step].
  - by apply dispatch_accounted.
  - destruct (Nat.ltb_spec k MESSAGE_DISPATCH_SHARDS); [by apply consume_accounted|done].
  - unfold begin_request. destruct (_ <=? _)%nat; [done|]. by apply with_inbound_accounted.
  - by apply with_inbound_accounted.
  - by apply with_inbound_accounted.
Qed.

(** every frame is accounted for, in order.  However arrivals, consumers, requests and the rest of the node interleave:
    each arrived frame is consumed, dropped or still queued, exactly once; the frames of one IP are consumed in the order
    they arrived; no shard queues more than its capacity; and the counters of received, rejected and dropped frames and bytes
    add up, modulo 2^64, to what was consumed or dropped. *)
Theorem inbound_accounting ops :
  let d := inbound_run ops in
  arrived d ≡ₚ consumed d ++ dropped d ++ queued d ∧
  (∀ ip, from_ip ip (consumed d) `sublist_of` from_ip ip (arrived d)) ∧
  (∀ k, length (queues d k) ≤ 32) ∧
  received_bytes (traffic (inbound d)) = wrap_u64 (frame_bytes (consumed d ++ dropped d)) ∧
  received_count (traffic (inbound d)) = wrap_u64 (N.of_nat (length (consumed d ++ dropped d))).
Proof.
  cbv zeta. assert (H : accounted (inbound_run ops)).
  { unfold inbound_run. assert (H0 : accounted dispatcher_new) by (split; [done|done|set_solver|intros k; apply Nat.le_0_l|done|done]).
    revert H0. generalize dispatcher_new. induction ops as [|o ops IH]; intros d Hd; [done|]. by apply IH, step_accounted. }
  destruct H as [Hf Ho _ Hc Hb Hn]. split_and!; [done| |done..]. intros ip. etrans; [|apply (Ho ip)]. by apply sublist_inserts_r.
Qed.

(** ** What is delivered *)

Definition is_message (e : P2PEvent) : bool := match e with Message _ _ _ _ _ => true | _ => false end.

Definition no_new_messages (r r' : Registry) : Prop :=
  ∀ e, is_message e = true → e ∈ broadcasts r' → e ∈ broadcasts r.

#[local] Instance no_new_messages_preorder : PreOrder no_new_messages.
Proof. split; [by intros r e|]. intros r1 r2 r3 H1 H2 e He Hin. by apply H1, H2. Qed.

Lemma registry_no_messages : primitive_steps no_new_messages.
Proof.
  split; try by intros; intros e; cbn.
  - intros p c agent s e. unfold map_peer. by destruct (peer_to_channel s !! p).
  - intros c p s e. unfold scrub_peer. destruct (peer_to_channel s !! p); [|done]. by destruct (bool_decide _).
  - intros p c s e. unfold leave_channel. destruct (channel_to_peers s !! c); [|done]. by destruct (bool_decide _).
  - intros p s e. unfold forget_peer. by destruct (peer_to_channel s !! p).
  - intros p agent s e He. cbn. rewrite elem_of_app, list_elem_of_singleton. by intros [?| ->].
  - intros p s e He. cbn. rewrite elem_of_app, list_elem_of_singleton. by intros [?| ->].
Qed.

(** The frame parses to the message, signed by [source] when it has one. *)
Definition carries (f : Frame) (e : P2PEvent) : Prop :=
  ∃ m, parse_protocol_message f.2 (canonical_channel_id normalize_socket_addr f.1) = Some m ∧ event m = e.

(** The frame is the response [data] to request [id], signed by [p]. *)
Definition answers (f : Frame) (id : string) p (data : list Z) : Prop :=
  ∃ topic tsource timestamp body, carries f (Message topic (Some p) tsource timestamp body) ∧
    response_envelope topic body = Some (mk_envelope id true data).

Definition begins (id : string) (ops : list InboundOp) : nat :=
  length (List.filter (λ o, match o with Begin id' _ => String.eqb id' id | _ => false end) ops).

Definition replies_to (id : string) i : nat :=
  length (List.filter (λ r : string * PeerId * list Z, String.eqb r.1.1 id) (replies i)).

Record sound (ops : list InboundOp) (d : Dispatcher) : Prop := {
  snd_pending id p : active_requests (inbound d) !! id = Some p → Begin id p ∈ ops;
  snd_replies id p data : (id, p, data) ∈ replies (inbound d) →
    Begin id p ∈ ops ∧ ∃ f, f ∈ consumed d ∧ answers f id p data;
  snd_once id : replies_to id (inbound d) + (if decide (is_Some (active_requests (inbound d) !! id)) then 1 else 0) ≤ begins id ops;
  snd_room : size (active_requests (inbound d)) ≤ MAX_ACTIVE_REQUESTS;
  snd_messages e : is_message e = true → e ∈ broadcasts (registry (inbound d)) →
    ∃ f, f ∈ consumed d ∧ carries f e ∧
      match e with
      | Message topic _ _ _ body => topic ≠ IDENTITY_ANNOUNCE_PROTOCOL ∧ response_envelope topic body = None
      | _ => True
      end;
  snd_registry : consistent (registry (inbound d));
}.

Lemma parse_event bytes source m :
  parse_protocol_message bytes source = Some m →
  ∃ topic timestamp body, event m = Message topic (authenticated_node_id m) (quic <$> socket_parse source) timestamp body.
Proof.
  unfold parse_protocol_message. destruct (from_bytes_wire bytes) as [msg|]; [|done]. cbv zeta. destruct (negb _).
  - destruct (verify_message_signature msg); [|done]. intros [= <-]. by eexists _, _, _.
  - intros [= <-]. by eexists _, _, _.
Qed.

Lemma sound_more ops d o : sound ops d → sound (ops ++ [o]) d.
Proof.
  intros [Hp Hr Ho Hn Hm Hc]. split; [| | |done|done|done].
  - intros id p H. apply elem_of_app. left. by eapply Hp.
  - intros id p data H. destruct (Hr id p data H) as [? ?]. split; [|done]. apply elem_of_app. by left.
  - intros id. specialize (Ho id). unfold begins in *. rewrite List.filter_app, length_app. lia.
Qed.

(** A state with the same requests, replies and messages. *)
Lemma sound_same ops d d' :
  sound ops d → active_requests (inbound d') = active_requests (inbound d) → replies (inbound d') = replies (inbound d) →
  (∀ f, f ∈ consumed d → f ∈ consumed d') → no_new_messages (registry (inbound d)) (registry (inbound d')) →
  consistent (registry (inbound d')) → sound ops d'.
Proof.
  intros [Hp Hr Ho Hn Hm Hc] Ha Hre Hco Hb Hc'. split.
  - rewrite Ha. apply Hp.
  - rewrite Hre. intros id p data H. destruct (Hr id p data H) as (? & f & ? & ?). split; [done|]. exists f. auto.
  - intros id. unfold replies_to. rewrite Ha, Hre. apply Ho.
  - by rewrite Ha.
  - intros e He Hin. destruct (Hm e He) as (f & ? & ?); [by apply Hb|]. exists f. auto.
  - done.
Qed.

Lemma sound_request ops d i' (o : InboundOp) :
  sound ops d → registry i' = registry (inbound d) →
  (∀ id p, active_requests i' !! id = Some p → Begin id p ∈ ops ++ [o]) →
  (∀ id p data, (id, p, data) ∈ replies i' → Begin id p ∈ ops ++ [o] ∧ ∃ f, f ∈ consumed d ∧ answers f id p data) →
  (∀ id, replies_to id i' + (if decide (is_Some (active_requests i' !! id)) then 1 else 0) ≤ begins id (ops ++ [o])) →
  size (active_requests i') ≤ MAX_ACTIVE_REQUESTS → sound (ops ++ [o]) (with_inbound d i').
Proof. intros [Hp Hr Ho Hn Hm Hc] Hreg ? ? ? ?. split; cbn; rewrite ?Hreg; done. Qed.

Lemma broadcast_message_consistent e r : is_message e = true → consistent r → consistent (broadcast e r).
Proof.
  intros He [Hag Hidx Hinfo Hev]. split; [by apply (other_maps r)|done|done|].
  cbn [broadcast broadcasts peer_to_channel]. rewrite believed_snoc, Hev. by destruct e.
Qed.

Lemma register_sender_spec i from m now :
  consistent (registry i) → let i' := register_sender i from m now in
  active_requests i' = active_requests i ∧ replies i' = replies i ∧ consistent (registry i') ∧
  no_new_messages (registry i) (registry i').
Proof.
  intros Hc. unfold register_sender. destruct (authenticated_node_id m) as [p|]; [|done]. case_bool_decide; [done|].
  split_and!; [done..|by apply register_consistent|].
  apply (all_steps_run no_new_messages), register_all, registry_no_messages.
Qed.

Lemma replies_snoc id i id' p data r a t :
  replies_to id (mk_inbound r a (replies i ++ [(id', p, data)]) t) = replies_to id i + (if String.eqb id' id then 1 else 0).
Proof. unfold replies_to. cbn. rewrite List.filter_app, length_app. cbn. by destruct (String.eqb id' id). Qed.

Lemma response_sound ops d f m topic tsource timestamp body e :
  sound ops d → f ∈ consumed d → parse_protocol_message f.2 (canonical_channel_id normalize_socket_addr f.1) = Some m →
  event m = Message topic (authenticated_node_id m) tsource timestamp body → response_envelope topic body = Some e →
  sound ops (with_inbound d (route_response (inbound d) (authenticated_node_id m) e)).
Proof.
  intros [Hp Hr Ho Hn Hm Hc] Hf Hparse Hev He. unfold route_response.
  destruct (active_requests (inbound d) !! message_id e) as [q|] eqn:Hq; [|by split].
  case_bool_decide as Hsender; cbn [negb]; [|by split].
  assert (Hresp : e = mk_envelope (message_id e) true (payload e)).
  { unfold response_envelope in He. destruct (starts_with _ _); [|done]. destruct (from_bytes_envelope body) as [e'|]; [|done].
    destruct (is_response e') eqn:Hi; [|done]. injection He as <-. by destruct e'; cbn in Hi; subst. }
  split; cbn [inbound with_inbound active_requests replies registry]; [| | | |done|done].
  - intros id p [_ ?]%lookup_delete_Some. by eapply Hp.
  - intros id p data [Hin|Hin]%elem_of_app; [by apply Hr|]. apply list_elem_of_singleton in Hin. injection Hin as -> -> ->.
    split; [by apply Hp|]. exists f. split; [done|]. exists topic, tsource, timestamp, body. split.
    + exists m. split; [done|]. by rewrite Hev, Hsender.
    + by rewrite He, Hresp at 1.
  - intros id. specialize (Ho id). rewrite replies_snoc. destruct (String.eqb_spec (message_id e) id) as [<-|Hne].
    + rewrite lookup_delete_eq, decide_False by (by intros [? ?]). rewrite decide_True in Ho by (by eexists). lia.
    + rewrite lookup_delete_ne by done. lia.
  - rewrite map_size_delete, Hq. cbn. lia.
Qed.

Lemma consume_sound ops d k now : sound ops d → sound ops (consume d k now).
Proof.
  intros Hs. unfold consume. destruct (queues d k) as [|f rest]; [done|].
  set (d0 := mk_dispatcher (λ j, if Nat.eqb j k then rest else queues d j) (inbound d) (arrived d) (consumed d ++ [f]) (dropped d)).
  assert (Hf : f ∈ consumed d0) by (cbn; apply elem_of_app; right; by left).
  assert (H0 : sound ops d0).
  { eapply sound_same; [exact Hs|done|done| |done|apply (snd_registry _ _ Hs)]. intros f' ?. cbn. apply elem_of_app. by left. }
  change (mk_dispatcher _ (consume_frame (inbound d) f now) _ _ _) with (with_inbound d0 (consume_frame (inbound d0) f now)).
  clearbody d0. clear Hs d. destruct f as [from bytes]. unfold consume_frame.
  destruct (parse_protocol_message bytes _) as [m|] eqn:Hparse.
  2: { by eapply sound_same; [exact H0|..|apply (snd_registry _ _ H0)]. }
  cbv zeta. set (i0 := with_traffic (inbound d0) _).
  destruct (register_sender_spec i0 from m now (snd_registry _ _ H0)) as (Ha & Hre & Hcon & Hno).
  set (i1 := register_sender i0 from m now) in *.
  assert (H1 : sound ops (with_inbound d0 i1)) by (eapply sound_same; [exact H0|done..]).
  destruct (parse_event _ _ _ Hparse) as (topic & timestamp & body & Hev).
  unfold route_message. rewrite Hev. destruct (String.eqb_spec topic IDENTITY_ANNOUNCE_PROTOCOL) as [|Hann]; [done|].
  destruct (response_envelope topic body) as [e|] eqn:He.
  - exact (response_sound ops (with_inbound d0 i1) (from, bytes) m _ _ _ _ e H1 Hf Hparse Hev He).
  - rewrite <-Hev. destruct H1 as [Hp Hr Ho Hn Hm Hc]. split; [done..| |].
    + intros e Hmsg. cbn. rewrite elem_of_app, list_elem_of_singleton. intros [?| ->]; [by apply Hm|].
      exists (from, bytes). split; [done|]. split; [by exists m|]. by rewrite Hev.
    + cbn. apply broadcast_message_consistent; [by rewrite Hev|done].
Qed.

Lemma begin_sound ops d id p :
  sound ops d → sound (ops ++ [Begin id p]) (from_option (with_inbound d) d (begin_request (inbound d) id p)).
Proof.
  intros Hs. unfold begin_request. destruct (Nat.leb_spec MAX_ACTIVE_REQUESTS (size (active_requests (inbound d)))) as [|Hroom];
    [by apply sound_more|]. cbn [from_option].
  pose proof Hs as [Hp Hr Ho Hn Hm Hc]. apply sound_request; cbn [registry active_requests replies]; [done|done| | | |].
  - intros id' p'. rewrite lookup_insert_Some, elem_of_app, list_elem_of_singleton.
    intros [[<- <-]|[_ ?]]; [by right|left; by eapply Hp].
  - intros id' p' data H. destruct (Hr id' p' data H) as [? ?]. split; [|done]. apply elem_of_app. by left.
  - intros id'. specialize (Ho id'). unfold begins in *. rewrite List.filter_app, length_app. cbn [List.filter].
    change (replies_to id' (mk_inbound _ _ (replies (inbound d)) _)) with (replies_to id' (inbound d)).
    destruct (String.eqb_spec id id') as [<-|Hne]; cbn [length].
    + rewrite lookup_insert_eq, decide_True by (by eexists). case_decide; lia.
    + rewrite lookup_insert_ne by done. lia.
  - rewrite map_size_insert. case_match; unfold Datatypes.id; lia.
Qed.

Lemma step_sound ops d o : sound ops d → sound (ops ++ [o]) (inbound_step d o).
Proof.
  intros Hs. destruct o as [f open|k now|id p|id|r]; cbn [inbound_step].
  - apply sound_more. unfold dispatch. destruct (_ && _); by eapply sound_same; [exact Hs|..|apply (snd_registry _ _ Hs)].
  - apply sound_more. destruct (_ <? _)%nat; [by apply consume_sound|done].
  - by apply begin_sound.
  - pose proof Hs as [Hp Hr Ho Hn Hm Hc]. apply sound_request; cbn [registry active_requests replies end_request]; [done|done| | | |].
    + intros id' p [_ ?]%lookup_delete_Some. apply elem_of_app. left. by eapply Hp.
    + intros id' p data H. destruct (Hr id' p data H) as [? ?]. split; [|done]. apply elem_of_app. by left.
    + intros id'. specialize (Ho id'). unfold begins in *. rewrite List.filter_app, length_app. cbn [List.filter length].
      change (replies_to id' (end_request (inbound d) id)) with (replies_to id' (inbound d)).
      destruct (decide (is_Some (delete id (active_requests (inbound d)) !! id'))) as [[x [_ Hx]%lookup_delete_Some]|]; [|lia].
      rewrite decide_True in Ho by (by eexists). lia.
    + etrans; [|exact Hn]. rewrite map_size_delete. case_match; unfold Datatypes.id; lia.
  - apply sound_more. eapply sound_same; [exact Hs|done|done|done| |].
    + apply (all_steps_run no_new_messages), operation_all, registry_no_messages.
    + cbn. apply operation_consistent, (snd_registry _ _ Hs).
Qed.

End receiving.
