(* ===== verification/Sending.v ===== *)
(** * Sending messages

    The outbound half of [src/transport_handle.rs] and the reconnecting sends
    of [src/network.rs]: one attempt on one channel, the walk over a peer's
    channels, the redial of a peer whose channels turned out stale, and the
    requests built on them.

    What the transport answers, what the clock shows and what the other tasks
    do to the registry at every await are parameters indexed by a counter of
    awaits.  [attempts] is the history of the sends the transport was asked
    to make. *)

From stdpp Require Import prelude gmap strings.
From S2P Require Import Prelude Keys Ip Address PeerRecord SignedAddress Tasks Wire Channels Receiving.

(** ** Failures *)

Inductive SendFailureStage := OpenStream | OpenStreamTimeout | WriteTimeout | Write | Finish | DeliveryAck.
Inductive EndpointError := EndpointPeerNotFound | EndpointSendFailed (stage : SendFailureStage) | EndpointOther.

Inductive SendFailureKind :=
  | StaleChannel
  | OpenStreamProgressTimeout
  | WriteProgressTimeout
  | StreamWrite
  | StreamFinish
  | OtherFailure.

Definition is_stale_channel (k : SendFailureKind) : bool := match k with StaleChannel => true | _ => false end.

Definition classify_transport_send_stage (stage : SendFailureStage) : SendFailureKind :=
  match stage with
  | OpenStream => StaleChannel
  | OpenStreamTimeout => OpenStreamProgressTimeout
  | WriteTimeout => WriteProgressTimeout
  | Write => StreamWrite
  | Finish => StreamFinish
  | DeliveryAck => StreamFinish
  end.

(** The causes of an error, outermost first: the first that is an error of
    the endpoint decides. *)
Fixpoint classify_send_error (chain : list (option EndpointError)) : SendFailureKind :=
  match chain with
  | [] => OtherFailure
  | Some EndpointPeerNotFound :: _ => StaleChannel
  | Some (EndpointSendFailed stage) :: _ => classify_transport_send_stage stage
  | Some EndpointOther :: _ => OtherFailure
  | None :: rest => classify_send_error rest
  end.

(** [PeerNotFound] also stands for a channel id that is no socket address. *)
Inductive SendError := PeerNotFound | Unframed (e : FrameError) | SendFailed (kind : SendFailureKind) | DialFailed.

Definition is_stale_channel_send_failure (e : SendError) : bool :=
  match e with
  | PeerNotFound => true
  | SendFailed kind => is_stale_channel kind
  | _ => false
  end.

(** ** Counters *)

Record SentTraffic := mk_sent {
  wire_tx_bytes : N;
  wire_tx_count : N;
  overhead_tx_bytes : N;
  wire_failed_tx_bytes : N;
  wire_failed_tx_count : N;
}.

Definition record_tx (t : SentTraffic) (wire_len raw_len : nat) : SentTraffic :=
  mk_sent (fetch_add (wire_tx_bytes t) (N.of_nat wire_len)) (fetch_add (wire_tx_count t) 1)
    (fetch_add (overhead_tx_bytes t) (N.of_nat (wire_len - raw_len))) (wire_failed_tx_bytes t) (wire_failed_tx_count t).
Definition record_failed_tx (t : SentTraffic) (wire_len : nat) : SentTraffic :=
  mk_sent (wire_tx_bytes t) (wire_tx_count t) (overhead_tx_bytes t)
    (fetch_add (wire_failed_tx_bytes t) (N.of_nat wire_len)) (fetch_add (wire_failed_tx_count t) 1).

Section sending.
Context `{TL : TransportLib} `{CL : CryptoLib} `{WC : WireCodec} `{ST : SocketText} `{HO : HashOrder}.
Context (identity : NodeIdentity) (own_user_agent : string).

(** What an await shows: the answer of the transport to a send, the open
    connections, the clocks, and what the other tasks did meanwhile. *)
Record Instant := mk_instant {
  transport_send : SocketAddr → list Z → result unit (list (option EndpointError));
  has_open_quic_connection : SocketAddr → bool;
  unix_time : option N;
  now : Z;
  meanwhile : Registry → Registry;
}.
Context (instants : nat → Instant).

Record Attempt := mk_attempt { attempt_channel : string; attempt_frame : list Z; attempt_result : result unit SendFailureKind }.

Record Outbound := mk_outbound {
  out_registry : Registry;
  out_traffic : SentTraffic;
  attempts : list Attempt;
  tick : nat;
}.
Implicit Types (o : Outbound) (c : string) (p : PeerId).

Definition with_out_registry o (r : Registry) : Outbound := mk_outbound r (out_traffic o) (attempts o) (tick o).

Definition awake o : Instant * Outbound :=
  let m := instants (tick o) in
  (m, mk_outbound (meanwhile m (out_registry o)) (out_traffic o) (attempts o) (S (tick o))).

(** ** The transport *)

Definition send_on_channel o c (protocol : string) (data : list Z) : result unit SendError * Outbound :=
  let '(m, o) := awake o in
  let o := with_out_registry o (run (send_registered c (now m) Finished) (out_registry o)) in
  match create_protocol_message identity own_user_agent protocol data (unix_time m) with
  | Err e => (Err (Unframed e), o)
  | Ok frame =>
      match socket_parse c with
      | None => (Err PeerNotFound, o)
      | Some addr =>
          let '(m, o) := awake o in
          match transport_send m addr frame with
          | Ok _ => (Ok tt, mk_outbound (out_registry o) (record_tx (out_traffic o) (length frame) (length data))
                              (attempts o ++ [mk_attempt c frame (Ok tt)]) (tick o))
          | Err chain =>
              let kind := classify_send_error chain in
              (Err (SendFailed kind),
               mk_outbound (run (send_failed c) (out_registry o)) (record_failed_tx (out_traffic o) (length frame))
                 (attempts o ++ [mk_attempt c frame (Err kind)]) (tick o))
          end
      end
  end.

Definition remove_channel_now o c : Outbound :=
  let '(_, o) := awake o in with_out_registry o (run (remove_channel c) (out_registry o)).

Definition has_open_connection (m : Instant) c : bool :=
  match socket_parse c with Some addr => has_open_quic_connection m addr | None => false end.

Definition remove_channel_after_send_failure o c (e : SendError) : bool * Outbound :=
  if negb (is_stale_channel_send_failure e) && has_open_connection (instants (tick o)) c then (false, o)
  else (true, remove_channel_now o c).

Fixpoint send_each o (channels : list string) (protocol : string) (data : list Z) (last_err : option SendError)
    : result unit SendError * Outbound :=
  match channels with
  | [] => (Err (default PeerNotFound last_err), o)
  | c :: rest =>
      let '(r, o) := send_on_channel o c protocol data in
      match r with
      | Ok _ => (Ok tt, o)
      | Err e =>
          if is_stale_channel_send_failure e then send_each (remove_channel_now o c) rest protocol data (Some e)
          else (Err e, (remove_channel_after_send_failure o c e).2)
      end
  end.

Definition transport_send_message o p (protocol : string) (data : list Z) : result unit SendError * Outbound :=
  match channels_for_peer (out_registry o) p with
  | [] => (Err PeerNotFound, o)
  | channels => send_each o channels protocol data None
  end.

(** ** Dial candidates *)

Definition dialable (a : MultiAddr) : bool :=
  match dialable_socket_addr a with Some sa => negb (ip_is_unspecified (socket_ip sa)) | None => false end.

(** [published] is the owner's latest set, [dht_candidates] the addresses the
    routing table and the transport know. *)
Definition resolve_dial_candidates (published : option (list (MultiAddr * AddressType)))
    (dht_candidates : list (MultiAddr * AddressType)) (caller_addrs saved_addrs : list MultiAddr)
    : list (MultiAddr * AddressType) :=
  match caller_addrs, published with
  | [], Some l => l
  | _, _ =>
      match caller_addrs, saved_addrs with
      | [], [] => dht_candidates
      | _, _ =>
          let preferred := match caller_addrs with [] => saved_addrs | _ => caller_addrs end in
          (λ a, (a, default Unverified (snd <$> find (λ q : MultiAddr * AddressType, bool_decide (q.1 = a)) dht_candidates)))
            <$> List.filter dialable preferred
      end
  end.

(** ** The node *)

(** What a redial finds and how it ends: the addresses known and the result
    of the dial coordinator. *)
Record Redial := mk_redial {
  redial_published : option (list (MultiAddr * AddressType));
  redial_candidates : list (MultiAddr * AddressType);
  dial : list (MultiAddr * AddressType) → bool;
}.
Context (redials : nat → Redial).

Definition disconnect_channel_now o c : Outbound :=
  let '(_, o) := awake o in with_out_registry o (run (disconnect_channel c) (out_registry o)).

Definition disconnect_stale o (channels : list string) : Outbound := foldl disconnect_channel_now o channels.

Definition ensure_channel o (addrs saved_addrs : list MultiAddr) (stale_channels : list string) : result unit SendError * Outbound :=
  let o := disconnect_stale o stale_channels in
  let r := redials (tick o) in
  let candidates := resolve_dial_candidates (redial_published r) (redial_candidates r) addrs saved_addrs in
  let '(_, o) := awake o in
  match candidates with
  | [] => (Err PeerNotFound, o)
  | _ => (if dial r candidates then Ok tt else Err DialFailed, o)
  end.

Definition reconnect_and_send o p (protocol : string) (data : list Z) (addrs saved_addrs : list MultiAddr)
    (stale_channels : list string) : result unit SendError * Outbound :=
  let '(r, o) := ensure_channel o addrs saved_addrs stale_channels in
  match r with
  | Err e => (Err e, o)
  | Ok _ => transport_send_message o p protocol data
  end.

Definition saved_addresses o p : list MultiAddr := from_option info_addresses [] (peer_info (out_registry o) p).

(** [P2PNode::send_message]; taking the reconnect lock is an await. *)
Definition send_message o p (protocol : string) (data : list Z) (addrs : list MultiAddr) : result unit SendError * Outbound :=
  match channels_for_peer (out_registry o) p with
  | [] =>
      let '(_, o) := awake o in
      if is_peer_connected (out_registry o) p then transport_send_message o p protocol data
      else reconnect_and_send o p protocol data addrs [] []
  | existing_channels =>
      let saved_addrs := saved_addresses o p in
      let '(r, o) := transport_send_message o p protocol data in
      match r with
      | Ok _ => (Ok tt, o)
      | Err e =>
          if negb (is_stale_channel_send_failure e) then (Err e, o)
          else
            let '(_, o) := awake o in
            if is_peer_connected (out_registry o) p
            then transport_send_message (disconnect_stale o existing_channels) p protocol data
            else reconnect_and_send o p protocol data addrs saved_addrs existing_channels
      end
  end.

(** ** Requests *)

Definition MAX_REQUEST_TIMEOUT : Z := 300.

Inductive RequestError := BadProtocolName | TooManyRequests | NotSerializable (e : string) | NotSent (e : SendError)
  | ConnectionClosed | TimedOut (timeout : Z).

(** How the wait for the response ends: the payload, a dropped channel, or
    the deadline. *)
Inductive Wait := Answered (data : list Z) | Hangup | Deadline.
Context (waits : nat → Wait) (active : nat → nat) (fresh_id : nat → string).

Definition transport_send_request o p (protocol : string) (data : list Z) (timeout : Z)
    : result (list Z) RequestError * Outbound :=
  let timeout := Z.min timeout MAX_REQUEST_TIMEOUT in
  if negb (valid_protocol_name protocol) then (Err BadProtocolName, o)
  else if (MAX_ACTIVE_REQUESTS <=? active (tick o))%nat then (Err TooManyRequests, o)
  else
    match to_allocvec_envelope (mk_envelope (fresh_id (tick o)) false data) with
    | Err e => (Err (NotSerializable e), o)
    | Ok bytes =>
        let '(r, o) := transport_send_message o p ("/rr/" +:+ protocol) bytes in
        match r with
        | Err e => (Err (NotSent e), o)
        | Ok _ =>
            (match waits (tick o) with
             | Answered response => Ok response
             | Hangup => Err ConnectionClosed
             | Deadline => Err (TimedOut timeout)
             end, o)
        end
    end.

Definition request_is_stale (e : RequestError) : bool :=
  match e with NotSent e => is_stale_channel_send_failure e | _ => false end.

Definition send_request_reconnecting o p (protocol : string) (data : list Z) (timeout : Z)
    : result (list Z) RequestError * Outbound :=
  match channels_for_peer (out_registry o) p with
  | [] =>
      let '(_, o) := awake o in
      let '(r, o) := if is_peer_connected (out_registry o) p then (Ok tt, o) else ensure_channel o [] [] [] in
      match r with
      | Err e => (Err (NotSent e), o)
      | Ok _ => transport_send_request o p protocol data timeout
      end
  | existing_channels =>
      let saved_addrs := saved_addresses o p in
      let '(r, o) := transport_send_request o p protocol data timeout in
      match r with
      | Ok response => (Ok response, o)
      | Err e =>
          if negb (request_is_stale e) then (Err e, o)
          else
            let '(_, o) := awake o in
            let '(r, o) := if is_peer_connected (out_registry o) p then (Ok tt, disconnect_stale o existing_channels)
                           else ensure_channel o [] saved_addrs existing_channels in
            match r with
            | Err e => (Err (NotSent e), o)
            | Ok _ => transport_send_request o p protocol data timeout
            end
      end
  end.

(** The trust events [send_request] reports. *)
Inductive TrustReport := ReportTimeout | ReportFailure.
Definition request_report (r : result (list Z) RequestError) : option TrustReport :=
  match r with Ok _ => None | Err (TimedOut _) => Some ReportTimeout | Err _ => Some ReportFailure end.

(** ** A message is accepted at most once *)

Definition accepted (a : Attempt) : Prop := attempt_result a = Ok tt.
Definition stale_failure (a : Attempt) : Prop := attempt_result a = Err StaleChannel.

(** The attempts of a call that ends with [r]: stale channels until one
    accepts the message, or until a failure that may have sent part of it. *)
Definition attempts_for (l : list Attempt) (r : result unit SendError) : Prop :=
  match r with
  | Ok _ => ∃ stale a, l = stale ++ [a] ∧ Forall stale_failure stale ∧ accepted a
  | Err e =>
      if is_stale_channel_send_failure e then Forall stale_failure l
      else ∃ stale tail, l = stale ++ tail ∧ Forall stale_failure stale ∧ length tail ≤ 1 ∧
             Forall (λ a, ∃ kind, attempt_result a = Err kind ∧ kind ≠ StaleChannel ∧ e = SendFailed kind) tail
  end.

Lemma attempts_for_stale l l' r : Forall stale_failure l → attempts_for l' r → attempts_for (l ++ l') r.
Proof.
  intros Hl. destruct r as [[]|e]; cbn.
  - intros (stale & a & -> & Hs & Ha). exists (l ++ stale), a. split_and!; [by rewrite app_assoc|by apply Forall_app|done].
  - destruct (is_stale_channel_send_failure e).
    + intros Hl'. by apply Forall_app.
    + intros (stale & tail & -> & Hs & Hn & Ht). exists (l ++ stale), tail. split_and!; [by rewrite app_assoc|by apply Forall_app|done..].
Qed.

Lemma attempts_none e : attempts_for [] (Err e).
Proof. cbn. destruct (is_stale_channel_send_failure e); [done|]. exists [], []. split_and!; [done..|cbn; lia|done]. Qed.

(** What one call does: its attempts, and the registry stays consistent. *)
Definition well_sent o o' (r : result unit SendError) : Prop :=
  (∃ l, attempts o' = attempts o ++ l ∧ attempts_for l r) ∧ (consistent (out_registry o) → consistent (out_registry o')).

Hypothesis Hmeanwhile : ∀ i r, consistent r → consistent (meanwhile (instants i) r).

Lemma well_sent_nothing o o' e :
  attempts o' = attempts o → (consistent (out_registry o) → consistent (out_registry o')) → well_sent o o' (Err e).
Proof. intros Ha Hc. split; [|done]. exists []. rewrite app_nil_r. split; [done|apply attempts_none]. Qed.

(** A call that found only stale channels, then another. *)
Lemma well_sent_retry o o1 o2 e r :
  well_sent o o1 (Err e) → is_stale_channel_send_failure e = true → well_sent o1 o2 r → well_sent o o2 r.
Proof.
  intros [(l & Hl & Hal) Hc] He [(l' & Hl' & Hal') Hc']. split; [|auto]. exists (l ++ l').
  split; [by rewrite Hl', Hl, app_assoc|]. apply attempts_for_stale; [|done]. cbn in Hal. by rewrite He in Hal.
Qed.

(** Steps that send nothing. *)
Lemma well_sent_before o o1 o2 r :
  attempts o1 = attempts o → (consistent (out_registry o) → consistent (out_registry o1)) → well_sent o1 o2 r → well_sent o o2 r.
Proof. intros Ha Hc [(l & Hl & Hal) Hc']. split; [|auto]. exists l. by rewrite Hl, Ha. Qed.

Lemma send_registered_consistent c time r : consistent r → consistent (run (send_registered c time Finished) r).
Proof. intros H. exact (proj1 (operation_consistent (λ a, a) (SendOn c true time) r H)). Qed.

Lemma send_failed_consistent c r : consistent r → consistent (run (send_failed c) r).
Proof. intros H. apply (consistent_info r); [done|apply (con_info r H)]. Qed.

Lemma send_on_channel_sent o c protocol data :
  well_sent o (send_on_channel o c protocol data).2 (send_on_channel o c protocol data).1.
Proof.
  unfold send_on_channel. cbn [awake]. set (m1 := instants (tick o)). set (o1 := with_out_registry _ _).
  assert (H1 : consistent (out_registry o) → consistent (out_registry o1)).
  { intros H. by apply send_registered_consistent, Hmeanwhile. }
  destruct (create_protocol_message _ _ _ _ _) as [frame|e]; [|by apply well_sent_nothing].
  destruct (socket_parse c) as [addr|]; [|by apply well_sent_nothing]. cbn [awake].
  destruct (transport_send _ addr frame) as [[]|chain]; (split; [|intros H; cbn]).
  - eexists. split; [done|]. by exists [], (mk_attempt c frame (Ok tt)).
  - by apply Hmeanwhile, H1.
  - eexists. split; [done|]. cbn. destruct (classify_send_error chain) eqn:Hk; cbn;
      [by constructor|exists [], [mk_attempt c frame (Err (classify_send_error chain))]..];
      rewrite Hk; (split_and!; [done|done|cbn; lia|]); constructor; [|done| |done| |done| |done| |done]; eexists; by split_and!.
  - by apply send_failed_consistent, Hmeanwhile, H1.
Qed.

Lemma remove_now_sent o c :
  attempts (remove_channel_now o c) = attempts o ∧
  (consistent (out_registry o) → consistent (out_registry (remove_channel_now o c))).
Proof. split; [done|]. intros H. cbn. by apply remove_channel_consistent, Hmeanwhile. Qed.

Lemma well_sent_after o o1 o2 r :
  well_sent o o1 r → attempts o2 = attempts o1 → (consistent (out_registry o1) → consistent (out_registry o2)) → well_sent o o2 r.
Proof. intros [(l & Hl & Hal) Hc] Ha Hc'. split; [|auto]. exists l. by rewrite Ha. Qed.

Lemma send_each_sent protocol data channels : ∀ o last_err,
  (∀ e, last_err = Some e → is_stale_channel_send_failure e = true) →
  well_sent o (send_each o channels protocol data last_err).2 (send_each o channels protocol data last_err).1.
Proof.
  induction channels as [|c rest IH]; intros o last_err Hlast; cbn [send_each]; [by apply well_sent_nothing|].
  pose proof (send_on_channel_sent o c protocol data) as Hs. destruct (send_on_channel o c protocol data) as [[[]|e] o1]; cbn [fst snd] in *; [done|].
  destruct (is_stale_channel_send_failure e) eqn:He.
  - eapply well_sent_retry; [exact Hs|done|]. destruct (remove_now_sent o1 c) as [Ha Hc].
    eapply well_sent_before; [exact Ha|exact Hc|]. apply IH. by intros ? [= <-].
  - cbn [fst snd]. eapply well_sent_after; [exact Hs|..]; unfold remove_channel_after_send_failure;
      destruct (_ && _); cbn [snd]; try done; apply remove_now_sent.
Qed.

Lemma transport_sent o p protocol data :
  well_sent o (transport_send_message o p protocol data).2 (transport_send_message o p protocol data).1.
Proof.
  unfold transport_send_message. destruct (channels_for_peer _ p); [by apply well_sent_nothing|by apply send_each_sent].
Qed.

Lemma disconnect_stale_sent channels : ∀ o,
  attempts (disconnect_stale o channels) = attempts o ∧
  (consistent (out_registry o) → consistent (out_registry (disconnect_stale o channels))).
Proof.
  unfold disconnect_stale. induction channels as [|c rest IH]; intros o; [done|]. cbn [foldl].
  destruct (IH (disconnect_channel_now o c)) as [Ha Hc]. split; [by rewrite Ha|].
  intros H. apply Hc. cbn. by apply disconnect_channel_consistent, Hmeanwhile.
Qed.

Lemma ensure_channel_sent o addrs saved stale :
  let o' := (ensure_channel o addrs saved stale).2 in
  attempts o' = attempts o ∧ (consistent (out_registry o) → consistent (out_registry o')).
Proof.
  cbv zeta. unfold ensure_channel. destruct (disconnect_stale_sent stale o) as [Ha Hc]. cbn [awake].
  destruct (resolve_dial_candidates _ _ _ _); cbn [snd attempts out_registry]; (split; [done|]); intros H; by apply Hmeanwhile, Hc.
Qed.

Lemma reconnect_sent o p protocol data addrs saved stale :
  well_sent o (reconnect_and_send o p protocol data addrs saved stale).2
              (reconnect_and_send o p protocol data addrs saved stale).1.
Proof.
  unfold reconnect_and_send. pose proof (ensure_channel_sent o addrs saved stale) as H.
  destruct (ensure_channel o addrs saved stale) as [[[]|e] o1]; cbn [fst snd] in *; destruct H as [Ha Hc].
  - eapply well_sent_before; [exact Ha|exact Hc|apply transport_sent].
  - by apply well_sent_nothing.
Qed.

Lemma awake_sent o : attempts (awake o).2 = attempts o ∧ (consistent (out_registry o) → consistent (out_registry (awake o).2)).
Proof. split; [done|]. intros H. by apply Hmeanwhile. Qed.


(** What became of the request message itself. *)
Definition request_sent (r : result (list Z) RequestError) : result unit SendError :=
  match r with
  | Ok _ | Err ConnectionClosed | Err (TimedOut _) => Ok tt
  | Err (NotSent e) => Err e
  | Err _ => Err PeerNotFound
  end.

Lemma transport_request_sent o p protocol data timeout :
  let '(r, o') := transport_send_request o p protocol data timeout in well_sent o o' (request_sent r).
Proof.
  unfold transport_send_request. destruct (negb _); [by apply well_sent_nothing|]. destruct (_ <=? _)%nat; [by apply well_sent_nothing|].
  destruct (to_allocvec_envelope _) as [bytes|]; [|by apply well_sent_nothing].
  pose proof (transport_sent o p ("/rr/" +:+ protocol) bytes) as H.
  destruct (transport_send_message o p ("/rr/" +:+ protocol) bytes) as [[[]|e] o1]; [|exact H]. by destruct (waits _).
Qed.

(** A request goes out at most once too, also when it is retried on a fresh connection: an answer, a hangup or an expired
    deadline means that exactly one attempt was accepted, any other error that none was. *)
Theorem request_accepted_once o p protocol data timeout :
  let '(r, o') := send_request_reconnecting o p protocol data timeout in
  (∃ l, attempts o' = attempts o ++ l ∧ attempts_for l (request_sent r)) ∧
  (consistent (out_registry o) → consistent (out_registry o')).
Proof using Hmeanwhile.
  change (let '(r, o') := send_request_reconnecting o p protocol data timeout in well_sent o o' (request_sent r)).
  unfold send_request_reconnecting. destruct (channels_for_peer (out_registry o) p) as [|c cs].
  - destruct (awake_sent o) as [Ha Hc]. destruct (awake o) as [m o1]. cbn [fst snd] in *.
    destruct (is_peer_connected _ p).
    + pose proof (transport_request_sent o1 p protocol data timeout) as H.
      destruct (transport_send_request o1 p protocol data timeout). by eapply well_sent_before; [exact Ha|exact Hc|].
    + destruct (ensure_channel_sent o1 [] [] []) as [Ha1 Hc1]. destruct (ensure_channel o1 [] [] []) as [[[]|e] o2]; cbn [snd] in *.
      * pose proof (transport_request_sent o2 p protocol data timeout) as H.
        destruct (transport_send_request o2 p protocol data timeout).
        eapply well_sent_before; [exact Ha|exact Hc|]. by eapply well_sent_before; [exact Ha1|exact Hc1|].
      * apply well_sent_nothing; [congruence|auto].
  - cbv zeta. pose proof (transport_request_sent o p protocol data timeout) as H1.
    destruct (transport_send_request o p protocol data timeout) as [[response|e] o1]; [exact H1|].
    destruct (request_is_stale e) eqn:He; cbn [negb]; [|exact H1].
    destruct e as [| | |e| |]; try done. cbn in He, H1.
    destruct (awake_sent o1) as [Ha Hc]. destruct (awake o1) as [m o2]. cbn [fst snd] in *.
    destruct (is_peer_connected _ p).
    + destruct (disconnect_stale_sent (c :: cs) o2) as [Ha' Hc'].
      pose proof (transport_request_sent (disconnect_stale o2 (c :: cs)) p protocol data timeout) as H.
      destruct (transport_send_request _ p protocol data timeout). eapply well_sent_retry; [exact H1|done|].
      eapply well_sent_before; [exact Ha|exact Hc|]. by eapply well_sent_before; [exact Ha'|exact Hc'|].
    + destruct (ensure_channel_sent o2 [] (saved_addresses o p) (c :: cs)) as [Ha1 Hc1].
      destruct (ensure_channel o2 [] (saved_addresses o p) (c :: cs)) as [[[]|e'] o3]; cbn [snd] in *.
      * pose proof (transport_request_sent o3 p protocol data timeout) as H.
        destruct (transport_send_request o3 p protocol data timeout). eapply well_sent_retry; [exact H1|done|].
        eapply well_sent_before; [exact Ha|exact Hc|]. by eapply well_sent_before; [exact Ha1|exact Hc1|].
      * eapply well_sent_retry; [exact H1|done|]. apply well_sent_nothing; [congruence|auto].
Qed.
End sending.
