(* ===== verification/Pubsub.v ===== *)
(** * Publishing to every peer, and waiting for an identity

    More of [src/transport_handle.rs] over [Sending]: [publish], which sends
    one message to every authenticated peer and every channel nobody has
    authenticated on, [send_response], and the poll of
    [wait_for_peer_identity]. *)

From stdpp Require Import prelude gmap strings.
From S2P Require Import Prelude Keys Ip Address PeerRecord SignedAddress Tasks Wire Channels Receiving Sending.

Section pubsub.
Context `{TL : TransportLib} `{CL : CryptoLib} `{WC : WireCodec} `{ST : SocketText} `{HO : HashOrder}.
Context (identity : NodeIdentity) (own_user_agent : string) (instants : nat → Instant).
Implicit Types (o : Outbound) (c topic : string) (p : PeerId) (data : list Z).

(** ** Publishing *)

(** The channels of each peer, then those of nobody, each on its own; the
    maps are read in one step. *)
Definition channel_groups (r : Registry) : list (list string) :=
  let groups := (λ e : PeerId * gset string, set_iter e.2) <$> map_iter (peer_to_channel r) in
  let mapped := concat groups in
  List.filter (λ g, negb (Nat.eqb (length g) 0)) groups ++
  ((λ e : string * PeerInfo, [e.1]) <$> List.filter (λ e : string * PeerInfo, negb (bool_decide (e.1 ∈ mapped))) (map_iter (peers r))).

(** The channels of a group in turn until one accepts the message. *)
Fixpoint publish_group o (channels : list string) topic data : bool * Outbound :=
  match channels with
  | [] => (false, o)
  | c :: rest =>
      let '(r, o) := send_on_channel identity own_user_agent instants o c topic data in
      match r with
      | Ok _ => (true, o)
      | Err e => publish_group (remove_channel_after_send_failure instants o c e).2 rest topic data
      end
  end.

Fixpoint publish_groups o (groups : list (list string)) topic data : nat * Outbound :=
  match groups with
  | [] => (0, o)
  | g :: rest =>
      let '(sent, o) := publish_group o g topic data in
      let '(n, o) := publish_groups o rest topic data in
      ((if sent then 1 else 0) + n, o)
  end.

(** The publisher's own subscribers hear the message too, also when it
    reached nobody; the result is the number of peers it reached. *)
Definition publish o topic data : nat * Outbound :=
  let '(n, o) := publish_groups o (channel_groups (out_registry o)) topic data in
  let timestamp := default 0%N (unix_time (instants (tick o))) in
  (n, with_out_registry o
        (broadcast (Message topic (Some (identity_peer_id identity)) None timestamp data) (out_registry o))).

(** ** Responses *)

Inductive ResponseError := BadResponseProtocol | UnserializableResponse (e : string) | ResponseNotSent (e : SendError).

Definition send_response o p (protocol message_id : string) data : result unit ResponseError * Outbound :=
  if negb (valid_protocol_name protocol) then (Err BadResponseProtocol, o)
  else
    match to_allocvec_envelope (mk_envelope message_id true data) with
    | Err e => (Err (UnserializableResponse e), o)
    | Ok bytes =>
        let '(r, o) := transport_send_message identity own_user_agent instants o p ("/rr/" +:+ protocol) bytes in
        (match r with Ok _ => Ok tt | Err e => Err (ResponseNotSent e) end, o)
    end.

(** ** Waiting for an identity *)

Inductive IdentityWaitError := ChannelClosed | IdentityTimeout (timeout : Z).

Definition POLL_INTERVAL : Z := 50_000_000.

(** The [k]-th poll reads the registry [views k] and then, if it must, the
    clock; [None] is fuel that did not suffice. *)
Fixpoint wait_for_peer_identity (fuel : nat) (views : nat → Registry) (clock : nat → Z) c (timeout deadline : Z) (k : nat)
    : option (result PeerId IdentityWaitError) :=
  match fuel with
  | O => None
  | S fuel =>
      match peers_on_channel (views k) c with
      | p :: _ => Some (Ok p)
      | [] =>
          if negb (is_connection_active (views k) c) then Some (Err ChannelClosed)
          else if (deadline <=? clock k)%Z then Some (Err (IdentityTimeout timeout))
          else wait_for_peer_identity fuel views clock c timeout deadline (S k)
      end
  end.

Definition wait_fuel (timeout : Z) : nat := S (S (Z.to_nat (timeout / POLL_INTERVAL))).

(** ** What a publication does *)

Definition attempt_accepted (a : Attempt) : bool := match attempt_result a with Ok _ => true | Err _ => false end.

(** The attempts of one group: failures on its channels, then at most one
    success. *)
Definition group_attempts (g : list string) (l : list Attempt) (sent : bool) : Prop :=
  ∃ failures last, l = failures ++ last ∧ Forall (λ a, attempt_accepted a = false ∧ attempt_channel a ∈ g) failures ∧
    if sent then ∃ a, last = [a] ∧ attempt_accepted a = true ∧ attempt_channel a ∈ g else last = [].

Hypothesis Hmeanwhile : ∀ i r, consistent r → consistent (meanwhile (instants i) r).

(** What [send_on_channel] records names its channel. *)
Lemma send_on_channel_attempts o c topic data :
  let '(r, o') := send_on_channel identity own_user_agent instants o c topic data in
  (consistent (out_registry o) → consistent (out_registry o')) ∧
  ∃ l, attempts o' = attempts o ++ l ∧ length l ≤ 1 ∧ Forall (λ a, attempt_channel a = c) l ∧
    match r with Ok _ => ∃ a, l = [a] ∧ attempt_accepted a = true | Err _ => Forall (λ a, attempt_accepted a = false) l end.
Proof using HO Hmeanwhile.
  pose proof (send_on_channel_sent identity own_user_agent instants Hmeanwhile o c topic data) as [_ Hc]. revert Hc.
  unfold send_on_channel. cbn [awake]. destruct (create_protocol_message _ _ _ _ _) as [frame|e]; [|intros Hc; split; [exact Hc|exists []; cbn; rewrite app_nil_r; split_and!; [done|lia|done|done]]].
  destruct (socket_parse c) as [addr|]; [|intros Hc; split; [exact Hc|exists []; cbn; rewrite app_nil_r; split_and!; [done|lia|done|done]]].
  cbn [awake]. destruct (transport_send _ addr frame) as [[]|chain]; intros Hc; (split; [exact Hc|]).
  - eexists. split; [done|]. split_and!; [done|by constructor|by eexists].
  - eexists. split; [done|]. split_and!; [done|by constructor|by constructor].
Qed.

Lemma removal_after_failure o c e :
  let o' := (remove_channel_after_send_failure instants o c e).2 in
  attempts o' = attempts o ∧ (consistent (out_registry o) → consistent (out_registry o')).
Proof using HO Hmeanwhile.
  cbv zeta. unfold remove_channel_after_send_failure. destruct (_ && _); [done|]. by apply remove_now_sent.
Qed.

Lemma group_attempts_mono g g' l sent : g ⊆ g' → group_attempts g l sent → group_attempts g' l sent.
Proof.
  intros Hg (f & last & -> & Hf & Hl). exists f, last. split_and!; [done| |].
  - eapply Forall_impl; [done|]. intros a []. split; [done|by apply Hg].
  - destruct sent; [|done]. destruct Hl as (a & -> & ? & ?). exists a. split_and!; [done..|by apply Hg].
Qed.

Lemma publish_group_spec topic data g : ∀ o,
  let '(sent, o') := publish_group o g topic data in
  (consistent (out_registry o) → consistent (out_registry o')) ∧
  ∃ l, attempts o' = attempts o ++ l ∧ group_attempts g l sent.
Proof using HO Hmeanwhile.
  induction g as [|c rest IH]; intros o; cbn [publish_group]; [split; [done|]; exists []; rewrite app_nil_r; split; [done|by exists [], []]|].
  pose proof (send_on_channel_attempts o c topic data) as Hs.
  destruct (send_on_channel _ _ _ o c topic data) as [[[]|e] o1]; destruct Hs as (Hc & l & Hl & Hlen & Hch & Hr).
  - split; [done|]. destruct Hr as (a & -> & Ha). apply Forall_singleton in Hch as ->%eq_sym. exists [a].
    split; [done|]. exists [], [a]. split_and!; [done..|]. exists a. split_and!; [done..|by apply list_elem_of_here].
  - destruct (removal_after_failure o1 c e) as [Ha Hc']. set (o2 := (remove_channel_after_send_failure _ _ _ _).2) in *.
    specialize (IH o2). destruct (publish_group o2 rest topic data) as [sent o3].
    destruct IH as (Hc3 & l' & Hl' & Hg). split; [auto|]. exists (l ++ l'). split; [by rewrite Hl', Ha, Hl, app_assoc|].
    apply (group_attempts_mono rest (c :: rest)) in Hg as (f & last & -> & Hf & Hlast); [|by apply list_subseteq_cons].
    exists (l ++ f), last. split_and!; [by rewrite app_assoc| |done]. apply Forall_app. split; [|done].
    apply Forall_and. split; [done|]. eapply Forall_impl; [exact Hch|]. intros a ->. apply list_elem_of_here.
Qed.

(** A published message reaches each peer at most once as far as the transport tells: the channels of a group are tried in
    turn, failures first and at most one success last, the groups one after the other; the count is the number of groups that
    accepted; the registry stays consistent and the last event is the message itself, from this node. *)
Theorem publish_each_once o topic data :
  let '(n, o') := publish o topic data in
  let groups := channel_groups (out_registry o) in
  (∃ ls sents, Forall2 (λ g x, group_attempts g x.1 x.2) groups (zip ls sents) ∧ length ls = length sents ∧
     attempts o' = attempts o ++ concat ls ∧ n = length (List.filter (λ b, b) sents)) ∧
  (∃ timestamp, last (broadcasts (out_registry o')) = Some (Message topic (Some (identity_peer_id identity)) None timestamp data)) ∧
  (consistent (out_registry o) → consistent (out_registry o')).
Proof using HO Hmeanwhile.
  unfold publish. generalize (channel_groups (out_registry o)). intros groups.
  assert (Hgroups : ∀ o, let '(n, o') := publish_groups o groups topic data in
    (∃ ls sents, Forall2 (λ g x, group_attempts g x.1 x.2) groups (zip ls sents) ∧ length ls = length sents ∧
       attempts o' = attempts o ++ concat ls ∧ n = length (List.filter (λ b, b) sents)) ∧
    (consistent (out_registry o) → consistent (out_registry o'))).
  { clear o. induction groups as [|g rest IH]; intros o; cbn [publish_groups].
    - split; [|done]. exists [], []. split_and!; [done..|by rewrite app_nil_r|done].
    - pose proof (publish_group_spec topic data g o) as Hg. destruct (publish_group o g topic data) as [sent o1].
      destruct Hg as (Hc & l & Hl & Hg). specialize (IH o1). destruct (publish_groups o1 rest topic data) as [n o2].
      destruct IH as [(ls & sents & Hall & Hlen & Ha & Hn) Hc2]. split; [|auto]. exists (l :: ls), (sent :: sents).
      split_and!; [by constructor|cbn; congruence|by rewrite Ha, Hl, <-app_assoc|]. subst n. by destruct sent. }
  specialize (Hgroups o). destruct (publish_groups o groups topic data) as [n o1]. destruct Hgroups as [Hl Hc].
  split_and!; [done|eexists; cbn; by rewrite last_snoc|]. intros H. specialize (Hc H).
  destruct Hc as [Hag Hi Hinfo Hev]. split; [by apply (other_maps (out_registry o1))|done|done|].
  cbn [out_registry with_out_registry broadcast broadcasts peer_to_channel]. by rewrite believed_snoc, Hev.
Qed.

(** ** The wait ends *)

(** Whether the [k]-th poll decides, and how. *)
Definition poll_answer (views : nat → Registry) (clock : nat → Z) c (timeout deadline : Z) (k : nat)
    : option (result PeerId IdentityWaitError) :=
  match peers_on_channel (views k) c with
  | p :: _ => Some (Ok p)
  | [] =>
      if negb (is_connection_active (views k) c) then Some (Err ChannelClosed)
      else if (deadline <=? clock k)%Z then Some (Err (IdentityTimeout timeout))
      else None
  end.

(** The wait ends within the number of polls its timeout allows, with the answer of the first poll that decides: the peer
    that authenticated, the end of a channel that is no longer active, or the timeout. *)
Theorem identity_wait_ends views clock c timeout :
  (0 <= timeout)%Z → (∀ k, clock k + POLL_INTERVAL <= clock (S k))%Z →
  ∃ k r, wait_for_peer_identity (wait_fuel timeout) views clock c timeout (clock 0 + timeout) 0 = Some r ∧
    k < wait_fuel timeout ∧ poll_answer views clock c timeout (clock 0%nat + timeout) k = Some r ∧
    ∀ j, j < k → poll_answer views clock c timeout (clock 0%nat + timeout) j = None.
Proof.
  intros Ht Hclock. set (deadline := (clock 0%nat + timeout)%Z).
  assert (Hlater : ∀ k, (clock 0%nat + Z.of_nat k * POLL_INTERVAL <= clock k)%Z).
  { induction k as [|k IH]; [lia|]. specialize (Hclock k). lia. }
  assert (Hlast : (deadline <= clock (S (Z.to_nat (timeout / POLL_INTERVAL))))%Z).
  { etrans; [|apply Hlater]. unfold deadline. pose proof (Z.mul_succ_div_gt timeout POLL_INTERVAL ltac:(done)).
    assert (0 <= timeout / POLL_INTERVAL)%Z by (apply Z.div_pos; done).
    rewrite Nat2Z.inj_succ, Z2Nat.id by done. lia. }
  assert (Hrun : ∀ fuel k, (deadline <= clock (k + fuel)%nat)%Z →
    ∃ j r, wait_for_peer_identity (S fuel) views clock c timeout deadline k = Some r ∧ k ≤ j ≤ k + fuel ∧
      poll_answer views clock c timeout deadline j = Some r ∧
      ∀ i, k ≤ i → i < j → poll_answer views clock c timeout deadline i = None).
  { induction fuel as [|fuel IH]; intros k Hk; cbn [wait_for_peer_identity];
      destruct (peers_on_channel (views k) c) as [|p ps] eqn:Hp;
      try (exists k, (Ok p); unfold poll_answer; rewrite Hp; split_and!; [done|lia|lia|done|intros; lia]);
      destruct (is_connection_active (views k) c) eqn:Ha; cbn [negb];
      try (exists k, (Err ChannelClosed); unfold poll_answer; rewrite Hp, Ha; split_and!; [done|lia|lia|done|intros; lia]);
      destruct (Z.leb_spec deadline (clock k)) as [Hd|Hd];
      try (exists k, (Err (IdentityTimeout timeout)); unfold poll_answer; rewrite Hp, Ha, (proj2 (Z.leb_le _ _) Hd); split_and!; [done|lia|lia|done|intros; lia]).
    - rewrite Nat.add_0_r in Hk. lia.
    - destruct (IH (S k)) as (j & r & Hw & Hj & Hr & Hbefore); [by replace (S k + fuel) with (k + S fuel) by lia|].
      exists j, r. split_and!; [exact Hw|lia|lia|done|]. intros i Hi Hij. destruct (decide (i = k)) as [->|]; [|apply Hbefore; lia].
      unfold poll_answer. rewrite Hp, Ha. cbn. by rewrite (proj2 (Z.leb_gt _ _) Hd). }
  destruct (Hrun (S (Z.to_nat (timeout / POLL_INTERVAL))) 0 Hlast) as (j & r & Hw & Hj & Hr & Hbefore).
  exists j, r. split_and!; [exact Hw|unfold wait_fuel; lia|done|]. intros i Hi. apply Hbefore; lia.
Qed.
End pubsub.
