(* ===== verification/MessagingSamples.v ===== *)
(** * The transport's messages at work

    Wire messages, the registry of peers and channels, and the inbound and
    outbound paths on small inputs. *)

From Stdlib Require Import Ascii.
From stdpp Require Import prelude gmap strings.
From S2P Require Import Prelude Keys Ip Address Models PeerRecord SignedAddress SignedSamples Tasks Wire Channels Receiving Sending.

Module MessagingSamples.
Import SignedSamples.

#[local] Existing Instance plain_transport.
#[local] Existing Instance toy_crypto.
#[local] Instance in_order : HashOrder :=
  {| hash_iter K V l := l; hash_iter_perm K V l := reflexivity l |}.

(** ** Codecs *)

Fixpoint pos_text (p : positive) : string :=
  match p with
  | xH => EmptyString
  | xO p => String "0" (pos_text p)
  | xI p => String "1" (pos_text p)
  end.
Fixpoint text_pos (s : string) : positive :=
  match s with
  | EmptyString => xH
  | String c s => if Ascii.eqb c "0" then xO (text_pos s) else xI (text_pos s)
  end.
Lemma text_pos_text p : text_pos (pos_text p) = p.
Proof. induction p as [p IH|p IH|]; cbn; by rewrite ?IH. Qed.

#[local] Instance plain_sockets : SocketText :=
  {| socket_to_string sa := pos_text (encode sa);
     socket_parse s := decode (text_pos s);
     socket_parse_display sa := eq_trans (f_equal decode (text_pos_text (encode sa))) (decode_encode sa) |}.

Definition wire_tuple (m : WireMessage) : string * list Z * Key * N * string * list Z * list Z :=
  (wire_protocol m, wire_data m, wire_from m, wire_timestamp m, wire_user_agent m, wire_public_key m, wire_signature m).
Definition tuple_wire (x : string * list Z * Key * N * string * list Z * list Z) : WireMessage :=
  let '(a, b, c, d, e, f, g) := x in mk_wire a b c d e f g.

#[local] Instance wire_eq_dec : EqDecision WireMessage.
Proof. solve_decision. Defined.
#[local] Instance wire_countable : Countable WireMessage :=
  inj_countable' wire_tuple tuple_wire (λ m, match m with mk_wire _ _ _ _ _ _ _ => eq_refl end).

Definition envelope_tuple (e : RequestResponseEnvelope) : string * bool * list Z := (message_id e, is_response e, payload e).
Definition tuple_envelope (x : string * bool * list Z) : RequestResponseEnvelope := mk_envelope x.1.1 x.1.2 x.2.
#[local] Instance envelope_eq_dec : EqDecision RequestResponseEnvelope.
Proof. solve_decision. Defined.
#[local] Instance envelope_countable : Countable RequestResponseEnvelope :=
  inj_countable' envelope_tuple tuple_envelope (λ e, match e with mk_envelope _ _ _ => eq_refl end).

#[local] Instance plain_wire : WireCodec.
Proof.
  refine {|
    to_stdvec_wire m := Ok (to_bytes m);
    from_bytes_wire := of_bytes;
    to_stdvec_tuple p d f t u := Ok (to_bytes (p, d, f, t, u));
    to_allocvec_envelope e := Ok (to_bytes e);
    from_bytes_envelope := of_bytes;
  |}.
  - intros m bytes [= <-]. apply of_to_bytes.
  - intros p d f t u p' d' f' t' u' bytes [= H1] [= H2].
    assert (Ok (p, d, f, t, u) = Ok (E := string) (p', d', f', t', u')) as [= -> -> -> -> ->]; [|done].
    rewrite <-(of_to_bytes (p, d, f, t, u)), <-(of_to_bytes (p', d', f', t', u')). congruence.
  - intros e bytes [= <-]. apply of_to_bytes.
Defined.

Definition plain (a : SocketAddr) : SocketAddr := a.
Definition sock (d : Z) : SocketAddr := socket_new (V4 (ipv4 203 0 113 d)) 9000.
Definition channel (d : Z) : string := socket_to_string (sock d).

Lemma toy_signature_nonempty (sig : MlDsaSignature) : sig_as_bytes sig ≠ [].
Proof. intros Hnil. pose proof (octets_length sig) as H. unfold sig_as_bytes in Hnil. cbn in Hnil. by rewrite Hnil in H. Qed.

(** ** Wire messages *)

Definition me : NodeIdentity := identity_of alice_key alice_key.
Definition hello : list Z := match create_protocol_message me "node/1" "chat" [104%Z] (Some 7%N) with Ok b => b | Err _ => [] end.

Lemma wire_roundtrip_witness :
  create_protocol_message me "node/1" "chat" [104%Z] (Some 7%N) = Ok hello ∧
  ∃ timestamp, Some 7%N = Some timestamp ∧
    parse_protocol_message hello (channel 1) =
      Some (mk_parsed (Message "chat" (Some alice) (Some (quic (sock 1))) timestamp [104%Z]) (Some alice) "node/1" 1).
Proof.
  split; [by vm_compute|].
  destruct (wire_roundtrip toy_signature_nonempty alice_key alice_key "node/1" "chat" [104%Z] (Some 7%N) hello (channel 1) eq_refl)
    as (t & Ht & Hp); [left; by vm_compute|].
  exists t. split; [done|]. rewrite Hp. unfold channel. by rewrite socket_parse_display.
Defined.

Definition owner_signed (m : list Z) : Prop :=
  ∃ pk sig, peer_id_from_public_key pk = alice ∧ ml_dsa_verify pk m sig = Ok true.

Definition heard : ParsedMessage :=
  mk_parsed (Message "chat" (Some alice) (Some (quic (sock 1))) 7 [104%Z]) (Some alice) "node/1" 1.

Lemma heard_parsed : parse_protocol_message hello (channel 1) = Some heard.
Proof.
  destruct (frame_parses toy_signature_nonempty alice_key alice_key "node/1" "chat" [104%Z] (Some 7%N) hello (channel 1) eq_refl)
    as (t & [= <-] & Hp); [by vm_compute|].
  rewrite Hp. unfold channel. by rewrite socket_parse_display.
Qed.

Lemma wire_authenticity_witness :
  ∃ topic timestamp data signable,
    event heard = Message topic (Some alice) (quic <$> socket_parse (channel 1)) timestamp data ∧ owner_signed signable.
Proof.
  destruct (wire_authenticity hello (channel 1) heard alice owner_signed) as (topic & timestamp & data & signable & He & Hs & _).
  - intros pk m sig Hp Hv. by exists pk, sig.
  - exact heard_parsed.
  - done.
  - by exists topic, timestamp, data, signable.
Defined.

(** ** Peers and channels *)

Definition bob : PeerId := key_of_bytes [66%Z].
Definition joined : Registry := registry_run plain [Register (sock 1) bob "node/1" 0].

Lemma joined_reachable : reachable (operations plain) registry_new joined.
Proof. apply reachable_run; [by eexists|apply reachable_refl]. Qed.

Lemma has_agent_witness :
  peer_user_agent joined bob = Some "node/1" ∧
  (is_peer_connected joined bob = true ↔ is_Some (peer_user_agent joined bob)).
Proof.
  split; [by_decide|]. exact (proj1 (connected_peer_has_agent plain joined bob joined_reachable)).
Defined.

(** A connection the rate limiter refuses is not closed: its establishment
    event makes the channel active, and its first signed message connects the
    peer. *)
Definition refused : Registry :=
  registry_run plain [Accept (sock 1) false 0; ConnectionEstablished (sock 1) 0; Register (sock 1) bob "node/1" 1].

Lemma rate_limited_peer_connects :
  is_connection_active refused (channel 1) = true ∧ is_peer_connected refused bob = true ∧ closed refused = [].
Proof. split_and!; by_decide. Qed.

(** A signed message of Bob arrives while the node disconnects from him: the
    registration finds no entry and makes one, the disconnection then takes
    Bob off the channel's list.  Bob stays connected on a closed channel that
    no longer leads back to him. *)
Definition race : pool Registry :=
  schedule [operation plain (DisconnectPeer bob); operation plain (Register (sock 1) bob "node/1" 1)]
    [0; 1; 1; 1; 1; 1; 0; 0; 0; 0; 0] joined.
Definition zombie : Registry := race.2.

(** The later loss of the connection and a send to Bob do not change that. *)
Definition haunted : Registry :=
  run (operation plain (RemoveChannel (channel 1))) (run (operation plain (ConnectionLost (sock 1))) zombie).

Lemma zombie_peer :
  reachable (operations plain) registry_new zombie ∧ race.1 = [Finished; Finished] ∧
  is_peer_connected zombie bob = true ∧ is_Some (peer_user_agent zombie bob) ∧
  peer_to_channel zombie !! bob = Some {[channel 1]} ∧ channel_to_peers zombie = ∅ ∧ active_connections zombie = ∅ ∧
  last (broadcasts zombie) = Some (PeerDisconnected bob) ∧ is_peer_connected haunted bob = true.
Proof.
  split.
  { eapply reachable_trans; [exact joined_reachable|]. apply schedule_reachable. repeat constructor; by eexists. }
  split_and!; [vm_cast_no_check (eq_refl (race.1))|by_decide..|vm_cast_no_check (eq_refl (last (broadcasts zombie)))|by_decide].
Qed.

(** ** Sends *)

(** Bob's channel is stale at the first attempt; before the reconnect lock is
    taken another sender has connected to him again, at the same address. *)
Definition stale_then_fresh (i : nat) : Instant :=
  mk_instant (λ _ _, if (i <=? 1)%nat then Err [None; Some EndpointPeerNotFound] else Ok tt) (λ _, true) (Some 7%N) (Z.of_nat i)
    (λ r, if Nat.eqb i 3 then run (operation plain (Register (sock 1) bob "node/1" 3)) r else r).

Lemma stale_then_fresh_consistent i r : consistent r → consistent (meanwhile (stale_then_fresh i) r).
Proof.
  intros H. unfold stale_then_fresh. cbn [meanwhile].
  destruct (Nat.eqb i 3); [apply (operation_consistent plain _ r H)|done].
Qed.

Definition no_redial (i : nat) : Redial := mk_redial None [] (λ _, false).
Definition outbox (r : Registry) : Outbound := mk_outbound r (mk_sent 0 0 0 0 0) [] 0.
Definition sent : result unit SendError * Outbound :=
  send_message me "node/1" stale_then_fresh no_redial (outbox joined) bob "chat" [104%Z] [].

(** The channel id is the peer's address, so the cleanup of the stale channel
    closes the other sender's fresh connection, and the send fails although a
    working connection was there. *)
Lemma fresh_connection_closed :
  is_peer_connected (meanwhile (stale_then_fresh 3) registry_new) bob = true ∧
  sent.1 = Err PeerNotFound ∧ closed (out_registry sent.2) = [sock 1] ∧ is_peer_connected (out_registry sent.2) bob = false ∧
  length (attempts sent.2) = 1.
Proof. vm_compute. repeat split. Qed.

End MessagingSamples.
