(* ===== verification/Engine.v ===== *)
(** * The DHT core engine

    [DhtCoreEngine] of [src/dht/core_engine.rs]: queries over the routing
    table, touches and publications, and admission of peers with IP
    diversity, trust and staleness rules.  An operation runs under one
    acquisition of the table's lock and reads the clock once; [None] is a
    panic.  The order in which the addresses of a candidate are checked is
    that of a hash set ([HashOrder]). *)

From Stdlib Require Import SpecFloat.
From stdpp Require Import prelude sorting gmap.
From S2P Require Import Prelude Float Keys Ip Address PeerRecord SignedAddress NodeInfo KBucket RoutingTable Diversity.

(** ** Data *)

Inductive RoutingTableEvent :=
  | PeerAdded (p : PeerId)
  | PeerRemoved (p : PeerId)
  | KClosestPeersChanged (old new : list PeerId).

(** [Admitted_] is the source's [Admitted]. *)
Inductive AdmissionResult `{TransportLib} :=
  | Admitted_ (events : list RoutingTableEvent)
  | StaleRevalidationNeeded (candidate : NodeInfo) (candidate_ips : list IpAddr)
      (candidate_bucket_idx : nat) (stale_peers : list (PeerId * nat)).

Inductive PeerSwapReason := BucketIpDiversity | CloseGroupIpDiversity | LowTrust.

Record PlannedPeerSwap := mk_swap {
  swap_peer : PeerId;
  swap_reason : PeerSwapReason;
  evicted_trust_score : option spec_float;
  swap_score_threshold : option spec_float;
}.

Record RoutingTableStats := mk_stats {
  total_peers : nat;
  bucket_counts : list nat;
  stale_peer_count : nat;
}.

Inductive EngineError := KValueTooSmall (k : nat) | SwapThresholdOutOfRange (t : spec_float).

Inductive AdmissionError :=
  | AddingSelf
  | NothingStorable
  | MulticastOrUnspecified
  | LoopbackRejected
  | InsertingSelf
  | IpDiversity (x : DiversityExceeded)
  | BucketAtCapacity (len max : nat)
  | InsertFailed (x : AddNodeError)
  | StillAtCapacity.

#[export] Instance RoutingTableEvent_eq_dec : EqDecision RoutingTableEvent.
Proof. solve_decision. Defined.
#[export] Instance AdmissionError_eq_dec : EqDecision AdmissionError.
Proof. solve_decision. Defined.
#[export] Instance AdmissionResult_eq_dec `{TransportLib} : EqDecision AdmissionResult.
Proof. solve_decision. Defined.

(** What an admission returns, next to the table it leaves behind. *)
Abbreviation Admission := (option (result AdmissionResult AdmissionError * KademliaRoutingTable)).

(** Nanoseconds: 15 minutes. *)
Definition LIVE_THRESHOLD : Z := 900 * 10 ^ 9.


Definition planned (p : PeerId) (reason : PeerSwapReason) : PlannedPeerSwap :=
  {| swap_peer := p; swap_reason := reason; evicted_trust_score := None; swap_score_threshold := None |}.
Definition trust_based (p : PeerId) (score threshold : spec_float) : PlannedPeerSwap :=
  {| swap_peer := p; swap_reason := LowTrust; evicted_trust_score := Some score;
     swap_score_threshold := Some threshold |}.

Definition planned_swaps_contain (swaps : list PlannedPeerSwap) (p : PeerId) : bool :=
  existsb (λ s, bool_decide (swap_peer s = p)) swaps.

Section engine.
Context `{TL : TransportLib}.
Implicit Types (e : DhtCoreEngine) (t : KademliaRoutingTable) (node : NodeInfo) (now : Instant).

Definition with_table e t : DhtCoreEngine :=
  {| engine_node_id := engine_node_id e; routing_table := t; k_value := k_value e;
     ip_diversity_config := ip_diversity_config e; allow_loopback := allow_loopback e;
     swap_threshold := swap_threshold e; live_threshold := live_threshold e; shutdown := shutdown e |}.

Definition engine_new (self : PeerId) (k : nat) (loopback : bool) (threshold : spec_float) now
    : result DhtCoreEngine EngineError :=
  if (k <? 4)%nat then Err (KValueTooSmall k)
  else if negb (SFleb f64_zero threshold && SFltb threshold f64_one) || bool_decide (threshold = S754_nan)
  then Err (SwapThresholdOutOfRange threshold)
  else Ok {| engine_node_id := self; routing_table := table_new self k now; k_value := k;
             ip_diversity_config := diversity_default; allow_loopback := loopback;
             swap_threshold := threshold; live_threshold := LIVE_THRESHOLD; shutdown := false |}.

Definition set_ip_diversity_config e (c : IPDiversityConfig) : DhtCoreEngine :=
  {| engine_node_id := engine_node_id e; routing_table := routing_table e; k_value := k_value e;
     ip_diversity_config := c; allow_loopback := allow_loopback e;
     swap_threshold := swap_threshold e; live_threshold := live_threshold e; shutdown := shutdown e |}.

Definition signal_shutdown e : DhtCoreEngine :=
  {| engine_node_id := engine_node_id e; routing_table := routing_table e; k_value := k_value e;
     ip_diversity_config := ip_diversity_config e; allow_loopback := allow_loopback e;
     swap_threshold := swap_threshold e; live_threshold := live_threshold e; shutdown := true |}.

(** ** Queries *)

Definition is_stale e now node : bool := elapsed_exceeds now (last_seen node) (live_threshold e).

Definition stale_k_closest e now : list PeerId :=
  id <$> List.filter (is_stale e now) (find_closest_nodes (routing_table e) (engine_node_id e) (k_value e)).

(** The random bytes are those of [PeerId::random()]. *)
Definition generate_random_key_for_bucket e (random : PeerId) (bucket_idx : nat) : option DhtKey :=
  if (KADEMLIA_BUCKET_COUNT <=? bucket_idx)%nat then None
  else
    let byte_idx := (bucket_idx / 8)%nat in
    let bit_idx := (7 - Z.of_nat (bucket_idx mod 8)%nat)%Z in
    let leading := Z.shiftl 1 bit_idx in
    let below_mask := ((leading - 1) mod 256)%Z in
    let at_idx := Z.lor leading (Z.land (nth byte_idx (key_bytes random) 0%Z) below_mask) in
    let distance := replicate byte_idx 0%Z ++ at_idx :: drop (S byte_idx) (key_bytes random) in
    Some (key_of_bytes (xor_bytes (key_bytes (engine_node_id e)) distance)).

Definition routing_table_size e : nat := node_count (routing_table e).

Definition remove_node_by_id e (p : PeerId) : option (list RoutingTableEvent * DhtCoreEngine) :=
  let t := routing_table e in
  match find_node_by_id t p with
  | None => Some ([], e)
  | Some _ =>
      let k_before := k_closest_ids t (k_value e) in
      t ← table_remove_node t p;
      let k_after := k_closest_ids t (k_value e) in
      Some (PeerRemoved p :: (if bool_decide (k_before = k_after) then []
                              else [KClosestPeersChanged k_before k_after]), with_table e t)
  end.

Definition find_nodes e (key : DhtKey) (count : nat) : list NodeInfo :=
  find_closest_nodes (routing_table e) key count.
Definition find_nodes_with_publish_seq e (key : DhtKey) (count : nat) : list (NodeInfo * N) :=
  find_closest_nodes_with_publish_seq (routing_table e) key count.

Definition find_nodes_with_self e (key : DhtKey) (count : nat) now : list NodeInfo :=
  let candidates := find_closest_nodes (routing_table e) key count in
  let self_info := {| id := engine_node_id e; naddresses := []; naddress_types := []; last_seen := now |} in
  let self_dist := xor_distance (engine_node_id e) key in
  let pos := default (length candidates)
    (position (λ n, ltb self_dist (xor_distance (id n) key)) candidates) in
  take count (take pos candidates ++ self_info :: drop pos candidates).

Definition get_node_addresses e (p : PeerId) : list MultiAddr :=
  from_option naddresses [] (find_node_by_id (routing_table e) p).
Definition get_node_addresses_typed e (p : PeerId) : list (MultiAddr * AddressType) :=
  from_option (λ n, imap (λ i addr, (addr, address_type_at n i)) (naddresses n)) []
    (find_node_by_id (routing_table e) p).
Definition node_last_seen_elapsed e (p : PeerId) now : option Z :=
  (λ n, Z.max 0 (now - last_seen n)) <$> find_node_by_id (routing_table e) p.
Definition has_node e (p : PeerId) : bool := bool_decide (is_Some (find_node_by_id (routing_table e) p)).

Definition routing_table_stats e now : RoutingTableStats :=
  let counts := (λ b, length (get_nodes b)) <$> buckets (routing_table e) in
  {| total_peers := sum_list counts; bucket_counts := counts;
     stale_peer_count := length (List.filter (is_stale e now) (all_nodes (routing_table e))) |}.

(** ** Touches and publications *)

Definition engine_touch_node e (p : PeerId) (address : option MultiAddr) now : option (bool * DhtCoreEngine) :=
  '(r, t) ← touch_node (routing_table e) p address Unverified now; Some (r, with_table e t).

(** The read lock is released before the write lock is taken: [interfere] is
    what other tasks do to the table in between. *)
Definition engine_touch_node_typed e (p : PeerId) (address : option MultiAddr) (ty : AddressType)
    (interfere : KademliaRoutingTable → KademliaRoutingTable) now now' : option (bool * DhtCoreEngine) :=
  '(fast, t) ← try_touch_last_seen (routing_table e) p address ty now;
  match fast with
  | Some r => Some (r, with_table e t)
  | None => '(r, t) ← touch_node (interfere t) p address ty now'; Some (r, with_table e t)
  end.

Definition engine_touch_legacy_relay_hint e (p : PeerId) (addr : MultiAddr) now : option (bool * DhtCoreEngine) :=
  '(r, t) ← touch_legacy_relay_hint_if_unsequenced (routing_table e) p addr now; Some (r, with_table e t).

Definition engine_merge_upgrade_only e (p : PeerId) (addr : MultiAddr) (ty : AddressType)
    : option (bool * DhtCoreEngine) :=
  '(r, t) ← table_merge_upgrade_only (routing_table e) p addr ty; Some (r, with_table e t).

Definition filter_publish_address_set e (typed : list (MultiAddr * AddressType))
    : option (list (MultiAddr * AddressType)) :=
  if Nat.eqb (length typed) 0 then None
  else Some ((λ q, (q.1, for_advertised_address q.1 q.2)) <$>
    List.filter (λ q, allow_loopback e
                      || negb (from_option (λ i, ip_is_loopback (canonicalize_ip i)) false (ip q.1))) typed).

Definition engine_replace e (p : PeerId) (typed : list (MultiAddr * AddressType)) (seq : N) now
    : option (bool * DhtCoreEngine) :=
  match filter_publish_address_set e typed with
  | None => Some (false, e)
  | Some filtered =>
      '(r, t) ← replace_node_addresses (routing_table e) p filtered seq now; Some (r, with_table e t)
  end.

Definition engine_replace_from_gossip e (p : PeerId) (typed : list (MultiAddr * AddressType)) (seq : N) now
    : option (bool * DhtCoreEngine) :=
  match filter_publish_address_set e typed with
  | None => Some (false, e)
  | Some filtered =>
      '(r, t) ← replace_node_addresses_from_gossip (routing_table e) p filtered seq now; Some (r, with_table e t)
  end.

Definition engine_store_transport `{!PostcardLib} e (p : PeerId) (set : TransportAddressSet)
    (native : list (MultiAddr * AddressType)) (authoritative : bool) now : option (bool * DhtCoreEngine) :=
  let mode := if authoritative then AuthenticatedSelfPublish else GossipedRecord in
  '(r, t) ← store_transport_address_set (routing_table e) p set native mode now; Some (r, with_table e t).

(** ** Admission *)

(** [for (i, addr) in node.addresses.iter().enumerate()
    { routing.touch_node(..) }]. *)
Fixpoint touch_each t (p : PeerId) (l : list (MultiAddr * AddressType)) now : option KademliaRoutingTable :=
  match l with
  | [] => Some t
  | (addr, ty) :: l' => '(_, t) ← touch_node t p (Some addr) ty now; touch_each t p l' now
  end.

Definition typed_addresses node : list (MultiAddr * AddressType) :=
  imap (λ i addr, (addr, address_type_at node i)) (naddresses node).

(** [KClosestPeersChanged], when the close group changed. *)
Definition k_changed e t t' : list RoutingTableEvent :=
  let k_before := k_closest_ids t (k_value e) in
  let k_after := k_closest_ids t' (k_value e) in
  if bool_decide (k_before = k_after) then [] else [KClosestPeersChanged k_before k_after].

(** Insertion without diversity checks: peers without an IP address, and
    loopback peers. *)
Definition admit_unchecked e t node now : Admission :=
  match find_node_by_id t (id node) with
  | Some _ => t ← touch_each t (id node) (typed_addresses node) now; Some (Ok (Admitted_ []), t)
  | None =>
      '(r, t') ← table_add_node t node now;
      match r with
      | Err x => Some (Err (InsertFailed x), t')
      | Ok _ => Some (Ok (Admitted_ (PeerAdded (id node) :: k_changed e t t')), t')
      end
  end.

Section trust.
Context (trust_score : PeerId → spec_float).

(** The diversity check of every non-loopback candidate address in turn,
    against the scope without the nodes already planned to go. *)
Fixpoint plan_swaps e now (scope : ScopeName) (reason : PeerSwapReason) (prior : list PlannedPeerSwap)
    (view : list NodeInfo) node (candidate_ips : list IpAddr) (swaps : list PlannedPeerSwap)
    : result (list PlannedPeerSwap) AdmissionError :=
  match candidate_ips with
  | [] => Ok swaps
  | candidate_ip :: rest =>
      if ip_is_loopback candidate_ip then plan_swaps e now scope reason prior view node rest swaps
      else
        let visible := List.filter (λ n, negb (planned_swaps_contain swaps (id n))) view in
        match find_ip_swap_in_scope trust_score e now visible (id node) candidate_ip
                (xor_distance (engine_node_id e) (id node)) scope with
        | Err x => Err (IpDiversity x)
        | Ok None => plan_swaps e now scope reason prior view node rest swaps
        | Ok (Some q) =>
            plan_swaps e now scope reason prior view node rest
              (if planned_swaps_contain prior q || planned_swaps_contain swaps q then swaps
               else swaps ++ [planned q reason])
        end
  end.

Definition plan_bucket_swaps e now (bucket : KBucket) node (candidate_ips : list IpAddr) :=
  plan_swaps e now BucketScope BucketIpDiversity [] (nodes bucket) node candidate_ips [].

Definition candidate_in_close e (close_group : list NodeInfo) (bucket_swaps : list PlannedPeerSwap)
    (candidate_distance : Key) : bool :=
  let kept n := negb (planned_swaps_contain bucket_swaps (id n)) in
  (length (List.filter kept close_group) <? k_value e)%nat
  || from_option (λ n, ltb candidate_distance (xor_distance (engine_node_id e) (id n))) true
       (List.find kept (reverse close_group)).

(** The close group as it would be with the candidate in it. *)
Definition hyp_close e (close_group : list NodeInfo) (bucket_swaps : list PlannedPeerSwap) node : list NodeInfo :=
  take (k_value e) (sort_by_key (λ n, xor_distance (engine_node_id e) (id n))
    (List.filter (λ n, negb (planned_swaps_contain bucket_swaps (id n)) && negb (bool_decide (id n = id node)))
       close_group ++ [node])).

Definition plan_close_swaps e now (close_group : list NodeInfo) (bucket_swaps : list PlannedPeerSwap) node
    (candidate_ips : list IpAddr) : result (list PlannedPeerSwap) AdmissionError :=
  if candidate_in_close e close_group bucket_swaps (xor_distance (engine_node_id e) (id node))
  then plan_swaps e now CloseGroupScope CloseGroupIpDiversity bucket_swaps
         (hyp_close e close_group bucket_swaps node) node candidate_ips []
  else Ok [].

Definition swap_frees_slot t (bucket_idx : nat) (bucket_swaps close_swaps : list PlannedPeerSwap) : bool :=
  negb (Nat.eqb (length bucket_swaps) 0)
  || existsb (λ s, bool_decide (get_bucket_index t (swap_peer s) = Some bucket_idx)) close_swaps.

(** [min_by] with [partial_cmp(..).unwrap_or(Equal)]: the first minimum. *)
Definition min_score_step (acc : option (PeerId * spec_float)) (x : PeerId * spec_float) :=
  match acc with
  | None => Some x
  | Some a => match SFcompare a.2 x.2 with Some Gt => Some x | _ => Some a end
  end.
Definition min_by_score (l : list (PeerId * spec_float)) : option (PeerId * spec_float) :=
  foldl min_score_step None l.

Definition lowest_trust e (bucket : KBucket) : option (PeerId * spec_float) :=
  min_by_score (List.filter (λ x, SFltb x.2 (swap_threshold e))
    ((λ n, (id n, trust_score (id n))) <$> nodes bucket)).

(** The trust-based swap of a full bucket. *)
Definition trust_swap e (bucket : KBucket) (p : PeerId) : list PlannedPeerSwap :=
  if SFltb f64_zero (swap_threshold e) && SFleb (swap_threshold e) (trust_score p) then
    match lowest_trust e bucket with
    | Some (q, score) => [trust_based q score (swap_threshold e)]
    | None => []
    end
  else [].

Definition collect_stale_peers_in_bucket e (bucket : KBucket) (bucket_idx : nat) now : list (PeerId * nat) :=
  (λ n, (id n, bucket_idx)) <$> List.filter (is_stale e now) (nodes bucket).

(** The stale close-group violators that are not listed yet. *)
Definition add_stale_violator e t now (stale : list (PeerId * nat)) (s : PlannedPeerSwap) : list (PeerId * nat) :=
  if existsb (λ x, bool_decide (x.1 = swap_peer s)) stale then stale
  else match get_bucket_index t (swap_peer s), find_node_by_id t (swap_peer s) with
       | Some i, Some n => if is_stale e now n then stale ++ [(swap_peer s, i)] else stale
       | _, _ => stale
       end.

(** The capacity pre-check: the bucket swaps to execute, or an outcome that
    ends the admission. *)
Definition capacity_check e t now node (candidate_ips : list IpAddr) (bucket_idx : nat) (bucket : KBucket)
    (bucket_swaps close_swaps : list PlannedPeerSwap) (allow_stale_revalidation : bool)
    : result (list PlannedPeerSwap) (result AdmissionResult AdmissionError) :=
  let already_exists := existsb (λ n, bool_decide (id n = id node)) (nodes bucket) in
  let has_room := (length (nodes bucket) <? max_size bucket)%nat in
  if negb already_exists && negb has_room && negb (swap_frees_slot t bucket_idx bucket_swaps close_swaps) then
    let bucket_swaps := bucket_swaps ++ trust_swap e bucket (id node) in
    if swap_frees_slot t bucket_idx bucket_swaps close_swaps then Ok bucket_swaps
    else
      let stale := foldl (add_stale_violator e t now) (collect_stale_peers_in_bucket e bucket bucket_idx now)
                     close_swaps in
      if allow_stale_revalidation && negb (Nat.eqb (length stale) 0)
      then Err (Ok (StaleRevalidationNeeded node candidate_ips bucket_idx stale))
      else Err (Err (BucketAtCapacity (length (nodes bucket)) (max_size bucket)))
  else Ok bucket_swaps.

(** The swaps in order, each peer once. *)
Fixpoint execute_swaps t (executed swaps : list PlannedPeerSwap)
    : option (list PlannedPeerSwap * KademliaRoutingTable) :=
  match swaps with
  | [] => Some (executed, t)
  | s :: rest =>
      if planned_swaps_contain executed (swap_peer s) then execute_swaps t executed rest
      else t ← table_remove_node t (swap_peer s); execute_swaps t (executed ++ [s]) rest
  end.

(** Execution of the planned swaps and the insertion. *)
Definition execute_admission e t node now (swaps : list PlannedPeerSwap) : Admission :=
  '(executed, t1) ← execute_swaps t [] swaps;
  '(r, t2) ← table_add_node t1 node now;
  match r with
  | Err x => Some (Err (InsertFailed x), t2)
  | Ok _ => Some (Ok (Admitted_ ((PeerRemoved ∘ swap_peer <$> executed) ++
                                PeerAdded (id node) :: k_changed e t t2)), t2)
  end.

Definition admit_new e t node (candidate_ips : list IpAddr) (allow_stale_revalidation : bool)
    (bucket_idx : nat) (bucket : KBucket) now : Admission :=
  match plan_bucket_swaps e now bucket node candidate_ips with
  | Err x => Some (Err x, t)
  | Ok bucket_swaps =>
      match plan_close_swaps e now (find_closest_nodes t (engine_node_id e) (k_value e)) bucket_swaps
              node candidate_ips with
      | Err x => Some (Err x, t)
      | Ok close_swaps =>
          match capacity_check e t now node candidate_ips bucket_idx bucket bucket_swaps close_swaps
                  allow_stale_revalidation with
          | Err r => Some (r, t)
          | Ok bucket_swaps => execute_admission e t node now (bucket_swaps ++ close_swaps)
          end
      end
  end.

Definition add_with_diversity e t node (candidate_ips : list IpAddr) (allow_stale_revalidation : bool) now
    : Admission :=
  if existsb (λ i, ip_is_unspecified i || ip_is_multicast i) candidate_ips
  then Some (Err MulticastOrUnspecified, t)
  else if negb (allow_loopback e) && existsb ip_is_loopback candidate_ips then Some (Err LoopbackRejected, t)
  else if forallb ip_is_loopback candidate_ips then
    if negb (allow_loopback e) then Some (Err LoopbackRejected, t)
    else admit_unchecked e t node now
  else match get_bucket_index t (id node) with
       | None => Some (Err InsertingSelf, t)
       | Some i =>
           b ← buckets t !! i;
           if existsb (λ n, bool_decide (id n = id node)) (nodes b) then
             '(_, t) ← touch_node t (id node) None Unverified now;
             t ← touch_each t (id node) (typed_addresses node) now;
             Some (Ok (Admitted_ []), t)
           else admit_new e t node candidate_ips allow_stale_revalidation i b now
       end.

Definition on_table e (r : Admission) : option (result AdmissionResult AdmissionError * DhtCoreEngine) :=
  '(r, t) ← r; Some (r, with_table e t).

Context `{HO : HashOrder}.

(** The canonical addresses of a candidate, collected in a hash set. *)
Definition candidate_ips_of node : list IpAddr := set_iter (all_ips node).

Definition engine_add_node e node now : option (result AdmissionResult AdmissionError * DhtCoreEngine) :=
  if bool_decide (id node = engine_node_id e) then Some (Err AddingSelf, e)
  else
    let node := retain_storable_addresses node in
    if Nat.eqb (length (naddresses node)) 0 then Some (Err NothingStorable, e)
    else
      let candidate_ips := candidate_ips_of node in
      if Nat.eqb (length candidate_ips) 0 then on_table e (admit_unchecked e (routing_table e) node now)
      else on_table e (add_with_diversity e (routing_table e) node candidate_ips true now).

Definition re_evaluate_admission e candidate (candidate_ips : list IpAddr) now
    : option (result (list RoutingTableEvent) AdmissionError * DhtCoreEngine) :=
  '(r, e) ← on_table e (add_with_diversity e (routing_table e) candidate candidate_ips false now);
  Some (match r with
        | Err x => Err x
        | Ok (Admitted_ events) => Ok events
        | Ok (StaleRevalidationNeeded _ _ _ _) => Err StillAtCapacity
        end, e).
End trust.
End engine.
