(* ===== verification/Admission.v ===== *)
(** * Correctness of admission

    The invariant of [DhtCoreEngine] and the theorems on its operations:
    what an admission may change, whom it may evict and why, that a refused
    admission changes nothing, and that the bucket's IP diversity never gets
    worse than its limits. *)

From Stdlib Require Import SpecFloat.
From stdpp Require Import prelude sorting gmap.
From S2P Require Import Prelude Float Keys Ip Address PeerRecord NodeInfo KBucket RoutingTable Diversity Engine.

Section tables.
Context `{TL : TransportLib}.
Implicit Types (t : KademliaRoutingTable) (now : Instant) (p q : PeerId).

(** ** Members after one bucket changed *)

Lemma member_set_bucket t i b b' q :
  buckets t !! i = Some b →
  member (set_bucket t i b') q ↔
  q ∈ id <$> nodes b' ∨ ∃ j c, j ≠ i ∧ buckets t !! j = Some c ∧ q ∈ id <$> nodes c.
Proof.
  intros Hb. unfold member. setoid_rewrite elem_of_all_nodes. cbn [buckets set_bucket set_buckets]. split.
  - intros (n & (j & c & Hc & Hn) & <-). apply list_lookup_insert_Some in Hc as [(<- & <- & _)|[Hne Hc]].
    + left. by apply list_elem_of_fmap_2.
    + right. exists j, c. split_and!; [congruence|done|by apply list_elem_of_fmap_2].
  - intros [(n & -> & Hn)%list_elem_of_fmap|(j & c & Hne & Hc & (n & -> & Hn)%list_elem_of_fmap)].
    + exists n. split; [|done]. exists i, b'. split; [|done]. apply list_lookup_insert_eq. by eapply lookup_lt_Some.
    + exists n. split; [|done]. exists j, c. split; [|done]. by rewrite list_lookup_insert_ne.
Qed.

Lemma member_bucket_ids t i b q :
  buckets t !! i = Some b →
  member t q ↔ q ∈ id <$> nodes b ∨ ∃ j c, j ≠ i ∧ buckets t !! j = Some c ∧ q ∈ id <$> nodes c.
Proof.
  intros Hb. rewrite <- (member_set_bucket t i b b q Hb). unfold set_bucket, member, all_nodes. cbn [buckets set_buckets].
  by rewrite list_insert_id.
Qed.

Lemma set_bucket_same t i b : buckets t !! i = Some b → set_bucket t i b = t.
Proof. intros Hb. destruct t. unfold set_bucket, set_buckets. cbn in *. by rewrite list_insert_id. Qed.

Lemma touch_node_member k t p address ty now r t' :
  table_wf k t → touch_node t p address ty now = Some (r, t') →
  node_id t' = node_id t ∧ ∀ q, member t' q ↔ member t q.
Proof.
  intros Hwf. unfold touch_node. cbn zeta. destruct (get_bucket_index t p) as [i|] eqn:Hi; [|by intros [= _ <-]].
  destruct (table_bucket_at _ _ _ _ Hwf Hi) as (b & Hb & Hbwf & _). rewrite Hb. cbn [mbind option_bind].
  destruct (touch_node_typed_ids b p (if has_address_publication t p then None else address) ty now Hbwf)
    as (f & b' & -> & _ & _ & Hids). cbn [mbind option_bind]. intros [= _ <-]. split; [done|].
  intros q. rewrite (member_set_bucket t i b b' q Hb), (member_bucket_ids t i b q Hb). by rewrite Hids.
Qed.

Lemma not_member_unpublished k t p : table_wf k t → ¬ member t p → has_address_publication t p = false.
Proof.
  intros Hwf Hm. unfold has_address_publication, publish_seq_for, transport_address_set.
  destruct (address_publications t !! p) eqn:Hp; [|done]. destruct Hm. apply (table_pubs _ _ Hwf). by rewrite Hp.
Qed.

Lemma member_find k t p : table_wf k t → member t p ↔ is_Some (find_node_by_id t p).
Proof.
  intros Hwf. unfold find_node_by_id. split.
  - intros (i & b & Hi & Hb & (n & -> & Hn)%list_elem_of_fmap)%(member_bucket _ _ _ Hwf).
    rewrite Hi. cbn [mbind option_bind]. rewrite Hb. cbn [mbind option_bind].
    destruct (table_bucket _ _ Hwf _ _ Hb) as [Hbwf _]. rewrite (find_node_elem b n Hbwf Hn). eauto.
  - destruct (get_bucket_index t p) as [i|] eqn:Hi; [|by intros []]. cbn [mbind option_bind].
    destruct (buckets t !! i) as [b|] eqn:Hb; [|by intros []]. cbn [mbind option_bind].
    intros [n [Hn Hid%bool_decide_eq_true]%find_Some_iff]. apply (member_bucket _ _ _ Hwf).
    exists i, b. split_and!; [done|done|]. rewrite <- Hid. by apply list_elem_of_fmap_2.
Qed.

(** A failed insertion leaves the table as it was. *)
Lemma table_add_node_err k t node now x t' :
  table_wf k t → table_add_node t node now = Some (Err x, t') → t' = t.
Proof.
  intros Hwf. unfold table_add_node. destruct (has_address_publication t (id node)).
  { destruct (touch_node _ _ _ _ _) as [[? ?]|]; cbn [mbind option_bind]; [|done]. by intros [= ]. }
  destruct (get_bucket_index t (id node)) as [i|] eqn:Hi; [|by intros [= _ <-]].
  destruct (table_bucket_at _ _ _ _ Hwf Hi) as (b & Hb & Hbwf & _). rewrite Hb. cbn [mbind option_bind].
  destruct (add_node_ids b node now Hbwf) as (r & b' & -> & _ & _ & _ & _ & _ & Hsame).
  cbn [mbind option_bind]. intros [= -> <-]. rewrite (Hsame eq_refl). by apply set_bucket_same.
Qed.

(** An insertion into a bucket with room. *)
Lemma table_add_node_room k t node now i b :
  table_wf k t → ¬ member t (id node) → get_bucket_index t (id node) = Some i → buckets t !! i = Some b →
  length (nodes b) < max_size b → (∃ a, a ∈ naddresses node ∧ is_storable a = true) →
  ∃ t' b' n', table_add_node t node now = Some (Ok tt, t') ∧ table_wf k t' ∧ node_id t' = node_id t ∧
    (∀ q, member t' q ↔ member t q ∨ q = id node) ∧
    buckets t' !! i = Some b' ∧ nodes b' = nodes b ++ [n'] ∧ id n' = id node ∧
    (∀ a, a ∈ naddresses n' → a ∈ naddresses node).
Proof.
  intros Hwf Hm Hi Hb Hroom Hst. destruct (table_bucket _ _ Hwf _ _ Hb) as [Hbwf _].
  assert (Hni : id node ∉ id <$> nodes b).
  { intros Hin. apply Hm. by eapply bucket_member. }
  destruct (table_add_node_wf k t node now Hwf) as (r & t' & Hop & Hwf'). pose proof Hop as Hop0.
  unfold table_add_node in Hop. rewrite (not_member_unpublished k t _ Hwf Hm), Hi, Hb in Hop.
  cbn [mbind option_bind] in Hop. destruct (bucket_add_node_spec b node now Hbwf) as [_ Hyes].
  destruct (Hyes Hst) as [_ Hok]. destruct (Hok (or_intror Hroom)) as (b' & n' & Hadd & _ & Hnodes & Hid & _ & _ & _ & Haddr).
  rewrite Hadd in Hop. cbn [mbind option_bind] in Hop. apply (inj Some), pair_eq in Hop as [<- <-].
  rewrite filter_all_id in Hnodes.
  2:{ intros n Hn. apply negb_true_iff, bool_decide_eq_false. intros Heq. apply Hni. rewrite <- Heq. by apply list_elem_of_fmap_2. }
  exists (set_bucket t i b'), b', n'. split_and!; [done|done|done| |by apply list_lookup_insert_eq; eapply lookup_lt_Some|done|done|].
  - intros q. rewrite (member_set_bucket t i b b' q Hb), (member_bucket_ids t i b q Hb), Hnodes, fmap_app, elem_of_app.
    change (id <$> [n']) with [id n']. rewrite list_elem_of_singleton, Hid. tauto.
  - intros a [[Ha _]|(n & Hn & Heq & _)]%Haddr; [done|]. destruct Hni. rewrite <- Heq. by apply list_elem_of_fmap_2.
Qed.

(** The bucket contents after a removal. *)
Lemma table_remove_bucket k t p t' j c :
  table_wf k t → table_remove_node t p = Some t' → buckets t !! j = Some c →
  node_id t' = node_id t ∧ ∃ c', buckets t' !! j = Some c' ∧ max_size c' = max_size c ∧
    nodes c' = List.filter (λ n, negb (bool_decide (id n = p))) (nodes c).
Proof.
  intros Hwf. unfold table_remove_node. destruct (get_bucket_index t p) as [i|] eqn:Hi.
  - destruct (table_bucket_at _ _ _ _ Hwf Hi) as (b & Hb & _). rewrite Hb. cbn [mbind option_bind].
    intros [= <-] Hc. split; [done|]. cbn [buckets set_publications set_bucket set_buckets].
    destruct (decide (j = i)) as [->|Hne].
    + assert (c = b) as -> by congruence. exists (remove_node b p).
      split_and!; [|done..]. apply list_lookup_insert_eq. by eapply lookup_lt_Some.
    + exists c. rewrite list_lookup_insert_ne by done. split_and!; [done..|]. symmetry. apply filter_all_id.
      intros n Hn. apply negb_true_iff, bool_decide_eq_false. intros <-.
      rewrite (table_place _ _ Hwf j c n Hc Hn) in Hi. congruence.
  - intros [= <-] Hc. split; [done|]. exists c. split_and!; [done..|]. symmetry. apply filter_all_id.
    intros n Hn. apply negb_true_iff, bool_decide_eq_false. intros <-.
    rewrite (table_place _ _ Hwf j c n Hc Hn) in Hi. done.
Qed.

(** The close group depends on the members only. *)
Lemma k_closest_members k t t' count :
  table_wf k t → table_wf k t' → node_id t' = node_id t → (∀ q, member t' q ↔ member t q) →
  k_closest_ids t' count = k_closest_ids t count.
Proof.
  intros Hwf Hwf' Hid Hmem. unfold k_closest_ids. rewrite Hid. set (self := node_id t).
  rewrite !find_closest_sort, !fmap_take. f_equal.
  rewrite <- !(sort_by_key_fmap (λ p, xor_distance p self) id). apply sort_unique.
  - pose proof (xor_distance_inj_l self). apply NoDup_fmap_2; [done|]. by eapply all_nodes_NoDup.
  - apply NoDup_Permutation; [by eapply all_nodes_NoDup..|]. intros q.
    rewrite !list_elem_of_fmap. specialize (Hmem q). unfold member in Hmem. naive_solver.
Qed.
End tables.

(** ** Planned swaps *)

Section swaps.
Context `{TL : TransportLib}.
Implicit Types (e : DhtCoreEngine) (t : KademliaRoutingTable) (node n : NodeInfo) (now : Instant)
  (p q : PeerId) (swaps : list PlannedPeerSwap).

Lemma planned_swaps_contain_spec swaps p : planned_swaps_contain swaps p = true ↔ p ∈ swap_peer <$> swaps.
Proof.
  unfold planned_swaps_contain. rewrite existsb_exists, list_elem_of_fmap. setoid_rewrite <- list_elem_of_In.
  setoid_rewrite bool_decide_eq_true. naive_solver.
Qed.

Lemma planned_swaps_contain_false swaps p : planned_swaps_contain swaps p = false ↔ p ∉ swap_peer <$> swaps.
Proof. rewrite <- planned_swaps_contain_spec, not_true_iff_false. done. Qed.

(** The nodes that stay when the swaps are executed. *)
Definition remaining swaps (l : list NodeInfo) : list NodeInfo :=
  List.filter (λ n, negb (planned_swaps_contain swaps (id n))) l.

Lemma elem_of_remaining swaps l n : n ∈ remaining swaps l ↔ n ∈ l ∧ id n ∉ swap_peer <$> swaps.
Proof. unfold remaining. by rewrite elem_of_List_filter, negb_true_iff, planned_swaps_contain_false. Qed.

Lemma remaining_sublist swaps l : remaining swaps l `sublist_of` l.
Proof. apply List_filter_sublist. Qed.

Lemma remaining_cons s swaps l :
  remaining (s :: swaps) l = remaining swaps (List.filter (λ n, negb (bool_decide (id n = swap_peer s))) l).
Proof.
  unfold remaining. induction l as [|n l IH]; [done|]. cbn [List.filter planned_swaps_contain existsb].
  destruct (decide (id n = swap_peer s)) as [Heq|Hne].
  - rewrite (bool_decide_eq_true_2 (swap_peer s = id n)), (bool_decide_eq_true_2 (id n = swap_peer s)) by done.
    cbn [orb negb]. exact IH.
  - rewrite (bool_decide_eq_false_2 (swap_peer s = id n)), (bool_decide_eq_false_2 (id n = swap_peer s)) by done.
    cbn [orb negb List.filter]. fold (planned_swaps_contain swaps (id n)).
    destruct (planned_swaps_contain swaps (id n)); cbn [negb]; [exact IH|]. f_equal. exact IH.
Qed.

(** Execution of swaps: exactly the planned peers go, each reported once. *)
Lemma execute_swaps_spec k t executed swaps :
  table_wf k t → (∀ q, q ∈ swap_peer <$> executed → ¬ member t q) → NoDup (swap_peer <$> executed) →
  ∃ done t', execute_swaps t executed swaps = Some (done, t') ∧ table_wf k t' ∧ node_id t' = node_id t ∧
    NoDup (swap_peer <$> done) ∧
    (∀ q, q ∈ swap_peer <$> done ↔ q ∈ swap_peer <$> executed ∨ q ∈ swap_peer <$> swaps) ∧
    (∀ q, member t' q ↔ member t q ∧ q ∉ swap_peer <$> swaps) ∧
    (∀ i b, buckets t !! i = Some b → ∃ b', buckets t' !! i = Some b' ∧ max_size b' = max_size b ∧
       nodes b' = remaining swaps (nodes b)).
Proof.
  revert t executed. induction swaps as [|s swaps IH]; intros t executed Hwf Hex Hnd; cbn [execute_swaps].
  { exists executed, t. split_and!; [done..| | |].
    - intros q. cbn. set_solver.
    - intros q. cbn. set_solver.
    - intros i b Hb. exists b. split_and!; [done..|]. symmetry. by apply filter_all_id. }
  destruct (planned_swaps_contain executed (swap_peer s)) eqn:Hc.
  - apply planned_swaps_contain_spec in Hc.
    destruct (IH t executed Hwf Hex Hnd) as (dn & t' & -> & Hwf' & Hid & Hnd' & Hdone & Hmem & Hb').
    exists dn, t'. rewrite fmap_cons. split_and!; [done..| | |].
    + intros q. rewrite Hdone, elem_of_cons. naive_solver.
    + intros q. rewrite Hmem, not_elem_of_cons. split; [|naive_solver].
      intros [Hq Hni]. split_and!; [done| |done]. intros ->. by apply (Hex (swap_peer s)).
    + intros i b Hb. destruct (Hb' i b Hb) as (b1 & H1 & H2 & H3). exists b1. split_and!; [done..|].
      rewrite H3, remaining_cons. f_equal. symmetry. apply filter_all_id. intros n Hn.
      apply negb_true_iff, bool_decide_eq_false. intros Heq. apply (Hex (swap_peer s) Hc). rewrite <- Heq.
      eapply bucket_member; [done..|]. by apply list_elem_of_fmap_2.
  - apply planned_swaps_contain_false in Hc.
    destruct (table_remove_node_wf k t (swap_peer s) Hwf) as (t1 & Hop & Hwf1 & Hmem1 & _).
    rewrite Hop. cbn [mbind option_bind].
    destruct (IH t1 (executed ++ [s]) Hwf1) as (dn & t' & -> & Hwf' & Hid & Hnd' & Hdone & Hmem & Hb').
    { intros q. rewrite fmap_app, elem_of_app, Hmem1. cbn. rewrite list_elem_of_singleton. naive_solver. }
    { rewrite fmap_app. apply NoDup_app. split_and!; [done| |apply NoDup_singleton].
      intros q Hq Hq'. cbn in Hq'. apply list_elem_of_singleton in Hq' as ->. done. }
    assert (Hlen : ∃ b0, buckets t !! 0 = Some b0).
    { apply lookup_lt_is_Some_2. rewrite (table_len _ _ Hwf). unfold KADEMLIA_BUCKET_COUNT. lia. }
    destruct Hlen as [b0 Hb0]. destruct (table_remove_bucket k t _ t1 0 b0 Hwf Hop Hb0) as [Hid1 _].
    exists dn, t'. rewrite fmap_cons. split_and!; [done|done|congruence|done| | |].
    + intros q. rewrite Hdone, fmap_app, elem_of_app, elem_of_cons. cbn. rewrite list_elem_of_singleton. tauto.
    + intros q. rewrite Hmem, Hmem1, not_elem_of_cons. tauto.
    + intros i b Hb. destruct (table_remove_bucket k t _ t1 i b Hwf Hop Hb) as (_ & c & Hc1 & Hmax & Hnodes).
      destruct (Hb' i c Hc1) as (b1 & H1 & H2 & H3). exists b1. split_and!; [done|congruence|].
      by rewrite H3, Hnodes, remaining_cons.
Qed.

(** ** What a diversity swap rests on *)

Context (trust : PeerId → spec_float).

(** [n] may be pushed out of the scope [view] for [node]: one of the
    candidate's addresses (or its subnet) is at its limit in the scope, [n]
    shares it, is strictly farther, and is not a trusted live peer. *)
Record ip_evictable e now node (ips : list IpAddr) (view : list NodeInfo) n : Prop := {
  evict_in : n ∈ view;
  evict_other : id n ≠ id node;
  evict_match : ∃ ip, ip ∈ ips ∧ ip_is_loopback ip = false ∧
    ((node_matches (same_ip ip) n = true ∧ (limit_ip e ≤ N.of_nat (length (matching (id node) (same_ip ip) view)))%N) ∨
     (node_matches (same_subnet ip) n = true ∧
      (limit_subnet e ≤ N.of_nat (length (matching (id node) (same_subnet ip) view)))%N));
  evict_farther : tlt (xor_distance (engine_node_id e) (id node)) (xor_distance (engine_node_id e) (id n));
  evict_unprotected : SFltb (trust (id n)) TRUST_PROTECTION_THRESHOLD = true ∨ is_stale e now n = true;
}.

Lemma matching_length_sublist p f l l' :
  l `sublist_of` l' → length (matching p f l) ≤ length (matching p f l').
Proof.
  intros Hs. unfold matching. induction Hs as [|x l l' Hs IH|x l l' Hs IH]; [done|..];
    cbn [List.filter]; destruct (_ && _); simpl; lia.
Qed.

Lemma find_ip_swap_evictable e now l view node ip scope q :
  l `sublist_of` view → NoDup (id <$> view) → ip_is_loopback ip = false →
  find_ip_swap_in_scope trust e now l (id node) ip (xor_distance (engine_node_id e) (id node)) scope = Ok (Some q) →
  ∃ n, id n = q ∧ n ∈ l ∧ ip_evictable e now node [ip] view n.
Proof.
  intros Hsub Hnd Hl Hr.
  assert (Hnd' : NoDup (id <$> l)) by (eapply sublist_NoDup; [exact Hnd|by apply fmap_sublist]).
  destruct (find_ip_swap_cases trust e now l (id node) ip (xor_distance (engine_node_id e) (id node)) scope Hl Hnd')
    as (_ & Hsome & _).
  pose proof (matching_length_sublist (id node) (same_ip ip) l view Hsub) as H1.
  pose proof (matching_length_sublist (id node) (same_subnet ip) l view Hsub) as H2.
  destruct (Hsome q Hr) as (n & Hid & Hcase). exists n. split; [done|].
  destruct Hcase as [[Hle [Hin _ Hfar Hun]]|(_ & Hle & [Hin _ Hfar Hun])];
    apply elem_of_matching in Hin as (Hin & Hne & Hm); (split; [done|]); constructor; try done;
    try (by eapply elem_of_sublist); exists ip; (split; [by left|]); (split; [done|]); [left|right]; (split; [done|lia]).
Qed.

Lemma ip_evictable_weaken e now node ips ips' view n :
  ip_evictable e now node ips view n → (∀ ip, ip ∈ ips → ip ∈ ips') → ip_evictable e now node ips' view n.
Proof. intros [H1 H2 (ip & Hip & H3) H4 H5] Hsub. constructor; auto. exists ip. auto. Qed.

Lemma plan_swaps_sound e now scope reason prior view node ips swaps out :
  NoDup (id <$> view) →
  plan_swaps trust e now scope reason prior view node ips swaps = Ok out →
  ∃ new, out = swaps ++ new ∧ ∀ s, s ∈ new → s = planned (swap_peer s) reason ∧
    ∃ n, id n = swap_peer s ∧ ip_evictable e now node ips view n.
Proof.
  intros Hnd. revert swaps. induction ips as [|ip ips IH]; intros swaps; cbn [plan_swaps].
  { intros [= <-]. exists []. split; [by rewrite app_nil_r|]. intros s Hs. by apply not_elem_of_nil in Hs. }
  assert (Hstep : ∀ swaps', plan_swaps trust e now scope reason prior view node ips swaps' = Ok out →
    ∃ new, out = swaps' ++ new ∧ ∀ s, s ∈ new → s = planned (swap_peer s) reason ∧
      ∃ n, id n = swap_peer s ∧ ip_evictable e now node (ip :: ips) view n).
  { intros swaps' (new & -> & Hnew)%IH. exists new. split; [done|]. intros s (H1 & n & H2 & H3)%Hnew.
    split; [done|]. exists n. split; [done|]. eapply ip_evictable_weaken; [done|]. intros; by right. }
  destruct (ip_is_loopback ip) eqn:Hl; [apply Hstep|].
  destruct (find_ip_swap_in_scope _ _ _ _ _ _ _ _) as [[q|]|] eqn:Hf; [|apply Hstep|done].
  destruct (_ || _); [apply Hstep|]. intros (new & -> & Hnew)%Hstep.
  exists (planned q reason :: new). split; [by rewrite <- app_assoc|]. intros s [->|Hs]%elem_of_cons; [|by apply Hnew].
  split; [done|]. apply (find_ip_swap_evictable e now _ view) in Hf as (n & Hid & _ & Hev); [|apply List_filter_sublist|done|done].
  exists n. split; [done|]. eapply ip_evictable_weaken; [done|]. intros i ->%list_elem_of_singleton. by left.
Qed.

Lemma plan_swaps_err e now scope reason prior view node ips swaps x :
  plan_swaps trust e now scope reason prior view node ips swaps = Err x → x ≠ StillAtCapacity.
Proof.
  revert swaps. induction ips as [|ip ips IH]; intros swaps; cbn [plan_swaps]; [done|].
  destruct (ip_is_loopback ip); [apply IH|].
  destruct (find_ip_swap_in_scope _ _ _ _ _ _ _ _) as [[q|]|]; [apply IH..|]. by intros [= <-].
Qed.

(** *** Diversity after the swaps *)

Lemma remaining_mono swaps new l : remaining (swaps ++ new) l `sublist_of` remaining swaps l.
Proof.
  unfold remaining. induction l as [|n l IH]; [constructor|]. cbn [List.filter].
  destruct (planned_swaps_contain swaps (id n)) eqn:H1; cbn [negb].
  - rewrite (proj2 (planned_swaps_contain_spec (swaps ++ new) (id n))); [exact IH|].
    rewrite fmap_app, elem_of_app. left. by apply planned_swaps_contain_spec.
  - destruct (planned_swaps_contain (swaps ++ new) (id n)); cbn [negb]; by constructor.
Qed.

(** Dropping a matching node lowers the count. *)
Lemma matching_remaining_lt p f swaps l n :
  n ∈ matching p f l → id n ∈ swap_peer <$> swaps →
  length (matching p f (remaining swaps l)) < length (matching p f l).
Proof.
  intros Hn Hs. apply elem_of_matching in Hn as (Hn & Hne & Hm).
  apply list_elem_of_split in Hn as (l1 & l2 & ->). unfold matching, remaining.
  rewrite !List.filter_app. cbn [List.filter].
  rewrite (proj2 (planned_swaps_contain_spec swaps (id n)) Hs). cbn [negb].
  rewrite (bool_decide_eq_false_2 (id n = p)) by done. cbn [negb andb]. rewrite Hm, !length_app. cbn [length].
  pose proof (matching_length_sublist p f _ l1 (remaining_sublist swaps l1)) as H1.
  pose proof (matching_length_sublist p f _ l2 (remaining_sublist swaps l2)) as H2.
  unfold matching, remaining in H1, H2. lia.
Qed.

(** After the bucket swaps, the candidate fits: of each of its addresses and
    subnets there are fewer other nodes than the limit or than before. *)
Definition fits (limit : N) p f (before after : list NodeInfo) : Prop :=
  (N.of_nat (length (matching p f after)) < N.max limit (N.of_nat (length (matching p f before))))%N.

Lemma fits_sublist limit p f before after after' :
  fits limit p f before after → after' `sublist_of` after → fits limit p f before after'.
Proof. unfold fits. intros H Hs. pose proof (matching_length_sublist p f _ _ Hs). lia. Qed.

Lemma plan_swaps_fits e now scope reason view node ips swaps out ip :
  NoDup (id <$> view) →
  plan_swaps trust e now scope reason [] view node ips swaps = Ok out →
  ip ∈ ips → ip_is_loopback ip = false →
  fits (limit_ip e) (id node) (same_ip ip) view (remaining out view) ∧
  fits (limit_subnet e) (id node) (same_subnet ip) view (remaining out view).
Proof.
  intros Hnd. revert swaps. induction ips as [|i ips IH]; intros swaps; cbn [plan_swaps].
  { intros _ Hip. by apply not_elem_of_nil in Hip. }
  intros Hplan Hip Hl. apply elem_of_cons in Hip as [->|Hip].
  2:{ destruct (ip_is_loopback i); [by eapply IH|].
      destruct (find_ip_swap_in_scope _ _ _ _ _ _ _ _) as [[q|]|]; [by eapply IH|by eapply IH|done]. }
  rewrite Hl in Hplan. fold (remaining swaps view) in Hplan.
  assert (Hsub : ∀ sw, ∃ new, plan_swaps trust e now scope reason [] view node ips sw = Ok out → out = sw ++ new).
  { intros sw. destruct (plan_swaps trust e now scope reason [] view node ips sw) as [o|] eqn:Ho; [|by exists []].
    destruct (plan_swaps_sound _ _ _ _ _ _ _ _ _ _ Hnd Ho) as (new & -> & _). exists new. by intros [= ->]. }
  assert (Hndv : NoDup (id <$> remaining swaps view)).
  { eapply sublist_NoDup; [exact Hnd|]. apply fmap_sublist, remaining_sublist. }
  destruct (find_ip_swap_cases trust e now (remaining swaps view) (id node) i
    (xor_distance (engine_node_id e) (id node)) scope Hl Hndv) as (Hnone & Hsome & _).
  destruct (find_ip_swap_in_scope _ _ _ _ _ _ _ _) as [[q|]|]; [| |done].
  - destruct (Hsome q eq_refl) as (n & Hid & Hcase). clear Hnone Hsome. cbn [planned_swaps_contain existsb orb] in Hplan.
    set (sw := if planned_swaps_contain swaps q then swaps else swaps ++ [planned q reason]) in *.
    assert (Hq : q ∈ swap_peer <$> sw).
    { unfold sw. destruct (planned_swaps_contain swaps q) eqn:Hc; [by apply planned_swaps_contain_spec|].
      rewrite fmap_app, elem_of_app. right. by left. }
    destruct (Hsub sw) as [new Hnew]. specialize (Hnew Hplan). subst out.
    assert (Hdrop : ∀ f, n ∈ matching (id node) f (remaining swaps view) →
      length (matching (id node) f (remaining (sw ++ new) view)) < length (matching (id node) f view)).
    { intros f Hin. apply matching_remaining_lt with n; [|rewrite fmap_app, elem_of_app; left; by subst q].
      apply elem_of_matching in Hin as (Hin & ? & ?). apply elem_of_matching. split; [|done].
      by apply elem_of_remaining in Hin as []. }
    assert (Hmono : ∀ f, length (matching (id node) f (remaining (sw ++ new) view)) ≤
                         length (matching (id node) f (remaining swaps view))).
    { intros f. apply matching_length_sublist. unfold sw. destruct (planned_swaps_contain swaps q).
      - apply remaining_mono.
      - rewrite <- app_assoc. apply remaining_mono. }
    unfold fits. destruct Hcase as [[_ [Hin _ _ _]]|(Hlt & _ & [Hin _ _ _])].
    + assert (Hin' : n ∈ matching (id node) (same_subnet i) (remaining swaps view)).
      { apply elem_of_matching in Hin as (? & ? & (x & Hx & Hxx)%node_matches_spec). apply elem_of_matching.
        split_and!; [done..|]. apply node_matches_spec. exists x. split; [done|]. by apply same_ip_subnet. }
      pose proof (Hdrop _ Hin). pose proof (Hdrop _ Hin'). lia.
    + pose proof (Hdrop _ Hin). specialize (Hmono (same_ip i)). lia.
  - pose proof (proj1 Hnone eq_refl) as Hlt. destruct (Hsub swaps) as [new Hnew]. specialize (Hnew Hplan). subst out.
    pose proof (matching_length_sublist (id node) (same_ip i) _ _ (remaining_mono swaps new view)).
    pose proof (matching_length_sublist (id node) (same_subnet i) _ _ (remaining_mono swaps new view)).
    unfold fits. lia.
Qed.
End swaps.

(** ** Trust scores *)

Lemma min_by_score_spec (l : list (PeerId * spec_float)) :
  (∀ x, x ∈ l → x.2 ≠ S754_nan) →
  match min_by_score l with
  | None => l = []
  | Some x => x ∈ l ∧ ∀ y, y ∈ l → tle (sf_rank x.2) (sf_rank y.2)
  end.
Proof.
  unfold min_by_score. induction l as [|y l IH] using rev_ind; intros Hnn; [done|].
  rewrite foldl_app. cbn [foldl]. specialize (IH ltac:(set_solver)).
  destruct (foldl _ _ l) as [x|]; cbn [min_score_step].
  - destruct IH as [Hx Hmin].
    assert (Hy : y.2 ≠ S754_nan) by (apply Hnn; set_solver).
    assert (Hxn : x.2 ≠ S754_nan) by (apply Hnn; set_solver).
    rewrite SFcompare_rank by done. destruct (cmp (sf_rank x.2) (sf_rank y.2)) eqn:Hc.
    1,2: split; [set_solver|]; intros z [Hz|Hz]%elem_of_app; [by apply Hmin|];
      apply list_elem_of_singleton in Hz as ->; unfold tle; congruence.
    assert (tlt (sf_rank y.2) (sf_rank x.2)).
    { apply tlt_not_tle. intros Hle. by apply Hle. }
    split; [set_solver|]. intros z [Hz|Hz]%elem_of_app; [|by apply list_elem_of_singleton in Hz as ->].
    apply tlt_tle. eapply tlt_le_trans; [done|by apply Hmin].
  - subst l. split; [set_solver|]. intros z Hz. cbn in Hz. apply list_elem_of_singleton in Hz as ->. done.
Qed.

(** ** Admission of a new peer *)

Section admission.
Context `{TL : TransportLib} (trust : PeerId → spec_float).
Implicit Types (e : DhtCoreEngine) (t : KademliaRoutingTable) (node n : NodeInfo) (now : Instant)
  (p q : PeerId) (swaps : list PlannedPeerSwap) (b : KBucket).

(** [n] may be evicted from the full bucket [b] for its low trust. *)
Record trust_evictable e p b n : Prop := {
  low_in : n ∈ nodes b;
  low_full : max_size b ≤ length (nodes b);
  low_below : SFltb (trust (id n)) (swap_threshold e) = true;
  low_candidate : SFleb (swap_threshold e) (trust p) = true;
  low_lowest m : m ∈ nodes b → SFltb (trust (id m)) (trust (id n)) = false;
}.

Lemma trust_swap_sound e b p s :
  max_size b ≤ length (nodes b) → s ∈ trust_swap trust e b p →
  ∃ n, id n = swap_peer s ∧ trust_evictable e p b n.
Proof.
  intros Hfull. unfold trust_swap. destruct (SFltb f64_zero (swap_threshold e)); cbn [andb]; [|by intros ?%not_elem_of_nil].
  destruct (SFleb (swap_threshold e) (trust p)) eqn:Hcand; [|by intros ?%not_elem_of_nil].
  unfold lowest_trust. set (l := List.filter _ _).
  assert (Hl : ∀ x, x ∈ l ↔ (∃ n, x = (id n, trust (id n)) ∧ n ∈ nodes b) ∧ SFltb x.2 (swap_threshold e) = true).
  { intros x. unfold l. by rewrite elem_of_List_filter, list_elem_of_fmap. }
  assert (Hnn : ∀ x, x ∈ l → x.2 ≠ S754_nan).
  { intros x [_ Hx]%Hl. by apply SFltb_rank in Hx as []. }
  pose proof (min_by_score_spec l Hnn) as Hmin. destruct (min_by_score l) as [[q sc]|]; [|by intros ?%not_elem_of_nil].
  intros ->%list_elem_of_singleton. destruct Hmin as [[(n & [= -> ->] & Hn) Hlow]%Hl Hmin].
  exists n. split; [done|]. constructor; [done..|]. intros m Hm.
  destruct (SFltb (trust (id m)) (trust (id n))) eqn:Hlt; [|done].
  apply SFltb_rank in Hlt as (Hm1 & Hn1 & Hlt). apply SFltb_rank in Hlow as (_ & Ht & Hlow).
  assert (Hin : (id m, trust (id m)) ∈ l).
  { apply Hl. split; [by exists m|]. apply SFltb_rank. split_and!; [done..|]. cbn.
    eapply tlt_le_trans; [exact Hlt|]. by apply tlt_tle. }
  apply Hmin in Hin. cbn in Hin. by apply tlt_not_tle in Hlt.
Qed.

(** *** The close group *)

Lemma elem_of_find_closest t key count n : n ∈ find_closest_nodes t key count → n ∈ all_nodes t.
Proof.
  rewrite find_closest_sort. intros Hn.
  eapply elem_of_sublist in Hn; [|apply sublist_take]. by rewrite elem_of_sort in Hn.
Qed.

Lemma find_closest_NoDup k t key count : table_wf k t → NoDup (id <$> find_closest_nodes t key count).
Proof.
  intros Hwf. rewrite find_closest_sort. eapply sublist_NoDup; [|apply fmap_sublist, sublist_take].
  rewrite sort_perm. by eapply all_nodes_NoDup.
Qed.

Lemma hyp_close_spec e k t key count bucket_swaps node :
  table_wf k t → let h := hyp_close e (find_closest_nodes t key count) bucket_swaps node in
  NoDup (id <$> h) ∧ ∀ n, n ∈ h → id n ≠ id node → n ∈ all_nodes t.
Proof.
  intros Hwf. cbn zeta. unfold hyp_close. set (l := List.filter _ _). split.
  - eapply sublist_NoDup; [|apply fmap_sublist, sublist_take]. rewrite sort_perm, fmap_app.
    apply NoDup_app. split_and!; [|intros q Hq Hq'|apply NoDup_singleton].
    + eapply sublist_NoDup; [by apply (find_closest_NoDup k t key count)|]. apply fmap_sublist, List_filter_sublist.
    + cbn in Hq'. apply list_elem_of_singleton in Hq' as ->. apply list_elem_of_fmap in Hq as (n & Heq & Hn).
      unfold l in Hn. apply elem_of_List_filter in Hn as [_ [_ Hn]%andb_true_iff].
      apply negb_true_iff, bool_decide_eq_false in Hn. by symmetry in Heq.
  - intros n Hn Hne. eapply elem_of_sublist in Hn; [|apply sublist_take]. rewrite elem_of_sort in Hn.
    apply elem_of_app in Hn as [Hn|Hn]; [|by apply list_elem_of_singleton in Hn as ->].
    unfold l in Hn. apply elem_of_List_filter in Hn as [Hn _]. by eapply elem_of_find_closest.
Qed.

(** Why a member may lose its slot to [node]. *)
Definition evictable e now t node (ips : list IpAddr) q : Prop :=
  ∃ n, n ∈ all_nodes t ∧ id n = q ∧
    ((∃ scope, ip_evictable trust e now node ips scope n ∧ ∀ m, m ∈ scope → id m ≠ id node → m ∈ all_nodes t) ∨
     (∃ i b, get_bucket_index t (id node) = Some i ∧ buckets t !! i = Some b ∧ trust_evictable e (id node) b n)).

(** *** The capacity check *)

Lemma existsb_id b p : existsb (λ n, bool_decide (id n = p)) (nodes b) = true ↔ p ∈ id <$> nodes b.
Proof.
  rewrite existsb_exists, list_elem_of_fmap. setoid_rewrite <- list_elem_of_In.
  setoid_rewrite bool_decide_eq_true. naive_solver.
Qed.

Lemma capacity_check_ok e t now node ips i b bucket_swaps close_swaps allow out :
  id node ∉ id <$> nodes b →
  capacity_check trust e t now node ips i b bucket_swaps close_swaps allow = Ok out →
  (length (nodes b) < max_size b ∨ swap_frees_slot t i out close_swaps = true) ∧
  ∃ extra, out = bucket_swaps ++ extra ∧
    ∀ s, s ∈ extra → max_size b ≤ length (nodes b) ∧ s ∈ trust_swap trust e b (id node).
Proof.
  intros Hni. unfold capacity_check. cbn zeta.
  assert (existsb (λ n, bool_decide (id n = id node)) (nodes b) = false) as ->.
  { apply not_true_iff_false. by rewrite existsb_id. }
  cbn [negb andb]. destruct (Nat.ltb_spec (length (nodes b)) (max_size b)) as [Hlt|Hge]; cbn [negb andb].
  { intros [= <-]. split; [by left|]. exists []. split; [by rewrite app_nil_r|]. intros s Hs. by apply not_elem_of_nil in Hs. }
  destruct (swap_frees_slot t i bucket_swaps close_swaps) eqn:Hf; cbn [negb].
  { intros [= <-]. split; [by right|]. exists []. split; [by rewrite app_nil_r|]. intros s Hs. by apply not_elem_of_nil in Hs. }
  destruct (swap_frees_slot t i (bucket_swaps ++ _) close_swaps) eqn:Hf'.
  - intros [= <-]. split; [by right|]. eexists. split; [done|]. auto.
  - by destruct (allow && _).
Qed.

(** A stale peer to be pinged: a member, with its own bucket index. *)
Definition stale_member e t now (x : PeerId * nat) : Prop :=
  ∃ n, n ∈ all_nodes t ∧ id n = x.1 ∧ get_bucket_index t x.1 = Some x.2 ∧ is_stale e now n = true.

Lemma find_node_by_id_elem t p n : find_node_by_id t p = Some n → n ∈ all_nodes t ∧ id n = p.
Proof.
  unfold find_node_by_id. destruct (get_bucket_index t p) as [i|]; [|done]. cbn [mbind option_bind].
  destruct (buckets t !! i) as [b|] eqn:Hb; [|done]. cbn [mbind option_bind].
  intros [Hn Hid%bool_decide_eq_true]%find_Some_iff. split; [|done]. apply elem_of_all_nodes. eauto.
Qed.

Lemma stale_violators e t now l acc :
  (∀ x, x ∈ acc → stale_member e t now x) →
  ∀ x, x ∈ foldl (add_stale_violator e t now) acc l → stale_member e t now x.
Proof.
  revert acc. induction l as [|s l IH]; intros acc Hacc; [done|]. cbn [foldl]. apply IH. intros x.
  unfold add_stale_violator. destruct (existsb _ _); [apply Hacc|].
  destruct (get_bucket_index t (swap_peer s)) as [i|] eqn:Hi; [|apply Hacc].
  destruct (find_node_by_id t (swap_peer s)) as [n|] eqn:Hf; [|apply Hacc].
  destruct (is_stale e now n) eqn:Hs; [|apply Hacc].
  intros [Hx|Hx]%elem_of_app; [by apply Hacc|]. apply list_elem_of_singleton in Hx as ->.
  apply find_node_by_id_elem in Hf as [Hn Hid]. by exists n.
Qed.

Lemma capacity_check_err k e t now node ips i b bucket_swaps close_swaps allow r :
  table_wf k t → buckets t !! i = Some b → id node ∉ id <$> nodes b →
  capacity_check trust e t now node ips i b bucket_swaps close_swaps allow = Err r →
  length (nodes b) = max_size b ∧
  (r = Err (BucketAtCapacity (length (nodes b)) (max_size b)) ∨
   ∃ stale, r = Ok (StaleRevalidationNeeded node ips i stale) ∧ allow = true ∧ stale ≠ [] ∧
     ∀ x, x ∈ stale → stale_member e t now x).
Proof.
  intros Hwf Hb Hni. unfold capacity_check. cbn zeta.
  assert (existsb (λ n, bool_decide (id n = id node)) (nodes b) = false) as ->.
  { apply not_true_iff_false. by rewrite existsb_id. }
  destruct (table_bucket _ _ Hwf _ _ Hb) as [Hbwf _]. pose proof (bucket_size _ Hbwf).
  cbn [negb andb]. destruct (Nat.ltb_spec (length (nodes b)) (max_size b)) as [Hlt|Hge]; cbn [negb andb]; [done|].
  destruct (swap_frees_slot t i bucket_swaps close_swaps); cbn [negb]; [done|].
  destruct (swap_frees_slot t i (bucket_swaps ++ _) close_swaps); [done|].
  set (stale := foldl _ _ _). destruct allow; cbn [andb].
  2:{ intros [= <-]. split; [lia|by left]. }
  destruct (Nat.eqb_spec (length stale) 0) as [Hz|Hnz]; cbn [negb]; intros [= <-]; (split; [lia|]); [by left|right].
  exists stale. split_and!; [done|done|by destruct stale|]. apply stale_violators.
  unfold collect_stale_peers_in_bucket. intros x (n & -> & [Hn Hs]%elem_of_List_filter)%list_elem_of_fmap.
  exists n. cbn [fst snd]. split_and!; [apply elem_of_all_nodes; eauto|done|exact (table_place _ _ Hwf i b n Hb Hn)|done].
Qed.

(** *** Outcomes *)

Definition peers_sharing (f : IpAddr → bool) b : N := N.of_nat (length (List.filter (node_matches f) (nodes b))).

(** The new peer was inserted, after the evictions the events report. *)
Record inserted e now t node (ips : list IpAddr) (events : list RoutingTableEvent) t' : Prop := {
  ins_new : ¬ member t (id node);
  ins_evicted : ∃ gone, events = (PeerRemoved <$> gone) ++ PeerAdded (id node) :: k_changed e t t' ∧
    NoDup gone ∧ (∀ q, q ∈ gone → evictable e now t node ips q) ∧
    (∀ q, member t' q ↔ (member t q ∧ q ∉ gone) ∨ q = id node);
  ins_diverse i b b' ip : get_bucket_index t (id node) = Some i → buckets t !! i = Some b → buckets t' !! i = Some b' →
    ip ∈ ips → ip_is_loopback ip = false →
    (peers_sharing (same_ip ip) b' ≤ N.max (limit_ip e) (peers_sharing (same_ip ip) b))%N ∧
    (peers_sharing (same_subnet ip) b' ≤ N.max (limit_subnet e) (peers_sharing (same_subnet ip) b))%N;
}.

Lemma remaining_length_lt swaps (l : list NodeInfo) n :
  n ∈ l → id n ∈ swap_peer <$> swaps → length (remaining swaps l) < length l.
Proof.
  intros (l1 & l2 & ->)%list_elem_of_split Hs. unfold remaining. rewrite List.filter_app. cbn [List.filter].
  rewrite (proj2 (planned_swaps_contain_spec swaps (id n)) Hs). cbn [negb]. rewrite !length_app. cbn [length].
  pose proof (sublist_length _ _ (remaining_sublist swaps l1)). pose proof (sublist_length _ _ (remaining_sublist swaps l2)).
  unfold remaining in *. lia.
Qed.

(** The planned swaps make room in the bucket. *)
Lemma swaps_make_room k t i b bucket_swaps close_swaps :
  table_wf k t → buckets t !! i = Some b →
  (∀ s, s ∈ bucket_swaps → swap_peer s ∈ id <$> nodes b) →
  (∀ s, s ∈ close_swaps → member t (swap_peer s)) →
  length (nodes b) < max_size b ∨ swap_frees_slot t i bucket_swaps close_swaps = true →
  length (remaining (bucket_swaps ++ close_swaps) (nodes b)) < max_size b.
Proof.
  intros Hwf Hb Hbs Hcs Hroom. destruct (table_bucket _ _ Hwf _ _ Hb) as [Hbwf _].
  pose proof (bucket_size _ Hbwf) as Hsize.
  pose proof (sublist_length _ _ (remaining_sublist (bucket_swaps ++ close_swaps) (nodes b))) as Hle.
  destruct Hroom as [Hlt|Hf]; [lia|].
  assert (Hgone : ∃ q, q ∈ id <$> nodes b ∧ q ∈ swap_peer <$> (bucket_swaps ++ close_swaps)).
  { unfold swap_frees_slot in Hf. apply orb_true_iff in Hf as [Hne|Hex].
    - destruct bucket_swaps as [|s bs]; [done|]. exists (swap_peer s). split; [apply Hbs; by left|by left].
    - apply existsb_exists in Hex as (s & Hs%list_elem_of_In & Hi%bool_decide_eq_true). exists (swap_peer s). split.
      + destruct (proj1 (member_bucket _ _ _ Hwf) (Hcs s Hs)) as (j & c & Hj & Hc & Hin). congruence.
      + rewrite fmap_app, elem_of_app. right. by apply list_elem_of_fmap_2. }
  destruct Hgone as (q & (n & -> & Hn)%list_elem_of_fmap & Hq).
  pose proof (remaining_length_lt _ _ n Hn Hq). lia.
Qed.

Lemma sharing_after f p (l l' : list NodeInfo) n' limit :
  fits limit p f l l' → (∀ n, n ∈ l → id n ≠ p) → (∀ n, n ∈ l' → id n ≠ p) →
  (N.of_nat (length (List.filter (node_matches f) (l' ++ [n']))) ≤
   N.max limit (N.of_nat (length (List.filter (node_matches f) l))))%N.
Proof.
  intros Hfits Hl Hl'.
  assert (Hm : ∀ k : list NodeInfo, (∀ n, n ∈ k → id n ≠ p) → matching p f k = List.filter (node_matches f) k).
  { intros k Hk. unfold matching. apply List.filter_ext_in. intros n Hn%list_elem_of_In.
    by rewrite bool_decide_eq_false_2 by auto. }
  unfold fits in Hfits. rewrite (Hm l Hl), (Hm l' Hl') in Hfits. rewrite List.filter_app, length_app.
  cbn [List.filter]. destruct (node_matches f n'); cbn [length]; lia.
Qed.

Definition storable node : Prop := ∃ a, a ∈ naddresses node ∧ is_storable a = true.

Lemma execute_admission_spec k e t node now ips i b swaps bucket_swaps :
  table_wf k t → get_bucket_index t (id node) = Some i → buckets t !! i = Some b →
  id node ∉ id <$> nodes b → storable node →
  length (remaining swaps (nodes b)) < max_size b →
  (∀ s, s ∈ swaps → swap_peer s ≠ id node ∧ evictable e now t node ips (swap_peer s)) →
  remaining swaps (nodes b) `sublist_of` remaining bucket_swaps (nodes b) →
  (∀ ip, ip ∈ ips → ip_is_loopback ip = false →
     fits (limit_ip e) (id node) (same_ip ip) (nodes b) (remaining bucket_swaps (nodes b)) ∧
     fits (limit_subnet e) (id node) (same_subnet ip) (nodes b) (remaining bucket_swaps (nodes b))) →
  ∃ events t', execute_admission e t node now swaps = Some (Ok (Admitted_ events), t') ∧ table_wf k t' ∧
    node_id t' = node_id t ∧ inserted e now t node ips events t'.
Proof.
  intros Hwf Hi Hb Hni Hst Hroom Hev Hsub Hfits.
  assert (Hnm : ¬ member t (id node)).
  { intros (j & c & Hj & Hc & Hin)%(member_bucket _ _ _ Hwf). congruence. }
  destruct (execute_swaps_spec k t [] swaps Hwf) as (gone & t1 & Hex & Hwf1 & Hid1 & Hnd & Hgone & Hmem1 & Hbk).
  { intros q Hq. by apply not_elem_of_nil in Hq. }
  { constructor. }
  destruct (Hbk i b Hb) as (b1 & Hb1 & Hmax1 & Hnodes1).
  assert (Hi1 : get_bucket_index t1 (id node) = Some i).
  { unfold get_bucket_index, get_bucket_index_for_key in *. by rewrite Hid1. }
  destruct (table_add_node_room k t1 node now i b1) as (t2 & b2 & n' & Hadd & Hwf2 & Hid2 & Hmem2 & Hb2 & Hnodes2 & _);
    [done|rewrite Hmem1; tauto|done|done|rewrite Hmax1, Hnodes1; done|done|].
  unfold execute_admission. rewrite Hex. cbn [mbind option_bind]. rewrite Hadd. cbn [mbind option_bind].
  eexists _, t2. split; [done|]. split_and!; [done|congruence|]. constructor; [done| |].
  - exists (swap_peer <$> gone). rewrite list_fmap_compose. split_and!; [done|done| |].
    + intros q [Hq|(s & -> & Hs)%list_elem_of_fmap]%Hgone; [by apply not_elem_of_nil in Hq|]. by apply Hev.
    + intros q. rewrite Hmem2, Hmem1, Hgone. cbn. rewrite elem_of_nil. tauto.
  - intros i' c c' ip Hi' Hc Hc' Hip Hl. assert (i' = i) as -> by congruence.
    assert (c = b) as -> by congruence. assert (c' = b2) as -> by congruence. unfold peers_sharing.
    rewrite Hnodes2, Hnodes1. destruct (Hfits ip Hip Hl) as [H1 H2].
    assert (Hne : ∀ n, n ∈ nodes b → id n ≠ id node).
    { intros n Hn Heq. apply Hni. rewrite <- Heq. by apply list_elem_of_fmap_2. }
    assert (Hne' : ∀ n, n ∈ remaining swaps (nodes b) → id n ≠ id node).
    { intros n [Hn _]%elem_of_remaining. by apply Hne. }
    split; eapply sharing_after; eauto using fits_sublist.
Qed.

(** The outcome of an admission and the table it leaves behind. *)
Inductive admission_outcome e now t node (ips : list IpAddr) (allow : bool)
    : result AdmissionResult AdmissionError → KademliaRoutingTable → Prop :=
  | outcome_refused err : err ≠ StillAtCapacity → admission_outcome e now t node ips allow (Err err) t
  | outcome_revalidate i b stale :
      get_bucket_index t (id node) = Some i → buckets t !! i = Some b → length (nodes b) = max_size b →
      allow = true → stale ≠ [] → (∀ x, x ∈ stale → stale_member e t now x) →
      admission_outcome e now t node ips allow (Ok (StaleRevalidationNeeded node ips i stale)) t
  | outcome_updated t' :
      member t (id node) → (∀ q, member t' q ↔ member t q) →
      k_closest_ids t' (k_value e) = k_closest_ids t (k_value e) →
      admission_outcome e now t node ips allow (Ok (Admitted_ [])) t'
  | outcome_inserted events t' :
      inserted e now t node ips events t' → admission_outcome e now t node ips allow (Ok (Admitted_ events)) t'.

(** An admission that ends: no panic, and a well-formed table. *)
Definition admits k e now t node ips (allow : bool) (r : Admission) : Prop :=
  ∃ res t', r = Some (res, t') ∧ table_wf k t' ∧ node_id t' = node_id t ∧ admission_outcome e now t node ips allow res t'.

Lemma touch_each_spec k t p l now :
  table_wf k t → ∃ t', touch_each t p l now = Some t' ∧ table_wf k t' ∧ node_id t' = node_id t ∧
    ∀ q, member t' q ↔ member t q.
Proof.
  revert t. induction l as [|[a ty] l IH]; intros t Hwf; cbn [touch_each]; [eauto|].
  destruct (touch_node_wf k t p (Some a) ty now Hwf) as (f & t1 & Hop & Hwf1).
  destruct (touch_node_member k t p _ _ _ _ _ Hwf Hop) as [Hid1 Hmem1]. rewrite Hop. cbn [mbind option_bind].
  destruct (IH t1 Hwf1) as (t' & -> & Hwf' & Hid' & Hmem'). exists t'. split_and!; [done..|congruence|].
  intros q. by rewrite Hmem', Hmem1.
Qed.

Lemma table_add_node_cases k t node now :
  table_wf k t → ¬ member t (id node) →
  (∃ x, table_add_node t node now = Some (Err x, t)) ∨
  (∃ t', table_add_node t node now = Some (Ok tt, t') ∧ table_wf k t' ∧ node_id t' = node_id t ∧
     ∀ q, member t' q ↔ member t q ∨ q = id node).
Proof.
  intros Hwf Hm. destruct (table_add_node_wf k t node now Hwf) as (r & t' & Hop & Hwf').
  destruct r as [[]|x]; [right|left; exists x; by rewrite <- (table_add_node_err k t node now x t' Hwf Hop) at 2].
  pose proof Hop as Hop'. unfold table_add_node in Hop'. rewrite (not_member_unpublished k t _ Hwf Hm) in Hop'.
  destruct (get_bucket_index t (id node)) as [i|] eqn:Hi; [|done].
  destruct (table_bucket_at _ _ _ _ Hwf Hi) as (b & Hb & Hbwf & _). rewrite Hb in Hop'. cbn [mbind option_bind] in Hop'.
  destruct (bucket_add_node_spec b node now Hbwf) as [Hno Hyes].
  assert (Hni : id node ∉ id <$> nodes b) by (intros Hin; apply Hm; by eapply bucket_member).
  destruct (decide (Exists (λ a, is_storable a = true) (naddresses node))) as [Hex|Hnex].
  2:{ rewrite Hno in Hop'; [done|]. intros a Ha. destruct (is_storable a) eqn:Hs; [|done].
      destruct Hnex. apply Exists_exists. eauto. }
  apply Exists_exists in Hex. pose proof (bucket_size _ Hbwf) as Hsize.
  destruct (decide (length (nodes b) < max_size b)) as [Hlt|Hge].
  2:{ destruct (Hyes Hex) as [Hfull _]. rewrite Hfull in Hop'; [done|done|lia]. }
  destruct (table_add_node_room k t node now i b Hwf Hm Hi Hb Hlt Hex) as (t1 & b1 & n1 & Hop1 & H1 & H2 & H3 & _).
  exists t1. split_and!; done.
Qed.

Lemma admit_unchecked_spec k e t node now ips allow :
  table_wf k t → (∀ ip, ip ∈ ips → ip_is_loopback ip = true) → admits k e now t node ips allow (admit_unchecked e t node now).
Proof.
  intros Hwf Hips. unfold admit_unchecked, admits. destruct (find_node_by_id t (id node)) as [n|] eqn:Hf.
  - assert (Hm : member t (id node)) by (apply (member_find k); [done|by rewrite Hf]).
    destruct (touch_each_spec k t (id node) (typed_addresses node) now Hwf) as (t' & -> & Hwf' & Hid & Hmem).
    cbn [mbind option_bind]. eexists _, t'. split_and!; [done..|]. apply outcome_updated; [done..|].
    by apply (k_closest_members k).
  - assert (Hm : ¬ member t (id node)).
    { intros Hm. apply (member_find k) in Hm as [? Hm]; [|done]. by rewrite Hf in Hm. }
    destruct (table_add_node_cases k t node now Hwf Hm) as [[x Hop]|(t' & Hop & Hwf' & Hid & Hmem)];
      rewrite Hop; cbn [mbind option_bind].
    + eexists _, t. split_and!; [done..|]. by constructor.
    + eexists _, t'. split_and!; [done..|]. constructor. constructor; [done| |].
      * exists []. split_and!; [done|constructor| |].
        -- intros q Hq. by apply not_elem_of_nil in Hq.
        -- intros q. rewrite Hmem, elem_of_nil. tauto.
      * intros i b b' ip _ _ _ Hip Hl. rewrite (Hips ip Hip) in Hl. done.
Qed.

(** The swaps planned for the close group concern members. *)
Lemma plan_close_sound k e now t bucket_swaps node ips close_swaps :
  table_wf k t →
  plan_close_swaps trust e now (find_closest_nodes t (engine_node_id e) (k_value e)) bucket_swaps node ips = Ok close_swaps →
  ∀ s, s ∈ close_swaps → swap_peer s ≠ id node ∧ evictable e now t node ips (swap_peer s).
Proof.
  intros Hwf. unfold plan_close_swaps. destruct (candidate_in_close _ _ _ _).
  2:{ intros [= <-] s Hs. by apply not_elem_of_nil in Hs. }
  destruct (hyp_close_spec e k t (engine_node_id e) (k_value e) bucket_swaps node Hwf) as [Hnd Hall].
  intros (new & -> & Hnew)%(plan_swaps_sound trust); [|done]. cbn [app]. intros s Hs.
  destruct (Hnew s Hs) as (_ & n & Hid & Hev). rewrite <- Hid. split; [by destruct Hev|].
  exists n. split_and!; [|done|left; eauto]. apply Hall; by destruct Hev.
Qed.

Lemma plan_bucket_sound k e now t i b node ips swaps :
  table_wf k t → buckets t !! i = Some b → plan_bucket_swaps trust e now b node ips = Ok swaps →
  ∀ s, s ∈ swaps → swap_peer s ∈ id <$> nodes b ∧ swap_peer s ≠ id node ∧ evictable e now t node ips (swap_peer s).
Proof.
  intros Hwf Hb Hp. destruct (table_bucket _ _ Hwf _ _ Hb) as [Hbwf _].
  apply plan_swaps_sound in Hp as (new & -> & Hnew); [|apply (bucket_ids _ Hbwf)]. cbn [app]. intros s Hs.
  destruct (Hnew s Hs) as (_ & n & Hid & Hev). rewrite <- Hid. destruct Hev as [Hin Hne ? ? ?] eqn:Heq.
  split_and!; [by apply list_elem_of_fmap_2|done|].
  exists n. split_and!; [apply elem_of_all_nodes; eauto|done|]. left. exists (nodes b). split; [done|].
  intros m Hm _. apply elem_of_all_nodes. eauto.
Qed.

Lemma admit_new_spec k e t node ips allow i b now :
  table_wf k t → get_bucket_index t (id node) = Some i → buckets t !! i = Some b →
  id node ∉ id <$> nodes b → storable node → admits k e now t node ips allow (admit_new trust e t node ips allow i b now).
Proof.
  intros Hwf Hi Hb Hni Hst. unfold admit_new, admits. destruct (table_bucket _ _ Hwf _ _ Hb) as [Hbwf _].
  destruct (plan_bucket_swaps trust e now b node ips) as [bs|x] eqn:Hbs.
  2:{ eexists _, t. split_and!; [done..|]. constructor. by eapply plan_swaps_err. }
  pose proof (plan_bucket_sound k e now t i b node ips bs Hwf Hb Hbs) as Hbsound.
  destruct (plan_close_swaps _ _ _ _ _ _ _) as [cs|x] eqn:Hcs.
  2:{ eexists _, t. split_and!; [done..|]. constructor. unfold plan_close_swaps in Hcs.
      destruct (candidate_in_close _ _ _ _); [|done]. by eapply plan_swaps_err. }
  pose proof (plan_close_sound k e now t bs node ips cs Hwf Hcs) as Hcsound.
  destruct (capacity_check _ _ _ _ _ _ _ _ _ _ _) as [out|r] eqn:Hcap.
  2:{ destruct (capacity_check_err k e t now node ips i b bs cs allow r Hwf Hb Hni Hcap)
        as [Hfull [->|(stale & -> & Hallow & Hne & Hstale)]]; eexists _, t; (split_and!; [done..|]).
      - by constructor.
      - by apply (outcome_revalidate _ _ _ _ _ _ i b). }
  destruct (capacity_check_ok e t now node ips i b bs cs allow out Hni Hcap) as [Hroom (extra & -> & Hextra)].
  assert (Hx : ∀ s, s ∈ extra → swap_peer s ∈ id <$> nodes b ∧ swap_peer s ≠ id node ∧
    evictable e now t node ips (swap_peer s)).
  { intros s [Hfull Hs]%Hextra. destruct (trust_swap_sound e b (id node) s Hfull Hs) as (n & Hid & Hlow).
    pose proof (low_in _ _ _ _ Hlow) as Hn. rewrite <- Hid.
    assert (Hin : id n ∈ id <$> nodes b) by (by apply list_elem_of_fmap_2).
    split_and!; [done|congruence|]. exists n. split_and!; [apply elem_of_all_nodes; eauto|done|]. right. eauto. }
  assert (Hall : ∀ s, s ∈ bs ++ extra → swap_peer s ∈ id <$> nodes b ∧ swap_peer s ≠ id node ∧
    evictable e now t node ips (swap_peer s)).
  { intros s [Hs|Hs]%elem_of_app; auto. }
  destruct (execute_admission_spec k e t node now ips i b ((bs ++ extra) ++ cs) bs)
    as (events & t' & Hex & Hwf' & Hid & Hins); [done..| | | | |].
  - eapply swaps_make_room; [done..| | |done].
    + intros s Hs. by apply Hall.
    + intros s Hs. destruct (Hcsound s Hs) as [_ (n & Hn & Hid & _)]. by exists n.
  - intros s [Hs|Hs]%elem_of_app; [|by apply Hcsound]. split; by apply Hall.
  - rewrite <- app_assoc. apply remaining_mono.
  - intros ip Hip Hl. unfold plan_bucket_swaps in Hbs. eapply plan_swaps_fits; [apply (bucket_ids _ Hbwf)|done..].
  - rewrite Hex. eexists _, t'. split_and!; [done..|]. by constructor.
Qed.

Lemma add_with_diversity_spec k e t node ips allow now :
  table_wf k t → storable node → admits k e now t node ips allow (add_with_diversity trust e t node ips allow now).
Proof.
  intros Hwf Hst. unfold add_with_diversity.
  assert (Hrefuse : ∀ x, x ≠ StillAtCapacity → admits k e now t node ips allow (Some (Err x, t))).
  { intros x Hx. eexists _, t. split_and!; [done..|]. by constructor. }
  destruct (existsb (λ i, ip_is_unspecified i || ip_is_multicast i) ips); [by apply Hrefuse|].
  destruct (_ && _); [by apply Hrefuse|]. destruct (forallb ip_is_loopback ips) eqn:Hall.
  { destruct (negb _); [by apply Hrefuse|]. apply admit_unchecked_spec; [done|]. intros ip Hip.
    rewrite forallb_forall in Hall. apply Hall. by apply list_elem_of_In. }
  destruct (get_bucket_index t (id node)) as [i|] eqn:Hi; [|by apply Hrefuse].
  destruct (table_bucket_at _ _ _ _ Hwf Hi) as (b & Hb & Hbwf & _). rewrite Hb. cbn [mbind option_bind].
  destruct (existsb (λ n, bool_decide (id n = id node)) (nodes b)) eqn:Hex.
  - apply existsb_id in Hex. destruct (touch_node_wf k t (id node) None Unverified now Hwf) as (f & t1 & Hop & Hwf1).
    destruct (touch_node_member k t _ _ _ _ _ _ Hwf Hop) as [Hid1 Hmem1]. rewrite Hop. cbn [mbind option_bind].
    destruct (touch_each_spec k t1 (id node) (typed_addresses node) now Hwf1) as (t' & -> & Hwf' & Hid' & Hmem').
    cbn [mbind option_bind]. assert (Hmem : ∀ q, member t' q ↔ member t q) by (intros q; by rewrite Hmem', Hmem1).
    eexists _, t'. split_and!; [done..|congruence|]. apply outcome_updated; [by eapply bucket_member|done|].
    apply (k_closest_members k); [done..|congruence|done].
  - apply admit_new_spec; [done..| |done]. intros Hin%existsb_id. congruence.
Qed.
End admission.

(** ** The engine *)

Section engine.
Context `{TL : TransportLib}.
Implicit Types (e : DhtCoreEngine) (node n : NodeInfo) (now : Instant) (p q : PeerId)
  (trust : PeerId → spec_float).

Record engine_wf e : Prop := {
  engine_self : node_id (routing_table e) = engine_node_id e;
  engine_table : table_wf (k_value e) (routing_table e);
  engine_k : 4 ≤ k_value e;
}.

Lemma with_table_same e : with_table e (routing_table e) = e.
Proof. by destruct e. Qed.

Lemma with_table_wf e t :
  engine_wf e → table_wf (k_value e) t → node_id t = node_id (routing_table e) → engine_wf (with_table e t).
Proof. intros [H1 H2 H3] Hwf Hid. constructor; cbn; [congruence|done|done]. Qed.

Lemma engine_new_wf self k loopback threshold now e :
  engine_new self k loopback threshold now = Ok e → engine_wf e.
Proof.
  unfold engine_new. destruct (Nat.ltb_spec k 4); [done|]. destruct (_ || _); [done|]. intros [= <-].
  constructor; cbn; [done|apply table_new_wf|lia].
Qed.

Lemma zip_fst_elem {A B} (l : list A) (k : list B) x : x ∈ zip l k → x.1 ∈ l.
Proof. intros Hx. destruct x. by apply elem_of_zip_l in Hx. Qed.

Lemma retain_storable_all node a : a ∈ naddresses (retain_storable_addresses node) →
  a ∈ naddresses node ∧ is_storable a = true.
Proof.
  unfold retain_storable_addresses. cbn. intros ([x ty] & -> & [Hx Hs]%elem_of_List_filter)%list_elem_of_fmap.
  split; [by apply (zip_fst_elem _ _ _ Hx)|done].
Qed.

Lemma retain_storable_storable node :
  length (naddresses (retain_storable_addresses node)) ≠ 0 → storable (retain_storable_addresses node).
Proof.
  intros Hne. destruct (naddresses (retain_storable_addresses node)) as [|a l] eqn:Ha; [done|].
  exists a. assert (Hin : a ∈ naddresses (retain_storable_addresses node)) by (rewrite Ha; by left).
  split; [done|]. exact (proj2 (retain_storable_all _ _ Hin)).
Qed.

Context `{HO : HashOrder}.

(** Every way [add_node] ends. *)
Lemma engine_add_node_outcome trust e node now :
  engine_wf e →
  let c := retain_storable_addresses node in
  ∃ r t', engine_add_node trust e node now = Some (r, with_table e t') ∧ engine_wf (with_table e t') ∧
    admission_outcome trust e now (routing_table e) c (candidate_ips_of c) true r t'.
Proof.
  intros Hwf c. unfold engine_add_node. pose proof (engine_table _ Hwf) as Htab.
  assert (Hrefuse : ∀ x, x ≠ StillAtCapacity → ∃ r t', Some (Err x, e) = Some (r, with_table e t') ∧ engine_wf (with_table e t') ∧
    admission_outcome trust e now (routing_table e) c (candidate_ips_of c) true r t').
  { intros x Hx. exists (Err x), (routing_table e). rewrite with_table_same. split_and!; [done..|by constructor]. }
  case_bool_decide as Hself; [by apply Hrefuse|]. fold c. cbn zeta.
  destruct (Nat.eqb_spec (length (naddresses c)) 0) as [Hz|Hnz]; [by apply Hrefuse|].
  pose proof (retain_storable_storable node Hnz) as Hst. fold c in Hst.
  assert (Hdone : ∀ r, admits trust (k_value e) e now (routing_table e) c (candidate_ips_of c) true r →
    ∃ res t', on_table e r = Some (res, with_table e t') ∧ engine_wf (with_table e t') ∧
      admission_outcome trust e now (routing_table e) c (candidate_ips_of c) true res t').
  { intros r (res & t' & -> & Hwf' & Hid & Hout). exists res, t'. split; [done|]. split; [|done].
    by apply with_table_wf. }
  destruct (Nat.eqb_spec (length (candidate_ips_of c)) 0) as [He|_]; apply Hdone.
  - apply admit_unchecked_spec; [done|]. apply nil_length_inv in He. rewrite He. intros ip Hip. by apply not_elem_of_nil in Hip.
  - by apply add_with_diversity_spec.
Qed.

(** C1: Admission is atomic and total.  On a well-formed engine [add_node]
    never panics and leaves the engine well-formed; when it returns an error
    or asks for stale peers to be revalidated, the engine is exactly as it
    was: no planned swap is executed unless the insertion succeeds. *)
Theorem admission_atomic trust e node now :
  engine_wf e →
  ∃ r e', engine_add_node trust e node now = Some (r, e') ∧ engine_wf e' ∧
    ((∀ events, r ≠ Ok (Admitted_ events)) → e' = e).
Proof.
  intros Hwf. destruct (engine_add_node_outcome trust e node now Hwf) as (r & t' & Hop & Hwf' & Hout).
  exists r, (with_table e t'). split_and!; [done..|]. intros Hno.
  destruct Hout; [apply with_table_same..|by destruct (Hno [])|by destruct (Hno events)].
Qed.

(** The events of an admission are the truth.  An empty list means that
    the peer was in the table already: nobody joined or left and the close
    group is the same.  Otherwise the events are one [PeerRemoved] for each
    evicted peer, the [PeerAdded] of the new peer, and, when the close group
    changed, its old and new members; the members after are those before,
    without the evicted ones, and the new peer. *)
Theorem admission_events trust e node now events e' :
  engine_wf e → engine_add_node trust e node now = Some (Ok (Admitted_ events), e') →
  let t := routing_table e in let t' := routing_table e' in
  (events = [] ∧ member t (id node) ∧ (∀ q, member t' q ↔ member t q) ∧
   k_closest_ids t' (k_value e) = k_closest_ids t (k_value e)) ∨
  (¬ member t (id node) ∧ ∃ gone, NoDup gone ∧ (∀ q, q ∈ gone → member t q) ∧
   events = (PeerRemoved <$> gone) ++ PeerAdded (id node) ::
     (if decide (k_closest_ids t (k_value e) = k_closest_ids t' (k_value e)) then []
      else [KClosestPeersChanged (k_closest_ids t (k_value e)) (k_closest_ids t' (k_value e))]) ∧
   ∀ q, member t' q ↔ (member t q ∧ q ∉ gone) ∨ q = id node).
Proof.
  intros Hwf Hop. destruct (engine_add_node_outcome trust e node now Hwf) as (r & t' & Hop' & _ & Hout).
  rewrite Hop in Hop'. apply (inj Some), pair_eq in Hop' as [<- ->]. cbn zeta. cbn [routing_table with_table].
  inversion Hout as [| |t1 Hm Hmem Hk Heq Heq'|ev t1 [Hnew (gone & Hev & Hnd & Hgone & Hmem) _] Heq Heq']; subst; [by left|].
  right. split; [done|]. exists gone. split_and!; [done| | |done].
  - intros q (n & Hn & <- & _)%Hgone. by exists n.
  - unfold k_changed. cbn zeta. case_bool_decide; destruct (decide _); done.
Qed.


(** C3: Admission keeps the IP diversity of the newcomer's bucket: of every
    address of the newcomer, and of its subnet, the bucket holds afterwards no
    more peers than the limit allows, or than it held before if addresses
    learnt later had already taken it over the limit. *)
Theorem admission_diversity trust e node now events e' i b b' ip :
  engine_wf e → engine_add_node trust e node now = Some (Ok (Admitted_ events), e') →
  ¬ member (routing_table e) (id node) →
  get_bucket_index (routing_table e) (id node) = Some i →
  buckets (routing_table e) !! i = Some b → buckets (routing_table e') !! i = Some b' →
  ip ∈ all_ips (retain_storable_addresses node) → ip_is_loopback ip = false →
  (peers_sharing (same_ip ip) b' ≤ N.max (limit_ip e) (peers_sharing (same_ip ip) b))%N ∧
  (peers_sharing (same_subnet ip) b' ≤ N.max (limit_subnet e) (peers_sharing (same_subnet ip) b))%N.
Proof.
  intros Hwf Hop Hnm Hi Hb Hb' Hip Hl. destruct (engine_add_node_outcome trust e node now Hwf) as (r' & t' & Hop' & _ & Hout).
  rewrite Hop in Hop'. apply (inj Some), pair_eq in Hop' as [<- ->]. cbn [routing_table with_table] in Hb'.
  inversion Hout as [| |t1 Hm|ev t1 [_ _ Hdiv]]; subst; [done|].
  apply (Hdiv i); [done..| |done]. unfold candidate_ips_of. by apply elem_of_set_iter.
Qed.

(** C6: Revalidation happens at most once.  [add_node] asks for it only when
    the candidate's bucket is full, hands back the sanitized candidate, and
    names at least one peer to ping; every peer it names is in the table, in
    the bucket it is reported for, and has not been seen for longer than the
    live threshold.  Re-evaluating the candidate, with whatever peers evicted
    in the meantime, never asks for a second round, and changes nothing when
    it fails. *)
Theorem revalidation_once trust e node now cand ips idx stale e' :
  engine_wf e → engine_add_node trust e node now = Some (Ok (StaleRevalidationNeeded cand ips idx stale), e') →
  (e' = e ∧ cand = retain_storable_addresses node ∧ stale ≠ [] ∧
   get_bucket_index (routing_table e) (id node) = Some idx ∧
   (∃ b, buckets (routing_table e) !! idx = Some b ∧ length (nodes b) = max_size b) ∧
   ∀ q j, (q, j) ∈ stale → ∃ n, find_node_by_id (routing_table e) q = Some n ∧
     get_bucket_index (routing_table e) q = Some j ∧ is_stale e now n = true) ∧
  ∀ e1 trust1 now1, engine_wf e1 →
    ∃ r e2, re_evaluate_admission trust1 e1 cand ips now1 = Some (r, e2) ∧ engine_wf e2 ∧ r ≠ Err StillAtCapacity ∧
      (is_ok r = false → e2 = e1).
Proof.
  intros Hwf Hop. destruct (engine_add_node_outcome trust e node now Hwf) as (r' & t' & Hop' & _ & Hout).
  rewrite Hop in Hop'. apply (inj Some), pair_eq in Hop' as [<- ->].
  inversion Hout as [|i b st Hi Hb Hfull _ Hne Hst| |]; subst. split.
  - split_and!; [apply with_table_same|done|done|done|eauto|]. intros q j Hin.
    destruct (Hst _ Hin) as (n & Hn & Hid & Hj & Hs). cbn [fst snd] in *. exists n. split_and!; [|done..].
    apply elem_of_all_nodes in Hn as (j' & b' & Hb' & Hn). subst q. unfold find_node_by_id.
    rewrite (table_place _ _ (engine_table _ Hwf) _ _ _ Hb' Hn). cbn [mbind option_bind]. rewrite Hb'.
    cbn [mbind option_bind]. apply find_node_elem; [|done]. by destruct (table_bucket _ _ (engine_table _ Hwf) _ _ Hb').
  - intros e1 trust1 now1 Hwf1. unfold re_evaluate_admission.
    assert (Hstor : storable (retain_storable_addresses node)).
    { apply retain_storable_storable. intros Hz. unfold engine_add_node in Hop.
      destruct (bool_decide _); [done|]. by rewrite Hz in Hop. }
    destruct (add_with_diversity_spec trust1 (k_value e1) e1 (routing_table e1) (retain_storable_addresses node)
      (candidate_ips_of (retain_storable_addresses node)) false now1 (engine_table _ Hwf1) Hstor)
      as (res & t' & -> & Hwf' & Hid & Hout1). cbn [on_table mbind option_bind].
    eexists _, (with_table e1 t'). split_and!; [done|by apply with_table_wf| |].
    + destruct Hout1; cbn; congruence.
    + destruct Hout1; cbn; try done; intros _; apply with_table_same.
Qed.
End engine.
