(* ===== verification/EngineQueries.v ===== *)
(** * Correctness of the engine's queries and reachability

    Random keys for bucket refresh, closest-node queries that include the
    local peer, removal events, and the invariant of every engine state that
    a sequence of operations can reach. *)

From Stdlib Require Import SpecFloat.
From stdpp Require Import prelude sorting gmap.
From S2P Require Import Prelude Float Keys Ip Address PeerRecord SignedAddress NodeInfo KBucket RoutingTable Diversity Engine Admission.

(** ** Random keys for a bucket *)

Definition leading_byte (bit : nat) (r : Z) : Z :=
  let leading := Z.shiftl 1 (Z.of_nat bit) in Z.lor leading (Z.land r ((leading - 1) mod 256)).

Lemma leading_byte_check :
  forallb (λ bit, forallb (λ r,
    let x := leading_byte bit (Z.of_nat r) in
    (2 ^ Z.of_nat bit <=? x)%Z && (x <? 2 ^ (Z.of_nat bit + 1))%Z &&
    (negb ((2 ^ Z.of_nat bit <=? Z.of_nat r)%Z && (Z.of_nat r <? 2 ^ (Z.of_nat bit + 1))%Z) || (x =? Z.of_nat r)%Z))
    (seq 0 256)) (seq 0 8) = true.
Proof. vm_compute. reflexivity. Qed.

(** The byte that carries the leading bit keeps it whatever the random bits,
    and every such byte is reached. *)
Lemma leading_byte_spec bit r :
  bit < 8 → (0 ≤ r < 256)%Z →
  (2 ^ Z.of_nat bit ≤ leading_byte bit r < 2 ^ (Z.of_nat bit + 1))%Z ∧
  ((2 ^ Z.of_nat bit ≤ r < 2 ^ (Z.of_nat bit + 1))%Z → leading_byte bit r = r).
Proof.
  intros Hb Hr. pose proof leading_byte_check as H. rewrite forallb_forall in H.
  specialize (H bit ltac:(apply in_seq; lia)). rewrite forallb_forall in H.
  specialize (H (Z.to_nat r) ltac:(apply in_seq; lia)). cbn zeta in H. rewrite Z2Nat.id in H by lia.
  apply andb_true_iff in H as [[H1%Z.leb_le H2%Z.ltb_lt]%andb_true_iff H3]. split; [lia|]. intros [H4 H5].
  apply Z.leb_le in H4. apply Z.ltb_lt in H5. rewrite H4, H5 in H3. by apply Z.eqb_eq in H3.
Qed.

Lemma be_combine_zero l : Forall (λ b, 0 ≤ b < 256)%Z l → be_combine l = 0%Z → l = replicate (length l) 0%Z.
Proof.
  intros Hok Hz. pose proof (be_split_combine l Hok) as H. rewrite Hz in H. rewrite <- H at 1.
  generalize (length l). intros n. induction n as [|n IH]; [done|]. cbn [be_split replicate]. rewrite IH.
  f_equal. by rewrite Z.shiftr_0_l.
Qed.

(** The value of a byte string by its first nonzero byte. *)
Lemma be_combine_leading n x rest :
  Forall (λ b, 0 ≤ b < 256)%Z rest →
  let w := (8 * Z.of_nat (length rest))%Z in
  ∀ k, (0 ≤ k)%Z → (2 ^ k ≤ x < 2 ^ (k + 1))%Z →
  (2 ^ (w + k) ≤ be_combine (replicate n 0%Z ++ x :: rest) < 2 ^ (w + k + 1))%Z.
Proof.
  intros Hok w k Hk Hx. rewrite be_combine_app, be_combine_zeros, Z.mul_0_l, Z.add_0_l. cbn [be_combine].
  pose proof (be_combine_bound rest Hok) as Hb. fold w in Hb |- *. assert (Hw : (0 ≤ w)%Z) by lia.
  replace (w + k + 1)%Z with (w + (k + 1))%Z by lia. rewrite !Z.pow_add_r in * by lia. nia.
Qed.

Section random_key.
Context `{TL : TransportLib}.
Implicit Types (e : DhtCoreEngine).

Definition random_distance (random : PeerId) (idx : nat) : list Z :=
  replicate (idx / 8)%nat 0%Z ++
  leading_byte (7 - idx mod 8)%nat (nth (idx / 8)%nat (key_bytes random) 0%Z) ::
  drop (S (idx / 8)%nat) (key_bytes random).

Lemma generate_random_unfold e random idx :
  idx < KADEMLIA_BUCKET_COUNT →
  generate_random_key_for_bucket e random idx =
  Some (key_of_bytes (xor_bytes (key_bytes (engine_node_id e)) (random_distance random idx))).
Proof.
  intros Hi. unfold generate_random_key_for_bucket. destruct (Nat.leb_spec KADEMLIA_BUCKET_COUNT idx); [lia|].
  cbn zeta. unfold random_distance, leading_byte. cbn zeta. pose proof (Nat.mod_upper_bound idx 8 ltac:(lia)).
  replace (Z.of_nat (7 - idx mod 8)) with (7 - Z.of_nat (idx mod 8))%Z by lia. done.
Qed.

Lemma random_byte_range (random : PeerId) j : (0 ≤ nth j (key_bytes random) 0 < 256)%Z.
Proof.
  destruct (nth_in_or_default j (key_bytes random) 0%Z) as [H| ->]; [|lia].
  pose proof (key_bytes_ok random) as Hok. rewrite Forall_forall in Hok. apply Hok. by apply list_elem_of_In.
Qed.

Lemma random_distance_wf random idx :
  idx < KADEMLIA_BUCKET_COUNT → Is_true (wf_bytes KEY_LEN (random_distance random idx)).
Proof.
  intros Hi. unfold KADEMLIA_BUCKET_COUNT in Hi. pose proof (Nat.div_mod idx 8 ltac:(lia)) as Hd.
  pose proof (Nat.mod_upper_bound idx 8 ltac:(lia)) as Hm. pose proof (key_length random) as Hlen. unfold KEY_LEN in *.
  apply wf_bytes_spec. unfold random_distance. split.
  - rewrite length_app, length_replicate. cbn [length]. rewrite length_drop. lia.
  - apply Forall_app. split; [apply Forall_replicate; lia|]. constructor; [|apply Forall_drop, key_bytes_ok].
    destruct (leading_byte_spec (7 - idx mod 8)%nat _ ltac:(lia) (random_byte_range random (idx / 8)%nat)) as [H _].
    assert (2 ^ (Z.of_nat (7 - idx mod 8) + 1) ≤ 2 ^ 8)%Z by (apply Z.pow_le_mono_r; lia).
    assert (0 < 2 ^ Z.of_nat (7 - idx mod 8))%Z by (apply Z.pow_pos_nonneg; lia). lia.
Qed.

Definition distance_key random idx (H : idx < KADEMLIA_BUCKET_COUNT) : Key :=
  mk_key (random_distance random idx) (random_distance_wf random idx H).

Lemma random_key_distance e random idx (H : idx < KADEMLIA_BUCKET_COUNT) :
  generate_random_key_for_bucket e random idx = Some (xor_distance (distance_key random idx H) (engine_node_id e)).
Proof.
  rewrite generate_random_unfold by done. f_equal.
  change (xor_bytes (key_bytes (engine_node_id e)) (random_distance random idx))
    with (key_bytes (xor_distance (engine_node_id e) (distance_key random idx H))).
  rewrite key_of_bytes_id. apply xor_distance_comm.
Qed.

Lemma distance_key_value random idx (H : idx < KADEMLIA_BUCKET_COUNT) :
  (2 ^ (255 - Z.of_nat idx) ≤ key_to_Z (distance_key random idx H) < 2 ^ (256 - Z.of_nat idx))%Z.
Proof.
  pose proof H as Hi. unfold KADEMLIA_BUCKET_COUNT in Hi.
  pose proof (Nat.div_mod idx 8 ltac:(lia)) as Hdm. pose proof (Nat.mod_upper_bound idx 8 ltac:(lia)) as Hm.
  pose proof (key_length random) as Hlen. unfold KEY_LEN in Hlen.
  destruct (leading_byte_spec (7 - idx mod 8)%nat _ ltac:(lia) (random_byte_range random (idx / 8)%nat)) as [Hx _].
  unfold key_to_Z. cbn [key_bytes distance_key]. unfold random_distance.
  pose proof (be_combine_leading (idx / 8)%nat _ (drop (S (idx / 8)) (key_bytes random))
    ltac:(apply Forall_drop, key_bytes_ok) (Z.of_nat (7 - idx mod 8)) ltac:(lia) Hx) as Hb. cbn zeta in Hb.
  rewrite length_drop, Hlen in Hb.
  replace (8 * Z.of_nat (32 - S (idx / 8)) + Z.of_nat (7 - idx mod 8))%Z with (255 - Z.of_nat idx)%Z in Hb by lia.
  by replace (255 - Z.of_nat idx + 1)%Z with (256 - Z.of_nat idx)%Z in Hb by lia.
Qed.

(** A distance of the bucket is its own random distance. *)
Lemma random_distance_id d idx :
  idx < KADEMLIA_BUCKET_COUNT →
  (2 ^ (255 - Z.of_nat idx) ≤ key_to_Z d < 2 ^ (256 - Z.of_nat idx))%Z →
  random_distance d idx = key_bytes d.
Proof.
  intros Hi Hv. unfold KADEMLIA_BUCKET_COUNT in Hi. unfold key_to_Z in Hv.
  pose proof (Nat.div_mod idx 8 ltac:(lia)) as Hdm. pose proof (Nat.mod_upper_bound idx 8 ltac:(lia)) as Hm.
  pose proof (key_length d) as Hlen. unfold KEY_LEN in Hlen. pose proof (key_bytes_ok d) as Hok.
  destruct (lookup_lt_is_Some_2 (key_bytes d) (idx / 8)%nat ltac:(lia)) as [x Hx].
  assert (Hnth : nth (idx / 8)%nat (key_bytes d) 0%Z = x) by (by apply nth_lookup_Some).
  set (l1 := take (idx / 8)%nat (key_bytes d)). set (l2 := drop (S (idx / 8)) (key_bytes d)).
  assert (Hsplit : key_bytes d = l1 ++ x :: l2) by (symmetry; by apply take_drop_middle).
  assert (Hl1 : length l1 = (idx / 8)%nat) by (unfold l1; rewrite length_take; lia).
  assert (Hl2 : length l2 = 31 - (idx / 8)%nat) by (unfold l2; rewrite length_drop; lia).
  rewrite Hsplit in Hv, Hok. apply Forall_app in Hok as [Hok1 [Hxok Hok2]%Forall_cons].
  rewrite be_combine_app in Hv. cbn [be_combine length] in Hv. rewrite Hl2 in Hv.
  pose proof (be_combine_bound l1 Hok1) as Hb1. pose proof (be_combine_bound l2 Hok2) as Hb2. rewrite Hl2 in Hb2.
  set (k := Z.of_nat (7 - idx mod 8)) in *. set (w := (8 * Z.of_nat (31 - idx / 8))%Z) in *.
  replace (255 - Z.of_nat idx)%Z with (w + k)%Z in Hv by lia.
  replace (256 - Z.of_nat idx)%Z with (w + (k + 1))%Z in Hv by lia.
  replace (8 * Z.of_nat (S (31 - idx / 8)))%Z with (w + 8)%Z in Hv by lia.
  assert (Hw : (0 < 2 ^ w)%Z) by (apply Z.pow_pos_nonneg; lia).
  assert (Hk1 : (2 ^ (k + 1) ≤ 2 ^ 8)%Z) by (apply Z.pow_le_mono_r; lia). change (2 ^ 8)%Z with 256%Z in Hk1.
  rewrite !Z.pow_add_r in Hv by lia. rewrite Z.pow_add_r in Hk1 by lia. change (2 ^ 8)%Z with 256%Z in Hv.
  assert (Hz : be_combine l1 = 0%Z) by nia. rewrite Hz in Hv.
  unfold random_distance. rewrite Hnth. fold l2. rewrite Hsplit at 1.
  destruct (leading_byte_spec (7 - idx mod 8)%nat x ltac:(lia) Hxok) as [_ Hfix]. fold k in Hfix.
  rewrite Hfix by (rewrite Z.pow_add_r by lia; nia). f_equal.
  rewrite (be_combine_zero l1 Hok1 Hz), Hl1. done.
Qed.

(** The keys of the range that a refresh of bucket [idx] probes. *)
Definition in_bucket e idx (key : DhtKey) : Prop := bucket_index_of (engine_node_id e) key = Some idx.

(** The key generated to refresh a bucket falls into that bucket whatever
    the random bytes are, and every key of the bucket is generated for some
    random bytes; only an index of 256 or more yields no key. *)
Theorem random_key_in_bucket e idx :
  (∀ random key, generate_random_key_for_bucket e random idx = Some key →
     in_bucket e idx key) ∧
  (∀ key, in_bucket e idx key →
     ∃ random, generate_random_key_for_bucket e random idx = Some key) ∧
  (∀ random, generate_random_key_for_bucket e random idx = None ↔ KADEMLIA_BUCKET_COUNT ≤ idx).
Proof.
  unfold in_bucket.
  assert (Hnone : ∀ random, generate_random_key_for_bucket e random idx = None ↔ KADEMLIA_BUCKET_COUNT ≤ idx).
  { intros random. unfold generate_random_key_for_bucket. destruct (Nat.leb_spec KADEMLIA_BUCKET_COUNT idx); [done|].
    split; [done|lia]. }
  split_and!; [| |exact Hnone].
  - intros random key Hg. destruct (decide (idx < KADEMLIA_BUCKET_COUNT)) as [H|H].
    + rewrite (random_key_distance e random idx H) in Hg. apply (inj Some) in Hg as <-.
      apply bucket_index_Some. split; [done|].
      rewrite xor_distance_comm, xor_distance_involutive. apply distance_key_value.
    + rewrite (proj2 (Hnone random)) in Hg by lia. done.
  - intros key Hk. pose proof Hk as [H Hv]%bucket_index_Some.
    exists (xor_distance (engine_node_id e) key). rewrite (random_key_distance e _ idx H). f_equal.
    transitivity (xor_distance (xor_distance key (engine_node_id e)) (engine_node_id e)); [|apply xor_distance_involutive].
    f_equal. rewrite (xor_distance_comm key). apply key_eq. cbn [key_bytes distance_key].
    by apply random_distance_id.
Qed.
End random_key.

(** ** Closest nodes, the local peer included *)

(** Inserting before the first greater key and truncating is sorting the
    extended list and truncating. *)
Lemma insert_truncate {A K} `{TotalOrd K} (key : A → K) x (s : list A) c :
  (∀ y, y ∈ s → key y ≠ key x) →
  let cs := take c s in
  let pos := default (length cs) (position (λ y, ltb (key x) (key y)) cs) in
  take c (take pos cs ++ x :: drop pos cs) = take c (insert_sorted key x s).
Proof.
  revert c. induction s as [|y s IH]; intros [|c] Hne; try done.
  cbn [take insert_sorted position]. destruct (ltb (key x) (key y)) eqn:Hlt.
  - apply ltb_tlt in Hlt. rewrite (proj2 (leb_tle _ _) (tlt_tle _ _ Hlt)).
    change (x :: take c (y :: take c s) = x :: take c (y :: s)). f_equal.
    change (y :: take c s) with (take (S c) (y :: s)). rewrite take_take. by rewrite Nat.min_l by lia.
  - apply ltb_false in Hlt. assert (tlt (key y) (key x)) as Hlt'.
    { apply tle_cases in Hlt as [|Heq]; [done|]. by destruct (Hne y ltac:(by left)). }
    apply leb_false in Hlt'. rewrite Hlt'. cbn [take]. specialize (IH c ltac:(set_solver)). cbn zeta in IH.
    rewrite <- IH. cbn [length]. by destruct (position _ (take c s)).
Qed.

Section queries.
Context `{TL : TransportLib}.
Implicit Types (e : DhtCoreEngine) (t : KademliaRoutingTable) (now : Instant) (p q : PeerId).

Definition self_node e now : NodeInfo :=
  {| id := engine_node_id e; naddresses := []; naddress_types := []; last_seen := now |}.

(** Responsibility queries rank the local peer with the others: the
    single insertion into the truncated closest list gives what sorting the
    whole table together with the local peer, and cutting at [count], gives. *)
Theorem find_nodes_with_self_spec e key count now :
  engine_wf e →
  find_nodes_with_self e key count now =
  take count (sort_by_key (λ n, xor_distance (id n) key) (self_node e now :: all_nodes (routing_table e))).
Proof.
  intros Hwf. unfold find_nodes_with_self. rewrite find_closest_sort. cbn zeta. cbn [sort_by_key].
  apply (insert_truncate (λ n, xor_distance (id n) key) (self_node e now)). intros n Hn Heq. rewrite elem_of_sort in Hn.
  apply (xor_distance_inj_l key) in Heq. apply (self_not_member _ _ (engine_table _ Hwf)).
  exists n. split; [done|]. rewrite Heq. symmetry. apply (engine_self _ Hwf).
Qed.

(** ** Removal *)

Lemma remove_spec e p :
  engine_wf e →
  ∃ events e', remove_node_by_id e p = Some (events, e') ∧ engine_wf e' ∧
    (∀ q, member (routing_table e') q ↔ member (routing_table e) q ∧ q ≠ p) ∧
    (¬ member (routing_table e) p → events = [] ∧ e' = e) ∧
    (member (routing_table e) p → events = PeerRemoved p :: k_changed e (routing_table e) (routing_table e')).
Proof.
  intros Hwf. pose proof (engine_table _ Hwf) as Htab. unfold remove_node_by_id.
  pose proof (member_find _ _ p Htab) as Hf. destruct (find_node_by_id (routing_table e) p) as [n|].
  - assert (Hm : member (routing_table e) p) by (apply Hf; eauto).
    destruct (table_remove_node_wf _ _ p Htab) as (t' & Hop & Hwf' & Hmem & _). rewrite Hop. cbn [mbind option_bind].
    eexists _, (with_table e t'). split; [done|]. split_and!; [|done|done|done].
    apply with_table_wf; [done..|].
    destruct (lookup_lt_is_Some_2 (buckets (routing_table e)) 0) as [b Hb].
    { rewrite (table_len _ _ Htab). unfold KADEMLIA_BUCKET_COUNT. lia. }
    by destruct (table_remove_bucket _ _ p t' 0 b Htab Hop Hb).
  - assert (Hm : ¬ member (routing_table e) p) by (rewrite Hf; by intros []).
    exists [], e. split_and!; [done..| |done|done]. intros q. split; [|by intros []]. intros Hq. split; [done|by intros ->].
Qed.

(** ** Reachable engines *)

Lemma touch_node_id t p a ty now r t' : touch_node t p a ty now = Some (r, t') → node_id t' = node_id t.
Proof.
  unfold touch_node. cbn zeta. destruct (get_bucket_index t p); [|by intros [= _ <-]].
  destruct (buckets t !! n); [|done]. cbn [mbind option_bind].
  destruct (touch_node_typed _ _ _ _ _) as [[? ?]|]; [|done]. cbn [mbind option_bind]. by intros [= _ <-].
Qed.

Context `{HO : HashOrder} `{PL : !PostcardLib}.

(** One operation of the engine.  In the window between the two locks of
    [touch_node_typed], other tasks may run any operations of the table. *)
Inductive engine_step e : DhtCoreEngine → Prop :=
  | step_add_node trust node now r e' : engine_add_node trust e node now = Some (r, e') → engine_step e e'
  | step_re_evaluate trust node ips now r e' : storable node →
      re_evaluate_admission trust e node ips now = Some (r, e') → engine_step e e'
  | step_remove_node p events e' : remove_node_by_id e p = Some (events, e') → engine_step e e'
  | step_touch_node p a now r e' : engine_touch_node e p a now = Some (r, e') → engine_step e e'
  | step_touch_typed p a ty f now now' r e' :
      (∀ t, rtc table_step t (f t)) →
      engine_touch_node_typed e p a ty f now now' = Some (r, e') → engine_step e e'
  | step_legacy_hint p a now r e' : engine_touch_legacy_relay_hint e p a now = Some (r, e') → engine_step e e'
  | step_upgrade_only p a ty r e' : engine_merge_upgrade_only e p a ty = Some (r, e') → engine_step e e'
  | step_publish p typed seq now r e' : engine_replace e p typed seq now = Some (r, e') → engine_step e e'
  | step_publish_gossip p typed seq now r e' : engine_replace_from_gossip e p typed seq now = Some (r, e') → engine_step e e'
  | step_publish_v2 p set native auth now r e' : engine_store_transport e p set native auth now = Some (r, e') → engine_step e e'
  | step_probe_finished i now : engine_step e (with_table e (mark_bucket_probe_finished (routing_table e) i now).2)
  | step_config c : engine_step e (set_ip_diversity_config e c)
  | step_shutdown : engine_step e (signal_shutdown e).

Lemma table_step_id t t' : table_step t t' → node_id t' = node_id t.
Proof.
  destruct 1 as [node now r t' H|p t' H|p a ty now r t' H|p a ty now r t' H|p a ty r t' H|p a now r t' H
    |p typed seq mode now r t' H|p set native mode now r t' H|i now].
  - revert H. unfold table_add_node. destruct (has_address_publication _ _).
    + destruct (touch_node _ _ _ _ _) as [[? ?]|] eqn:Ht; [|done]. cbn [mbind option_bind]. intros [= _ <-].
      by eapply touch_node_id.
    + destruct (get_bucket_index _ _); [|by intros [= _ <-]]. destruct (buckets t !! n); [|done]. cbn [mbind option_bind].
      destruct (add_node _ _ _) as [[? ?]|]; [|done]. cbn [mbind option_bind]. by intros [= _ <-].
  - revert H. unfold table_remove_node. destruct (get_bucket_index _ _); [|by intros [= <-]].
    destruct (buckets t !! n); [|done]. by intros [= <-].
  - by eapply touch_node_id.
  - revert H. unfold try_touch_last_seen. cbn zeta. destruct (get_bucket_index _ _); [|by intros [= _ <-]].
    destruct (buckets t !! n); [|done]. cbn [mbind option_bind]. destruct (touch_last_seen_if_merge_noop _ _ _ _ _). by intros [= _ <-].
  - revert H. unfold table_merge_upgrade_only. destruct (has_address_publication _ _); [by intros [= _ <-]|].
    destruct (get_bucket_index _ _); [|by intros [= _ <-]]. destruct (buckets t !! n); [|done]. cbn [mbind option_bind].
    destruct (bucket_merge_upgrade_only _ _ _ _) as [[? ?]|]; [|done]. cbn [mbind option_bind]. by intros [= _ <-].
  - revert H. unfold touch_legacy_relay_hint_if_unsequenced. destruct (has_address_publication _ _); [by intros [= _ <-]|].
    apply touch_node_id.
  - revert H. unfold replace_with_mode. destruct (seq =? 0)%N; [by intros [= _ <-]|].
    destruct (from_option _ _ _); [by intros [= _ <-]|]. destruct (get_bucket_index _ _); [|by intros [= _ <-]].
    destruct (buckets t !! n); [|done]. cbn [mbind option_bind].
    destruct (match mode with AuthenticatedSelfPublish => _ | GossipedRecord => _ end) as [[] ?]; by intros [= _ <-].
  - revert H. unfold store_transport_address_set. destruct (get_bucket_index _ _); [|by intros [= _ <-]].
    destruct (_ || _); [by intros [= _ <-]|]. destruct (buckets t !! n); [|done]. cbn [mbind option_bind].
    destruct (bucket_replace_with_mode _ _ _ _ _) as [[] ?]; cbn [negb]; [|by intros [= _ <-]].
    destruct (find_node _ _); by intros [= _ <-].
  - unfold mark_bucket_probe_finished. by destruct (buckets t !! i).
Qed.

Lemma table_steps_id t t' : rtc table_step t t' → node_id t' = node_id t.
Proof. induction 1 as [|t1 t2 t3 H _ IH]; [done|]. apply table_step_id in H. congruence. Qed.

(** An engine operation that runs one table operation. *)
Lemma lift_step {R} e (op : option (R * KademliaRoutingTable)) :
  engine_wf e → (∃ r t', op = Some (r, t') ∧ table_wf (k_value e) t' ∧ table_step (routing_table e) t') →
  ∃ r e', ('(r, t) ← op; Some (r, with_table e t)) = Some (r, e') ∧ engine_wf e'.
Proof.
  intros Hwf (r & t' & -> & Hwf' & Hstep). exists r, (with_table e t'). split; [done|].
  apply with_table_wf; [done..|]. by apply table_step_id.
Qed.

Lemma engine_touch_total e p a now :
  engine_wf e → ∃ r e', engine_touch_node e p a now = Some (r, e') ∧ engine_wf e'.
Proof.
  intros Hwf. apply lift_step; [done|].
  destruct (touch_node_wf _ _ p a Unverified now (engine_table _ Hwf)) as (r & t' & Hop & Hwf'). eauto 10 using step_touch.
Qed.

Lemma engine_touch_typed_total e p a ty f now now' :
  engine_wf e → (∀ t, rtc table_step t (f t)) →
  ∃ r e', engine_touch_node_typed e p a ty f now now' = Some (r, e') ∧ engine_wf e'.
Proof.
  intros Hwf Hf. unfold engine_touch_node_typed.
  destruct (try_touch_wf _ _ p a ty now (engine_table _ Hwf)) as (r & t1 & Hop & Hwf1).
  pose proof (table_step_id _ _ (step_try_touch _ _ _ _ _ _ _ Hop)) as Hid1. rewrite Hop. cbn [mbind option_bind].
  destruct r as [r|]; [eexists _, _; split; [done|]; by apply with_table_wf|].
  pose proof (table_steps_wf _ _ _ Hwf1 (Hf t1)) as Hwf2. pose proof (table_steps_id _ _ (Hf t1)) as Hid2.
  destruct (touch_node_wf _ _ p a ty now' Hwf2) as (r & t3 & Hop3 & Hwf3). rewrite Hop3. cbn [mbind option_bind].
  eexists _, _. split; [done|]. apply with_table_wf; [done..|]. apply touch_node_id in Hop3. congruence.
Qed.

Lemma engine_replace_total e p typed seq now :
  engine_wf e → (∃ r e', engine_replace e p typed seq now = Some (r, e') ∧ engine_wf e') ∧
    (∃ r e', engine_replace_from_gossip e p typed seq now = Some (r, e') ∧ engine_wf e').
Proof.
  intros Hwf. unfold engine_replace, engine_replace_from_gossip.
  destruct (filter_publish_address_set e typed) as [l|]; [|by split; exists false, e]. split; (apply lift_step; [done|]).
  - destruct (replace_with_mode_wf _ _ p l seq AuthenticatedSelfPublish now (engine_table _ Hwf)) as (r & t' & Hop & Hwf').
    eauto 10 using step_replace.
  - destruct (replace_with_mode_wf _ _ p l seq GossipedRecord now (engine_table _ Hwf)) as (r & t' & Hop & Hwf').
    eauto 10 using step_replace.
Qed.

Lemma engine_store_total e p set native auth now :
  engine_wf e → ∃ r e', engine_store_transport e p set native auth now = Some (r, e') ∧ engine_wf e'.
Proof.
  intros Hwf. unfold engine_store_transport. cbn zeta. apply lift_step; [done|].
  destruct (store_transport_wf _ _ p set native (if auth then AuthenticatedSelfPublish else GossipedRecord) now
    (engine_table _ Hwf)) as (r & t' & Hop & Hwf').
  eauto 10 using step_store.
Qed.

Lemma engine_hint_total e p a now :
  engine_wf e → ∃ r e', engine_touch_legacy_relay_hint e p a now = Some (r, e') ∧ engine_wf e'.
Proof.
  intros Hwf. apply lift_step; [done|].
  destruct (legacy_hint_wf _ _ p a now (engine_table _ Hwf)) as (r & t' & Hop & Hwf'). eauto 10 using step_legacy.
Qed.

Lemma engine_upgrade_total e p a ty :
  engine_wf e → ∃ r e', engine_merge_upgrade_only e p a ty = Some (r, e') ∧ engine_wf e'.
Proof.
  intros Hwf. apply lift_step; [done|].
  destruct (table_upgrade_only_wf _ _ p a ty (engine_table _ Hwf)) as (r & t' & Hop & Hwf'). eauto 10 using step_upgrade.
Qed.

Lemma engine_add_total trust e node now :
  engine_wf e → ∃ r e', engine_add_node trust e node now = Some (r, e') ∧ engine_wf e'.
Proof. intros Hwf. destruct (engine_add_node_outcome trust e node now Hwf) as (r & t' & Hop & Hwf' & _). eauto. Qed.

Lemma re_evaluate_total trust e node ips now :
  engine_wf e → storable node → ∃ r e', re_evaluate_admission trust e node ips now = Some (r, e') ∧ engine_wf e'.
Proof.
  intros Hwf Hst. unfold re_evaluate_admission.
  destruct (add_with_diversity_spec trust _ e _ node ips false now (engine_table _ Hwf) Hst) as (r & t' & -> & Hwf' & Hid & _).
  cbn [on_table mbind option_bind]. eexists _, _. split; [done|]. by apply with_table_wf.
Qed.

Lemma engine_step_wf e e' : engine_wf e → engine_step e e' → engine_wf e'.
Proof.
  intros Hwf. assert (Hdet : ∀ {R} (op : option (R * DhtCoreEngine)) r e1,
    (∃ r' e2, op = Some (r', e2) ∧ engine_wf e2) → op = Some (r, e1) → engine_wf e1).
  { intros R op r e1 (r' & e2 & -> & Hwf2) Heq. apply (inj Some), pair_eq in Heq as [_ <-]. done. }
  destruct 1 as [trust node now r e' H|trust node ips now r e' Hst H|p ev e' H|p a now r e' H|p a ty f now now' r e' Hf H
    |p a now r e' H|p a ty r e' H|p typed seq now r e' H|p typed seq now r e' H|p set native auth now r e' H|i now|c|].
  - eapply Hdet; [by apply engine_add_total|done].
  - eapply Hdet; [by apply re_evaluate_total|done].
  - eapply Hdet; [|done]. destruct (remove_spec e p Hwf) as (? & ? & ? & ? & _). eauto.
  - eapply Hdet; [by apply engine_touch_total|done].
  - eapply Hdet; [by apply engine_touch_typed_total|done].
  - eapply Hdet; [by apply engine_hint_total|done].
  - eapply Hdet; [by apply engine_upgrade_total|done].
  - eapply Hdet; [|exact H]. by apply engine_replace_total.
  - eapply Hdet; [|exact H]. by apply engine_replace_total.
  - eapply Hdet; [by apply engine_store_total|done].
  - apply with_table_wf; [done|apply mark_probe_wf, (engine_table _ Hwf)|]. apply (table_step_id _ _ (step_probe _ i now)).
  - destruct Hwf. by constructor.
  - destruct Hwf. by constructor.
Qed.

End queries.
