(* ===== verification/DhtHandler.v ===== *)
(** * The DHT stream handler

    [src/transport/dht_handler.rs] with the messages of
    [src/dht/network_integration.rs]: what a stream routed to the engine
    answers.  It reads the engine and never writes it.  Stream types are those
    of the transport crate, the codec is postcard's ([DhtCodec]). *)

From Stdlib Require Import SpecFloat.
From stdpp Require Import prelude sorting gmap strings.
From S2P Require Import Prelude Float Keys Ip Address PeerRecord SignedAddress NodeInfo KBucket RoutingTable Diversity Engine Admission.

Section dht_handler.
Context `{TL : TransportLib}.
Implicit Types (e : DhtCoreEngine) (data : list Z).

(** ** Messages *)

Inductive DhtMessage :=
  | HFindNode (target : DhtKey) (count : nat)
  | HPing (timestamp : N)
  | HJoin (node_info : NodeInfo)
  | HLeave (node_id : PeerId).

Inductive ErrorCode := Timeout | ConnectionFailed | InvalidMessage | NodeNotFound | Overloaded | InternalError.

Record RoutingInfo := mk_routing_info {
  bootstrap_nodes : list NodeInfo;
  network_size : nat;
  protocol_version : N;
}.

Inductive DhtResponse :=
  | FindNodeReply (nodes : list NodeInfo) (distances : list N)
  | HPong (timestamp : N)
  | JoinAck (routing_info : RoutingInfo) (neighbors : list NodeInfo)
  | LeaveAck (confirmed : bool)
  | ResponseError (code : ErrorCode) (message : string) (retry_after : option N).

Class DhtCodec := {
  from_bytes_dht : list Z → result DhtMessage string;
  to_stdvec_dht : DhtResponse → result (list Z) string;
}.
Context `{DC : !DhtCodec}.

(** The stream types that matter: the handler's, and all others by their byte. *)
Inductive StreamType := DhtQuery | OtherStream (byte : Z).
Inductive LinkError := LinkInternal (text : string) | InvalidStreamType (byte : Z).

Definition DHT_STREAM_TYPES : list StreamType := [DhtQuery].
Definition for_message (_ : DhtMessage) : StreamType := DhtQuery.

(** ** The handler *)

Definition process_message e (m : DhtMessage) : DhtResponse :=
  match m with
  | HFindNode target count => FindNodeReply (find_nodes e target count) []
  | HPing timestamp => HPong timestamp
  | HJoin _ => JoinAck (mk_routing_info [] 0 1) []
  | HLeave _ => LeaveAck true
  end.

Definition handle_query e data : result (list Z) LinkError :=
  match from_bytes_dht data with
  | Err t => Err (LinkInternal ("Failed to deserialize query: " +:+ t))
  | Ok m => match to_stdvec_dht (process_message e m) with
            | Err t => Err (LinkInternal ("Failed to serialize response: " +:+ t))
            | Ok bytes => Ok bytes
            end
  end.

Definition handle_stream e (stream_type : StreamType) data : result (list Z) LinkError :=
  match stream_type with
  | DhtQuery => handle_query e data
  | OtherStream byte => Err (InvalidStreamType byte)
  end.

(** Datagrams are dropped. *)
Definition handle_datagram (_ : StreamType) (_ : list Z) : result unit LinkError := Ok ().

(** ** What a stream learns *)

(** Whatever is sent, on whatever stream: a reply is the encoding of a message's answer, and the only thing of the engine an
    answer shows is distinct members of its table, at most as many as were asked for and as there are. *)
Lemma handler_answers e stream_type data bytes : engine_wf e →
  handle_stream e stream_type data = Ok bytes →
  stream_type = DhtQuery ∧ ∃ m, from_bytes_dht data = Ok m ∧ to_stdvec_dht (process_message e m) = Ok bytes ∧
    ∀ nodes distances, process_message e m = FindNodeReply nodes distances →
      NoDup (id <$> nodes) ∧ (∀ n, n ∈ nodes → n ∈ all_nodes (routing_table e)) ∧
      ∃ target count, m = HFindNode target count ∧ length nodes ≤ count.
Proof.
  intros [_ Ht _]. destruct stream_type as [|b]; [|done]. cbn. unfold handle_query. destruct (from_bytes_dht data) as [m|]; [|done].
  destruct (to_stdvec_dht (process_message e m)) as [b|] eqn:Hb; [|done]. intros [= <-]. split; [done|]. exists m. split_and!; [done..|].
  intros nodes distances. destruct m as [target count| | |]; [|done..]. cbn. intros [= <- <-]. unfold find_nodes. split_and!.
  - by eapply find_closest_NoDup.
  - intros n. apply elem_of_find_closest.
  - exists target, count. split; [done|]. unfold find_closest_nodes. rewrite length_fmap, length_take. lia.
Qed.

(** Joining and leaving are acknowledged, and that is all: the reply does not depend on the engine. *)
Lemma join_and_leave_ignored e e' m : (∀ target count, m ≠ HFindNode target count) → process_message e m = process_message e' m.
Proof. intros H. destruct m as [target count| | |]; [by destruct (H target count)|done..]. Qed.
End dht_handler.
