(* ===== verification/Maintenance.v ===== *)
(** * Membership of the routing table, as the manager maintains it

    The tasks of [DhtNetworkManager] that admit_peer peers to the routing table
    and evict them: connections, revalidation of stale peers, the periodic
    check of the close group, rejected lookups and mismatched identities;
    and the events they broadcast about it.

    The engine is behind one lock; the broadcast of its events, the pings and
    the revalidation slots are outside it.  Every activity is a [task] whose
    steps are what it does under one acquisition of the lock or to one shared
    structure.  Three history fields record what the engine reported
    ([produced]), which reports were dropped unsent ([swallowed]) and how many
    revalidation pings are under way ([pings]).  The events are those that a
    subscriber receives, so there is a receiver. *)

From Stdlib Require Import SpecFloat.
From stdpp Require Import prelude gmap strings.
From S2P Require Import Prelude Float Keys Ip Address PeerRecord SignedAddress NodeInfo KBucket RoutingTable Diversity Engine Admission EngineQueries DialFailure DialPolicy Tasks.

Definition MAX_CONCURRENT_REVALIDATIONS : nat := 8.
Definition MAX_CONCURRENT_REVALIDATION_PINGS : nat := 4.

(** The events of [DhtNetworkEvent] about peers. *)
Inductive DhtNetworkEvent :=
  | DhtPeerDiscovered (peer_id : PeerId) (dht_key : Key)
  | DhtPeerDisconnected (peer_id : PeerId)
  | DhtKClosestPeersChanged (old new added removed : list PeerId)
  | DhtPeerAdded (peer_id : PeerId)
  | DhtPeerRemoved (peer_id : PeerId).

(** One iteration of [broadcast_routing_events]. *)
Definition network_event (ev : RoutingTableEvent) : DhtNetworkEvent :=
  match ev with
  | PeerAdded p => DhtPeerAdded p
  | PeerRemoved p => DhtPeerRemoved p
  | KClosestPeersChanged old new =>
      DhtKClosestPeersChanged old new (List.filter (λ p, negb (bool_decide (p ∈ old))) new)
        (List.filter (λ p, negb (bool_decide (p ∈ new))) old)
  end.

(** The routing-table event behind a broadcast. *)
Definition routing_event (ev : DhtNetworkEvent) : option RoutingTableEvent :=
  match ev with
  | DhtPeerAdded p => Some (PeerAdded p)
  | DhtPeerRemoved p => Some (PeerRemoved p)
  | DhtKClosestPeersChanged old new _ _ => Some (KClosestPeersChanged old new)
  | _ => None
  end.

Definition is_dht_participant (user_agent : string) : bool := String.prefix "node/" user_agent.

(** [chunks n] of a slice; every chunk but the last has [n] elements. *)
Fixpoint chunks_fuel {A} (fuel n : nat) (l : list A) : list (list A) :=
  match fuel, l with
  | S fuel, _ :: _ => take n l :: chunks_fuel fuel n (drop n l)
  | _, _ => []
  end.
Definition chunks {A} (n : nat) (l : list A) : list (list A) := chunks_fuel (length l) n l.

Section maintenance.
Context `{TL : TransportLib} `{HO : HashOrder}.

(** A revalidation handed to the runtime. *)
Record Revalidation := mk_revalidation {
  candidate : NodeInfo;
  candidate_ips : list IpAddr;
  bucket_idx : nat;
  stale_peers : list (PeerId * nat);
}.

Record Maintained := mk_maintained {
  dht : DhtCoreEngine;
  event_tx : list DhtNetworkEvent;
  revalidation_permits : nat;
  bucket_revalidation_active : gset nat;
  spawned : list Revalidation;
  produced : list RoutingTableEvent;
  swallowed : list RoutingTableEvent;
  pings : nat;
  panicked : bool;
}.
Implicit Types (s : Maintained) (p : PeerId).

Definition maintained_new (e : DhtCoreEngine) : Maintained :=
  mk_maintained e [] MAX_CONCURRENT_REVALIDATIONS ∅ [] [] [] 0 false.

Definition committed s (e : DhtCoreEngine) (events : list RoutingTableEvent) : Maintained :=
  mk_maintained e (event_tx s) (revalidation_permits s) (bucket_revalidation_active s) (spawned s)
    (produced s ++ events) (swallowed s) (pings s) (panicked s).
Definition sent s (ev : DhtNetworkEvent) : Maintained :=
  mk_maintained (dht s) (event_tx s ++ [ev]) (revalidation_permits s) (bucket_revalidation_active s) (spawned s)
    (produced s) (swallowed s) (pings s) (panicked s).
Definition dropped s (events : list RoutingTableEvent) : Maintained :=
  mk_maintained (dht s) (event_tx s) (revalidation_permits s) (bucket_revalidation_active s) (spawned s)
    (produced s) (swallowed s ++ events) (pings s) (panicked s).
Definition crashed s : Maintained :=
  mk_maintained (dht s) (event_tx s) (revalidation_permits s) (bucket_revalidation_active s) (spawned s)
    (produced s) (swallowed s) (pings s) true.
Definition with_spawned s (l : list Revalidation) : Maintained :=
  mk_maintained (dht s) (event_tx s) (revalidation_permits s) (bucket_revalidation_active s) l
    (produced s) (swallowed s) (pings s) (panicked s).
Definition with_permits s (n : nat) : Maintained :=
  mk_maintained (dht s) (event_tx s) n (bucket_revalidation_active s) (spawned s)
    (produced s) (swallowed s) (pings s) (panicked s).
Definition with_active s (a : gset nat) (n : nat) : Maintained :=
  mk_maintained (dht s) (event_tx s) (revalidation_permits s) a (spawned s)
    (produced s) (swallowed s) n (panicked s).

Definition task_step (f : Maintained → Maintained) (t : task Maintained) : task Maintained := Act f (λ _, t).

(** [broadcast_routing_events]. *)
Fixpoint broadcast_routing_events (events : list RoutingTableEvent) (t : task Maintained) : task Maintained :=
  match events with
  | [] => t
  | ev :: rest => task_step (λ s, sent s (network_event ev)) (broadcast_routing_events rest t)
  end.

(** ** Evictions *)

Definition evict p s : list RoutingTableEvent * Maintained :=
  match remove_node_by_id (dht s) p with
  | Some (events, e) => (events, committed s e events)
  | None => ([], crashed s)
  end.

(** The evictions of one acquisition of the lock. *)
Fixpoint evict_each (ps : list PeerId) s : list RoutingTableEvent * Maintained :=
  match ps with
  | [] => ([], s)
  | p :: rest =>
      let '(events, s) := evict p s in
      let '(more, s) := evict_each rest s in
      (events ++ more, s)
  end.

(** [forget_rejecting_peer], and [ensure_peer_channel] after an identity
    mismatch. *)
Definition evict_peer p : task Maintained :=
  Act (λ s, (evict p s).2) (λ s, broadcast_routing_events (evict p s).1 Finished).

(** ** Connections *)

(** [add_node] under the write lock: what it returned, or [None] after a panic. *)
Definition admit_peer (trust : PeerId → spec_float) (node : NodeInfo) (now : Instant) s
    : option (result AdmissionResult AdmissionError) * Maintained :=
  match engine_add_node trust (dht s) node now with
  | Some (r, e) => (Some r, committed s e (match r with Ok (Admitted_ events) => events | _ => [] end))
  | None => (None, crashed s)
  end.

Definition observed_type (a : MultiAddr) : AddressType :=
  if from_option is_lan_ip false (ip a) then Lan else Unverified.

(** [handle_peer_connected]: [addresses] is what [peer_info] knows. *)
Definition handle_peer_connected (node_id : PeerId) (user_agent : string) (known : option (list MultiAddr))
    (trust : PeerId → spec_float) (now : Instant) : task Maintained :=
  let addresses := List.filter is_dialable (default [] known) in
  let discovered := task_step (λ s, sent s (DhtPeerDiscovered node_id node_id)) Finished in
  match addresses with
  | [] => Finished
  | _ =>
      if negb (is_dht_participant user_agent) then discovered
      else
        let node := {| id := node_id; naddresses := addresses; naddress_types := observed_type <$> addresses; last_seen := now |} in
        Act (λ s, (admit_peer trust node now s).2) (λ s,
          match (admit_peer trust node now s).1 with
          | Some (Ok (Admitted_ events)) => broadcast_routing_events events discovered
          | Some (Ok (StaleRevalidationNeeded candidate ips idx stale)) =>
              task_step (λ s, with_spawned s (spawned s ++ [mk_revalidation candidate ips idx stale])) discovered
          | Some (Err _) => discovered
          | None => Finished
          end)
  end.

(** [PeerDisconnected] in the event handler. *)
Definition handle_peer_disconnected p : task Maintained := task_step (λ s, sent s (DhtPeerDisconnected p)) Finished.

(** ** Revalidation *)

(** The end of a revalidation: the slot, then the permit. *)
Definition release (idx : nat) (t : task Maintained) : task Maintained :=
  task_step (λ s, with_active s (bucket_revalidation_active s ∖ {[idx]}) (pings s))
    (task_step (λ s, with_permits s (S (revalidation_permits s))) t).

(** Evict those who did not answer and try the candidate again, under one
    acquisition of the lock; the events are lost when the candidate is
    refused.  [cut] is the number of evictions after which the shutdown drops
    the task. *)
Definition retry_admission (trust : PeerId → spec_float) (r : Revalidation) (evicted : list PeerId) (cut : option nat)
    (now : Instant) s : option (list RoutingTableEvent) * Maintained :=
  match cut with
  | Some n =>
      let '(events, s) := evict_each (take n evicted) s in (None, dropped s events)
  | None =>
      let '(events, s) := evict_each evicted s in
      match re_evaluate_admission trust (dht s) (candidate r) (candidate_ips r) now with
      | Some (Ok more, e) => (Some (events ++ more), committed s e more)
      | Some (Err _, e) => (None, dropped (committed s e []) events)
      | None => (None, crashed (dropped s events))
      end
  end.

(** The pings of one chunk are under way between two steps. *)
Fixpoint ping_chunks (responded : PeerId → bool) (cut : option nat) (idx : nat) (l : list (list (PeerId * nat)))
    (evicted : list PeerId) (next : option nat → list PeerId → task Maintained) : task Maintained :=
  match l with
  | [] => next cut evicted
  | chunk :: rest =>
      task_step (λ s, with_active s (bucket_revalidation_active s) (pings s + length chunk))
        (task_step (λ s, with_active s (bucket_revalidation_active s) (pings s - length chunk))
          (match cut with
           | Some 0 => release idx Finished
           | _ => ping_chunks responded (pred <$> cut) idx rest
                    (evicted ++ List.filter (λ p, negb (responded p)) (chunk.*1)) next
           end))
  end.

(** [spawn_revalidate_and_retry_admission]: the [i]-th task handed to the
    runtime.  [responded] is the result of [ping_with_identity_confirmation],
    [cut] the number of awaits after which the shutdown drops the task. *)
Definition revalidate (r : Revalidation) (responded : PeerId → bool) (cut : option nat) (trust : PeerId → spec_float)
    (now : Instant) : task Maintained :=
  match stale_peers r with
  | [] => Finished
  | stale =>
      Act (λ s, with_permits s (pred (revalidation_permits s))) (λ s,
        if Nat.eqb (revalidation_permits s) 0 then Finished
        else Act (λ s, with_active s ({[bucket_idx r]} ∪ bucket_revalidation_active s) (pings s)) (λ s,
          if bool_decide (bucket_idx r ∈ bucket_revalidation_active s)
          then task_step (λ s, with_permits s (S (revalidation_permits s))) Finished
          else ping_chunks responded cut (bucket_idx r) (chunks MAX_CONCURRENT_REVALIDATION_PINGS stale) [] (λ cut evicted,
            match evicted with
            | [] => release (bucket_idx r) Finished
            | _ =>
                Act (λ s, (retry_admission trust r evicted cut now s).2) (λ s,
                  release (bucket_idx r)
                    (broadcast_routing_events (default [] (retry_admission trust r evicted cut now s).1) Finished))
            end)))
  end.

Definition run_spawned (i : nat) (responded : PeerId → bool) (cut : option nat) (trust : PeerId → spec_float)
    (now : Instant) : task Maintained :=
  Act (λ s, with_spawned s (delete i (spawned s))) (λ s,
    match spawned s !! i with
    | Some r => revalidate r responded cut trust now
    | None => Finished
    end).

(** [revalidate_stale_k_closest]; [cut] as above, after the pings. *)
Definition evict_closest (ps : list PeerId) (cut : option nat) s : list RoutingTableEvent * Maintained :=
  match cut with
  | Some n => let '(events, s) := evict_each (take n ps) s in ([], dropped s events)
  | None => evict_each ps s
  end.

Definition revalidate_stale_k_closest (responded : PeerId → bool) (cut : option nat) (now : Instant) : task Maintained :=
  Act (λ s, s) (λ s,
    match List.filter (λ p, negb (responded p)) (stale_k_closest (dht s) now) with
    | [] => Finished
    | non_responders =>
        Act (λ s, (evict_closest non_responders cut s).2) (λ s,
          broadcast_routing_events (evict_closest non_responders cut s).1 Finished)
    end).

Context `{PL : !PostcardLib}.

(** ** Everything else that works on the table *)

(** Touches, publications and probe marks: the records of the members, never
    the membership. *)
Inductive RecordOp :=
  | TouchNode (p : PeerId) (address : option MultiAddr) (ty : AddressType) (now : Instant)
  | TryTouch (p : PeerId) (address : option MultiAddr) (ty : AddressType) (now : Instant)
  | UpgradeOnly (p : PeerId) (address : MultiAddr) (ty : AddressType)
  | LegacyHint (p : PeerId) (address : MultiAddr) (now : Instant)
  | ReplaceAddresses (p : PeerId) (typed : list (MultiAddr * AddressType)) (seq : N) (mode : AddressReplaceMode) (now : Instant)
  | StoreTransport (p : PeerId) (set : TransportAddressSet) (native : list (MultiAddr * AddressType))
      (mode : AddressReplaceMode) (now : Instant)
  | ProbeFinished (i : nat) (now : Instant).

Definition apply_record_op (t : KademliaRoutingTable) (o : RecordOp) : option KademliaRoutingTable :=
  match o with
  | TouchNode p a ty now => snd <$> touch_node t p a ty now
  | TryTouch p a ty now => snd <$> try_touch_last_seen t p a ty now
  | UpgradeOnly p a ty => snd <$> table_merge_upgrade_only t p a ty
  | LegacyHint p a now => snd <$> touch_legacy_relay_hint_if_unsequenced t p a now
  | ReplaceAddresses p typed seq mode now => snd <$> replace_with_mode t p typed seq mode now
  | StoreTransport p set native mode now => snd <$> store_transport_address_set t p set native mode now
  | ProbeFinished i now => Some (mark_bucket_probe_finished t i now).2
  end.

Definition record_op (o : RecordOp) s : Maintained :=
  match apply_record_op (routing_table (dht s)) o with
  | Some t => committed s (with_table (dht s) t) []
  | None => crashed s
  end.

(** [reconcile_connected_peers]: the peers connected before the events were
    followed are handled one after the other, as if they connected now; one
    without a user agent has gone. *)
Fixpoint reconcile_connected_peers (connected : list PeerId) (peer_user_agent : PeerId → option string)
    (known : PeerId → option (list MultiAddr)) (trust : PeerId → spec_float) (now : Instant) : task Maintained :=
  match connected with
  | [] => Finished
  | p :: rest =>
      let later := reconcile_connected_peers rest peer_user_agent known trust now in
      match peer_user_agent p with
      | Some user_agent => and_then (handle_peer_connected p user_agent (known p) trust now) later
      | None => later
      end
  end.

Inductive MaintenanceOp :=
  | Connected (node_id : PeerId) (user_agent : string) (known : option (list MultiAddr)) (trust : PeerId → spec_float) (now : Instant)
  | Reconcile (connected : list PeerId) (peer_user_agent : PeerId → option string) (known : PeerId → option (list MultiAddr))
      (trust : PeerId → spec_float) (now : Instant)
  | Disconnected_ (p : PeerId)
  | EvictPeer (p : PeerId)
  | RunSpawned (i : nat) (responded : PeerId → bool) (cut : option nat) (trust : PeerId → spec_float) (now : Instant)
  | RevalidateClosest (responded : PeerId → bool) (cut : option nat) (now : Instant)
  | Record_ (o : RecordOp).

Definition maintenance (o : MaintenanceOp) : task Maintained :=
  match o with
  | Connected p agent known trust now => handle_peer_connected p agent known trust now
  | Reconcile connected agents known trust now => reconcile_connected_peers connected agents known trust now
  | Disconnected_ p => handle_peer_disconnected p
  | EvictPeer p => evict_peer p
  | RunSpawned i responded cut trust now => run_spawned i responded cut trust now
  | RevalidateClosest responded cut now => revalidate_stale_k_closest responded cut now
  | Record_ o => task_step (record_op o) Finished
  end.

Definition maintenance_tasks (t : task Maintained) : Prop := ∃ o, t = maintenance o.

(** ** Records never change the membership *)

Implicit Types (t : KademliaRoutingTable) (e : DhtCoreEngine).

(** [t'] has the members of [t]. *)
Definition same_members t t' : Prop := node_id t' = node_id t ∧ ∀ q, member t' q ↔ member t q.

Lemma same_members_refl t : same_members t t.
Proof. done. Qed.

Lemma set_bucket_members t i b b' :
  buckets t !! i = Some b → (∀ q, q ∈ id <$> nodes b' ↔ q ∈ id <$> nodes b) → same_members t (set_bucket t i b').
Proof.
  intros Hb Hids. split; [done|]. intros q.
  by rewrite (member_set_bucket t i b b' q Hb), (member_bucket_ids t i b q Hb), Hids.
Qed.

Lemma fast_touch_ids b p a ty now :
  bucket_wf b → id <$> nodes (touch_last_seen_if_merge_noop b p a ty now).2 = id <$> nodes b.
Proof.
  intros Hwf. destruct (fast_touch_spec b p a ty now Hwf) as (_ & _ & _ & Hsame & Htrue).
  destruct (touch_last_seen_if_merge_noop b p a ty now) as [[[]|] b']; cbn [fst snd] in *;
    [|by rewrite Hsame..].
  destruct (Htrue eq_refl) as (pos & n & Hpos & _ & -> & _). rewrite list_fmap_insert. apply list_insert_id.
  by rewrite list_lookup_fmap, Hpos.
Qed.

Lemma upgrade_ids b p a ty c b' :
  bucket_wf b → bucket_merge_upgrade_only b p a ty = Some (c, b') → id <$> nodes b' = id <$> nodes b.
Proof.
  intros Hwf Hop. destruct (bucket_upgrade_only_wf b p a ty Hwf) as (c1 & b1 & Hop1 & _ & Hlive & _).
  assert (b1 = b') as -> by congruence.
  apply (f_equal (λ l, fst <$> l.1.1)) in Hlive. simpl in Hlive. rewrite <-!list_fmap_compose in Hlive. exact Hlive.
Qed.

Lemma try_touch_members k t p a ty now r t' :
  table_wf k t → try_touch_last_seen t p a ty now = Some (r, t') → same_members t t'.
Proof.
  intros Hwf. unfold try_touch_last_seen. cbn zeta. destruct (get_bucket_index t p) as [i|] eqn:Hi; [|by intros [= _ <-]].
  destruct (table_bucket_at _ _ _ _ Hwf Hi) as (b & Hb & Hbwf & _). rewrite Hb. cbn [mbind option_bind].
  pose proof (fast_touch_ids b p (if has_address_publication t p then None else a) ty now Hbwf) as Hids.
  destruct (touch_last_seen_if_merge_noop _ _ _ _ _) as [r' b']. intros [= _ <-].
  apply (set_bucket_members t i b b' Hb). intros q. cbn [snd] in Hids. by rewrite Hids.
Qed.

Lemma upgrade_members k t p a ty r t' :
  table_wf k t → table_merge_upgrade_only t p a ty = Some (r, t') → same_members t t'.
Proof.
  intros Hwf. unfold table_merge_upgrade_only. destruct (has_address_publication t p); [by intros [= _ <-]|].
  destruct (get_bucket_index t p) as [i|] eqn:Hi; [|by intros [= _ <-]].
  destruct (table_bucket_at _ _ _ _ Hwf Hi) as (b & Hb & Hbwf & _). rewrite Hb. cbn [mbind option_bind].
  destruct (bucket_merge_upgrade_only b p a ty) as [[c b']|] eqn:Hop; [|done]. cbn [mbind option_bind]. intros [= _ <-].
  apply (set_bucket_members t i b b' Hb). intros q. by rewrite (upgrade_ids b p a ty c b' Hbwf Hop).
Qed.

Lemma replace_members k t p typed seq mode now r t' :
  table_wf k t → replace_with_mode t p typed seq mode now = Some (r, t') → same_members t t'.
Proof.
  intros Hwf. unfold replace_with_mode. destruct (seq =? 0)%N; [by intros [= _ <-]|].
  destruct (from_option _ _ _); [by intros [= _ <-]|]. destruct (get_bucket_index t p) as [i|] eqn:Hi; [|by intros [= _ <-]].
  destruct (table_bucket_at _ _ _ _ Hwf Hi) as (b & Hb & Hbwf & _). rewrite Hb. cbn [mbind option_bind].
  assert (Hids : ∀ q, q ∈ id <$> nodes (bucket_replace_with_mode b p typed mode now).2 ↔ q ∈ id <$> nodes b)
    by apply (bucket_replace_ids b p typed mode now Hbwf).
  assert (Hmode : (match mode with AuthenticatedSelfPublish => bucket_replace b p typed now
    | GossipedRecord => bucket_replace_from_gossip b p typed now end) = bucket_replace_with_mode b p typed mode now)
    by (by destruct mode).
  rewrite Hmode. destruct (bucket_replace_with_mode b p typed mode now) as [[] b']; intros [= _ <-];
    exact (set_bucket_members t i b b' Hb Hids).
Qed.

Lemma store_members k t p set native mode now r t' :
  table_wf k t → store_transport_address_set t p set native mode now = Some (r, t') → same_members t t'.
Proof.
  intros Hwf. unfold store_transport_address_set. destruct (get_bucket_index t p) as [i|] eqn:Hi; [|by intros [= _ <-]].
  destruct (_ || _); [by intros [= _ <-]|].
  destruct (table_bucket_at _ _ _ _ Hwf Hi) as (b & Hb & Hbwf & _). rewrite Hb. cbn [mbind option_bind].
  assert (Hids : ∀ q, q ∈ id <$> nodes (bucket_replace_with_mode b p native mode now).2 ↔ q ∈ id <$> nodes b)
    by apply (bucket_replace_ids b p native mode now Hbwf).
  destruct (bucket_replace_with_mode b p native mode now) as [[] b']; cbn [negb]; [destruct (find_node b' p)|];
    intros [= _ <-]; exact (set_bucket_members t i b b' Hb Hids).
Qed.

Lemma probe_members t i now : same_members t (mark_bucket_probe_finished t i now).2.
Proof.
  unfold mark_bucket_probe_finished. destruct (buckets t !! i) as [b|] eqn:Hb; [|done]. by apply (set_bucket_members t i b).
Qed.

Lemma record_op_members k t o :
  table_wf k t → ∃ t', apply_record_op t o = Some t' ∧ table_wf k t' ∧ same_members t t'.
Proof.
  intros Hwf.
  assert (Hlift : ∀ {R} (op : option (R * KademliaRoutingTable)),
    (∃ r t', op = Some (r, t') ∧ table_wf k t') → (∀ r t', op = Some (r, t') → same_members t t') →
    ∃ t', snd <$> op = Some t' ∧ table_wf k t' ∧ same_members t t').
  { intros R op (r & t' & -> & Hwf') Hs. exists t'. split_and!; [done..|by eapply Hs]. }
  destruct o as [p a ty now|p a ty now|p a ty|p a now|p typed seq mode now|p set native mode now|i now]; cbn [apply_record_op].
  - apply Hlift; [by apply touch_node_wf|]. intros r t'. by apply (touch_node_member k).
  - apply Hlift; [by apply try_touch_wf|]. intros r t'. by apply (try_touch_members k).
  - apply Hlift; [by apply table_upgrade_only_wf|]. intros r t'. by apply (upgrade_members k).
  - apply Hlift; [by apply legacy_hint_wf|]. intros r t'. unfold touch_legacy_relay_hint_if_unsequenced.
    destruct (has_address_publication t p); [by intros [= _ <-]|]. by apply (touch_node_member k).
  - apply Hlift; [by apply replace_with_mode_wf|]. intros r t'. by apply (replace_members k).
  - apply Hlift; [by apply store_transport_wf|]. intros r t'. by apply (store_members k).
  - exists (mark_bucket_probe_finished t i now).2. split_and!; [done|by apply mark_probe_wf|apply probe_members].
Qed.

(** ** What the events say *)

(** The members that a listener believes in; [None] after an event that
    contradicts what it believes. *)
Definition follow_membership (believed : option (gset PeerId)) (ev : RoutingTableEvent) : option (gset PeerId) :=
  match ev with
  | PeerAdded p => M ← believed; if bool_decide (p ∈ M) then None else Some ({[p]} ∪ M)
  | PeerRemoved p => M ← believed; if bool_decide (p ∈ M) then Some (M ∖ {[p]}) else None
  | KClosestPeersChanged _ _ => believed
  end.
Definition replayed (events : list RoutingTableEvent) : option (gset PeerId) := foldl follow_membership (Some ∅) events.

Definition follow_close_group (group : list PeerId) (ev : RoutingTableEvent) : list PeerId :=
  match ev with KClosestPeersChanged _ new => new | _ => group end.
Definition close_group (events : list RoutingTableEvent) : list PeerId := foldl follow_close_group [] events.

Definition lists_members e (M : gset PeerId) : Prop := ∀ p, p ∈ M ↔ member (routing_table e) p.
Definition close_of e : list PeerId := k_closest_ids (routing_table e) (k_value e).

(** The engine goes from [e] to [e'] and reports [events]: the events lead a
    listener from the members and close group of the one to the other's. *)
Record moves e (events : list RoutingTableEvent) e' : Prop := {
  mv_wf : engine_wf e';
  mv_members M : lists_members e M → ∃ M', foldl follow_membership (Some M) events = Some M' ∧ lists_members e' M';
  mv_close : foldl follow_close_group (close_of e) events = close_of e';
}.

Lemma moves_refl e : engine_wf e → moves e [] e.
Proof. constructor; [done|eauto|done]. Qed.

Lemma moves_trans e1 l1 e2 l2 e3 : moves e1 l1 e2 → moves e2 l2 e3 → moves e1 (l1 ++ l2) e3.
Proof.
  intros [_ Hm1 Hc1] [Hwf Hm2 Hc2]. constructor; [done| |].
  - intros M (M1 & Hf1 & HM1)%Hm1. destruct (Hm2 M1 HM1) as (M2 & Hf2 & HM2). exists M2. by rewrite foldl_app, Hf1.
  - by rewrite foldl_app, Hc1.
Qed.

Lemma k_changed_members e t t' X : foldl follow_membership X (k_changed e t t') = X.
Proof. unfold k_changed. cbn zeta. by case_bool_decide. Qed.

Lemma k_changed_close e t t' : foldl follow_close_group (k_closest_ids t (k_value e)) (k_changed e t t') = k_closest_ids t' (k_value e).
Proof. unfold k_changed. cbn zeta. by case_bool_decide. Qed.

Lemma same_members_moves e t :
  engine_wf e → table_wf (k_value e) t → same_members (routing_table e) t → moves e [] (with_table e t).
Proof.
  intros Hwf Htab [Hid Hmem]. constructor.
  - by apply with_table_wf.
  - intros M HM. exists M. split; [done|]. intros p. by rewrite (HM p), <-Hmem.
  - unfold close_of. cbn. symmetry. apply (k_closest_members (k_value e)); [apply Hwf|done..].
Qed.

#[local] Instance member_dec t p : Decision (member t p).
Proof.
  refine (cast_if (decide (p ∈ id <$> all_nodes t))); unfold member; rewrite list_elem_of_fmap in *; naive_solver.
Defined.

Lemma remove_moves e p : engine_wf e → ∃ events e', remove_node_by_id e p = Some (events, e') ∧ moves e events e'.
Proof.
  intros Hwf. destruct (remove_spec e p Hwf) as (events & e' & Hop & Hwf' & Hmem & Hno & Hyes). exists events, e'.
  split; [done|]. assert (Hk : k_value e' = k_value e).
  { revert Hop. unfold remove_node_by_id. destruct (find_node_by_id _ _); [|by intros [= _ <-]].
    destruct (table_remove_node _ _); [|done]. cbn [mbind option_bind]. by intros [= _ <-]. }
  destruct (decide (member (routing_table e) p)) as [Hm|Hm]; [|by destruct (Hno Hm) as [-> ->]; apply moves_refl].
  rewrite (Hyes Hm). constructor; [done| |].
  - intros M HM. exists (M ∖ {[p]}). cbn. rewrite bool_decide_eq_true_2 by (by apply HM). rewrite k_changed_members.
    split; [done|]. intros q. rewrite Hmem, elem_of_difference, (HM q). set_solver.
  - unfold close_of. cbn. rewrite Hk. apply k_changed_close.
Qed.

Lemma removals_replay (gone : list PeerId) : ∀ M : gset PeerId,
  NoDup gone → (∀ q, q ∈ gone → q ∈ M) → foldl follow_membership (Some M) (PeerRemoved <$> gone) = Some (M ∖ list_to_set gone).
Proof.
  induction gone as [|p gone IH]; intros M Hnd Hin; cbn [fmap list_fmap foldl list_to_set]; [by rewrite difference_empty_L|].
  apply NoDup_cons in Hnd as [Hp Hnd]. cbn [follow_membership mbind option_bind].
  rewrite bool_decide_eq_true_2 by (apply Hin; by left). rewrite IH; [f_equal; set_solver|done|].
  intros q Hq. apply elem_of_difference. split; [apply Hin; by right|]. set_solver.
Qed.

Lemma removals_close (gone : list PeerId) g : foldl follow_close_group g (PeerRemoved <$> gone) = g.
Proof. by induction gone. Qed.

Lemma admission_moves trust e node ips allow now r t' :
  engine_wf e → engine_wf (with_table e t') → admission_outcome trust e now (routing_table e) node ips allow r t' →
  moves e (match r with Ok (Admitted_ events) => events | _ => [] end) (with_table e t').
Proof.
  intros Hwf Hwf' Hout. assert (Hid : node_id t' = node_id (routing_table e)).
  { pose proof (engine_self _ Hwf'). pose proof (engine_self _ Hwf). cbn in *. congruence. }
  destruct Hout as [err _|i b stale _ _ _ _ _ _|t' _ Hmem _|events t' [Hnew (gone & -> & Hnd & Hgone & Hmem) _]].
  - rewrite with_table_same. by apply moves_refl.
  - rewrite with_table_same. by apply moves_refl.
  - by apply same_members_moves; [|apply (engine_table _ Hwf')|].
  - constructor; [done| |].
    + intros M HM. exists ({[id node]} ∪ (M ∖ list_to_set gone)). rewrite foldl_app, removals_replay; [|done|].
      2:{ intros q (n & Hn & <- & _)%Hgone. apply HM. by exists n. }
      cbn. rewrite bool_decide_eq_false_2 by (rewrite elem_of_difference, (HM (id node)); tauto).
      rewrite k_changed_members. split; [done|]. intros q. cbn. rewrite Hmem. pose proof (HM q). set_solver.
    + rewrite foldl_app, removals_close. cbn. apply k_changed_close.
Qed.

(** ** The books *)

(** What a task holds: an event it still has to broadcast, or a permit, with
    the slot of its bucket and the number of pings under way. *)
Inductive token := Owed (ev : RoutingTableEvent) | Permit (slot : option (nat * nat)).

Definition owed (l : list token) : list RoutingTableEvent := omap (λ x, match x with Owed ev => Some ev | _ => None end) l.
Definition permits (l : list token) : list (option (nat * nat)) := omap (λ x, match x with Permit o => Some o | _ => None end) l.
Definition slots (l : list token) : list (nat * nat) := omap (λ o : option (nat * nat), o) (permits l).

Definition announced s : list RoutingTableEvent := omap routing_event (event_tx s).

Record books (l : list token) s : Prop := {
  bk_engine : engine_wf (dht s);
  bk_calm : panicked s = false;
  bk_spawned : Forall (λ r, storable (candidate r)) (spawned s);
  bk_members : ∃ M, replayed (produced s) = Some M ∧ lists_members (dht s) M;
  bk_close : close_group (produced s) = close_of (dht s);
  bk_events : produced s ≡ₚ announced s ++ swallowed s ++ owed l;
  bk_permits : revalidation_permits s + length (permits l) = MAX_CONCURRENT_REVALIDATIONS;
  bk_slots : NoDup (slots l).*1 ∧ bucket_revalidation_active s = list_to_set (slots l).*1;
  bk_pings : pings s = sum_list (slots l).*2 ∧ Forall (λ n, n ≤ MAX_CONCURRENT_REVALIDATION_PINGS) (slots l).*2;
}.

Lemma sum_list_perm (l l' : list nat) : l ≡ₚ l' → sum_list l = sum_list l'.
Proof. induction 1; cbn; lia. Qed.

Lemma books_perm l l' s : l ≡ₚ l' → books l s → books l' s.
Proof.
  intros Hl [H1 H2 H3 H4 H5 H6 H7 [H8 H8'] [H9 H9']].
  assert (Ho : owed l ≡ₚ owed l') by (by apply omap_Permutation).
  assert (Hp : permits l ≡ₚ permits l') by (by apply omap_Permutation).
  assert (Hs : slots l ≡ₚ slots l') by (by apply omap_Permutation).
  constructor; [done..| | | |].
  - by rewrite <-Ho.
  - by rewrite <-Hp.
  - split; [by rewrite <-Hs|]. rewrite H8'. apply list_to_set_perm_L. by rewrite Hs.
  - split; [rewrite H9; apply sum_list_perm; by rewrite Hs|by rewrite <-Hs].
Qed.

Lemma owed_app (events : list RoutingTableEvent) l : owed ((Owed <$> events) ++ l) = events ++ owed l.
Proof. induction events as [|ev events IH]; [done|]. cbn. by f_equal. Qed.
Lemma permits_app (events : list RoutingTableEvent) l : permits ((Owed <$> events) ++ l) = permits l.
Proof. by induction events. Qed.
Lemma slots_app (events : list RoutingTableEvent) l : slots ((Owed <$> events) ++ l) = slots l.
Proof. unfold slots. by rewrite permits_app. Qed.

Lemma routing_network_event ev : routing_event (network_event ev) = Some ev.
Proof. by destruct ev. Qed.

Lemma books_sent_other l s ev : routing_event ev = None → books l s → books l (sent s ev).
Proof.
  intros Hev [H1 H2 H3 H4 H5 H6 H7 H8 H9]. constructor; [done..| |done|done|done].
  unfold announced in *. cbn. rewrite omap_app. cbn. rewrite Hev. by rewrite app_nil_r.
Qed.

Lemma books_sent l s ev : books (Owed ev :: l) s → books l (sent s (network_event ev)).
Proof.
  intros [H1 H2 H3 H4 H5 H6 H7 H8 H9]. constructor; [done..| |done|done|done].
  unfold announced in *. cbn. rewrite omap_app. cbn. rewrite routing_network_event, H6. cbn.
  rewrite <-!(assoc_L (++)). cbn. by rewrite <-Permutation_middle.
Qed.

Lemma books_commit l s events e : moves (dht s) events e → books l s → books ((Owed <$> events) ++ l) (committed s e events).
Proof.
  intros [Hwf Hmem Hclose] [H1 H2 H3 (M & HM & HMm) H5 H6 H7 H8 H9]. constructor; [done..| | | | | |]; cbn.
  - destruct (Hmem M HMm) as (M' & HM' & HMm'). exists M'. unfold replayed in *. by rewrite foldl_app, HM.
  - unfold close_group in *. rewrite foldl_app. by rewrite H5.
  - rewrite owed_app, H6, <-!(assoc_L (++)). apply Permutation_app_head, Permutation_app_head, Permutation_app_comm.
  - by rewrite permits_app.
  - by rewrite slots_app.
  - by rewrite slots_app.
Qed.

Lemma books_drop l s events : books ((Owed <$> events) ++ l) s → books l (dropped s events).
Proof.
  intros [H1 H2 H3 H4 H5 H6 H7 H8 H9]. rewrite permits_app in H7. rewrite slots_app in *. rewrite owed_app in H6.
  constructor; [done..| |done|done|done]. cbn. rewrite H6. unfold announced. cbn. by rewrite <-!(assoc_L (++)).
Qed.

Lemma books_spawned l s rs : Forall (λ r, storable (candidate r)) rs → books l s → books l (with_spawned s rs).
Proof. intros Hrs [H1 H2 H3 H4 H5 H6 H7 H8 H9]. by constructor. Qed.

Lemma permits_cons o l : length (permits (Permit o :: l)) = S (length (permits l)).
Proof. done. Qed.

Lemma books_take_permit l s :
  revalidation_permits s ≠ 0 → books l s → books (Permit None :: l) (with_permits s (pred (revalidation_permits s))).
Proof.
  intros Hp [H1 H2 H3 H4 H5 H6 H7 H8 H9]. constructor; [done..| |done|done].
  rewrite permits_cons. cbn [revalidation_permits with_permits]. lia.
Qed.

Lemma books_give_permit l s : books (Permit None :: l) s → books l (with_permits s (S (revalidation_permits s))).
Proof.
  intros [H1 H2 H3 H4 H5 H6 H7 H8 H9]. rewrite permits_cons in H7. constructor; [done..| |done|done].
  cbn [revalidation_permits with_permits]. lia.
Qed.

Lemma books_same_permits l s : revalidation_permits s = 0 → books l s → books l (with_permits s (pred (revalidation_permits s))).
Proof. intros Hp [H1 H2 H3 H4 H5 H6 H7 H8 H9]. constructor; [done..| |done|done]. cbn. by rewrite Hp in *. Qed.

Lemma books_same_active l s idx :
  idx ∈ bucket_revalidation_active s → books l s →
  books l (with_active s ({[idx]} ∪ bucket_revalidation_active s) (pings s)).
Proof.
  intros Hin [H1 H2 H3 H4 H5 H6 H7 [H8 H8'] H9]. constructor; [done..| |done]. cbn. split; [done|]. rewrite <-H8'. set_solver.
Qed.

Lemma books_take_slot l s idx :
  (idx ∉ bucket_revalidation_active s) → books (Permit None :: l) s →
  books (Permit (Some (idx, 0)) :: l) (with_active s ({[idx]} ∪ bucket_revalidation_active s) (pings s)).
Proof.
  intros Hin [H1 H2 H3 H4 H5 H6 H7 [H8 H8'] [H9 H9']]. constructor; [done..| |]; cbn in *.
  - split; [|by rewrite H8']. constructor; [|done]. intros Hx. apply Hin. rewrite H8'. by apply elem_of_list_to_set.
  - split; [done|]. constructor; [lia|done].
Qed.

Lemma books_give_slot l s idx :
  books (Permit (Some (idx, 0)) :: l) s →
  books (Permit None :: l) (with_active s (bucket_revalidation_active s ∖ {[idx]}) (pings s)).
Proof.
  intros [H1 H2 H3 H4 H5 H6 H7 [H8 H8'] [H9 H9']]. constructor; [done..| |]; cbn in *.
  - apply NoDup_cons in H8 as [Hni H8]. split; [done|]. rewrite H8'.
    assert (idx ∉ (list_to_set (slots l).*1 : gset nat)) by (by rewrite elem_of_list_to_set). set_solver.
  - apply Forall_cons in H9' as [_ H9']. done.
Qed.

Lemma books_pings l s idx n m :
  m ≤ MAX_CONCURRENT_REVALIDATION_PINGS → books (Permit (Some (idx, n)) :: l) s →
  books (Permit (Some (idx, m)) :: l) (with_active s (bucket_revalidation_active s) (pings s + m - n)).
Proof.
  intros Hm [H1 H2 H3 H4 H5 H6 H7 H8 [H9 H9']]. constructor; [done..|]. cbn in *.
  apply Forall_cons in H9' as [_ H9']. split; [lia|by constructor].
Qed.

(** ** Every task keeps the books *)

Lemma evict_books l s p : books l s → let '(events, s') := evict p s in books ((Owed <$> events) ++ l) s'.
Proof.
  intros Hb. unfold evict. destruct (remove_moves (dht s) p (bk_engine _ _ Hb)) as (events & e & -> & Hm).
  by apply books_commit.
Qed.

Lemma owed_perm (l1 l2 : list RoutingTableEvent) l :
  (Owed <$> l2) ++ (Owed <$> l1) ++ l ≡ₚ (Owed <$> (l1 ++ l2)) ++ l.
Proof. by rewrite fmap_app, (assoc_L (++)), (comm (++) (Owed <$> l2)). Qed.

Lemma evict_each_books ps : ∀ l s, books l s → let '(events, s') := evict_each ps s in books ((Owed <$> events) ++ l) s'.
Proof.
  induction ps as [|p ps IH]; intros l s Hb; cbn [evict_each]; [done|].
  pose proof (evict_books l s p Hb) as H1. destruct (evict p s) as [ev1 s1].
  pose proof (IH _ s1 H1) as H2. destruct (evict_each ps s1) as [ev2 s2]. exact (books_perm _ _ _ (owed_perm _ _ _) H2).
Qed.

Lemma re_evaluate_moves trust e node ips now :
  engine_wf e → storable node → ∃ r e', re_evaluate_admission trust e node ips now = Some (r, e') ∧
    moves e (match r with Ok events => events | Err _ => [] end) e'.
Proof.
  intros Hwf Hst. unfold re_evaluate_admission.
  destruct (add_with_diversity_spec trust (k_value e) e (routing_table e) node ips false now (engine_table _ Hwf) Hst)
    as (r & t' & -> & Hwf' & Hid & Hout). cbn [on_table mbind option_bind].
  eexists _, _. split; [done|].
  pose proof (admission_moves trust e node ips false now r t' Hwf (with_table_wf e t' Hwf Hwf' Hid) Hout) as Hm.
  by destruct r as [[]|].
Qed.

Lemma retry_books trust r evicted cut now l s :
  storable (candidate r) → books l s →
  let '(o, s') := retry_admission trust r evicted cut now s in books ((Owed <$> default [] o) ++ l) s'.
Proof.
  intros Hst Hb. unfold retry_admission. destruct cut as [n|].
  - pose proof (evict_each_books (take n evicted) l s Hb) as H. destruct (evict_each _ s) as [ev s1]. by apply books_drop.
  - pose proof (evict_each_books evicted l s Hb) as H. destruct (evict_each evicted s) as [ev s1].
    destruct (re_evaluate_moves trust (dht s1) (candidate r) (candidate_ips r) now (bk_engine _ _ H) Hst) as (res & e & -> & Hm).
    destruct res as [more|err]; cbn [default].
    + exact (books_perm _ _ _ (owed_perm _ _ _) (books_commit _ _ _ _ Hm H)).
    + apply books_drop. exact (books_commit _ _ _ _ Hm H).
Qed.

Abbreviation keeps := (accounts books).

Lemma step_keeps f (t : task Maintained) own own' :
  (∀ s others, books (own ++ others) s → books (own' ++ others) (f s)) → keeps t own' → keeps (task_step f t) own.
Proof. intros Hf Ht s others Hb. exists own'. auto. Qed.

Lemma broadcast_keeps events (t : task Maintained) : keeps t [] → keeps (broadcast_routing_events events t) (Owed <$> events).
Proof.
  intros Ht. induction events as [|ev events IH]; [done|]. eapply step_keeps; [|exact IH]. intros s others. apply books_sent.
Qed.

Lemma sent_keeps ev (t : task Maintained) : routing_event ev = None → keeps t [] → keeps (task_step (λ s, sent s ev) t) [].
Proof. intros Hev Ht. eapply step_keeps; [|exact Ht]. intros s others. by apply books_sent_other. Qed.

Lemma revalidated_storable trust e node now cand ips idx stale e' :
  engine_wf e → engine_add_node trust e node now = Some (Ok (StaleRevalidationNeeded cand ips idx stale), e') → storable cand.
Proof.
  intros Hwf Hop. destruct (engine_add_node_outcome trust e node now Hwf) as (r & t' & Hop' & _ & Hout).
  rewrite Hop in Hop'. apply (inj Some), pair_eq in Hop' as [<- _]. inversion Hout; subst.
  apply retain_storable_storable. intros Hz. unfold engine_add_node in Hop. destruct (bool_decide _); [done|].
  by rewrite Hz in Hop.
Qed.

Lemma connected_keeps p agent known trust now : keeps (handle_peer_connected p agent known trust now) [].
Proof.
  unfold handle_peer_connected. cbn zeta. set (addresses := List.filter is_dialable (default [] known)).
  destruct addresses as [|a addresses]; [done|]. assert (Hd := sent_keeps (DhtPeerDiscovered p p) Finished eq_refl eq_refl).
  destruct (negb _); [done|]. set (node := {| id := p |}). intros s others Hb. unfold admit_peer.
  destruct (engine_add_node_outcome trust (dht s) node now (bk_engine _ _ Hb)) as (r & t' & Hop & Hwf' & Hout).
  rewrite Hop. pose proof (admission_moves _ _ _ _ _ _ _ _ (bk_engine _ _ Hb) Hwf' Hout) as Hm.
  eexists. split; [exact (books_commit _ _ _ _ Hm Hb)|]. cbn [fst].
  destruct r as [[events|cand ips idx stale]|err]; cbn [fmap list_fmap]; [by apply broadcast_keeps| |done].
  eapply step_keeps; [|exact Hd]. intros s' others' Hb'. apply books_spawned; [|done].
  apply Forall_app. split; [apply (bk_spawned _ _ Hb')|]. constructor; [|done].
  by eapply revalidated_storable, Hop; apply (bk_engine _ _ Hb).
Qed.

Lemma evict_keeps p : keeps (evict_peer p) [].
Proof.
  intros s others Hb. pose proof (evict_books _ s p Hb) as H. destruct (evict p s) as [ev s1]. cbn.
  eexists. split; [exact H|]. by apply broadcast_keeps.
Qed.

Lemma release_keeps idx (t : task Maintained) own : keeps t own → keeps (release idx t) (Permit (Some (idx, 0)) :: own).
Proof.
  intros Ht. eapply (step_keeps _ _ _ (Permit None :: own)); [|eapply step_keeps; [|exact Ht]].
  - intros s others. apply books_give_slot.
  - intros s others. apply books_give_permit.
Qed.

Lemma ping_keeps responded idx l next : Forall (λ c, length c ≤ MAX_CONCURRENT_REVALIDATION_PINGS) l →
  (∀ cut evicted, keeps (next cut evicted) [Permit (Some (idx, 0))]) →
  ∀ cut evicted, keeps (ping_chunks responded cut idx l evicted next) [Permit (Some (idx, 0))].
Proof.
  intros Hl Hnext. induction Hl as [|chunk l Hc _ IH]; intros cut evicted; cbn [ping_chunks]; [done|].
  eapply (step_keeps _ _ _ [Permit (Some (idx, length chunk))]).
  { intros s others Hb. rewrite <-(Nat.sub_0_r (pings s + length chunk)). exact (books_pings others s idx 0 _ Hc Hb). }
  eapply (step_keeps _ _ _ [Permit (Some (idx, 0))]).
  { intros s others Hb. rewrite <-(Nat.add_0_r (pings s)). apply books_pings; [unfold MAX_CONCURRENT_REVALIDATION_PINGS; lia|done]. }
  destruct cut as [[|n]|]; [by apply release_keeps|apply IH..].
Qed.

Lemma chunks_length {A} n (l : list A) : Forall (λ c, length c ≤ n) (chunks n l).
Proof.
  unfold chunks. generalize (length l). intros fuel. revert l. induction fuel as [|fuel IH]; intros l; [by constructor|].
  destruct l; cbn [chunks_fuel]; constructor; [rewrite length_take; lia|apply IH].
Qed.

Lemma retry_keeps trust r evicted cut now :
  storable (candidate r) →
  keeps (Act (λ s, (retry_admission trust r evicted cut now s).2) (λ s,
    release (bucket_idx r) (broadcast_routing_events (default [] (retry_admission trust r evicted cut now s).1) Finished)))
    [Permit (Some (bucket_idx r, 0))].
Proof.
  intros Hst s others Hb. pose proof (retry_books trust r evicted cut now _ s Hst Hb) as H.
  destruct (retry_admission trust r evicted cut now s) as [o s1]. cbn [fst snd].
  exists (Permit (Some (bucket_idx r, 0)) :: (Owed <$> default [] o)). split.
  - eapply books_perm, H. cbn. symmetry. apply Permutation_middle.
  - apply release_keeps. by apply broadcast_keeps.
Qed.

Lemma revalidate_keeps r responded cut trust now : storable (candidate r) → keeps (revalidate r responded cut trust now) [].
Proof.
  intros Hst. unfold revalidate. destruct (stale_peers r) as [|x stale] eqn:Hs; [done|]. rewrite <-Hs. intros s others Hb.
  destruct (Nat.eqb_spec (revalidation_permits s) 0) as [Hz|Hnz]; [by exists []; split; [apply books_same_permits|]|].
  exists [Permit None]. split; [by apply books_take_permit|]. clear s others Hb Hnz. intros s others Hb.
  case_bool_decide as Hact.
  - exists [Permit None]. split; [by apply books_same_active|]. eapply (step_keeps _ _ _ []); [|done].
    intros s' others'. apply books_give_permit.
  - exists [Permit (Some (bucket_idx r, 0))]. split; [by apply books_take_slot|].
    apply ping_keeps; [apply chunks_length|]. intros cut' [|p evicted]; [by apply release_keeps|by apply retry_keeps].
Qed.

Lemma run_spawned_keeps i responded cut trust now : keeps (run_spawned i responded cut trust now) [].
Proof.
  intros s others Hb. pose proof (bk_spawned _ _ Hb) as Hall. exists []. split.
  - apply books_spawned; [|done]. by apply Forall_delete.
  - destruct (spawned s !! i) as [r|] eqn:Hr; [|done]. apply revalidate_keeps. by eapply (Forall_lookup_1 _ _ _ _ Hall Hr).
Qed.

Lemma evict_closest_books ps cut l s :
  books l s → let '(events, s') := evict_closest ps cut s in books ((Owed <$> events) ++ l) s'.
Proof.
  intros Hb. unfold evict_closest. destruct cut as [n|]; [|by apply evict_each_books].
  pose proof (evict_each_books (take n ps) l s Hb) as H. destruct (evict_each _ s) as [ev s1]. by apply books_drop.
Qed.

Lemma closest_keeps responded cut now : keeps (revalidate_stale_k_closest responded cut now) [].
Proof.
  intros s others Hb. exists []. split; [done|]. destruct (List.filter _ _) as [|p ps]; [done|].
  clear s others Hb. intros s others Hb. pose proof (evict_closest_books (p :: ps) cut _ s Hb) as H.
  destruct (evict_closest (p :: ps) cut s) as [ev s1]. eexists. split; [exact H|by apply broadcast_keeps].
Qed.

Lemma record_keeps o : keeps (task_step (record_op o) Finished) [].
Proof.
  apply (step_keeps _ _ _ []); [|done]. intros s others Hb. unfold record_op. pose proof (bk_engine _ _ Hb) as Hwf.
  destruct (record_op_members _ _ o (engine_table _ Hwf)) as (t & -> & Hwf' & Hs).
  exact (books_commit _ s [] _ (same_members_moves _ _ Hwf Hwf' Hs) Hb).
Qed.

Lemma and_then_keeps (t u : task Maintained) own : keeps t own → keeps u [] → keeps (and_then t u) own.
Proof.
  intros Ht Hu. revert own Ht. induction t as [|f k IH]; intros own Ht; cbn in *; [by subst|].
  intros s others Hb. destruct (Ht s others Hb) as (own' & Hb' & Hk). exists own'. split; [done|by apply IH].
Qed.

Lemma reconcile_keeps connected agents known trust now : keeps (reconcile_connected_peers connected agents known trust now) [].
Proof.
  induction connected as [|p rest IH]; [done|]. cbn. destruct (agents p); [|done]. apply and_then_keeps; [apply connected_keeps|done].
Qed.

Lemma maintenance_op_keeps u : maintenance_tasks u → keeps u [].
Proof.
  intros [[] ->]; cbn [maintenance].
  - apply connected_keeps.
  - apply reconcile_keeps.
  - by apply sent_keeps.
  - apply evict_keeps.
  - apply run_spawned_keeps.
  - apply closest_keeps.
  - apply record_keeps.
Qed.

(** ** The manager and its subscribers *)

Lemma table_new_nodes self k now : all_nodes (table_new self k now) = [].
Proof. unfold all_nodes, table_new. cbn [buckets]. by induction KADEMLIA_BUCKET_COUNT. Qed.

Lemma new_books self k loopback threshold now e :
  engine_new self k loopback threshold now = Ok e → books [] (maintained_new e).
Proof.
  intros Hnew. pose proof (engine_new_wf _ _ _ _ _ _ Hnew) as Hwf.
  assert (Hno : all_nodes (routing_table e) = []).
  { revert Hnew. unfold engine_new. destruct (k <? 4); [done|]. destruct (_ || _); [done|]. intros [= <-]. apply table_new_nodes. }
  constructor; [done|done|by constructor| | |done|done| |].
  - exists ∅. split; [done|]. intros p. cbn. unfold member. rewrite Hno. set_solver.
  - unfold close_of, k_closest_ids, find_closest_nodes. cbn. rewrite Hno. cbn. by destruct (k_value e).
  - split; [constructor|done].
  - split; [done|constructor].
Qed.

Lemma books_reached self k loopback threshold now e ts s :
  engine_new self k loopback threshold now = Ok e → rtc (pool_step maintenance_tasks) ([], maintained_new e) (ts, s) →
  ∃ l, books l s ∧ (Forall (λ u, u = Finished) ts → l = []).
Proof.
  intros Hnew Hr.
  destruct (pool_accounts books books_perm maintenance_tasks maintenance_op_keeps _ ts s (new_books _ _ _ _ _ _ Hnew) Hr)
    as (owns & Hall & Hb).
  exists (concat owns). split; [done|]. by apply finished_accounts with books.
Qed.

Definition joined p (events : list RoutingTableEvent) : nat := length (List.filter (λ ev, bool_decide (ev = PeerAdded p)) events).
Definition left_ p (events : list RoutingTableEvent) : nat := length (List.filter (λ ev, bool_decide (ev = PeerRemoved p)) events).

Lemma replay_counts p events : ∀ (M M' : gset PeerId),
  foldl follow_membership (Some M) events = Some M' →
  joined p events + (if decide (p ∈ M) then 1 else 0) = left_ p events + (if decide (p ∈ M') then 1 else 0).
Proof.
  assert (Hnone : ∀ l, foldl follow_membership None l = None) by (intros l; by induction l as [|[] l]).
  induction events as [|ev events IH]; intros M M'; [by intros [= <-]|].
  unfold joined, left_ in *. destruct ev as [q|q|old new]; cbn [foldl follow_membership mbind option_bind List.filter].
  - case_bool_decide as Hq; [by rewrite Hnone|]. intros H%IH. revert H. rewrite (bool_decide_eq_false_2 (PeerAdded q = PeerRemoved p)) by done.
    case_bool_decide as Heq; repeat case_decide; try injection Heq as ->; cbn [length]; try lia; set_solver.
  - case_bool_decide as Hq; [|by rewrite Hnone]. intros H%IH. revert H. rewrite (bool_decide_eq_false_2 (PeerRemoved q = PeerAdded p)) by done.
    case_bool_decide as Heq; repeat case_decide; try injection Heq as ->; cbn [length]; try lia; set_solver.
  - rewrite !(bool_decide_eq_false_2 (KClosestPeersChanged old new = _)) by done. apply IH.
Qed.

Lemma joined_perm p l l' : l ≡ₚ l' → joined p l = joined p l' ∧ left_ p l = left_ p l'.
Proof.
  unfold joined, left_. induction 1 as [|x l l' _ [IH1 IH2]|x y l|l1 l2 l3 _ [] _ []]; cbn; split; repeat case_bool_decide; cbn; lia.
Qed.

(** C20: however connections, evictions, revalidations, their cancellations and all other work on the table interleave, no
    operation of the engine panics and what the engine reports is the truth: the reported joins and departures never
    contradict each other and lead exactly to the members of the table, the last reported close group is the close group.
    No report is broadcast twice or made up.  When no task is under way, every report has been broadcast except those of a
    revalidation that was refused or cut off after its evictions; if there are none, a peer is a member exactly when the
    subscriber has seen it join once more often than leave. *)
Theorem membership_announced self k loopback threshold now e ts s :
  engine_new self k loopback threshold now = Ok e → rtc (pool_step maintenance_tasks) ([], maintained_new e) (ts, s) →
  panicked s = false ∧
  (∃ M, replayed (produced s) = Some M ∧ lists_members (dht s) M) ∧
  close_group (produced s) = close_of (dht s) ∧
  announced s ++ swallowed s ⊆+ produced s ∧
  (Forall (λ u, u = Finished) ts → produced s ≡ₚ announced s ++ swallowed s ∧
     (swallowed s = [] → ∀ p, joined p (announced s) = left_ p (announced s) + if decide (member (routing_table (dht s)) p) then 1 else 0)).
Proof.
  intros Hnew Hr. destruct (books_reached _ _ _ _ _ _ _ _ Hnew Hr) as (l & Hb & Hfin).
  pose proof (bk_events _ _ Hb) as Hev. destruct (bk_members _ _ Hb) as (M & HM & Hlists).
  split_and!; [apply (bk_calm _ _ Hb)|by exists M|apply (bk_close _ _ Hb)| |].
  - rewrite Hev, (assoc_L (++)). by apply submseteq_inserts_r.
  - intros ->%Hfin. cbn in Hev. rewrite app_nil_r in Hev. split; [done|]. intros Hsw p. rewrite Hsw, app_nil_r in Hev.
    destruct (joined_perm p _ _ Hev) as [<- <-]. pose proof (replay_counts p _ _ _ HM) as Hc.
    rewrite decide_False in Hc by set_solver. rewrite Nat.add_0_r in Hc. rewrite Hc. f_equal.
    apply decide_ext. apply Hlists.
Qed.

(** C21: however revalidations interleave and whatever their pings answer, at most eight are under way, no two of the same
    bucket, and they have at most four pings each under way; every permit and every slot is given back, on every path, refusals
    and cancellations included. *)
Theorem revalidation_bounded self k loopback threshold now e ts s :
  engine_new self k loopback threshold now = Ok e → rtc (pool_step maintenance_tasks) ([], maintained_new e) (ts, s) →
  size (bucket_revalidation_active s) + revalidation_permits s ≤ MAX_CONCURRENT_REVALIDATIONS ∧
  pings s ≤ size (bucket_revalidation_active s) * MAX_CONCURRENT_REVALIDATION_PINGS ∧
  (Forall (λ u, u = Finished) ts →
     bucket_revalidation_active s = ∅ ∧ revalidation_permits s = MAX_CONCURRENT_REVALIDATIONS ∧ pings s = 0).
Proof.
  intros Hnew Hr. destruct (books_reached _ _ _ _ _ _ _ _ Hnew Hr) as (l & Hb & Hfin).
  pose proof (bk_permits _ _ Hb) as Hp. destruct (bk_slots _ _ Hb) as [Hnd Hset]. destruct (bk_pings _ _ Hb) as [Hping Hall].
  assert (Hsize : size (bucket_revalidation_active s) = length (slots l)).
  { rewrite Hset, size_list_to_set by done. apply length_fmap. }
  rewrite Hsize. split_and!.
  - assert (length (slots l) ≤ length (permits l)) by (unfold slots; generalize (permits l); intros os; induction os as [|[]]; cbn; lia). lia.
  - rewrite Hping. assert (Hlen : length (slots l) = length (slots l).*2) by (by rewrite length_fmap). rewrite Hlen.
    clear -Hall. induction Hall as [|n ns Hn _ IH]; [done|].
    change (n + sum_list ns ≤ MAX_CONCURRENT_REVALIDATION_PINGS + length ns * MAX_CONCURRENT_REVALIDATION_PINGS). lia.
  - intros ->%Hfin. cbn in *. split_and!; [done|lia|done].
Qed.
End maintenance.
