(* ===== verification/Config.v ===== *)
(** * Configuration and start of a node

    [NodeConfig], its builder, [DHTConfig] and [P2PNode::new] of
    [src/network.rs], with what construction passes on: the transport's
    configuration and sockets ([src/transport_handle.rs],
    [src/transport/saorsa_transport_adapter.rs]), the DHT manager and its
    engine ([src/dht_network_manager.rs], [src/adaptive/dht.rs]); and
    [classify_peer_route_from_typed]. *)

From Stdlib Require Import SpecFloat.
From stdpp Require Import prelude gmap strings.
From S2P Require Import Prelude Float Keys Ip Address PeerRecord SelfAddress DualStack Trust Snapshots SignedAddress Identity NodeInfo RoutingTable Diversity Engine Admission Maintenance.

(** ** Constants; durations are nanoseconds *)

Definition CARGO_PKG_VERSION : string := "0.30.0".
Definition DEFAULT_LISTEN_PORT : N := 9000.
Definition DEFAULT_MAX_CONNECTIONS : N := 10000.
Definition from_secs (s : N) : N := s * 10 ^ 9.
Definition DEFAULT_CONNECTION_TIMEOUT_SECS : N := 25.
Definition DEFAULT_CLOSE_GROUP_CACHE_MAX_AGE_SECS : N := 60 * 60.
Definition DEFAULT_DHT_K_VALUE : nat := 20.
Definition DEFAULT_ALPHA_VALUE : nat := 3.
Definition DEFAULT_REFRESH_INTERVAL_SECS : N := 600.
Definition MIN_K_VALUE : nat := 4.
Definition MAX_ACTIVE_REQUESTS : nat := 256.
Definition MIN_CONCURRENT_OPERATIONS : nat := 10.
Definition DEFAULT_EVENT_CHANNEL_CAPACITY : nat := 1000.

(** ** Modes and user agents *)

Definition user_agent_for_mode (mode : NodeMode) : string :=
  (match mode with Node => "node" | Client => "client" end) +:+ "/" +:+ CARGO_PKG_VERSION.

Inductive ListenMode := Public | Local.

(** ** Data *)

Record DHTConfig := mk_dht_config {
  dht_k_value : nat;
  alpha_value : nat;
  refresh_interval : N;
}.
Definition dht_config_default : DHTConfig :=
  mk_dht_config DEFAULT_DHT_K_VALUE DEFAULT_ALPHA_VALUE (from_secs DEFAULT_REFRESH_INTERVAL_SECS).

Inductive DhtConfigError := KValueBelowMinimum (k : nat) | AlphaBelowOne (alpha : nat) | RefreshIntervalZero.

(** [DHTConfig::validate]. *)
Definition validate_dht_config (c : DHTConfig) : result unit DhtConfigError :=
  if (dht_k_value c <? MIN_K_VALUE)%nat then Err (KValueBelowMinimum (dht_k_value c))
  else if (alpha_value c <? 1)%nat then Err (AlphaBelowOne (alpha_value c))
  else if (refresh_interval c =? 0)%N then Err RefreshIntervalZero
  else Ok ().

(** [AdaptiveDhtConfig] is its swap threshold. *)
Record AdaptiveDhtConfig := mk_adaptive { adaptive_swap_threshold : spec_float }.
Definition adaptive_default : AdaptiveDhtConfig := mk_adaptive DEFAULT_SWAP_THRESHOLD.

Definition default_close_group_cache_max_age : option N := Some (from_secs DEFAULT_CLOSE_GROUP_CACHE_MAX_AGE_SECS).

Section config.
Context `{TL : TransportLib} `{CL : CryptoLib}.

Record NodeConfig := mk_node_config {
  config_local : bool;
  config_port : N;
  config_ipv6 : bool;
  config_bootstrap_peers : list MultiAddr;
  config_connection_timeout : N;
  config_max_connections : N;
  config_dht : DHTConfig;
  config_diversity : option IPDiversityConfig;
  config_max_message_size : option N;
  config_node_identity : option NodeIdentity;
  config_mode : NodeMode;
  config_custom_user_agent : option string;
  config_allow_loopback : bool;
  config_adaptive : AdaptiveDhtConfig;
  config_close_group_cache_dir : option string;
  config_close_group_cache_max_age : option N;
}.

Record NodeConfigBuilder := mk_builder {
  b_port : N;
  b_ipv6 : bool;
  b_local : bool;
  b_bootstrap_peers : list MultiAddr;
  b_max_connections : option N;
  b_connection_timeout : option N;
  b_dht_config : option DHTConfig;
  b_max_message_size : option N;
  b_mode : NodeMode;
  b_custom_user_agent : option string;
  b_allow_loopback : option bool;
  b_adaptive : option AdaptiveDhtConfig;
  b_close_group_cache_dir : option string;
  b_close_group_cache_max_age : option (option N);
}.

Definition builder_default : NodeConfigBuilder :=
  mk_builder 0 true false [] None None None None Node None None None None None.

(** One call on a builder. *)
Inductive Setting :=
  | SetPort (port : N)
  | SetIpv6 (enabled : bool)
  | SetLocal (local : bool)
  | BootstrapPeer (a : MultiAddr)
  | SetMaxConnections (n : N)
  | SetConnectionTimeout (d : N)
  | SetDhtConfig (c : DHTConfig)
  | SetMaxMessageSize (n : N)
  | SetMode (m : NodeMode)
  | SetCustomUserAgent (s : string)
  | SetAllowLoopback (b : bool)
  | SetTrustEnforcement (b : bool)
  | SetAdaptive (c : AdaptiveDhtConfig)
  | SetCacheDir (dir : string)
  | SetCacheMaxAge (age : option N).

Definition trust_enforcement (enabled : bool) : AdaptiveDhtConfig :=
  mk_adaptive (if enabled then adaptive_swap_threshold adaptive_default else f64_zero).

Definition set_ (b : NodeConfigBuilder) (s : Setting) : NodeConfigBuilder :=
  let '(mk_builder port v6 local peers conns timeout dht size mode agent loop adaptive dir age) := b in
  match s with
  | SetPort x => mk_builder x v6 local peers conns timeout dht size mode agent loop adaptive dir age
  | SetIpv6 x => mk_builder port x local peers conns timeout dht size mode agent loop adaptive dir age
  | SetLocal x => mk_builder port v6 x peers conns timeout dht size mode agent loop adaptive dir age
  | BootstrapPeer x => mk_builder port v6 local (peers ++ [x]) conns timeout dht size mode agent loop adaptive dir age
  | SetMaxConnections x => mk_builder port v6 local peers (Some x) timeout dht size mode agent loop adaptive dir age
  | SetConnectionTimeout x => mk_builder port v6 local peers conns (Some x) dht size mode agent loop adaptive dir age
  | SetDhtConfig x => mk_builder port v6 local peers conns timeout (Some x) size mode agent loop adaptive dir age
  | SetMaxMessageSize x => mk_builder port v6 local peers conns timeout dht (Some x) mode agent loop adaptive dir age
  | SetMode x => mk_builder port v6 local peers conns timeout dht size x agent loop adaptive dir age
  | SetCustomUserAgent x => mk_builder port v6 local peers conns timeout dht size mode (Some x) loop adaptive dir age
  | SetAllowLoopback x => mk_builder port v6 local peers conns timeout dht size mode agent (Some x) adaptive dir age
  | SetTrustEnforcement x =>
      mk_builder port v6 local peers conns timeout dht size mode agent loop (Some (trust_enforcement x)) dir age
  | SetAdaptive x => mk_builder port v6 local peers conns timeout dht size mode agent loop (Some x) dir age
  | SetCacheDir x => mk_builder port v6 local peers conns timeout dht size mode agent loop adaptive (Some x) age
  | SetCacheMaxAge x => mk_builder port v6 local peers conns timeout dht size mode agent loop adaptive dir (Some x)
  end.

(** [NodeConfigBuilder::build], which always answers [Ok]. *)
Definition build (b : NodeConfigBuilder) : NodeConfig := {|
  config_local := b_local b;
  config_port := b_port b;
  config_ipv6 := b_ipv6 b;
  config_bootstrap_peers := b_bootstrap_peers b;
  config_connection_timeout := default (from_secs DEFAULT_CONNECTION_TIMEOUT_SECS) (b_connection_timeout b);
  config_max_connections := default DEFAULT_MAX_CONNECTIONS (b_max_connections b);
  config_dht := default dht_config_default (b_dht_config b);
  config_diversity := None;
  config_max_message_size := b_max_message_size b;
  config_node_identity := None;
  config_mode := b_mode b;
  config_custom_user_agent := b_custom_user_agent b;
  config_allow_loopback := default (b_local b) (b_allow_loopback b);
  config_adaptive := default adaptive_default (b_adaptive b);
  config_close_group_cache_dir := b_close_group_cache_dir b;
  config_close_group_cache_max_age := default default_close_group_cache_max_age (b_close_group_cache_max_age b);
|}.

(** [NodeConfig::builder], a chain of calls, [build]. *)
Definition built (calls : list Setting) : NodeConfig := build (foldl set_ builder_default calls).

(** [NodeConfig::default]. *)
Definition node_config_default : NodeConfig := {|
  config_local := false;
  config_port := DEFAULT_LISTEN_PORT;
  config_ipv6 := true;
  config_bootstrap_peers := [];
  config_connection_timeout := from_secs DEFAULT_CONNECTION_TIMEOUT_SECS;
  config_max_connections := DEFAULT_MAX_CONNECTIONS;
  config_dht := dht_config_default;
  config_diversity := None;
  config_max_message_size := None;
  config_node_identity := None;
  config_mode := Node;
  config_custom_user_agent := None;
  config_allow_loopback := false;
  config_adaptive := adaptive_default;
  config_close_group_cache_dir := None;
  config_close_group_cache_max_age := default_close_group_cache_max_age;
|}.
Implicit Types (c : NodeConfig).

(** ** Listening *)

Definition v4_unspecified : Ipv4Addr := mk_octets (n := 4) [0; 0; 0; 0]%Z I.
Definition v4_localhost : Ipv4Addr := mk_octets (n := 4) [127; 0; 0; 1]%Z I.
Definition v6_unspecified : Ipv6Addr := mk_octets (n := 16) (replicate 16 0%Z) I.
Definition v6_localhost : Ipv6Addr := mk_octets (n := 16) (replicate 15 0 ++ [1])%Z I.

Definition build_listen_addrs (port : N) (ipv6_enabled : bool) (mode : ListenMode) : list MultiAddr :=
  let '(ip4, ip6) := match mode with
    | Public => (v4_unspecified, v6_unspecified)
    | Local => (v4_localhost, v6_localhost)
    end in
  (if ipv6_enabled then [quic (socket_new (V6 ip6) port)] else []) ++ [quic (socket_new (V4 ip4) port)].

Definition user_agent c : string := default (user_agent_for_mode (config_mode c)) (config_custom_user_agent c).
Definition listen_addrs c : list MultiAddr :=
  build_listen_addrs (config_port c) (config_ipv6 c) (if config_local c then Local else Public).

(** ** The transport *)

Record TransportConfig := mk_transport_config {
  transport_listen_addrs : list MultiAddr;
  transport_connection_timeout : N;
  transport_max_connections : N;
  event_channel_capacity : nat;
  transport_max_message_size : option N;
  transport_identity : NodeIdentity;
  transport_user_agent : string;
  transport_allow_loopback : bool;
  enable_relay_service : bool;
  advertise_external_addresses : bool;
}.

Definition is_client (m : NodeMode) : bool := match m with Client => true | Node => false end.

Definition from_node_config c (capacity : nat) (identity : NodeIdentity) : TransportConfig := {|
  transport_listen_addrs := listen_addrs c;
  transport_connection_timeout := config_connection_timeout c;
  transport_max_connections := config_max_connections c;
  event_channel_capacity := capacity;
  transport_max_message_size := config_max_message_size c;
  transport_identity := identity;
  transport_user_agent := user_agent c;
  transport_allow_loopback := config_allow_loopback c;
  enable_relay_service := negb (is_client (config_mode c));
  advertise_external_addresses := negb (is_client (config_mode c));
|}.

(** [TransportHandle::new]: the first dialable address of each family, v4 and
    v6. *)
Definition family_step (found : option SocketAddr * option SocketAddr) (a : MultiAddr) : option SocketAddr * option SocketAddr :=
  match dialable_socket_addr a with
  | None => found
  | Some sa =>
      match socket_ip sa, found with
      | V4 _, (None, v6_opt) => (Some sa, v6_opt)
      | V6 _, (v4_opt, None) => (v4_opt, Some sa)
      | _, _ => found
      end
  end.
Definition bind_addrs (l : list MultiAddr) : option SocketAddr * option SocketAddr := foldl family_step (None, None) l.

Definition transport_sockets (t : TransportConfig) (bind_v6 bind_v4 : Bind) : option DualStackNode :=
  let '(v4_opt, v6_opt) := bind_addrs (transport_listen_addrs t) in new_with_options v6_opt v4_opt bind_v6 bind_v4.

(** ** The DHT manager *)

Record DhtNetworkConfig := mk_dht_network_config {
  dht_peer_id : PeerId;
  node_config : NodeConfig;
  request_timeout : N;
  max_concurrent_operations : nat;
  enable_security : bool;
  dht_swap_threshold : spec_float;
}.
Definition with_peer_id_ (d : DhtNetworkConfig) (p : PeerId) : DhtNetworkConfig :=
  mk_dht_network_config p (node_config d) (request_timeout d) (max_concurrent_operations d) (enable_security d) (dht_swap_threshold d).
Definition with_swap_threshold (d : DhtNetworkConfig) (t : spec_float) : DhtNetworkConfig :=
  mk_dht_network_config (dht_peer_id d) (node_config d) (request_timeout d) (max_concurrent_operations d) (enable_security d) t.

(** The manager: its engine and bookkeeping, its configuration, and the
    permits for messages under way. *)
Record Manager := mk_manager {
  maintained : Maintained;
  manager_config : DhtNetworkConfig;
  message_handler_permits : nat;
}.

Definition new_from_components (d : DhtNetworkConfig) (now : Instant) : result Manager EngineError :=
  match engine_new (dht_peer_id d) (dht_k_value (config_dht (node_config d))) (config_allow_loopback (node_config d))
          (dht_swap_threshold d) now with
  | Err e => Err e
  | Ok dht_instance =>
      let dht_instance := from_option (set_ip_diversity_config dht_instance) dht_instance (config_diversity (node_config d)) in
      Ok (mk_manager (maintained_new dht_instance) d (Nat.max (max_concurrent_operations d) MIN_CONCURRENT_OPERATIONS))
  end.

Definition zero_peer : PeerId := key_of_bytes [].

(** [DhtNetworkManager::new]. *)
Definition manager_new (transport_peer_id : PeerId) (d : DhtNetworkConfig) (now : Instant) : result Manager EngineError :=
  new_from_components (if decide (dht_peer_id d = zero_peer) then with_peer_id_ d transport_peer_id else d) now.

(** ** [P2PNode::new] *)

Inductive NodeError :=
  | IdentityNotGenerated (e : IdentityError)
  | DhtConfigInvalid (e : DhtConfigError)
  | DiversityInvalid (e : DiversityError)
  | TransportSetupFailed
  | SwapThresholdInvalid
  | DhtSetupFailed (e : EngineError).

(** What construction has acquired, in order. *)
Inductive Acquired := KeysGenerated | SocketsBound (n : DualStackNode).

Record P2PNode := mk_node {
  p2p_config : NodeConfig;
  p2p_peer_id : PeerId;
  p2p_transport : TransportConfig;
  p2p_sockets : DualStackNode;
  p2p_manager : Manager;
}.

(** [AdaptiveDHT::new]. *)
Definition adaptive_new (transport_peer_id : PeerId) (d : DhtNetworkConfig) (a : AdaptiveDhtConfig) (now : Instant)
    : result Manager NodeError :=
  if negb (validate_swap_threshold (adaptive_swap_threshold a)) then Err SwapThresholdInvalid
  else match manager_new transport_peer_id (with_swap_threshold d (adaptive_swap_threshold a)) now with
       | Err e => Err (DhtSetupFailed e)
       | Ok m => Ok m
       end.

Definition validate_limits (d : option IPDiversityConfig) : result unit DiversityError :=
  match d with None => Ok () | Some d => validate_diversity d end.

Definition node_new c (drawn : option (MlDsaPublicKey * MlDsaSecretKey)) (bind_v6 bind_v4 : Bind) (now : Instant)
    : list Acquired * result P2PNode NodeError :=
  let '(acquired, ident) := match config_node_identity c with
    | Some ident => ([], Ok ident)
    | None => ([KeysGenerated], generate drawn)
    end in
  match ident with
  | Err e => ([], Err (IdentityNotGenerated e))
  | Ok ident =>
      match validate_dht_config (config_dht c), validate_limits (config_diversity c) with
      | Err e, _ => (acquired, Err (DhtConfigInvalid e))
      | Ok _, Err e => (acquired, Err (DiversityInvalid e))
      | Ok _, Ok _ =>
          let t := from_node_config c DEFAULT_EVENT_CHANNEL_CAPACITY ident in
          match transport_sockets t bind_v6 bind_v4 with
          | None => (acquired, Err TransportSetupFailed)
          | Some sockets =>
              let acquired := acquired ++ [SocketsBound sockets] in
              let d := mk_dht_network_config (identity_peer_id ident) c (config_connection_timeout c) MAX_ACTIVE_REQUESTS true f64_zero in
              match adaptive_new (identity_peer_id ident) d (config_adaptive c) now with
              | Err e => (acquired, Err e)
              | Ok m => (acquired, Ok (mk_node c (identity_peer_id ident) t sockets m))
              end
          end
      end
  end.

(** ** The route of a message *)

Inductive PeerRouteKind := RouteRelay | RouteDirect | RouteLan | RouteUnverified | RouteUnknown.

Definition route_label (k : PeerRouteKind) : string :=
  match k with
  | RouteRelay => "relay" | RouteDirect => "direct" | RouteLan => "lan" | RouteUnverified => "unverified" | RouteUnknown => "unknown"
  end.

Definition route_of (ty : AddressType) : PeerRouteKind :=
  match ty with Relay => RouteRelay | Direct => RouteDirect | Unverified => RouteUnverified | Lan => RouteLan end.

(** The walk over the entries: what has matched, and whether a later match
    disagreed. *)
Fixpoint route_walk (src : SocketAddr) (matched : option AddressType) (l : list (MultiAddr * AddressType))
    : option AddressType * bool :=
  match l with
  | [] => (matched, false)
  | (addr, ty) :: l =>
      if bool_decide (socket_addr addr = Some src) then
        match matched with
        | None => route_walk src (Some ty) l
        | Some prev => if decide (prev = ty) then route_walk src matched l else (matched, true)
        end
      else route_walk src matched l
  end.

Definition classify_peer_route_from_typed (transport_source : option MultiAddr) (typed_addrs : list (MultiAddr * AddressType))
    : PeerRouteKind :=
  match transport_source ≫= socket_addr with
  | None => RouteUnknown
  | Some src => match route_walk src None typed_addrs with
                | (Some ty, false) => route_of ty
                | _ => RouteUnknown
                end
  end.

(** ** The configuration passes its own checks where it should *)

Lemma validate_dht_config_spec d : validate_dht_config d = Ok () ↔
  MIN_K_VALUE ≤ dht_k_value d ∧ 1 ≤ alpha_value d ∧ (0 < refresh_interval d)%N.
Proof.
  unfold validate_dht_config. destruct (Nat.ltb_spec (dht_k_value d) MIN_K_VALUE); [split; [done|lia]|].
  destruct (Nat.ltb_spec (alpha_value d) 1); [split; [done|lia]|].
  destruct (N.eqb_spec (refresh_interval d) 0); [split; [done|lia]|]. split; [lia|done].
Qed.

Definition limits_positive (d : option IPDiversityConfig) : Prop :=
  ∀ x, d = Some x → max_per_ip x ≠ Some 0%N ∧ max_per_subnet x ≠ Some 0%N.

Lemma validate_limits_spec d : validate_limits d = Ok () ↔ limits_positive d.
Proof.
  unfold limits_positive. destruct d as [[a b]|]; cbn; [|split; [intros _ x [=]|done]].
  unfold validate_diversity. cbn. split.
  - intros H x [= <-]. cbn. destruct a as [[|]|], b as [[|]|]; by simplify_eq.
  - intros H. destruct (H _ eq_refl) as [Ha Hb]. cbn in Ha, Hb. destruct a as [[|]|], b as [[|]|]; by simplify_eq.
Qed.

(** The engine accepts whatever the configuration's checks accept. *)
Lemma threshold_accepted t : validate_swap_threshold t = true →
  negb (SFleb f64_zero t && SFltb t f64_one) || bool_decide (t = S754_nan) = false.
Proof.
  unfold validate_swap_threshold. rewrite negb_true_iff, orb_false_iff, negb_false_iff, andb_true_iff. intros [[H0 H1] Hn].
  assert (H : SFltb t f64_one = true).
  { apply SFltb_rank in H1 as (Ht & _ & H1). apply SFltb_rank. split_and!; [done..|].
    apply (tlt_trans _ (sf_rank (f64_lit 1 2))); [done|by vm_compute]. }
  rewrite H0, H. cbn. apply bool_decide_eq_false_2. by intros ->.
Qed.

(** Both addresses are bound, the IPv4 one unless the unspecified IPv6 socket
    has taken its port. *)
Definition can_listen c (bind_v6 bind_v4 : Bind) : Prop :=
  (config_ipv6 c = true → bind_v6 = Bound) ∧
  (bind_v4 = Bound ∨ config_ipv6 c = true ∧ config_local c = false ∧ bind_v4 = AddrInUse).
Definition has_v4 (b : Bind) : bool := match b with Bound => true | _ => false end.

Lemma dialable_quic sa : dialable_socket_addr (quic sa) = Some sa.
Proof. unfold dialable_socket_addr, quic, multiaddr_new. cbn. by apply as_quic_Some. Qed.

Lemma bind_addrs_listen c : bind_addrs (listen_addrs c) =
  (Some (SocketV4 (if config_local c then v4_localhost else v4_unspecified) (config_port c)),
   if config_ipv6 c then Some (SocketV6 (if config_local c then v6_localhost else v6_unspecified) (config_port c) 0 0) else None).
Proof.
  unfold bind_addrs, listen_addrs, build_listen_addrs.
  destruct (config_local c), (config_ipv6 c); cbn; unfold family_step; rewrite !dialable_quic; done.
Qed.

Lemma sockets_started c n i b6 b4 : match transport_sockets (from_node_config c n i) b6 b4 with
  | Some sockets => can_listen c b6 b4 ∧ sockets = with_transports (config_ipv6 c) (has_v4 b4)
  | None => ¬ can_listen c b6 b4
  end.
Proof.
  unfold transport_sockets, can_listen. cbn [transport_listen_addrs from_node_config]. rewrite bind_addrs_listen.
  unfold new_with_options. destruct (config_ipv6 c), b6; cbn; rewrite ?N.eqb_refl; destruct b4, (config_local c); cbn;
    first [by split; [naive_solver|] | naive_solver].
Qed.

Lemma adaptive_new_ok d a now : MIN_K_VALUE ≤ dht_k_value (config_dht (node_config d)) →
  match adaptive_new (dht_peer_id d) d a now with
  | Ok m =>
      validate_swap_threshold (adaptive_swap_threshold a) = true ∧
      ∃ t, engine_new (dht_peer_id d) (dht_k_value (config_dht (node_config d))) (config_allow_loopback (node_config d))
             (adaptive_swap_threshold a) now = Ok t ∧
      maintained m = maintained_new (from_option (set_ip_diversity_config t) t (config_diversity (node_config d))) ∧
      message_handler_permits m = Nat.max (max_concurrent_operations d) MIN_CONCURRENT_OPERATIONS
  | Err e => e = SwapThresholdInvalid ∧ validate_swap_threshold (adaptive_swap_threshold a) = false
  end.
Proof.
  intros Hk. unfold adaptive_new. destruct (validate_swap_threshold _) eqn:Ht; cbn [negb]; [|done].
  unfold manager_new, new_from_components.
  replace (if decide (dht_peer_id (with_swap_threshold d (adaptive_swap_threshold a)) = zero_peer) then _ else _)
    with (with_swap_threshold d (adaptive_swap_threshold a)) by (destruct (decide _); by destruct d).
  cbn. unfold engine_new. apply threshold_accepted in Ht. unfold MIN_K_VALUE in Hk.
  destruct (Nat.ltb_spec (dht_k_value (config_dht (node_config d))) 4) as [?|_]; [lia|]. rewrite Ht. eauto 10.
Qed.

(** ** The route of a message *)

Definition tagged (src : SocketAddr) (l : list (MultiAddr * AddressType)) (ty : AddressType) : Prop :=
  ∃ a, (a, ty) ∈ l ∧ socket_addr a = Some src.

Lemma tagged_cons src a ty' l ty : tagged src ((a, ty') :: l) ty ↔ (socket_addr a = Some src ∧ ty = ty') ∨ tagged src l ty.
Proof. unfold tagged. setoid_rewrite elem_of_cons. naive_solver. Qed.

Lemma route_walk_spec src (m : option AddressType) l : match route_walk src m l with
  | (found, false) => ∀ ty, found = Some ty ↔ m = Some ty ∨ tagged src l ty
  | (_, true) => ∃ ty ty', ty ≠ ty' ∧ (m = Some ty ∨ tagged src l ty) ∧ tagged src l ty'
  end.
Proof.
  revert m. induction l as [|[a t] l IH]; intros m; cbn.
  { intros ty. unfold tagged. setoid_rewrite elem_of_nil. naive_solver. }
  pose proof (tagged_cons src a t l) as Hcons.
  case_bool_decide as Ha; [destruct m as [prev|]; [destruct (decide (prev = t)) as [->|Hne]|]|].
  - specialize (IH (Some t)). destruct (route_walk src (Some t) l) as [found []]; naive_solver.
  - naive_solver.
  - specialize (IH (Some t)). destruct (route_walk src (Some t) l) as [found []]; naive_solver.
  - specialize (IH m). destruct (route_walk src m l) as [found []]; naive_solver.
Qed.

(** The label is a type exactly when the source is an entry's socket and every entry of that socket has that type; whatever
    the order of the entries and however often one is repeated. *)
Lemma classify_exact src l ty :
  classify_peer_route_from_typed src l = route_of ty ↔
  ∃ sa, src ≫= socket_addr = Some sa ∧ tagged sa l ty ∧ ∀ ty', tagged sa l ty' → ty' = ty.
Proof.
  unfold classify_peer_route_from_typed. destruct (src ≫= socket_addr) as [sa|]; [|split; [by destruct ty|by intros (? & [=] & _)]].
  pose proof (route_walk_spec sa None l) as H. destruct (route_walk sa None l) as [found []].
  - split; [by destruct found, ty|]. intros (? & [= <-] & Ht & Hu). destruct H as (t1 & t2 & Hne & [[=]|H1] & H2).
    apply Hu in H1, H2. congruence.
  - destruct found as [t|].
    + pose proof (proj1 (H t) eq_refl) as [[=]|Ht]. split.
      * intros Heq. assert (t = ty) as -> by (by destruct t, ty). exists sa. split_and!; [done..|].
        intros ty' Hty'. assert (Some ty = Some ty') as [= <-]; [|done]. apply H. by right.
      * intros (? & [= <-] & Hty & Hu). by rewrite (Hu t Ht).
    + split; [by destruct ty|]. intros (? & [= <-] & Hty & _). assert (None = Some ty) as [=]. apply H. by right.
Qed.

Lemma classify_order src l l' : (∀ x, x ∈ l ↔ x ∈ l') → classify_peer_route_from_typed src l = classify_peer_route_from_typed src l'.
Proof.
  intros Hl. assert (Ht : ∀ sa ty, tagged sa l ty ↔ tagged sa l' ty) by (intros; unfold tagged; by setoid_rewrite Hl).
  assert (Hex : ∀ ty, classify_peer_route_from_typed src l = route_of ty ↔ classify_peer_route_from_typed src l' = route_of ty).
  { intros ty. rewrite !classify_exact. by setoid_rewrite Ht. }
  assert (Hcases : ∀ k, k = RouteUnknown ∨ ∃ ty, k = route_of ty).
  { intros []; [right; by exists Relay|right; by exists Direct|right; by exists Lan|right; by exists Unverified|by left]. }
  destruct (Hcases (classify_peer_route_from_typed src l)) as [H|[ty H]]; [|by rewrite H; symmetry; apply Hex].
  destruct (Hcases (classify_peer_route_from_typed src l')) as [H'|[ty H']]; [congruence|].
  apply Hex in H'. rewrite H in H'. by destruct ty.
Qed.

(** ** Building a configuration *)

(** The last value a chain of calls gives a setting, or the initial one. *)
Definition latest {A} (f : Setting → option A) (calls : list Setting) (x : A) : A :=
  foldl (λ x s, default x (f s)) x calls.

Lemma built_field {A} (g : NodeConfigBuilder → A) (f : Setting → option A) calls b :
  (∀ b s, g (set_ b s) = default (g b) (f s)) → g (foldl set_ b calls) = latest f calls (g b).
Proof. intros Hf. revert b. induction calls as [|s calls IH]; intros b; cbn; [done|]. by rewrite IH, Hf. Qed.

Ltac field_of := let b := fresh in let s := fresh in intros b s; destruct b, s; reflexivity.

(** Loopback addresses are allowed as the last call to [allow_loopback] says, else exactly in local mode, whichever of the
    two is called first; the threshold is that of the last call to either trust setting; bootstrap peers add up in order. *)
Lemma built_spec calls :
  config_allow_loopback (built calls) =
    default (config_local (built calls)) (latest (λ s, match s with SetAllowLoopback b => Some (Some b) | _ => None end) calls None) ∧
  config_local (built calls) = latest (λ s, match s with SetLocal b => Some b | _ => None end) calls false ∧
  config_adaptive (built calls) = default adaptive_default (latest (λ s, match s with
    | SetTrustEnforcement b => Some (Some (trust_enforcement b)) | SetAdaptive a => Some (Some a) | _ => None end) calls None) ∧
  config_bootstrap_peers (built calls) = omap (λ s, match s with BootstrapPeer a => Some a | _ => None end) calls.
Proof.
  unfold built, build. cbn [config_allow_loopback config_local config_adaptive config_bootstrap_peers]. split_and!.
  - f_equal. apply (built_field b_allow_loopback). field_of.
  - apply (built_field b_local). field_of.
  - f_equal. apply (built_field b_adaptive). field_of.
  - assert (H : ∀ b, b_bootstrap_peers (foldl set_ b calls) = b_bootstrap_peers b ++ omap (λ s, match s with BootstrapPeer a => Some a | _ => None end) calls).
    { induction calls as [|s calls IH]; intros b; cbn; [by rewrite app_nil_r|]. rewrite IH. destruct b, s; cbn; by rewrite <-?app_assoc. }
    apply H.
Qed.

(** Enforcement switched off swaps nobody out for want of trust. *)
Lemma enforcement_off e trust p b : swap_threshold e = adaptive_swap_threshold (trust_enforcement false) → trust_swap trust e p b = [].
Proof. intros H. unfold trust_swap. by rewrite H. Qed.

(** ** Modes *)

(** The name a node goes by says its mode, and a client neither relays nor advertises itself; a name of one's own says
    what it says, whatever the mode. *)
Lemma mode_agent c n ident :
  match config_custom_user_agent c with
  | None => is_dht_participant (user_agent c) = negb (is_client (config_mode c))
  | Some agent => user_agent c = agent
  end ∧
  enable_relay_service (from_node_config c n ident) = negb (is_client (config_mode c)) ∧
  advertise_external_addresses (from_node_config c n ident) = negb (is_client (config_mode c)).
Proof. unfold user_agent. cbn. destruct (config_custom_user_agent c), (config_mode c); done. Qed.

(** ** Starting *)

(** The identity a start goes on with. *)
Definition own_identity c (drawn : option (MlDsaPublicKey * MlDsaSecretKey)) : option NodeIdentity :=
  match config_node_identity c with
  | Some ident => Some ident
  | None => (λ x, identity_of x.1 x.2) <$> drawn
  end.

Definition startable c drawn (bind_v6 bind_v4 : Bind) : Prop :=
  is_Some (own_identity c drawn) ∧
  (MIN_K_VALUE ≤ dht_k_value (config_dht c) ∧ 1 ≤ alpha_value (config_dht c) ∧ (0 < refresh_interval (config_dht c))%N) ∧
  limits_positive (config_diversity c) ∧ can_listen c bind_v6 bind_v4 ∧
  validate_swap_threshold (adaptive_swap_threshold (config_adaptive c)) = true.

Context (normalize_socket_addr : SocketAddr → SocketAddr)
  (normalize_v4 : ∀ ip port, normalize_socket_addr (SocketV4 ip port) = SocketV4 ip port)
  (normalize_v6 : ∀ ip port flow scope, normalize_socket_addr (SocketV6 ip port flow scope) =
     match to_ipv4_mapped ip with Some ip4 => SocketV4 ip4 port | None => SocketV6 ip port flow scope end).

(** However the sockets came about, only IPv6 targets of a node without IPv6 have none. *)
Lemma started_reaches c b6 b4 a : can_listen c b6 b4 →
  unroutable normalize_socket_addr (with_transports (config_ipv6 c) (has_v4 b4)) a ↔
  config_ipv6 c = false ∧ DualStack.is_ipv4 (normalize_socket_addr a) = false.
Proof using normalize_v4 normalize_v6.
  intros [_ Hb4]. pose proof (dispatch_sound normalize_socket_addr normalize_v4 normalize_v6 (config_ipv6 c) (has_v4 b4) a) as [_ Hd].
  split.
  - unfold unroutable. intros Hn. rewrite Hn in Hd. destruct Hd as [H6 H4]. split; [done|]. apply H4.
    by destruct Hb4 as [->|(? & _)]; [|congruence].
  - intros [H6 Ha]. rewrite H6. apply unroutable_split; [done|]. by rewrite Ha.
Qed.

Definition node_as_configured c (n : P2PNode) : Prop :=
  let e := dht (maintained (p2p_manager n)) in
  engine_wf e ∧ engine_node_id e = p2p_peer_id n ∧
  Diversity.k_value e = dht_k_value (config_dht c) ∧ Diversity.allow_loopback e = config_allow_loopback c ∧
  swap_threshold e = adaptive_swap_threshold (config_adaptive c) ∧
  ip_diversity_config e = default diversity_default (config_diversity c) ∧
  maintained (p2p_manager n) = maintained_new e ∧ message_handler_permits (p2p_manager n) = MAX_ACTIVE_REQUESTS ∧
  ∀ a, unroutable normalize_socket_addr (p2p_sockets n) a ↔ config_ipv6 c = false ∧ DualStack.is_ipv4 (normalize_socket_addr a) = false.

(** A start with checked configuration and bound sockets. *)
Lemma engine_as_configured (self : PeerId) c now e : engine_new self (dht_k_value (config_dht c)) (config_allow_loopback c)
    (adaptive_swap_threshold (config_adaptive c)) now = Ok e →
  let e' := from_option (set_ip_diversity_config e) e (config_diversity c) in
  engine_wf e' ∧ engine_node_id e' = self ∧ Diversity.k_value e' = dht_k_value (config_dht c) ∧
  Diversity.allow_loopback e' = config_allow_loopback c ∧ swap_threshold e' = adaptive_swap_threshold (config_adaptive c) ∧
  ip_diversity_config e' = default diversity_default (config_diversity c).
Proof.
  intros He. pose proof (engine_new_wf _ _ _ _ _ _ He) as [Hk Ht Hid].
  unfold engine_new in He. destruct (_ <? _)%nat; [done|]. destruct (_ || _); [done|]. injection He as <-.
  cbn in *. destruct (config_diversity c); cbn; split_and!; done.
Qed.

Lemma own_identity_spec c drawn :
  match (match config_node_identity c with Some ident => ([], Ok ident) | None => ([KeysGenerated], generate drawn) end) with
  | (acquired, Ok ident) => own_identity c drawn = Some ident ∧ ∀ n, SocketsBound n ∉ acquired
  | (_, Err _) => own_identity c drawn = None
  end.
Proof.
  unfold own_identity. destruct (config_node_identity c), drawn as [[]|]; cbn; try done; split; try done; intros sockets;
    rewrite ?list_elem_of_singleton; try done; apply not_elem_of_nil.
Qed.

Lemma started_as_configured c ident bind_v6 bind_v4 now m :
  MIN_K_VALUE ≤ dht_k_value (config_dht c) → can_listen c bind_v6 bind_v4 →
  adaptive_new (identity_peer_id ident) (mk_dht_network_config (identity_peer_id ident) c (config_connection_timeout c) MAX_ACTIVE_REQUESTS true f64_zero)
    (config_adaptive c) now = Ok m →
  node_as_configured c (mk_node c (identity_peer_id ident) (from_node_config c DEFAULT_EVENT_CHANNEL_CAPACITY ident)
    (with_transports (config_ipv6 c) (has_v4 bind_v4)) m).
Proof using normalize_v4 normalize_v6.
  intros Hk Hcan Ha. set (d := mk_dht_network_config _ _ _ _ _ _) in Ha. pose proof (adaptive_new_ok d (config_adaptive c) now Hk) as H.
  change (identity_peer_id ident) with (dht_peer_id d) in Ha at 1. rewrite Ha in H. destruct H as (_ & e & He & Hm & Hp).
  apply engine_as_configured in He as (H1 & H2 & H3 & H4 & H5 & H6). unfold node_as_configured. cbn [p2p_manager p2p_peer_id p2p_sockets].
  rewrite Hm, Hp. split_and!; try done. intros a. by apply started_reaches with (b6 := bind_v6).
Qed.

(** C23: starting a node.  A node starts exactly when there is an identity, the DHT parameters, the diversity limits and the
    swap threshold are within their constraints and the sockets can be bound; the engine's own checks then never fail.  A
    node that has started is well-formed, its engine has the parameters of the configuration, and every address has a socket
    but an IPv6 one of a node without IPv6, also when only one of two sockets could be bound.  A start that fails earlier
    than in the swap threshold has bound no socket. *)
Theorem node_start_exact c (drawn : option (MlDsaPublicKey * MlDsaSecretKey)) bind_v6 bind_v4 now :
  let '(acquired, out) := node_new c drawn bind_v6 bind_v4 now in
  (out = Err SwapThresholdInvalid ∨ ∀ n : DualStackNode, SocketsBound n ∈ acquired → ∃ node, out = Ok node ∧ p2p_sockets node = n) ∧
  match out with
  | Ok node => startable c drawn bind_v6 bind_v4 ∧ node_as_configured c node ∧
      p2p_transport node = from_node_config c DEFAULT_EVENT_CHANNEL_CAPACITY (transport_identity (p2p_transport node)) ∧
      own_identity c drawn = Some (transport_identity (p2p_transport node))
  | Err (DhtSetupFailed _) => False
  | Err _ => ¬ startable c drawn bind_v6 bind_v4
  end.
Proof using normalize_v4 normalize_v6.
  unfold node_new. pose proof (own_identity_spec c drawn) as Hown.
  destruct (match config_node_identity c with Some _ => _ | None => _ end) as [acquired [ident|e]].
  2:{ split; [right; by intros n ?%not_elem_of_nil|]. intros [[i Hi] _]. congruence. }
  destruct Hown as [Hown Hno].
  assert (Hnone : ∀ out : result P2PNode NodeError, out = Err SwapThresholdInvalid ∨
    ∀ n : DualStackNode, SocketsBound n ∈ acquired → ∃ node, out = Ok node ∧ p2p_sockets node = n) by (right; intros n Hn; by apply Hno in Hn).
  destruct (validate_dht_config (config_dht c)) as [[]|e] eqn:Hdht.
  2:{ split; [done|]. intros (_ & H & _). apply validate_dht_config_spec in H. congruence. }
  destruct (validate_limits (config_diversity c)) as [[]|e] eqn:Hlim.
  2:{ split; [done|]. intros (_ & _ & H & _). apply validate_limits_spec in H. congruence. }
  pose proof (sockets_started c DEFAULT_EVENT_CHANNEL_CAPACITY ident bind_v6 bind_v4) as Hs.
  destruct (transport_sockets _ bind_v6 bind_v4) as [sockets|]; [|split; [done|by intros (_ & _ & _ & H & _)]].
  destruct Hs as [Hcan ->]. apply validate_dht_config_spec in Hdht. apply validate_limits_spec in Hlim.
  set (d := mk_dht_network_config _ _ _ _ _ _). pose proof (adaptive_new_ok d (config_adaptive c) now (proj1 Hdht)) as Ha.
  change (dht_peer_id d) with (identity_peer_id ident) in Ha. destruct (adaptive_new _ d _ now) as [m|e] eqn:Hm.
  - destruct Ha as [Ht _]. split.
    { right. intros n [Hn|[= ->]%list_elem_of_singleton]%elem_of_app; [by apply Hno in Hn|]. eauto. }
    split_and!; [unfold startable; rewrite Hown; by eauto|by apply (started_as_configured _ _ bind_v6 _ now); [apply Hdht|..]|done..].
  - destruct Ha as [-> Ht]. split; [by left|]. intros (_ & _ & _ & _ & H). congruence.
Qed.
End config.
