(* ===== verification/Publications.v ===== *)
(** * Address publications in the DHT network manager

    The path of a peer's addresses through [src/dht_network_manager.rs]: the
    records a node publishes about itself, the validation of the records it
    receives, and what the routing table and the dial-failure cache become.
    A manager's operation is modelled without other tasks in between and reads
    the clock once; [None] is a panic. *)

From Stdlib Require Import SpecFloat.
From stdpp Require Import prelude sorting gmap strings.
From S2P Require Import Prelude Float Keys Ip Address PeerRecord SelfAddress SignedAddress DialFailure DialPolicy NodeInfo KBucket RoutingTable Diversity Engine EngineQueries.

Definition MAX_SUPPLEMENTAL_SELF_ADDRESSES : nat := MAX_TRANSPORT_ADDRESS_RECORDS - MAX_SELF_QUIC_ADDRESSES.

Inductive PublishError :=
  | ForeignPublicationAddress
  | EncodingFailed (e : string)
  | UnsupportedPublicationTransport
  | InvalidPublicationAddress
  | TooManyRecords.

Inductive SupplementalAddressRejection :=
  | InvalidAddress | ForeignPeer | UnsupportedTransport | Duplicate | CapacityExceeded.

#[export] Instance PublishError_eq_dec : EqDecision PublishError.
Proof. solve_decision. Defined.
#[export] Instance SupplementalAddressRejection_eq_dec : EqDecision SupplementalAddressRejection.
Proof. solve_decision. Defined.

Section publications.
Context `{TL : TransportLib} `{PL : !PostcardLib} `{CL : CryptoLib}.
Implicit Types (address : MultiAddr) (r : TransportAddressRecord) (typed : list (MultiAddr * AddressType)).

(** ** The node's own records *)

(** [address.peer_id().is_some_and(|peer| peer != who)] *)
Definition bound_to_other address (who : PeerId) : bool :=
  from_option (λ p, negb (bool_decide (p = who))) false (peer_id address).

Definition complete_address (self : PeerId) (x : MultiAddr * KnownReachability)
    : result TransportAddressRecord PublishError :=
  if bound_to_other x.1 self then Err ForeignPublicationAddress
  else
    let address := if is_webrtc_direct x.1 then with_peer_id x.1 self else x.1 in
    match from_multiaddr address x.2 with
    | Err e => Err (EncodingFailed e)
    | Ok None => Err UnsupportedPublicationTransport
    | Ok (Some record) =>
        if negb (is_storable address) || negb (is_within_wire_bounds record) then Err InvalidPublicationAddress
        else Ok record
    end.

Fixpoint complete_loop (self : PeerId) (records : list TransportAddressRecord)
    (l : list (MultiAddr * KnownReachability)) : result (list TransportAddressRecord) PublishError :=
  match l with
  | [] => Ok records
  | x :: l' =>
      match complete_address self x with
      | Err e => Err e
      | Ok record =>
          if bool_decide (record ∈ records) then complete_loop self records l'
          else
            let records := records ++ [record] in
            if (MAX_TRANSPORT_ADDRESS_RECORDS <? length records)%nat then Err TooManyRecords
            else complete_loop self records l'
      end
  end.

Definition complete_transport_address_records (self : PeerId) (supplemental : list MultiAddr) typed
    : result (list TransportAddressRecord) PublishError :=
  complete_loop self []
    (((λ p, (p.1, from_legacy p.2)) <$> typed) ++ ((λ a, (a, KUnverified)) <$> supplemental)).

(** One address of [set_supplemental_self_addresses]; the accepted ones, each
    bound to this node, replace the registered ones. *)
Definition register_supplemental (self : PeerId)
    (report : list MultiAddr * list (MultiAddr * SupplementalAddressRejection)) address
    : list MultiAddr * list (MultiAddr * SupplementalAddressRejection) :=
  let '(accepted, rejected) := report in
  let bound := with_peer_id address self in
  let rejection :=
    if negb (is_storable address) then Some InvalidAddress
    else if bound_to_other address self then Some ForeignPeer
    else if negb (is_webrtc_direct address) then Some UnsupportedTransport
    else if negb (match from_multiaddr bound KUnverified with
                  | Ok (Some record) => is_within_wire_bounds record
                  | _ => false
                  end) then Some InvalidAddress
    else if bool_decide (bound ∈ accepted) then Some Duplicate
    else if Nat.eqb (length accepted) MAX_SUPPLEMENTAL_SELF_ADDRESSES then Some CapacityExceeded
    else None in
  match rejection with
  | Some reason => (accepted, rejected ++ [(address, reason)])
  | None => (accepted ++ [bound], rejected)
  end.

Definition supplemental_report (self : PeerId) (l : list MultiAddr)
    : list MultiAddr * list (MultiAddr * SupplementalAddressRejection) :=
  foldl (register_supplemental self) ([], []) l.

(** ** Validation of received records *)

Definition with_reachability r (reach : N) : TransportAddressRecord :=
  {| record_transport := record_transport r; record_reachability := reach; record_address := record_address r |}.

Definition normalize_known_webrtc_reachability r : TransportAddressRecord :=
  if (record_transport r =? transport_id KWebRtcDirect)%N
     && bool_decide (is_Some (reachability_from_id (record_reachability r)))
  then with_reachability r (reachability_id KUnverified) else r.

(** The records kept so far and, for each that decodes, its index, address
    and reachability. *)
Abbreviation Scanned := (list TransportAddressRecord * list (nat * MultiAddr * AddressType))%type.

Definition scan_record (who : PeerId) (acc : Scanned) r : Scanned :=
  let '(bounded, decoded) := acc in
  let r := normalize_known_webrtc_reachability r in
  if negb (is_within_wire_bounds r) || bool_decide (r ∈ bounded) then acc
  else match decode_known r with
       | Ok (Some address) =>
           if negb (is_storable address) then acc
           else if bound_to_other address who then acc
           else if (record_transport r =? transport_id KWebRtcDirect)%N
                   && negb (bool_decide (peer_id address = Some who)) then acc
           else (bounded ++ [r],
                 decoded ++ [(length bounded, address, default Unverified (legacy_reachability r))])
       | Ok None => if bool_decide (transport_from_id (record_transport r) = None)
                    then (bounded ++ [r], decoded) else acc
       | Err _ => acc
       end.

(** One decoded record against the addresses local policy allows: its
    reachability becomes the canonical one, or it is marked for removal. *)
Definition retag_record (allowed : list (MultiAddr * AddressType)) (acc : list TransportAddressRecord * list bool)
    (d : nat * MultiAddr * AddressType) : list TransportAddressRecord * list bool :=
  let '(bounded, keep) := acc in
  let '(index, address, _) := d in
  match List.find (λ p, bool_decide (p.1 = address)) allowed with
  | Some (_, canonical) =>
      (alter (λ r, if bool_decide (is_Some (legacy_reachability r))
                   then with_reachability r
                          (if (record_transport r =? transport_id KWebRtcDirect)%N then reachability_id KUnverified
                           else reachability_id (from_legacy canonical))
                   else r) index bounded, keep)
  | None => (bounded, <[index := false]> keep)
  end.

(** [config_loopback] is the node configuration's [allow_loopback], [ctx] the
    local dial-address context. *)
Definition allowed_addresses (config_loopback : bool) (ctx : DialAddressContext) (source : option MultiAddr)
    (decoded : list (nat * MultiAddr * AddressType)) : list (MultiAddr * AddressType) :=
  let candidates := (λ d, (d.1.2, d.2)) <$>
    List.filter (λ d, config_loopback ||
      negb (from_option (λ i, ip_is_loopback (canonicalize_ip i)) false (ip d.1.2))) decoded in
  filter_lan_addresses_for_store_with_context candidates source ctx.

Definition validate_transport_address_records (config_loopback : bool) (ctx : DialAddressContext)
    (who : PeerId) (records : list TransportAddressRecord) (source : option MultiAddr)
    : option (list TransportAddressRecord * list (MultiAddr * AddressType)) :=
  if Nat.eqb (length records) 0 then None
  else
    let '(bounded, decoded) := foldl (scan_record who) ([], []) (take MAX_TRANSPORT_ADDRESS_RECORDS records) in
    if Nat.eqb (length bounded) 0 then None
    else
      let allowed := allowed_addresses config_loopback ctx source decoded in
      let '(bounded, keep) := foldl (retag_record allowed) (bounded, replicate (length bounded) true) decoded in
      let records := fst <$> List.filter snd (zip bounded keep) in
      if Nat.eqb (length records) 0 then None
      else Some (records, List.filter (λ p, is_quic p.1) allowed).

(** ** The manager's state *)

Record Manager := mk_manager {
  dht : DhtCoreEngine;
  dial_failure_cache : DialFailureCache;
  supplemental_self_addresses : list MultiAddr;
  local_signed_addresses : option VerifiedAddressRecord;
}.

(** What an operation finds around it: the configuration, the local networks
    and the transport address the message came from. *)
Record Surroundings := mk_surroundings {
  local_id : PeerId;
  config_allow_loopback : bool;
  dial_context : DialAddressContext;
  transport_source : option MultiAddr;
}.

Implicit Types (m : Manager) (w : Surroundings) (now : Z).

Definition with_dht m (e : DhtCoreEngine) : Manager :=
  mk_manager e (dial_failure_cache m) (supplemental_self_addresses m) (local_signed_addresses m).
Definition with_cache m (c : DialFailureCache) : Manager :=
  mk_manager (dht m) c (supplemental_self_addresses m) (local_signed_addresses m).

Definition publication_of m (p : PeerId) : option TransportAddressSet :=
  transport_address_set (routing_table (dht m)) p.
Definition sequence_of m (p : PeerId) : N := publish_seq_for (routing_table (dht m)) p.

(** After an applied publication the sockets it newly names are dialled
    again. *)
Definition recover_published m (p : PeerId) (previous current : list (MultiAddr * AddressType)) now : Manager :=
  with_cache m (clear_dial_failures_for_published (dial_failure_cache m) p true previous current now).2.

Definition manager_store_transport m (who : PeerId) (seq : N) (records : list TransportAddressRecord)
    (native : list (MultiAddr * AddressType)) (authoritative : bool) (proof : option VerifiedAddressRecord) now
    : option (bool * Manager) :=
  let previous := get_node_addresses_typed (dht m) who in
  '(applied, e) ← engine_store_transport (dht m) who
     {| set_seq := seq; set_records := records; set_proof := proof |} native authoritative now;
  let m := with_dht m e in
  Some (applied, if applied && authoritative
                 then recover_published m who previous (get_node_addresses_typed (dht m) who) now else m).

Definition validate_for w (who : PeerId) (records : list TransportAddressRecord) :=
  validate_transport_address_records (config_allow_loopback w) (dial_context w) who records (transport_source w).

Definition apply_signed_address_set m w (proof : VerifiedAddressRecord) (authoritative : bool) now
    : option (bool * Manager) :=
  match validate_for w (verified_owner proof) (verified_records proof) with
  | None => Some (false, m)
  | Some (records, native) =>
      manager_store_transport m (verified_owner proof) (verified_sequence proof) records native authoritative
        (Some proof) now
  end.

(** The QUIC records of a V1 self report; addresses that do not encode are
    left out. *)
Definition self_report_records (node : DHTNode) : list TransportAddressRecord :=
  omap (λ p, match from_multiaddr p.1 (from_legacy p.2) with Ok o => o | Err _ => None end)
    (List.filter (λ p, is_quic p.1) (PeerRecord.typed_addresses node)).

Definition apply_native_self_report m w (node : DHTNode) (sequence : N) now
    : option (option (list (MultiAddr * AddressType)) * Manager) :=
  let who := node_peer_id node in
  match publication_of m who with
  | Some _ => Some (None, m)
  | None =>
      match validate_for w who (self_report_records node) with
      | None => Some (None, m)
      | Some (_, native) =>
          let previous := get_node_addresses_typed (dht m) who in
          '(applied, e) ← engine_replace (dht m) who native sequence now;
          let m := with_dht m e in
          Some (Some native,
                if applied : bool
                then recover_published m who previous (get_node_addresses_typed (dht m) who) now else m)
      end
  end.

Definition with_addresses (node : DHTNode) (l : list (MultiAddr * AddressType)) : DHTNode :=
  {| node_peer_id := node_peer_id node; addresses := l.*1; address_types := l.*2; distance := distance node;
     reliability := reliability node; address_authority := address_authority node |}.

Definition with_authority (node : DHTNode) (a : option AddressAuthority) (d : option (list Z)) : DHTNode :=
  {| node_peer_id := node_peer_id node; addresses := addresses node; address_types := address_types node;
     distance := d; reliability := reliability node; address_authority := a |}.

Definition protect_owner_view m (hint : DHTNode) : DHTNode :=
  let p := node_peer_id hint in
  let stored := publication_of m p in
  if (sequence_of m p =? 0)%N && bool_decide (stored = None) then hint
  else
    let authority :=
      match stored ≫= set_proof with
      | Some proof => Some (Signed proof)
      | None => if (sequence_of m p =? 0)%N then None else Some (AuthenticatedOwner (sequence_of m p))
      end in
    with_authority (with_addresses hint (get_node_addresses_typed (dht m) p)) authority
      (encode_publish_seq_distance (from_option authority_sequence 0%N authority)).

(** ** Lookup answers *)

Fixpoint normalize_signed_lookup_nodes m w (l : list (VerifiedAddressRecord * spec_float)) now
    : option (list DHTNode * Manager) :=
  match l with
  | [] => Some ([], m)
  | (proof, rel) :: l' =>
      match validate_for w (verified_owner proof) (verified_records proof) with
      | None => normalize_signed_lookup_nodes m w l' now
      | Some (_, native) =>
          '(_, m) ← apply_signed_address_set m w proof false now;
          let node := protect_owner_view m
            {| node_peer_id := verified_owner proof; addresses := native.*1; address_types := native.*2;
               distance := None; reliability := rel; address_authority := Some (Signed proof) |} in
          '(rest, m) ← normalize_signed_lookup_nodes m w l' now;
          Some (node :: rest, m)
      end
  end.

(** The records that verify and whose owner the answer names, with the
    reliability the answer (its last entry for the owner) gives it. *)
Definition verified_answers (nodes : list DHTNode) (records : list SignedAddressRecord)
    : list (VerifiedAddressRecord * spec_float) :=
  let base := list_to_map (reverse ((λ n, (node_peer_id n, reliability n)) <$> nodes)) : gmap PeerId spec_float in
  omap (λ s, match verify s with
             | Err _ => None
             | Ok proof => (pair proof) <$> base !! verified_owner proof
             end) records.

Definition merge_by_owner (acc : gmap PeerId DHTNode) (node : DHTNode) : gmap PeerId DHTNode :=
  <[node_peer_id node := match acc !! node_peer_id node with
                         | Some current => merge_from current node
                         | None => node
                         end]> acc.

(** One node of the answer: its claims of authority are dropped, its own
    report applied when it is the responder, a signed view merged in, and
    what the table proves put in its place. *)
Definition normalize_answer_node m w (responder : PeerId) (signed_by_owner : gmap PeerId DHTNode) (node : DHTNode) now
    : option (DHTNode * gmap PeerId DHTNode * Manager) :=
  let claimed := advertised_publish_seq node in
  let node := with_authority node None None in
  '(node, m) ←
    (if bool_decide (node_peer_id node = responder) && negb (claimed =? 0)%N then
       '(r, m) ← apply_native_self_report m w node claimed now;
       Some (match r with
             | Some l => with_authority (with_addresses node l) (Some (AuthenticatedOwner claimed)) None
             | None => with_addresses node []
             end, m)
     else Some (node, m));
  let node := match signed_by_owner !! node_peer_id node with
              | Some signed => merge_from node signed
              | None => node
              end in
  Some (protect_owner_view m node, delete (node_peer_id node) signed_by_owner, m).

Fixpoint normalize_answer_nodes m w (responder : PeerId) (signed_by_owner : gmap PeerId DHTNode)
    (nodes : list DHTNode) now : option (list DHTNode * Manager) :=
  match nodes with
  | [] => Some ([], m)
  | node :: rest =>
      '(node, signed_by_owner, m) ← normalize_answer_node m w responder signed_by_owner node now;
      '(rest, m) ← normalize_answer_nodes m w responder signed_by_owner rest now;
      Some (node :: rest, m)
  end.

Definition normalize_lookup_answer m w (nodes : list DHTNode) (records : list SignedAddressRecord)
    (responder : PeerId) now : option (list DHTNode * Manager) :=
  '(signed, m) ← normalize_signed_lookup_nodes m w (verified_answers nodes records) now;
  normalize_answer_nodes m w responder (foldl merge_by_owner ∅ signed) nodes now.

(** ** Publishing *)

Definition U64_MAX : N := 2 ^ 64 - 1.

(** The wall clock in nanoseconds since the Unix epoch, [None] before it. *)
Definition next_publish_seq (unix_ns : option N) : N :=
  match unix_ns with
  | Some ns => N.max (if (ns <=? U64_MAX)%N then ns else U64_MAX) 1
  | None => 1
  end.

Definition local_signed_address_record (identity : NodeIdentity) (cached : option VerifiedAddressRecord)
    (records : list TransportAddressRecord) (unix_ns : option N)
    : option SignedAddressRecord * option VerifiedAddressRecord :=
  if Nat.eqb (length records) 0 then (None, cached)
  else if from_option (λ proof, bool_decide (verified_records proof = records)) false cached
  then (signed <$> cached, cached)
  else
    let sequence := N.max (next_publish_seq unix_ns)
      (from_option (λ proof, N.min U64_MAX (verified_sequence proof + 1)) 1%N cached) in
    match sign identity sequence records with
    | Err _ => (None, cached)
    | Ok record => (Some record, match verify record with Ok proof => Some proof | Err _ => None end)
    end.

Definition signed_address_record_for_peer m w (identity : NodeIdentity) (own : list (MultiAddr * AddressType))
    (unix_ns : option N) (p : PeerId) : option SignedAddressRecord * Manager :=
  if bool_decide (p = local_id w) then
    match complete_transport_address_records (local_id w) (supplemental_self_addresses m) own with
    | Err _ => (None, m)
    | Ok records =>
        let '(r, cached) := local_signed_address_record identity (local_signed_addresses m) records unix_ns in
        (r, mk_manager (dht m) (dial_failure_cache m) (supplemental_self_addresses m) cached)
    end
  else (signed <$> (publication_of m p ≫= set_proof), m).

(** The V1 projection of a publication: its QUIC addresses. *)
Definition legacy_addresses (records : list TransportAddressRecord) : list (MultiAddr * AddressType) :=
  omap (λ r, match decode_known r with
             | Ok (Some address) =>
                 if is_quic address then Some (address, default Unverified (legacy_reachability r)) else None
             | _ => None
             end) records.

(** The messages of one publication: who gets them, the V1 set and its
    sequence when there is a QUIC address, and the signed record. *)
Record PublicationPlan := mk_plan {
  plan_targets : list PeerId;
  plan_legacy : option (N * list (MultiAddr * AddressType));
  plan_signed : SignedAddressRecord;
}.

Fixpoint distinct_targets (self : PeerId) (seen : gset PeerId) (peers : list PeerId) : list PeerId :=
  match peers with
  | [] => []
  | p :: rest =>
      if bool_decide (p = self) || bool_decide (p ∈ seen) then distinct_targets self seen rest
      else p :: distinct_targets self ({[p]} ∪ seen) rest
  end.

Definition publish_address_records_to_peers m w (identity : NodeIdentity) (records : list TransportAddressRecord)
    (peers : list PeerId) (unix_ns : option N) : option PublicationPlan * Manager :=
  if Nat.eqb (length records) 0 then (None, m)
  else
    let '(r, cached) := local_signed_address_record identity (local_signed_addresses m) records unix_ns in
    let m := mk_manager (dht m) (dial_failure_cache m) (supplemental_self_addresses m) cached in
    match r with
    | None => (None, m)
    | Some signed =>
        match verify signed with
        | Err _ => (None, m)
        | Ok verified =>
            let legacy := legacy_addresses records in
            (Some (mk_plan (distinct_targets (local_id w) ∅ peers)
                     (if Nat.eqb (length legacy) 0 then None else Some (verified_sequence verified, legacy))
                     signed), m)
        end
    end.

Definition publish_address_set_to_peers m w (identity : NodeIdentity) typed (peers : list PeerId) (unix_ns : option N)
    : result (option PublicationPlan) PublishError * Manager :=
  match complete_transport_address_records (local_id w) (supplemental_self_addresses m) typed with
  | Err e => (Err e, m)
  | Ok records =>
      let '(plan, m) := publish_address_records_to_peers m w identity records peers unix_ns in (Ok plan, m)
  end.

Definition SELF_RELIABILITY_SCORE : spec_float := f64_of_Z 1.

(** [observed], [listen], [relay] and [proven] are the transport's answers. *)
Definition local_dht_node (normalize_socket_addr : SocketAddr → SocketAddr) w (proven : SocketAddr → bool)
    (observed : list SocketAddr) (listen : list MultiAddr) (relay : option SocketAddr) : DHTNode :=
  let typed := into_typed_vec (build_self_address_set normalize_socket_addr proven observed listen relay) in
  {| node_peer_id := local_id w; addresses := typed.*1; address_types := typed.*2; distance := None;
     reliability := SELF_RELIABILITY_SCORE; address_authority := None |}.

(** [local] is the local node and [peers] the closest peers, both read after
    the registration. *)
Definition set_supplemental_self_addresses m w (identity : NodeIdentity) (l : list MultiAddr) (local : DHTNode)
    (peers : list PeerId) (unix_ns : option N)
    : (list MultiAddr * list (MultiAddr * SupplementalAddressRejection)) *
      result (option PublicationPlan) PublishError * Manager :=
  let report := supplemental_report (local_id w) l in
  let m := mk_manager (dht m) (dial_failure_cache m) report.1 (local_signed_addresses m) in
  let '(outcome, m) :=
    publish_address_set_to_peers m w identity (PeerRecord.typed_addresses local) peers unix_ns in
  (report, outcome, m).

(** ** Validation: the records kept, one by one *)

(** What a record must satisfy to be kept for [who], local policy apart. *)
Definition acceptable (who : PeerId) r : bool :=
  is_within_wire_bounds r &&
  match decode_known r with
  | Ok (Some address) =>
      is_storable address && negb (bound_to_other address who) &&
      (negb (record_transport r =? transport_id KWebRtcDirect)%N || bool_decide (peer_id address = Some who))
  | Ok None => bool_decide (transport_from_id (record_transport r) = None)
  | Err _ => false
  end.

Definition decoded_address r : option MultiAddr :=
  match decode_known r with Ok o => o | Err _ => None end.

Fixpoint decoded_from (i : nat) (l : list TransportAddressRecord) : list (nat * MultiAddr * AddressType) :=
  match l with
  | [] => []
  | r :: l' =>
      match decoded_address r with
      | Some address => (i, address, default Unverified (legacy_reachability r)) :: decoded_from (S i) l'
      | None => decoded_from (S i) l'
      end
  end.

Lemma decoded_from_app i l1 l2 : decoded_from i (l1 ++ l2) = decoded_from i l1 ++ decoded_from (i + length l1) l2.
Proof.
  revert i. induction l1 as [|r l1 IH]; intros i; cbn [decoded_from app length]; [by rewrite Nat.add_0_r|].
  rewrite IH, Nat.add_succ_comm. by destruct (decoded_address r).
Qed.

(** The scan keeps each acceptable record once. *)
Definition keep_acceptable (who : PeerId) (kept : list TransportAddressRecord) r : list TransportAddressRecord :=
  let r := normalize_known_webrtc_reachability r in
  if acceptable who r && negb (bool_decide (r ∈ kept)) then kept ++ [r] else kept.

Lemma scan_record_spec who bounded r :
  scan_record who (bounded, decoded_from 0 bounded) r =
  (keep_acceptable who bounded r, decoded_from 0 (keep_acceptable who bounded r)).
Proof.
  unfold scan_record, keep_acceptable, acceptable. set (r' := normalize_known_webrtc_reachability r).
  destruct (is_within_wire_bounds r'); cbn [negb orb andb]; [|done].
  destruct (bool_decide (r' ∈ bounded)); cbn [negb]; [by rewrite andb_false_r|]. rewrite andb_true_r.
  destruct (decode_known r') as [[address|]|e] eqn:Hd; [| |done].
  - destruct (is_storable address); cbn [negb andb]; [|done].
    destruct (bound_to_other address who); cbn [negb andb]; [done|].
    destruct (record_transport r' =? transport_id KWebRtcDirect)%N; cbn [negb andb orb].
    + destruct (bool_decide (peer_id address = Some who)); cbn [negb]; [|done].
      rewrite decoded_from_app. cbn [decoded_from Nat.add]. unfold decoded_address. by rewrite Hd.
    + rewrite decoded_from_app. cbn [decoded_from Nat.add]. unfold decoded_address. by rewrite Hd.
  - destruct (bool_decide (transport_from_id (record_transport r') = None)); [|done].
    rewrite decoded_from_app. cbn [decoded_from]. unfold decoded_address. by rewrite Hd, app_nil_r.
Qed.

Lemma scan_records_spec who l bounded :
  foldl (scan_record who) (bounded, decoded_from 0 bounded) l =
  (foldl (keep_acceptable who) bounded l, decoded_from 0 (foldl (keep_acceptable who) bounded l)).
Proof.
  revert bounded. induction l as [|r l IH]; intros bounded; [done|]. cbn [foldl].
  by rewrite scan_record_spec, IH.
Qed.

Lemma kept_elem who l bounded r :
  r ∈ foldl (keep_acceptable who) bounded l ↔
  r ∈ bounded ∨ acceptable who r = true ∧ ∃ r0, r0 ∈ l ∧ r = normalize_known_webrtc_reachability r0.
Proof.
  revert bounded. induction l as [|x l IH]; intros bounded; cbn [foldl].
  - split; [by left|]. intros [?|(_ & r0 & Hr0 & _)]; [done|]. by apply elem_of_nil in Hr0.
  - rewrite IH. unfold keep_acceptable at 1. set (x' := normalize_known_webrtc_reachability x).
    destruct (acceptable who x') eqn:Ha; cbn [andb].
    + destruct (bool_decide_reflect (x' ∈ bounded)) as [Hin|Hni]; cbn [negb].
      * set_solver.
      * rewrite elem_of_app, list_elem_of_singleton. split.
        -- intros [[?| ->]|(? & r0 & ? & ?)]; [by left|right|right]; (split; [done|]); [exists x|exists r0]; set_solver.
        -- intros [?|(? & r0 & [->|?]%elem_of_cons & ->)]; [by left; left|by left; right|right; eauto].
    + split; [set_solver|]. intros [?|(Hr & r0 & [->|?]%elem_of_cons & ->)]; [by left| |right; eauto].
      fold x' in Hr. congruence.
Qed.

Lemma kept_length who l bounded : length (foldl (keep_acceptable who) bounded l) ≤ length bounded + length l.
Proof.
  revert bounded. induction l as [|x l IH]; intros bounded; cbn [foldl length]; [lia|].
  etrans; [apply IH|]. unfold keep_acceptable. destruct (_ && _); rewrite ?length_app; cbn; lia.
Qed.

(** Local policy on one kept record. *)
Definition canonical_record (canonical : AddressType) r : TransportAddressRecord :=
  if bool_decide (is_Some (legacy_reachability r))
  then with_reachability r
         (if (record_transport r =? transport_id KWebRtcDirect)%N then reachability_id KUnverified
          else reachability_id (from_legacy canonical))
  else r.

Definition under_policy (allowed : list (MultiAddr * AddressType)) r : option TransportAddressRecord :=
  match decoded_address r with
  | Some address =>
      (λ p, canonical_record p.2 r) <$> List.find (λ p, bool_decide (p.1 = address)) allowed
  | None => Some r
  end.

Definition policy_pair (allowed : list (MultiAddr * AddressType)) r : TransportAddressRecord * bool :=
  match under_policy allowed r with Some r' => (r', true) | None => (r, false) end.

Lemma retag_suffix allowed pre flags suf :
  length pre = length flags →
  foldl (retag_record allowed) (pre ++ suf, flags ++ replicate (length suf) true) (decoded_from (length pre) suf) =
  (pre ++ (policy_pair allowed <$> suf).*1, flags ++ (policy_pair allowed <$> suf).*2).
Proof.
  revert pre flags. induction suf as [|r suf IH]; intros pre flags Hlen; [done|].
  cbn [decoded_from length replicate fmap list_fmap].
  assert (Hnext : ∀ r' b, length (pre ++ [r']) = length (flags ++ [b])) by (intros; rewrite !length_app; cbn; lia).
  assert (Hpos : ∀ r', length (pre ++ [r']) = S (length pre)) by (intros; rewrite length_app; cbn; lia).
  destruct (decoded_address r) as [address|] eqn:Hd.
  - cbn [foldl]. unfold retag_record at 2.
    destruct (List.find (λ p, bool_decide (p.1 = address)) allowed) as [[a canonical]|] eqn:Hf.
    + assert (Hpol : policy_pair allowed r = (canonical_record canonical r, true)).
      { unfold policy_pair, under_policy. by rewrite Hd, Hf. }
      rewrite Hpol, alter_app_r_alt, Nat.sub_diag by done. specialize (IH (pre ++ [canonical_record canonical r]) (flags ++ [true]) (Hnext _ _)).
      rewrite Hpos, <-!(assoc_L (++)) in IH. exact IH.
    + assert (Hpol : policy_pair allowed r = (r, false)).
      { unfold policy_pair, under_policy. by rewrite Hd, Hf. }
      rewrite Hpol, Hlen, insert_app_r_alt, Nat.sub_diag, <-Hlen by done.
      specialize (IH (pre ++ [r]) (flags ++ [false]) (Hnext _ _)).
      rewrite Hpos, <-!(assoc_L (++)) in IH. exact IH.
  - assert (Hpol : policy_pair allowed r = (r, true)) by (unfold policy_pair, under_policy; by rewrite Hd).
    rewrite Hpol. specialize (IH (pre ++ [r]) (flags ++ [true]) (Hnext _ _)).
    rewrite Hpos, <-!(assoc_L (++)) in IH. exact IH.
Qed.

Lemma flagged_omap allowed l :
  (List.filter snd (zip (policy_pair allowed <$> l).*1 (policy_pair allowed <$> l).*2)).*1 =
  omap (under_policy allowed) l.
Proof.
  induction l as [|r l IH]; [done|]. cbn [fmap list_fmap zip zip_with omap list_omap].
  rewrite <-IH. unfold policy_pair at 1 2. by destruct (under_policy allowed r).
Qed.

Definition accepted_records (who : PeerId) (records : list TransportAddressRecord) : list TransportAddressRecord :=
  foldl (keep_acceptable who) [] (take MAX_TRANSPORT_ADDRESS_RECORDS records).

Definition policy_addresses (loopback : bool) ctx source (who : PeerId) (records : list TransportAddressRecord)
    : list (MultiAddr * AddressType) :=
  allowed_addresses loopback ctx source (decoded_from 0 (accepted_records who records)).

Lemma validate_unfold loopback ctx who records source :
  let allowed := policy_addresses loopback ctx source who records in
  let kept := omap (under_policy allowed) (accepted_records who records) in
  validate_transport_address_records loopback ctx who records source =
  if Nat.eqb (length kept) 0 then None else Some (kept, List.filter (λ p, is_quic p.1) allowed).
Proof.
  cbv zeta. unfold validate_transport_address_records.
  destruct records as [|r0 records]; [done|]. cbn [length Nat.eqb].
  change (@nil (nat * MultiAddr * AddressType)) with (decoded_from 0 []).
  rewrite (scan_records_spec who (take MAX_TRANSPORT_ADDRESS_RECORDS (r0 :: records)) []).
  fold (accepted_records who (r0 :: records)). cbv beta iota zeta.
  destruct (Nat.eqb_spec (length (accepted_records who (r0 :: records))) 0) as [H0|H0].
  { apply length_zero_iff_nil in H0. by rewrite H0. }
  fold (policy_addresses loopback ctx source who (r0 :: records)).
  rewrite (retag_suffix _ [] [] (accepted_records who (r0 :: records)) eq_refl). cbn [app].
  by rewrite flagged_omap.
Qed.

Lemma canonical_record_transport c r : record_transport (canonical_record c r) = record_transport r.
Proof. unfold canonical_record. by destruct (bool_decide _). Qed.
Lemma canonical_record_address c r : record_address (canonical_record c r) = record_address r.
Proof. unfold canonical_record. by destruct (bool_decide _). Qed.

(** Decoding and acceptance depend on the transport and the payload only. *)
Lemma decode_same r r' :
  record_transport r' = record_transport r → record_address r' = record_address r → decode_known r' = decode_known r.
Proof. intros Ht Ha. unfold decode_known. by rewrite Ht, Ha. Qed.

Lemma acceptable_same who r r' :
  record_transport r' = record_transport r → record_address r' = record_address r → acceptable who r' = acceptable who r.
Proof.
  intros Ht Ha. unfold acceptable, is_within_wire_bounds. by rewrite (decode_same r r' Ht Ha), Ht, Ha.
Qed.

Lemma normalize_same r :
  record_transport (normalize_known_webrtc_reachability r) = record_transport r ∧
  record_address (normalize_known_webrtc_reachability r) = record_address r.
Proof. unfold normalize_known_webrtc_reachability. by destruct (_ && _). Qed.

Lemma elem_of_decoded i l j address ty :
  (j, address, ty) ∈ decoded_from i l ↔
  ∃ r k, l !! k = Some r ∧ j = i + k ∧ decoded_address r = Some address ∧
         ty = default Unverified (legacy_reachability r).
Proof.
  revert i. induction l as [|r l IH]; intros i; cbn [decoded_from].
  - split; [by intros ?%elem_of_nil|]. intros (r & k & Hk & _). by rewrite lookup_nil in Hk.
  - transitivity (decoded_address r = Some address ∧ j = i ∧ ty = default Unverified (legacy_reachability r) ∨
                  (j, address, ty) ∈ decoded_from (S i) l).
    { destruct (decoded_address r) as [a|]; [|naive_solver]. rewrite elem_of_cons. naive_solver. }
    rewrite IH. split.
    + intros [(Ha & -> & ->)|(r' & k & Hk & -> & Ha & ->)]; [exists r, 0|exists r', (S k)]; split_and!; try done; lia.
    + intros (r' & [|k] & Hk & -> & Ha & ->); simplify_eq/=.
      * left. rewrite Nat.add_0_r. done.
      * right. exists r', k. split_and!; try done; lia.
Qed.

(** The addresses local policy allows: of accepted records, no loopback
    unless configured, no LAN unless the set arrived over the LAN or shares
    the local WAN. *)
Definition lan_trusted ctx (source : option MultiAddr) (l : list (MultiAddr * AddressType)) : bool :=
  from_option is_lan_ip false (source ≫= ip) || peer_shares_wan ctx ((λ p, (p.1, for_advertised_address p.1 p.2)) <$> l).

Definition policy_candidates (loopback : bool) (who : PeerId) (records : list TransportAddressRecord)
    : list (MultiAddr * AddressType) :=
  (λ d, (d.1.2, d.2)) <$>
    List.filter (λ d, loopback || negb (from_option (λ i, ip_is_loopback (canonicalize_ip i)) false (ip d.1.2)))
      (decoded_from 0 (accepted_records who records)).

Lemma elem_of_policy loopback ctx source who records address ty :
  (address, ty) ∈ policy_addresses loopback ctx source who records ↔
  ∃ r, r ∈ accepted_records who records ∧ decoded_address r = Some address ∧
    ty = for_advertised_address address (default Unverified (legacy_reachability r)) ∧
    (loopback || negb (from_option (λ i, ip_is_loopback (canonicalize_ip i)) false (ip address))) = true ∧
    (ty = Lan → lan_trusted ctx source (policy_candidates loopback who records) = true).
Proof.
  unfold policy_addresses, allowed_addresses, filter_lan_addresses_for_store_with_context.
  fold (policy_candidates loopback who records).
  fold (lan_trusted ctx source (policy_candidates loopback who records)).
  set (trusted := lan_trusted ctx source _).
  assert (Hc : ∀ p, p ∈ (λ p, (p.1, for_advertised_address p.1 p.2)) <$> policy_candidates loopback who records ↔
    ∃ r, r ∈ accepted_records who records ∧ decoded_address r = Some p.1 ∧
      p.2 = for_advertised_address p.1 (default Unverified (legacy_reachability r)) ∧
      (loopback || negb (from_option (λ i, ip_is_loopback (canonicalize_ip i)) false (ip p.1))) = true).
  { intros [a t]. unfold policy_candidates. rewrite <-list_fmap_compose, list_elem_of_fmap. cbn [fst snd]. split.
    - intros ([[j a'] ty'] & Heq & Hd). apply elem_of_List_filter in Hd as [Hd Hl]. cbn in *. simplify_eq.
      apply elem_of_decoded in Hd as (r & k & Hk & _ & Ha & ->). exists r. split; [by eapply list_elem_of_lookup_2|done].
    - intros (r & [k Hk]%list_elem_of_lookup & Ha & -> & Hl).
      exists (k, a, default Unverified (legacy_reachability r)). split; [done|]. apply elem_of_List_filter.
      split; [|done]. apply elem_of_decoded. by exists r, k. }
  destruct trusted.
  - rewrite Hc. cbn [fst snd]. naive_solver.
  - rewrite elem_of_List_filter, Hc. cbn [fst snd]. rewrite negb_true_iff, bool_decide_eq_false.
    split; [naive_solver|]. intros (r & ? & ? & ? & ? & Hlan). split; [naive_solver|]. intros ->. by discriminate Hlan.
Qed.

Lemma legacy_from_legacy ty r : legacy_reachability (with_reachability r (reachability_id (from_legacy ty))) = Some ty.
Proof. by destruct ty. Qed.

Lemma find_policy (allowed : list (MultiAddr * AddressType)) address p :
  List.find (λ q, bool_decide (q.1 = address)) allowed = Some p → p ∈ allowed ∧ p.1 = address.
Proof. intros [Hp Hq%bool_decide_eq_true]%find_Some_iff. done. Qed.

Lemma elem_of_kept allowed (l : list TransportAddressRecord) r' :
  r' ∈ omap (under_policy allowed) l →
  ∃ r, r ∈ l ∧ record_transport r' = record_transport r ∧ record_address r' = record_address r ∧
    ∀ address, decoded_address r' = Some address →
      ∃ ty, (address, ty) ∈ allowed ∧
        (record_transport r' = transport_id KQuic → is_Some (legacy_reachability r') → legacy_reachability r' = Some ty).
Proof.
  intros (r & Hr & Hpol)%list_elem_of_omap. exists r. split; [done|]. unfold under_policy in Hpol.
  destruct (decoded_address r) as [address|] eqn:Hd.
  - destruct (List.find _ allowed) as [[a ty]|] eqn:Hf; [|done]. cbn in Hpol. simplify_eq.
    apply find_policy in Hf as [Hin <-]. rewrite canonical_record_transport, canonical_record_address.
    split; [done|]. split; [done|]. intros address Ha.
    assert (address = a) as ->.
    { unfold decoded_address in Ha, Hd. rewrite (decode_same r) in Ha;
        [|apply canonical_record_transport|apply canonical_record_address]. cbn in Hd. congruence. }
    exists ty. split; [done|]. intros Ht. unfold canonical_record.
    destruct (bool_decide_reflect (is_Some (legacy_reachability r))) as [_|Hn]; [|done].
    rewrite Ht. intros _. cbn [N.eqb transport_id]. apply legacy_from_legacy.
  - simplify_eq. split; [done|]. split; [done|]. intros address Ha. congruence.
Qed.

Lemma accepted_elem who records r :
  r ∈ accepted_records who records →
  acceptable who r = true ∧ ∃ r0, r0 ∈ records ∧ record_transport r = record_transport r0 ∧ record_address r = record_address r0.
Proof.
  unfold accepted_records. rewrite kept_elem. intros [[]%not_elem_of_nil|(Ha & r0 & Hr0 & ->)].
  split; [done|]. exists r0. split; [|apply normalize_same]. by apply elem_of_take in Hr0 as (? & Hr0 & _); eapply list_elem_of_lookup_2.
Qed.

(** C27: validation of received address records.  What a received set leaves in
    the table is between one and sixteen of its records, with payload and
    transport unchanged; each fits the wire bounds, and when it decodes names
    a storable destination that belongs to the owner (a WebRTC one explicitly),
    is no loopback address unless the node is configured for it, and is on a
    LAN only when the set arrived over a LAN or its owner shares this node's
    WAN.  The native view has exactly the allowed QUIC addresses of those
    records, and a known reachability of a QUIC record agrees with it. *)
Theorem validated_records_sound loopback ctx who records source kept native :
  validate_transport_address_records loopback ctx who records source = Some (kept, native) →
  0 < length kept ≤ MAX_TRANSPORT_ADDRESS_RECORDS ∧
  (∀ r, r ∈ kept →
    acceptable who r = true ∧
    (∃ r0, r0 ∈ records ∧ record_transport r = record_transport r0 ∧ record_address r = record_address r0) ∧
    ∀ address, decoded_address r = Some address →
      (from_option (λ i, ip_is_loopback (canonicalize_ip i)) false (ip address) = true → loopback = true) ∧
      (from_option is_lan_ip false (ip address) = true →
         lan_trusted ctx source (policy_candidates loopback who records) = true) ∧
      (is_quic address = true → ∃ ty, (address, ty) ∈ native ∧
         (record_transport r = transport_id KQuic → is_Some (legacy_reachability r) → legacy_reachability r = Some ty))) ∧
  (∀ address ty, (address, ty) ∈ native →
    is_quic address = true ∧ ∃ r, r ∈ kept ∧ decoded_address r = Some address).
Proof.
  rewrite validate_unfold. cbv zeta. set (allowed := policy_addresses _ _ _ _ _).
  set (l := omap _ _). destruct (Nat.eqb_spec (length l) 0) as [|Hl]; [done|]. intros [= <- <-]. split; [|split].
  - split; [lia|]. unfold l. etrans; [apply omap_length|]. unfold accepted_records.
    etrans; [apply kept_length|]. cbn [length Nat.add]. rewrite length_take. lia.
  - intros r (r1 & Hr1 & Ht & Ha & Hty)%elem_of_kept. destruct (accepted_elem who records r1 Hr1) as (Hacc & r0 & Hr0 & Ht0 & Ha0).
    split; [by rewrite (acceptable_same who r1 r Ht Ha)|]. split; [exists r0; by rewrite Ht, Ha|].
    intros address Hdec. destruct (Hty address Hdec) as (ty & Hin & Htag).
    pose proof Hin as (r2 & _ & _ & -> & Hloop & Hlan)%elem_of_policy. split; [|split].
    + intros Hlo. rewrite Hlo in Hloop. by destruct loopback.
    + intros Hip. apply Hlan. unfold for_advertised_address. by rewrite Hip.
    + intros Hq. eexists. split; [|exact Htag]. apply elem_of_List_filter. done.
  - intros address ty [Hin Hq]%elem_of_List_filter. split; [done|].
    pose proof Hin as (r & Hr & Hdec & _)%elem_of_policy.
    assert (Hsome : is_Some (under_policy allowed r)).
    { unfold under_policy. rewrite Hdec. destruct (List.find _ allowed) eqn:Hf; [by eexists|].
      rewrite find_None_iff in Hf. specialize (Hf _ Hin). by apply bool_decide_eq_false in Hf. }
    destruct Hsome as [r' Hr']. exists r'. split; [apply list_elem_of_omap; eauto|].
    unfold under_policy in Hr'. rewrite Hdec in Hr'. destruct (List.find _ allowed) as [p|]; [|done]. simplify_eq/=.
    unfold decoded_address. rewrite (decode_same r); [exact Hdec|apply canonical_record_transport|apply canonical_record_address].
Qed.

(** ** A node's own publication *)

Lemma from_multiaddr_transport address reach r :
  from_multiaddr address reach = Ok (Some r) →
  if is_quic address then record_transport r = transport_id KQuic
  else record_transport r = transport_id KWebRtcDirect ∧ record_reachability r = reachability_id KUnverified.
Proof.
  unfold from_multiaddr. destruct (is_quic address); [|destruct (is_webrtc_direct address); [|done]].
  all: destruct (to_stdvec_addr address); [|done]; by intros [= <-].
Qed.

Definition owned_address (self : PeerId) address : MultiAddr :=
  if is_webrtc_direct address then with_peer_id address self else address.

Lemma owned_address_webrtc self address : is_webrtc_direct (owned_address self address) = is_webrtc_direct address.
Proof. unfold owned_address. destruct (is_webrtc_direct address) eqn:Hw; exact Hw. Qed.

Lemma complete_address_ok self x r :
  complete_address self x = Ok r →
  acceptable self r = true ∧ record_valid self r ∧ normalize_known_webrtc_reachability r = r ∧
  decoded_address r = Some (owned_address self x.1) ∧
  legacy_reachability r = Some (if is_webrtc_direct x.1 then Unverified else into_legacy x.2).
Proof.
  unfold complete_address. fold (owned_address self x.1).
  destruct (bound_to_other x.1 self) eqn:Hbound; [done|]. set (a := owned_address self x.1).
  destruct (from_multiaddr a x.2) as [[r'|]|] eqn:Hfrom; [|done..].
  destruct (is_storable a) eqn:Hst; cbn [negb orb]; [|done].
  destruct (is_within_wire_bounds r') eqn:Hwire; cbn [negb]; [|done]. intros [= <-].
  destruct (proj1 (transport_record_roundtrip a x.2) r' Hfrom) as [Hdec Hleg].
  assert (Hown : peer_id a = None ∨ peer_id a = Some self).
  { unfold a, owned_address. destruct (is_webrtc_direct x.1); [by right|]. unfold bound_to_other in Hbound.
    destruct (peer_id x.1) as [q|]; [right|by left]. cbn in Hbound.
    by destruct (bool_decide_reflect (q = self)) as [Heq|]; [rewrite Heq|]. }
  assert (Hweb : is_webrtc_direct a = true → peer_id a = Some self).
  { unfold a, owned_address. destruct (is_webrtc_direct x.1) eqn:Hw; [done|]. by rewrite Hw. }
  assert (Hother : bound_to_other a self = false).
  { unfold bound_to_other. destruct Hown as [->| ->]; [done|]. cbn. by rewrite bool_decide_eq_true_2. }
  pose proof (from_multiaddr_transport _ _ _ Hfrom) as Htr. split_and!.
  - unfold acceptable. rewrite Hwire, Hdec, Hst, Hother. cbn [andb negb].
    destruct (is_quic a) eqn:Hq; [by rewrite Htr|].
    rewrite Hweb, bool_decide_eq_true_2 by (done || (unfold from_multiaddr in Hfrom; rewrite Hq in Hfrom;
      by destruct (is_webrtc_direct a))). apply orb_true_r.
  - unfold record_valid. unfold is_within_wire_bounds in Hwire. apply andb_prop in Hwire as [H1 H2].
    apply negb_true_iff, Nat.eqb_neq in H1. apply Nat.leb_le in H2. split; [lia|]. right. by exists a.
  - unfold normalize_known_webrtc_reachability. destruct (is_quic a); [by rewrite Htr|].
    destruct Htr as [-> Hr]. destruct (bool_decide _); [|done]. unfold with_reachability. by destruct r'; simplify_eq/=.
  - unfold decoded_address. by rewrite Hdec.
  - rewrite Hleg. unfold a. by rewrite owned_address_webrtc.
Qed.

Lemma complete_loop_ok self l records out :
  NoDup records → length records ≤ MAX_TRANSPORT_ADDRESS_RECORDS →
  complete_loop self records l = Ok out →
  NoDup out ∧ length out ≤ MAX_TRANSPORT_ADDRESS_RECORDS ∧
  (∀ r, r ∈ out ↔ r ∈ records ∨ ∃ x, x ∈ l ∧ complete_address self x = Ok r) ∧
  (∀ x, x ∈ l → ∃ r, complete_address self x = Ok r).
Proof.
  revert records. induction l as [|x l IH]; intros records Hnd Hlen; cbn [complete_loop].
  - intros [= <-]. split_and!; [done..| |by intros x ?%elem_of_nil]. intros r. split; [by left|].
    intros [?|(x & Hx & _)]; [done|]. by apply elem_of_nil in Hx.
  - destruct (complete_address self x) as [r|] eqn:Hx; [|done].
    assert (Hall : (∀ y, y ∈ l → ∃ r, complete_address self y = Ok r) →
                   ∀ y, y ∈ x :: l → ∃ r, complete_address self y = Ok r).
    { intros Hl y [->|Hy]%elem_of_cons; [by exists r|by apply Hl]. }
    assert (Hor : ∀ r', (r' = r ∨ ∃ y, y ∈ l ∧ complete_address self y = Ok r') ↔
                        ∃ y, y ∈ x :: l ∧ complete_address self y = Ok r').
    { intros r'. split; [intros [->|(y & Hy & He)]; [exists x|exists y]; rewrite elem_of_cons; auto|].
      intros (y & [->|Hy]%elem_of_cons & He); [left; congruence|right; eauto]. }
    destruct (bool_decide_reflect (r ∈ records)) as [Hin|Hni].
    + intros (?&?&Hel&?)%IH; [|done..]. split_and!; [done..| |by apply Hall].
      intros r'. rewrite Hel, <-Hor. split; [tauto|]. intros [?|[->|?]]; auto.
    + destruct (Nat.ltb_spec MAX_TRANSPORT_ADDRESS_RECORDS (length (records ++ [r]))) as [|Hl]; [done|].
      intros (?&?&Hel&?)%IH; [|by apply NoDup_app; split_and!; [done|set_solver|apply NoDup_singleton]|done]. split_and!; [done..| |by apply Hall].
      intros r'. rewrite Hel, <-Hor, elem_of_app, list_elem_of_singleton. tauto.
Qed.

(** A receiver's scan keeps distinct acceptable records as they are. *)
Lemma scan_keeps who l kept :
  NoDup (kept ++ l) →
  (∀ r, r ∈ l → acceptable who r = true ∧ normalize_known_webrtc_reachability r = r) →
  foldl (keep_acceptable who) kept l = kept ++ l.
Proof.
  revert kept. induction l as [|r l IH]; intros kept Hnd Hl; cbn [foldl]; [by rewrite app_nil_r|].
  destruct (Hl r) as [Ha Hn]; [by left|]. unfold keep_acceptable at 2. rewrite Hn, Ha, bool_decide_eq_false_2; cbn.
  - rewrite IH, <-(assoc_L (++)); [done|by rewrite <-(assoc_L (++))|]. intros r' Hr'. apply Hl. by right.
  - intros Hin. apply NoDup_app in Hnd as (_ & Hd & _). apply (Hd r Hin). by left.
Qed.

Lemma own_records_accepted self supplemental typed records :
  complete_transport_address_records self supplemental typed = Ok records →
  accepted_records self records = records ∧ length records ≤ MAX_TRANSPORT_ADDRESS_RECORDS ∧
  Forall (record_valid self) records ∧
  (∀ r, r ∈ records ↔ ∃ x, x ∈ ((λ p, (p.1, from_legacy p.2)) <$> typed) ++ ((λ a, (a, KUnverified)) <$> supplemental) ∧
                         complete_address self x = Ok r) ∧
  (∀ x, x ∈ ((λ p, (p.1, from_legacy p.2)) <$> typed) ++ ((λ a, (a, KUnverified)) <$> supplemental) →
        ∃ r, complete_address self x = Ok r).
Proof.
  intros (Hnd & Hlen & Hel & Hall)%complete_loop_ok; [|constructor|cbn; unfold MAX_TRANSPORT_ADDRESS_RECORDS; lia].
  assert (Hok : ∀ r, r ∈ records → ∃ x, complete_address self x = Ok r).
  { intros r [[]%not_elem_of_nil|(x & _ & Hx)]%Hel. by exists x. }
  split_and!; [|done| | |done].
  - unfold accepted_records. rewrite take_ge by done. apply scan_keeps; [done|].
    intros r (x & Hx)%Hok. by apply complete_address_ok in Hx as (? & _ & ? & _).
  - apply Forall_forall. intros r (x & Hx)%Hok. by apply complete_address_ok in Hx as (_ & ? & _).
  - intros r. rewrite Hel. split; [intros [[]%not_elem_of_nil|?]; done|by right].
Qed.

(** What a receiver keeps of a record all of whose addresses its policy
    allows. *)
Lemma validate_keeps loopback ctx who records source r address :
  r ∈ accepted_records who records → decoded_address r = Some address →
  (from_option (λ i, ip_is_loopback (canonicalize_ip i)) false (ip address) = true → loopback = true) →
  for_advertised_address address (default Unverified (legacy_reachability r)) ≠ Lan →
  ∃ kept native, validate_transport_address_records loopback ctx who records source = Some (kept, native) ∧
    (∃ r', r' ∈ kept ∧ record_transport r' = record_transport r ∧ record_address r' = record_address r) ∧
    (is_quic address = true →
     (address, for_advertised_address address (default Unverified (legacy_reachability r))) ∈ native).
Proof.
  intros Hr Hdec Hloop Hlan. set (ty := for_advertised_address _ _) in *.
  assert (Hin : (address, ty) ∈ policy_addresses loopback ctx source who records).
  { apply elem_of_policy. exists r. split_and!; [done..| |done].
    destruct loopback; [done|]. destruct (from_option _ _ (ip address)); [|done]. by discriminate Hloop. }
  rewrite validate_unfold. cbv zeta. set (allowed := policy_addresses _ _ _ _ _) in *.
  assert (Hkept : ∃ r', r' ∈ omap (under_policy allowed) (accepted_records who records) ∧
                        record_transport r' = record_transport r ∧ record_address r' = record_address r).
  { destruct (List.find (λ p, bool_decide (p.1 = address)) allowed) as [p|] eqn:Hf.
    - exists (canonical_record p.2 r). rewrite canonical_record_transport, canonical_record_address.
      split; [|done]. apply list_elem_of_omap. exists r. split; [done|]. unfold under_policy. by rewrite Hdec, Hf.
    - rewrite find_None_iff in Hf. specialize (Hf _ Hin). by apply bool_decide_eq_false in Hf. }
  destruct (omap (under_policy allowed) (accepted_records who records)) as [|k kept] eqn:Hl.
  { destruct Hkept as (r' & []%not_elem_of_nil & _). }
  cbn [length Nat.eqb]. eexists _, _. split; [done|]. split; [done|].
  intros Hq. apply elem_of_List_filter. done.
Qed.


(** ** Registered endpoints *)

Lemma complete_loop_room self l records :
  (∀ x, x ∈ l → ∃ r, complete_address self x = Ok r) →
  length records + length l ≤ MAX_TRANSPORT_ADDRESS_RECORDS → ∃ out, complete_loop self records l = Ok out.
Proof.
  revert records. induction l as [|x l IH]; intros records Hok Hlen; cbn [complete_loop length] in *; [by eexists|].
  destruct (Hok x (list_elem_of_here _ _)) as [r ->].
  assert (Hok' : ∀ y, y ∈ l → ∃ r, complete_address self y = Ok r) by (intros y Hy; apply Hok; by right).
  case_bool_decide; [apply IH; [done|lia]|].
  assert (Hr : length (records ++ [r]) = S (length records)) by (rewrite length_app; cbn; lia).
  destruct (Nat.ltb_spec MAX_TRANSPORT_ADDRESS_RECORDS (length (records ++ [r]))); [lia|]. apply IH; [done|lia].
Qed.

Definition registrable (self : PeerId) a : Prop :=
  peer_id a = Some self ∧ is_webrtc_direct a = true ∧ ∃ r, complete_address self (a, KUnverified) = Ok r.

Lemma register_supplemental_spec self accepted rejected address :
  length accepted ≤ MAX_SUPPLEMENTAL_SELF_ADDRESSES → NoDup accepted → Forall (registrable self) accepted →
  let out := register_supplemental self (accepted, rejected) address in
  length out.1 ≤ MAX_SUPPLEMENTAL_SELF_ADDRESSES ∧ NoDup out.1 ∧ Forall (registrable self) out.1 ∧
  length out.1 + length out.2 = S (length accepted + length rejected).
Proof.
  intros Hlen Hnd Hreg. cbv zeta. unfold register_supplemental. set (bound := with_peer_id address self).
  assert (Hrej : ∀ reason, let out := (accepted, rejected ++ [(address, reason)]) in
    length out.1 ≤ MAX_SUPPLEMENTAL_SELF_ADDRESSES ∧ NoDup out.1 ∧ Forall (registrable self) out.1 ∧
    length out.1 + length out.2 = S (length accepted + length rejected)).
  { intros reason. cbn. rewrite length_app. cbn. split_and!; [done..|lia]. }
  destruct (is_storable address) eqn:Hst; cbn [negb]; [|apply Hrej].
  destruct (bound_to_other address self) eqn:Hother; [apply Hrej|].
  destruct (is_webrtc_direct address) eqn:Hw; cbn [negb]; [|apply Hrej].
  destruct (from_multiaddr bound KUnverified) as [[r|]|] eqn:Hfrom; cbn [negb]; [|apply Hrej..].
  destruct (is_within_wire_bounds r) eqn:Hwire; cbn [negb]; [|apply Hrej].
  destruct (bool_decide_reflect (bound ∈ accepted)) as [|Hnew]; [apply Hrej|].
  destruct (Nat.eqb_spec (length accepted) MAX_SUPPLEMENTAL_SELF_ADDRESSES) as [|Hroom]; [apply Hrej|].
  cbn [fst snd]. rewrite length_app. cbn [length]. split_and!; [lia| | |lia].
  - apply NoDup_app. split_and!; [done| |by apply NoDup_singleton]. by intros x Hx ->%list_elem_of_singleton.
  - apply Forall_app. split; [done|]. constructor; [|done]. split_and!; [done|done|].
    exists r. unfold complete_address. cbn [fst snd].
    replace (bound_to_other bound self) with false by (unfold bound_to_other; cbn; by rewrite bool_decide_eq_true_2).
    change (is_webrtc_direct bound) with (is_webrtc_direct address). rewrite Hw.
    change (with_peer_id bound self) with bound. rewrite Hfrom. change (is_storable bound) with (is_storable address).
    by rewrite Hst, Hwire.
Qed.

Lemma supplemental_report_spec self l :
  let out := supplemental_report self l in
  length out.1 ≤ MAX_SUPPLEMENTAL_SELF_ADDRESSES ∧ NoDup out.1 ∧ Forall (registrable self) out.1 ∧
  length out.1 + length out.2 = length l.
Proof.
  unfold supplemental_report. cbv zeta. induction l as [|a l IH] using rev_ind.
  { cbn. split_and!; [lia|constructor|constructor|lia]. }
  rewrite foldl_snoc, length_app. destruct (foldl _ _ l) as [accepted rejected]. destruct IH as (H1 & H2 & H3 & H4).
  destruct (register_supplemental_spec self accepted rejected a H1 H2 H3) as (H5 & H6 & H7 & H8).
  cbn [fst snd length] in *. split_and!; [done..|lia].
Qed.

(** registering supplemental endpoints never gets in the way of publishing.  Of any list of addresses at most
    eleven distinct WebRTC endpoints bound to this node are registered, every other input is reported as rejected,
    and whatever native set of at most five addresses the node could publish before, it publishes with all the
    registered endpoints: none of them can overflow or invalidate the publication. *)
Theorem supplemental_always_publishable self l typed records :
  complete_transport_address_records self [] typed = Ok records → length typed ≤ MAX_SELF_QUIC_ADDRESSES →
  let report := supplemental_report self l in
  length report.1 ≤ 11 ∧ length report.1 + length report.2 = length l ∧
  ∃ all, complete_transport_address_records self report.1 typed = Ok all ∧ records ⊆ all ∧
    ∀ a, a ∈ report.1 → peer_id a = Some self ∧ ∃ r, r ∈ all ∧ decoded_address r = Some a.
Proof.
  intros Hrec Hlen. cbv zeta. destruct (supplemental_report_spec self l) as (Hn & _ & Hreg & Hsum).
  split; [exact Hn|]. split; [exact Hsum|]. set (accepted := (supplemental_report self l).1) in *.
  unfold complete_transport_address_records in *. rewrite app_nil_r in Hrec.
  set (native := (λ p, (p.1, from_legacy p.2)) <$> typed) in *.
  destruct (complete_loop_ok self native [] records) as (_ & _ & Hel & Hall); [constructor|cbn; lia|done|].
  rewrite Forall_forall in Hreg.
  destruct (complete_loop_room self (native ++ ((λ a, (a, KUnverified)) <$> accepted)) []) as [all Hout].
  { intros x [Hx|(a & -> & Ha)%list_elem_of_fmap]%elem_of_app; [by apply Hall|]. by apply Hreg. }
  { unfold native. rewrite length_app, !length_fmap. cbn. unfold MAX_SELF_QUIC_ADDRESSES in Hlen.
    change MAX_SUPPLEMENTAL_SELF_ADDRESSES with 11 in Hn. unfold MAX_TRANSPORT_ADDRESS_RECORDS. lia. }
  destruct (complete_loop_ok self _ [] all ltac:(constructor) ltac:(cbn; lia) Hout) as (_ & _ & Hel' & _).
  exists all. split; [done|]. split.
  - intros r [?%elem_of_nil|(x & Hx & Hr)]%Hel; [done|]. apply Hel'. right. exists x. rewrite elem_of_app. auto.
  - intros a Ha. destruct (Hreg a Ha) as (Hp & Hw & r & Hr). split; [done|]. exists r. split.
    + apply Hel'. right. exists (a, KUnverified). split; [|done]. apply elem_of_app. right. apply list_elem_of_fmap. eauto.
    + apply complete_address_ok in Hr as (_ & _ & _ & Hdec & _). rewrite Hdec. unfold owned_address. cbn. rewrite Hw.
      destruct a as [t p]. cbn in Hp |- *. by rewrite Hp.
Qed.

(** ** The sequence of a node's publications *)

(** Successive publications of a node: the records and the clock of each, and
    the signed record that comes out, if any. *)
Fixpoint publish_run (identity : NodeIdentity) (cached : option VerifiedAddressRecord)
    (l : list (list TransportAddressRecord * option N)) : list (option SignedAddressRecord) :=
  match l with
  | [] => []
  | (records, clock) :: l' =>
      let '(r, cached) := local_signed_address_record identity cached records clock in
      r :: publish_run identity cached l'
  end.

(** [y] may follow [x]: it is the same publication or has a greater sequence,
    as long as the sequence is not exhausted. *)
Definition follows (x y : SignedAddressRecord) : Prop :=
  (signed_sequence x ≤ signed_sequence y)%N ∧
  ((signed_sequence x < U64_MAX)%N → y = x ∨ (signed_sequence x < signed_sequence y)%N).

Lemma follows_trans x y z : follows x y → follows y z → follows x z.
Proof.
  unfold follows. intros [H1 H2] [H3 H4]. split; [lia|]. intros Hx.
  destruct (H2 Hx) as [->|Hlt]; [by apply H4|]. right. lia.
Qed.

Definition bounded_cache (cached : option VerifiedAddressRecord) : Prop :=
  from_option (λ v, verified_sequence v ≤ U64_MAX)%N True cached.

Lemma next_publish_seq_bounds clock : (1 ≤ next_publish_seq clock ≤ U64_MAX)%N.
Proof.
  assert (1 ≤ U64_MAX)%N by (by vm_compute). unfold next_publish_seq. destruct clock as [ns|]; [|lia].
  destruct (N.leb_spec ns U64_MAX); lia.
Qed.

Lemma local_signed_step pk sk cached records clock o cached' :
  key_pair pk sk → local_signed_address_record (identity_of pk sk) cached records clock = (o, cached') →
  bounded_cache cached →
  match o with
  | Some x => cached' = Some (mk_verified x) ∧ (signed_sequence x ≤ U64_MAX)%N ∧
              signed_records x = records ∧ from_option (λ v, follows (signed v) x) True cached
  | None => cached' = cached
  end.
Proof.
  intros Hkey. unfold local_signed_address_record, bounded_cache. destruct (Nat.eqb _ 0); [by intros [= <- <-]|].
  destruct cached as [[v]|]; cbn [from_option signed verified_records verified_sequence fmap option_fmap option_map].
  - change (verified_records (mk_verified v)) with (signed_records v).
    change (verified_sequence (mk_verified v)) with (signed_sequence v).
    destruct (bool_decide_reflect (signed_records v = records)) as [Heq|Hne].
    { intros [= <- <-] Hv. split_and!; try done. by split; [|left]. }
    destruct (sign _ _ records) as [x|] eqn:Hsign; [|by intros [= <- <-]].
    pose proof Hsign as (Hver & _ & Hseq & Hrec)%(sign_verifies pk sk); [|done].
    rewrite Hver. intros [= <- <-] Hv. pose proof (next_publish_seq_bounds clock).
    split_and!; try done; [|split; [|intros; right]]; rewrite Hseq; lia.
  - destruct (sign _ _ records) as [x|] eqn:Hsign; [|by intros [= <- <-]].
    pose proof Hsign as (Hver & _ & Hseq & Hrec)%(sign_verifies pk sk); [|done].
    rewrite Hver. intros [= <- <-] _. pose proof (next_publish_seq_bounds clock). split_and!; try done. rewrite Hseq. lia.
Qed.

(** Whatever is published from a cached publication on follows it. *)
Lemma publish_run_follows pk sk cached l x :
  key_pair pk sk → bounded_cache cached →
  Some x ∈ publish_run (identity_of pk sk) cached l →
  (signed_sequence x ≤ U64_MAX)%N ∧ from_option (λ v, follows (signed v) x) True cached.
Proof.
  intros Hkey. revert cached. induction l as [|[records clock] l IH]; intros cached Hc; cbn [publish_run].
  { by intros ?%elem_of_nil. }
  destruct (local_signed_address_record _ _ _ _) as [o cached'] eqn:Hstep.
  apply (local_signed_step pk sk) in Hstep; [|done..]. destruct o as [y|].
  - destruct Hstep as (-> & Hmax & _ & Hf). intros [[= ->]|Hin]%elem_of_cons; [done|].
    apply IH in Hin as [? Hy]; [|done]. split; [done|]. destruct cached; [|done]. by eapply follows_trans.
  - subst cached'. intros [?|Hin]%elem_of_cons; [done|]. by apply IH.
Qed.

Lemma publish_run_ordered pk sk cached l i j x y :
  key_pair pk sk → bounded_cache cached → i ≤ j →
  publish_run (identity_of pk sk) cached l !! i = Some (Some x) →
  publish_run (identity_of pk sk) cached l !! j = Some (Some y) →
  follows x y ∧ (signed_sequence y ≤ U64_MAX)%N.
Proof.
  intros Hkey. revert cached i j. induction l as [|[records clock] l IH]; intros cached i j Hc Hij; [done|].
  cbn [publish_run]. destruct (local_signed_address_record _ _ _ _) as [o cached'] eqn:Hstep.
  apply (local_signed_step pk sk) in Hstep; [|done..].
  assert (Hc' : bounded_cache cached') by (destruct o; naive_solver).
  destruct i as [|i]; cbn [lookup list_lookup].
  - intros [= ->]. destruct Hstep as (-> & Hmax & _). destruct j as [|j]; cbn.
    + intros [= <-]. split; [split; [lia|by left]|done].
    + intros Hj%list_elem_of_lookup_2. by apply (publish_run_follows pk sk) in Hj as [? ?].
  - destruct j as [|j]; [lia|]. cbn. intros Hi Hj. apply (IH cached' i j); [done|lia|done..].
Qed.

(** a node's publications supersede each other in order.  Whatever the
    clock reads (it may stand still, jump back or be before the epoch), the
    sequences of the records a node publishes never decrease and fit 64 bits,
    and a later publication with the same sequence is the same record: a
    changed set of records gets a strictly greater sequence, so no receiver
    takes it for a replay (short of the last 64-bit value). *)
Theorem publication_sequences_increase pk sk l i j x y :
  key_pair pk sk → i ≤ j →
  publish_run (identity_of pk sk) None l !! i = Some (Some x) →
  publish_run (identity_of pk sk) None l !! j = Some (Some y) →
  follows x y ∧ (signed_sequence y ≤ U64_MAX)%N ∧
  (signed_records x ≠ signed_records y → (signed_sequence x < U64_MAX)%N → (signed_sequence x < signed_sequence y)%N).
Proof.
  intros Hkey Hij Hi Hj. destruct (publish_run_ordered pk sk None l i j x y) as [Hf Hmax]; [done..|].
  split_and!; [done..|]. intros Hne Hlt. destruct Hf as [_ Hf]. by destruct (Hf Hlt) as [->|].
Qed.
End publications.
