(* ===== verification/Messages.v ===== *)
(** * DHT messages

    Requests, responses and lookup answers in [src/dht_network_manager.rs]:
    what a request may change, which responses are delivered to whom, where
    the authority of an address in a lookup answer comes from, and the wire
    form of a response.  A handler runs without other tasks in between; the
    tasks that wait for responses and give up are steps of their own. *)

From Stdlib Require Import SpecFloat.
From stdpp Require Import prelude sorting gmap strings.
From S2P Require Import Prelude Float Keys Ip Address PeerRecord SelfAddress SignedAddress DialFailure DialPolicy NodeInfo KBucket RoutingTable Diversity CanaryWitness Engine Admission EngineQueries Publications.

Definition MAX_LOOKUP_EXTENSION_RECORDS : nat := 256.
(** The bytes of "ADDRSIG1". *)
Definition LOOKUP_EXTENSION_MARKER : list Z := [65; 68; 68; 82; 83; 73; 71; 49]%Z.

Section messages.
Context `{TL : TransportLib} `{PL : !PostcardLib} `{CL : CryptoLib}.

Inductive DhtNetworkOperation :=
  | FindNode (key : Key)
  | Ping
  | Join
  | Leave
  | PublishAddressSet (seq : N) (addresses : list (MultiAddr * AddressType))
  | PublishAddressSetV2 (record : SignedAddressRecord).

(** Latencies are nanoseconds. *)
Inductive DhtNetworkResult :=
  | NodesFound (key : Key) (nodes : list DHTNode)
  | PongReceived (responder : PeerId) (latency : Z)
  | JoinSuccess (assigned_key : Key) (bootstrap_peers : nat)
  | LeaveSuccess
  | PeerRejected
  | PublishAddressAck
  | ErrorResult (operation error : string).

Inductive DhtMessageType := Request | Response | Broadcast | ErrorMessage.

Record DhtNetworkMessage := mk_message {
  message_id : string;
  message_source : PeerId;
  message_target : option PeerId;
  message_type : DhtMessageType;
  payload : DhtNetworkOperation;
  message_result : option DhtNetworkResult;
  timestamp : N;
  ttl : N;
  hop_count : N;
  attached_records : list SignedAddressRecord;
}.

Inductive MessageError :=
  | ValidationFailed (e : string)
  | SerializationFailed (e : string)
  | NotOwner
  | NoResponseForError
  | ClockError.

Implicit Types (m : Manager) (w : Surroundings) (now : Z) (msg : DhtNetworkMessage) (node : DHTNode).

(** ** Answering requests *)

Definition find_closest_nodes_local m w (key : Key) (count : nat) : list DHTNode :=
  protect_owner_view m <$>
    ((λ p, {| node_peer_id := id p.1; addresses := naddresses p.1; address_types := naddress_types p.1;
              distance := encode_publish_seq_distance p.2; reliability := f64_one;
              address_authority := if (p.2 =? 0)%N then None else Some (AuthenticatedOwner p.2) |}) <$>
       List.filter (λ p, negb (bool_decide (id p.1 = local_id w)))
         (find_nodes_with_publish_seq (dht m) key count)).

Definition find_node_answer m w (key : Key) (requester : PeerId) : list DHTNode :=
  filter_response_nodes (find_closest_nodes_local m w key (k_value (dht m))) requester.

(** A V1 publication by the sender. *)
Definition handle_publish_address_set m w (sender : PeerId) (seq : N) (addresses : list (MultiAddr * AddressType)) now
    : option Manager :=
  let filtered := filter_lan_addresses_for_store_with_context addresses (transport_source w) (dial_context w) in
  let previous := get_node_addresses_typed (dht m) sender in
  '(applied, e) ← engine_replace (dht m) sender filtered seq now;
  let m := with_dht m e in
  Some (if applied : bool then
          let current := get_node_addresses_typed (dht m) sender in
          let still_current := List.filter (λ p, existsb (λ c, bool_decide (c.1 = p.1)) current) filtered in
          recover_published m sender previous still_current now
        else m).

Definition handle_dht_request m w msg (sender : PeerId) now : option (result DhtNetworkResult MessageError * Manager) :=
  match payload msg with
  | FindNode key => Some (Ok (NodesFound key (find_node_answer m w key sender)), m)
  | PublishAddressSetV2 record =>
      match verify record with
      | Err e => Some (Err (ValidationFailed e), m)
      | Ok proof =>
          if negb (bool_decide (verified_owner proof = sender)) then Some (Err NotOwner, m)
          else if negb (has_node (dht m) sender) then Some (Ok PeerRejected, m)
          else '(_, m) ← apply_signed_address_set m w proof true now; Some (Ok PublishAddressAck, m)
      end
  | Ping => Some (Ok (PongReceived (local_id w) 0), m)
  | Join => Some (Ok (JoinSuccess sender 1), m)
  | Leave => Some (Ok LeaveSuccess, m)
  | PublishAddressSet seq addresses =>
      m ← handle_publish_address_set m w sender seq addresses now; Some (Ok PublishAddressAck, m)
  end.

(** The wall clock in seconds, [None] before the Unix epoch; the counters are
    bytes and saturate. *)
Definition create_response_message w msg (res : DhtNetworkResult) (unix_secs : option N)
    : result DhtNetworkMessage MessageError :=
  match (match res with
         | NodesFound key _ => Ok (FindNode key)
         | PongReceived _ _ => Ok Ping
         | JoinSuccess _ _ => Ok Join
         | LeaveSuccess => Ok Leave
         | PublishAddressAck => Ok Ping
         | PeerRejected => Ok (payload msg)
         | ErrorResult _ _ => Err NoResponseForError
         end) with
  | Err e => Err e
  | Ok op =>
      match unix_secs with
      | None => Err ClockError
      | Some secs =>
          Ok {| message_id := message_id msg; message_source := local_id w;
                message_target := Some (message_source msg); message_type := Response; payload := op;
                message_result := Some res; timestamp := secs; ttl := ttl msg - 1;
                hop_count := N.min 255 (hop_count msg + 1); attached_records := [] |}
      end
  end.

(** ** The wire form of a response *)

(** [None] for every other result. *)
Definition found_nodes msg : option (Key * list DHTNode) :=
  match message_result msg with Some (NodesFound key nodes) => Some (key, nodes) | _ => None end.

Definition with_result msg (res : option DhtNetworkResult) (records : list SignedAddressRecord) : DhtNetworkMessage :=
  {| message_id := message_id msg; message_source := message_source msg; message_target := message_target msg;
     message_type := message_type msg; payload := payload msg; message_result := res; timestamp := timestamp msg;
     ttl := ttl msg; hop_count := hop_count msg; attached_records := records |}.

(** The owner publications of the nodes, each record once. *)
Definition take_publication (records : list SignedAddressRecord) node : list SignedAddressRecord :=
  match address_authority node ≫= publication with
  | Some proof => if bool_decide (signed proof ∈ records) then records else records ++ [signed proof]
  | None => records
  end.

Definition quic_only node : DHTNode :=
  if existsb (λ a, negb (is_quic a)) (addresses node)
  then with_addresses node (List.filter (λ p, is_quic p.1) (PeerRecord.typed_addresses node))
  else node.

Definition split_lookup_publications (nodes : list DHTNode) : list SignedAddressRecord * list DHTNode :=
  (foldl take_publication [] nodes, quic_only <$> nodes).

Fixpoint append_records (base : nat) (extension : list Z) (records : list SignedAddressRecord)
    : result (list Z) MessageError :=
  match records with
  | [] => Ok extension
  | r :: rest =>
      match encode_record_bundle [r] with
      | Err e => Err (SerializationFailed e)
      | Ok encoded =>
          append_records base
            (if (base + length LOOKUP_EXTENSION_MARKER + length extension + length encoded <=? MAX_MESSAGE_SIZE)%nat
             then extension ++ encoded else extension) rest
      end
  end.

Definition append_lookup_extension (bytes : list Z) (records : list SignedAddressRecord)
    : result (list Z) MessageError :=
  match append_records (length bytes) [] (take MAX_LOOKUP_EXTENSION_RECORDS records) with
  | Err e => Err e
  | Ok extension => Ok (if Nat.eqb (length extension) 0 then bytes else bytes ++ LOOKUP_EXTENSION_MARKER ++ extension)
  end.

(** Fields that are not on the wire: the attached records, and the authority
    of the nodes of an answer. *)
Definition erase_node node : DHTNode := with_authority node None (distance node).
Definition erase msg : DhtNetworkMessage :=
  with_result msg
    (match message_result msg with
     | Some (NodesFound key nodes) => Some (NodesFound key (erase_node <$> nodes))
     | other => other
     end) [].

(** The postcard codec of messages: it reads back what it wrote, whatever
    follows. *)
Class MessageCodec := {
  to_stdvec_message : DhtNetworkMessage → result (list Z) string;
  take_from_bytes_message : list Z → result (DhtNetworkMessage * list Z) string;
  message_roundtrip msg bytes rest :
    to_stdvec_message msg = Ok bytes → take_from_bytes_message (bytes ++ rest) = Ok (erase msg, rest);
}.

Context `{MC : MessageCodec}.

Definition encode_response_message msg : result (list Z) MessageError :=
  let '(records, res) :=
    match message_result msg with
    | Some (NodesFound key nodes) =>
        let '(publications, nodes) := split_lookup_publications nodes in
        (foldl (λ acc r, if bool_decide (r ∈ acc) then acc else acc ++ [r]) (attached_records msg) publications,
         Some (NodesFound key nodes))
    | other => (attached_records msg, other)
    end in
  match to_stdvec_message (with_result msg res []) with
  | Err e => Err (SerializationFailed e)
  | Ok bytes =>
      if (MAX_MESSAGE_SIZE <? length bytes)%nat then Err (ValidationFailed "DHT response exceeds the message size limit")
      else match message_result msg with
           | Some (NodesFound _ _) => append_lookup_extension bytes records
           | _ => Ok bytes
           end
  end.

Definition decode_lookup_extension (trailing : list Z) : list SignedAddressRecord :=
  if bool_decide (take (length LOOKUP_EXTENSION_MARKER) trailing = LOOKUP_EXTENSION_MARKER) then
    match decode_record_bundle (drop (length LOOKUP_EXTENSION_MARKER) trailing) MAX_LOOKUP_EXTENSION_RECORDS with
    | Ok records => records
    | Err _ => []
    end
  else [].

Definition is_response msg : bool := match message_type msg with Response => true | _ => false end.

Definition decode_message (data : list Z) : result DhtNetworkMessage MessageError :=
  match take_from_bytes_message data with
  | Err e => Err (SerializationFailed e)
  | Ok (msg, trailing) =>
      Ok (if is_response msg && bool_decide (is_Some (found_nodes msg))
          then with_result msg (message_result msg) (decode_lookup_extension trailing) else msg)
  end.

(** ** Requests in flight *)

(** [response_tx]: [Some true] while the caller waits, [Some false] when it
    has gone and its guard has not yet removed the entry, [None] once a
    response has been claimed.  Times are nanoseconds. *)
Record DhtOperationContext := mk_context {
  operation : DhtNetworkOperation;
  context_peer : PeerId;
  started_at : Z;
  timeout : Z;
  contacted_nodes : list PeerId;
  response_tx : option bool;
}.

Abbreviation Operations := (gmap string DhtOperationContext).

(** [sweep_expired_operations] *)
Definition expired (now : Z) (ctx : DhtOperationContext) : bool :=
  (timeout ctx * 2 <? Z.max 0 (now - started_at ctx))%Z.
Definition sweep_expired_operations (ops : Operations) (now : Z) : Operations :=
  filter (λ kv, expired now kv.2 = false) ops.

(** The head of [send_dht_request_inner]: the correlation state of a request
    exists before it is sent. *)
Definition open_request (ops : Operations) (id : string) (peer : PeerId) (op : DhtNetworkOperation)
    (request_timeout : Z) (now : Z) : Operations :=
  <[id := mk_context op peer now request_timeout [peer] (Some true)]> (sweep_expired_operations ops now).

(** [DhtOperationGuard::drop] *)
Definition close_request (ops : Operations) (id : string) : Operations := delete id ops.

Definition with_tx (ctx : DhtOperationContext) (tx : option bool) : DhtOperationContext :=
  mk_context (operation ctx) (context_peer ctx) (started_at ctx) (timeout ctx) (contacted_nodes ctx) tx.

(** The answer is about the key that was asked. *)
Definition answers_operation (op : DhtNetworkOperation) (res : DhtNetworkResult) : bool :=
  match res with
  | NodesFound key _ => match op with FindNode expected => bool_decide (expected = key) | _ => false end
  | _ => true
  end.

(** A live response is claimed before it is processed. *)
Definition claim_response (ops : Operations) (id : string) (sender : PeerId) (res : DhtNetworkResult)
    : bool * Operations :=
  match ops !! id with
  | None => (false, ops)
  | Some ctx =>
      if negb (bool_decide (context_peer ctx = sender) || bool_decide (sender ∈ contacted_nodes ctx)) then (false, ops)
      else if negb (answers_operation (operation ctx) res) then (false, ops)
      else match response_tx ctx with
           | None => (false, ops)
           | Some live => (live, <[id := with_tx ctx None]> ops)
           end
  end.

Record Exchange := mk_exchange {
  manager : Manager;
  active_operations : Operations;
  delivered : list (string * PeerId * DhtNetworkResult);
}.
Implicit Types (x : Exchange).

(** [canonical] is [canonical_app_peer_id]: the sender itself when the
    transport knows it, [None] otherwise. *)
Definition handle_dht_response x w msg (canonical : option PeerId) now : option Exchange :=
  match message_result msg with
  | None => Some x
  | Some res =>
      match canonical with
      | None => Some x
      | Some sender =>
          let '(claimed, ops) := claim_response (active_operations x) (message_id msg) sender res in
          if negb claimed then Some (mk_exchange (manager x) ops (delivered x))
          else
            '(res, m) ←
              (match res with
               | NodesFound key nodes =>
                   '(nodes, m) ← normalize_lookup_answer (manager x) w nodes (attached_records msg) sender now;
                   Some (NodesFound key nodes, m)
               | res => Some (res, manager x)
               end);
            Some (mk_exchange m ops ((message_id msg, sender, res) :: delivered x))
      end
  end.

(** ** Incoming messages *)

(** The messages the V2 topic carries. *)
Definition allowed_on_v2 msg : bool :=
  match message_type msg, payload msg, message_result msg with
  | Request, PublishAddressSetV2 _, None => true
  | Response, PublishAddressSetV2 _, Some PeerRejected => true
  | Response, Ping, Some PublishAddressAck => true
  | _, _, _ => false
  end.

Definition update_peer_info m (canonical : option PeerId) (interfere : KademliaRoutingTable → KademliaRoutingTable)
    now : option Manager :=
  match canonical with
  | None => Some m
  | Some p => '(_, e) ← engine_touch_node_typed (dht m) p None Unverified interfere now now; Some (with_dht m e)
  end.

Definition handle_dht_message_on_topic x w (data : list Z) (sender : PeerId) (canonical : option PeerId)
    (interfere : KademliaRoutingTable → KademliaRoutingTable) (v2_topic : bool) (unix_secs : option N) now
    : option (result (option (list Z)) MessageError * Exchange) :=
  if (MAX_MESSAGE_SIZE <? length data)%nat then Some (Err (ValidationFailed "oversized message"), x)
  else match decode_message data with
       | Err e => Some (Err e, x)
       | Ok msg =>
           if v2_topic && negb (allowed_on_v2 msg)
           then Some (Err (ValidationFailed "invalid message on address V2 topic"), x)
           else
             m ← update_peer_info (manager x) canonical interfere now;
             let x := mk_exchange m (active_operations x) (delivered x) in
             match message_type msg with
             | Request =>
                 '(res, m) ← handle_dht_request (manager x) w msg sender now;
                 let x := mk_exchange m (active_operations x) (delivered x) in
                 Some (match res with
                       | Err e => Err e
                       | Ok res =>
                           match create_response_message w msg res unix_secs with
                           | Err e => Err e
                           | Ok response =>
                               match encode_response_message response with
                               | Err e => Err e
                               | Ok bytes => Ok (Some bytes)
                               end
                           end
                       end, x)
             | Response => x ← handle_dht_response x w msg canonical now; Some (Ok None, x)
             | Broadcast | ErrorMessage => Some (Ok None, x)
             end
       end.

(** ** What an owner's update changes *)

Lemma store_publication t p set native mode now r t' :
  store_transport_address_set t p set native mode now = Some (r, t') →
  address_publications t' = address_publications t ∨
  ∃ set', set_proof set' = set_proof set ∧
    address_publications t' = <[p := {| pub_seq := set_seq set; pub_transport := Some set' |}]> (address_publications t).
Proof.
  unfold store_transport_address_set. destruct (get_bucket_index t p); [|intros [= _ <-]; by left].
  destruct (_ || _); [intros [= _ <-]; by left|]. destruct (buckets t !! _) as [b|]; [|done]. cbn [mbind option_bind].
  destruct (bucket_replace_with_mode b p native mode now) as [[] b']; cbn [negb]; [|intros [= _ <-]; by left].
  destruct (find_node b' p) as [node|]; [|intros [= _ <-]; by left]. intros [= _ <-]. right.
  eexists. split; [|done]. done.
Qed.

Lemma replace_publication t p typed seq mode now r t' :
  replace_with_mode t p typed seq mode now = Some (r, t') →
  address_publications t' = address_publications t ∨
  transport_address_set t p = None ∧
    address_publications t' = <[p := {| pub_seq := seq; pub_transport := None |}]> (address_publications t).
Proof.
  unfold replace_with_mode. destruct (seq =? 0)%N; [intros [= _ <-]; by left|].
  destruct (from_option _ _ _) eqn:Hstale; [intros [= _ <-]; by left|].
  destruct (get_bucket_index t p); [|intros [= _ <-]; by left].
  destruct (buckets t !! _) as [b|]; [|done]. cbn [mbind option_bind].
  destruct (match mode with AuthenticatedSelfPublish => _ | GossipedRecord => _ end) as [[] b'];
    [|intros [= _ <-]; by left]. intros [= _ <-]. right. unfold transport_address_set.
  cbn [address_publications set_publications set_bucket set_buckets].
  destruct (address_publications t !! p) as [pub|]; cbn in *; [|done].
  apply orb_false_iff in Hstale as [Hn%bool_decide_eq_false _].
  destruct (pub_transport pub); [by destruct Hn|]. done.
Qed.

(** [m'] is [m] after something its owner [p] published, or [m] itself: all
    other peers are as they were, and [p]'s record is or has become newer. *)
Record owner_update (p : PeerId) m m' : Prop := {
  update_wf : engine_wf (dht m');
  update_record q : same_record (routing_table (dht m)) (routing_table (dht m')) q ∨
    q = p ∧ tlt (pub_version (routing_table (dht m)) q) (pub_version (routing_table (dht m')) q);
  update_supplemental : supplemental_self_addresses m' = supplemental_self_addresses m;
  update_signed : local_signed_addresses m' = local_signed_addresses m;
}.

Lemma owner_update_refl p m : engine_wf (dht m) → owner_update p m m.
Proof. intros Hwf. constructor; [done| |done..]. intros q. by left. Qed.

Lemma with_dht_same m : with_dht m (dht m) = m.
Proof. by destruct m. Qed.

Lemma owner_update_recover p m m' q previous current now :
  owner_update p m m' → owner_update p m (recover_published m' q previous current now).
Proof. by intros []; constructor. Qed.

Lemma manager_store_update m who seq records native auth proof now :
  engine_wf (dht m) →
  ∃ r m', manager_store_transport m who seq records native auth proof now = Some (r, m') ∧ owner_update who m m' ∧
    (address_publications (routing_table (dht m')) = address_publications (routing_table (dht m)) ∨
     ∃ set', set_proof set' = proof ∧
       address_publications (routing_table (dht m')) =
         <[who := {| pub_seq := seq; pub_transport := Some set' |}]> (address_publications (routing_table (dht m)))).
Proof.
  intros Hwf. unfold manager_store_transport. cbn zeta.
  destruct (engine_store_total (dht m) who {| set_seq := seq; set_records := records; set_proof := proof |} native auth now Hwf)
    as (r & e' & Hop & Hwf'). rewrite Hop. cbn [mbind option_bind]. eexists r, _. split; [done|].
  unfold engine_store_transport in Hop. cbn zeta in Hop.
  destruct (store_transport_address_set _ _ _ _ _ _) as [[r' t']|] eqn:Hst; [|done]. cbn [mbind option_bind] in Hop. simplify_eq.
  assert (Hup : owner_update who m (with_dht m (with_table (dht m) t'))).
  { constructor; [done| |done..]. intros q. apply (store_record _ _ _ _ _ _ _ _ _ q (engine_table _ Hwf) Hst). }
  apply store_publication in Hst. destruct (r && auth); split; [by apply owner_update_recover|done|done|done].
Qed.

Lemma engine_replace_update m who typed seq now :
  engine_wf (dht m) →
  ∃ r e', engine_replace (dht m) who typed seq now = Some (r, e') ∧ owner_update who m (with_dht m e') ∧
    (address_publications (routing_table e') = address_publications (routing_table (dht m)) ∨
     publication_of m who = None ∧
       address_publications (routing_table e') =
         <[who := {| pub_seq := seq; pub_transport := None |}]> (address_publications (routing_table (dht m)))).
Proof.
  intros Hwf. destruct (engine_replace_total (dht m) who typed seq now Hwf) as [(r & e' & Hop & Hwf') _].
  exists r, e'. split; [done|]. unfold engine_replace in Hop.
  destruct (filter_publish_address_set _ _) as [l|]; [|simplify_eq; split; [rewrite with_dht_same; by apply owner_update_refl|by left]].
  unfold replace_node_addresses in Hop.
  destruct (replace_with_mode _ _ _ _ _ _) as [[r' t']|] eqn:Hre; [|done]. cbn [mbind option_bind] in Hop. simplify_eq.
  split; [|by apply replace_publication in Hre]. constructor; [done| |done..].
  intros q. apply (replace_record _ _ _ _ _ _ _ _ _ q (engine_table _ Hwf) Hre).
Qed.

Lemma apply_signed_update m w proof auth now :
  engine_wf (dht m) →
  ∃ r m', apply_signed_address_set m w proof auth now = Some (r, m') ∧ owner_update (verified_owner proof) m m' ∧
    (address_publications (routing_table (dht m')) = address_publications (routing_table (dht m)) ∨
     ∃ seq set', set_proof set' = Some proof ∧
       address_publications (routing_table (dht m')) =
         <[verified_owner proof := {| pub_seq := seq; pub_transport := Some set' |}]>
           (address_publications (routing_table (dht m)))).
Proof.
  intros Hwf. unfold apply_signed_address_set.
  destruct (validate_for w (verified_owner proof) (verified_records proof)) as [[records native]|].
  - destruct (manager_store_update m (verified_owner proof) (verified_sequence proof) records native auth (Some proof) now Hwf)
      as (r & m' & Hop & Hup & Hpub). exists r, m'. split; [done|]. split; [done|]. naive_solver.
  - exists false, m. split; [done|]. split; [by apply owner_update_refl|by left].
Qed.

(** C7: a request can only speak for its sender.  Handling a request never
    panics and keeps the engine well-formed; whoever sends what, the addresses
    and publications of every peer but the authenticated sender are untouched,
    no peer is added or removed, and the sender's own record is untouched or
    replaced by a strictly newer publication: one it sent as a V1 set, or a
    signed V2 record that verifies with the sender as its owner. *)
Theorem request_confined_to_sender m w msg sender now :
  engine_wf (dht m) →
  ∃ r m', handle_dht_request m w msg sender now = Some (r, m') ∧ engine_wf (dht m') ∧
    supplemental_self_addresses m' = supplemental_self_addresses m ∧ local_signed_addresses m' = local_signed_addresses m ∧
    (∀ p, p ≠ sender → same_record (routing_table (dht m)) (routing_table (dht m')) p) ∧
    (same_record (routing_table (dht m)) (routing_table (dht m')) sender ∨
     tlt (pub_version (routing_table (dht m)) sender) (pub_version (routing_table (dht m')) sender) ∧
     match payload msg with
     | PublishAddressSet _ _ => True
     | PublishAddressSetV2 record => verify record = Ok (mk_verified record) ∧ owner record = sender
     | _ => False
     end).
Proof.
  intros Hwf.
  assert (Hfrom : ∀ m' (P : Prop), owner_update sender m m' → P →
    engine_wf (dht m') ∧ supplemental_self_addresses m' = supplemental_self_addresses m ∧
    local_signed_addresses m' = local_signed_addresses m ∧
    (∀ p, p ≠ sender → same_record (routing_table (dht m)) (routing_table (dht m')) p) ∧
    (same_record (routing_table (dht m)) (routing_table (dht m')) sender ∨
     tlt (pub_version (routing_table (dht m)) sender) (pub_version (routing_table (dht m')) sender) ∧ P)).
  { intros m' P [Hwf' Hrec Hsup Hsig] HP. split_and!; [done..| |].
    - intros p Hne. destruct (Hrec p) as [?|[? _]]; done.
    - destruct (Hrec sender) as [?|[_ ?]]; auto. }
  assert (Hsame : ∀ (P : Prop), engine_wf (dht m) ∧ supplemental_self_addresses m = supplemental_self_addresses m ∧
    local_signed_addresses m = local_signed_addresses m ∧
    (∀ p, p ≠ sender → same_record (routing_table (dht m)) (routing_table (dht m)) p) ∧
    (same_record (routing_table (dht m)) (routing_table (dht m)) sender ∨
     tlt (pub_version (routing_table (dht m)) sender) (pub_version (routing_table (dht m)) sender) ∧ P)).
  { intros P. split_and!; try done. by left. }
  unfold handle_dht_request. destruct (payload msg) as [key| | | |seq addresses|record].
  1-4: by eexists _, _; split; [done|apply Hsame].
  - unfold handle_publish_address_set. cbn zeta.
    set (filtered := filter_lan_addresses_for_store_with_context _ _ _).
    destruct (engine_replace_update m sender filtered seq now Hwf) as (r & e' & -> & Hup & _). cbn [mbind option_bind].
    eexists _, _. split; [done|]. destruct r; apply Hfrom; try done. by apply owner_update_recover.
  - destruct (verify record) as [proof|e] eqn:Hv; [|by eexists _, _; split; [done|apply Hsame]].
    pose proof Hv as (-> & _)%verify_Ok.
    destruct (bool_decide_reflect (verified_owner (mk_verified record) = sender)) as [Ho|]; cbn [negb];
      [|by eexists _, _; split; [done|apply Hsame]].
    destruct (has_node (dht m) sender); cbn [negb]; [|by eexists _, _; split; [done|apply Hsame]].
    destruct (apply_signed_update m w (mk_verified record) true now Hwf) as (r & m' & -> & Hup & _). cbn [mbind option_bind].
    eexists _, _. split; [done|]. apply Hfrom; [by rewrite <-Ho|done].
Qed.

(** ** Lookup answers: where authority comes from *)

Lemma merge_from_authority n other :
  node_peer_id (merge_from n other) = node_peer_id n ∧
  (address_authority (merge_from n other) = address_authority n ∨
   node_peer_id other = node_peer_id n ∧ address_authority (merge_from n other) = address_authority other).
Proof.
  unfold merge_from. destruct (bool_decide_reflect (node_peer_id n = node_peer_id other)) as [Heq|]; cbn [negb]; [|auto].
  destruct (_ || _).
  - unfold merge_owner_views. cbv zeta. destruct (if _ || _ then _ else _); [|auto]. split; [done|right; done].
  - destruct (foldl merge_typed _ _) as [addrs types]. cbv zeta. auto.
Qed.

(** No peer's record gets older. *)
Definition records_advance m m' : Prop := ∀ q,
  same_record (routing_table (dht m)) (routing_table (dht m')) q ∨
  tlt (pub_version (routing_table (dht m)) q) (pub_version (routing_table (dht m')) q).

Lemma same_record_version t t' q : same_record t t' q → pub_version t' q = pub_version t q.
Proof. intros [_ Hp]. unfold pub_version. by rewrite Hp. Qed.

Lemma records_advance_trans m m' m'' : records_advance m m' → records_advance m' m'' → records_advance m m''.
Proof.
  intros H1 H2 q. destruct (H1 q) as [Hs1|Hl1], (H2 q) as [Hs2|Hl2].
  - left. destruct Hs1, Hs2. split; congruence.
  - right. by rewrite <-(same_record_version _ _ _ Hs1).
  - right. by rewrite (same_record_version _ _ _ Hs2).
  - right. by etrans.
Qed.

Lemma owner_update_advance p m m' : owner_update p m m' → records_advance m m'.
Proof. intros Hup q. destruct (update_record _ _ _ Hup q) as [?|[_ ?]]; auto. Qed.

Section answer.
Context (m0 : Manager) (records : list SignedAddressRecord) (responder : PeerId) (answer : list DHTNode).

(** An owner's signature in the answer or in the table, what the table held
    before, or the responder's claim about itself. *)
Definition grounded (p : PeerId) (a : AddressAuthority) : Prop :=
  match a with
  | Signed v =>
      (∃ s, s ∈ records ∧ verify s = Ok v ∧ verified_owner v = p) ∨ publication_of m0 p ≫= set_proof = Some v
  | AuthenticatedOwner seq =>
      sequence_of m0 p = seq ∨ p = responder ∧ ∃ n, n ∈ answer ∧ node_peer_id n = p ∧ advertised_publish_seq n = seq
  end.

Definition node_grounded node : Prop := ∀ a, address_authority node = Some a → grounded (node_peer_id node) a.

Definition publication_grounded (p : PeerId) (pub : AddressPublication) : Prop :=
  address_publications (routing_table (dht m0)) !! p = Some pub ∨
  (∃ set s v, pub_transport pub = Some set ∧ set_proof set = Some v ∧ s ∈ records ∧ verify s = Ok v ∧ verified_owner v = p) ∨
  p = responder ∧ pub_transport pub = None ∧
    ∃ n, n ∈ answer ∧ node_peer_id n = p ∧ advertised_publish_seq n = pub_seq pub.

(** The state between the steps of normalisation. *)
Record answer_inv m : Prop := {
  answer_wf : engine_wf (dht m);
  answer_pubs p pub : address_publications (routing_table (dht m)) !! p = Some pub → publication_grounded p pub;
  answer_advance : records_advance m0 m;
}.

Lemma protect_grounded m node : answer_inv m → node_grounded node → node_grounded (protect_owner_view m node).
Proof.
  intros Hinv Hnode. unfold protect_owner_view. cbv zeta. unfold sequence_of, publication_of, publish_seq_for, transport_address_set.
  pose proof (answer_pubs _ Hinv (node_peer_id node)) as Hpub.
  destruct (address_publications (routing_table (dht m)) !! node_peer_id node) as [pub|] eqn:Hp; cbn; [|done].
  specialize (Hpub pub eq_refl). destruct (_ && _); [done|].
  destruct (pub_transport pub ≫= set_proof) as [v|] eqn:Hproof.
  - intros a [= <-]. cbn [node_peer_id with_authority with_addresses].
    destruct Hpub as [H0|[(set & s & v' & Ht & Hsp & Hs & Hv & Ho)|(_ & Ht & _)]].
    + right. unfold publication_of, transport_address_set. rewrite H0. exact Hproof.
    + left. exists s. rewrite Ht in Hproof. cbn in Hproof. by simplify_eq.
    + by rewrite Ht in Hproof.
  - destruct (pub_seq pub =? 0)%N; [by intros a [= ?]|]. intros a [= <-]. cbn [node_peer_id with_authority with_addresses].
    destruct Hpub as [H0|[(set & s & v' & Ht & Hsp & _)|(-> & Ht & n & Hn & Hid & Hseq)]].
    + left. unfold sequence_of, publish_seq_for. by rewrite H0.
    + rewrite Ht in Hproof. cbn in Hproof. congruence.
    + right. split; [done|]. by exists n.
Qed.

Lemma answer_inv_update m m' p :
  answer_inv m → owner_update p m m' →
  (∀ q pub, address_publications (routing_table (dht m')) !! q = Some pub →
     address_publications (routing_table (dht m)) !! q = Some pub ∨ publication_grounded q pub) →
  answer_inv m'.
Proof.
  intros [Hwf Hpubs Hadv] Hup Hnew. constructor.
  - apply (update_wf _ _ _ Hup).
  - intros q pub Hq. destruct (Hnew q pub Hq) as [Hold|?]; [by apply Hpubs|done].
  - eapply records_advance_trans; [done|]. by eapply owner_update_advance.
Qed.

Lemma normalize_signed_spec w l now m :
  answer_inv m → (∀ v rel, (v, rel) ∈ l → ∃ s, s ∈ records ∧ verify s = Ok v) →
  ∃ out m', normalize_signed_lookup_nodes m w l now = Some (out, m') ∧ answer_inv m' ∧ Forall node_grounded out.
Proof.
  revert m. induction l as [|[v rel] l IH]; intros m Hinv Hl; cbn [normalize_signed_lookup_nodes].
  { exists [], m. auto. }
  assert (Hl' : ∀ v rel, (v, rel) ∈ l → ∃ s, s ∈ records ∧ verify s = Ok v) by (intros; eapply Hl; by right).
  destruct (validate_for w (verified_owner v) (verified_records v)) as [[recs native]|]; [|by apply IH].
  destruct (Hl v rel) as (s & Hs & Hv); [by left|].
  destruct (apply_signed_update m w v false now (answer_wf _ Hinv)) as (r & m1 & -> & Hup & Hpub). cbn [mbind option_bind].
  assert (Hinv1 : answer_inv m1).
  { eapply answer_inv_update; [done..|]. intros q pub. destruct Hpub as [->|(seq & set' & Hproof & ->)]; [by left|].
    intros [[<- <-]|[_ ?]]%lookup_insert_Some; [|by left]. right. right. left. by exists set', s, v. }
  destruct (IH m1 Hinv1 Hl') as (out & m2 & -> & Hinv2 & Hout). cbn [mbind option_bind].
  eexists _, _. split; [done|]. split; [done|]. constructor; [|done]. apply protect_grounded; [done|].
  intros a [= <-]. left. by exists s.
Qed.

Lemma verified_answers_elem nodes v rel :
  (v, rel) ∈ verified_answers nodes records → ∃ s, s ∈ records ∧ verify s = Ok v.
Proof.
  unfold verified_answers. cbv zeta. intros (s & Hs & Hv)%list_elem_of_omap. exists s. split; [done|].
  destruct (verify s) as [v'|]; [|done]. destruct (_ !! verified_owner v'); [|done]. by simplify_eq/=.
Qed.

Lemma merge_by_owner_grounded l acc :
  Forall node_grounded l → map_Forall (λ p n, node_peer_id n = p ∧ node_grounded n) acc →
  map_Forall (λ p n, node_peer_id n = p ∧ node_grounded n) (foldl merge_by_owner acc l).
Proof.
  intros Hl. revert acc. induction Hl as [|n l Hn _ IH]; intros acc Hacc; [done|]. apply IH.
  unfold merge_by_owner. apply map_Forall_insert_2; [|done].
  destruct (acc !! node_peer_id n) as [current|] eqn:Hc; [|done]. destruct (Hacc _ _ Hc) as [Hid Hg].
  destruct (merge_from_authority current n) as [Hid' Hauth]. split; [congruence|]. intros a Ha. rewrite Hid'.
  destruct Hauth as [Heq|[Hid2 Heq]]; rewrite Heq in Ha; [by apply Hg|]. rewrite <-Hid2. by apply Hn.
Qed.

Lemma native_report_spec m w node claimed now :
  answer_inv m → node_peer_id node = responder →
  (∃ n, n ∈ answer ∧ node_peer_id n = responder ∧ advertised_publish_seq n = claimed) →
  ∃ r m', apply_native_self_report m w node claimed now = Some (r, m') ∧ answer_inv m'.
Proof.
  intros Hinv Hid Hclaim. unfold apply_native_self_report. cbv zeta. rewrite Hid.
  destruct (publication_of m responder) eqn:Hpub; [by exists None, m|].
  destruct (validate_for w responder (self_report_records node)) as [[recs native]|]; [|by exists None, m].
  destruct (engine_replace_update m responder native claimed now (answer_wf _ Hinv)) as (r & e' & -> & Hup & Hp).
  cbn [mbind option_bind]. eexists _, _. split; [done|].
  assert (Hinv' : answer_inv (with_dht m e')).
  { eapply answer_inv_update; [done..|]. intros q pub. cbn [dht with_dht]. destruct Hp as [->|[_ ->]]; [by left|].
    intros [[<- <-]|[_ ?]]%lookup_insert_Some; [|by left]. right. right. right. done. }
  destruct r; [|done]. destruct Hinv'. by constructor.
Qed.

Definition signed_views_grounded (views : gmap PeerId DHTNode) : Prop :=
  map_Forall (λ p n, node_peer_id n = p ∧ node_grounded n) views.

Lemma normalize_node_spec m w views node now :
  answer_inv m → signed_views_grounded views → node ∈ answer →
  ∃ out m', normalize_answer_node m w responder views node now = Some (out, delete (node_peer_id node) views, m') ∧
    answer_inv m' ∧ node_grounded out ∧ node_peer_id out = node_peer_id node.
Proof.
  intros Hinv Hviews Hin. unfold normalize_answer_node. cbv zeta. cbn [node_peer_id with_authority].
  set (stripped := with_authority node None None). set (claimed := advertised_publish_seq node).
  assert (Hstep : ∃ n1 m1,
    (if bool_decide (node_peer_id node = responder) && negb (claimed =? 0)%N
     then '(r, m) ← apply_native_self_report m w stripped claimed now;
          Some (match r with
                | Some l => with_authority (with_addresses stripped l) (Some (AuthenticatedOwner claimed)) None
                | None => with_addresses stripped []
                end, m)
     else Some (stripped, m)) = Some (n1, m1) ∧ answer_inv m1 ∧ node_grounded n1 ∧ node_peer_id n1 = node_peer_id node).
  { destruct (bool_decide_reflect (node_peer_id node = responder)) as [Hr|]; cbn [andb];
      [destruct (claimed =? 0)%N; cbn [negb]|]; [by exists stripped, m| |by exists stripped, m].
    destruct (native_report_spec m w stripped claimed now Hinv Hr) as (r & m1 & -> & Hinv1); [by exists node|].
    cbn [mbind option_bind]. eexists _, _. split; [done|]. split; [done|].
    destruct r as [l|]; split; try done. intros a [= <-]. right. split; [done|]. by exists node. }
  destruct Hstep as (n1 & m1 & -> & Hinv1 & Hg1 & Hid1). cbn [mbind option_bind]. rewrite Hid1.
  set (n2 := match views !! node_peer_id node with Some s => merge_from n1 s | None => n1 end).
  assert (Hn2 : node_grounded n2 ∧ node_peer_id n2 = node_peer_id node).
  { unfold n2. destruct (views !! node_peer_id node) as [sv|] eqn:Hsv; [|done]. destruct (Hviews _ _ Hsv) as [Hids Hgs].
    destruct (merge_from_authority n1 sv) as [Hid Hauth]. split; [|congruence]. intros a Ha. rewrite Hid.
    destruct Hauth as [Heq|[Hid' Heq]]; rewrite Heq in Ha; [by apply Hg1|]. rewrite <-Hid'. by apply Hgs. }
  destruct Hn2 as [Hg2 Hid2]. rewrite Hid2. eexists _, _. split; [done|]. split; [done|].
  split; [by apply protect_grounded|]. rewrite <-Hid2. unfold protect_owner_view. cbv zeta. by destruct (_ && _).
Qed.

Lemma normalize_nodes_spec w now nodes m views :
  answer_inv m → signed_views_grounded views → (∀ n, n ∈ nodes → n ∈ answer) →
  ∃ out m', normalize_answer_nodes m w responder views nodes now = Some (out, m') ∧ answer_inv m' ∧
    Forall node_grounded out ∧ node_peer_id <$> out = node_peer_id <$> nodes.
Proof.
  revert m views. induction nodes as [|node nodes IH]; intros m views Hinv Hviews Hin; cbn [normalize_answer_nodes].
  { by exists [], m. }
  destruct (normalize_node_spec m w views node now) as (n' & m1 & -> & Hinv1 & Hg & Hid); [done..|by apply Hin; left|].
  cbn [mbind option_bind].
  destruct (IH m1 (delete (node_peer_id node) views)) as (out & m2 & -> & Hinv2 & Hout & Hids);
    [done|by apply map_Forall_delete|intros; apply Hin; by right|].
  cbn [mbind option_bind]. exists (n' :: out), m2. split_and!; [done..|by constructor|]. cbn. by rewrite Hid, Hids.
Qed.
End answer.

(** What normalising an answer keeps, for everything that normalises one. *)
Lemma normalized_answer m w nodes records responder now :
  engine_wf (dht m) →
  ∃ out m', normalize_lookup_answer m w nodes records responder now = Some (out, m') ∧
    answer_inv m records responder nodes m' ∧ Forall (node_grounded m records responder nodes) out ∧
    node_peer_id <$> out = node_peer_id <$> nodes.
Proof.
  intros Hwf. unfold normalize_lookup_answer.
  assert (Hinv : answer_inv m records responder nodes m).
  { constructor; [done| |]; [by left|intros q; by left]. }
  destruct (normalize_signed_spec m records responder nodes w (verified_answers nodes records) now m)
    as (signed & m1 & -> & Hinv1 & Hsigned); [done|apply verified_answers_elem|]. cbn [mbind option_bind].
  destruct (normalize_nodes_spec m records responder nodes w now nodes m1 (foldl merge_by_owner ∅ signed))
    as (out & m2 & -> & Hinv2 & Hout & Hids);
    [done|by apply merge_by_owner_grounded; [|apply map_Forall_empty]|done|]. eauto 10.
Qed.

(** C8: a lookup answer cannot forge authority.  Normalising an answer never
    panics, names the peers the responder named in their order, and never
    makes a stored record older.  Whatever the responder wrote: a node of the
    result carries an owner's signature only when a record attached to the
    answer verifies for that owner or the table had it already, and counts as
    an owner's report only with the sequence the table held or, for the
    responder itself, the one it claims; and the table itself gained only
    publications of those kinds. *)
Theorem lookup_answer_authority m w nodes records responder now :
  engine_wf (dht m) →
  ∃ out m', normalize_lookup_answer m w nodes records responder now = Some (out, m') ∧ engine_wf (dht m') ∧
    records_advance m m' ∧ node_peer_id <$> out = node_peer_id <$> nodes ∧
    (∀ n a, n ∈ out → address_authority n = Some a → grounded m records responder nodes (node_peer_id n) a) ∧
    (∀ p pub, address_publications (routing_table (dht m')) !! p = Some pub →
       publication_grounded m records responder nodes p pub).
Proof.
  intros Hwf. destruct (normalized_answer m w nodes records responder now Hwf) as (out & m2 & -> & [Hwf2 Hpubs Hadv] & Hout & Hids).
  exists out, m2. split_and!; try done. intros n a Hn. rewrite Forall_forall in Hout. by apply Hout.
Qed.

(** ** Responses: who is answered *)

(** The requests opened so far, as identifier, peer and operation. *)
Abbreviation Opened := (list (string * PeerId * DhtNetworkOperation)).
Definition opened_ids (opened : Opened) : list string := (λ o, o.1.1) <$> opened.
Definition delivered_ids x : list string := (λ d, d.1.1) <$> delivered x.

Definition with_operations x (ops : Operations) : Exchange := mk_exchange (manager x) ops (delivered x).

(** Requests are opened with fresh identifiers (random UUIDs), their callers
    may go away, the guards close them, responses arrive from anyone and the
    manager changes otherwise. *)
Inductive exchange_step (x : Exchange) (opened : Opened) : Exchange → Opened → Prop :=
  | step_open id peer op request_timeout now :
      id ∉ opened_ids opened →
      exchange_step x opened (with_operations x (open_request (active_operations x) id peer op request_timeout now))
        ((id, peer, op) :: opened)
  | step_gone id ctx :
      active_operations x !! id = Some ctx → response_tx ctx = Some true →
      exchange_step x opened (with_operations x (<[id := with_tx ctx (Some false)]> (active_operations x))) opened
  | step_close id : exchange_step x opened (with_operations x (close_request (active_operations x) id)) opened
  | step_response w msg canonical now x' :
      handle_dht_response x w msg canonical now = Some x' → exchange_step x opened x' opened
  | step_manager m : exchange_step x opened (mk_exchange m (active_operations x) (delivered x)) opened.

Inductive exchange_run m : Exchange → Opened → Prop :=
  | run_start : exchange_run m (mk_exchange m ∅ []) []
  | run_more x opened x' opened' :
      exchange_run m x opened → exchange_step x opened x' opened' → exchange_run m x' opened'.

Record exchange_inv x (opened : Opened) : Prop := {
  inv_context id ctx : active_operations x !! id = Some ctx →
    (id, context_peer ctx, operation ctx) ∈ opened ∧ contacted_nodes ctx = [context_peer ctx] ∧
    (is_Some (response_tx ctx) → id ∉ delivered_ids x);
  inv_once : NoDup (delivered_ids x);
  inv_delivered id p res : (id, p, res) ∈ delivered x → ∃ op, (id, p, op) ∈ opened ∧ answers_operation op res = true;
}.

(** What one response does to the operations and the deliveries. *)
Lemma handle_response_cases x w msg canonical now x' :
  handle_dht_response x w msg canonical now = Some x' →
  (manager x' = manager x ∧ delivered x' = delivered x ∧
   (active_operations x' = active_operations x ∨
    ∃ ctx, active_operations x !! message_id msg = Some ctx ∧
      active_operations x' = <[message_id msg := with_tx ctx None]> (active_operations x))) ∨
  ∃ ctx sender res, active_operations x !! message_id msg = Some ctx ∧ response_tx ctx = Some true ∧
    (context_peer ctx = sender ∨ sender ∈ contacted_nodes ctx) ∧ answers_operation (operation ctx) res = true ∧
    active_operations x' = <[message_id msg := with_tx ctx None]> (active_operations x) ∧
    delivered x' = (message_id msg, sender, res) :: delivered x.
Proof.
  unfold handle_dht_response. destruct (message_result msg) as [res|]; [|intros [= <-]; left; auto].
  destruct canonical as [sender|]; [|intros [= <-]; left; auto]. unfold claim_response.
  destruct (active_operations x !! message_id msg) as [ctx|] eqn:Hctx; cbn [negb]; [|intros [= <-]; left; auto].
  destruct (bool_decide (context_peer ctx = sender) || bool_decide (sender ∈ contacted_nodes ctx)) eqn:Hauth;
    cbn [negb]; [|intros [= <-]; left; auto].
  destruct (answers_operation (operation ctx) res) eqn:Hans; cbn [negb]; [|intros [= <-]; left; auto].
  destruct (response_tx ctx) as [[]|] eqn:Htx; cbn [negb].
  2:{ intros [= <-]. left. split_and!; [done..|]. right. by exists ctx. }
  2:{ intros [= <-]. left; auto. }
  assert (Hsender : context_peer ctx = sender ∨ sender ∈ contacted_nodes ctx).
  { apply orb_prop in Hauth as [?%bool_decide_eq_true|?%bool_decide_eq_true]; auto. }
  intros Hx'. right. destruct res as [key nodes| | | | | |].
  1: destruct (normalize_lookup_answer _ _ _ _ _ _) as [[nodes' m']|]; [|done]; cbn [mbind option_bind] in Hx'; simplify_eq;
     exists ctx, sender, (NodesFound key nodes'); split_and!; done.
  all: cbn [mbind option_bind] in Hx'; simplify_eq; eexists ctx, sender, _; split_and!; done.
Qed.

Lemma exchange_step_inv x opened x' opened' :
  exchange_inv x opened → exchange_step x opened x' opened' → exchange_inv x' opened'.
Proof.
  intros [Hctx Honce Hdel] Hstep.
  assert (Hseen : ∀ id, id ∈ delivered_ids x → id ∈ opened_ids opened).
  { intros id ([[i p] res] & -> & (op & Hop & _)%Hdel)%list_elem_of_fmap. apply list_elem_of_fmap. by exists (i, p, op). }
  destruct Hstep as [id peer op tmo now Hfresh|id ctx Hid Htx|id|w msg canonical now x' Hop|m].
  - constructor; [|done|].
    + intros i ctx. cbn [active_operations with_operations]. unfold open_request, sweep_expired_operations.
      intros [[<- <-]|[_ Hi]]%lookup_insert_Some.
      * cbn. split_and!; [by left|done|]. intros _ Hin%Hseen. done.
      * apply map_lookup_filter_Some in Hi as [Hi _]. destruct (Hctx i ctx Hi) as (? & ? & ?). split_and!; try done. by right.
    + intros i p res (op' & ? & ?)%Hdel. exists op'. split; [by right|done].
  - constructor; [|done..]. intros i c. cbn [active_operations with_operations].
    intros [[<- <-]|[_ Hi]]%lookup_insert_Some; [|by apply Hctx].
    destruct (Hctx _ _ Hid) as (? & ? & Hnot). cbn. split_and!; try done. intros _. apply Hnot. by rewrite Htx.
  - constructor; [|done..]. intros i c. cbn [active_operations with_operations]. unfold close_request. intros [_ Hi]%lookup_delete_Some. by apply Hctx.
  - apply handle_response_cases in Hop as [(_ & Hd & Hops)|(ctx & sender & res & Hid & Htx & Hs & Ha & Hops & Hd)].
    + constructor; unfold delivered_ids; rewrite Hd; [|done..]. intros i c.
      destruct Hops as [->|(ctx & Hid & ->)]; [by apply Hctx|].
      intros [[<- <-]|[_ Hi]]%lookup_insert_Some; [|by apply Hctx].
      destruct (Hctx _ _ Hid) as (? & ? & _). cbn. split_and!; [done..|]. by intros [? ?].
    + destruct (Hctx _ _ Hid) as (Hopen & Hcont & Hnot). specialize (Hnot ltac:(by rewrite Htx)).
      assert (sender = context_peer ctx) as ->.
      { destruct Hs as [->|Hs]; [done|]. rewrite Hcont in Hs. by apply list_elem_of_singleton in Hs. }
      constructor; unfold delivered_ids; rewrite Hd, ?Hops.
      * intros i c [[<- <-]|[Hne Hi]]%lookup_insert_Some; cbn; [split_and!; [done..|by intros [? ?]]|].
        destruct (Hctx _ _ Hi) as (? & ? & Hn). split_and!; try done. intros Htx'. rewrite not_elem_of_cons. auto.
      * cbn. by constructor.
      * intros i p r [[= -> -> ->]|Hin]%elem_of_cons; [by exists (operation ctx)|by apply Hdel].
  - by constructor.
Qed.


(** ** The wire form of a response *)

Lemma encode_bundle_cons r l b :
  encode_record_bundle (r :: l) = Ok b ↔
  ∃ e b', encode_record_bundle [r] = Ok e ∧ encode_record_bundle l = Ok b' ∧ b = e ++ b'.
Proof.
  cbn [encode_record_bundle]. destruct (encode_signed r) as [enc|]; [|naive_solver].
  destruct (_ <? _)%nat; [naive_solver|]. destruct (_ <=? _)%Z; [naive_solver|].
  destruct (encode_record_bundle l) as [rest|]; [|naive_solver]. split.
  - intros Hb. eexists _, _. split_and!; [done..|]. rewrite app_nil_r, <-app_assoc. congruence.
  - intros (e & b' & He & Hb' & ->). f_equal. assert (u32_to_be_bytes (length enc) ++ enc ++ [] = e) as <- by congruence.
    assert (rest = b') as <- by congruence. by rewrite app_nil_r, <-app_assoc.
Qed.

Lemma encode_bundle_app l1 l2 b1 b2 :
  encode_record_bundle l1 = Ok b1 → encode_record_bundle l2 = Ok b2 → encode_record_bundle (l1 ++ l2) = Ok (b1 ++ b2).
Proof.
  revert b1. induction l1 as [|r l1 IH]; intros b1; [by intros [= <-]|].
  intros (e & b' & He & Hb' & ->)%encode_bundle_cons H2. cbn [app]. apply encode_bundle_cons.
  exists e, (b' ++ b2). split_and!; [done|by apply IH|]. by rewrite app_assoc.
Qed.

(** The extension is the bundle of some of the records, in order, that fits;
    of all of them if that fits. *)
Lemma append_records_spec base records l0 ext0 ext :
  encode_record_bundle l0 = Ok ext0 →
  (ext0 = [] ∨ base + length LOOKUP_EXTENSION_MARKER + length ext0 ≤ MAX_MESSAGE_SIZE) →
  append_records base ext0 records = Ok ext →
  ∃ l, l `sublist_of` records ∧ encode_record_bundle (l0 ++ l) = Ok ext ∧
    (ext = [] ∨ base + length LOOKUP_EXTENSION_MARKER + length ext ≤ MAX_MESSAGE_SIZE) ∧
    (∀ all, encode_record_bundle records = Ok all →
       base + length LOOKUP_EXTENSION_MARKER + length ext0 + length all ≤ MAX_MESSAGE_SIZE → l = records).
Proof.
  revert l0 ext0. induction records as [|r records IH]; intros l0 ext0 H0 Hsize; cbn [append_records].
  { intros [= <-]. exists []. rewrite app_nil_r. auto. }
  destruct (encode_record_bundle [r]) as [enc|] eqn:Henc; [|done].
  assert (Hall : ∀ all, encode_record_bundle (r :: records) = Ok all →
                 ∃ rest, encode_record_bundle records = Ok rest ∧ length all = length enc + length rest).
  { intros all (e & rest & He & Hr & ->)%encode_bundle_cons. rewrite Henc in He. simplify_eq. exists rest.
    by rewrite length_app. }
  destruct (Nat.leb_spec (base + length LOOKUP_EXTENSION_MARKER + length ext0 + length enc) MAX_MESSAGE_SIZE) as [Hfit|Hno].
  - intros (l & Hsub & Hl & Hs & Hmax)%(IH (l0 ++ [r])); [|by apply encode_bundle_app|right; rewrite length_app; lia].
    exists (r :: l). split; [by constructor|]. rewrite <-app_assoc in Hl. split; [done|]. split; [done|].
    intros all (rest & Hrest & Hlen)%Hall Hle. f_equal. apply (Hmax rest Hrest). rewrite length_app. lia.
  - intros (l & Hsub & Hl & Hs & Hmax)%(IH l0); [|done..]. exists l. split; [by constructor|]. split; [done|]. split; [done|].
    intros all (rest & Hrest & Hlen)%Hall Hle. lia.
Qed.

(** A signed-record trailer is read back as a subsequence of the records, all of them when they fit. *)
Lemma extension_roundtrip base records bytes :
  Forall (λ r, within_decode_bounds r = true) records → length base ≤ MAX_MESSAGE_SIZE →
  append_lookup_extension base records = Ok bytes →
  length bytes ≤ MAX_MESSAGE_SIZE ∧ ∃ trailing, bytes = base ++ trailing ∧
    decode_lookup_extension trailing `sublist_of` records ∧ length (decode_lookup_extension trailing) ≤ MAX_LOOKUP_EXTENSION_RECORDS ∧
    (∀ all, encode_record_bundle records = Ok all → length records ≤ MAX_LOOKUP_EXTENSION_RECORDS →
       length base + length LOOKUP_EXTENSION_MARKER + length all ≤ MAX_MESSAGE_SIZE → decode_lookup_extension trailing = records).
Proof.
  intros Hbounds Hbase. unfold append_lookup_extension. destruct (append_records _ _ _) as [ext|] eqn:Happ; [|done].
  apply (append_records_spec _ _ []) in Happ as (l & Hsub & Henc & Hsize & Hmax); [|done|by left]. cbn [app length] in Henc, Hmax.
  assert (Hfull : ∀ all, encode_record_bundle records = Ok all → length records ≤ MAX_LOOKUP_EXTENSION_RECORDS →
    length base + length LOOKUP_EXTENSION_MARKER + length all ≤ MAX_MESSAGE_SIZE → l = records).
  { intros all Hall Hle Hfit. rewrite take_ge in Hmax by done. apply (Hmax all Hall). lia. }
  assert (Hll : length l ≤ MAX_LOOKUP_EXTENSION_RECORDS) by (apply sublist_length in Hsub; rewrite length_take in Hsub; lia).
  assert (Hsub' : l `sublist_of` records) by (etrans; [done|apply sublist_take]).
  destruct (Nat.eqb_spec (length ext) 0) as [H0|H0]; intros Hout.
  - assert (bytes = base) as -> by congruence. split; [done|]. exists []. rewrite app_nil_r. change (decode_lookup_extension []) with (@nil SignedAddressRecord).
    assert (l = []) as ->; [|split_and!; [done|apply sublist_nil_l|cbn; lia|exact Hfull]].
    apply length_zero_iff_nil in H0. subst ext. destruct l as [|r l]; [done|].
    apply encode_bundle_cons in Henc as (e & b' & He & _ & Hnil). symmetry in Hnil. apply app_eq_nil in Hnil as [-> _]. exfalso.
    revert He. cbn [encode_record_bundle]. destruct (encode_signed r); [|done]. destruct (_ <? _)%nat; [done|]. by destruct (_ <=? _)%Z.
  - assert (bytes = base ++ LOOKUP_EXTENSION_MARKER ++ ext) as -> by congruence.
    split; [rewrite !length_app; destruct Hsize as [->|]; [done|lia]|]. exists (LOOKUP_EXTENSION_MARKER ++ ext). split; [done|].
    assert (decode_lookup_extension (LOOKUP_EXTENSION_MARKER ++ ext) = l) as ->; [|done].
    unfold decode_lookup_extension. rewrite take_app_length, bool_decide_eq_true_2, drop_app_length by done.
    unfold decode_record_bundle. rewrite (decode_bundle_append l ext MAX_LOOKUP_EXTENSION_RECORDS []); [done| |done|done].
    rewrite Forall_forall in Hbounds |- *. intros r Hr. apply Hbounds. by eapply elem_of_sublist.
Qed.

(** All the records a response carries: those attached and the publications
    of its nodes, each once. *)
Definition carried_records msg : list SignedAddressRecord :=
  match message_result msg with
  | Some (NodesFound _ nodes) =>
      foldl (λ acc r, if bool_decide (r ∈ acc) then acc else acc ++ [r]) (attached_records msg)
        (foldl take_publication [] nodes)
  | _ => attached_records msg
  end.

(** The message without its extension, QUIC addresses only. *)
Definition legacy_message msg : DhtNetworkMessage :=
  with_result msg
    (match message_result msg with
     | Some (NodesFound key nodes) => Some (NodesFound key (quic_only <$> nodes))
     | other => other
     end) [].

(** What the receiver sees of the result. *)
Definition wire_result msg : option DhtNetworkResult :=
  match message_result msg with
  | Some (NodesFound key nodes) => Some (NodesFound key ((erase_node ∘ quic_only) <$> nodes))
  | other => other
  end.

Lemma encode_response_unfold msg bytes :
  encode_response_message msg = Ok bytes →
  ∃ base, to_stdvec_message (legacy_message msg) = Ok base ∧ length base ≤ MAX_MESSAGE_SIZE ∧
    erase (legacy_message msg) = with_result msg (wire_result msg) [] ∧
    (if bool_decide (is_Some (found_nodes msg)) then append_lookup_extension base (carried_records msg) = Ok bytes
     else bytes = base).
Proof.
  unfold encode_response_message, split_lookup_publications, wire_result, carried_records, found_nodes, erase, legacy_message.
  destruct (message_result msg) as [[key nodes| | | | | |]|]; cbn [with_result message_result attached_records].
  all: match goal with |- context [to_stdvec_message ?m] => destruct (to_stdvec_message m) as [base|] eqn:Hb; [|done] end.
  all: destruct (Nat.ltb_spec MAX_MESSAGE_SIZE (length base)) as [|Hlen]; [done|].
  all: intros Hout; exists base; split; [done|]; split; [done|]; split.
  1: cbn; by rewrite <-list_fmap_compose.
  all: by simplify_eq/= || done.
Qed.

(** responses on the wire.  An encoded response fits the message limit,
    and the receiver decodes the same message: every field of the envelope,
    the result with the QUIC addresses of its nodes and no claim of authority,
    and of the owner-signed records it carried a subsequence, each exactly as
    it was signed: all of them when there are at most 256 and they fit. *)
Theorem response_roundtrip msg bytes :
  message_type msg = Response → Forall (λ r, within_decode_bounds r = true) (carried_records msg) →
  encode_response_message msg = Ok bytes →
  length bytes ≤ MAX_MESSAGE_SIZE ∧
  ∃ l, decode_message bytes = Ok (with_result msg (wire_result msg) l) ∧
    l `sublist_of` carried_records msg ∧ length l ≤ MAX_LOOKUP_EXTENSION_RECORDS ∧
    (found_nodes msg = None → l = []) ∧
    (∀ base all, is_Some (found_nodes msg) →
       to_stdvec_message (legacy_message msg) = Ok base → encode_record_bundle (carried_records msg) = Ok all →
       length (carried_records msg) ≤ MAX_LOOKUP_EXTENSION_RECORDS →
       length base + length LOOKUP_EXTENSION_MARKER + length all ≤ MAX_MESSAGE_SIZE → l = carried_records msg).
Proof.
  intros Htype Hbounds (base & Hbase & Hlen & Herase & Hext)%encode_response_unfold.
  assert (Hfound : found_nodes (with_result msg (wire_result msg) []) = None ↔ found_nodes msg = None).
  { unfold found_nodes, wire_result. cbn. by destruct (message_result msg) as [[]|]. }
  assert (Hdecode : ∀ trailing, decode_message (base ++ trailing) =
    Ok (with_result msg (wire_result msg)
         (if bool_decide (is_Some (found_nodes msg)) then decode_lookup_extension trailing else []))).
  { intros trailing. unfold decode_message. rewrite (message_roundtrip _ _ trailing Hbase), Herase.
    unfold is_response. cbn [message_type with_result]. rewrite Htype. cbn [andb].
    destruct (found_nodes msg) as [f|] eqn:Hf.
    - rewrite !bool_decide_eq_true_2; [done|done|]. apply not_eq_None_Some. rewrite Hfound. done.
    - rewrite (proj2 Hfound eq_refl), !bool_decide_eq_false_2; [done|by intros [? ?]..]. }
  destruct (found_nodes msg) as [f|] eqn:Hf; cycle 1.
  { rewrite bool_decide_eq_false_2 in Hext by (by intros [? ?]). subst bytes. split; [done|].
    exists []. specialize (Hdecode []). rewrite app_nil_r in Hdecode. rewrite Hdecode, bool_decide_eq_false_2 by (by intros [? ?]).
    split_and!; [done|apply sublist_nil_l|cbn; lia|done|by intros ? ? [? ?]]. }
  rewrite bool_decide_eq_true_2 in Hext, Hdecode by done.
  destruct (extension_roundtrip _ _ _ Hbounds Hlen Hext) as (Hfit & trailing & -> & Hsub & Hcount & Hfull). split; [done|].
  eexists. split_and!; [apply Hdecode|exact Hsub|exact Hcount|done|]. intros base' all _ Hbase' Hall Hle Hsize.
  rewrite Hbase in Hbase'. simplify_eq. by apply (Hfull all).
Qed.
End messages.

#[export] Instance DhtNetworkOperation_eq_dec `{TransportLib} : EqDecision DhtNetworkOperation.
Proof. solve_decision. Defined.
#[export] Instance DhtNetworkResult_eq_dec `{TransportLib} : EqDecision DhtNetworkResult.
Proof. solve_decision. Defined.
#[export] Instance DhtMessageType_eq_dec : EqDecision DhtMessageType.
Proof. solve_decision. Defined.
#[export] Instance DhtNetworkMessage_eq_dec `{TransportLib} : EqDecision DhtNetworkMessage.
Proof. solve_decision. Defined.
#[export] Instance MessageError_eq_dec : EqDecision MessageError.
Proof. solve_decision. Defined.
