(* ===== verification/Rpc.v ===== *)
(** * DHT requests, end to end

    The sending side of the requests of [src/dht_network_manager.rs]:
    [send_dht_request_inner] registers the request, makes sure of an
    authenticated channel, sends, waits and accounts for the failure, on top
    of the correlation of [Messages], the dials of [DialCoordinator], the
    registry of [Channels] and the sends of [Sending].

    A request is modelled on its own: other calls appear as the dial it joins
    ([call_in_flight]), as what they do to the registry while it awaits
    ([instants]) and as the end of its wait ([call_reply]).  The interleaving
    of requests and responses is that of [Messages], of dials that of
    [DialCoordinator]. *)

From Stdlib Require Import SpecFloat.
From stdpp Require Import prelude gmap strings.
From S2P Require Import Prelude Float Keys Ip Address PeerRecord SelfAddress SignedAddress DialFailure DialPolicy Trust Tasks Wire Channels Receiving Sending NodeInfo KBucket RoutingTable Diversity Canary CanaryWitness Engine EngineQueries Publications Messages DialCoordinator.

Definition DHT_V1_TOPIC : string := "/dht/1.0.0".
Definition RELAY_CANARY_PROTOCOL : string := "relay-canary-v1".
Definition RELAY_CANARY_WIRE_TOPIC : string := "/rr/relay-canary-v1".
Definition DHT_V2_TOPIC : string := "/dht/address/2.0.0".

Section rpc.
Context `{TL : TransportLib} `{PL : !PostcardLib} `{CL : CryptoLib} `{WC : WireCodec} `{ST : SocketText} `{HO : HashOrder}.
Context `{MC : !MessageCodec} `{FM : FloatMath}.
Context (normalize_socket_addr : SocketAddr → SocketAddr).
(** This node, its user agent, and what its awaits show. *)
Context (identity : NodeIdentity) (own_user_agent : string) (instants : nat → Sending.Instant).

(** The successfully sent requests by kind. *)
Record SentByKind := mk_sent_by_kind { find_node_tx_count : N; ping_tx_count : N; publish_addr_tx_count : N }.

(** The state a request works on; [evicted_peers] are the peers it had
    removed from the routing table, latest first. *)
Record Rpc := mk_rpc {
  rpc_operations : gmap string DhtOperationContext;
  rpc_shared : Shared;
  rpc_outbound : Outbound;
  rpc_counts : SentByKind;
  evicted_peers : list PeerId;
}.
Implicit Types (s : Rpc) (p : PeerId) (typed : list (MultiAddr * AddressType)).

Definition with_operations s (ops : gmap string DhtOperationContext) : Rpc :=
  mk_rpc ops (rpc_shared s) (rpc_outbound s) (rpc_counts s) (evicted_peers s).
Definition with_outbound s (o : Outbound) : Rpc :=
  mk_rpc (rpc_operations s) (rpc_shared s) o (rpc_counts s) (evicted_peers s).
Definition with_counts s (c : SentByKind) : Rpc :=
  mk_rpc (rpc_operations s) (rpc_shared s) (rpc_outbound s) c (evicted_peers s).
Definition with_shared s (sh : Shared) : Rpc :=
  mk_rpc (rpc_operations s) sh (rpc_outbound s) (rpc_counts s) (evicted_peers s).

(** [record_peer_failure] on the trust engine of the node. *)
Definition charge s p (now : Z) : Rpc :=
  let sh := rpc_shared s in
  with_shared s (mk_shared (dial_failures sh) (identity_failures sh) (record_peer_failure (trust sh) p now) (disconnected sh)).

(** How the wait for the response ends: [wait_for_response]. *)
Inductive Reply := Replied (res : DhtNetworkResult) | ReplyDropped | ReplyTimeout.

(** What a call meets: the identifier and the wall clock of its message, the
    time it starts, the configured timeout, the dial it joins if one is in
    flight, the one it owns otherwise, the end of its wait, and the time a
    failure is recorded. *)
Record Call := mk_call {
  fresh_uuid : string;
  call_clock : option N;
  call_opened : Z;
  call_timeout : Z;
  call_in_flight : option (result unit ChannelError);
  call_dial : DialEnv;
  call_reply : Reply;
  call_now : Z;
}.

Inductive RpcError :=
  | ClockUnavailable
  | Unencodable (e : string)
  | NoChannel (e : ChannelError)
  | Unsent (e : SendError)
  | NoResponse
  | Timeout
  | UnexpectedResponse.

(** ** Addresses to dial *)

(** [known] is the registry's information about the peer. *)
Definition peer_addresses_for_dial_typed (e : DhtCoreEngine) (known : option PeerInfo) p : list (MultiAddr * AddressType) :=
  match get_node_addresses_typed e p with
  | [] =>
      match known with
      | Some info =>
          (λ a, (a, if from_option is_lan_ip false (ip a) then Lan else Unverified))
            <$> List.filter is_dialable (info_addresses info)
      | None => []
      end
  | typed => dialable_addresses_typed typed
  end.

(** The non-QUIC records known of a peer, this node's own included. *)
Definition supplemental_address_records_for_peer (m : Manager) (self p : PeerId) : list (MultiAddr * KnownReachability) :=
  if bool_decide (p = self) then (λ a, (a, KUnverified)) <$> supplemental_self_addresses m
  else
    match publication_of m p with
    | None => []
    | Some set =>
        omap (λ r, match decode_known r with
                   | Ok (Some address) =>
                       if is_webrtc_direct address then Some (address, KUnverified)
                       else (λ reach, (address, reach)) <$> reachability_from_id (record_reachability r)
                   | _ => None
                   end)
          (List.filter (λ r, negb (record_transport r =? transport_id KQuic)%N) (set_records set))
    end.

Definition supplemental_addresses_for_peer (m : Manager) (self p : PeerId) : list MultiAddr :=
  fst <$> supplemental_address_records_for_peer m self p.

(** ** The channel *)

Definition owned_dial (call : Call) typed : DialEnv :=
  let d := call_dial call in
  mk_dial_env (env_context d) typed (env_connected d) (env_connect d) (env_clock d) (env_identity d) (env_now d).

(** [ensure_peer_channel] as its caller sees it: connected already, joined to
    a dial in flight, suppressed, or the owner of a dial, whose effects are
    then its own. *)
Definition ensure_peer_channel (call : Call) s p typed : result unit ChannelError * Rpc :=
  let sh := rpc_shared s in
  if is_peer_connected (out_registry (rpc_outbound s)) p then (Ok tt, s)
  else
    match call_in_flight call with
    | Some answer => (answer, with_outbound s (awake instants (rpc_outbound s)).2)
    | None =>
        let '(failed, cache) := identity_is_failed (identity_failures sh) p (call_now call) in
        let sh := mk_shared (dial_failures sh) cache (trust sh) (disconnected sh) in
        if failed : bool then (Err (SuppressedRecentFailure p), with_shared s sh)
        else
          let '(outcome, sh') := run_owned_dial normalize_socket_addr sh p (owned_dial call typed) in
          let closed := take (length (disconnected sh') - length (disconnected sh)) (disconnected sh') in
          let o := foldr (λ c o, disconnect_channel_now instants o c) (awake instants (rpc_outbound s)).2 closed in
          (into_result outcome p,
           mk_rpc (rpc_operations s) sh' o (rpc_counts s)
             (match outcome with IdentityMismatch _ => p :: evicted_peers s | _ => evicted_peers s end))
    end.

(** ** Requests *)

Definition create_request_message (self p : PeerId) (op : DhtNetworkOperation) (uuid : string) (clock : option N)
    : result DhtNetworkMessage RpcError :=
  match clock with
  | None => Err ClockUnavailable
  | Some secs =>
      Ok {| Messages.message_id := uuid; message_source := self; message_target := Some p; message_type := Request;
            Messages.payload := op; message_result := None; timestamp := secs; ttl := 10; hop_count := 0;
            attached_records := [] |}
  end.

Definition topic_for_operation (op : DhtNetworkOperation) : string :=
  match op with PublishAddressSetV2 _ => DHT_V2_TOPIC | _ => DHT_V1_TOPIC end.

Definition count_sent (op : DhtNetworkOperation) (c : SentByKind) : SentByKind :=
  match op with
  | FindNode _ => mk_sent_by_kind (fetch_add (find_node_tx_count c) 1) (ping_tx_count c) (publish_addr_tx_count c)
  | Ping => mk_sent_by_kind (find_node_tx_count c) (fetch_add (ping_tx_count c) 1) (publish_addr_tx_count c)
  | PublishAddressSet _ _ | PublishAddressSetV2 _ =>
      mk_sent_by_kind (find_node_tx_count c) (ping_tx_count c) (fetch_add (publish_addr_tx_count c) 1)
  | Join | Leave => c
  end.

Definition wait_for_response (r : Reply) : result DhtNetworkResult RpcError :=
  match r with
  | Replied res => Ok res
  | ReplyDropped => Err NoResponse
  | ReplyTimeout => Err Timeout
  end.

(** Everything after the channel: the send, the wait, and the trust failure
    of a request that was not sent or not answered. *)
Definition send_and_wait (call : Call) s p (op : DhtNetworkOperation) (bytes : list Z)
    : result DhtNetworkResult RpcError * Rpc :=
  let '(sent, o) := transport_send_message identity own_user_agent instants (rpc_outbound s) p (topic_for_operation op) bytes in
  let s := with_outbound s o in
  let '(r, s) :=
    match sent with
    | Ok _ => (wait_for_response (call_reply call), with_counts s (count_sent op (rpc_counts s)))
    | Err e => (Err (Unsent e), s)
    end in
  (r, match r with Ok _ => s | Err _ => charge s p (call_now call) end).

(** [typed] are the addresses the caller passes on, or those of
    [peer_addresses_for_dial_typed].  The guard closes the request on every
    path. *)
Definition send_dht_request (call : Call) s p (op : DhtNetworkOperation) typed : result DhtNetworkResult RpcError * Rpc :=
  let swept := with_operations s (sweep_expired_operations (rpc_operations s) (call_opened call)) in
  match create_request_message (identity_peer_id identity) p op (fresh_uuid call) (call_clock call) with
  | Err e => (Err e, swept)
  | Ok msg =>
      match to_stdvec_message msg with
      | Err e => (Err (Unencodable e), swept)
      | Ok bytes =>
          let id := Messages.message_id msg in
          let s := with_operations s (open_request (rpc_operations s) id p op (call_timeout call) (call_opened call)) in
          let '(ready, s) := ensure_peer_channel call s p typed in
          let '(r, s) :=
            match ready with
            | Err e => (Err (NoChannel e), s)
            | Ok _ => send_and_wait call s p op bytes
            end in
          (r, with_operations s (close_request (rpc_operations s) id))
      end
  end.

(** [elapsed] is the time the request took. *)
Definition ping (call : Call) s p typed (elapsed : Z) : result DhtNetworkResult RpcError * Rpc :=
  let '(r, s) := send_dht_request call s p Ping typed in
  (match r with
   | Ok (PongReceived responder _) => Ok (PongReceived responder elapsed)
   | Ok _ => Err UnexpectedResponse
   | Err e => Err e
   end, s).

(** The relay canary's request goes through the generic requests of the
    transport.  [encode] and [decode] are postcard on its messages; [waits],
    [active] and [fresh_id] are those of [transport_send_request]. *)
Inductive CanaryError := CanaryChannel (e : ChannelError) | CanarySerialization (e : string) | CanaryRequest (e : RequestError).

Definition send_relay_canary_request (encode : RelayCanaryRequest → result (list Z) string)
    (decode : list Z → result RelayCanaryResponse string) (waits : nat → Wait) (active : nat → nat) (fresh_id : nat → string)
    (call : Call) s p typed (request : RelayCanaryRequest) (timeout : Z)
    : result RelayCanaryRequestOutcome CanaryError * Rpc :=
  let '(ready, s) := ensure_peer_channel call s p typed in
  match ready with
  | Err e => (Err (CanaryChannel e), s)
  | Ok _ =>
      match encode request with
      | Err e => (Err (CanarySerialization e), s)
      | Ok bytes =>
          let '(r, o) := transport_send_request identity own_user_agent instants waits active fresh_id (rpc_outbound s) p
                           RELAY_CANARY_PROTOCOL bytes timeout in
          (match r with
           | Ok data => match decode data with Ok response => Ok (Canary.Response response) | Err e => Err (CanarySerialization e) end
           | Err (TimedOut _) => Ok NoProtocolResponse
           | Err e => Err (CanaryRequest e)
           end, with_outbound s o)
      end
  end.

(** ** A failure is charged once *)

(** Whether the peer is charged for the outcome, and when: by the dial the
    call owns, or by the call when the request is not sent or not answered. *)
Definition charged_at (call : Call) (r : result DhtNetworkResult RpcError) : option Z :=
  match r with
  | Err (Unsent _) | Err NoResponse | Err Timeout => Some (call_now call)
  | Err (NoChannel (FailedToDial _ _)) | Err (NoChannel (IdentityExchangeFailed _ _)) =>
      match call_in_flight call with None => Some (env_now (call_dial call)) | Some _ => None end
  | _ => None
  end.

Definition trust_of s : option TrustEngine := trust (rpc_shared s).
Definition charged s p (t : option Z) : option TrustEngine := from_option (record_peer_failure (trust_of s) p) (trust_of s) t.

(** The attempts a request with this outcome makes. *)
Definition request_attempts (l : list Attempt) (r : result DhtNetworkResult RpcError) : Prop :=
  match r with
  | Ok _ | Err NoResponse | Err Timeout => attempts_for l (Ok tt)
  | Err (Unsent e) => attempts_for l (Err e)
  | _ => l = []
  end.

Definition request_counts (op : DhtNetworkOperation) (c : SentByKind) (r : result DhtNetworkResult RpcError) : SentByKind :=
  match r with Ok _ | Err NoResponse | Err Timeout => count_sent op c | _ => c end.

Hypothesis Hmeanwhile : ∀ i r, consistent r → consistent (meanwhile (instants i) r).

Lemma closed_channels o (cs : list string) :
  let o' := foldr (λ c o, disconnect_channel_now instants o c) o cs in
  attempts o' = attempts o ∧ (consistent (out_registry o) → consistent (out_registry o')).
Proof using Hmeanwhile.
  cbv zeta. induction cs as [|c cs [Ha Hc]]; [done|]. split; [exact Ha|]. intros H. cbn.
  by apply disconnect_channel_consistent, Hmeanwhile, Hc.
Qed.

Lemma ensure_effects call s p typed :
  let '(r, s') := ensure_peer_channel call s p typed in
  rpc_operations s' = rpc_operations s ∧ rpc_counts s' = rpc_counts s ∧
  attempts (rpc_outbound s') = attempts (rpc_outbound s) ∧
  (consistent (out_registry (rpc_outbound s)) → consistent (out_registry (rpc_outbound s'))) ∧
  trust_of s' = charged s p (match r with Ok _ => None | Err e => charged_at call (Err (NoChannel e)) end).
Proof using Hmeanwhile.
  unfold ensure_peer_channel. destruct (is_peer_connected _ p); [done|]. unfold charged_at. destruct (call_in_flight call) as [answer|].
  { split_and!; [done..|by intros Hc; apply Hmeanwhile|]. by destruct answer as [|[]]. }
  destruct (identity_is_failed _ _ _) as [[] cache]; [done|].
  destruct (run_owned_dial _ _ _ _) as [outcome sh'] eqn:Hdial. cbn [rpc_operations rpc_counts rpc_outbound].
  set (cs := take _ _). destruct (closed_channels (awake instants (rpc_outbound s)).2 cs) as [Ha Hc]. split_and!; [done|done|rewrite Ha; done|intros H; by apply Hc, Hmeanwhile|].
  unfold charged, trust_of. cbn [rpc_shared]. revert Hdial. unfold run_owned_dial. destruct (dial_addresses _ _ _ _ _ _ _ _) as [[dialled failures] ?].
  destruct dialled as [channel|]; [|by intros [= <- <-]]. destruct (env_identity _ channel) as [who|e]; [|by intros [= <- <-]].
  case_bool_decide; by intros [= <- <-].
Qed.

Lemma send_and_wait_effects call s p op bytes :
  let '(r, s') := send_and_wait call s p op bytes in
  rpc_operations s' = rpc_operations s ∧ rpc_counts s' = request_counts op (rpc_counts s) r ∧
  (∃ l, attempts (rpc_outbound s') = attempts (rpc_outbound s) ++ l ∧ request_attempts l r) ∧
  (consistent (out_registry (rpc_outbound s)) → consistent (out_registry (rpc_outbound s'))) ∧
  trust_of s' = charged s p (charged_at call r).
Proof using Hmeanwhile.
  unfold send_and_wait.
  pose proof (transport_sent identity own_user_agent instants Hmeanwhile (rpc_outbound s) p (topic_for_operation op) bytes) as Hs.
  destruct (transport_send_message _ _ _ _ _ _ _) as [[[]|e] o]; cbn [fst snd] in Hs; destruct Hs as [(l & Hl & Hfor) Hc];
    [destruct (call_reply call)|]; by (split_and!; [..|exists l|exact Hc|]).
Qed.

(** A request leaves no correlation state behind, is accepted by the transport at most once, and costs the peer one trust
    failure exactly when it could not be sent, was not answered, or the dial it owned found no peer.  Failures of this node, a
    dial someone else owns, a suppressed dial and a peer that authenticates as another cost nothing. *)
Theorem request_accounted call s p op typed :
  rpc_operations s !! fresh_uuid call = None →
  let '(r, s') := send_dht_request call s p op typed in
  rpc_operations s' = sweep_expired_operations (rpc_operations s) (call_opened call) ∧
  (∃ l, attempts (rpc_outbound s') = attempts (rpc_outbound s) ++ l ∧ request_attempts l r) ∧
  rpc_counts s' = request_counts op (rpc_counts s) r ∧
  (consistent (out_registry (rpc_outbound s)) → consistent (out_registry (rpc_outbound s'))) ∧
  trust_of s' = charged s p (charged_at call r).
Proof using Hmeanwhile.
  intros Hfresh. unfold send_dht_request, create_request_message.
  destruct (call_clock call) as [secs|]; [|split_and!; [done|exists []; by rewrite app_nil_r|done..]].
  destruct (to_stdvec_message _) as [bytes|e]; [|split_and!; [done|exists []; by rewrite app_nil_r|done..]].
  cbn [Messages.message_id].
  assert (Hclose : ∀ ops, ops = open_request (rpc_operations s) (fresh_uuid call) p op (call_timeout call) (call_opened call) →
    close_request ops (fresh_uuid call) = sweep_expired_operations (rpc_operations s) (call_opened call)).
  { intros ops ->. unfold close_request, open_request, sweep_expired_operations. apply delete_insert_id.
    apply map_lookup_filter_None. by left. }
  set (s0 := with_operations s _). pose proof (ensure_effects call s0 p typed) as Hens.
  destruct (ensure_peer_channel call s0 p typed) as [[[]|e] s1]; destruct Hens as (Hops & Hcounts & Hatt & Hcon & Htrust).
  - pose proof (send_and_wait_effects call s1 p op bytes) as Hsend.
    destruct (send_and_wait call s1 p op bytes) as [r s2]; destruct Hsend as (Hops2 & Hcounts2 & (l & Hl & Hal) & Hcon2 & Htrust2).
    split_and!; cbn [rpc_operations rpc_outbound rpc_counts with_operations].
    + apply Hclose. by rewrite Hops2, Hops.
    + exists l. by rewrite Hl, Hatt.
    + by rewrite Hcounts2, Hcounts.
    + intros H. by apply Hcon2, Hcon.
    + change (trust_of s2 = charged s p (charged_at call r)). rewrite Htrust2. unfold charged. by rewrite Htrust.
  - split_and!; cbn [rpc_operations rpc_outbound rpc_counts with_operations].
    + apply Hclose. by rewrite Hops.
    + exists []. by rewrite app_nil_r, Hatt.
    + done.
    + exact Hcon.
    + exact Htrust.
Qed.
End rpc.
