(* ===== verification/Publishing.v ===== *)
(** * Sending a publication

    [send_address_publications_to_peer] of [src/dht_network_manager.rs]: the
    V1 and the V2 message of one publication are encoded, a channel is made
    sure of, and both are sent side by side, once each and without waiting for
    an answer.  The two sends are [task]s: they interleave with each other and
    with everything else that works on the registry. *)

From Stdlib Require Import SpecFloat.
From stdpp Require Import prelude gmap strings.
From S2P Require Import Prelude Float Keys Ip Address PeerRecord SelfAddress SignedAddress DialFailure DialPolicy Trust Tasks Wire Channels Receiving Sending NodeInfo KBucket RoutingTable Diversity Engine EngineQueries Publications Messages DialCoordinator Rpc.

Inductive Version := V1Message | V2Message.
#[export] Instance Version_eq_dec : EqDecision Version.
Proof. solve_decision. Defined.

Section publishing.
Context `{TL : TransportLib} `{PL : !PostcardLib} `{CL : CryptoLib} `{WC : WireCodec} `{ST : SocketText} `{HO : HashOrder}.
Context `{MC : !MessageCodec} `{FM : FloatMath}.
Context (normalize_socket_addr : SocketAddr → SocketAddr).
Context (identity : NodeIdentity) (own_user_agent : string) (instants : nat → Sending.Instant).

(** What became of one message: the sends tried, and how it ended. *)
Record Delivery := mk_delivery { tried : list Attempt; outcome : option (result unit SendError) }.

Record Publishing := mk_publishing {
  pub_registry : Registry;
  pub_traffic : SentTraffic;
  pub_count : N;
  deliveries : Version → Delivery;
}.
Implicit Types (q : Publishing) (v : Version) (p : PeerId) (c : string).

(** What the send of one message meets: the clocks, the answer of the
    transport, and whether QUIC still holds the connection afterwards. *)
Record Sender := mk_sender {
  sender_now : Z;
  sender_clock : option N;
  sender_answer : SocketAddr → list Z → result unit (list (option EndpointError));
  sender_open : SocketAddr → bool;
}.

Definition with_pub_registry q (r : Registry) : Publishing := mk_publishing r (pub_traffic q) (pub_count q) (deliveries q).
Definition with_delivery q v (d : Delivery) : Publishing :=
  mk_publishing (pub_registry q) (pub_traffic q) (pub_count q) (λ v', if bool_decide (v' = v) then d else deliveries q v').

Fixpoint on_registry (t : task Registry) (k : task Publishing) : task Publishing :=
  match t with
  | Tasks.Finished => k
  | Act update next => Act (λ q, with_pub_registry q (update (pub_registry q))) (λ q, on_registry (next (pub_registry q)) k)
  end.

(** One message is done. *)
Definition settle v (r : result unit SendError) : task Publishing :=
  Act (λ q, with_delivery q v (mk_delivery (tried (deliveries q v)) (Some r))) (λ _, Tasks.Finished).

(** The transport has answered; the counters go with the answer. *)
Definition answered v c (frame bytes : list Z) (answer : result unit (list (option EndpointError))) q : Publishing :=
  let attempt := mk_attempt c frame (match answer with Ok _ => Ok tt | Err chain => Err (classify_send_error chain) end) in
  let q := with_delivery q v (mk_delivery (tried (deliveries q v) ++ [attempt]) (outcome (deliveries q v))) in
  match answer with
  | Ok _ => mk_publishing (pub_registry q) (record_tx (pub_traffic q) (length frame) (length bytes)) (fetch_add (pub_count q) 1) (deliveries q)
  | Err _ => mk_publishing (pub_registry q) (record_failed_tx (pub_traffic q) (length frame)) (pub_count q) (deliveries q)
  end.

Definition after_failure (env : Sender) v c (e : SendError) : task Publishing :=
  let held := match socket_parse c with Some addr => sender_open env addr | None => false end in
  if negb (is_stale_channel_send_failure e) && held then settle v (Err e)
  else on_registry (remove_channel c) (settle v (Err e)).

(** One authenticated channel, one send. *)
Definition send_address_publication_bytes (env : Sender) v p (topic : string) (bytes : list Z) : task Publishing :=
  Act (λ q, q) (λ q,
    match channels_for_peer (pub_registry q) p with
    | [] => settle v (Err PeerNotFound)
    | c :: _ =>
        on_registry (send_registered c (sender_now env) Tasks.Finished)
          (match create_protocol_message identity own_user_agent topic bytes (sender_clock env) with
           | Err e => after_failure env v c (Unframed e)
           | Ok frame =>
               match socket_parse c with
               | None => after_failure env v c PeerNotFound
               | Some addr =>
                   let answer := sender_answer env addr frame in
                   Act (answered v c frame bytes answer) (λ _,
                     match answer with
                     | Ok _ => settle v (Ok tt)
                     | Err chain => on_registry (send_failed c) (after_failure env v c (SendFailed (classify_send_error chain)))
                     end)
               end
           end)
    end).

(** No V1 message, nothing to send. *)
Definition send_legacy (env : Sender) p (b1 : option (list Z)) : task Publishing :=
  match b1 with
  | Some bytes => send_address_publication_bytes env V1Message p DHT_V1_TOPIC bytes
  | None => settle V1Message (Ok tt)
  end.

(** A failure the peer or the way to it is responsible for. *)
Definition delivery_failed (r : result unit SendError) : bool :=
  match r with Err (SendFailed _) | Err PeerNotFound => true | _ => false end.

(** [record_address_publication_send_outcomes] *)
Definition record_outcomes (s : Rpc) p (r1 r2 : result unit SendError) (now : Z) : Rpc :=
  if delivery_failed r1 || delivery_failed r2 then charge s p now else s.

Definition publishing_of (s : Rpc) : Publishing :=
  mk_publishing (out_registry (rpc_outbound s)) (out_traffic (rpc_outbound s)) (publish_addr_tx_count (rpc_counts s))
    (λ _, mk_delivery [] None).

(** The state after both sends; the attempts of V1 are listed first. *)
Definition published (s : Rpc) q : Rpc :=
  let o := rpc_outbound s in
  mk_rpc (rpc_operations s) (rpc_shared s)
    (mk_outbound (pub_registry q) (pub_traffic q)
       (attempts o ++ tried (deliveries q V1Message) ++ tried (deliveries q V2Message)) (tick o))
    (mk_sent_by_kind (find_node_tx_count (rpc_counts s)) (ping_tx_count (rpc_counts s)) (pub_count q)) (evicted_peers s).

(** The two messages; each has an identifier and a time stamp of its own. *)
Definition encode_publication p (op : DhtNetworkOperation) (stamp : string * option N) : result (list Z) RpcError :=
  match create_request_message (identity_peer_id identity) p op stamp.1 stamp.2 with
  | Err e => Err e
  | Ok msg => match to_stdvec_message msg with Ok bytes => Ok bytes | Err e => Err (Unencodable e) end
  end.

Definition encode_both p (op1 : option DhtNetworkOperation) (op2 : DhtNetworkOperation) (stamps : Version → string * option N)
    : result (option (list Z) * list Z) RpcError :=
  match match op1 with
        | None => Ok None
        | Some op => match encode_publication p op (stamps V1Message) with Ok bytes => Ok (Some bytes) | Err e => Err e end
        end with
  | Err e => Err e
  | Ok b1 => match encode_publication p op2 (stamps V2Message) with Ok b2 => Ok (b1, b2) | Err e => Err e end
  end.

(** Everything else that works on the registry meanwhile. *)
Definition others (t : task Publishing) : Prop := ∃ o, t = on_registry (Channels.operation normalize_socket_addr o) Tasks.Finished.

Definition is_ok (r : result unit SendError) : bool := match r with Ok _ => true | Err _ => false end.

(** The sends of one publication to one peer, from one state to another, and
    whether all of them succeeded. *)
Inductive send_address_publications_to_peer (stamps : Version → string * option N) (call : Call) (env1 env2 : Sender)
    (s : Rpc) p (typed : list (MultiAddr * AddressType)) (op1 : option DhtNetworkOperation) (op2 : DhtNetworkOperation)
    : bool → Rpc → Prop :=
  | publication_unencodable e :
      encode_both p op1 op2 stamps = Err e →
      send_address_publications_to_peer stamps call env1 env2 s p typed op1 op2 false s
  | publication_unconnected b1 b2 e s' :
      encode_both p op1 op2 stamps = Ok (b1, b2) →
      ensure_peer_channel normalize_socket_addr instants call s p typed = (Err e, s') →
      send_address_publications_to_peer stamps call env1 env2 s p typed op1 op2 false s'
  | publication_sent b1 b2 s' ts q r1 r2 :
      encode_both p op1 op2 stamps = Ok (b1, b2) →
      ensure_peer_channel normalize_socket_addr instants call s p typed = (Ok tt, s') →
      rtc (join_step others)
        ((send_legacy env1 p b1, send_address_publication_bytes env2 V2Message p DHT_V2_TOPIC b2), ([], publishing_of s'))
        ((Tasks.Finished, Tasks.Finished), (ts, q)) →
      outcome (deliveries q V1Message) = Some r1 → outcome (deliveries q V2Message) = Some r2 →
      send_address_publications_to_peer stamps call env1 env2 s p typed op1 op2 (is_ok r1 && is_ok r2)
        (record_outcomes (published s' q) p r1 r2 (call_now call)).

(** ** Once each, one penalty at most *)

(** What the tries of one message say about its outcome. *)
Definition settled (d : Delivery) : Prop :=
  ∃ r, outcome d = Some r ∧
    match r with
    | Ok _ => ∃ a, tried d = [a] ∧ accepted a
    | Err (SendFailed kind) => ∃ a, tried d = [a] ∧ attempt_result a = Err kind
    | Err _ => tried d = []
    end.

(** The same for V1, which may have nothing to send. *)
Definition settled_legacy (b1 : option (list Z)) (d : Delivery) : Prop :=
  match b1 with Some _ => settled d | None => d = mk_delivery [] (Some (Ok tt)) end.

Definition view v q : Delivery := deliveries q v.

Lemma on_registry_spares v (t : task Registry) k : spares (view v) k → spares (view v) (on_registry t k).
Proof. intros Hk. induction t as [|f next IH]; [done|]. intros q. split; [done|apply IH]. Qed.

Lemma with_delivery_other q v v' d : v' ≠ v → view v' (with_delivery q v d) = view v' q.
Proof. intros Hne. unfold view, with_delivery. cbn. by rewrite bool_decide_false. Qed.

Lemma with_delivery_same q v d : view v (with_delivery q v d) = d.
Proof. unfold view, with_delivery. cbn. by rewrite bool_decide_true. Qed.

Lemma settle_spares v v' r : v' ≠ v → spares (view v') (settle v r).
Proof. intros Hne q. split; [by apply with_delivery_other|done]. Qed.

Lemma after_failure_spares env v v' c e : v' ≠ v → spares (view v') (after_failure env v c e).
Proof.
  intros Hne. unfold after_failure. destruct (_ && _); [by apply settle_spares|by apply on_registry_spares, settle_spares].
Qed.

Lemma send_spares env v v' p topic bytes : v' ≠ v → spares (view v') (send_address_publication_bytes env v p topic bytes).
Proof.
  intros Hne q. split; [done|]. destruct (channels_for_peer _ p) as [|c cs]; [by apply settle_spares|].
  apply on_registry_spares. destruct (create_protocol_message _ _ _ _ _) as [frame|e]; [|by apply after_failure_spares].
  destruct (socket_parse c) as [addr|]; [|by apply after_failure_spares].
  intros q'. split; [destruct (sender_answer _ _ _); by apply (with_delivery_other q')|].
  destruct (sender_answer _ _ _) as [|chain]; [by apply settle_spares|by apply on_registry_spares, after_failure_spares].
Qed.

Lemma others_spare v t : others t → spares (view v) t.
Proof. intros [o ->]. by apply on_registry_spares. Qed.

Lemma on_registry_drives v Q (t : task Registry) k x : drives (view v) Q k x → drives (view v) Q (on_registry t k) x.
Proof. intros Hk. induction t as [|f next IH]; [done|]. intros q Hq. cbn. change (drives (view v) Q (on_registry (next (pub_registry q)) k) (view v q)). rewrite Hq. apply IH. Qed.

Lemma settle_drives v (Q : Delivery → Prop) r d : Q (mk_delivery (tried d) (Some r)) → drives (view v) Q (settle v r) d.
Proof. intros H q <-. cbn [drives]. by rewrite with_delivery_same. Qed.

Lemma after_failure_drives env v (Q : Delivery → Prop) c e d :
  Q (mk_delivery (tried d) (Some (Err e))) → drives (view v) Q (after_failure env v c e) d.
Proof.
  intros H. unfold after_failure. destruct (_ && _); [by apply settle_drives|by apply on_registry_drives, settle_drives].
Qed.

Lemma answered_view v c frame bytes answer q :
  view v (answered v c frame bytes answer q) =
    mk_delivery (tried (view v q) ++
      [mk_attempt c frame (match answer with Ok _ => Ok tt | Err chain => Err (classify_send_error chain) end)]) (outcome (view v q)).
Proof. by destruct answer; apply (with_delivery_same q). Qed.

Lemma send_settles env v p topic bytes :
  drives (view v) settled (send_address_publication_bytes env v p topic bytes) (mk_delivery [] None).
Proof.
  intros q Hq. rewrite Hq. destruct (channels_for_peer _ p) as [|c cs]; [apply settle_drives; by exists (Err PeerNotFound)|].
  apply on_registry_drives. destruct (create_protocol_message _ _ _ _ _) as [frame|e]; [|apply after_failure_drives; by exists (Err (Unframed e))].
  destruct (socket_parse c) as [addr|]; [|apply after_failure_drives; by exists (Err PeerNotFound)].
  intros q' Hq'. rewrite answered_view, Hq'. destruct (sender_answer _ _ _) as [[]|chain].
  - apply settle_drives. exists (Ok tt). split; [done|]. by eexists (mk_attempt _ _ _).
  - apply on_registry_drives, after_failure_drives. eexists (Err (SendFailed _)). split; [done|]. by eexists (mk_attempt _ _ _).
Qed.

Lemma legacy_settles env p b1 :
  drives (view V1Message) (settled_legacy b1) (send_legacy env p b1) (mk_delivery [] None).
Proof. destruct b1; [apply send_settles|by apply settle_drives]. Qed.

Lemma legacy_spares env v p b1 : v ≠ V1Message → spares (view v) (send_legacy env p b1).
Proof. intros Hv. destruct b1; [by apply send_spares|by apply settle_spares]. Qed.

(** ** The counter, and the registry *)

Definition accepted_tries (d : Delivery) : N :=
  N.of_nat (length (List.filter (λ a, match attempt_result a with Ok _ => true | Err _ => false end) (tried d))).
Definition accepted_messages q : N := accepted_tries (view V1Message q) + accepted_tries (view V2Message q).

(** Since [q], as many messages were counted as were accepted. *)
Definition counts_accepted q q' : Prop :=
  ∃ n, accepted_messages q' = (accepted_messages q + n)%N ∧ wrap_u64 (pub_count q') = wrap_u64 (pub_count q + n).

#[local] Instance counts_accepted_preorder : PreOrder counts_accepted.
Proof.
  split.
  - intros q. exists 0%N. by rewrite !N.add_0_r.
  - intros q1 q2 q3 (n & Hn & Hc) (m & Hm & Hd). exists (n + m)%N. split; [lia|].
    unfold wrap_u64 in *. rewrite Hd, N.add_assoc, <-N.Div0.add_mod_idemp_l, Hc, N.Div0.add_mod_idemp_l. done.
Qed.

Lemma counts_same q q' : deliveries q' = deliveries q → pub_count q' = pub_count q → counts_accepted q q'.
Proof. intros Hd Hc. exists 0%N. unfold accepted_messages, view. by rewrite Hd, Hc, !N.add_0_r. Qed.

(** What a send respects: the steps of the registry within [PR], and the
    records of the messages, within [P]. *)
Record respected (PR : Registry → Registry → Prop) (P : Publishing → Publishing → Prop) : Prop := {
  respected_registry : primitive_steps PR;
  respected_lift q r : PR (pub_registry q) r → P q (with_pub_registry q r);
  respected_read q : P q q;
  respected_outcome q v r : P q (with_delivery q v (mk_delivery (tried (deliveries q v)) (Some r)));
  respected_answer q v c frame bytes answer : P q (answered v c frame bytes answer q);
}.

Section respecting.
Context PR P (HP : respected PR P).

Lemma on_registry_all t k : all_steps PR t → all_steps P k → all_steps P (on_registry t k).
Proof using HP.
  intros Ht Hk. induction t as [|f next IH]; [done|]. intros q. destruct (Ht (pub_registry q)).
  split; [by apply (respected_lift _ _ HP)|by apply IH].
Qed.

Lemma settle_all v r : all_steps P (settle v r).
Proof using HP. intros q. split; [apply (respected_outcome _ _ HP)|done]. Qed.

Lemma after_failure_all env v c e : all_steps P (after_failure env v c e).
Proof using HP normalize_socket_addr.
  unfold after_failure. destruct (_ && _); [apply settle_all|]. apply on_registry_all, settle_all.
  exact (operation_all normalize_socket_addr PR (respected_registry _ _ HP) (RemoveChannel c)).
Qed.

Lemma send_all env v p topic bytes : all_steps P (send_address_publication_bytes env v p topic bytes).
Proof using HP normalize_socket_addr.
  intros q. split; [apply (respected_read _ _ HP)|]. destruct (channels_for_peer _ p) as [|c cs]; [apply settle_all|].
  apply on_registry_all; [exact (operation_all normalize_socket_addr PR (respected_registry _ _ HP) (SendOn c true (sender_now env)))|].
  destruct (create_protocol_message _ _ _ _ _) as [frame|e]; [|apply after_failure_all].
  destruct (socket_parse c) as [addr|]; [|apply after_failure_all].
  intros q'. split; [apply (respected_answer _ _ HP)|].
  destruct (sender_answer _ _ _) as [|chain]; [apply settle_all|apply on_registry_all, after_failure_all].
  apply drop_active_all; [apply HP|done].
Qed.

Lemma others_all t : others t → all_steps P t.
Proof using HP normalize_socket_addr. intros [o ->]. apply on_registry_all; [|done]. apply operation_all, HP. Qed.

(** The whole join respects [P]. *)
Lemma join_respects `{!PreOrder P} env1 env2 p b1 b2 q ts q' :
  rtc (join_step others)
    ((send_legacy env1 p b1, send_address_publication_bytes env2 V2Message p DHT_V2_TOPIC b2), ([], q))
    ((Tasks.Finished, Tasks.Finished), (ts, q')) → P q q'.
Proof using HP normalize_socket_addr.
  intros Hj. apply (join_all_steps _ P _ _ others_all Hj); [|apply send_all|done].
  destruct b1; [apply send_all|apply settle_all].
Qed.
End respecting.

Lemma counts_respected : respected (λ _ _, True) counts_accepted.
Proof.
  split; [done|intros; by apply counts_same|intros; by apply counts_same|..].
  - intros q v r. exists 0%N. unfold accepted_messages, view, with_delivery, accepted_tries. cbn.
    rewrite !N.add_0_r. by destruct v.
  - intros q v c frame bytes answer. exists (match answer with Ok _ => 1%N | Err _ => 0%N end).
    unfold accepted_messages, accepted_tries.
    assert (Hother : ∀ v', v' ≠ v → view v' (answered v c frame bytes answer q) = view v' q).
    { intros v' Hv. by destruct answer; apply (with_delivery_other q). }
    pose proof (answered_view v c frame bytes answer q) as Hview. split.
    + destruct v; rewrite Hview, Hother by done; cbn [tried]; rewrite List.filter_app, length_app;
        destruct answer; cbn; lia.
    + destruct answer; cbn; [|by rewrite N.add_0_r]. unfold fetch_add, wrap_u64. by rewrite N.Div0.mod_mod.
Qed.

Definition agents_kept q q' : Prop := keeps_agents (pub_registry q) (pub_registry q').

#[local] Instance agents_kept_preorder : PreOrder agents_kept.
Proof. split; [by intros q H|intros q1 q2 q3 H1 H2 H; by apply H2, H1]. Qed.

Lemma agents_respected : respected keeps_agents agents_kept.
Proof.
  split; [apply keeps_agents_primitive|by intros q r H|by intros q H|by intros q v r H|].
  intros q v c frame bytes [] H; exact H.
Qed.

(** ** The outcome of a publication *)

Hypothesis Hmeanwhile : ∀ i r, consistent r → consistent (meanwhile (instants i) r).

(** The sends of both messages, one try each, and their results. *)
Definition sent_once (op1 : option DhtNetworkOperation) (l1 l2 : list Attempt) (r1 r2 : result unit SendError) : Prop :=
  settled (mk_delivery l2 (Some r2)) ∧
  match op1 with Some _ => settled (mk_delivery l1 (Some r1)) | None => l1 = [] ∧ r1 = Ok tt end.

Lemma settled_with d r : settled d → outcome d = Some r → settled (mk_delivery (tried d) (Some r)).
Proof. by destruct d as [l o]; cbn; intros H ->. Qed.

Lemma encode_both_legacy p op1 op2 stamps b1 b2 :
  encode_both p op1 op2 stamps = Ok (b1, b2) → is_Some b1 ↔ is_Some op1.
Proof.
  unfold encode_both. destruct op1 as [op|]; [|by destruct (encode_publication _ _ _); intros [= <- _]].
  destruct (encode_publication _ op _); [|done]. destruct (encode_publication _ op2 _); [|done]. by intros [= <- _].
Qed.

Lemma joined_settles env1 env2 p b1 b2 s ts q :
  rtc (join_step others)
    ((send_legacy env1 p b1, send_address_publication_bytes env2 V2Message p DHT_V2_TOPIC b2), ([], publishing_of s))
    ((Tasks.Finished, Tasks.Finished), (ts, q)) →
  settled_legacy b1 (view V1Message q) ∧ settled (view V2Message q).
Proof.
  intros Hj. split.
  - apply (join_drives others (view V1Message) (others_spare _) true (settled_legacy b1) _ _ Hj); [by apply send_spares|done|apply legacy_settles].
  - apply (join_drives others (view V2Message) (others_spare _) false settled _ _ Hj); [by apply legacy_spares|done|apply send_settles].
Qed.

(** The sends of one publication always come to an end. *)
Theorem publication_ends stamps call env1 env2 s p typed op1 op2 :
  ∃ b s', send_address_publications_to_peer stamps call env1 env2 s p typed op1 op2 b s'.
Proof.
  destruct (encode_both p op1 op2 stamps) as [[b1 b2]|e] eqn:Henc; [|do 2 eexists; by eapply publication_unencodable].
  destruct (ensure_peer_channel normalize_socket_addr instants call s p typed) as [[[]|e] s'] eqn:Hens;
    [|do 2 eexists; by eapply publication_unconnected].
  destruct (join_completes others (send_legacy env1 p b1) (send_address_publication_bytes env2 V2Message p DHT_V2_TOPIC b2)
    [] (publishing_of s')) as [q Hq].
  apply joined_settles in Hq as Hset. destruct Hset as [H1 H2].
  destruct H2 as (r2 & Hr2 & _).
  assert (∃ r1, outcome (deliveries q V1Message) = Some r1) as [r1 Hr1].
  { destruct b1; [destruct H1 as (r1 & Hr1 & _); by eexists|]. unfold view in H1. cbn in H1. rewrite H1. by eexists. }
  do 2 eexists. by eapply publication_sent.
Qed.

(** A publication to one peer is not retried.  When both messages could be encoded and a channel was there, each of them has
    been tried at most once, the call reports success exactly when the transport accepted both, as many messages were counted
    as were accepted, and the peer is charged once if a failure was its own and not at all otherwise; without a channel it is
    charged at most by the dial, and a local encoding failure does nothing at all.  No correlation state is left. *)
Theorem publication_sent_once stamps call env1 env2 s p typed op1 op2 b s' :
  send_address_publications_to_peer stamps call env1 env2 s p typed op1 op2 b s' →
  rpc_operations s' = rpc_operations s ∧
  (consistent (out_registry (rpc_outbound s)) → agents_inv (out_registry (rpc_outbound s'))) ∧
  match encode_both p op1 op2 stamps, ensure_peer_channel normalize_socket_addr instants call s p typed with
  | Err _, _ => b = false ∧ s' = s
  | Ok _, (Err e, _) =>
      b = false ∧ attempts (rpc_outbound s') = attempts (rpc_outbound s) ∧
      trust_of s' = charged s p (charged_at call (Err (NoChannel e)))
  | Ok _, (Ok _, _) =>
      ∃ l1 l2 r1 r2, sent_once op1 l1 l2 r1 r2 ∧
        attempts (rpc_outbound s') = attempts (rpc_outbound s) ++ l1 ++ l2 ∧
        b = is_ok r1 && is_ok r2 ∧
        trust_of s' = charged s p (if delivery_failed r1 || delivery_failed r2 then Some (call_now call) else None) ∧
        wrap_u64 (publish_addr_tx_count (rpc_counts s')) =
          wrap_u64 (publish_addr_tx_count (rpc_counts s) +
                    (accepted_tries (mk_delivery l1 None) + accepted_tries (mk_delivery l2 None)))
  end.
Proof using Hmeanwhile.
  destruct 1 as [e Henc|b1 b2 e s' Henc Hens|b1 b2 s' ts q r1 r2 Henc Hens Hj Hr1 Hr2]; rewrite Henc;
    [split_and!; [done|apply con_agents|done..]|..];
    pose proof (ensure_effects normalize_socket_addr instants Hmeanwhile call s p typed) as Heff; rewrite Hens in *;
    destruct Heff as (Hops & Hcounts & Hatt & Hcon & Htrust).
  { split_and!; [done| |done..]. intros H. by apply con_agents, Hcon. }
  apply joined_settles in Hj as Hset. destruct Hset as [H1 H2].
  pose proof (join_respects _ _ counts_respected _ _ _ _ _ _ _ _ Hj) as (n & Hn & Hc).
  pose proof (join_respects _ _ agents_respected _ _ _ _ _ _ _ _ Hj) as Hagents.
  assert (Hsame : ∀ now, rpc_operations (record_outcomes (published s' q) p r1 r2 now) = rpc_operations s' ∧
    rpc_outbound (record_outcomes (published s' q) p r1 r2 now) = rpc_outbound (published s' q) ∧
    rpc_counts (record_outcomes (published s' q) p r1 r2 now) = rpc_counts (published s' q)).
  { intros now. unfold record_outcomes. by destruct (_ || _). }
  destruct (Hsame (call_now call)) as (-> & Ho & Hcn). rewrite Ho, Hcn. split_and!; [done|intros H; by apply Hagents, con_agents, Hcon|].
  exists (tried (deliveries q V1Message)), (tried (deliveries q V2Message)), r1, r2. split_and!.
  - split; [by apply settled_with|]. apply encode_both_legacy in Henc.
    unfold view in H1. destruct b1, op1; cbn in H1; [by apply settled_with|..].
    + by destruct (proj1 Henc ltac:(by eexists)).
    + by destruct (proj2 Henc ltac:(by eexists)).
    + rewrite H1 in Hr1 |- *. by simplify_eq/=.
  - cbn. by rewrite Hatt.
  - done.
  - unfold record_outcomes. destruct (_ || _); [|exact Htrust].
    change (record_peer_failure (trust_of s') p (call_now call) = record_peer_failure (trust_of s) p (call_now call)). by rewrite Htrust.
  - cbn. rewrite Hc. cbn. rewrite Hcounts. unfold accepted_messages in Hn. unfold view in Hn. cbn in Hn.
    unfold accepted_tries in *. cbn in *. by rewrite Hn.
Qed.
End publishing.
