(* ===== verification/Events.v ===== *)
(** * The event loops

    The two tasks that turn events into work: the lifecycle monitor of
    [src/transport_handle.rs], which follows the connections of the transport
    and announces this node's identity on new ones, and the event handler of
    [src/dht_network_manager.rs], which gives every authenticated DHT message
    to a handler task of its own, with as many handlers running at once as the
    semaphore has permits. *)

From stdpp Require Import prelude gmap strings.
From S2P Require Import Prelude Keys Ip Address PeerRecord SignedAddress Tasks Wire Channels Receiving Sending Rpc.

(** ** The lifecycle monitor *)

Section lifecycle.
Context `{TL : TransportLib} `{CL : CryptoLib} `{WC : WireCodec} `{ST : SocketText} `{HO : HashOrder}.
Context (normalize_socket_addr : SocketAddr → SocketAddr).
Context (identity : NodeIdentity) (own_user_agent : string).

Inductive ConnectionEvent :=
  | Established (remote_address : SocketAddr) (public_key : option (list Z))
  | Lost (remote_address : SocketAddr) (reason : string)
  | Failed (remote_address : SocketAddr) (reason : string)
  | PeerAddressUpdated (peer_addr advertised_addr : SocketAddr).

Definition on_connection_event (ev : ConnectionEvent) (now : Z) : task Registry :=
  match ev with
  | Established remote _ => connection_established normalize_socket_addr remote now
  | Lost remote _ | Failed remote _ => connection_lost normalize_socket_addr remote
  | PeerAddressUpdated _ _ => Finished
  end.

Record AnnounceTraffic := mk_announce_traffic { identity_announce_tx_bytes : N; identity_announce_tx_count : N }.

(** The announcement on a new connection, sent by a task of its own. *)
Definition announce_identity (clock : option N) (answer : list Z → result unit (list (option EndpointError)))
    (c : SentTraffic * AnnounceTraffic) : SentTraffic * AnnounceTraffic :=
  let '(t, a) := c in
  match create_identity_announce_bytes identity own_user_agent clock with
  | Err _ => (t, a)
  | Ok bytes =>
      let len := N.of_nat (length bytes) in
      match answer bytes with
      | Err _ => (record_failed_tx t (length bytes), a)
      | Ok _ =>
          (mk_sent (fetch_add (wire_tx_bytes t) len) (fetch_add (wire_tx_count t) 1) (overhead_tx_bytes t)
             (wire_failed_tx_bytes t) (wire_failed_tx_count t),
           mk_announce_traffic (fetch_add (identity_announce_tx_bytes a) len) (fetch_add (identity_announce_tx_count a) 1))
      end
  end.

(** Events at their times, latest last. *)
Definition monitor_run (s : Registry) (events : list (ConnectionEvent * Z)) : Registry :=
  foldl (λ s e, run (on_connection_event e.1 e.2) s) s events.

(** ** What the monitor keeps *)

Definition event_channel (ev : ConnectionEvent) : option string :=
  match ev with
  | Established a _ | Lost a _ | Failed a _ => Some (canonical_channel_id normalize_socket_addr a)
  | PeerAddressUpdated _ _ => None
  end.
Definition is_established (ev : ConnectionEvent) : bool := match ev with Established _ _ => true | _ => false end.

(** Whether a channel is up after the events. *)
Definition channel_up (up : bool) (events : list ConnectionEvent) (c : string) : bool :=
  foldl (λ up ev, if bool_decide (event_channel ev = Some c) then is_established ev else up) up events.

Lemma removal_spares_active c t s :
  (∀ s', active_connections (run t s') = active_connections s') →
  active_connections (run (remove_channel_mappings c t) s) = active_connections s.
Proof.
  intros Ht. unfold remove_channel_mappings. cbn [run]. set (s1 := with_channel_to_peers s _).
  change (active_connections s) with (active_connections s1). clearbody s1.
  destruct (channel_to_peers s !! c) as [ps|]; [|apply Ht]. revert s1.
  induction (set_iter ps) as [|p rest IH]; intros s1; cbn [scrub_each]; [apply Ht|]. cbn [run].
  assert (Hscrub : active_connections (scrub_peer c p s1) = active_connections s1).
  { unfold scrub_peer. destruct (peer_to_channel s1 !! p); [by case_bool_decide|done]. }
  destruct (became_empty c s1 p); cbn [run step]; rewrite IH; exact Hscrub.
Qed.

(** The monitor's view of the connections: handled one at a time, the active channels are those whose last event was their
    establishment. *)
Theorem monitor_active s events c :
  c ∈ active_connections (monitor_run s events) ↔
    channel_up (bool_decide (c ∈ active_connections s)) (fst <$> events) c = true.
Proof.
  unfold channel_up, monitor_run. revert s. induction events as [|[ev now] events IH]; intros s; cbn [foldl fmap list_fmap fst snd];
    [by rewrite bool_decide_eq_true|]. rewrite IH. apply eq_iff_eq_true. f_equiv.
  assert (Hlost : ∀ remote, active_connections (run (connection_lost normalize_socket_addr remote) s) =
    active_connections s ∖ {[canonical_channel_id normalize_socket_addr remote]}).
  { intros remote. unfold connection_lost. cbn [run step]. by rewrite removal_spares_active. }
  assert (Hback : ∀ b, (bool_decide (c ∈ active_connections (run (on_connection_event ev now) s)) = b) →
    (if bool_decide (event_channel ev = Some c) then is_established ev else bool_decide (c ∈ active_connections s)) = b).
  { intros b <-. destruct ev as [a k|a r|a r|a a']; cbn [event_channel on_connection_event is_established]; rewrite ?Hlost;
      repeat case_bool_decide; try done; simplify_eq; cbn in *; set_solver. }
  by rewrite (Hback _ eq_refl).
Qed.
End lifecycle.

(** ** The event handler *)

Section handlers.
Context `{TL : TransportLib}.

(** The bytes of a DHT message, who sent it over which address, and the topic
    the answer goes out on. *)
Record Job := mk_job { job_topic : string; job_source : PeerId; job_transport : option MultiAddr; job_data : list Z }.

Inductive EventAction :=
  | PeerArrived (peer : PeerId) (user_agent : string)
  | PeerLeft (peer : PeerId)
  | HandleDht (job : Job)
  | HandleCanary (source : PeerId) (source_addr : option SocketAddr) (data : list Z)
  | Ignored.

(** One event of the transport. *)
Definition dispatch_event (ev : P2PEvent) : EventAction :=
  match ev with
  | PeerConnected p agent => PeerArrived p agent
  | PeerDisconnected p => PeerLeft p
  | Message topic source transport_source _ data =>
      if String.eqb topic DHT_V1_TOPIC || String.eqb topic DHT_V2_TOPIC then
        match source with
        | Some p => HandleDht (mk_job topic p transport_source data)
        | None => Ignored
        end
      else if String.eqb topic RELAY_CANARY_WIRE_TOPIC then
        match source with
        | Some p => HandleCanary p (transport_source ≫= socket_addr) data
        | None => Ignored
        end
      else Ignored
  end.

(** What the receiver of the broadcast hears. *)
Inductive Heard := HeardEvent (ev : P2PEvent) | HeardLagged (skipped : N) | HeardClosed.

(** How a handler ends. *)
Inductive HandlerEnd := HandlerAnswer (response : list Z) | HandlerSilent | HandlerError | HandlerTimeout.

(** [actions] and [answers] are histories: what the handler of peers and
    canaries was given, and the responses that were sent, with the message
    they answer. *)
Record HandlerState := mk_handler_state {
  free_permits : nat;
  waiting : list Job;
  handling : list Job;
  actions : list EventAction;
  answers : list (Job * list Z);
  stopped : bool;
}.
Implicit Types h : HandlerState.

Definition MIN_CONCURRENT_OPERATIONS : nat := 10.
Definition handler_permits (max_concurrent_operations : nat) : nat := Nat.max max_concurrent_operations MIN_CONCURRENT_OPERATIONS.
Definition handlers_new (max_concurrent_operations : nat) : HandlerState :=
  mk_handler_state (handler_permits max_concurrent_operations) [] [] [] [] false.

Definition hear h (x : Heard) : HandlerState :=
  match x with
  | HeardEvent ev =>
      match dispatch_event ev with
      | HandleDht job => mk_handler_state (free_permits h) (waiting h ++ [job]) (handling h) (actions h) (answers h) (stopped h)
      | Ignored => h
      | a => mk_handler_state (free_permits h) (waiting h) (handling h) (actions h ++ [a]) (answers h) (stopped h)
      end
  | HeardLagged _ => h
  | HeardClosed => mk_handler_state (free_permits h) (waiting h) (handling h) (actions h) (answers h) true
  end.

Definition handled h (job : Job) (l1 l2 : list Job) (r : HandlerEnd) : HandlerState :=
  mk_handler_state (S (free_permits h)) (waiting h) (l1 ++ l2) (actions h)
    (match r with HandlerAnswer response => answers h ++ [(job, response)] | _ => answers h end) (stopped h).

(** The loop hears events until it stops; each waiting handler takes a permit
    when there is one and gives it back at its end, whatever the end. *)
Inductive handler_step : HandlerState → option Heard → HandlerState → Prop :=
  | step_hear h x : stopped h = false → handler_step h (Some x) (hear h x)
  | step_shutdown h : handler_step h None (hear h HeardClosed)
  | step_acquire h l1 job l2 n :
      waiting h = l1 ++ job :: l2 → free_permits h = S n →
      handler_step h None (mk_handler_state n (l1 ++ l2) (job :: handling h) (actions h) (answers h) (stopped h))
  | step_handled h l1 job l2 r : handling h = l1 ++ job :: l2 → handler_step h None (handled h job l1 l2 r).

(** What was heard so far, latest last, and the state. *)
Inductive handler_run (max : nat) : list Heard → HandlerState → Prop :=
  | handler_start : handler_run max [] (handlers_new max)
  | handler_more heard h x h' :
      handler_run max heard h → handler_step h x h' →
      handler_run max (heard ++ from_option (λ x, [x]) [] x) h'.

(** The DHT messages among what was heard. *)
Definition jobs_of (heard : list Heard) : list Job :=
  omap (λ x, match x with
             | HeardEvent ev => match dispatch_event ev with HandleDht job => Some job | _ => None end
             | _ => None
             end) heard.

(** A message of a peer the transport authenticated, on a DHT topic. *)
Definition authentic (ev : P2PEvent) (job : Job) : Prop :=
  ∃ timestamp, ev = Message (job_topic job) (Some (job_source job)) (job_transport job) timestamp (job_data job) ∧
    (job_topic job = DHT_V1_TOPIC ∨ job_topic job = DHT_V2_TOPIC).

Lemma dispatch_authentic ev job : dispatch_event ev = HandleDht job → authentic ev job.
Proof.
  destruct ev as [topic source transport_source timestamp data| |]; [|done..]. cbn.
  destruct (String.eqb_spec topic DHT_V1_TOPIC), (String.eqb_spec topic DHT_V2_TOPIC); cbn; try destruct (String.eqb _ _);
    destruct source; intros [= <-]; exists timestamp; cbn; tauto.
Qed.

Lemma jobs_of_app l l' : jobs_of (l ++ l') = jobs_of l ++ jobs_of l'.
Proof. apply omap_app. Qed.

Record handlers_ok (max : nat) (heard : list Heard) h : Prop := {
  ok_permits : free_permits h + length (handling h) = handler_permits max;
  ok_jobs : ∃ dropped, waiting h ++ handling h ++ (fst <$> answers h) ++ dropped ≡ₚ jobs_of heard;
}.

Lemma hear_ok max heard h x : handlers_ok max heard h → handlers_ok max (heard ++ [x]) (hear h x).
Proof.
  intros [Hp (dropped & Hj)]. split.
  { destruct x as [ev| |]; [|done..]. cbn. by destruct (dispatch_event ev). }
  exists dropped. rewrite jobs_of_app, <-Hj. destruct x as [ev| |]; cbn; [|(by rewrite app_nil_r)..].
  destruct (dispatch_event ev) as [| |job| |]; cbn; try by rewrite app_nil_r.
  solve_Permutation.
Qed.

Lemma handler_step_ok max heard h x h' :
  handler_step h x h' → handlers_ok max heard h → handlers_ok max (heard ++ from_option (λ x, [x]) [] x) h'.
Proof.
  destruct 1 as [h x Hs|h|h l1 job l2 n Hw Hf|h l1 job l2 r Hh]; intros Hok; cbn [from_option]; [by apply hear_ok|..];
    rewrite app_nil_r; destruct Hok as [Hp (dropped & Hj)]; split; cbn in *.
  - done.
  - by exists dropped.
  - lia.
  - exists dropped. rewrite <-Hj, Hw. solve_Permutation.
  - rewrite Hh in Hp. rewrite length_app in *. cbn in Hp. lia.
  - destruct r as [response| | |]; [exists dropped|exists (job :: dropped)..]; rewrite <-Hj, Hh, ?fmap_app; cbn; solve_Permutation.
Qed.

(** However events, permits and handlers interleave, at most as many DHT handlers run as there are permits, every permit
    comes back, and each authenticated message on a DHT topic is handled at most once and answered at most once, on its topic
    and to the peer that sent it; nothing else is ever answered. *)
Theorem handlers_sound max heard h :
  handler_run max heard h →
  free_permits h + length (handling h) = handler_permits max ∧
  (∃ dropped, waiting h ++ handling h ++ (fst <$> answers h) ++ dropped ≡ₚ jobs_of heard) ∧
  ∀ job response, (job, response) ∈ answers h → ∃ ev, HeardEvent ev ∈ heard ∧ authentic ev job.
Proof.
  intros Hrun. assert (Hok : handlers_ok max heard h).
  { induction Hrun as [|heard h x h' _ IH Hstep]; [split; [cbn; lia|by exists []]|by eapply handler_step_ok]. }
  destruct Hok as [Hp Hj]. split_and!; [done..|]. intros job response Hin. destruct Hj as (dropped & Hj).
  assert (job ∈ jobs_of heard) as Hjob.
  { rewrite <-Hj. rewrite !elem_of_app. right. right. left. apply list_elem_of_fmap. by exists (job, response). }
  apply list_elem_of_omap in Hjob as (x & Hx & Hd). destruct x as [ev| |]; [|done..]. exists ev. split; [done|].
  apply dispatch_authentic. by destruct (dispatch_event ev); simplify_eq.
Qed.
End handlers.
