(* ===== verification/NetworkLookup.v ===== *)
(** * Network lookups

    [NativeFindNodeQuery] and the lookups built on it in
    [src/dht_network_manager.rs]: the adapter that runs an iterative lookup
    over FIND_NODE requests, the gossip it feeds into the routing table, and
    the witnessed close group.  This file composes the lookup engine, the
    walk that drives it, the report winners, the dial caches and the routing
    table.

    The network's answers and the other tasks of the node are parameters: at
    every point where the adapter awaits, a [Moment] says what the transport
    and the clock show and what the rest of the node did to the manager
    meanwhile. *)

From Stdlib Require Import SpecFloat.
From stdpp Require Import prelude sorting gmap strings.
From S2P Require Import Prelude Float Keys BTree Lookup LookupRun Ip Address PeerRecord SelfAddress SignedAddress DialFailure DialPolicy ClientRouting NodeInfo KBucket RoutingTable Diversity Engine Admission EngineQueries Publications Messages.
Import Lookup LookupRun.

Section network_lookup.
Context `{TL : TransportLib} `{PL : !PostcardLib} `{CL : CryptoLib} `{HL : HexLib} `{HO : HashOrder}.
(** The transport crate's canonical form of a socket; this node, its configuration and its own addresses. *)
Context (normalize_socket_addr : SocketAddr → SocketAddr).
Context (self : PeerId) (config_loopback : bool) (own : list (MultiAddr * AddressType)).

Record Moment := mk_moment {
  moment_context : DialAddressContext;
  connected : PeerId → bool;
  clock : Z;
  meanwhile : Manager → Manager;
}.
Context (moments : nat → Moment).

(** The answer of one request: the transport address it came from and the
    result, [None] when the request failed. *)
Record Answer := mk_answer { answer_source : option MultiAddr; answer : option DhtNetworkResult }.

(** The requests of a batch in the order they complete, by position; the
    first argument tells the batches of a lookup apart.  A request completes
    once: repeated positions are passed over. *)
Context (network : nat → LookupKey → list DHTNode → list (nat * Answer)).

Implicit Types (m : Manager) (node : DHTNode) (mo : Moment).

Definition around mo (source : option MultiAddr) : Surroundings :=
  mk_surroundings self config_loopback (moment_context mo) source.

(** ** Gossip *)

Definition gossiped_node_with_trusted_addresses (ctx : DialAddressContext) (source : option MultiAddr) node : DHTNode :=
  with_addresses node (filter_lan_addresses_for_store_with_context (PeerRecord.typed_addresses node) source ctx).

Fixpoint merge_each_upgrade (e : DhtCoreEngine) (p : PeerId) (typed : list (MultiAddr * AddressType))
    : option DhtCoreEngine :=
  match typed with
  | [] => Some e
  | (addr, ty) :: rest => '(_, e) ← engine_merge_upgrade_only e p addr ty; merge_each_upgrade e p rest
  end.

Definition merge_trusted_gossiped_typed_addresses_from_source m mo node (source : option MultiAddr) : option Manager :=
  match address_authority node ≫= publication with
  | Some proof => '(_, m) ← apply_signed_address_set m (around mo source) proof false (clock mo); Some m
  | None =>
      let p := node_peer_id node in
      let typed := List.filter (λ q, is_quic q.1) (PeerRecord.typed_addresses node) in
      let publish_seq := from_option quic_sequence 0%N (address_authority node) in
      if (publish_seq =? 0)%N && (negb (sequence_of m p =? 0)%N || bool_decide (is_Some (publication_of m p)))
      then Some m
      else if negb (publish_seq =? 0)%N
      then '(_, e) ← engine_replace_from_gossip (dht m) p typed publish_seq (clock mo); Some (with_dht m e)
      else e ← merge_each_upgrade (dht m) p typed; Some (with_dht m e)
  end.

Definition merge_trusted_gossiped_typed_addresses m mo node : option Manager :=
  merge_trusted_gossiped_typed_addresses_from_source m mo node None.

(** [merge_gossiped_typed_addresses]: a hint from outside; what it claims of
    authority is dropped. *)
Definition merge_gossiped_typed_addresses m mo node : option Manager :=
  merge_trusted_gossiped_typed_addresses m mo
    (gossiped_node_with_trusted_addresses (moment_context mo) None (with_authority node None None)).

(** The candidates and the transcript of an answer: its closest nodes, this
    node itself left out; one reading of the local context per answer. *)
Definition trusted_find_node_response_nodes (ctx : DialAddressContext) (nodes : list DHTNode)
    (source : option MultiAddr) (key : Key) (candidate_limit transcript_limit : nat)
    : list DHTNode * list DHTNode :=
  let sorted := take (Nat.max candidate_limit transcript_limit)
                  (sort_by_key (λ n, xor_distance (node_peer_id n) key) nodes) in
  let trusted := imap (λ i n, (i, gossiped_node_with_trusted_addresses ctx source n)) sorted in
  let others := List.filter (λ p, negb (bool_decide (node_peer_id p.2 = self))) trusted in
  (snd <$> List.filter (λ p, (p.1 <? candidate_limit)%nat) others,
   snd <$> List.filter (λ p, (p.1 <? transcript_limit)%nat) others).

(** ** The adapter *)

Record NativeFindNodeQuery := mk_query {
  q_manager : Manager;
  tick : nat;
  transcript : gmap PeerId (list DHTNode);
  subject_reports : gmap PeerId SubjectReports;
  contacted : gset PeerId;
}.
Implicit Types q : NativeFindNodeQuery.

Definition with_manager q m : NativeFindNodeQuery :=
  mk_query m (tick q) (transcript q) (subject_reports q) (contacted q).

(** An await: the rest of the node has worked meanwhile. *)
Definition awake q : Moment * NativeFindNodeQuery :=
  let mo := moments (tick q) in
  (mo, mk_query (meanwhile mo (q_manager q)) (S (tick q)) (transcript q) (subject_reports q) (contacted q)).

Definition exhausted q node : bool * NativeFindNodeQuery :=
  let '(mo, q) := awake q in
  let m := q_manager q in
  let '(r, c) := lookup_candidate_dial_plan_is_exhausted normalize_socket_addr node (connected mo (node_peer_id node)) (moment_context mo)
                   (dial_failure_cache m) (clock mo) in
  (r, with_manager q (with_cache m c)).

Definition merge_gossip q node : option NativeFindNodeQuery :=
  let '(mo, q) := awake q in
  with_manager q <$> merge_trusted_gossiped_typed_addresses (q_manager q) mo node.

(** [query_find_node_batch]: the requests that completed, each with the peer
    it asked; the node an answered request used is merged. *)
Fixpoint query_find_node_batch q (batch : list DHTNode) (finished : gset nat) (completions : list (nat * Answer))
    : option (list (PeerId * Answer) * NativeFindNodeQuery) :=
  match completions with
  | [] => Some ([], q)
  | (i, a) :: rest =>
      match batch !! i with
      | Some node =>
          if bool_decide (i ∈ finished) then query_find_node_batch q batch finished rest
          else
            q ← (if bool_decide (is_Some (answer a)) then merge_gossip q node else Some (awake q).2);
            '(results, q) ← query_find_node_batch q batch ({[i]} ∪ finished) rest;
            Some ((node_peer_id node, a) :: results, q)
      | None => query_find_node_batch q batch finished rest
      end
  end.

Definition add_report (reports : gmap PeerId SubjectReports) (responder : PeerId) node : gmap PeerId SubjectReports :=
  <[node_peer_id node := <[responder := node]> (default ∅ (reports !! node_peer_id node))]> reports.

(** The candidates of one answer: new peers that can be dialled, each as the
    winner among the reports about it so far. *)
Fixpoint report_candidates q (responder : PeerId) (nodes : list DHTNode)
    : option (list DHTNode * NativeFindNodeQuery) :=
  match nodes with
  | [] => Some ([], q)
  | node :: rest =>
      if bool_decide (node_peer_id node ∈ contacted q) then report_candidates q responder rest
      else
        let '(gone, q) := exhausted q node in
        if gone : bool then report_candidates q responder rest
        else
          q ← merge_gossip q node;
          let reports := add_report (subject_reports q) responder node in
          let q := mk_query (q_manager q) (tick q) (transcript q) reports (contacted q) in
          '(candidates, q) ← report_candidates q responder rest;
          Some (match compute_winner (node_peer_id node) (default ∅ (reports !! node_peer_id node)) with
                | Some (_, winner) => winner :: candidates
                | None => candidates
                end, q)
  end.

(** [forget_rejecting_peer]; the events and the disconnection are not part of
    the model. *)
Definition forget_rejecting_peer q (p : PeerId) : option NativeFindNodeQuery :=
  let '(_, q) := awake q in
  '(_, e) ← remove_node_by_id (dht (q_manager q)) p; Some (with_manager q (with_dht (q_manager q) e)).

Definition record_responder_view q (view_count : option nat) (responder : PeerId) (view : list DHTNode)
    : NativeFindNodeQuery :=
  match view_count with
  | Some _ => mk_query (q_manager q) (tick q) (<[responder := view]> (transcript q)) (subject_reports q) (contacted q)
  | None => q
  end.

Definition process_answer q (view_count : option nat) (target : LookupKey) (peer : PeerId) (a : Answer)
    : option (LookupQueryOutcome DHTNode * NativeFindNodeQuery) :=
  match answer a with
  | Some (NodesFound _ nodes) =>
      let '(mo, q) := awake q in
      let '(candidate_nodes, view) :=
        trusted_find_node_response_nodes (moment_context mo) nodes (answer_source a) target (k_value (dht (q_manager q)))
          (default 0 view_count) in
      let q := record_responder_view q view_count peer view in
      '(candidates, q) ← report_candidates q peer candidate_nodes;
      Some (OSucceeded peer candidates, q)
  | Some PeerRejected => q ← forget_rejecting_peer q peer; Some (OFailed peer, q)
  | Some _ => Some (OSucceeded peer [], q)
  | None => Some (OFailed peer, q)
  end.

Fixpoint process_answers q (view_count : option nat) (target : LookupKey) (results : list (PeerId * Answer))
    : option (list (LookupQueryOutcome DHTNode) * NativeFindNodeQuery) :=
  match results with
  | [] => Some ([], q)
  | (peer, a) :: rest =>
      '(o, q) ← process_answer q view_count target peer a;
      '(outcomes, q) ← process_answers q view_count target rest;
      Some (o :: outcomes, q)
  end.

Definition native_query_batch (view_count : option nat) (target : LookupKey) (batch : list DHTNode) q
    : option (list (LookupQueryOutcome DHTNode) * NativeFindNodeQuery) :=
  let q := mk_query (q_manager q) (tick q) (transcript q) (subject_reports q)
             (contacted q ∪ list_to_set (node_peer_id <$> batch)) in
  '(results, q) ← query_find_node_batch q batch ∅ (network (tick q) target batch);
  process_answers q view_count target results.

(** The adapter as [run_iterative_lookup] uses it.  It has no errors of its
    own: [tt] is a panic. *)
Definition native_query (view_count : option nat) : LookupQuery DHTNode unit NativeFindNodeQuery :=
  {| is_candidate_eligible node q := let '(gone, q) := exhausted q node in (q, Ok (negb gone));
     query_batch target _ _ batch q :=
       match native_query_batch view_count target batch q with
       | Some (outcomes, q) => (q, Ok outcomes)
       | None => (q, Err tt)
       end;
     candidate_evicted p q :=
       (mk_query (q_manager q) (tick q) (transcript q) (delete p (subject_reports q)) (contacted q), Ok tt) |}.

(** ** The lookup *)

Inductive LookupFailure := RoutingError (e : LookupError) | UnexpectedAnswer (p : PeerId) | Panicked.

Record FindNodeLookupOutcome := mk_find_outcome {
  closest_nodes : list DHTNode;
  outcome_transcript : gmap PeerId (list DHTNode);
}.

Definition own_node : DHTNode :=
  {| node_peer_id := self; addresses := own.*1; address_types := own.*2; distance := None;
     reliability := SELF_RELIABILITY_SCORE; address_authority := None |}.

(** The nodes the local table starts the lookup with. *)
Fixpoint seed_candidates q (l : IterativeLookup DHTNode) (nodes : list DHTNode)
    : IterativeLookup DHTNode * NativeFindNodeQuery :=
  match nodes with
  | [] => (l, q)
  | node :: rest =>
      if is_contactable l (node_peer_id node) then
        let '(gone, q) := exhausted q node in
        if gone : bool then seed_candidates q l rest
        else seed_candidates q (add_candidate node l).2 rest
      else seed_candidates q l rest
  end.

(** [interrupted] is the state of the adapter when the deadline drops the
    walk inside one of its awaits. *)
Definition find_closest_nodes_network_with_deadline m (key : Key) (count : nat) (view_count : option nat)
    (deadline : option nat) (interrupted : NativeFindNodeQuery)
    : option (result FindNodeLookupOutcome LookupFailure * option (IterativeLookup DHTNode) * NativeFindNodeQuery) :=
  match new key (saorsa count) with
  | Err e => Some (Err (RoutingError e), None, mk_query m 0 ∅ ∅ {[self]})
  | Ok l =>
      let l := add_known_result own_node l in
      let q := mk_query m 0 ∅ ∅ {[self]} in
      let '(mo, q) := awake q in
      let '(l, q) := seed_candidates q l (find_closest_nodes_local (q_manager q) (around mo None) key count) in
      let query := native_query view_count in
      let q' := match run_lookup_rounds query (round_fuel l) (mk_st l q deadline) with
                | Done _ st => wq st
                | _ => interrupted
                end in
      '(r, l) ← run_iterative_lookup query l q deadline;
      let found := mk_find_outcome (apply_lookup_report_winners (results l) (subject_reports q') key count) (transcript q') in
      Some (match r with
            | Ok _ | Err RunTimedOut => Ok found
            | Err (RunLookup e) => Err (RoutingError e)
            | Err (UnexpectedResponder p) => Err (UnexpectedAnswer p)
            | Err (RunQuery _) => Err Panicked
            end, Some l, q')
  end.

Definition find_closest_nodes_network m (key : Key) (count : nat) (deadline : option nat) (interrupted : NativeFindNodeQuery)
    : option (result (list DHTNode) LookupFailure) :=
  '(r, _, _) ← find_closest_nodes_network_with_deadline m key count None deadline interrupted;
  Some (match r with Ok out => Ok (closest_nodes out) | Err e => Err e end).

(** ** Witnessed close groups *)

(** The views the transcript has of the initial group, and the members
    without one; a view is taken out of the transcript. *)
Fixpoint split_witnessed_transcript_views (initial : list DHTNode) (t : gmap PeerId (list DHTNode))
    : list (PeerId * list DHTNode) * list DHTNode :=
  match initial with
  | [] => ([], [])
  | node :: rest =>
      let '(views, missing) := split_witnessed_transcript_views rest (delete (node_peer_id node) t) in
      match t !! node_peer_id node with
      | Some view => ((node_peer_id node, view) :: views, missing)
      | None => (views, node :: missing)
      end
  end.

Fixpoint merge_each_gossip q (nodes : list DHTNode) : option NativeFindNodeQuery :=
  match nodes with
  | [] => Some q
  | node :: rest => q ← merge_gossip q node; merge_each_gossip q rest
  end.

Fixpoint merge_views q (views : list (PeerId * list DHTNode)) : option NativeFindNodeQuery :=
  match views with
  | [] => Some q
  | v :: rest => q ← merge_each_gossip q v.2; merge_views q rest
  end.

(** The views of the members asked again. *)
Fixpoint requeried_views q (key : Key) (view_count : nat) (results : list (PeerId * Answer))
    : option (list (PeerId * list DHTNode) * NativeFindNodeQuery) :=
  match results with
  | [] => Some ([], q)
  | (responder, a) :: rest =>
      match answer a with
      | Some (NodesFound _ nodes) =>
          let '(mo, q) := awake q in
          let trusted := (trusted_find_node_response_nodes (moment_context mo) nodes (answer_source a) key 0 view_count).2 in
          q ← merge_each_gossip q trusted;
          '(views, q) ← requeried_views q key view_count rest;
          Some ((responder, trusted) :: views, q)
      | _ => requeried_views q key view_count rest
      end
  end.

Inductive WitnessError := InvalidCount (e : string) | WitnessLookup (e : LookupFailure) | InsufficientPeers (found : nat).

Definition find_witnessed_close_group_with_view_count m (key : Key) (count view_count : nat) (deadline : option nat)
    (interrupted : NativeFindNodeQuery) : option (result WitnessedCloseGroup WitnessError) :=
  if Nat.eqb count 0 then Some (Err (InvalidCount "witnessed close group count must be greater than zero"))
  else if Nat.eqb view_count 0 then Some (Err (InvalidCount "witnessed close group view count must be greater than zero"))
  else
    '(r, _, q) ← find_closest_nodes_network_with_deadline m key (S count) (Some view_count) deadline interrupted;
    match r with
    | Err e => Some (Err (WitnessLookup e))
    | Ok out =>
        let initial := sort_dedup_witnessed_nodes
          (List.filter (λ n, negb (bool_decide (node_peer_id n = self))) (closest_nodes out)) key count in
        if (length initial <? count)%nat then Some (Err (InsufficientPeers (length initial)))
        else
          let '(views, missing) := split_witnessed_transcript_views initial (outcome_transcript out) in
          q ← merge_views q views;
          '(results, q) ← query_find_node_batch q missing ∅ (network (tick q) key missing);
          '(more, q) ← requeried_views q key view_count results;
          Some (Ok (build_witnessed_close_group key count view_count initial (views ++ more)))
    end.

(** ** The adapter answers for what it is asked *)

Definition reports_filed (reports : gmap PeerId SubjectReports) : Prop :=
  ∀ s r p n, reports !! s = Some r → r !! p = Some n → node_peer_id n = s.

Record query_inv q : Prop := {
  query_engine : engine_wf (dht (q_manager q));
  query_filed : reports_filed (subject_reports q);
}.

(** The rest of the node keeps the routing table well-formed. *)
Hypothesis Hmeanwhile : ∀ i m, engine_wf (dht m) → engine_wf (dht (meanwhile (moments i) m)).

Lemma merge_each_upgrade_total e p typed :
  engine_wf e → ∃ e', merge_each_upgrade e p typed = Some e' ∧ engine_wf e'.
Proof.
  revert e. induction typed as [|[addr ty] rest IH]; intros e Hwf; cbn [merge_each_upgrade]; [by eexists|].
  destruct (engine_upgrade_total e p addr ty Hwf) as (r & e' & -> & Hwf'). by apply IH.
Qed.

Lemma merge_trusted_total m mo node source :
  engine_wf (dht m) →
  ∃ m', merge_trusted_gossiped_typed_addresses_from_source m mo node source = Some m' ∧ engine_wf (dht m').
Proof.
  intros Hwf. unfold merge_trusted_gossiped_typed_addresses_from_source. destruct (_ ≫= publication) as [proof|].
  { destruct (apply_signed_update m (around mo source) proof false (clock mo) Hwf) as (r & m' & -> & Hup & _).
    exists m'. split; [done|]. apply Hup. }
  cbv zeta. destruct (_ && _); [by exists m|]. destruct (negb _).
  - destruct (engine_replace_total (dht m) (node_peer_id node)
      (List.filter (λ x, is_quic x.1) (PeerRecord.typed_addresses node))
      (from_option quic_sequence 0%N (address_authority node)) (clock mo) Hwf) as [_ (r & e & -> & Hwf')].
    by exists (with_dht m e).
  - destruct (merge_each_upgrade_total (dht m) (node_peer_id node)
      (List.filter (λ x, is_quic x.1) (PeerRecord.typed_addresses node)) Hwf) as (e & -> & Hwf').
    by exists (with_dht m e).
Qed.

Lemma awake_inv q : query_inv q → query_inv (awake q).2.
Proof. intros [Hwf Hf]. split; [by apply Hmeanwhile|done]. Qed.

Lemma exhausted_inv q node :
  query_inv q → query_inv (exhausted q node).2 ∧ contacted (exhausted q node).2 = contacted q.
Proof.
  intros Hq%awake_inv. unfold exhausted. cbn in *.
  destruct (lookup_candidate_dial_plan_is_exhausted _ _ _ _ _ _) as [r c]. split; [|done]. by destruct Hq.
Qed.

Lemma merge_gossip_total q node :
  query_inv q → ∃ q', merge_gossip q node = Some q' ∧ query_inv q'.
Proof.
  intros [Hwf Hf]%awake_inv. unfold merge_gossip, merge_trusted_gossiped_typed_addresses. cbn in *.
  destruct (merge_trusted_total (meanwhile (moments (tick q)) (q_manager q)) (moments (tick q)) node None Hwf)
    as (m' & -> & Hwf'). eexists. split; [done|]. by split.
Qed.

Lemma query_batch_total batch completions : ∀ q finished,
  query_inv q → NoDup (node_peer_id <$> batch) →
  ∃ results q', query_find_node_batch q batch finished completions = Some (results, q') ∧ query_inv q' ∧
    NoDup results.*1 ∧
    ∀ p, p ∈ results.*1 → ∃ i node, batch !! i = Some node ∧ node_peer_id node = p ∧ i ∉ finished.
Proof.
  induction completions as [|[i a] rest IH]; intros q finished Hq Hnd; cbn [query_find_node_batch].
  { exists [], q. split_and!; [done|done|constructor|]. by intros p ?%elem_of_nil. }
  destruct (batch !! i) as [node|] eqn:Hi; [|by apply IH].
  case_bool_decide as Hfin; [by apply IH|].
  assert (Hstep : ∃ q1, (if bool_decide (is_Some (answer a)) then merge_gossip q node else Some (awake q).2) = Some q1 ∧
    query_inv q1).
  { case_bool_decide; [by apply merge_gossip_total|]. eexists. split; [done|]. by apply awake_inv. }
  destruct Hstep as (q1 & -> & Hq1). cbn [mbind option_bind].
  destruct (IH q1 ({[i]} ∪ finished) Hq1 Hnd) as (results & q' & -> & Hq' & Hres & Hin).
  cbn [mbind option_bind]. eexists _, _. split; [done|]. split; [done|]. cbn. split.
  - constructor; [|done]. intros (j & node' & Hj & Hid & Hnot)%Hin. apply Hnot, elem_of_union_l, elem_of_singleton.
    eapply (NoDup_lookup _ j i (node_peer_id node) Hnd); rewrite list_lookup_fmap; [by rewrite Hj, <-Hid|by rewrite Hi].
  - intros p [->|(j & node' & Hj & Hid & Hnot)%Hin]%elem_of_cons; [by exists i, node|].
    exists j, node'. split_and!; [done..|]. set_solver.
Qed.

Lemma add_report_filed reports responder node :
  reports_filed reports → reports_filed (add_report reports responder node).
Proof.
  intros Hf s r p n. unfold add_report. intros [[<- <-]|[Hne Hs]]%lookup_insert_Some Hp; [|by eapply Hf].
  apply lookup_insert_Some in Hp as [[_ <-]|[_ Hp]]; [done|].
  destruct (reports !! node_peer_id node) as [r'|] eqn:Hr; [by eapply Hf|]. cbn in Hp; by rewrite lookup_empty in Hp.
Qed.

Lemma report_candidates_total responder nodes : ∀ q,
  query_inv q → ∃ candidates q', report_candidates q responder nodes = Some (candidates, q') ∧ query_inv q'.
Proof.
  induction nodes as [|node rest IH]; intros q Hq; cbn [report_candidates]; [by eexists _, _|].
  case_bool_decide; [by apply IH|].
  destruct (exhausted_inv q node Hq) as [Hq1 _]. destruct (exhausted q node) as [[] q1]; cbn in Hq1; [by apply IH|].
  destruct (merge_gossip_total q1 node Hq1) as (q2 & -> & Hq2). cbn [mbind option_bind].
  set (q3 := mk_query _ _ _ _ _). assert (Hq3 : query_inv q3) by (destruct Hq2; split; [done|by apply add_report_filed]).
  destruct (IH q3 Hq3) as (candidates & q' & -> & Hq'). cbn [mbind option_bind]. eauto.
Qed.

Lemma process_answer_total q view_count target p a :
  query_inv q → ∃ o q', process_answer q view_count target p a = Some (o, q') ∧ query_inv q' ∧ responder o = p.
Proof.
  intros Hq. unfold process_answer. destruct (answer a) as [r|]; [|by eexists _, _].
  destruct r as [key nodes| | | | | |]; try by eexists _, _.
  - pose proof (awake_inv q Hq) as Hq1. destruct (awake q) as [mo q1]. cbn in Hq1.
    destruct (trusted_find_node_response_nodes _ _ _ _ _ _) as [candidate_nodes view].
    destruct (report_candidates_total p candidate_nodes (record_responder_view q1 view_count p view))
      as (candidates & q' & -> & Hq'); [destruct view_count; [by destruct Hq1|done]|]. by eexists _, _.
  - pose proof (awake_inv q Hq) as [Hwf Hf]. unfold forget_rejecting_peer. destruct (awake q) as [mo q1]. cbn in Hwf, Hf.
    destruct (remove_spec (dht (q_manager q1)) p Hwf) as (events & e' & -> & Hwf' & _). by eexists _, _.
Qed.

Lemma process_answers_total view_count target results : ∀ q,
  query_inv q → ∃ outcomes q', process_answers q view_count target results = Some (outcomes, q') ∧ query_inv q' ∧
    responder <$> outcomes = results.*1.
Proof.
  induction results as [|[p a] rest IH]; intros q Hq; cbn [process_answers]; [by eexists _, _|].
  destruct (process_answer_total q view_count target p a Hq) as (o & q1 & -> & Hq1 & Ho). cbn [mbind option_bind].
  destruct (IH q1 Hq1) as (outcomes & q' & -> & Hq' & Hr). cbn [mbind option_bind]. eexists _, _.
  split_and!; [done..|]. cbn. by rewrite Ho, Hr.
Qed.

Lemma native_faithful view_count : faithful_adapter (native_query view_count) query_inv.
Proof.
  split.
  - intros node q Hq. destruct (exhausted_inv q node Hq) as [Hq' _].
    exists (exhausted q node).2, (negb (exhausted q node).1). cbn [native_query is_candidate_eligible].
    by destruct (exhausted q node).
  - intros p q [Hwf Hf]. cbn. eexists. split; [done|]. split; [done|]. intros s r p' n Hs.
    cbn in Hs. apply lookup_delete_Some in Hs as [_ Hs]. by eapply Hf.
  - intros t c i batch q Hq Hnd. cbn. unfold native_query_batch. cbv zeta.
    set (q1 := mk_query _ _ _ _ _). assert (Hq1 : query_inv q1) by by destruct Hq.
    destruct (query_batch_total batch (network (tick q1) t batch) q1 ∅ Hq1 Hnd) as (results & q2 & -> & Hq2 & Hres & Hin).
    cbn [mbind option_bind].
    destruct (process_answers_total view_count t results q2 Hq2) as (outcomes & q3 & -> & Hq3 & Hresp).
    eexists _, _. split_and!; [done|done|by rewrite Hresp|]. intros o Ho.
    assert (Hp : responder o ∈ results.*1) by (rewrite <-Hresp; by apply list_elem_of_fmap_2).
    apply Hin in Hp as (j & node & Hj & Hid & _). rewrite <-Hid. by eapply list_elem_of_fmap_2, list_elem_of_lookup_2.
Qed.

(** ** The start of the lookup *)

Lemma add_candidate_same node (l : IterativeLookup DHTNode) :
  let l' := (add_candidate node l).2 in
  target l' = target l ∧ config l' = config l ∧ round_active l' = round_active l ∧ termination l' = termination l.
Proof. unfold add_candidate. by repeat case_match. Qed.

Record lookup_ready (key : Key) (count : nat) (l : IterativeLookup DHTNode) : Prop := {
  ready_inv : lookup_inv l;
  ready_idle : round_active l = false;
  ready_target : target l = key;
  ready_config : config l = saorsa count;
  ready_seeded : seeded self own_node l;
}.

Lemma seed_candidates_ready key count nodes : ∀ q l,
  query_inv q → lookup_ready key count l →
  let out := seed_candidates q l nodes in lookup_ready key count out.1 ∧ query_inv out.2.
Proof.
  induction nodes as [|node rest IH]; intros q l Hq Hl; cbn [seed_candidates]; [done|].
  destruct (is_contactable l (node_peer_id node)); [|by apply IH].
  destruct (exhausted_inv q node Hq) as [Hq1 _]. destruct (exhausted q node) as [[] q1]; cbn in Hq1; [by apply IH|].
  apply IH; [done|]. destruct Hl as [Hinv Hidle Ht Hc Hs].
  destruct (add_candidate_same node l) as (Ht' & Hc' & Ha' & _).
  split; [by apply add_candidate_inv|congruence|congruence|congruence|].
  eapply seeded_step; [exact Hinv|constructor|done].
Qed.

Lemma fresh_ready key count l :
  new key (saorsa count) = Ok l → lookup_ready key count (add_known_result own_node l).
Proof.
  intros Hnew. pose proof (new_inv _ _ _ Hnew) as Hinv. unfold new in Hnew. cbn in Hnew. injection Hnew as <-.
  split; [|done|done|done|].
  - apply add_known_result_inv; done.
  - split; cbn; [by apply lookup_insert_eq|by apply lookup_insert_eq|apply not_elem_of_nil|].
    intros p [<-|[_ Hp]]%lookup_insert_is_Some; [by left|]. rewrite lookup_empty in Hp. by destruct Hp.
Qed.

(** ** The result list *)

(** Refreshing the records does not change whom they describe. *)
Lemma refresh_node_id reports node :
  reports_filed reports → node_peer_id (refresh_node reports node) = node_peer_id node.
Proof.
  intros Hf. unfold refresh_node. destruct (reports !! node_peer_id node) as [r|] eqn:Hr; cbn; [|done].
  destruct (compute_winner (node_peer_id node) r) as [[w n]|] eqn:Hw; [|done].
  destruct (_ || _); [apply merge_from_peer_id|]. apply compute_winner_elem in Hw. by eapply Hf.
Qed.

Lemma apply_one_keyed reports by_peer node :
  reports_filed reports → keyed by_peer →
  keyed (apply_one reports by_peer node) ∧
  ∀ p, is_Some (apply_one reports by_peer node !! p) ↔ is_Some (by_peer !! p) ∨ p = node_peer_id node.
Proof.
  intros Hf Hk. pose proof (refresh_node_id reports node Hf) as Hid. unfold apply_one.
  set (n := refresh_node reports node) in *.
  assert (Hins : ∀ x, node_peer_id x = node_peer_id n →
    keyed (<[node_peer_id n := x]> by_peer) ∧
    ∀ p, is_Some (<[node_peer_id n := x]> by_peer !! p) ↔ is_Some (by_peer !! p) ∨ p = node_peer_id node).
  { intros x Hx. split.
    - intros p y [[<- <-]|[_ Hy]]%lookup_insert_Some; [done|by apply Hk].
    - intros p. rewrite lookup_insert_is_Some. rewrite Hid.
      destruct (decide (node_peer_id node = p)); naive_solver. }
  destruct (by_peer !! node_peer_id n) as [e|] eqn:He; [|by apply Hins].
  destruct (_ || _); [apply Hins; rewrite merge_from_peer_id; by apply Hk|].
  destruct (prefer_lookup_record n e); [by apply Hins|]. split; [done|]. intros p. split; [by left|].
  intros [?| ->]; [done|]. rewrite <-Hid, He. by eexists.
Qed.

Lemma apply_all_keyed reports nodes : ∀ by_peer,
  reports_filed reports → keyed by_peer →
  keyed (foldl (apply_one reports) by_peer nodes) ∧
  ∀ p, is_Some (foldl (apply_one reports) by_peer nodes !! p) ↔ is_Some (by_peer !! p) ∨ p ∈ node_peer_id <$> nodes.
Proof.
  induction nodes as [|node rest IH]; intros by_peer Hf Hk; cbn [foldl].
  { split; [done|]. intros p. rewrite elem_of_nil. naive_solver. }
  destruct (apply_one_keyed reports by_peer node Hf Hk) as [Hk1 Hd1]. destruct (IH _ Hf Hk1) as [Hk2 Hd2].
  split; [done|]. intros p. rewrite Hd2, Hd1, fmap_cons, elem_of_cons. naive_solver.
Qed.

Lemma sublist_sorted {A} (R : relation A) (l k : list A) : l `sublist_of` k → StronglySorted R k → StronglySorted R l.
Proof.
  induction 1 as [|x l k Hsub IH|x l k _ IH]; intros Hs; [done|..]; apply StronglySorted_cons in Hs as [Hall Hs]; [|by apply IH].
  constructor; [by apply IH|]. rewrite Forall_forall in *. intros y Hy. apply Hall. by eapply elem_of_sublist.
Qed.

Lemma distance_sorted_NoDup key (l : list PeerId) :
  StronglySorted (λ a b, tlt (xor_distance a key) (xor_distance b key)) l → NoDup l.
Proof.
  induction 1 as [|a l _ IH Hall]; constructor; [|done]. intros Hin. rewrite Forall_forall in Hall.
  by apply Hall, tlt_irrefl in Hin.
Qed.

(** The closest records of a map with the peers of a sorted list are those of
    the head of the list, in its order. *)
Lemma truncate_peers (by_peer : gmap PeerId DHTNode) peers key count :
  keyed by_peer → (∀ p, is_Some (by_peer !! p) ↔ p ∈ peers) →
  StronglySorted (λ a b, tlt (xor_distance a key) (xor_distance b key)) peers →
  node_peer_id <$> sort_truncate key count (map_values by_peer) = take count peers.
Proof.
  intros Hk Hd Hs. set (R := λ a b : PeerId, tlt (xor_distance a key) (xor_distance b key)) in *.
  pose proof (distance_sorted_NoDup key peers Hs) as Hnd.
  assert (Hsize : size by_peer = length peers).
  { rewrite <-size_dom. replace (dom by_peer) with (list_to_set peers : gset PeerId); [by apply size_list_to_set|].
    apply set_eq. intros p. by rewrite elem_of_list_to_set, elem_of_dom. }
  assert (Hall : node_peer_id <$> sort_truncate key (length peers) (map_values by_peer) = peers).
  { destruct (sort_truncate_view by_peer key (length peers) Hk) as [_ Hel Hsorted Hlength _].
    set (L := sort_truncate key (length peers) (map_values by_peer)) in *.
    assert (HLs : StronglySorted R (node_peer_id <$> L)) by (by eapply StronglySorted_fmap, Hsorted).
    apply (StronglySorted_unique_strong R); [|done|done|].
    - intros x y _ _ Hxy Hyx. by destruct (tlt_irrefl (xor_distance x key)); eapply tlt_trans.
    - apply submseteq_length_Permutation; [|rewrite !length_fmap; lia].
      apply NoDup_submseteq; [by eapply distance_sorted_NoDup|]. intros p (n & -> & Hn)%list_elem_of_fmap.
      apply Hd. rewrite (Hel n Hn). by eexists. }
  rewrite <-Hall at 1. unfold sort_truncate. rewrite <-fmap_take, take_take. f_equal.
  set (sorted := sort_by_key _ _). assert (Hlen : length sorted = length peers).
  { unfold sorted. rewrite sort_length. unfold map_values. rewrite length_fmap, (Permutation_length (map_iter_perm by_peer)).
    by rewrite length_map_to_list. }
  destruct (decide (count ≤ length peers)); [by rewrite Nat.min_l|].
  rewrite Nat.min_r, !take_ge by lia. done.
Qed.

Lemma winners_peers reports nodes key count :
  reports_filed reports →
  StronglySorted (λ a b, tlt (xor_distance a key) (xor_distance b key)) (node_peer_id <$> nodes) →
  node_peer_id <$> apply_lookup_report_winners nodes reports key count = take count (node_peer_id <$> nodes).
Proof.
  intros Hf Hs. destruct (apply_all_keyed reports nodes ∅ Hf) as [Hk Hd]; [by intros p n; rewrite lookup_empty|].
  apply truncate_peers; [done| |done]. intros p. rewrite Hd, lookup_empty. split; [|by right]. by intros [[? ?]|?].
Qed.

Lemma dedup_peers nodes key count :
  StronglySorted (λ a b, tlt (xor_distance a key) (xor_distance b key)) (node_peer_id <$> nodes) →
  node_peer_id <$> sort_dedup_witnessed_nodes nodes key count = take count (node_peer_id <$> nodes).
Proof.
  intros Hs. apply truncate_peers; [by apply merge_all_keyed, empty_keyed| |done].
  intros p. rewrite merge_all_lookup, lookup_empty, merge_report_is_Some. split; [|by right]. by intros [[? ?]|?].
Qed.

(** ** The lookup *)

Lemma walk_same l l' : walk_step (N := DHTNode) l l' → target l' = target l ∧ config l' = config l.
Proof.
  destruct 1 as [| | | |p l|p l|p l| |].
  5: unfold record_success; destruct (take_waiting_cases p l) as [(? & -> & _)| ->]; done.
  5: unfold record_failure; destruct (take_waiting_cases p l) as [(? & -> & _)| ->]; done.
  5: unfold record_unresponsive; destruct (take_waiting_cases p l) as [(? & -> & _)| ->]; done.
  all: unfold add_candidate, begin_round, take_next_candidate, mark_waiting, complete_round, expire, finish;
    by repeat case_match.
Qed.

Lemma walks_same l l' : rtc (walk_step (N := DHTNode)) l l' → target l' = target l ∧ config l' = config l.
Proof. induction 1 as [|x y z Hxy%walk_same _ [IH1 IH2]]; [done|]. destruct Hxy. split; congruence. Qed.

Lemma network_lookup_total m key count view_count deadline interrupted :
  engine_wf (dht m) → query_inv interrupted →
  ∃ out l q, find_closest_nodes_network_with_deadline m key count view_count deadline interrupted = Some (Ok out, Some l, q) ∧ query_inv q ∧
    let peers := node_peer_id <$> closest_nodes out in
    StronglySorted (λ a b, tlt (xor_distance a key) (xor_distance b key)) peers ∧ length peers ≤ count ∧
    (∀ p, p ∈ peers → p = self ∨ p ∈ query_order l ∧ peer_state l p = Some Succeeded) ∧
    is_Some (successful l !! self) ∧
    (∀ p, is_Some (successful l !! p) → p ∈ peers ∨
       length peers = count ∧ ∀ p', p' ∈ peers → tlt (xor_distance p' key) (xor_distance p key)) ∧
    (self ∉ query_order l) ∧ NoDup (query_order l) ∧ length (query_order l) ≤ DEFAULT_ALPHA_VALUE * 20.
Proof.
  intros Hwf Hint. unfold find_closest_nodes_network_with_deadline.
  destruct (new key (saorsa count)) as [l0|e] eqn:Hnew; [|by cbn in Hnew].
  pose proof (fresh_ready key count l0 Hnew) as Hready. cbv zeta.
  set (q0 := mk_query m 0 ∅ ∅ {[self]}).
  assert (Hq0 : query_inv q0) by (split; [done|]; intros s r p n; cbn; by rewrite lookup_empty).
  pose proof (awake_inv q0 Hq0) as Hq1. destruct (awake q0) as [mo q1]. cbn [snd] in Hq1.
  match goal with |- context [seed_candidates q1 _ ?nodes] =>
    destruct (seed_candidates_ready key count nodes q1 _ Hq1 Hready) as [Hl Hq2];
    destruct (seed_candidates q1 _ nodes) as [l1 q2] end.
  cbn [fst snd] in Hl, Hq2. destruct Hl as [Hinv Hidle Ht Hc Hs].
  destruct (faithful_run (native_query view_count) query_inv (native_faithful view_count) l1 q2 deadline Hinv Hidle Hq2)
    as (r & l & Hrun & Hsteps & Hr & Hdone). rewrite Hrun. cbn [mbind option_bind].
  set (q' := match run_lookup_rounds _ _ _ with Done _ st => wq st | _ => interrupted end).
  assert (Hq' : query_inv q').
  { unfold q'. destruct (run_lookup_rounds _ _ _) as [reason st| | |] eqn:Hd; [|done..]. by eapply Hdone. }
  pose proof (query_filed _ Hq') as Hfiled.
  set (found := mk_find_outcome _ _). exists found, l, q'. split; [by destruct Hr as [->|[reason ->]]|]. split; [done|].
  destruct (walks_same _ _ Hsteps) as [Ht' Hc']. pose proof (steps_inv _ _ Hsteps Hinv) as Hinv'.
  destruct (seeded_steps self own_node _ _ Hinv Hsteps Hs) as [Hself Hres Hun Hask].
  destruct (results_closest l Hinv') as (Hsorted & Hlength & Hstate & Hleft).
  rewrite Ht', Ht in Hsorted, Hleft. rewrite Hc', Hc in Hlength, Hleft. cbn [Lookup.count saorsa] in Hlength, Hleft.
  assert (Hmono : ∀ a b, key_lt (λ n : DHTNode, distance_key key (lookup_peer_id n)) a b → tlt (xor_distance (node_peer_id a) key) (xor_distance (node_peer_id b) key)).
  { intros a b. apply peer_key_lt. }
  assert (Hpeers : StronglySorted (λ a b, tlt (xor_distance a key) (xor_distance b key)) (node_peer_id <$> results l))
    by (by eapply StronglySorted_fmap, Hsorted).
  assert (Heq : node_peer_id <$> closest_nodes found = node_peer_id <$> results l)
    by (unfold found; cbn [closest_nodes]; rewrite winners_peers by done; apply take_ge; rewrite length_fmap; lia).
  cbv zeta. rewrite Heq, length_fmap. pose proof (inv_total l Hinv') as Htot. pose proof (inv_iter l Hinv') as Hiter.
  pose proof (inv_queries l Hinv') as Hqs. rewrite Hc', Hc in Htot, Hiter, Hqs.
  cbn [alpha max_iterations saorsa] in Htot, Hiter, Hqs.
  split_and!; [done|lia| |by eexists| |done|apply Hinv'|].
  - intros p (n & -> & Hn)%list_elem_of_fmap. apply Hstate in Hn. unfold peer_state.
    destruct (Hask (node_peer_id n)) as [?|?]; [by eexists|by left|by right].
  - intros p [n Hn]. destruct (decide (n ∈ results l)) as [Hin|Hout].
    + left. apply (inv_succ l Hinv') in Hn as [<- _]. by apply list_elem_of_fmap_2.
    + right. destruct (Hleft p n Hn Hout) as [? Hlt]. split; [done|]. intros p' (n' & -> & Hn')%list_elem_of_fmap.
      apply (inv_succ l Hinv') in Hn as [<- _]. by apply Hmono, Hlt.
  - unfold DEFAULT_ALPHA_VALUE in *. destruct (round_active l); lia.
Qed.
(** C9: a lookup on the network.  Whatever the peers answer, whatever the other tasks do meanwhile and whenever the
    deadline comes, a lookup neither panics nor fails: it returns at most [count] nodes, closest first and each once;
    each is this node itself or a peer that was asked and answered; and a peer that answered, this node included, is
    left out only when [count] nodes closer to the key are returned.  This node is never asked, no peer is asked twice,
    and at most sixty requests are sent. *)
Theorem network_lookup_sound m key count view_count deadline interrupted :
  engine_wf (dht m) → query_inv interrupted →
  ∃ out l q, find_closest_nodes_network_with_deadline m key count view_count deadline interrupted = Some (Ok out, Some l, q) ∧
    let peers := node_peer_id <$> closest_nodes out in
    StronglySorted (λ a b, tlt (xor_distance a key) (xor_distance b key)) peers ∧ length peers ≤ count ∧
    (∀ p, p ∈ peers → p = self ∨ p ∈ query_order l ∧ peer_state l p = Some Succeeded) ∧
    is_Some (successful l !! self) ∧
    (∀ p, is_Some (successful l !! p) → p ∈ peers ∨
       length peers = count ∧ ∀ p', p' ∈ peers → tlt (xor_distance p' key) (xor_distance p key)) ∧
    (self ∉ query_order l) ∧ NoDup (query_order l) ∧ length (query_order l) ≤ DEFAULT_ALPHA_VALUE * 20.
Proof.
  intros Hwf Hint. destruct (network_lookup_total m key count view_count deadline interrupted Hwf Hint)
    as (out & l & q & Hrun & _ & Hrest). by exists out, l, q.
Qed.

(** ** The witnessed close group *)

Lemma merge_each_gossip_total nodes : ∀ q,
  query_inv q → ∃ q', merge_each_gossip q nodes = Some q' ∧ query_inv q'.
Proof.
  induction nodes as [|node rest IH]; intros q Hq; cbn [merge_each_gossip]; [by eexists|].
  destruct (merge_gossip_total q node Hq) as (q1 & -> & Hq1). by apply IH.
Qed.

Lemma merge_views_total views : ∀ q, query_inv q → ∃ q', merge_views q views = Some q' ∧ query_inv q'.
Proof.
  induction views as [|v rest IH]; intros q Hq; cbn [merge_views]; [by eexists|].
  destruct (merge_each_gossip_total v.2 q Hq) as (q1 & -> & Hq1). by apply IH.
Qed.

Lemma requeried_views_total key view_count results : ∀ q,
  query_inv q → ∃ views q', requeried_views q key view_count results = Some (views, q') ∧ query_inv q' ∧
    views.*1 `sublist_of` results.*1.
Proof.
  induction results as [|[p a] rest IH]; intros q Hq; cbn [requeried_views]; [by eexists [], _|].
  assert (Hskip : ∃ views q', requeried_views q key view_count rest = Some (views, q') ∧ query_inv q' ∧
    views.*1 `sublist_of` ((p, a) :: rest).*1).
  { destruct (IH q Hq) as (views & q' & -> & Hq' & Hsub). eexists _, _. split_and!; [done|done|by apply sublist_cons]. }
  destruct (answer a) as [[key' nodes| | | | | |]|]; try exact Hskip. clear Hskip.
  pose proof (awake_inv q Hq) as Hq1. destruct (awake q) as [mo q1]. cbn [snd] in Hq1.
  set (trusted := (trusted_find_node_response_nodes _ _ _ _ _ _).2).
  destruct (merge_each_gossip_total trusted q1 Hq1) as (q2 & -> & Hq2). cbn [mbind option_bind].
  destruct (IH q2 Hq2) as (views & q' & -> & Hq' & Hsub). cbn [mbind option_bind]. eexists _, _.
  split_and!; [done|done|by apply sublist_skip].
Qed.

Lemma split_views_perm initial : ∀ t,
  let out := split_witnessed_transcript_views initial t in
  out.1.*1 ++ (node_peer_id <$> out.2) ≡ₚ node_peer_id <$> initial.
Proof.
  induction initial as [|node rest IH]; intros t; cbn [split_witnessed_transcript_views]; [done|].
  specialize (IH (delete (node_peer_id node) t)). cbv zeta in IH.
  destruct (split_witnessed_transcript_views rest (delete (node_peer_id node) t)) as [views missing]. cbn [fst snd] in IH.
  destruct (t !! node_peer_id node); cbn; rewrite <-IH; [done|]. by rewrite Permutation_middle.
Qed.

(** The initial group: the closest nodes of the lookup without this node. *)
Lemma initial_group nodes key count :
  StronglySorted (λ a b, tlt (xor_distance a key) (xor_distance b key)) (node_peer_id <$> nodes) →
  let initial := sort_dedup_witnessed_nodes
    (List.filter (λ n, negb (bool_decide (node_peer_id n = self))) nodes) key count in
  StronglySorted (λ a b, tlt (xor_distance a key) (xor_distance b key)) (node_peer_id <$> initial) ∧
  length initial ≤ count ∧
  ∀ p, p ∈ node_peer_id <$> initial → p ≠ self ∧ p ∈ node_peer_id <$> nodes.
Proof.
  intros Hsorted. cbv zeta. set (others := List.filter _ nodes).
  assert (Hothers : StronglySorted (λ a b, tlt (xor_distance a key) (xor_distance b key)) (node_peer_id <$> others)).
  { eapply sublist_sorted, Hsorted. apply fmap_sublist, List_filter_sublist. }
  pose proof (dedup_peers others key count Hothers) as Hinit.
  set (initial := sort_dedup_witnessed_nodes others key count) in *. split_and!.
  - rewrite Hinit. eapply sublist_sorted, Hothers. apply sublist_take.
  - rewrite <-(length_fmap node_peer_id), Hinit, length_take. lia.
  - intros p. rewrite Hinit. intros Hp. eapply elem_of_sublist in Hp; [|apply sublist_take].
    apply list_elem_of_fmap in Hp as (n & -> & Hn). apply elem_of_List_filter in Hn as [Hn Hne].
    split; [by apply negb_true_iff, bool_decide_eq_false in Hne|by apply list_elem_of_fmap_2].
Qed.

End network_lookup.
