(* ===== verification/CloserPeers.v ===== *)
(** * Closer peers in an application's answer

    [encode_closer_peers], [decode_closer_peers] and [find_node_on_peer] of
    [src/dht_network_manager.rs]: the FIND_NODE answer an application sends in
    place of a value, what the receiver makes of it, and a lookup step an
    application drives itself.  The codec of the body is the library's
    ([CloserPeersCodec]); the awaits are those of [NetworkLookup]. *)

From Stdlib Require Import SpecFloat.
From stdpp Require Import prelude sorting gmap strings.
From S2P Require Import Prelude Float Keys BTree Lookup LookupRun Ip Address PeerRecord SelfAddress SignedAddress DialFailure DialPolicy ClientRouting NodeInfo KBucket RoutingTable Diversity CanaryWitness Engine Admission EngineQueries Publications Messages NetworkLookup.

Definition CLOSER_PEERS_FORMAT : Z := 1.

(** Postcard of [CloserPeers], a key and nodes without their authority. *)
Class CloserPeersCodec `{TransportLib} `{!PostcardLib} `{CryptoLib} := {
  to_bytes_closer : Key → list DHTNode → result (list Z) string;
  take_from_bytes_closer : list Z → result (Key * list DHTNode * list Z) string;
  closer_roundtrip key nodes bytes rest :
    to_bytes_closer key nodes = Ok bytes → take_from_bytes_closer (bytes ++ rest) = Ok (key, erase_node <$> nodes, rest);
}.

Section closer_peers.
Context `{TL : TransportLib} `{PL : !PostcardLib} `{CL : CryptoLib} `{HL : HexLib} `{HO : HashOrder}.
Context `{CC : !CloserPeersCodec}.
Context (normalize_socket_addr : SocketAddr → SocketAddr).
Context (self : PeerId) (config_loopback : bool) (own : list (MultiAddr * AddressType)) (moments : nat → Moment).
Implicit Types (m : Manager) (w : Surroundings) (node : DHTNode) (q : NativeFindNodeQuery) (key : Key) (payload : list Z).

(** ** Encoding *)

Definition encode_closer_peers m w key (requester : PeerId) : result (list Z) MessageError :=
  let '(records, nodes) := split_lookup_publications (find_node_answer m w key requester) in
  match to_bytes_closer key nodes with
  | Err e => Err (SerializationFailed e)
  | Ok body =>
      let bytes := CLOSER_PEERS_FORMAT :: body in
      if (MAX_MESSAGE_SIZE <? length bytes)%nat then Err (ValidationFailed "closer peers exceed the message size limit")
      else append_lookup_extension bytes records
  end.

(** ** Decoding *)

(** The checks of [decode_closer_peers] and what they let through: the nodes
    and the verified bundle's records. *)
Definition parse_closer_peers key payload : result (list DHTNode * list SignedAddressRecord) MessageError :=
  if (MAX_MESSAGE_SIZE <? length payload)%nat then Err (ValidationFailed "closer peers exceed the message size limit")
  else match payload with
       | format :: body =>
           if bool_decide (format = CLOSER_PEERS_FORMAT) then
             match take_from_bytes_closer body with
             | Err e => Err (SerializationFailed e)
             | Ok (decoded_key, nodes, trailing) =>
                 if bool_decide (decoded_key = key) then Ok (nodes, decode_lookup_extension trailing)
                 else Err (ValidationFailed "closer peers answer a different key")
             end
           else Err (ValidationFailed "unsupported closer-peers format")
       | [] => Err (ValidationFailed "unsupported closer-peers format")
       end.

Definition exhausted_now := exhausted normalize_socket_addr moments.
Definition merge_now := merge_gossip self config_loopback moments.

(** The loop of [usable_lookup_candidates]. *)
Fixpoint keep_usable q (candidates : list DHTNode) : option (list DHTNode * NativeFindNodeQuery) :=
  match candidates with
  | [] => Some ([], q)
  | node :: rest =>
      let '(out, q) := exhausted_now q node in
      if out : bool then keep_usable q rest
      else q ← merge_now q node; '(usable, q) ← keep_usable q rest; Some (node :: usable, q)
  end.

Definition usable_lookup_candidates q (nodes : list DHTNode) (source : option MultiAddr) key
    : option (list DHTNode * NativeFindNodeQuery) :=
  let '(mo, q) := awake moments q in
  keep_usable q (trusted_find_node_response_nodes self (moment_context mo) nodes source key (k_value (dht (q_manager q))) 0).1.

Definition decode_closer_peers q (responder : PeerId) key payload (source : option MultiAddr)
    : option (result (list DHTNode) MessageError * NativeFindNodeQuery) :=
  match parse_closer_peers key payload with
  | Err e => Some (Err e, q)
  | Ok (nodes, records) =>
      let '(mo, q) := awake moments q in
      '(nodes, m) ← normalize_lookup_answer (q_manager q) (around self config_loopback mo source) nodes records responder (clock mo);
      '(usable, q) ← usable_lookup_candidates (with_manager q m) nodes source key;
      Some (Ok usable, q)
  end.

(** ** One step of an application's lookup *)

Inductive StepError := RequestFailed | RejectedUs (p : PeerId).

(** [find_node_on_peer] of the answer to its request. *)
Definition find_node_on_peer q node key (a : Answer) : option (result (list DHTNode) StepError * NativeFindNodeQuery) :=
  match answer a with
  | Some (NodesFound _ nodes) =>
      q ← merge_now q node;
      '(usable, q) ← usable_lookup_candidates q nodes (answer_source a) key;
      Some (Ok usable, q)
  | Some PeerRejected => q ← forget_rejecting_peer moments q (node_peer_id node); Some (Err (RejectedUs (node_peer_id node)), q)
  | Some _ => Some (Ok [], q)
  | None => Some (Err RequestFailed, q)
  end.

Definition is_lookup_candidate_dialable q node : bool * NativeFindNodeQuery :=
  let '(out, q) := exhausted_now q node in (negb out, q).

(** ** What was written is read *)

Lemma closer_parse_sound key payload nodes records : parse_closer_peers key payload = Ok (nodes, records) ↔
  length payload ≤ MAX_MESSAGE_SIZE ∧ ∃ body trailing, payload = CLOSER_PEERS_FORMAT :: body ∧
    take_from_bytes_closer body = Ok (key, nodes, trailing) ∧ records = decode_lookup_extension trailing.
Proof.
  unfold parse_closer_peers. destruct (Nat.ltb_spec MAX_MESSAGE_SIZE (length payload)) as [?|Hlen]; [split; [done|by intros [? _]; lia]|].
  destruct payload as [|format body]; [split; [done|by intros (_ & ? & ? & ? & _)]|].
  case_bool_decide as Hf; [subst format|split; [done|intros (_ & ? & ? & Heq & _); congruence]].
  destruct (take_from_bytes_closer body) as [[[k ns] trailing]|e] eqn:Ht; [|split; [done|intros (_ & ? & ? & Heq & Hb & _); congruence]].
  case_bool_decide as Hk; [subst k|split; [done|intros (_ & ? & ? & Heq & Hb & _); congruence]]. split.
  - intros [= <- <-]. eauto 10.
  - intros (_ & b & t & [= <-] & Hb & ->). congruence.
Qed.

(** An encoded answer fits the limit and parses to the answer: its nodes with their QUIC addresses and no claim of authority,
    and a subsequence of their owners' publications, all of them if they fit. *)
Lemma closer_peers_roundtrip m w key requester bytes : let nodes := find_node_answer m w key requester in
  Forall (λ r, within_decode_bounds r = true) (foldl take_publication [] nodes) →
  encode_closer_peers m w key requester = Ok bytes →
  length bytes ≤ MAX_MESSAGE_SIZE ∧ ∃ l, parse_closer_peers key bytes = Ok ((erase_node ∘ quic_only) <$> nodes, l) ∧
    l `sublist_of` foldl take_publication [] nodes ∧ length l ≤ MAX_LOOKUP_EXTENSION_RECORDS.
Proof.
  cbn zeta. intros Hb. unfold encode_closer_peers, split_lookup_publications.
  destruct (to_bytes_closer key _) as [body|e] eqn:Hbody; [|done].
  destruct (Nat.ltb_spec MAX_MESSAGE_SIZE (length (CLOSER_PEERS_FORMAT :: body))) as [|Hlen]; [done|].
  intros Hext. destruct (extension_roundtrip _ _ _ Hb Hlen Hext) as (Hfit & trailing & -> & Hsub & Hcount & _).
  split; [done|]. eexists. split_and!; [|exact Hsub|exact Hcount]. apply closer_parse_sound. split; [done|].
  exists (body ++ trailing), trailing. split_and!; [done| |done]. rewrite (closer_roundtrip _ _ _ _ Hbody). by rewrite <-list_fmap_compose.
Qed.

(** ** What is read is usable *)

Hypothesis Hmeanwhile : ∀ i m, engine_wf (dht m) → engine_wf (dht (meanwhile (moments i) m)).

Lemma keep_usable_spec candidates : ∀ q, query_inv q →
  ∃ usable q', keep_usable q candidates = Some (usable, q') ∧ query_inv q' ∧ usable `sublist_of` candidates.
Proof using Hmeanwhile.
  induction candidates as [|node rest IH]; intros q Hq; cbn [keep_usable]; [by eexists _, _; split_and!; [| |apply sublist_nil]|].
  pose proof (exhausted_inv normalize_socket_addr moments Hmeanwhile q node Hq) as [Hq1 _]. unfold exhausted_now.
  destruct (exhausted _ _ q node) as [[] q1]; cbn in Hq1.
  - destruct (IH q1 Hq1) as (usable & q' & -> & Hq' & Hsub). eexists _, _. split_and!; [done..|by constructor].
  - destruct (merge_gossip_total self config_loopback moments Hmeanwhile q1 node Hq1) as (q2 & Hm & Hq2). unfold merge_now. rewrite Hm.
    cbn [mbind option_bind]. destruct (IH q2 Hq2) as (usable & q' & -> & Hq' & Hsub). cbn [mbind option_bind].
    eexists _, _. split_and!; [done..|by constructor].
Qed.

(** The closest [k] of some peers, without this node. *)
Definition closest_others (k : nat) key (peers : list PeerId) : list PeerId :=
  List.filter (λ p, negb (bool_decide (p = self))) (take k (sort_by_key (λ p, xor_distance p key) peers)).

Lemma sort_fmap {A B K} `{TotalOrd K} (g : A → B) (key : B → K) l : g <$> sort_by_key (λ x, key (g x)) l = sort_by_key key (g <$> l).
Proof.
  assert (Hins : ∀ x l, g <$> insert_sorted (λ x, key (g x)) x l = insert_sorted key (g x) (g <$> l)).
  { intros x k. induction k as [|y k IH]; cbn; [done|]. destruct (leb _ _); cbn; [done|]. by rewrite <-IH. }
  induction l as [|x l IH]; cbn; [done|]. by rewrite Hins, IH.
Qed.

Lemma imap_filter_fst {A} (P : A → bool) (Q : nat → bool) (i : nat) (l : list A) : (∀ j, j < i + length l → Q j = true) →
  snd <$> List.filter (λ p, Q p.1) (List.filter (λ p, P p.2) (imap (λ j x, (i + j, x)) l)) = List.filter P l.
Proof.
  revert i. induction l as [|x l IH]; intros i HQ; cbn; [done|]. cbn in HQ.
  rewrite (imap_ext _ (λ j x, (S i + j, x))) by (intros; cbn; f_equal; lia).
  assert (Hi : Q (i + 0) = true) by (apply HQ; lia). specialize (IH (S i)). cbn in IH.
  destruct (P x); cbn; rewrite ?Hi; cbn; [f_equal|]; apply IH; intros; apply HQ; lia.
Qed.

Lemma filter_fmap {A B} (g : A → B) (P : B → bool) l : List.filter P (g <$> l) = g <$> List.filter (λ x, P (g x)) l.
Proof. induction l as [|x l IH]; cbn; [done|]. destruct (P (g x)); cbn; by rewrite IH. Qed.

(** The candidates of an answer are its closest nodes, with the addresses the local context allows. *)
Lemma candidates_spec ctx nodes source key k : let l := (trusted_find_node_response_nodes self ctx nodes source key k 0).1 in
  node_peer_id <$> l = closest_others k key (node_peer_id <$> nodes) ∧
  ∀ n, n ∈ l → ∃ n0, n0 ∈ nodes ∧ node_peer_id n = node_peer_id n0 ∧ address_authority n = address_authority n0.
Proof.
  unfold trusted_find_node_response_nodes. rewrite Nat.max_0_r. cbn [fst]. cbv zeta.
  set (sorted := take k (sort_by_key (λ n, xor_distance (node_peer_id n) key) nodes)).
  set (g := gossiped_node_with_trusted_addresses ctx source).
  assert (Hl : snd <$> List.filter (λ p, (p.1 <? k)%nat)
      (List.filter (λ p, negb (bool_decide (node_peer_id p.2 = self))) (imap (λ i n, (i, g n)) sorted)) =
    List.filter (λ n, negb (bool_decide (node_peer_id n = self))) (g <$> sorted)).
  { pose proof (imap_filter_fst (λ n, negb (bool_decide (node_peer_id n = self))) (λ i, (i <? k)%nat) 0 (g <$> sorted)) as H. rewrite imap_fmap in H. apply H.
    intros j. rewrite length_fmap. unfold sorted. rewrite length_take. intros. apply Nat.ltb_lt. lia. }
  rewrite Hl. split.
  - rewrite !filter_fmap, <-list_fmap_compose. unfold closest_others. rewrite <-(sort_fmap node_peer_id (λ p, xor_distance p key)).
    rewrite <-fmap_take, filter_fmap. done.
  - intros n [Hn _]%elem_of_List_filter. apply list_elem_of_fmap in Hn as (n0 & -> & Hn0). exists n0. split_and!; [|done..].
    apply elem_of_take in Hn0 as (j & Hj & _). apply list_elem_of_lookup_2 in Hj. by apply elem_of_sort in Hj.
Qed.

Lemma usable_spec q nodes source key : query_inv q → let k := k_value (dht (q_manager (awake moments q).2)) in
  ∃ usable q', usable_lookup_candidates q nodes source key = Some (usable, q') ∧ query_inv q' ∧
    (node_peer_id <$> usable) `sublist_of` closest_others k key (node_peer_id <$> nodes) ∧
    ∀ n, n ∈ usable → ∃ n0, n0 ∈ nodes ∧ node_peer_id n = node_peer_id n0 ∧ address_authority n = address_authority n0.
Proof using Hmeanwhile.
  intros Hq%(awake_inv moments Hmeanwhile). cbn zeta. unfold usable_lookup_candidates. destruct (awake moments q) as [mo q1]. cbn [snd] in *.
  destruct (candidates_spec (moment_context mo) nodes source key (k_value (dht (q_manager q1)))) as [Hids Hfrom].
  destruct (keep_usable_spec (trusted_find_node_response_nodes self (moment_context mo) nodes source key (k_value (dht (q_manager q1))) 0).1 q1 Hq)
    as (usable & q' & -> & Hq' & Hsub). eexists _, _. split_and!; [done..| |].
  - rewrite <-Hids. by apply fmap_sublist.
  - intros n Hn. apply Hfrom. by eapply elem_of_sublist.
Qed.

(** What the caller gets: peers the responder named, the closest ones, in order of distance and without this node, each with
    the authority its records prove. *)
Definition answer_sound (before : Manager) (k : nat) (responder : PeerId) key (nodes : list DHTNode) (records : list SignedAddressRecord)
    (usable : list DHTNode) : Prop :=
  (node_peer_id <$> usable) `sublist_of` closest_others k key (node_peer_id <$> nodes) ∧
  ∀ n a, n ∈ usable → address_authority n = Some a → grounded before records responder nodes (node_peer_id n) a.


(** A step never panics; its candidates are among the closest peers of the answer, and only an answer with peers has any. *)
Lemma find_node_on_peer_sound q node key a : query_inv q →
  ∃ out q', find_node_on_peer q node key a = Some (out, q') ∧ query_inv q' ∧
  match out with
  | Ok [] => True
  | Ok usable => ∃ k named nodes, answer a = Some (NodesFound named nodes) ∧
      (node_peer_id <$> usable) `sublist_of` closest_others k key (node_peer_id <$> nodes)
  | Err RequestFailed => answer a = None
  | Err (RejectedUs p) => answer a = Some PeerRejected ∧ p = node_peer_id node
  end.
Proof using Hmeanwhile.
  intros Hq. unfold find_node_on_peer. destruct (answer a) as [[named nodes| | | | | |]|] eqn:Ha; try (eexists _, _; split; [done|]; by split).
  - destruct (merge_gossip_total self config_loopback moments Hmeanwhile q node Hq) as (q1 & Hm & Hq1). unfold merge_now. rewrite Hm.
    cbn [mbind option_bind]. destruct (usable_spec q1 nodes (answer_source a) key Hq1) as (usable & q' & -> & Hq' & Hsub & _).
    cbn [mbind option_bind]. eexists _, _. split_and!; [done..|]. destruct usable; [done|]. eauto.
  - pose proof (awake_inv moments Hmeanwhile q Hq) as [Hwf Hf]. unfold forget_rejecting_peer. destruct (awake moments q) as [mo q1]. cbn in Hwf, Hf.
    destruct (remove_spec (dht (q_manager q1)) (node_peer_id node) Hwf) as (events & e' & -> & Hwf' & _). eexists _, _. split; [done|]. by split.
Qed.
End closer_peers.
