(* ===== verification/Discovery.v ===== *)
(** * Discovery from connected peers

    [bootstrap_from_peers] and [dial_bootstrap_candidate] of
    [src/dht_network_manager.rs]: every connected peer is asked for the
    closest peers to this node, what it names is merged and dialled.  The
    answers, the outcomes of the dials and what the other tasks do meanwhile
    are parameters; awaits are those of [NetworkLookup]. *)

From Stdlib Require Import SpecFloat.
From stdpp Require Import prelude sorting gmap strings.
From S2P Require Import Prelude Float Keys Ip Address PeerRecord SelfAddress SignedAddress DialFailure DialPolicy Snapshots NodeInfo KBucket RoutingTable Refresh Diversity Engine Admission EngineQueries Publications Messages NetworkLookup.

(** A dial: whether the channel came up, and whether the wait for admission
    ended by its deadline or a shutdown. *)
Record Dialling := mk_dialling { reached : bool; gave_up : bool }.

Section discovery.
Context `{TL : TransportLib} `{PL : !PostcardLib} `{CL : CryptoLib} `{HL : HexLib} `{HO : HashOrder}.
Context (self : PeerId) (config_loopback : bool) (moments : nat → Moment).
(** The answer of the [i]-th peer asked and the outcome of the [j]-th dial. *)
Context (answers : nat → Answer) (dials : nat → Dialling).
Implicit Types (node : DHTNode) (q : NativeFindNodeQuery) (source : option MultiAddr).

Definition merge_from q node source : option NativeFindNodeQuery :=
  let '(mo, q) := awake moments q in
  with_manager q <$> merge_trusted_gossiped_typed_addresses_from_source self config_loopback (q_manager q) mo node source.

(** What the answers have brought: every report as the local policy trusts
    it, the peers named so far, and the candidates worth a dial. *)
Record Found := mk_found {
  reports : list DHTNode;
  seen : gset PeerId;
  to_dial : list (DHTNode * option MultiAddr);
}.

Definition worth_dialling node : bool := existsb (λ p, is_dialable p.1) (PeerRecord.typed_addresses node).

Definition discover_node q (f : Found) source node : option (Found * NativeFindNodeQuery) :=
  let '(mo, q) := awake moments q in
  let trusted_node := gossiped_node_with_trusted_addresses (moment_context mo) source node in
  q ← merge_from q trusted_node source;
  let fresh := bool_decide (node_peer_id trusted_node ∉ seen f) in
  Some (mk_found (reports f ++ [trusted_node]) ({[node_peer_id trusted_node]} ∪ seen f)
          (if fresh && worth_dialling trusted_node then to_dial f ++ [(trusted_node, source)] else to_dial f), q).

Fixpoint discover_nodes q (f : Found) source (nodes : list DHTNode) : option (Found * NativeFindNodeQuery) :=
  match nodes with
  | [] => Some (f, q)
  | node :: rest => '(f, q) ← discover_node q f source node; discover_nodes q f source rest
  end.

(** The requests, one after the other. *)
Fixpoint ask_peers q (f : Found) (i : nat) (peers : list PeerId) : option (Found * NativeFindNodeQuery) :=
  match peers with
  | [] => Some (f, q)
  | _ :: rest =>
      let a := answers i in
      '(f, q) ← match answer a with
                | Some (NodesFound _ nodes) => discover_nodes (awake moments q).2 f (answer_source a) nodes
                | _ => Some (f, (awake moments q).2)
                end;
      ask_peers q f (S i) rest
  end.

(** [dial_bootstrap_candidate]: an admitted candidate is merged again. *)
Definition dial_bootstrap_candidate q (d : Dialling) node source : option NativeFindNodeQuery :=
  let '(_, q) := awake moments q in
  if negb (reached d) then Some q
  else
    let '(_, q) := awake moments q in
    if has_node (dht (q_manager q)) (node_peer_id node) && negb (gave_up d) then merge_from q node source else Some q.

(** The size of the routing table, read after an await. *)
Definition table_size q : nat * NativeFindNodeQuery :=
  let '(_, q) := awake moments q in (routing_table_size (dht (q_manager q)), q).

(** The dials, serially; [starved] is a client's test before each.  The
    candidates dialled, and the size at which a client stopped. *)
Fixpoint dial_candidates q (starved : bool) (j : nat) (l : list (DHTNode * option MultiAddr))
    : option (list DHTNode * option nat * NativeFindNodeQuery) :=
  match l with
  | [] => Some ([], None, q)
  | (node, source) :: rest =>
      let '(size, q) := if starved then table_size q else (0, q) in
      if starved && (AUTO_REBOOTSTRAP_THRESHOLD <=? size)%nat then Some ([], Some size, q)
      else
        q ← dial_bootstrap_candidate q (dials j) node source;
        '(dialled, stop, q) ← dial_candidates q starved (S j) rest;
        Some (node :: dialled, stop, q)
  end.

Record Discovered := mk_discovered {
  discovered_found : Found;
  dialled : list DHTNode;
  stopped_at : option nat;
  ready_with : nat;
}.

Definition bootstrap_from_peers (mode : NodeMode) q (peers : list PeerId) : option (nat * Discovered * NativeFindNodeQuery) :=
  '(f, q) ← ask_peers q (mk_found [] ∅ []) 0 peers;
  '(dialled, stop, q) ←
    match mode with
    | Client =>
        let '(size, q) := table_size q in
        if (AUTO_REBOOTSTRAP_THRESHOLD <=? size)%nat then Some ([], Some size, q) else dial_candidates q true 0 (to_dial f)
    | Node => dial_candidates q false 0 (to_dial f)
    end;
  let '(rt_size, q) := table_size q in
  Some (size (seen f), mk_discovered f dialled stop rt_size, q).

(** ** What discovery does *)

(** The first report of each peer, in order. *)
Fixpoint first_reports (known : gset PeerId) (l : list DHTNode) : list DHTNode :=
  match l with
  | [] => []
  | n :: l => if bool_decide (node_peer_id n ∈ known) then first_reports known l
              else n :: first_reports ({[node_peer_id n]} ∪ known) l
  end.

Definition named_by (a : Answer) : list DHTNode := match answer a with Some (NodesFound _ nodes) => nodes | _ => [] end.

Lemma first_reports_snoc l n known : first_reports known (l ++ [n]) =
  first_reports known l ++ (if bool_decide (node_peer_id n ∈ known ∪ list_to_set (node_peer_id <$> l)) then [] else [n]).
Proof.
  revert known. induction l as [|x l IH]; intros known; cbn.
  - rewrite (right_id_L ∅ (∪)). by destruct (bool_decide _).
  - rewrite !IH. set (named := list_to_set (node_peer_id <$> l) : gset PeerId).
    assert (Hmid : ({[node_peer_id x]} ∪ known) ∪ named = known ∪ ({[node_peer_id x]} ∪ named)) by (apply set_eq; set_solver).
    case_bool_decide as Hx; [|by rewrite Hmid].
    assert (known ∪ ({[node_peer_id x]} ∪ named) = known ∪ named) as -> by (apply set_eq; set_solver). done.
Qed.

Lemma first_reports_NoDup l known : NoDup (node_peer_id <$> first_reports known l) ∧
  ∀ n, n ∈ first_reports known l → (node_peer_id n ∉ known) ∧ n ∈ l.
Proof.
  revert known. induction l as [|x l IH]; intros known; cbn; [split; [constructor|by intros n ?%not_elem_of_nil]|].
  case_bool_decide as Hx.
  - destruct (IH known) as [H1 H2]. split; [done|]. intros n [? ?]%H2. split; [done|by right].
  - destruct (IH ({[node_peer_id x]} ∪ known)) as [H1 H2]. cbn. split.
    + constructor; [|done]. intros (n & Heq & [Hn _]%H2)%list_elem_of_fmap. set_solver.
    + intros n [->|[Hn Hl]%H2]%elem_of_cons; [split; [done|by left]|]. split; [set_solver|by right].
Qed.

(** What the answers bring, at any point. *)
Record found_ok (f : Found) (named : list DHTNode) : Prop := {
  found_named : node_peer_id <$> reports f = node_peer_id <$> named;
  found_seen : seen f = list_to_set (node_peer_id <$> reports f);
  found_dials : (to_dial f).*1 = List.filter worth_dialling (first_reports ∅ (reports f));
}.

Hypothesis Hmeanwhile : ∀ i m, engine_wf (dht m) → engine_wf (dht (meanwhile (moments i) m)).

Lemma merge_from_total q node source : query_inv q → ∃ q', merge_from q node source = Some q' ∧ query_inv q'.
Proof using Hmeanwhile.
  intros [Hwf Hf]%(awake_inv moments Hmeanwhile). unfold merge_from. destruct (awake moments q) as [mo q1]. cbn in Hwf, Hf.
  destruct (merge_trusted_total self config_loopback (q_manager q1) mo node source Hwf) as (m' & -> & Hwf').
  eexists. split; [done|]. by split.
Qed.

Lemma discover_node_spec q f source node named : query_inv q → found_ok f named →
  ∃ f' q', discover_node q f source node = Some (f', q') ∧ query_inv q' ∧ found_ok f' (named ++ [node]).
Proof using Hmeanwhile.
  intros Hq%(awake_inv moments Hmeanwhile) [H1 H2 H3]. unfold discover_node. destruct (awake moments q) as [mo q1]. cbn in Hq.
  set (t := gossiped_node_with_trusted_addresses (moment_context mo) source node).
  destruct (merge_from_total q1 t source Hq) as (q' & -> & Hq'). cbn [mbind option_bind]. eexists _, _. split_and!; [done..|].
  constructor; cbn [reports seen to_dial].
  - by rewrite !fmap_app, H1.
  - rewrite fmap_app, list_to_set_app_L, H2. apply set_eq. set_solver.
  - rewrite first_reports_snoc, List.filter_app, (left_id_L ∅ (∪)), <-H2, <-H3.
    destruct (decide (node_peer_id t ∈ seen f)) as [Hs|Hs].
    + rewrite bool_decide_eq_false_2, bool_decide_eq_true_2 by auto. cbn [andb List.filter]. by rewrite app_nil_r.
    + rewrite bool_decide_eq_true_2, bool_decide_eq_false_2 by done. cbn [andb List.filter].
      destruct (worth_dialling t); [by rewrite fmap_app|by rewrite app_nil_r].
Qed.

Lemma discover_nodes_spec source nodes : ∀ q f named, query_inv q → found_ok f named →
  ∃ f' q', discover_nodes q f source nodes = Some (f', q') ∧ query_inv q' ∧ found_ok f' (named ++ nodes).
Proof using Hmeanwhile.
  induction nodes as [|node rest IH]; intros q f named Hq Hf; cbn [discover_nodes].
  - eexists _, _. rewrite app_nil_r. done.
  - destruct (discover_node_spec q f source node named Hq Hf) as (f1 & q1 & -> & Hq1 & Hf1). cbn [mbind option_bind].
    destruct (IH q1 f1 _ Hq1 Hf1) as (f2 & q2 & -> & Hq2 & Hf2). eexists _, _. rewrite <-app_assoc in Hf2. done.
Qed.

Lemma ask_peers_spec peers : ∀ q f i named, query_inv q → found_ok f named →
  ∃ f' q', ask_peers q f i peers = Some (f', q') ∧ query_inv q' ∧
    found_ok f' (named ++ concat ((named_by ∘ answers) <$> seq i (length peers))).
Proof using Hmeanwhile.
  induction peers as [|p rest IH]; intros q f i named Hq Hf; cbn [ask_peers].
  { eexists _, _. cbn. rewrite app_nil_r. done. }
  pose proof (awake_inv moments Hmeanwhile q Hq) as Hq0.
  assert (H : ∃ f1 q1, match answer (answers i) with
      | Some (NodesFound _ nodes) => discover_nodes (awake moments q).2 f (answer_source (answers i)) nodes
      | _ => Some (f, (awake moments q).2)
      end = Some (f1, q1) ∧ query_inv q1 ∧ found_ok f1 (named ++ named_by (answers i))).
  { unfold named_by. destruct (answer (answers i)) as [[key nodes| | | | | |]|];
      try (cbn; eexists _, _; rewrite app_nil_r; done). by apply discover_nodes_spec. }
  destruct H as (f1 & q1 & -> & Hq1 & Hf1). cbn [mbind option_bind].
  destruct (IH q1 f1 (S i) _ Hq1 Hf1) as (f2 & q2 & -> & Hq2 & Hf2). eexists _, _. cbn. by rewrite <-app_assoc in Hf2.
Qed.

Lemma dial_candidate_total q d node source : query_inv q →
  ∃ q', dial_bootstrap_candidate q d node source = Some q' ∧ query_inv q'.
Proof using Hmeanwhile.
  intros Hq%(awake_inv moments Hmeanwhile). unfold dial_bootstrap_candidate. destruct (awake moments q) as [mo q1]. cbn in Hq.
  destruct (negb (reached d)); [by eexists|]. apply (awake_inv moments Hmeanwhile) in Hq. destruct (awake moments q1) as [mo2 q2]. cbn in Hq.
  destruct (_ && _); [by apply merge_from_total|by eexists].
Qed.

(** The dials are a prefix of the candidates, all of them unless a client has seen enough peers. *)
Lemma dial_candidates_spec starved l : ∀ q j, query_inv q →
  ∃ done stop q', dial_candidates q starved j l = Some (done, stop, q') ∧ query_inv q' ∧
    match stop with
    | None => done = l.*1
    | Some n => starved = true ∧ AUTO_REBOOTSTRAP_THRESHOLD ≤ n ∧ done `prefix_of` l.*1
    end.
Proof using Hmeanwhile.
  induction l as [|[node source] rest IH]; intros q j Hq; cbn [dial_candidates]; [by eexists _, _, _|].
  assert (Hsize : query_inv (if starved then table_size q else (0, q)).2).
  { destruct starved; [|done]. apply (awake_inv moments Hmeanwhile) in Hq. unfold table_size. by destruct (awake moments q). }
  destruct (if starved then table_size q else (0, q)) as [n q1]. cbn in Hsize.
  destruct starved; cbn [andb]; [destruct (Nat.leb_spec AUTO_REBOOTSTRAP_THRESHOLD n)|].
  1: { eexists _, _, _. split; [done|]. split; [done|]. cbn. split_and!; [done..|apply prefix_nil]. }
  all: destruct (dial_candidate_total q1 (dials j) node source Hsize) as (q2 & -> & Hq2); cbn [mbind option_bind].
  all: destruct (IH q2 (S j) Hq2) as (done & stop & q' & -> & Hq' & Hstop); cbn [mbind option_bind].
  all: eexists _, _, _; split; [done|]; split; [done|]; destruct stop as [k|]; cbn; [|by rewrite Hstop].
  all: destruct Hstop as (? & ? & ?); split_and!; [done..|by apply prefix_cons].
Qed.

(** C30: discovery.  Asking the connected peers never panics and keeps the engine well-formed.  It counts the distinct peers
    named.  A full node dials, once each and in the order named, exactly those whose first report, as far as the local
    policy trusts it, has a dialable address; a client dials a beginning of that list, and stops early only when its table
    has reached the threshold. *)
Theorem discovery_dials mode q peers :
  query_inv q →
  ∃ n out q', bootstrap_from_peers mode q peers = Some (n, out, q') ∧ query_inv q' ∧
    let reported := reports (discovered_found out) in
    let worth := List.filter worth_dialling (first_reports ∅ reported) in
    node_peer_id <$> reported = node_peer_id <$> concat ((named_by ∘ answers) <$> seq 0 (length peers)) ∧
    n = size (list_to_set (node_peer_id <$> reported) : gset PeerId) ∧
    NoDup (node_peer_id <$> dialled out) ∧
    match stopped_at out with
    | None => dialled out = worth
    | Some size => mode = Client ∧ AUTO_REBOOTSTRAP_THRESHOLD ≤ size ∧ dialled out `prefix_of` worth
    end.
Proof using Hmeanwhile.
  intros Hq. unfold bootstrap_from_peers.
  destruct (ask_peers_spec peers q (mk_found [] ∅ []) 0 [] Hq) as (f & q1 & -> & Hq1 & [H1 H2 H3]); [by constructor|]. cbn [mbind option_bind].
  assert (Hd : ∃ done stop q2, (match mode with
      | Client => let '(size, q) := table_size q1 in
          if (AUTO_REBOOTSTRAP_THRESHOLD <=? size)%nat then Some ([], Some size, q) else dial_candidates q true 0 (to_dial f)
      | Node => dial_candidates q1 false 0 (to_dial f)
      end) = Some (done, stop, q2) ∧ query_inv q2 ∧
    match stop with None => done = (to_dial f).*1 | Some n => mode = Client ∧ AUTO_REBOOTSTRAP_THRESHOLD ≤ n ∧ done `prefix_of` (to_dial f).*1 end).
  { destruct mode.
    - destruct (dial_candidates_spec false (to_dial f) q1 0 Hq1) as (done & stop & q2 & -> & Hq2 & Hs). eexists _, _, _.
      split_and!; [done..|]. destruct stop; [by destruct Hs|done].
    - apply (awake_inv moments Hmeanwhile) in Hq1. unfold table_size. destruct (awake moments q1) as [mo q1']. cbn in Hq1.
      destruct (Nat.leb_spec AUTO_REBOOTSTRAP_THRESHOLD (routing_table_size (dht (q_manager q1')))).
      + eexists _, _, _. split; [done|]. split; [done|]. cbn. split_and!; [done..|apply prefix_nil].
      + destruct (dial_candidates_spec true (to_dial f) q1' 0 Hq1) as (done & stop & q2 & -> & Hq2 & Hs). eexists _, _, _.
        split; [done|]. split; [done|]. destruct stop; [|done]. naive_solver. }
  destruct Hd as (done & stop & q2 & -> & Hq2 & Hs). cbn [mbind option_bind].
  apply (awake_inv moments Hmeanwhile) in Hq2. unfold table_size. destruct (awake moments q2) as [mo q3]. cbn in Hq2.
  eexists _, _, _. split; [done|]. split; [done|]. cbn. rewrite <-H3, <-H2. split_and!; [done..| |done].
  assert (Hnd : NoDup (node_peer_id <$> (to_dial f).*1)).
  { rewrite H3. eapply sublist_NoDup, fmap_sublist, List_filter_sublist. apply first_reports_NoDup. }
  destruct stop as [k|]; [|by rewrite Hs]. destruct Hs as (_ & _ & [rest Heq]). rewrite Heq, fmap_app in Hnd. by apply NoDup_app in Hnd as [? _].
Qed.
End discovery.
