(* ===== verification/EngineSamples.v ===== *)
(** * An engine at work

    Concrete nodes, buckets and engines over the models of [Models], on which
    the theorems of [NodeInfo], [KBucket], [RoutingTable], [Diversity],
    [Admission] and [EngineQueries] are applied. *)

From Stdlib Require Import Ascii String SpecFloat.
From stdpp Require Import prelude sorting gmap strings.
From S2P Require Import Prelude Float Keys Ip Address Models PeerRecord SignedAddress NodeInfo KBucket RoutingTable Diversity SignedSamples Engine Admission EngineQueries.

Module EngineSamples.

#[local] Existing Instance plain_transport.
#[local] Existing Instance SignedSamples.plain_postcard.

#[local] Instance set_order : HashOrder :=
  {| hash_iter K V l := l; hash_iter_perm K V l := reflexivity l |}.

Definition peer (n : Z) : PeerId := key_of_bytes [n].
Definition addr (a b c d : Z) : MultiAddr := from_ipv4 (ipv4 a b c d) 9000.

Definition bare (p : Z) : NodeInfo :=
  {| id := peer p; naddresses := []; naddress_types := []; last_seen := 0%Z |}.
Definition node_at (p : Z) (a : MultiAddr) : NodeInfo :=
  {| id := peer p; naddresses := [a]; naddress_types := [Direct]; last_seen := 0%Z |}.

(** ** Nodes *)

Lemma bare_wf p : node_wf (bare p).
Proof.
  constructor; cbn; [done| | | |lia].
  - intros i j a b t u f Ha. by rewrite lookup_nil in Ha.
  - intros a Ha. by apply not_elem_of_nil in Ha.
  - intros a t Ha. by apply not_elem_of_nil in Ha.
Qed.

(** A node after merges; each merge keeps it well-formed. *)
Definition merged (n : NodeInfo) (a : MultiAddr) (t : AddressType) : NodeInfo :=
  default n (merge_typed_address n a t).

Lemma merged_wf n a t : node_wf n → node_wf (merged n a t).
Proof.
  intros Hwf. unfold merged. by destruct (merge_typed_address_wf n a t Hwf) as (n' & -> & Hwf' & _).
Qed.

Definition dual : NodeInfo := merged (merged (bare 9) (addr 198 51 100 7) Direct) (addr 192 168 1 7) Relay.

Lemma dual_wf : node_wf dual.
Proof. apply merged_wf, merged_wf, bare_wf. Qed.

Lemma family_cap_witness :
  let n := {| id := peer 9;
              naddresses := [addr 198 51 100 1; addr 198 51 100 2; addr 198 51 100 3; addr 192 168 1 1];
              naddress_types := [Unverified; Direct; Relay; Lan]; last_seen := 0%Z |} in
  naddresses (enforce_per_ip_family_cap n) = [addr 198 51 100 2; addr 198 51 100 3; addr 192 168 1 1] ∧
  aligned (enforce_per_ip_family_cap n).
Proof.
  cbn zeta. split; [by_decide|].
  apply (family_cap_spec {| id := peer 9;
    naddresses := [addr 198 51 100 1; addr 198 51 100 2; addr 198 51 100 3; addr 192 168 1 1];
    naddress_types := [Unverified; Direct; Relay; Lan]; last_seen := 0%Z |}). reflexivity.
Defined.

Lemma merge_typed_address_witness :
  is_storable (addr 198 51 100 8) = true ∧ ∃ n', merge_typed_address dual (addr 198 51 100 8) Relay = Some n' ∧ node_wf n'.
Proof.
  assert (Hs : is_storable (addr 198 51 100 8) = true) by (vm_compute; reflexivity). split; [exact Hs|].
  destruct (merge_typed_address_spec dual (addr 198 51 100 8) Relay dual_wf Hs) as (n' & H1 & H2 & _). eauto.
Defined.

Lemma upgrade_only_witness :
  ∃ changed n', merge_typed_address_upgrade_only dual (addr 198 51 100 7) Unverified = Some (changed, n') ∧
    node_wf n' ∧ (changed = false → n' = dual).
Proof.
  destruct (upgrade_only_never_demotes dual (addr 198 51 100 7) Unverified dual_wf) as (c & n' & H1 & H2 & H3 & _);
    [by_decide|]. eauto.
Defined.

(** ** An engine *)

(** 0.35 and 0.5 as doubles. *)
Definition swap_at : spec_float := S754_finite false 6305039478318694 (-54).
Definition neutral : PeerId → spec_float := λ _, S754_finite false 4503599627370496 (-53).

Definition fresh : DhtCoreEngine :=
  {| engine_node_id := peer 0; routing_table := table_new (peer 0) 4 0; k_value := 4;
     ip_diversity_config := diversity_default; allow_loopback := false;
     swap_threshold := swap_at; live_threshold := LIVE_THRESHOLD; shutdown := false |}.

Lemma fresh_new : engine_new (peer 0) 4 false swap_at 0 = Ok fresh.
Proof. reflexivity. Qed.

(** The engine after [add_node]. *)
Definition after_add (e : DhtCoreEngine) (n : NodeInfo) (now : Instant) : DhtCoreEngine :=
  from_option snd e (engine_add_node neutral e n now).

Lemma after_add_wf e n now : engine_wf e → engine_wf (after_add e n now).
Proof.
  intros Hwf. unfold after_add. by destruct (engine_add_total neutral e n now Hwf) as (r & e' & -> & Hwf').
Qed.

Lemma after_add_step e n now : engine_wf e → engine_step e (after_add e n now).
Proof.
  intros Hwf. destruct (engine_add_total neutral e n now Hwf) as (r & e' & Hop & _). unfold after_add. rewrite Hop.
  by eapply step_add_node.
Qed.

(** The outcome of an admission is what evaluating it says. *)
Lemma after_add_outcome e n now r :
  fst <$> engine_add_node neutral e n now = Some r → engine_add_node neutral e n now = Some (r, after_add e n now).
Proof.
  unfold after_add. destruct (engine_add_node neutral e n now) as [[r' e']|]; [|done].
  intros H%(inj Some). cbn [fst] in H. by subst.
Qed.

(** Four peers of bucket 0, each in a subnet of its own: a full bucket. *)
Definition full : DhtCoreEngine :=
  after_add (after_add (after_add (after_add fresh (node_at 200 (addr 203 0 1 1)) 0) (node_at 210 (addr 203 0 2 1)) 0)
    (node_at 220 (addr 203 0 3 1)) 0) (node_at 230 (addr 203 0 4 1)) 0.

Lemma fresh_wf : engine_wf fresh.
Proof. exact (engine_new_wf _ _ _ _ _ _ fresh_new). Qed.
Lemma full_wf : engine_wf full.
Proof. apply after_add_wf, after_add_wf, after_add_wf, after_add_wf, fresh_wf. Qed.

Lemma member_elem t p : member t p ↔ p ∈ id <$> all_nodes t.
Proof. unfold member. rewrite list_elem_of_fmap. naive_solver. Qed.

(** A newcomer closer than the peer whose subnet it shares takes its place. *)
Definition closer : NodeInfo := node_at 190 (addr 203 0 4 7).
Definition closer_events : list RoutingTableEvent :=
  [PeerRemoved (peer 230); PeerAdded (peer 190);
   KClosestPeersChanged (peer <$> [200; 210; 220; 230]) (peer <$> [190; 200; 210; 220])]%Z.

Lemma closer_admitted :
  engine_add_node neutral full closer 5 = Some (Ok (Admitted_ closer_events), after_add full closer 5).
Proof. apply after_add_outcome. by_decide. Qed.

Lemma admission_events_witness :
  ¬ member (routing_table full) (peer 190) ∧ member (routing_table (after_add full closer 5)) (peer 190) ∧
  ¬ member (routing_table (after_add full closer 5)) (peer 230).
Proof.
  destruct (admission_events neutral full closer 5 closer_events (after_add full closer 5) full_wf closer_admitted)
    as [[Habs _]|(Hnew & gone & _ & _ & Hev & Hmem)]; [discriminate Habs|].
  split; [exact Hnew|]. split; [apply Hmem; right; reflexivity|]. rewrite member_elem. by_decide.
Defined.


Definition bucket0 (e : DhtCoreEngine) : KBucket := default (bucket_new 0 0) (buckets (routing_table e) !! 0).

Lemma bucket0_lookup e : engine_wf e → buckets (routing_table e) !! 0 = Some (bucket0 e).
Proof.
  intros Hwf. unfold bucket0. destruct (lookup_lt_is_Some_2 (buckets (routing_table e)) 0) as [b ->]; [|done].
  rewrite (table_len _ _ (engine_table _ Hwf)). unfold KADEMLIA_BUCKET_COUNT. lia.
Qed.

Lemma admission_diversity_witness :
  (peers_sharing (same_subnet (V4 (ipv4 203 0 4 7))) (bucket0 (after_add full closer 5)) ≤ 1)%N.
Proof.
  destruct (admission_diversity neutral full closer 5 closer_events (after_add full closer 5) 0 (bucket0 full)
    (bucket0 (after_add full closer 5)) (V4 (ipv4 203 0 4 7)) full_wf closer_admitted) as [_ H].
  - rewrite member_elem. by_decide.
  - by_decide.
  - apply bucket0_lookup, full_wf.
  - apply bucket0_lookup, after_add_wf, full_wf.
  - by_decide.
  - reflexivity.
  - eapply N.le_trans; [exact H|]. vm_compute. discriminate.
Defined.

(** A farther newcomer in an occupied subnet is refused. *)
Definition farther : NodeInfo := node_at 250 (addr 203 0 1 9).

Lemma admission_atomic_witness :
  engine_add_node neutral full farther 5 = Some (Err (IpDiversity (mk_exceeded Slash24 1 BucketScope)), full).
Proof.
  destruct (admission_atomic neutral full farther 5 full_wf) as (r & e' & Hop & _ & Hsame).
  assert (Hr : fst <$> engine_add_node neutral full farther 5 =
    Some (Err (IpDiversity (mk_exceeded Slash24 1 BucketScope)))) by by_decide.
  rewrite Hop in Hr |- *. cbn [fmap option_fmap option_map fst] in Hr. apply (inj Some) in Hr. subst r.
  rewrite Hsame; [reflexivity|]. intros events H. discriminate H.
Defined.

(** Much later everybody is stale, and a newcomer with an address of its own
    needs them to be pinged first. *)
Definition outsider : NodeInfo := node_at 240 (addr 198 51 100 1).
Definition later : Instant := (1000 * 10 ^ 9)%Z.

Lemma revalidation_witness :
  engine_add_node neutral full outsider later =
    Some (Ok (StaleRevalidationNeeded (retain_storable_addresses outsider) [V4 (ipv4 198 51 100 1)] 0
      ((λ p, (peer p, 0)) <$> [200; 210; 220; 230]%Z)), full) ∧
  ∃ r e2, re_evaluate_admission neutral full (retain_storable_addresses outsider) [V4 (ipv4 198 51 100 1)] later
    = Some (r, e2) ∧ engine_wf e2 ∧ r ≠ Err StillAtCapacity.
Proof.
  assert (Hop : engine_add_node neutral full outsider later =
    Some (Ok (StaleRevalidationNeeded (retain_storable_addresses outsider) [V4 (ipv4 198 51 100 1)] 0
      ((λ p, (peer p, 0)) <$> [200; 210; 220; 230]%Z)), after_add full outsider later)) by (apply after_add_outcome; by_decide).
  destruct (revalidation_once neutral full outsider later _ _ _ _ _ full_wf Hop) as [[Heq _] Hre].
  split; [rewrite Hop; rewrite Heq; reflexivity|].
  destruct (Hre full neutral later full_wf) as (r & e2 & H1 & H2 & H3 & _). eauto.
Defined.


Lemma with_self_witness :
  id <$> find_nodes_with_self full (peer 1) 2 0 = [peer 0; peer 200] ∧
  find_nodes_with_self full (peer 1) 2 0 =
  take 2 (sort_by_key (λ n, xor_distance (id n) (peer 1)) (self_node full 0 :: all_nodes (routing_table full))).
Proof. split; [by_decide|]. apply (find_nodes_with_self_spec full (peer 1) 2 0 full_wf). Defined.

Lemma find_closest_witness :
  id <$> find_closest_nodes (routing_table full) (peer 215) 2 = [peer 210; peer 220] ∧
  length (find_closest_nodes (routing_table full) (peer 215) 2) = 2.
Proof.
  destruct (find_closest_spec 4 (routing_table full) (peer 215) 2 (engine_table _ full_wf)) as (_ & Hlen & _).
  split; [by_decide|]. rewrite Hlen. vm_compute. reflexivity.
Defined.

Lemma gossip_witness :
  bucket_wf (bucket0 full) ∧
  liveness (bucket_replace_from_gossip (bucket0 full) (peer 200) [(addr 198 51 100 3, Direct)] 77).2 =
  liveness (bucket0 full).
Proof.
  assert (Hwf : bucket_wf (bucket0 full)).
  { destruct (table_bucket _ _ (engine_table _ full_wf) _ _ (bucket0_lookup _ full_wf)) as [H _]. exact H. }
  split; [exact Hwf|].
  destruct (gossip_is_not_liveness (bucket0 full) Hwf) as [_ H].
  destruct (H (peer 200) [(addr 198 51 100 3, Direct)] 77%Z) as [_ H']. exact H'.
Defined.

Lemma find_ip_swap_witness :
  find_ip_swap_in_scope neutral full 5 (nodes (bucket0 full)) (peer 190) (V4 (ipv4 203 0 4 7))
    (xor_distance (peer 0) (peer 190)) BucketScope = Ok (Some (peer 230)) ∧
  ∃ n, id n = peer 230 ∧
    swap_target neutral full 5 (xor_distance (peer 0) (peer 190))
      (matching (peer 190) (same_subnet (V4 (ipv4 203 0 4 7))) (nodes (bucket0 full))) n.
Proof.
  assert (Hr : find_ip_swap_in_scope neutral full 5 (nodes (bucket0 full)) (peer 190) (V4 (ipv4 203 0 4 7))
    (xor_distance (peer 0) (peer 190)) BucketScope = Ok (Some (peer 230))) by by_decide.
  split; [exact Hr|].
  destruct (find_ip_swap_spec neutral full 5 (nodes (bucket0 full)) (peer 190) (V4 (ipv4 203 0 4 7))
    (xor_distance (peer 0) (peer 190)) BucketScope) as (_ & Hsome & _); [reflexivity|by_decide|].
  destruct (Hsome _ Hr) as (n & Hid & [[Hle _]|(_ & _ & Ht)]); [|eauto].
  assert (Hlt : (N.of_nat (length (matching (peer 190) (same_ip (V4 (ipv4 203 0 4 7))) (nodes (bucket0 full))))
    <? limit_ip full)%N = true) by (vm_compute; reflexivity).
  apply N.ltb_lt in Hlt. exfalso. exact (N.lt_irrefl _ (N.lt_le_trans _ _ _ Hlt Hle)).
Defined.

(** ** Where comments and code differ *)

Definition v6_addr : MultiAddr :=
  from_ipv6 (ipv6 [32; 1; 13; 184; 0; 0; 0; 0; 0; 0; 0; 0; 0; 0; 0; 1]%Z) 9000.

Definition two_directs : NodeInfo :=
  {| id := peer 9; naddresses := [v6_addr; addr 198 51 100 7]; naddress_types := [Direct; Direct]; last_seen := 0%Z |}.

Definition with_two_directs : KBucket := set_nodes (bucket_new 4 0) [two_directs].

(** Touching the second direct address again: the read-locked fast path keeps
    the order of the addresses, the merge it stands in for moves the address
    to the front. *)
Example fast_path_is_not_the_merge :
  let fast := touch_last_seen_if_merge_noop with_two_directs (peer 9) (Some (addr 198 51 100 7)) Direct 3 in
  let slow := touch_node_typed with_two_directs (peer 9) (Some (addr 198 51 100 7)) Direct 3 in
  fast.1 = Some true ∧ naddresses <$> nodes fast.2 = [[v6_addr; addr 198 51 100 7]] ∧
  (λ r, naddresses <$> nodes r.2) <$> slow = Some [[addr 198 51 100 7; v6_addr]].
Proof. cbn zeta. split_and!; by_decide. Qed.

(** An upgrade-only merge of an unverified address next to a known direct one
    of its family reports a change and leaves the record as it was. *)
Example upgrade_only_reports_no_change :
  merge_typed_address_upgrade_only (node_at 9 (addr 198 51 100 7)) (addr 198 51 100 8) Unverified =
  Some (true, node_at 9 (addr 198 51 100 7)).
Proof. by_decide. Qed.

(** A record with more tags than addresses makes the merge panic. *)
Example merge_panics_on_surplus_tags :
  merge_typed_address
    {| id := peer 9; naddresses := [addr 198 51 100 7]; naddress_types := [Relay; Relay; Direct]; last_seen := 0%Z |}
    (addr 198 51 100 8) Direct = None.
Proof. by_decide. Qed.

(** ** Publications *)

(** The table after a V1 publication of sequence 5, then a replay of it. *)
Definition publish (t : KademliaRoutingTable) (seq : N) (a : MultiAddr) : KademliaRoutingTable :=
  from_option snd t (replace_with_mode t (peer 200) [(a, Direct)] seq AuthenticatedSelfPublish 9).
Definition published_table : KademliaRoutingTable := publish (routing_table full) 5 (addr 198 51 100 3).

Lemma publish_step k t seq a :
  table_wf k t → table_step t (publish t seq a) ∧ table_wf k (publish t seq a).
Proof.
  intros Hwf. unfold publish.
  destruct (replace_with_mode_wf k t (peer 200) [(a, Direct)] seq AuthenticatedSelfPublish 9 Hwf) as (r & t' & Hop & Hwf').
  rewrite Hop. split; [by eapply step_replace|done].
Qed.

Lemma published_table_wf : table_wf 4 published_table.
Proof. apply (publish_step 4 (routing_table full) 5 (addr 198 51 100 3) (engine_table _ full_wf)). Qed.

Lemma publication_witness :
  stored_addresses published_table (peer 200) = Some ([addr 198 51 100 3], [Direct]) ∧
  same_record published_table (publish published_table 5 (addr 198 51 100 4)) (peer 200) ∧
  publish_seq_for (publish published_table 6 (addr 198 51 100 4)) (peer 200) = 6%N.
Proof.
  assert (Hwf : table_wf 4 published_table) by exact published_table_wf. destruct (publish_step 4 published_table 5 (addr 198 51 100 4) Hwf) as [Hstep _].
  split; [by_decide|]. split; [|by_decide].
  destruct (publication_authority 4 published_table (publish published_table 5 (addr 198 51 100 4)) (peer 200) Hwf Hstep) as [H|[H|H]].
  - vm_compute. reflexivity.
  - exact H.
  - exfalso. assert (Hv : bool_decide (tlt (pub_version published_table (peer 200))
      (pub_version (publish published_table 5 (addr 198 51 100 4)) (peer 200))) = false) by (vm_compute; reflexivity).
    apply bool_decide_eq_false in Hv. exact (Hv H).
  - exfalso. apply H. rewrite member_elem. by_decide.
Defined.
End EngineSamples.
