(* ===== verification/ConfigSamples.v ===== *)
(** * Configurations at work

    The theorems of [Config] applied to a node that starts, and two
    configurations that do not do what they say. *)

From Stdlib Require Import Ascii String SpecFloat.
From stdpp Require Import prelude gmap strings.
From S2P Require Import Prelude Float Keys Ip Address Models PeerRecord DualStack DualStackSamples Snapshots SignedAddress SignedSamples Identity NodeInfo RoutingTable Diversity Engine EngineSamples Tasks Maintenance Config.

Module ConfigSamples.
Import EngineSamples.

#[local] Existing Instance plain_transport.
#[local] Existing Instance SignedSamples.plain_postcard.
#[local] Existing Instance SignedSamples.toy_crypto.
#[local] Existing Instance set_order.

(** A development node whose IPv4 port the IPv6 socket has taken. *)
Definition public_node : NodeConfig := built [SetPort 9000; SetAllowLoopback true; SetLocal false; BootstrapPeer (addr 203 0 1 1)].
Definition drawn := Some (SignedSamples.alice_key, SignedSamples.alice_key).

Definition is_ok {A E} (r : result A E) : bool := match r with Ok _ => true | Err _ => false end.

Lemma node_start_witness :
  is_ok (node_new public_node drawn Bound AddrInUse 0).2 = true ∧
  startable public_node drawn Bound AddrInUse.
Proof.
  split; [by vm_compute|].
  pose proof (node_start_exact DualStackSamples.unmap DualStackSamples.unmap_v4 DualStackSamples.unmap_v6 public_node drawn Bound AddrInUse 0) as H.
  destruct (node_new public_node drawn Bound AddrInUse 0) as [acquired out] eqn:Hn. destruct H as [_ H].
  assert (Hok : is_ok (node_new public_node drawn Bound AddrInUse 0).2 = true) by (by vm_compute). rewrite Hn in Hok.
  destruct out as [node|e]; [|done]. by destruct H as [H _].
Defined.

(** What a start has acquired and why it failed. *)
Definition outcome (r : list Acquired * result P2PNode NodeError) : list Acquired * option NodeError :=
  (r.1, match r.2 with Ok _ => None | Err e => Some e end).

(** In local mode there is no such fallback. *)
Lemma local_port_taken : outcome (node_new (built [SetLocal true; SetPort 9000]) drawn Bound AddrInUse 0) = ([KeysGenerated], Some TransportSetupFailed).
Proof. by vm_compute. Qed.

(** "Reject invalid config early, before any resources are allocated": a
    threshold out of range is found when the sockets are bound. *)
Lemma threshold_checked_late :
  outcome (node_new (built [SetAdaptive (mk_adaptive f64_one)]) drawn Bound Bound 0) =
    ([KeysGenerated; SocketsBound (with_transports true true)], Some SwapThresholdInvalid) ∧
  outcome (node_new (built [SetDhtConfig (mk_dht_config 3 3 (from_secs 600))]) drawn Bound Bound 0) =
    ([KeysGenerated], Some (DhtConfigInvalid (KValueBelowMinimum 3))).
Proof. split; by vm_compute. Qed.

(** A full node under a name of its own is a client to everybody else: they
    discover it and leave it out of their tables. *)
Lemma renamed_node_left_out :
  let c := built [SetMode Node; SetCustomUserAgent "my-app/1.0"] in
  enable_relay_service (from_node_config c 1000 (identity_of SignedSamples.alice_key SignedSamples.alice_key)) = true ∧
  handle_peer_connected (peer 7) (user_agent c) (Some [addr 203 0 1 7]) neutral 0 =
    task_step (λ s, sent s (DhtPeerDiscovered (peer 7) (peer 7))) Finished.
Proof. split; reflexivity. Qed.

(** Only the labels of the entries with the source's socket count. *)
Lemma route_examples :
  classify_peer_route_from_typed (Some (addr 203 0 1 7)) [(addr 203 0 1 8, Direct); (addr 203 0 1 7, Relay); (addr 203 0 1 7, Relay)] = RouteRelay ∧
  classify_peer_route_from_typed (Some (addr 203 0 1 7)) [(addr 203 0 1 7, Relay); (addr 203 0 1 7, Direct)] = RouteUnknown.
Proof. split; by vm_compute. Qed.

(** ** Identities on disk *)

(** Documents of a byte list each way; a fragment does not parse. *)
Definition identity_text (d : IdentityData) : string := "{" +:+ bits (encode (data_secret_key d, data_public_key d)) +:+ "}".
Definition closed_text (s : string) : option string :=
  match s with
  | String "{"%char s => if String.eqb (str_drop (String.length s - 1) s) "}" then Some (str_take (String.length s - 1) s) else None
  | _ => None
  end.
Definition identity_of_text (s : string) : option IdentityData :=
  x ← closed_text s; p ← parse_bits x; y ← decode (A := list Z * list Z) p; Some (mk_identity_data y.1 y.2).

Lemma identity_text_roundtrip d : identity_of_text (identity_text d) = Some d.
Proof.
  destruct d as [sk pk]. unfold identity_of_text, identity_text. cbn [data_secret_key data_public_key].
  change ("{" +:+ bits (encode (sk, pk)) +:+ "}") with (String "{"%char (bits (encode (sk, pk)) +:+ "}")). cbn [closed_text].
  assert (Hlen : ∀ s, String.length (s +:+ "}") = String.length s + 1) by (intros s; induction s as [|x s IH]; [done|exact (f_equal S IH)]).
  rewrite Hlen.
  rewrite Nat.add_sub, str_take_app. replace (String.length (bits (encode (sk, pk)))) with (String.length (bits (encode (sk, pk))) + 0) by lia.
  rewrite str_drop_app. cbn. by rewrite parse_bits_bits; cbn; rewrite decode_encode.
Qed.

Definition toy_keys : KeyLib.
Proof.
  refine {|
    sk_from_bytes := SignedSamples.octets_or_error;
    sk_as_bytes := octets;
    generate_keypair_from_seed l := (octets (octets_from SignedSamples.TOY_KEY_SIZE (be_combine l)), octets (octets_from SignedSamples.TOY_KEY_SIZE (be_combine l)));
    hkdf_derive seed _ := Some seed;
    identity_to_json := identity_text;
    identity_from_json := identity_of_text;
  |}.
  - intros k. apply SignedSamples.octets_or_error_octets.
  - apply identity_text_roundtrip.
Defined.
#[local] Existing Instance toy_keys.

Definition our_identity : NodeIdentity := identity_of SignedSamples.alice_key SignedSamples.alice_key.
Definition on_disk : DiskFile := (save_to_file our_identity None Missing).2.

Lemma identity_persists_witness : identity_wf our_identity ∧ load_from_file (save_to_file our_identity None Missing).2 = Ok our_identity.
Proof. split; [reflexivity|]. exact (identity_persists our_identity None Missing eq_refl). Defined.

(** The file is written in place: a save that stops half-way, of the very
    identity that is stored, leaves a node without one. *)
Definition load_error (r : result NodeIdentity IdentityError) : option IdentityError := match r with Ok _ => None | Err e => Some e end.
Lemma interrupted_save_loses_identity :
  load_from_file on_disk = Ok our_identity ∧
  load_error (load_from_file (save_to_file our_identity (Some (StoppedAfter 40)) on_disk).2) = Some DeserializeFailed.
Proof. split; [apply identity_persists_witness|by vm_compute]. Qed.

End ConfigSamples.
