(* ===== verification/MaintenanceSamples.v ===== *)
(** * The manager's bookkeeping at work

    Pools of maintenance tasks on the engines of [EngineSamples]: the theorems
    of [Maintenance] applied, and two schedules after which subscribers are
    misinformed. *)

From Stdlib Require Import SpecFloat.
From stdpp Require Import prelude gmap strings.
From S2P Require Import Prelude Float Keys Ip Address Models PeerRecord SignedAddress NodeInfo KBucket RoutingTable Diversity SignedSamples Engine Admission EngineQueries EngineSamples DialFailure DialPolicy Tasks Maintenance Refresh.

Module MaintenanceSamples.
Import EngineSamples.

#[local] Existing Instance plain_transport.
#[local] Existing Instance SignedSamples.plain_postcard.
#[local] Existing Instance set_order.

Definition connects (p : Z) (a : MultiAddr) (now : Instant) : MaintenanceOp :=
  Connected (peer p) "node/1" (Some [a]) neutral now.

(** Tasks by their operations; [steps n i] is [n] steps of the [i]-th. *)
Definition play (ops : list MaintenanceOp) (order : list nat) : pool Maintained :=
  schedule (maintenance <$> ops) order (maintained_new fresh).
Definition steps (n i : nat) : list nat := replicate n i.
Definition finished (t : task Maintained) : bool := match t with Finished => true | _ => false end.

Lemma play_reached ops order : rtc (pool_step maintenance_tasks) ([], maintained_new fresh) ((play ops order).1, (play ops order).2).
Proof. rewrite <-surjective_pairing. apply schedule_rtc. apply Forall_fmap, Forall_true. intros o. by exists o. Qed.

Lemma all_finished (ts : list (task Maintained)) : forallb finished ts = true → Forall (λ u, u = Finished) ts.
Proof. induction ts as [|[|f k] ts IH]; cbn; [constructor|by constructor; auto|done]. Qed.

(** Four peers fill a bucket; a fifth comes when they are stale. *)
Definition later : Instant := 1000 * 10 ^ 9.
Definition crowd : list MaintenanceOp :=
  [connects 200 (addr 203 0 1 1) 0; connects 210 (addr 203 0 2 1) 0; connects 220 (addr 203 0 3 1) 0;
   connects 230 (addr 203 0 4 1) 0; connects 250 (addr 203 0 9 1) later].
Definition all_connect : list nat := concat (steps 9 <$> [0; 1; 2; 3; 4]).

(** Nobody answers: the four are evicted and the fifth is admitted. *)
Definition replaced : pool Maintained :=
  play (crowd ++ [RunSpawned 0 (λ _, false) None neutral later]) (all_connect ++ steps 30 5).

Lemma membership_witness :
  swallowed replaced.2 = [] ∧ joined (peer 200) (announced replaced.2) = 1 ∧ left_ (peer 200) (announced replaced.2) = 1 ∧
  member (routing_table (dht replaced.2)) (peer 250).
Proof.
  destruct (membership_announced _ _ _ _ _ _ _ _ fresh_new (play_reached _ _ : _ _ (replaced.1, replaced.2)))
    as (_ & _ & _ & _ & H).
  destruct H as [_ H]; [apply all_finished; by vm_compute|]. split_and!; [by_decide..|].
  specialize (H ltac:(by_decide) (peer 250)). destruct (decide (member _ _)) as [Hm|_]; [exact Hm|].
  exfalso. assert (H1 : joined (peer 250) (announced replaced.2) = 1) by by_decide.
  assert (H0 : left_ (peer 250) (announced replaced.2) = 0) by by_decide. lia.
Defined.

(** The same while the four are being pinged. *)
Definition pinging : pool Maintained :=
  play (crowd ++ [RunSpawned 0 (λ _, false) None neutral later]) (all_connect ++ steps 4 5).

Lemma pings_witness :
  pings pinging.2 = 4 ∧ bucket_revalidation_active pinging.2 = {[0]} ∧
  pings pinging.2 ≤ size (bucket_revalidation_active pinging.2) * MAX_CONCURRENT_REVALIDATION_PINGS.
Proof.
  split_and!; [by_decide..|].
  exact (proj1 (proj2 (revalidation_bounded _ _ _ _ _ _ _ _ fresh_new (play_reached _ _ : _ _ (pinging.1, pinging.2))))).
Defined.

(** Peer 200 does not answer.  While it is pinged, two others leave and two
    strangers with the candidate's address, both closer, take their place.
    Peer 200 is evicted, the candidate is refused, and nobody hears of the
    eviction. *)
Definition refused : pool Maintained :=
  play (crowd ++ [RunSpawned 0 (λ p, negb (bool_decide (p = peer 200))) None neutral later; EvictPeer (peer 210); EvictPeer (peer 220);
                  connects 241 (addr 203 0 9 1) later; connects 242 (addr 203 0 9 1) later])
    (all_connect ++ steps 5 5 ++ concat (steps 9 <$> [6; 7; 8; 9]) ++ steps 9 5).

Lemma departure_swallowed :
  forallb finished refused.1 = true ∧ PeerRemoved (peer 200) ∈ swallowed refused.2 ∧
  has_node (dht refused.2) (peer 200) = false ∧
  joined (peer 200) (announced refused.2) = 1 ∧ left_ (peer 200) (announced refused.2) = 0 ∧
  close_group (announced refused.2) ≠ close_of (dht refused.2).
Proof. split_and!; by_decide. Qed.

(** A peer connects and is evicted before its [PeerAdded] is broadcast: the
    last a subscriber hears is that it joined. *)
Definition overtaken : pool Maintained :=
  play [connects 200 (addr 203 0 1 1) 0; EvictPeer (peer 200)] (steps 1 0 ++ steps 9 1 ++ steps 9 0).

Lemma events_overtaken :
  forallb finished overtaken.1 = true ∧ swallowed overtaken.2 = [] ∧ has_node (dht overtaken.2) (peer 200) = false ∧
  announced overtaken.2 =
    [PeerRemoved (peer 200); KClosestPeersChanged [peer 200] []; PeerAdded (peer 200); KClosestPeersChanged [] [peer 200]].
Proof. split_and!; by_decide. Qed.

(** 128 passes over a table nobody speaks to: the last one reaches bucket
    255. *)
Definition nth_pass (n : nat) : Pass :=
  let now := ((100 + Z.of_nat n) * SECOND)%Z in {| pass_now := now; pass_jitters := replicate 256 0%Z; pass_marks := [now; now] |}.
Definition untouched : KademliaRoutingTable := table_new (peer 0) 4 0.
Fixpoint refreshed (n : nat) : KademliaRoutingTable * list nat :=
  match n with
  | O => (untouched, [])
  | S n => let '(t, sel) := refreshed n in (refresh_pass t (nth_pass n), sel ++ selected t (nth_pass n))
  end.

Definition quietb (B : nat) (t : KademliaRoutingTable) : bool :=
  match buckets t !! B with
  | Some b => (last_refreshed_by_live_peer b <=? 0)%Z && (last_probe_finished b <=? 0)%Z
  | None => false
  end.
Fixpoint quiet_until (n : nat) (t : KademliaRoutingTable) (rest : nat) : bool :=
  match rest with
  | O => true
  | S rest => quietb 255 t && quiet_until (S n) (refresh_pass t (nth_pass n)) rest
  end.

Lemma nth_pass_ok n : (n < 256)%nat → pass_ok 0 (nth_pass n).
Proof.
  intros Hn. constructor; cbn [nth_pass pass_now pass_jitters pass_marks]; unfold BUCKET_REFRESH_SELECTION_JITTER, SECOND; [lia|lia|done| |done|].
  - apply Forall_replicate. lia.
  - repeat constructor; lia.
Qed.

Lemma refreshed_passes n rest : (n + rest ≤ 256)%nat → quiet_until n (refreshed n).1 rest = true →
  passes 255 0 untouched (nth_pass <$> seq 0 n) (refreshed n).2 (refreshed n).1 →
  passes 255 0 untouched (nth_pass <$> seq 0 (n + rest)) (refreshed (n + rest)).2 (refreshed (n + rest)).1.
Proof.
  revert n. induction rest as [|rest IH]; intros n Hn Hq Hp; [by rewrite Nat.add_0_r|].
  cbn [quiet_until] in Hq. apply andb_true_iff in Hq as [Hb Hq]. rewrite <-Nat.add_succ_comm.
  assert (Hstep : passes 255 0 untouched (nth_pass <$> seq 0 (S n)) (refreshed (S n)).2 (refreshed (S n)).1).
  { rewrite seq_S, fmap_app. cbn [refreshed]. destruct (refreshed n) as [t sel]. cbn [fst snd] in *.
    eapply passes_one; [exact Hp| | |apply nth_pass_ok; lia].
    - split; [done|]. intros i b b' H1 H2. simplify_eq. lia.
    - unfold quietb in Hb. unfold quiet. destruct (buckets t !! 255) as [b|]; [|done]. exists b. rewrite andb_true_iff, !Z.leb_le in Hb. tauto. }
  apply IH; [lia| |exact Hstep]. cbn [refreshed]. by destruct (refreshed n).
Qed.

Lemma refresh_witness : 255 ∈ (refreshed 128).2.
Proof.
  apply (refresh_fair 255 0 untouched (nth_pass <$> seq 0 128) (refreshed 128).2 (refreshed 128).1).
  - apply (refreshed_passes 0 128); [lia|by_decide|]. by constructor.
  - by_decide.
  - by_decide.
Defined.
End MaintenanceSamples.
