(* ===== verification/MessageSamples.v ===== *)
(** * Publications and messages at work

    A node that knows Alice, her publication and her messages, over the models
    of [SignedSamples] and [EngineSamples]; the codec knows a list of
    messages. *)

From Stdlib Require Import SpecFloat.
From stdpp Require Import prelude sorting gmap strings.
From S2P Require Import Prelude Float Keys Ip Address Models PeerRecord SelfAddress SignedAddress DialFailure DialPolicy NodeInfo KBucket RoutingTable Diversity CanaryWitness SignedSamples Engine Admission EngineQueries Publications Messages EngineSamples.

Module MessageSamples.
Import SignedSamples.

#[local] Existing Instance plain_transport.
#[local] Existing Instance plain_postcard.
#[local] Existing Instance toy_crypto.

(** ** Publications *)

Definition me : PeerId := EngineSamples.peer 0.
Definition here : DialAddressContext := from_parts [SocketV4 (ipv4 198 51 100 1) 9000] [] false.
Definition around : Surroundings := mk_surroundings me false here None.

(** Alice's LAN address is not for us. *)
Definition alice_kept : list TransportAddressRecord := [quic_record alice_addr KDirect; opaque_record].

Lemma validated_witness :
  validate_transport_address_records false here alice alice_records None = Some (alice_kept, [(alice_addr, Direct)]) ∧
  length alice_kept ≤ MAX_TRANSPORT_ADDRESS_RECORDS.
Proof.
  assert (Hv : validate_transport_address_records false here alice alice_records None =
               Some (alice_kept, [(alice_addr, Direct)])) by by_decide.
  split; [exact Hv|].
  exact (proj2 (proj1 (validated_records_sound false here alice alice_records None alice_kept _ Hv))).
Defined.

Definition alice_published : list TransportAddressRecord :=
  [quic_record alice_addr KDirect; quic_record alice_lan KLan].


(** One browser endpoint is registered; its duplicate and a QUIC address are
    not. *)
Definition browser : MultiAddr := webrtc_direct (SocketV4 (ipv4 203 0 113 9) 9443, 7%N).
Definition offered : list MultiAddr := [browser; alice_addr; with_peer_id browser alice].

Lemma supplemental_witness :
  supplemental_report alice offered =
    ([with_peer_id browser alice], [(alice_addr, UnsupportedTransport); (with_peer_id browser alice, Duplicate)]) ∧
  ∃ all, complete_transport_address_records alice [with_peer_id browser alice]
           [(alice_addr, Direct); (alice_lan, Lan)] = Ok all ∧ alice_published ⊆ all.
Proof.
  assert (Hr : supplemental_report alice offered =
    ([with_peer_id browser alice], [(alice_addr, UnsupportedTransport); (with_peer_id browser alice, Duplicate)]))
    by by_decide.
  assert (Hc : complete_transport_address_records alice [] [(alice_addr, Direct); (alice_lan, Lan)] = Ok alice_published)
    by by_decide.
  split; [exact Hr|].
  destruct (supplemental_always_publishable alice offered [(alice_addr, Direct); (alice_lan, Lan)] alice_published Hc
    ltac:(vm_compute; lia)) as (_ & _ & all & Hall & Hsub & _).
  rewrite Hr in Hall. exact (ex_intro _ all (conj Hall Hsub)).
Defined.

(** The clock stands still, jumps back and is before the epoch. *)
Definition publications : list (list TransportAddressRecord * option N) :=
  [(alice_published, Some 100%N); (alice_published, Some 100%N); (alice_kept, Some 100%N); (alice_records, Some 3%N);
   (alice_kept, None)].

Definition alice_run : list (option SignedAddressRecord) :=
  publish_run (identity_of alice_key alice_key) None publications.

Lemma sequences_witness :
  (option_map signed_sequence) <$> alice_run =
    [Some 100%N; Some 100%N; Some 101%N; Some 102%N; Some 103%N] ∧
  match alice_run !! 1, alice_run !! 4 with
  | Some (Some x), Some (Some y) => follows x y
  | _, _ => False
  end.
Proof.
  assert (Hseq : (option_map signed_sequence) <$> alice_run =
                 [Some 100%N; Some 100%N; Some 101%N; Some 102%N; Some 103%N]) by by_decide.
  split; [exact Hseq|].
  destruct (alice_run !! 1) as [[x|]|] eqn:Hx, (alice_run !! 4) as [[y|]|] eqn:Hy.
  all: try (pose proof (f_equal (λ l, l !! 1) Hseq) as H1; rewrite list_lookup_fmap, Hx in H1; discriminate H1).
  all: try (pose proof (f_equal (λ l, l !! 4) Hseq) as H4; rewrite list_lookup_fmap, Hy in H4; discriminate H4).
  exact (proj1 (publication_sequences_increase alice_key alice_key publications 1 4 x y eq_refl ltac:(lia) Hx Hy)).
Defined.

(** ** A node that knows Alice *)

Definition alice_node : NodeInfo :=
  {| id := alice; naddresses := [alice_addr]; naddress_types := [Unverified]; last_seen := 0%Z |}.
Definition knows_alice : DhtCoreEngine := EngineSamples.after_add EngineSamples.fresh alice_node 0.

Lemma knows_alice_wf : engine_wf knows_alice.
Proof. apply EngineSamples.after_add_wf. eapply engine_new_wf, EngineSamples.fresh_new. Qed.

Definition start : Manager := mk_manager knows_alice dial_cache_new [] None.

Definition request (op : DhtNetworkOperation) : DhtNetworkMessage :=
  mk_message "a" alice None Request op None 0 10 0 [].

(** Alice may publish for Alice, Mallory may not. *)
Definition result_of (sender : PeerId) : option (bool * list (MultiAddr * AddressType)) :=
  (λ r, (is_ok r.1, get_node_addresses_typed (dht r.2) alice)) <$>
    handle_dht_request start around (request (PublishAddressSetV2 alice_signed)) sender 5.

Lemma request_witness :
  result_of alice = Some (true, [(alice_addr, Direct)]) ∧
  result_of (EngineSamples.peer 66) = Some (false, [(alice_addr, Unverified)]) ∧
  ∃ r m', handle_dht_request start around (request (PublishAddressSetV2 alice_signed)) (EngineSamples.peer 66) 5 = Some (r, m') ∧
    engine_wf (dht m') ∧ same_record (routing_table knows_alice) (routing_table (dht m')) alice.
Proof.
  split; [by_decide|]. split; [by_decide|].
  destruct (request_confined_to_sender start around (request (PublishAddressSetV2 alice_signed)) (EngineSamples.peer 66) 5
    knows_alice_wf) as (r & m' & H1 & H2 & _ & _ & H3 & _). exists r, m'. split; [exact H1|]. split; [exact H2|].
  apply H3. by_decide.
Defined.

(** ** A lookup answer *)

Definition claimed_alice : DHTNode :=
  {| node_peer_id := alice; addresses := [EngineSamples.addr 198 51 100 66]; address_types := [Direct];
     distance := encode_publish_seq_distance 99; reliability := f64_one; address_authority := None |}.

(** Mallory's claim about Alice counts for nothing, Alice's signature does. *)
Definition authority_of (records : list SignedAddressRecord) : option (list (option N)) :=
  option_map (λ r, List.map (λ n, option_map authority_sequence (address_authority n)) r.1)
    (normalize_lookup_answer start around [claimed_alice] records (EngineSamples.peer 66) 5).

Lemma answer_witness :
  authority_of [] = Some [None] ∧ authority_of [alice_signed] = Some [Some 4%N] ∧
  ∃ out m', normalize_lookup_answer start around [claimed_alice] [alice_signed] (EngineSamples.peer 66) 5 = Some (out, m') ∧
    engine_wf (dht m') ∧ node_peer_id <$> out = [alice].
Proof.
  split; [by_decide|]. split; [by_decide|].
  destruct (lookup_answer_authority start around [claimed_alice] [alice_signed] (EngineSamples.peer 66) 5 knows_alice_wf)
    as (out & m' & H1 & H2 & _ & H3 & _). exists out, m'. split; [exact H1|]. split; [exact H2|exact H3].
Defined.

(** ** Requests and responses *)

Definition idle : Exchange := mk_exchange start ∅ [].
Definition asked : Exchange := with_operations idle (open_request ∅ "a" alice Ping (seconds 5) 0).
Definition pong (p : PeerId) : DhtNetworkMessage :=
  mk_message "a" p None Response Ping (Some (PongReceived p 0)) 0 9 1 [].
Definition after (x : Exchange) (msg : DhtNetworkMessage) (p : PeerId) : Exchange :=
  default x (handle_dht_response x around msg (Some p) 5).
Definition forged : Exchange := after asked (pong (EngineSamples.peer 66)) (EngineSamples.peer 66).
Definition answered : Exchange := after forged (pong alice) alice.
Definition repeated : Exchange := after answered (pong alice) alice.

Lemma after_run x opened msg p :
  exchange_run start x opened → match handle_dht_response x around msg (Some p) 5 with Some _ => true | None => false end = true →
  exchange_run start (after x msg p) opened.
Proof.
  intros Hrun Hok. eapply run_more; [exact Hrun|]. apply step_response with (w := around) (msg := msg) (canonical := Some p) (now := 5%Z).
  unfold after. by destruct (handle_dht_response _ _ _ _ _).
Qed.

Lemma repeated_run : exchange_run start repeated [("a", alice, Ping)].
Proof.
  unfold repeated, answered, forged. do 3 (apply after_run; [|vm_compute; reflexivity]).
  eapply run_more; [apply run_start|]. apply (step_open idle [] "a" alice Ping (seconds 5) 0), not_elem_of_nil.
Qed.


(** ** A response on the wire *)

Definition answer : DhtNetworkMessage :=
  mk_message "a" me (Some alice) Response (FindNode alice)
    (Some (NodesFound alice [with_authority claimed_alice (Some (Signed (mk_verified alice_signed))) None])) 7 9 1 [].

(** The codec of a single message. *)
#[local] Instance one_message : MessageCodec.
Proof.
  refine {|
    to_stdvec_message msg := if bool_decide (erase msg = erase (legacy_message answer)) then Ok [1%Z] else Err "unknown";
    take_from_bytes_message bytes :=
      match bytes with
      | b :: rest => if (b =? 1)%Z then Ok (erase (legacy_message answer), rest) else Err "unknown"
      | [] => Err "unknown"
      end;
  |}.
  intros msg bytes rest. destruct (bool_decide_reflect (erase msg = erase (legacy_message answer))) as [->|]; [|done].
  by intros [= <-].
Defined.

Lemma response_witness :
  match encode_response_message answer with
  | Ok bytes =>
      length bytes ≤ MAX_MESSAGE_SIZE ∧
      ∃ l, decode_message bytes = Ok (Messages.with_result answer (wire_result answer) l) ∧ l `sublist_of` [alice_signed]
  | Err _ => False
  end.
Proof.
  destruct (encode_response_message answer) as [bytes|e] eqn:He.
  - destruct (response_roundtrip answer bytes) as (H1 & l & H2 & H3 & _); [reflexivity| |exact He|].
    + constructor; [vm_compute; reflexivity|constructor].
    + split; [exact H1|]. exists l. split; [exact H2|exact H3].
  - assert (Hok : is_ok (encode_response_message answer) = true) by (vm_compute; reflexivity).
    rewrite He in Hok. discriminate Hok.
Defined.
End MessageSamples.
