(* ===== verification/NetworkSamples.v ===== *)
(** * Network lookups at work

    The node of [MessageSamples] that knows Alice looks up a key: Alice
    answers and names Bob, Bob answers. *)

From Stdlib Require Import SpecFloat.
From stdpp Require Import prelude sorting gmap strings.
From S2P Require Import Prelude Float Keys Lookup LookupRun Ip Address Models PeerRecord SignedAddress DialFailure DialPolicy ClientRouting NodeInfo RoutingTable SignedSamples Engine Admission EngineQueries Publications Messages EngineSamples MessageSamples NetworkLookup.
Import Lookup LookupRun.

Module NetworkSamples.
Import SignedSamples MessageSamples.

#[local] Existing Instance plain_transport.
#[local] Existing Instance plain_postcard.
#[local] Existing Instance toy_crypto.
#[local] Existing Instance plain_hex.
#[local] Existing Instance EngineSamples.set_order.

Definition bob : PeerId := EngineSamples.peer 66.
Definition bob_node : DHTNode :=
  {| node_peer_id := bob; addresses := [EngineSamples.addr 198 51 100 66]; address_types := [Direct];
     distance := None; reliability := f64_one; address_authority := None |}.

Definition quiet (i : nat) : Moment := mk_moment here (λ _, false) 5 (λ m, m).

(** Bob completes before Alice when both are asked. *)
Definition everyone (i : nat) (key : LookupKey) (batch : list DHTNode) : list (nat * Answer) :=
  reverse (imap (λ i n, (i, mk_answer None (Some (NodesFound key
    (if bool_decide (node_peer_id n = alice) then [bob_node; claimed_alice] else []))))) batch).

Definition unused : NativeFindNodeQuery := mk_query start 0 ∅ ∅ ∅.

Lemma unused_inv : query_inv unused.
Proof. split; [exact knows_alice_wf|]. intros s r p n. cbn. by rewrite lookup_empty. Qed.

Definition run (count : nat) (view_count : option nat) (deadline : option nat) :=
  find_closest_nodes_network_with_deadline (λ a, a) me false [] quiet everyone start alice count view_count deadline unused.

(** Without a deadline the lookup finds Alice, itself and Bob; a deadline that
    comes at once leaves the node itself. *)
Definition peers_of (deadline : option nat) : option (list PeerId * list PeerId) :=
  match run 3 None deadline with
  | Some (Ok out, Some l, _) => Some (node_peer_id <$> closest_nodes out, query_order l)
  | _ => None
  end.

Lemma network_lookup_witness :
  peers_of None = Some ([alice; me; bob], [alice; bob]) ∧ peers_of (Some 0) = Some ([me], []) ∧
  ∃ out l q, run 3 None None = Some (Ok out, Some l, q) ∧ length (node_peer_id <$> closest_nodes out) ≤ 3.
Proof.
  split; [by_decide|]. split; [by_decide|].
  destruct (network_lookup_sound (λ a, a) me false [] quiet everyone (λ _ _ H, H) start alice 3 None None unused
    knows_alice_wf unused_inv) as (out & l & q & Hrun & _ & Hlen & _).
  exists out, l, q. split; [exact Hrun|exact Hlen].
Defined.

Definition group (count : nat) : option (result WitnessedCloseGroup WitnessError) :=
  find_witnessed_close_group_with_view_count (λ a, a) me false [] quiet everyone start alice count 2 None unused.

Definition members_of (count : nat) : option (list PeerId * list (PeerId * list PeerId)) :=
  match group count with
  | Some (Ok g) => Some (List.map node_peer_id (initial_closest g),
                         List.map (λ v : PeerId * list DHTNode, (v.1, List.map node_peer_id v.2)) (responder_views g))
  | _ => None
  end.

Definition missing_of (count : nat) : option nat :=
  match group count with Some (Err (InsufficientPeers n)) => Some n | _ => None end.

End NetworkSamples.
