(* ===== verification/CloserSamples.v ===== *)
(** * Closer peers at work

    Bob answers the node of [MessageSamples] with Alice, himself and the node
    itself, and attaches Alice's publication; the theorems of [CloserPeers]
    applied. *)

From Stdlib Require Import SpecFloat.
From stdpp Require Import prelude sorting gmap strings.
From S2P Require Import Prelude Float Keys Ip Address Models PeerRecord SignedAddress DialFailure DialPolicy ClientRouting NodeInfo RoutingTable CanaryWitness SignedSamples Engine Admission Publications Messages EngineSamples MessageSamples NetworkLookup NetworkSamples CloserPeers.

Module CloserSamples.
Import SignedSamples MessageSamples NetworkSamples.

#[local] Existing Instance plain_transport.
#[local] Existing Instance plain_postcard.
#[local] Existing Instance toy_crypto.
#[local] Existing Instance plain_hex.
#[local] Existing Instance EngineSamples.set_order.

Definition this_node : DHTNode :=
  {| node_peer_id := me; addresses := [EngineSamples.addr 198 51 100 1]; address_types := [Direct];
     distance := None; reliability := f64_one; address_authority := None |}.
Definition named : list DHTNode := [this_node; bob_node; claimed_alice].

(** The codec of one body. *)
#[local] Instance one_body : CloserPeersCodec.
Proof.
  refine {|
    to_bytes_closer key nodes := if bool_decide (key = alice ∧ erase_node <$> nodes = erase_node <$> named) then Ok [7%Z] else Err "unknown";
    take_from_bytes_closer bytes :=
      match bytes with
      | b :: rest => if (b =? 7)%Z then Ok (alice, erase_node <$> named, rest) else Err "unknown"
      | [] => Err "unknown"
      end;
  |}.
  intros key nodes bytes rest. case_bool_decide as Hk; [|done]. destruct Hk as [-> ->]. by intros [= <-].
Defined.

Definition payload : list Z :=
  match append_lookup_extension [CLOSER_PEERS_FORMAT; 7%Z] [alice_signed] with Ok bytes => bytes | Err _ => [] end.
Definition read (key : PeerId) (bytes : list Z) : option (result (list DHTNode) MessageError) :=
  fst <$> decode_closer_peers (λ a, a) me false quiet unused bob key bytes None.
Definition found (key : PeerId) (bytes : list Z) : option (list (PeerId * option N)) :=
  match read key bytes with
  | Some (Ok l) => Some (List.map (λ n, (node_peer_id n, option_map authority_sequence (address_authority n))) l)
  | _ => None
  end.

End CloserSamples.
