(* ===== verification/DiscoverySamples.v ===== *)
(** * Discovery at work

    Two peers answer the node of [MessageSamples]; the theorem of [Discovery]
    applied, and an answer that hides a peer. *)

From Stdlib Require Import SpecFloat.
From stdpp Require Import prelude sorting gmap strings.
From S2P Require Import Prelude Float Keys Ip Address Models PeerRecord SignedAddress DialFailure DialPolicy Snapshots ClientRouting NodeInfo RoutingTable Refresh SignedSamples Engine Admission Publications Messages EngineSamples MessageSamples NetworkLookup NetworkSamples Discovery.

Module DiscoverySamples.
Import SignedSamples MessageSamples NetworkSamples.

#[local] Existing Instance plain_transport.
#[local] Existing Instance plain_postcard.
#[local] Existing Instance toy_crypto.
#[local] Existing Instance plain_hex.
#[local] Existing Instance EngineSamples.set_order.

Definition bare_bob : DHTNode :=
  {| node_peer_id := bob; addresses := []; address_types := []; distance := None; reliability := f64_one; address_authority := None |}.

(** The [i]-th answer names the [i]-th of some lists. *)
Definition says (l : list (list DHTNode)) (i : nat) : Answer := mk_answer None (NodesFound alice <$> l !! i).
Definition all_fail (_ : nat) : Dialling := mk_dialling false false.

Definition discovered (mode : NodeMode) (l : list (list DHTNode)) : option (nat * list PeerId * option nat) :=
  (λ x, (x.1.1, node_peer_id <$> dialled x.1.2, stopped_at x.1.2)) <$>
    bootstrap_from_peers me false quiet (says l) all_fail mode unused ((λ _, alice) <$> l).

(** Each peer named is dialled once; a request that fails names nobody. *)
Lemma discovery_witness :
  discovered Node [[bob_node; claimed_alice]; [bob_node]] = Some (2, [bob; alice], None) ∧
  ∃ n out q', bootstrap_from_peers me false quiet (says [[bob_node; claimed_alice]; [bob_node]]) all_fail Node unused [alice; alice] = Some (n, out, q') ∧
    NoDup (node_peer_id <$> dialled out).
Proof.
  split; [by_decide|].
  destruct (discovery_dials me false quiet (says [[bob_node; claimed_alice]; [bob_node]]) all_fail (λ _ _ H, H) Node unused [alice; alice] unused_inv)
    as (n & out & q' & Hrun & _ & _ & _ & Hnd & _).
  exists n, out, q'. split; [exact Hrun|exact Hnd].
Defined.

(** A first report without an address is the last word on a peer: later
    reports of it are merged but never dialled. *)
Lemma first_report_hides_peer :
  discovered Node [[bob_node]] = Some (1, [bob], None) ∧ discovered Node [[bare_bob]; [bob_node]] = Some (1, [], None).
Proof. split; by_decide. Qed.
End DiscoverySamples.
