(* ===== verification/RpcSamples.v ===== *)
(** * Requests at work

    A ping to a connected peer that never answers, over the models of
    [MessagingSamples]; the codec knows the message. *)

From Stdlib Require Import SpecFloat.
From stdpp Require Import prelude gmap strings.
From S2P Require Import Prelude Float Keys Ip Address Models PeerRecord SignedAddress SignedSamples DialFailure DialPolicy Trust ReachSamples Tasks Wire Channels Receiving Sending MessagingSamples Publications Messages DialCoordinator Pubsub Rpc Publishing.

Module RpcSamples.
Import SignedSamples MessagingSamples.

#[local] Existing Instance plain_transport.
#[local] Existing Instance plain_postcard.
#[local] Existing Instance toy_crypto.
#[local] Existing Instance in_order.
#[local] Existing Instance plain_sockets.
#[local] Existing Instance plain_wire.
#[local] Existing Instance ReachSamples.coarse_math.

Definition ping_message : DhtNetworkMessage :=
  {| Messages.message_id := "a"; message_source := identity_peer_id me; message_target := Some bob; message_type := Request;
     Messages.payload := Ping; message_result := None; timestamp := 7; ttl := 10; hop_count := 0; attached_records := [] |}.

#[local] Instance ping_codec : MessageCodec.
Proof.
  refine {|
    to_stdvec_message msg := if bool_decide (erase msg = erase ping_message) then Ok [1%Z] else Err "unknown";
    take_from_bytes_message bytes :=
      match bytes with
      | b :: rest => if (b =? 1)%Z then Ok (erase ping_message, rest) else Err "unknown"
      | [] => Err "unknown"
      end;
  |}.
  intros msg bytes rest. destruct (bool_decide_reflect (erase msg = erase ping_message)) as [->|]; [|done].
  by intros [= <-].
Defined.

(** Every send succeeds, and nobody else is about. *)
Definition quiet (i : nat) : Sending.Instant := mk_instant (λ _ _, Ok tt) (λ _, true) (Some 7%N) (Z.of_nat i) (λ r, r).

Definition unanswered : Call :=
  mk_call "a" (Some 7%N) 0 15000000000 None
    (mk_dial_env (from_parts [] [] false) [] false (λ _ _ _, None) (λ _, 0%Z) (λ _, Err "no identity") 3) ReplyTimeout 20.

Definition idle : Rpc :=
  mk_rpc ∅ (mk_shared dial_cache_new ∅ (Some trust_engine_new) []) (outbox joined) (mk_sent_by_kind 0 0 0) [].

Definition pinged : result DhtNetworkResult RpcError * Rpc :=
  send_dht_request plain me "node/1" quiet unanswered idle bob Ping [].

Definition timed_out (r : result DhtNetworkResult RpcError) : bool := match r with Err Timeout => true | _ => false end.

Lemma quiet_consistent i r : consistent r → consistent (meanwhile (quiet i) r).
Proof. done. Qed.

(** One frame went out, one failure was charged, and nothing waits any more. *)
Lemma accounted_witness :
  timed_out pinged.1 = true ∧ length (attempts (rpc_outbound pinged.2)) = 1 ∧
  rpc_operations pinged.2 = ∅ ∧ trust_of pinged.2 = record_peer_failure (Some trust_engine_new) bob 20.
Proof.
  assert (Ht : timed_out pinged.1 = true) by (vm_compute; reflexivity).
  assert (Hl : length (attempts (rpc_outbound pinged.2)) = 1) by (vm_compute; reflexivity).
  pose proof (request_accounted plain me "node/1" quiet quiet_consistent unanswered idle bob Ping [] eq_refl) as H.
  unfold pinged in *. destruct (send_dht_request _ _ _ _ _ _ _ _ _) as [r s']. cbn [fst snd] in *.
  destruct H as (Hops & _ & _ & _ & Htrust). split_and!; [exact Ht|exact Hl|exact Hops|].
  destruct r as [|[]]; try discriminate. exact Htrust.
Defined.

(** This node cannot frame the message, and the peer pays for it. *)
Definition clockless (i : nat) : Sending.Instant := mk_instant (λ _ _, Ok tt) (λ _, true) None (Z.of_nat i) (λ r, r).
Definition unframed : result DhtNetworkResult RpcError * Rpc :=
  send_dht_request plain me "node/1" clockless unanswered idle bob Ping [].

Lemma local_failure_charged :
  attempts (rpc_outbound unframed.2) = [] ∧ trust_of unframed.2 = record_peer_failure (Some trust_engine_new) bob 20.
Proof.
  assert (Ha : attempts (rpc_outbound unframed.2) = []) by (vm_compute; reflexivity).
  assert (Ht : match unframed.1 with Err (Unsent (Unframed SystemTime)) => true | _ => false end = true) by (vm_compute; reflexivity).
  pose proof (request_accounted plain me "node/1" clockless (λ _ _ H, H) unanswered idle bob Ping [] eq_refl) as H.
  unfold unframed in *. destruct (send_dht_request _ _ _ _ _ _ _ _ _) as [r s']. cbn [fst snd] in *.
  split; [exact Ha|]. destruct r as [|[| | |[]| | |]]; try discriminate. apply H.
Qed.

(** A publication to a peer that is not there: the dial this node owns fails
    and is charged, once, and nothing is tried. *)
Definition absent : Rpc :=
  mk_rpc ∅ (mk_shared dial_cache_new ∅ (Some trust_engine_new) []) (outbox registry_new) (mk_sent_by_kind 0 0 0) [].
Definition sender : Sender := mk_sender 5 (Some 7%N) (λ _ _, Ok tt) (λ _, true).

Lemma sent_once_sample :
  ∃ b s', send_address_publications_to_peer plain me "node/1" quiet (λ _, ("a", Some 7%N)) unanswered sender sender absent bob [] None Ping b s' ∧
    b = false ∧ attempts (rpc_outbound s') = [] ∧ trust_of s' = record_peer_failure (Some trust_engine_new) bob 3.
Proof.
  destruct (publication_ends plain me "node/1" quiet (λ _, ("a", Some 7%N)) unanswered sender sender absent bob [] None Ping)
    as (b & s' & Hs). exists b, s'. split; [exact Hs|].
  apply (publication_sent_once plain me "node/1" quiet quiet_consistent) in Hs as (_ & _ & Hs).
  assert (Henc : match encode_both me bob None Ping (λ _, ("a", Some 7%N)) with Ok _ => true | Err _ => false end = true)
    by (vm_compute; reflexivity).
  assert (Hens : match (ensure_peer_channel plain quiet unanswered absent bob []).1 with
                 | Err (FailedToDial _ _) => true | _ => false end = true) by (vm_compute; reflexivity).
  destruct (encode_both _ _ _ _ _); [|discriminate].
  destruct (ensure_peer_channel _ _ _ _ _ _) as [[|[]] ?]; try discriminate. exact Hs.
Qed.

(** One peer, one channel nobody has authenticated on: both are reached. *)
Definition two_channels : Registry := registry_run plain [Register (sock 1) bob "node/1" 0; ConnectionEstablished (sock 2) 1].
Lemma published_sample :
  channel_groups two_channels = [[channel 1]; [channel 2]] ∧
  (publish me "node/1" quiet (outbox two_channels) "chat" [104%Z]).1 = 2.
Proof. split; vm_compute; reflexivity. Qed.
End RpcSamples.
