(* ===== verification/RelayDriver.v ===== *)
(** * Relay acquisition and its driver

    [RelayAcquisition::acquire] of [src/reachability/acquisition.rs], the
    candidate walk of [src/reachability/session.rs] and the state machine of
    [src/reachability/driver.rs] that acquires, verifies, publishes, holds,
    withdraws and retries a relay.  The driver is one task: its steps are the
    rounds of its loop and the events of its two waiting loops, and what it
    does to the network is a trace of effects.  The transport's relay sessions
    and the canary's verdicts are inputs. *)

From Stdlib Require Import SpecFloat.
From stdpp Require Import prelude sorting gmap strings.
From S2P Require Import Prelude Float Keys Ip Address Models PeerRecord SelfAddress SignedAddress DialFailure DialPolicy Diversity Canary SignedSamples Publications.

(** ** Acquisition *)

Inductive RelaySessionEstablishError := AtCapacity (reason : string) | Unreachable (reason : string).
Inductive RelayAcquisitionError := NoCandidates | AllCandidatesExhausted.

(** Nanoseconds. *)
Definition RELAY_REVALIDATION_INTERVAL : Z := seconds (2 * 60 * 60).
Definition RELAY_REVALIDATION_JITTER_MAX : Z := RELAY_REVALIDATION_INTERVAL.
Definition BACKOFF_INITIAL : Z := seconds 30.
Definition BACKOFF_MAX : Z := seconds 300.
Definition BACKOFF_FACTOR : Z := 2.

(** Two hours, plus a jitter of whole seconds from the first eight bytes of
    the identifier. *)
Definition relay_revalidation_initial_delay (p : PeerId) : Z :=
  let jitter_bound := (RELAY_REVALIDATION_JITTER_MAX / seconds 1 + 1)%Z in
  RELAY_REVALIDATION_INTERVAL + seconds (be_combine (take 8 (key_bytes p)) mod jitter_bound).

Section driver.
Context `{TL : TransportLib} `{PL : !PostcardLib}.
Context (normalize_socket_addr : SocketAddr → SocketAddr).
Context {PreparedRelay : Type} (public_addr : PreparedRelay → SocketAddr).

Record RelayCandidate := mk_candidate { candidate_peer : PeerId; direct_address : MultiAddr }.
Record AcquiredRelay := mk_acquired { relayer : PeerId; allocation : PreparedRelay }.

(** The establisher's answer may depend on when it is asked: [i] counts the
    candidates tried. *)
Abbreviation Establisher := (nat → SocketAddr → result PreparedRelay RelaySessionEstablishError).

(** The walk, with the sockets it asked. *)
Fixpoint acquire_loop (establish : Establisher) (i : nat) (candidates : list RelayCandidate)
    : result AcquiredRelay RelayAcquisitionError * list SocketAddr :=
  match candidates with
  | [] => (Err AllCandidatesExhausted, [])
  | c :: rest =>
      match dialable_socket_addr (direct_address c) with
      | None => acquire_loop establish (S i) rest
      | Some socket =>
          match establish i socket with
          | Ok allocated => (Ok (mk_acquired (candidate_peer c) allocated), [socket])
          | Err (AtCapacity _) | Err (Unreachable _) =>
              let '(r, asked) := acquire_loop establish (S i) rest in (r, socket :: asked)
          end
      end
  end.

Definition acquire (establish : Establisher) (candidates : list RelayCandidate)
    : result AcquiredRelay RelayAcquisitionError * list SocketAddr :=
  match candidates with
  | [] => (Err NoCandidates, [])
  | _ => acquire_loop establish 0 candidates
  end.

Inductive RelayAcquisitionOutcome := Acquired (relay : AcquiredRelay) | Failed (reason : string).

(** The closest peers with a direct address off this node's WAN, less the
    excluded ones. *)
Definition relay_candidates (closest : list DHTNode) (ctx : DialAddressContext) (excluded : gset PeerId)
    : list RelayCandidate :=
  omap (λ node, if bool_decide (node_peer_id node ∈ excluded) then None
                else mk_candidate (node_peer_id node) <$> first_direct_dialable_for_relay node ctx) closest.

Definition acquisition_error_text (e : RelayAcquisitionError) : string :=
  match e with
  | NoCandidates => "no candidate relays available"
  | AllCandidatesExhausted => "all candidate relays exhausted without success"
  end.

Definition run_relay_acquisition (closest : list DHTNode) (ctx : DialAddressContext) (excluded : gset PeerId)
    (establish : Establisher) : RelayAcquisitionOutcome :=
  let candidates := relay_candidates closest ctx excluded in
  match candidates with
  | [] => Failed "no direct-addressable candidates in routing table"
  | _ => match (acquire establish candidates).1 with
         | Ok relay => Acquired relay
         | Err e => Failed (acquisition_error_text e)
         end
  end.

(** ** The driver's state *)

Record PublicationAttempt := mk_attempt {
  attempt_records : list TransportAddressRecord;
  attempt_targets : gset PeerId;
}.

(** [external] is the transport's record of its own addresses. *)
Record Driver := mk_driver {
  relayer_peer_id : option PeerId;
  relay_address : option SocketAddr;
  external : ExternalAddresses;
  current_backoff : Z;
  last_publication_attempt : option PublicationAttempt;
  canary_rejected_relayers : gset PeerId;
}.

Definition publication_targets (previous : option PublicationAttempt) (records : list TransportAddressRecord)
    (targets : gset PeerId) (force : bool) : gset PeerId :=
  match previous with
  | Some p => if negb force && bool_decide (attempt_records p = records) then targets ∖ attempt_targets p else targets
  | None => targets
  end.

Inductive CanaryRejectionEvent := CVerified | CRejected (p : PeerId) | CInsufficientWitnesses | CAcquisitionFailed.

Definition apply_canary_rejection_event (rejected : gset PeerId) (ev : CanaryRejectionEvent) : gset PeerId :=
  match ev with
  | CVerified | CInsufficientWitnesses | CAcquisitionFailed => ∅
  | CRejected p => {[p]} ∪ rejected
  end.

Definition next_backoff (b : Z) : Z := Z.min (b * BACKOFF_FACTOR) BACKOFF_MAX.

(** What a publication finds: the listen addresses, the proven externals, the
    supplemental addresses and the closest peers. *)
Record PublishEnv := mk_publish_env {
  env_self : PeerId;
  env_listen : list MultiAddr;
  env_proven : SocketAddr → bool;
  env_supplemental : list MultiAddr;
  env_closest : list PeerId;
}.

Implicit Types (d : Driver) (env : PublishEnv).

(** The effects of the driver, for the trace.  [Published] names the relay of
    the set, and the records and peers when something was sent. *)
Inductive Effect :=
  | Acquiring (excluded : gset PeerId)
  | Obtained (relay : AcquiredRelay)
  | Judged (relay : AcquiredRelay) (v : RelayCanaryVerdict)
  | Committed (relay : AcquiredRelay) (ok : bool)
  | Withdrawn
  | Aborted (a : PreparedRelay)
  | Published (relay : option SocketAddr) (force : bool) (sent : option (list TransportAddressRecord * list PeerId))
  | Rejection (ev : CanaryRejectionEvent)
  | Retried.

Definition self_records d env (relay : option SocketAddr) : result (list TransportAddressRecord) PublishError :=
  complete_transport_address_records (env_self env) (env_supplemental env)
    (into_typed_vec (build_self_address_set normalize_socket_addr (env_proven env)
       (non_relay_addresses (external d)) (env_listen env) relay)).

Definition with_attempt d (a : PublicationAttempt) : Driver :=
  mk_driver (relayer_peer_id d) (relay_address d) (external d) (current_backoff d) (Some a) (canary_rejected_relayers d).

(** [publish_typed_set_with_policy] *)
Definition publish_typed_set d env (relay : option SocketAddr) (force : bool) : Driver * Effect :=
  match self_records d env relay with
  | Err _ => (d, Published relay force None)
  | Ok [] => (d, Published relay force None)
  | Ok records =>
      let targets : gset PeerId := list_to_set (List.filter (λ p, negb (bool_decide (p = env_self env))) (env_closest env)) in
      let attempted := publication_targets (last_publication_attempt d) records targets force in
      let d := with_attempt d (mk_attempt records targets) in
      if bool_decide (attempted = ∅) then (d, Published relay force None)
      else (d, Published relay force
                 (Some (records, List.filter (λ p, bool_decide (p ∈ attempted)) (env_closest env))))
  end.

Definition with_rejected d (ev : CanaryRejectionEvent) : Driver :=
  mk_driver (relayer_peer_id d) (relay_address d) (external d) (current_backoff d) (last_publication_attempt d)
    (apply_canary_rejection_event (canary_rejected_relayers d) ev).

Definition with_backoff d (b : Z) : Driver :=
  mk_driver (relayer_peer_id d) (relay_address d) (external d) b (last_publication_attempt d) (canary_rejected_relayers d).

(** No relay: neither in the shared state nor in the transport's record. *)
Definition clear_relay_state d : Driver :=
  mk_driver None None (clear_relay (external d)) (current_backoff d) (last_publication_attempt d) (canary_rejected_relayers d).

Definition set_relay_state d (relay : AcquiredRelay) : Driver :=
  mk_driver (Some (relayer relay)) (Some (public_addr (allocation relay)))
    (set_relay normalize_socket_addr (external d) (public_addr (allocation relay)))
    (current_backoff d) (last_publication_attempt d) (canary_rejected_relayers d).

(** ** The state machine *)

Inductive Phase := Starting | AtLoopHead | Holding (relay : AcquiredRelay) | Backoff | Stopped.

(** The end of a round without a relay, after what was [aborted]:
    [publish_typed_set(None)], then the backoff. *)
Definition give_up_round d env (ev : CanaryRejectionEvent) (aborted effects : list Effect)
    : Phase * Driver * list Effect :=
  let d := clear_relay_state (with_rejected d ev) in
  let '(d, published) := publish_typed_set d env None false in
  (Backoff, d, published :: aborted ++ Rejection ev :: effects).

(** A relay that does not pass is torn down. *)
Definition reject_relay d env (ev : CanaryRejectionEvent) (relay : AcquiredRelay) (effects : list Effect)
    : Phase * Driver * list Effect :=
  give_up_round d env ev [Aborted (allocation relay)] effects.

(** One round of [run]'s loop up to its next wait; effects newest first. *)
Definition run_round d env (outcome : RelayAcquisitionOutcome) (verdict : RelayCanaryVerdict) (commit_ok : bool)
    : Phase * Driver * list Effect :=
  let asked := Acquiring (canary_rejected_relayers d) in
  match outcome with
  | Failed _ => give_up_round d env CAcquisitionFailed [] [asked]
  | Acquired relay =>
      let effects := [Judged relay verdict; Obtained relay; asked] in
      match verdict with
      | Verified _ _ =>
          if negb commit_ok then reject_relay d env CAcquisitionFailed relay (Committed relay false :: effects)
          else
            let d := set_relay_state (with_backoff (with_rejected d CVerified) BACKOFF_INITIAL) relay in
            let '(d, published) := publish_typed_set d env (Some (public_addr (allocation relay))) true in
            (Holding relay, d, published :: Rejection CVerified :: Committed relay true :: effects)
      | Rejected _ _ => reject_relay d env (CRejected (relayer relay)) relay effects
      | Inconclusive _ _ _ => reject_relay d env CInsufficientWitnesses relay effects
      end
  end.

(** [lose_relay_and_republish] *)
Definition lose_relay d env (relay : AcquiredRelay) (effects : list Effect) : Phase * Driver * list Effect :=
  let '(d, published) := publish_typed_set (clear_relay_state d) env None true in
  (AtLoopHead, d, published :: Aborted (allocation relay) :: Withdrawn :: effects).

(** The events of [hold_until_lost]: a lost or unhealthy tunnel, a change that
    calls for a refresh (a promoted or updated self address, a changed close
    group, missed events), the verdict of a periodic revalidation, anything
    else, and shutdown or a closed channel. *)
Inductive HoldEvent :=
  | RelayLost
  | Unhealthy
  | Refresh
  | Revalidated (v : RelayCanaryVerdict)
  | HoldOther
  | HoldShutdown.

Definition hold_step d env (relay : AcquiredRelay) (ev : HoldEvent) : Phase * Driver * list Effect :=
  match ev with
  | RelayLost | Unhealthy => lose_relay d env relay []
  | Refresh =>
      let '(d, published) := publish_typed_set d env (relay_address d) false in (Holding relay, d, [published])
  | Revalidated v =>
      match relayer_peer_id d, relay_address d with
      | Some p, Some _ =>
          match v with
          | Rejected _ _ => lose_relay (with_rejected d (CRejected p)) env relay [Rejection (CRejected p)]
          | Verified _ _ | Inconclusive _ _ _ => (Holding relay, d, [])
          end
      | _, _ => lose_relay d env relay []
      end
  | HoldOther => (Holding relay, d, [])
  | HoldShutdown => (Stopped, d, [])
  end.

(** The events of [wait_backoff_or_event]: the window is over or the close
    group changed, a refresh, anything else, shutdown. *)
Inductive BackoffEvent := BackoffOver | BackoffRefresh | BackoffOther | BackoffShutdown.

Definition backoff_step d env (ev : BackoffEvent) : Phase * Driver * list Effect :=
  match ev with
  | BackoffOver => (AtLoopHead, with_backoff d (next_backoff (current_backoff d)), [Retried])
  | BackoffRefresh => let '(d, published) := publish_typed_set d env None false in (Backoff, d, [published])
  | BackoffOther => (Backoff, d, [])
  | BackoffShutdown => (Stopped, d, [])
  end.

(** The startup tombstone: a forced relay-free publication. *)
Definition start_step d env : Phase * Driver * list Effect :=
  let d := mk_driver (relayer_peer_id d) (relay_address d) (clear_relay (external d)) (current_backoff d)
             (last_publication_attempt d) (canary_rejected_relayers d) in
  let '(d, published) := publish_typed_set d env None true in (AtLoopHead, d, [published]).

Definition spawn_driver (e : ExternalAddresses) : Driver := mk_driver None None e BACKOFF_INITIAL None ∅.

(** [run] from its start with external addresses [e0], the trace newest
    first.  The transport may learn addresses at any time. *)
Inductive driver_run (e0 : ExternalAddresses) : list Effect → Phase → Driver → Prop :=
  | run_spawned : driver_run e0 [] Starting (spawn_driver e0)
  | run_started log d env out :
      driver_run e0 log Starting d → start_step d env = out → driver_run e0 (out.2 ++ log) out.1.1 out.1.2
  | run_rounded log d env closest ctx establish verdict commit_ok out :
      driver_run e0 log AtLoopHead d →
      run_round d env (run_relay_acquisition closest ctx (canary_rejected_relayers d) establish) verdict commit_ok = out →
      driver_run e0 (out.2 ++ log) out.1.1 out.1.2
  | run_held log relay d env ev out :
      driver_run e0 log (Holding relay) d → hold_step d env relay ev = out → driver_run e0 (out.2 ++ log) out.1.1 out.1.2
  | run_backed_off log d env ev out :
      driver_run e0 log Backoff d → backoff_step d env ev = out → driver_run e0 (out.2 ++ log) out.1.1 out.1.2
  | run_shutdown log d : driver_run e0 log AtLoopHead d → driver_run e0 log Stopped d
  | run_learned log phase d direct unverified :
      driver_run e0 log phase d →
      driver_run e0 log phase
        (mk_driver (relayer_peer_id d) (relay_address d) (mk_external direct unverified (ext_relay (external d)))
           (current_backoff d) (last_publication_attempt d) (canary_rejected_relayers d)).

(** ** The specification, from the trace *)

Fixpoint holding (log : list Effect) : option AcquiredRelay :=
  match log with
  | [] => None
  | Committed relay true :: _ => Some relay
  | Withdrawn :: _ => None
  | _ :: before => holding before
  end.

Fixpoint last_published (log : list Effect) : option (option SocketAddr) :=
  match log with
  | [] => None
  | Published relay _ _ :: _ => Some relay
  | _ :: before => last_published before
  end.

Fixpoint excluded_by (log : list Effect) : gset PeerId :=
  match log with
  | [] => ∅
  | Rejection ev :: before => apply_canary_rejection_event (excluded_by before) ev
  | _ :: before => excluded_by before
  end.

(** Failed rounds since the last verified relay. *)
Fixpoint retries (log : list Effect) : nat :=
  match log with
  | [] => 0
  | Rejection CVerified :: _ => 0
  | Retried :: before => S (retries before)
  | _ :: before => retries before
  end.

Definition obtained_by (e : Effect) : list PreparedRelay :=
  match e with Obtained relay => [allocation relay] | _ => [] end.
Definition aborted_by (e : Effect) : list PreparedRelay :=
  match e with Aborted a => [a] | _ => [] end.

(** When an effect may happen, given what came before it. *)
Definition effect_ok (e : Effect) (before : list Effect) : Prop :=
  match e with
  | Acquiring excluded =>
      holding before = None ∧ last_published before = Some None ∧ excluded = excluded_by before
  | Obtained relay => (relayer relay ∉ excluded_by before) ∧ holding before = None
  | Committed relay _ => ∃ s a rest, before = (Judged relay (Verified s a) :: rest)
  | Published (Some addr) _ _ => ∃ relay, holding before = Some relay ∧ addr = public_addr (allocation relay)
  | Published None _ sent =>
      holding before = None ∧
      (∀ records peers, sent = Some (records, peers) → Forall (λ r, legacy_reachability r ≠ Some Relay) records)
  | _ => True
  end.

Fixpoint trace_ok (log : list Effect) : Prop :=
  match log with
  | [] => True
  | e :: before => effect_ok e before ∧ trace_ok before
  end.

(** ** The candidate walk *)

(** The relay the [k]th candidate would give, asked in its turn. *)
Definition offer (establish : Establisher) (k : nat) (c : RelayCandidate) : option AcquiredRelay :=
  socket ← dialable_socket_addr (direct_address c);
  match establish k socket with Ok a => Some (mk_acquired (candidate_peer c) a) | Err _ => None end.

(** The walk asks the candidates in order, skips the ones without a dialable socket, and takes the first that
    accepts; capacity and unreachability only move it on, and it fails only when nobody accepts. *)
Theorem acquire_takes_first establish candidates :
  (acquire establish candidates).1 =
  match candidates with
  | [] => Err NoCandidates
  | _ => match head (omap id (imap (offer establish) candidates)) with
         | Some relay => Ok relay
         | None => Err AllCandidatesExhausted
         end
  end.
Proof.
  assert (Hgen : ∀ i, (acquire_loop establish i candidates).1 =
    match head (omap id (imap (offer establish ∘ Nat.add i) candidates)) with
    | Some relay => Ok relay
    | None => Err AllCandidatesExhausted
    end).
  { induction candidates as [|c rest IH]; intros i; [done|]. cbn [acquire_loop imap omap list_omap].
    assert (Hnext : imap (offer establish ∘ Nat.add i ∘ S) rest = imap (offer establish ∘ Nat.add (S i)) rest).
    { apply imap_ext. intros k x _. cbn. by rewrite Nat.add_succ_r. }
    rewrite Hnext. clear Hnext. specialize (IH (S i)).
    unfold compose, offer at 1. rewrite Nat.add_0_r.
    destruct (dialable_socket_addr (direct_address c)) as [socket|]; cbn [mbind option_bind]; [|exact IH].
    destruct (establish i socket) as [a|[reason|reason]]; [done|..];
      destruct (acquire_loop establish (S i) rest) as [r asked]; exact IH. }
  destruct candidates as [|c rest]; [done|]. exact (Hgen 0).
Qed.

Lemma acquired_not_excluded closest ctx excluded establish relay :
  run_relay_acquisition closest ctx excluded establish = Acquired relay → relayer relay ∉ excluded.
Proof.
  unfold run_relay_acquisition. destruct (relay_candidates closest ctx excluded) as [|c0 rest] eqn:Hc; [done|].
  rewrite acquire_takes_first. destruct (head _) as [r|] eqn:Hh; [|done]. intros [= ->].
  assert (Hin : relay ∈ omap id (imap (offer establish) (c0 :: rest))).
  { destruct (omap id _) as [|x l]; [done|]. cbn in Hh. simplify_eq. by left. }
  apply list_elem_of_omap in Hin as (o & (k & c & -> & Hk)%elem_of_lookup_imap & Ho).
  assert (Hr : relayer relay = candidate_peer c).
  { unfold offer, id in Ho. destruct (dialable_socket_addr (direct_address c)); [|done]. cbn in Ho.
    destruct (establish _ _); [|done]. by simplify_eq. }
  assert (Hmem : c ∈ relay_candidates closest ctx excluded) by (rewrite Hc; by eapply list_elem_of_lookup_2).
  apply list_elem_of_omap in Hmem as (node & _ & Hn). case_bool_decide; [done|].
  destruct (first_direct_dialable_for_relay node ctx); [|done]. cbn in Hn. simplify_eq. by rewrite Hr.
Qed.

(** ** Publications *)

Lemma self_typed_relay proven observed listen relay a :
  (a, Relay) ∈ into_typed_vec (build_self_address_set normalize_socket_addr proven observed listen relay) →
  is_Some relay.
Proof.
  pose proof (build_agrees normalize_socket_addr proven observed listen relay) as Hag.
  rewrite (typed_perm normalize_socket_addr proven _ _ _ Hag), elem_of_app, !list_elem_of_fmap.
  intros [(r & _ & Hr)|(n & Heq & _)].
  - destruct relay; [done|]. by apply elem_of_nil in Hr.
  - exfalso. injection Heq as _ Ht. revert Ht. unfold self_tag. by repeat case_match.
Qed.

(** Without a relay no record says Relay. *)
Lemma self_records_no_relay d env records :
  self_records d env None = Ok records → Forall (λ r, legacy_reachability r ≠ Some Relay) records.
Proof.
  intros (_ & _ & _ & Hel & _)%own_records_accepted. apply Forall_forall. intros r (x & Hx & Hr)%Hel Hleg.
  apply complete_address_ok in Hr as (_ & _ & _ & _ & Hl). rewrite Hleg in Hl.
  destruct (is_webrtc_direct x.1); [done|]. injection Hl as Hl.
  apply elem_of_app in Hx as [([a t] & -> & Hin)%list_elem_of_fmap|(a & -> & _)%list_elem_of_fmap]; [|done].
  cbn in Hl. rewrite into_from_legacy in Hl. subst t. apply self_typed_relay in Hin. by destruct Hin.
Qed.

(** A publication changes nothing of the driver but its last attempt. *)
Lemma publish_spec d env relay force :
  ∃ attempt sent,
    publish_typed_set d env relay force =
      (mk_driver (relayer_peer_id d) (relay_address d) (external d) (current_backoff d) attempt (canary_rejected_relayers d),
       Published relay force sent) ∧
    (relay = None → ∀ records peers, sent = Some (records, peers) →
       Forall (λ r, legacy_reachability r ≠ Some Relay) records).
Proof.
  unfold publish_typed_set. destruct (self_records d env relay) as [[|r l]|] eqn:Hr.
  1,3: by exists (last_publication_attempt d), None; destruct d.
  cbv zeta. unfold with_attempt. destruct (bool_decide _); [by eexists _, None|].
  eexists _, _. split; [done|]. intros -> records peers [= <- _]. by eapply self_records_no_relay.
Qed.

(** ** The invariant *)

Definition no_relay (log : list Effect) d : Prop :=
  holding log = None ∧ last_published log = Some None ∧
  relayer_peer_id d = None ∧ relay_address d = None ∧ ext_relay (external d) = None.

Definition has_relay (log : list Effect) (relay : AcquiredRelay) d : Prop :=
  let addr := public_addr (allocation relay) in
  holding log = Some relay ∧ last_published log = Some (Some addr) ∧
  relayer_peer_id d = Some (relayer relay) ∧ relay_address d = Some addr ∧
  ext_relay (external d) = Some (normalize_socket_addr addr).

Definition phase_ok (log : list Effect) (phase : Phase) d : Prop :=
  match phase with
  | Starting => log = [] ∧ relayer_peer_id d = None ∧ relay_address d = None
  | AtLoopHead | Backoff => no_relay log d
  | Holding relay => has_relay log relay d
  | Stopped => no_relay log d ∨ ∃ relay, has_relay log relay d
  end.

(** Every relay obtained has been torn down, or is the one held. *)
Definition accounted (log : list Effect) : Prop :=
  log ≫= obtained_by ≡ₚ (log ≫= aborted_by) ++ option_list (allocation <$> holding log).

Definition backoff_after (n : nat) : Z := Z.min (BACKOFF_INITIAL * 2 ^ Z.of_nat n) BACKOFF_MAX.

Record driver_inv (log : list Effect) (phase : Phase) d : Prop := {
  inv_trace : trace_ok log;
  inv_accounts : accounted log;
  inv_excluded : canary_rejected_relayers d = excluded_by log;
  inv_backoff : current_backoff d = backoff_after (retries log);
  inv_phase : phase_ok log phase d;
}.

Lemma backoff_after_S n : next_backoff (backoff_after n) = backoff_after (S n).
Proof.
  unfold next_backoff, backoff_after, BACKOFF_FACTOR. rewrite Nat2Z.inj_succ, Z.pow_succ_r by lia.
  unfold BACKOFF_INITIAL, BACKOFF_MAX, seconds. lia.
Qed.

(** A publication when the trace allows it. *)
Lemma publish_inv log phase phase' d env relay force :
  driver_inv log phase d → effect_ok (Published relay force None) log →
  (∀ d' sent, relayer_peer_id d' = relayer_peer_id d → relay_address d' = relay_address d → external d' = external d →
     phase_ok (Published relay force sent :: log) phase' d') →
  let out := publish_typed_set d env relay force in driver_inv (out.2 :: log) phase' out.1.
Proof.
  intros [Htr Hacc Hex Hback _] Hok Hphase. destruct (publish_spec d env relay force) as (attempt & sent & -> & Hnone).
  cbn. constructor; [|done|done|done|by apply Hphase]. split; [|done].
  destruct relay as [addr|]; [exact Hok|]. split; [apply Hok|by apply Hnone].
Qed.

Lemma driver_inv_weaken log phase d phase' d' :
  driver_inv log phase d → canary_rejected_relayers d' = canary_rejected_relayers d →
  current_backoff d' = current_backoff d → phase_ok log phase' d' → driver_inv log phase' d'.
Proof. intros [? ? Hex Hb _] He Hc ?. constructor; [done..|by rewrite He|by rewrite Hc|done]. Qed.

Lemma give_up_inv log d env ev aborted effects :
  let log' := aborted ++ Rejection ev :: effects ++ log in
  trace_ok log' → accounted log' → holding log' = None → last_published log' = Some None →
  excluded_by log' = apply_canary_rejection_event (canary_rejected_relayers d) ev →
  current_backoff d = backoff_after (retries log') →
  let out := give_up_round d env ev aborted effects in driver_inv (out.2 ++ log) out.1.1 out.1.2.
Proof.
  cbv zeta. set (log' := aborted ++ Rejection ev :: effects ++ log). intros Htr Hacc Hhold Hlast Hex Hb.
  unfold give_up_round. cbv zeta. set (d1 := clear_relay_state (with_rejected d ev)).
  assert (Hinv : driver_inv log' Backoff d1) by (constructor; done).
  pose proof (publish_inv log' Backoff Backoff d1 env None false Hinv) as Hpub. cbv zeta in Hpub.
  destruct (publish_typed_set d1 env None false) as [d' published]. cbn [fst snd] in *.
  replace ((published :: aborted ++ Rejection ev :: effects) ++ log) with (published :: log')
    by (cbn; by rewrite <-app_assoc).
  apply Hpub; [done|]. intros d2 sent H1 H2 H3. split_and!; [done|done|by rewrite H1|by rewrite H2|by rewrite H3].
Qed.

Lemma accounted_obtained log relay :
  accounted log → holding log = None →
  allocation relay :: (log ≫= obtained_by) ≡ₚ allocation relay :: (log ≫= aborted_by).
Proof. unfold accounted. intros Hacc Hh. rewrite Hh in Hacc. cbn in Hacc. rewrite app_nil_r in Hacc. by rewrite Hacc. Qed.

Lemma run_round_inv log d env closest ctx establish verdict commit_ok :
  driver_inv log AtLoopHead d →
  let out := run_round d env (run_relay_acquisition closest ctx (canary_rejected_relayers d) establish) verdict commit_ok in
  driver_inv (out.2 ++ log) out.1.1 out.1.2.
Proof.
  intros [Htr Hacc Hex Hb (Hhold & Hlast & Hr & Ha & He)]. cbv zeta.
  assert (Hasked : trace_ok (Acquiring (canary_rejected_relayers d) :: log)) by (split; [|done]; done).
  unfold run_round. cbv zeta.
  destruct (run_relay_acquisition closest ctx (canary_rejected_relayers d) establish) as [relay|reason] eqn:Hrun; cycle 1.
  { apply (give_up_inv log d env CAcquisitionFailed [] [_]); cbn; try done. }
  apply acquired_not_excluded in Hrun. rewrite Hex in Hrun.
  assert (Hjudged : trace_ok (Judged relay verdict :: Obtained relay :: Acquiring (canary_rejected_relayers d) :: log)).
  { split; [done|]. split; [|done]. done. }
  pose proof (accounted_obtained log relay Hacc Hhold) as Haccount.
  destruct verdict as [n1 n2|n1 n2|n1 n2 n3].
  - destruct commit_ok; cbn [negb].
    + set (d1 := set_relay_state (with_backoff (with_rejected d CVerified) BACKOFF_INITIAL) relay).
      set (log1 := Rejection CVerified :: Committed relay true :: Judged relay (Verified n1 n2) :: Obtained relay ::
                   Acquiring (canary_rejected_relayers d) :: log).
      destruct (publish_spec d1 env (Some (public_addr (allocation relay))) true) as (attempt & sent & Hpub & _).
      rewrite Hpub. cbn [fst snd app]. constructor.
      * cbn. split_and!; try done; [by exists relay|by exists n1, n2, (Obtained relay :: Acquiring (canary_rejected_relayers d) :: log)].
      * unfold accounted. cbn. rewrite Haccount. apply Permutation_cons_append.
      * done.
      * done.
      * split_and!; done.
    + apply (give_up_inv log d env CAcquisitionFailed [_] [_; _; _; _]); cbn; try done.
      * split_and!; try done. by exists n1, n2, (Obtained relay :: Acquiring (canary_rejected_relayers d) :: log).
      * unfold accounted. cbn. rewrite Hhold. cbn. by rewrite app_nil_r.
  - apply (give_up_inv log d env (CRejected (relayer relay)) [_] [_; _; _]); cbn; try done.
    + unfold accounted. cbn. rewrite Hhold. cbn. by rewrite app_nil_r.
    + by rewrite Hex.
  - apply (give_up_inv log d env CInsufficientWitnesses [_] [_; _; _]); cbn; try done.
    unfold accounted. cbn. rewrite Hhold. cbn. by rewrite app_nil_r.
Qed.

(** Losing the relay: withdrawn and torn down before the relay-free
    publication. *)
Lemma lose_relay_inv log d env relay effects :
  trace_ok (effects ++ log) → accounted (effects ++ log) → holding (effects ++ log) = Some relay →
  canary_rejected_relayers d = excluded_by (effects ++ log) →
  current_backoff d = backoff_after (retries (effects ++ log)) →
  let out := lose_relay d env relay effects in driver_inv (out.2 ++ log) out.1.1 out.1.2.
Proof.
  intros Htr Hacc Hhold Hex Hb. cbv zeta. unfold lose_relay.
  destruct (publish_spec (clear_relay_state d) env None true) as (attempt & sent & -> & Hnone).
  cbn [fst snd app]. constructor; cbn; [|..|done].
  - split_and!; try done. by apply Hnone.
  - unfold accounted in *. cbn. rewrite Hacc, Hhold, app_nil_r. cbn. by rewrite <-Permutation_cons_append.
  - done.
  - done.
Qed.

Lemma hold_step_inv log d env relay ev :
  driver_inv log (Holding relay) d →
  let out := hold_step d env relay ev in driver_inv (out.2 ++ log) out.1.1 out.1.2.
Proof.
  intros Hinv. pose proof Hinv as [Htr Hacc Hex Hb (Hhold & Hlast & Hr & Ha & He)]. cbv zeta.
  unfold hold_step. destruct ev as [| | |v| |].
  1,2: by apply lose_relay_inv.
  - pose proof (publish_inv log (Holding relay) (Holding relay) d env (relay_address d) false Hinv) as Hpub. cbv zeta in Hpub.
    destruct (publish_typed_set d env (relay_address d) false) as [d' published]. apply Hpub.
    + rewrite Ha. by exists relay.
    + intros d2 sent H1 H2 H3. unfold phase_ok, has_relay. by rewrite H1, H2, H3, Ha.
  - rewrite Hr, Ha. destruct v; [done| |done]. apply lose_relay_inv; [done..| |done]. cbn. by rewrite Hex.
  - done.
  - apply (driver_inv_weaken _ _ _ _ _ Hinv); [done..|]. right. by exists relay.
Qed.

Lemma backoff_step_inv log d env ev :
  driver_inv log Backoff d → let out := backoff_step d env ev in driver_inv (out.2 ++ log) out.1.1 out.1.2.
Proof.
  intros Hinv. pose proof Hinv as [Htr Hacc Hex Hb (Hhold & Hlast & Hr & Ha & He)]. cbv zeta.
  unfold backoff_step. destruct ev.
  - constructor; cbn; [done..| |done]. by rewrite Hb, backoff_after_S.
  - pose proof (publish_inv log Backoff Backoff d env None false Hinv) as Hpub. cbv zeta in Hpub.
    destruct (publish_typed_set d env None false) as [d' published]. apply Hpub; [done|].
    intros d2 sent H1 H2 H3. unfold phase_ok, no_relay. by rewrite H1, H2, H3.
  - done.
  - apply (driver_inv_weaken _ _ _ _ _ Hinv); [done..|]. by left.
Qed.

Lemma start_step_inv d env :
  driver_inv [] Starting d → let out := start_step d env in driver_inv (out.2 ++ []) out.1.1 out.1.2.
Proof.
  intros [Htr Hacc Hex Hb (_ & Hr & Ha)]. cbv zeta. unfold start_step. cbv zeta.
  match goal with |- context [publish_typed_set ?d0 env None true] =>
    destruct (publish_spec d0 env None true) as (attempt & sent & -> & Hnone) end.
  constructor; cbn; [|done..]. split_and!; [done|by apply Hnone|done].
Qed.

Lemma driver_run_inv e0 log phase d : driver_run e0 log phase d → driver_inv log phase d.
Proof.
  induction 1 as [|log d env out Hrun IH <-|log d env closest ctx establish verdict commit_ok out Hrun IH <-
    |log relay d env ev out Hrun IH <-|log d env ev out Hrun IH <-|log d Hrun IH|log phase d direct unverified Hrun IH].
  - constructor; [done|by unfold accounted|done|reflexivity|done].
  - pose proof (inv_phase _ _ _ IH) as (-> & _). by apply start_step_inv.
  - by apply run_round_inv.
  - by apply hold_step_inv.
  - by apply backoff_step_inv.
  - apply (driver_inv_weaken _ _ _ _ _ IH); [done..|]. left. apply (inv_phase _ _ _ IH).
  - apply (driver_inv_weaken _ _ _ _ _ IH); [done..|]. exact (inv_phase _ _ _ IH) || (destruct phase; exact (inv_phase _ _ _ IH)).
Qed.
(** ** What the driver promises *)

Lemma trace_ok_split log after e before : trace_ok log → log = after ++ e :: before → effect_ok e before.
Proof.
  intros Htr ->. induction after as [|x after IH]; [by destruct Htr|]. apply IH. by destruct Htr.
Qed.

Lemma backoff_after_bounds n : (BACKOFF_INITIAL ≤ backoff_after n ≤ BACKOFF_MAX)%Z.
Proof.
  assert (H : (1 ≤ 2 ^ Z.of_nat n)%Z) by (apply (Z.pow_le_mono_r 2 0); lia).
  unfold backoff_after, BACKOFF_INITIAL, BACKOFF_MAX, seconds. lia.
Qed.

(** C26: in every run of the driver, whatever the transport, the canaries and the events do: it looks for a relay only
    while it holds none and after its last publication was relay-free, excluding exactly the relayers whose rejections
    are still in force; it commits only a relay whose canaries were just verified; it publishes a relay's address only
    while that relay is the one held, and a relay-free set (without a single Relay record) only while none is; its
    shared relay state and the transport's agree with the last publication at every wait; and every allocation it
    obtained has been torn down, except the one it holds. *)
Theorem relay_lifecycle e0 log phase d :
  driver_run e0 log phase d →
  (∀ after e before, log = after ++ e :: before → effect_ok e before) ∧
  phase_ok log phase d ∧
  log ≫= obtained_by ≡ₚ (log ≫= aborted_by) ++ option_list (allocation <$> holding log).
Proof.
  intros [Htr Hacc _ _ Hphase]%driver_run_inv. split_and!; [|done|done].
  intros after e before. by apply trace_ok_split.
Qed.

(** the wait before a retry is 30 s doubled per retry since the last verified relay and never above 300 s; the
    exclusions are the rejections since the last outcome that was not one, and no relay of an excluded relayer is
    ever obtained; the first maintenance check comes between two and four hours after a relay is held. *)
Theorem relay_retry_policy e0 log phase d :
  driver_run e0 log phase d →
  current_backoff d = Z.min (BACKOFF_INITIAL * 2 ^ Z.of_nat (retries log)) BACKOFF_MAX ∧
  (BACKOFF_INITIAL ≤ current_backoff d ≤ BACKOFF_MAX)%Z ∧
  canary_rejected_relayers d = excluded_by log ∧
  (∀ after relay before, log = after ++ Obtained relay :: before → relayer relay ∉ excluded_by before) ∧
  (∀ p, RELAY_REVALIDATION_INTERVAL ≤ relay_revalidation_initial_delay p ≤ 2 * RELAY_REVALIDATION_INTERVAL)%Z.
Proof.
  intros [Htr _ Hex Hb _]%driver_run_inv. split; [done|]. split; [rewrite Hb; apply backoff_after_bounds|].
  split; [done|]. split.
  - intros after relay before Heq. apply (trace_ok_split _ _ _ _ Htr Heq).
  - intros p. unfold relay_revalidation_initial_delay. cbv zeta.
    pose proof (Z.mod_pos_bound (be_combine (take 8 (key_bytes p))) (RELAY_REVALIDATION_JITTER_MAX / seconds 1 + 1)
      ltac:(done)) as Hm.
    change (RELAY_REVALIDATION_JITTER_MAX / seconds 1 + 1)%Z with 7201%Z in *.
    unfold RELAY_REVALIDATION_INTERVAL, seconds. lia.
Qed.
End driver.

(** ** A run: a relay is held, rejected by its maintenance canaries, and not
    taken again *)
Module DriverSamples.
Import SignedSamples.

#[local] Existing Instance plain_transport.
#[local] Existing Instance plain_postcard.

Definition me : PeerId := key_of_bytes [0%Z].
Definition nowhere : ExternalAddresses := mk_external [] [] None.
Definition socket : SocketAddr := SocketV4 (ipv4 198 51 100 1) 9000.
Definition relay_socket : SocketAddr := SocketV4 (ipv4 203 0 113 9) 40001.
Definition env : PublishEnv := mk_publish_env me [from_ipv4 (ipv4 198 51 100 1) 9000] (λ _, false) [] [alice].
Definition alice_node : DHTNode := mk_dht_node _ alice [alice_addr] [Direct] None (S754_zero false) None.
Definition elsewhere : DialAddressContext := from_parts [socket] [] false.
(** Alice accepts. *)
Definition accept : nat → SocketAddr → result SocketAddr RelaySessionEstablishError := λ _ _, Ok relay_socket.

Definition outcome_of (d : Driver) : RelayAcquisitionOutcome (PreparedRelay := SocketAddr) :=
  run_relay_acquisition [alice_node] elsewhere (canary_rejected_relayers d) accept.

Definition started := start_step id (PreparedRelay := SocketAddr) (spawn_driver nowhere) env.
Definition held := run_round id id started.1.2 env (outcome_of started.1.2) (Verified 3 3) true.
Definition the_relay : AcquiredRelay := mk_acquired alice relay_socket.
Definition lost := hold_step id held.1.2 env the_relay (Revalidated (Rejected 0 3)).
Definition failed := run_round id id lost.1.2 env (outcome_of lost.1.2) (Verified 3 3) true.
Definition retried := backoff_step id (PreparedRelay := SocketAddr) failed.1.2 env BackoffOver.

Definition held_log : list Effect := held.2 ++ started.2.
Definition whole_log : list Effect := retried.2 ++ failed.2 ++ lost.2 ++ held_log.

Lemma held_run : driver_run id id nowhere held_log (Holding the_relay) held.1.2.
Proof.
  assert (H : driver_run id (@id SocketAddr) nowhere started.2 AtLoopHead started.1.2).
  { rewrite <-(app_nil_r started.2). eapply (run_started id id nowhere [] (spawn_driver nowhere) env started); [|done]. constructor. }
  exact (run_rounded id id nowhere started.2 started.1.2 env [alice_node] elsewhere accept (Verified 3 3) true held H eq_refl).
Qed.

Lemma whole_run : driver_run id id nowhere whole_log AtLoopHead retried.1.2.
Proof.
  pose proof (run_held id id nowhere held_log the_relay held.1.2 env (Revalidated (Rejected 0 3)) lost held_run eq_refl) as Hl.
  pose proof (run_rounded id id nowhere _ lost.1.2 env [alice_node] elsewhere accept (Verified 3 3) true failed Hl eq_refl) as Hf.
  exact (run_backed_off id id nowhere _ failed.1.2 env BackoffOver retried Hf eq_refl).
Qed.

Lemma relay_lifecycle_witness :
  holding held_log = Some the_relay ∧ last_published held_log = Some (Some relay_socket) ∧
  relayer_peer_id held.1.2 = Some alice ∧ holding whole_log = None ∧
  (whole_log ≫= obtained_by) ≡ₚ (whole_log ≫= aborted_by) ++ [].
Proof.
  destruct (relay_lifecycle id id nowhere held_log (Holding the_relay) held.1.2 held_run)
    as (_ & (Hh & Hl & Hr & _) & _).
  destruct (relay_lifecycle id id nowhere whole_log AtLoopHead retried.1.2 whole_run) as (_ & (Hn & _) & Ha).
  rewrite Hn in Ha. exact (conj Hh (conj Hl (conj Hr (conj Hn Ha)))).
Defined.

Lemma relay_retry_witness :
  retries whole_log = 1 ∧ excluded_by (lost.2 ++ held_log) = {[alice]} ∧ current_backoff retried.1.2 = seconds 60.
Proof.
  destruct (relay_retry_policy id id nowhere whole_log AtLoopHead retried.1.2 whole_run) as (Hb & _).
  split; [vm_compute; reflexivity|]. split; [by_decide|]. rewrite Hb. vm_compute. reflexivity.
Defined.
End DriverSamples.
